(* ===== verification/_CoqProject ===== *)
-Q . S2P
Prelude.v
Errors.v
ReplTypes.v
KeyCodec.v
FrameCodec.v
Segment.v
Quota.v
Inode.v
Dedup.v
Permissions.v
Store.v
Namespace.v
Commit.v
Usage.v
Ops.v
Boot.v
OpsCreate.v
OpsLink.v
OpsLookup.v
OpsRemove.v
Reclaim.v
OpsRename.v
Lanes.v
FrameStore.v
SegmentStore.v
Frames.v
Extent.v
ExtentSpec.v
SegCounts.v
DataPlane.v
Volume.v
Registry.v
OpsWrite.v
OpsIo.v
OpsSetattr.v
Staged.v
Pipeline.v
Submit.v
PipelineSpec.v
PipelineRuns.v
AttrSpec.v
AttrRuns.v
Verify.v
CompactPlan.v
Compact.v
Gc.v
Tasks.v
CompactSpec.v
CompactTask.v
GcTask.v
World.v
WorldRuns.v
