(* ===== verification/Prelude.v ===== *)
(** * ZeroFS: a verification development

    ZeroFS is a POSIX file system on object storage.  Its metadata lives in a key-value
    tree, its file data in immutable segment objects of compressed, authenticated
    frames; a process serves 9P, NFS and NBD clients over both.  This library models the
    file system proper, everything between the protocol handlers and the key-value
    store, as executable functions, and proves what makes it correct.

    ** The program's parts and the files that model them

    The paths are those of [src/zerofs/src/].

    - [Prelude] (this file): results and the state-and-error monad, machine integers
      with their wrap-around, little- and big-endian bytes, sums over finite maps,
      the tactics and hint databases of the development.
    - [Errors], [Inode], [Permissions]: [fs/errors.rs], [fs/inode.rs], [fs/types.rs],
      [fs/permissions.rs].
    - [ReplTypes]: the validated scalars of [replication/types.rs].
    - [KeyCodec]: [fs/key_codec.rs], every key and value layout of the tree.
    - [FrameCodec], [Segment]: [frame_codec.rs] and [segment.rs]; the cipher, the
      compressors and the checksum are classes ([CodecPrims], [Crc32c]) with the laws
      the code relies on ([CodecPrimsLaws], [Crc32cLaws]).
    - [Quota]: [fs/quota.rs].
    - [Dedup]: [dedup.rs], the ledger of retained results.
    - [Store]: the tree as one finite map per key kind, the write transaction of [db.rs]
      and the stores of [fs/store/].
    - [Namespace]: no code; the invariant of the directory tree and what the elementary
      changes of the operations do to it.
    - [Commit], [Usage]: the commit worker of [fs/write_coordinator.rs] with the usage
      counters of [fs/stats.rs].  [FS] is the state the operations share.
    - [Ops], [Boot]: what every operation uses, and opening a volume ([fs/ops/mod.rs],
      [fs/handle.rs], [fs/boot.rs]).
    - [OpsCreate], [OpsLink], [OpsLookup], [OpsRemove], [OpsRename]: [fs/ops/]; the listing
      of directories is in [OpsLookup], over the scans of [fs/store/directory.rs].
    - [Reclaim]: deferred deletion ([fs/handle.rs]).
    - [Lanes]: the append lanes of [fs/store/extent/write.rs], where writers claim byte
      ranges of an open segment and fill them in any order.
    - [SegmentStore]: [segment_store.rs], uploads, ranged reads and the reconstruction of
      segments at takeover, over an object store whose replies may be lost or repeated.
    - [FrameStore]: the interface between the extent map and the storage of frames, a
      class of operations with their laws.  [Frames] implements it: lanes, sealing
      buffers and objects, their rotation, background seals and the flush barrier
      ([seal_open]).
    - [Extent]: the extent map above that interface ([fs/store/extent/write.rs] and
      [read.rs]): reads, writes, truncation, hole punching, with the tail and decoded
      caches.  [ExtentSpec] specifies it by byte-level files ([VFile]); [SegCounts] is
      about the per-segment live counters; [DataPlane] puts the layers together.
    - [Volume], [OpsWrite], [OpsIo]: the write path over both planes ([fs/ops/write.rs],
      [fs/ops/io.rs], [fs/mutation/types.rs]): what queued transactions share
      ([fs/store/inode.rs], [fs/store/extent/inflight.rs]), write requests up to their
      submission, the worker's turn over the queue, reads, [trim] and [fallocate].
    - [OpsSetattr]: [fs/ops/setattr.rs], attribute changes with the truncation they may
      carry, and the access time of a read.  [AttrSpec] specifies them together with [trim]
      and [fallocate] on a volume whose queue is drained; [AttrRuns] has a concrete run.
    - [Registry], [Staged], [Pipeline], [Submit]: no code; the invariants of the two
      registries, what one queued write will do to the volume, the invariant of the queue
      ([PipeInv]) and that submissions and turns keep it.  [PipelineSpec] has the abstract
      machine and the refinement, [PipelineRuns] a concrete run.
    - [CompactPlan], [Compact]: compaction ([fs/store/extent/compact.rs]), the cutting of
      gathered extents into objects and the task that gathers, packs and repoints, as a
      machine whose steps interleave with everything else.
    - [Verify], [Gc]: reclaim ([fs/store/extent/reclaim.rs]), the scans of the tree that
      come before the delete of a segment, and the reclaim pass and orphan sweep as a
      machine of the same kind, with the flush of [fs/flush_coordinator.rs].
    - [Tasks], [CompactSpec], [CompactTask], [GcTask]: no code; what a background task may
      rely on while others run, and that every step of the two machines keeps its
      invariant.  [World] puts the volume, the durable tree and the task together;
      [WorldRuns] has a concrete run through all of it.

    ** How state and effects are modelled

    A Rust [Result] is [result]; a fallible function that mutates shared state is a
    function of [stM].  An operation takes the inode locks it needs and then runs on its
    own, so it is one function of the shared state [FS]; operations that look names up
    before they take their locks are split there, and the part under the locks is
    verified for whatever the earlier look saw.  What the environment decides (clocks,
    the metadata fence, the fate of the commit) is a parameter ([Ops.Env],
    [Commit.Outcome]).  Integers are [Z]; [u64] and [u32] arithmetic wraps, saturates or
    is checked as in the source.

    ** What the theorems show

    - Namespace: every create, mkdir, mknod, symlink, link, remove, rename, reclaim and
      startup drain preserves [Namespace.NsInv] on every path, and has exactly the
      effect it reports; errors other than that of the final flush change nothing.  With an
      operation id, a success is recorded in the ledger, and a call that finds its reply
      recorded gives that reply and changes nothing.
    - Directory listing: a directory read page by page while other operations run between
      the pages returns no entry twice and misses none that was there throughout.
    - Permissions: the access check is the POSIX rule for some group membership that
      agrees with the credentials.
    - Commit worker: a process never hands an inode id out twice, nor one that an inode of
      the tree ever had, also after a restart from the last flush; the usage counters are
      exact, whatever batches fail.
    - Ledgers: the quota and dedup ledgers keep their invariants under every
      interleaving of calls, and replay returns what was recorded.
    - Data plane: a file read back is the file written: [read_range] and the data
      operations refine byte-level files whatever holds the frames; the interleavings of
      a lane's writers, a restart after a flush and a takeover lose no frame, and
      the directory of a finished lane has exactly the frames its writers claimed; the live
      counters of segments are exact.
    - Write pipeline: writes are queued before they are applied, staged on the inodes of
      writes queued before them, and drained in batches; the volume refines files that the
      committed writes change one after the other, with the namespace, the counters and the
      quota exact, also when batches fail that no queued write builds on.  A failing batch of
      any kind changes no file; that it may lose writes queued behind it is a finding.  A
      queued write is answered with the inode that is visible from then on, a refused one
      changes nothing.
    - Attribute changes, access times, punched holes and space allocation: who is permitted
      what, and that the inode, the bytes, the counters and the quota change together.
    - Background tasks: compaction and reclaim, interleaved with writes, batches, reads,
      uploads and flushes in any order, are invisible to clients; no extent ever refers to
      a deleted segment, and after a crash the durable tree has every file of the last
      flush.  The verify before a delete is exact; packed objects are bounded in size and
      keep files together.
    - Formats: keys never collide, scans are exact, stamps, pointers, frames, segments
      and their directories read back as written.
    - Findings, as theorems about the same definitions: renames into a non-directory,
      a cycle made by two concurrent renames, a quota disabled by one request, a pending
      result that expires, an acknowledged write lost behind a failed one.

    ** Fuel and bounds

    [OpsRename.ancestor_walk] has fuel; [is_ancestor_of_correct] shows that the number of
    inodes is enough.  [Frames.seal_loop] has one unit per dirty lane and one for the
    last turn, and [flush_durable] shows that it always returns.  [Extent.plan_pieces]
    and [SegmentStore.upload_parts] get one unit per extent or byte, more than their
    loops use.  Theorems about operations ask for two free inode ids ([Ops.id_room]);
    those about the data plane for offsets below the last extent of the 64-bit range.

    ** Not modelled

    Protocol handlers and clients, configuration, the object store and its caches, the
    replication transport, the write-back journal, and the cadence of background tasks:
    they are I/O around this core.  Which segments are compacted
    ([fs/store/extent/select.rs]) is left open: [World] lets compaction start with any.
    Attribute changes are verified on a volume at rest, not between queued writes of other
    files, and a page of a directory listing reads one state of the tree.  The
    content-verified rename of the web interface, the volatile write-back overlay of the
    write path, the tracer and the statistics of operations are not modelled. *)

From Stdlib Require Export ZArith Lia List.
From stdpp Require Export base tactics numbers list gmap sets.

#[global] Open Scope Z_scope.
Create HintDb zerofs.
#[export] Set Warnings "-clear-no-such-hyp".

(** ** Results and the state-and-error monad

    A Rust [Result<A, E>] is [result E A].  A function that mutates shared state
    and may return early with an error is a value of [stM S E A]; an early
    return keeps the state changes made before it, as in the source. *)

Inductive result (E A : Type) : Type :=
| Ok (a : A)
| Err (e : E).
Arguments Ok {E A} a.
Arguments Err {E A} e.

#[export] Instance result_ret {E} : MRet (result E) := fun A a => Ok a.
#[export] Instance result_bind {E} : MBind (result E) :=
  fun A B k r => match r with Ok a => k a | Err e => Err e end.
#[export] Instance result_fmap {E} : FMap (result E) :=
  fun A B f r => match r with Ok a => Ok (f a) | Err e => Err e end.

Definition is_ok {E A} (r : result E A) : bool :=
  match r with Ok _ => true | Err _ => false end.

(** [Option::ok_or]. *)
Definition ok_or {E A} (e : E) (o : option A) : result E A :=
  match o with Some a => Ok a | None => Err e end.

(** An early return: [if !b { return Err(e) }]. *)
Definition ensure {E} (b : bool) (e : E) : result E unit :=
  if b then Ok tt else Err e.

Definition stM (S E A : Type) : Type := S -> result E A * S.

#[export] Instance stM_ret {S E} : MRet (stM S E) := fun A a s => (Ok a, s).
#[export] Instance stM_bind {S E} : MBind (stM S E) :=
  fun A B k m s =>
    match m s with
    | (Ok a, s') => k a s'
    | (Err e, s') => (Err e, s')
    end.

Definition getS {S E} : stM S E S := fun s => (Ok s, s).
Definition putS {S E} (s : S) : stM S E unit := fun _ => (Ok tt, s).
Definition liftR {S E A} (r : result E A) : stM S E A := fun s => (r, s).
Definition throwS {S E A} (e : E) : stM S E A := fun s => (Err e, s).

Section monad_facts.
Context {S E : Type}.

Lemma stM_bind_Ok {A B} (m : stM S E A) (k : A -> stM S E B) s b s' :
  (m ≫= k) s = (Ok b, s') <->
  exists a s1, m s = (Ok a, s1) /\ k a s1 = (Ok b, s').
Proof.
  unfold mbind, stM_bind. destruct (m s) as [[a|e] s1] eqn:Hm.
  - split; [intros; by exists a, s1 | naive_solver].
  - split; [discriminate | naive_solver].
Qed.

Lemma stM_bind_Err {A B} (m : stM S E A) (k : A -> stM S E B) s e s' :
  (m ≫= k) s = (Err e, s') <->
  m s = (Err e, s') \/ exists a s1, m s = (Ok a, s1) /\ k a s1 = (Err e, s').
Proof.
  unfold mbind, stM_bind. destruct (m s) as [[a|e1] s1] eqn:Hm; naive_solver.
Qed.

Lemma result_bind_Ok {A B} (r : result E A) (k : A -> result E B) b :
  (r ≫= k) = Ok b <-> exists a, r = Ok a /\ k a = Ok b.
Proof. destruct r; cbn; naive_solver. Qed.

Lemma ensure_Ok (b : bool) (e : E) u : ensure b e = Ok u <-> b = true.
Proof. destruct b, u; cbn; naive_solver. Qed.

Lemma ok_or_Ok {A} (e : E) (o : option A) a : ok_or e o = Ok a <-> o = Some a.
Proof. destruct o; cbn; naive_solver. Qed.
End monad_facts.

(** One step of a result computation known to succeed. *)
Ltac ok_step H :=
  match type of H with
  | (_ ≫= _) = Ok _ =>
      let x := fresh "x" in let E := fresh "E" in
      apply result_bind_Ok in H as (x & E & H);
      try (apply ensure_Ok in E); try (apply ok_or_Ok in E);
      match type of x with unit => destruct x | _ => idtac end
  end.

(** ** Machine integers

    A [uN] is a [Z] in [0, 2^N); the wrapping, saturating and checked
    operations of the standard library are written out.  The release profile
    of the program does not enable overflow checks, so a plain [+] wraps. *)

Definition U8_MAX : Z := 255.
Definition U16_MAX : Z := 65535.
Definition U32_MAX : Z := 4294967295.
Definition U64_MAX : Z := 18446744073709551615.
Definition I64_MAX : Z := 9223372036854775807.
Definition I64_MIN : Z := -9223372036854775808.

Definition u32_wrap (x : Z) : Z := x mod 4294967296.
Definition u64_wrap (x : Z) : Z := x mod 18446744073709551616.

Definition is_u8 (x : Z) : Prop := 0 <= x <= U8_MAX.
Definition is_u32 (x : Z) : Prop := 0 <= x <= U32_MAX.
Definition is_u64 (x : Z) : Prop := 0 <= x <= U64_MAX.

Definition sat_sub (x y : Z) : Z := Z.max 0 (x - y).
Definition sat_add_u64 (x y : Z) : Z := Z.min U64_MAX (x + y).
Definition checked_add_u64 (x y : Z) : option Z :=
  if x + y <=? U64_MAX then Some (x + y) else None.
Definition checked_sub (x y : Z) : option Z :=
  if y <=? x then Some (x - y) else None.
Definition div_ceil (x y : Z) : Z := (x + y - 1) / y.
(** [i64::saturating_add] and [u64::saturating_add_signed]. *)
Definition sat_add_i64 (x y : Z) : Z := Z.max I64_MIN (Z.min I64_MAX (x + y)).
Definition sat_add_signed (x d : Z) : Z := Z.max 0 (Z.min U64_MAX (x + d)).

Ltac unfold_ints :=
  unfold is_u8, is_u32, is_u64, sat_sub, sat_add_u64, sat_add_i64,
    sat_add_signed, U8_MAX, U16_MAX, U32_MAX, U64_MAX, I64_MAX, I64_MIN in *.
Ltac ulia := unfold_ints; lia.

Lemma u64_wrap_id x : is_u64 x -> u64_wrap x = x.
Proof. intros. unfold u64_wrap. apply Z.mod_small. ulia. Qed.
Lemma u32_wrap_id x : is_u32 x -> u32_wrap x = x.
Proof. intros. unfold u32_wrap. apply Z.mod_small. ulia. Qed.
Lemma u64_wrap_range x : is_u64 (u64_wrap x).
Proof. unfold u64_wrap. pose proof (Z.mod_pos_bound x 18446744073709551616). ulia. Qed.

Lemma checked_add_u64_Some x y z :
  checked_add_u64 x y = Some z <-> z = x + y /\ x + y <= U64_MAX.
Proof. unfold checked_add_u64. destruct (x + y <=? U64_MAX) eqn:E; naive_solver lia. Qed.
Lemma checked_sub_Some x y z : checked_sub x y = Some z <-> z = x - y /\ y <= x.
Proof. unfold checked_sub. destruct (y <=? x) eqn:E; naive_solver lia. Qed.

(** ** Bytes *)

Abbreviation bytes := (list Z).
Definition byte_ok (b : Z) : Prop := 0 <= b < 256.
Definition bytes_ok (bs : list Z) : Prop := Forall byte_ok bs.
#[export] Instance byte_ok_dec b : Decision (byte_ok b).
Proof. unfold byte_ok. apply _. Defined.
#[export] Instance bytes_ok_dec bs : Decision (bytes_ok bs).
Proof. unfold bytes_ok. apply _. Defined.

(** [uN::to_le_bytes], [uN::to_be_bytes] and their inverses. *)
Fixpoint le_bytes (n : nat) (x : Z) : list Z :=
  match n with
  | O => []
  | S n' => x mod 256 :: le_bytes n' (x / 256)
  end.
Fixpoint le_val (bs : list Z) : Z :=
  match bs with
  | [] => 0
  | b :: r => b + 256 * le_val r
  end.
Definition be_bytes (n : nat) (x : Z) : list Z := rev (le_bytes n x).
Definition be_val (bs : list Z) : Z := le_val (rev bs).

Definition pow256 (n : nat) : Z := 256 ^ Z.of_nat n.

(** [&data[a..b]], where the source has checked the length before. *)
Definition slice (a b : nat) (bs : list Z) : list Z := take (b - a) (drop a bs).

(** [slice.starts_with(prefix)]. *)
Fixpoint starts_with (p bs : list Z) : bool :=
  match p, bs with
  | [], _ => true
  | x :: p', y :: bs' => (x =? y) && starts_with p' bs'
  | _ :: _, [] => false
  end.

(** The byte-wise lexicographic order in which an LSM tree stores its keys. *)
Fixpoint bytes_ltb (xs ys : list Z) {struct ys} : bool :=
  match ys, xs with
  | [], _ => false
  | _ :: _, [] => true
  | y :: ys', x :: xs' => (x <? y) || ((x =? y) && bytes_ltb xs' ys')
  end.
Definition bytes_leb (xs ys : list Z) : bool := negb (bytes_ltb ys xs).

(** Membership in the half-open key range [[start, end)]. *)
Definition in_range (start stop key : list Z) : bool :=
  bytes_leb start key && bytes_ltb key stop.

Lemma pow256_0 : pow256 0 = 1.
Proof. reflexivity. Qed.
Lemma pow256_S n : pow256 (S n) = 256 * pow256 n.
Proof. unfold pow256. rewrite Nat2Z.inj_succ, Z.pow_succ_r; lia. Qed.
Lemma pow256_pos n : 0 < pow256 n.
Proof. unfold pow256. apply Z.pow_pos_nonneg; lia. Qed.
Lemma pow256_8 : pow256 8 = 18446744073709551616.
Proof. reflexivity. Qed.
Lemma pow256_4 : pow256 4 = 4294967296.
Proof. reflexivity. Qed.

Lemma length_le_bytes n x : length (le_bytes n x) = n.
Proof. revert x. induction n; intros; cbn; auto. Qed.
Lemma length_be_bytes n x : length (be_bytes n x) = n.
Proof. unfold be_bytes. by rewrite length_rev, length_le_bytes. Qed.

Lemma le_bytes_ok n x : bytes_ok (le_bytes n x).
Proof.
  revert x. induction n; intros; cbn; constructor; [|apply IHn].
  apply Z.mod_pos_bound. lia.
Qed.
Lemma be_bytes_ok n x : bytes_ok (be_bytes n x).
Proof. unfold bytes_ok, be_bytes. apply List.Forall_rev, le_bytes_ok. Qed.

Lemma le_val_bytes n x : 0 <= x < pow256 n -> le_val (le_bytes n x) = x.
Proof.
  revert x. induction n; intros x Hx; cbn [le_bytes le_val].
  - rewrite pow256_0 in Hx. lia.
  - rewrite pow256_S in Hx. rewrite IHn.
    + rewrite (Z.div_mod x 256) at 3; lia.
    + split; [apply Z.div_pos; lia | apply Z.div_lt_upper_bound; lia].
Qed.
Lemma be_val_bytes n x : 0 <= x < pow256 n -> be_val (be_bytes n x) = x.
Proof. intros. unfold be_val, be_bytes. rewrite rev_involutive. by apply le_val_bytes. Qed.

Lemma le_val_range bs : bytes_ok bs -> 0 <= le_val bs < pow256 (length bs).
Proof.
  induction 1 as [|b bs Hb _ IH]; cbn [le_val length]; rewrite ?pow256_0, ?pow256_S;
    unfold byte_ok in *; lia.
Qed.
Lemma be_val_range bs : bytes_ok bs -> 0 <= be_val bs < pow256 (length bs).
Proof.
  intros. unfold be_val. rewrite <- (length_rev bs). apply le_val_range.
  by apply List.Forall_rev.
Qed.

Lemma le_bytes_val bs : bytes_ok bs -> le_bytes (length bs) (le_val bs) = bs.
Proof.
  induction 1 as [|b bs Hb _ IH]; cbn [le_val length le_bytes]; [done|].
  unfold byte_ok in Hb. rewrite (Z.mul_comm 256), Z.mod_add, Z.div_add by lia.
  rewrite Z.mod_small, Z.div_small, Z.add_0_l by lia. by rewrite IH.
Qed.

Lemma be_bytes_val bs : bytes_ok bs -> be_bytes (length bs) (be_val bs) = bs.
Proof.
  intros. unfold be_bytes, be_val. rewrite <- (length_rev bs), le_bytes_val.
  - apply rev_involutive.
  - by apply List.Forall_rev.
Qed.

Lemma le_bytes_inj n x y :
  0 <= x < pow256 n -> 0 <= y < pow256 n -> le_bytes n x = le_bytes n y -> x = y.
Proof. intros Hx Hy E. rewrite <- (le_val_bytes n x), <- (le_val_bytes n y), E; auto. Qed.
Lemma be_bytes_inj n x y :
  0 <= x < pow256 n -> 0 <= y < pow256 n -> be_bytes n x = be_bytes n y -> x = y.
Proof. intros Hx Hy E. rewrite <- (be_val_bytes n x), <- (be_val_bytes n y), E; auto. Qed.

(** Slices of a concatenation whose first part has a known length. *)
Lemma take_app_exact {A} n (xs ys : list A) : length xs = n -> take n (xs ++ ys) = xs.
Proof. intros <-. apply take_app_length. Qed.
Lemma drop_app_exact {A} n (xs ys : list A) : length xs = n -> drop n (xs ++ ys) = ys.
Proof. intros <-. apply drop_app_length. Qed.
Lemma take_exact {A} n (xs : list A) : length xs = n -> take n xs = xs.
Proof. intros <-. apply take_ge. lia. Qed.

Lemma slice_app_mid n m (xs ys zs : list Z) :
  length xs = n -> length ys = (m - n)%nat -> slice n m (xs ++ ys ++ zs) = ys.
Proof. intros Hx Hy. unfold slice. rewrite drop_app_exact, take_app_exact; auto. Qed.

Lemma slice_skip off e (a b : list Z) :
  (length a <= off)%nat -> slice off e (a ++ b) = slice (off - length a) (e - length a) b.
Proof. intros. unfold slice. rewrite drop_app_ge by lia. f_equal. lia. Qed.
Lemma slice_head n (a b : list Z) : length a = n -> slice 0 n (a ++ b) = a.
Proof. intros <-. unfold slice. cbn [drop]. rewrite Nat.sub_0_r. apply take_app_length. Qed.
Lemma slice_all n (a : list Z) : length a = n -> slice 0 n a = a.
Proof. intros H. rewrite <- (app_nil_r a) at 1. by apply slice_head. Qed.
Lemma lookup_slice (a b k : nat) (d : list Z) :
  (k < b - a)%nat -> slice a b d !! k = d !! (a + k)%nat.
Proof. intros Hk. unfold slice. by rewrite lookup_take_lt, lookup_drop. Qed.

Lemma starts_with_app p bs : starts_with p (p ++ bs) = true.
Proof. induction p; cbn; [done|]. rewrite Z.eqb_refl. done. Qed.
Lemma starts_with_spec p bs : starts_with p bs = true <-> exists r, bs = p ++ r.
Proof.
  revert bs. induction p as [|x p IH]; intros [|y bs]; cbn.
  - split; [by exists [] | done].
  - split; [by eexists | done].
  - split; [done | by intros [? ?]].
  - rewrite andb_true_iff, Z.eqb_eq, IH. naive_solver.
Qed.

(** *** The lexicographic order *)

Lemma bytes_ltb_irrefl xs : bytes_ltb xs xs = false.
Proof. induction xs; cbn; [done|]. rewrite Z.ltb_irrefl, Z.eqb_refl. done. Qed.
Lemma bytes_ltb_common p xs ys : bytes_ltb (p ++ xs) (p ++ ys) = bytes_ltb xs ys.
Proof. induction p; cbn; [done|]. rewrite Z.ltb_irrefl, Z.eqb_refl. done. Qed.
Lemma bytes_leb_common p xs ys : bytes_leb (p ++ xs) (p ++ ys) = bytes_leb xs ys.
Proof. unfold bytes_leb. by rewrite bytes_ltb_common. Qed.
Lemma bytes_leb_prefix p xs : bytes_leb p (p ++ xs) = true.
Proof. unfold bytes_leb. rewrite <- (app_nil_r p) at 2. rewrite bytes_ltb_common. by destruct xs. Qed.

Lemma bytes_ltb_app_same_length xs ys us vs :
  length xs = length ys ->
  bytes_ltb (xs ++ us) (ys ++ vs) =
    bytes_ltb xs ys || (bool_decide (xs = ys) && bytes_ltb us vs).
Proof.
  revert ys. induction xs as [|x xs IH]; intros [|y ys] Hl; try done; cbn.
  injection Hl as Hl. rewrite (IH ys Hl).
  destruct (Z.ltb_spec x y); cbn; [done|].
  destruct (Z.eqb_spec x y) as [->|]; cbn.
  - f_equal. f_equal. apply bool_decide_ext. naive_solver.
  - symmetry. rewrite bool_decide_false by naive_solver. done.
Qed.

Lemma bytes_leb_trans xs : forall ys zs, bytes_leb xs ys = true -> bytes_leb ys zs = true -> bytes_leb xs zs = true.
Proof.
  unfold bytes_leb. setoid_rewrite negb_true_iff. induction xs as [|x xs IH]; intros [|y ys] [|z zs]; cbn; try done.
  rewrite !orb_false_iff, !andb_false_iff, !Z.ltb_ge, !Z.eqb_neq. intros [Hxy Hxy'] [Hyz Hyz']. split; [lia|].
  destruct (decide (z = x)) as [->|]; [|by left]. assert (x = y) as -> by lia. right. eapply IH; [destruct Hxy'|destruct Hyz']; done.
Qed.
Lemma bytes_leb_total xs : forall ys, bytes_leb xs ys = true \/ bytes_leb ys xs = true.
Proof.
  unfold bytes_leb. setoid_rewrite negb_true_iff. induction xs as [|x xs IH]; intros [|y ys]; cbn; try (by auto).
  rewrite !orb_false_iff, !andb_false_iff, !Z.ltb_ge, !Z.eqb_neq.
  destruct (Z.lt_total x y) as [?|[->|?]]; [left; split; [lia|left; lia]| |right; split; [lia|left; lia]].
  destruct (IH ys) as [?|?]; [left|right]; (split; [lia|by right]).
Qed.

Lemma be_bytes_S n x : be_bytes (S n) x = be_bytes n (x / 256) ++ [x mod 256].
Proof. reflexivity. Qed.

(** Big-endian encodings sort as the numbers they encode. *)
Lemma be_bytes_ltb n x y :
  0 <= x < pow256 n -> 0 <= y < pow256 n ->
  bytes_ltb (be_bytes n x) (be_bytes n y) = (x <? y).
Proof.
  revert x y. induction n as [|n IH]; intros x y Hx Hy.
  - rewrite pow256_0 in *. cbn. symmetry. apply Z.ltb_ge. lia.
  - rewrite pow256_S in *. rewrite !be_bytes_S.
    assert (Hx' : 0 <= x / 256 < pow256 n)
      by (split; [apply Z.div_pos | apply Z.div_lt_upper_bound]; lia).
    assert (Hy' : 0 <= y / 256 < pow256 n)
      by (split; [apply Z.div_pos | apply Z.div_lt_upper_bound]; lia).
    rewrite bytes_ltb_app_same_length by by rewrite !length_be_bytes.
    rewrite IH by done.
    assert (bool_decide (be_bytes n (x / 256) = be_bytes n (y / 256)) = (x / 256 =? y / 256)) as ->.
    { destruct (Z.eqb_spec (x / 256) (y / 256)) as [->|Hne].
      - by apply bool_decide_true.
      - apply bool_decide_false. intros E. by apply Hne, (be_bytes_inj n). }
    cbn. rewrite andb_false_r, orb_false_r.
    pose proof (Z.div_mod x 256). pose proof (Z.div_mod y 256).
    pose proof (Z.mod_pos_bound x 256). pose proof (Z.mod_pos_bound y 256).
    destruct (Z.ltb_spec (x / 256) (y / 256)), (Z.eqb_spec (x / 256) (y / 256)),
      (Z.ltb_spec (x mod 256) (y mod 256)), (Z.ltb_spec x y); cbn; lia.
Qed.

Create Rewrite HintDb bytes_len.
#[export] Hint Rewrite length_le_bytes length_be_bytes @length_app @length_cons @length_nil : bytes_len.
#[export] Hint Resolve le_bytes_ok be_bytes_ok : zerofs.

#[global] Arguments le_bytes : simpl never.
#[global] Arguments be_bytes : simpl never.
#[global] Arguments slice : simpl never.

(** *** Lists related element by element *)

Lemma Forall2_elem_l {A B} (P : A -> B -> Prop) l k x : Forall2 P l k -> x ∈ l -> exists y, y ∈ k /\ P x y.
Proof.
  induction 1 as [|a b l k Hab _ IH]; [by intros ?%not_elem_of_nil|].
  intros [->|Hx]%elem_of_cons; [exists b; split; [left|done]|]. destruct (IH Hx) as (y & Hy & Hp). exists y. split; [by right|done].
Qed.

(** ** Sums over finite maps

    Link counts, entry counts, charged bytes and live segment bytes are all sums
    over the entries of a map. *)

Section msum.
Context `{Countable K} {A : Type}.
Implicit Types (m : gmap K A) (f g : K -> A -> Z).

Definition msum f m : Z := map_fold (fun k v acc => f k v + acc) 0 m.

Lemma msum_empty f : msum f ∅ = 0.
Proof. apply map_fold_empty. Qed.

Lemma msum_insert_new f m k v :
  m !! k = None -> msum f (<[k:=v]> m) = f k v + msum f m.
Proof. intros Hk. unfold msum. rewrite map_fold_insert_L; [done|intros; lia|done]. Qed.

Lemma msum_delete f m k v :
  m !! k = Some v -> msum f (delete k m) = msum f m - f k v.
Proof.
  intros Hk. rewrite <- (insert_delete_id m k v Hk) at 2.
  rewrite msum_insert_new by apply lookup_delete_eq. lia.
Qed.

Lemma msum_insert_upd f m k v w :
  m !! k = Some w -> msum f (<[k:=v]> m) = msum f m - f k w + f k v.
Proof.
  intros Hk. rewrite <- insert_delete_eq, msum_insert_new by apply lookup_delete_eq.
  rewrite (msum_delete f m k w Hk). lia.
Qed.

Lemma msum_delete_none f m k : m !! k = None -> msum f (delete k m) = msum f m.
Proof. intros. by rewrite delete_id. Qed.

Lemma msum_ext f g m :
  (forall k v, m !! k = Some v -> f k v = g k v) -> msum f m = msum g m.
Proof.
  induction m as [|k v m Hk IH] using map_ind; intros E; [done|].
  rewrite !msum_insert_new by done. rewrite E by (by simplify_map_eq).
  rewrite IH; [done|]. intros k' v' Hk'. apply E. rewrite lookup_insert_ne by congruence. done.
Qed.

Lemma msum_nonneg f m :
  (forall k v, m !! k = Some v -> 0 <= f k v) -> 0 <= msum f m.
Proof.
  induction m as [|k v m Hk IH] using map_ind; intros E; [by rewrite msum_empty|].
  rewrite msum_insert_new by done. assert (0 <= f k v) by (apply E; by simplify_map_eq).
  assert (0 <= msum f m); [|lia]. apply IH. intros k' v' Hk'. apply E.
  rewrite lookup_insert_ne by congruence. done.
Qed.

Lemma msum_ge f m k v :
  (forall k v, m !! k = Some v -> 0 <= f k v) -> m !! k = Some v -> f k v <= msum f m.
Proof.
  intros E Hk. rewrite <- (insert_delete_id m k v Hk).
  rewrite msum_insert_new by apply lookup_delete_eq.
  assert (0 <= msum f (delete k m)); [|lia]. apply msum_nonneg.
  intros k' v' [_ Hk']%lookup_delete_Some. by apply E.
Qed.

Lemma msum_zero f m :
  (forall k v, m !! k = Some v -> f k v = 0) -> msum f m = 0.
Proof.
  intros E. rewrite (msum_ext f (fun _ _ => 0)) by done. clear E.
  induction m as [|k v m Hk IH] using map_ind; [done|]. rewrite msum_insert_new by done. lia.
Qed.

Lemma msum_zero_inv f m k v :
  (forall k v, m !! k = Some v -> 0 <= f k v) -> msum f m = 0 -> m !! k = Some v -> f k v = 0.
Proof.
  intros E H0 Hk. pose proof (msum_ge f m k v E Hk). pose proof (E k v Hk). lia.
Qed.

Lemma msum_add f g m : msum (fun k v => f k v + g k v) m = msum f m + msum g m.
Proof.
  induction m as [|k v m Hk IH] using map_ind; [done|]. rewrite !msum_insert_new, IH by done. lia.
Qed.

Lemma msum_opp f m : msum (fun k v => - f k v) m = - msum f m.
Proof.
  induction m as [|k v m Hk IH] using map_ind; [done|]. rewrite !msum_insert_new, IH by done. lia.
Qed.

Lemma msum_le f g m :
  (forall k v, m !! k = Some v -> f k v <= g k v) -> msum f m <= msum g m.
Proof.
  intros E. assert (0 <= msum (fun k v => g k v + - f k v) m).
  { apply msum_nonneg. intros k v Hk. specialize (E k v Hk). lia. }
  rewrite msum_add, msum_opp in *. lia.
Qed.

(** A single positive term. *)
Lemma msum_one_inv f m k v k' v' :
  (forall k v, m !! k = Some v -> 0 <= f k v) -> msum f m = 1 ->
  m !! k = Some v -> f k v = 1 -> m !! k' = Some v' -> f k' v' = 1 -> k = k'.
Proof.
  intros E H1 Hk Hf Hk' Hf'. destruct (decide (k = k')) as [|Hne]; [done|].
  assert (f k' v' <= msum f (delete k m)).
  { apply msum_ge; [|by rewrite lookup_delete_ne by congruence].
    intros ?? [_ ?]%lookup_delete_Some. by apply E. }
  rewrite (msum_delete f m k v Hk) in *. lia.
Qed.

(** Counting the entries that satisfy a decidable predicate. *)
Definition mcount (P : K -> A -> bool) m : Z := msum (fun k v => if P k v then 1 else 0) m.

Lemma mcount_nonneg P m : 0 <= mcount P m.
Proof. apply msum_nonneg. intros. by case_match. Qed.

Lemma mcount_pos P m k v : m !! k = Some v -> P k v = true -> 0 < mcount P m.
Proof.
  intros Hk HP. unfold mcount.
  assert (H1 : (if P k v then 1 else 0) <= msum (fun k v => if P k v then 1 else 0) m).
  { apply (msum_ge (fun k v => if P k v then 1 else 0)); [|done]. intros. by case_match. }
  rewrite HP in H1. lia.
Qed.

Lemma mcount_insert_new P m k v :
  m !! k = None -> mcount P (<[k:=v]> m) = mcount P m + (if P k v then 1 else 0).
Proof. intros. unfold mcount. rewrite msum_insert_new by done. lia. Qed.
Lemma mcount_insert_upd P m k v w :
  m !! k = Some w ->
  mcount P (<[k:=v]> m) = mcount P m - (if P k w then 1 else 0) + (if P k v then 1 else 0).
Proof. intros. unfold mcount. by erewrite (msum_insert_upd (fun k v => if P k v then 1 else 0)). Qed.
Lemma mcount_delete P m k w :
  m !! k = Some w -> mcount P (delete k m) = mcount P m - (if P k w then 1 else 0).
Proof. intros. unfold mcount. by erewrite (msum_delete (fun k v => if P k v then 1 else 0)). Qed.

Lemma mcount_zero_inv P m k v : mcount P m = 0 -> m !! k = Some v -> P k v = false.
Proof.
  intros H0 Hk. destruct (P k v) eqn:E; [|done].
  pose proof (mcount_pos P m k v Hk E). lia.
Qed.

Lemma mcount_ext P Q m :
  (forall k v, m !! k = Some v -> P k v = Q k v) -> mcount P m = mcount Q m.
Proof. intros E. apply msum_ext. intros k v Hk. by rewrite (E k v Hk). Qed.

Lemma mcount_pos_inv P m : 0 < mcount P m -> exists k v, m !! k = Some v /\ P k v = true.
Proof.
  unfold mcount. induction m as [|k v m Hk IH] using map_ind; [rewrite msum_empty; lia|].
  rewrite msum_insert_new by done. destruct (P k v) eqn:E; intros Hp.
  - exists k, v. by simplify_map_eq.
  - destruct IH as (k' & v' & ? & ?); [lia|]. exists k', v'.
    rewrite lookup_insert_ne by congruence. done.
Qed.
End msum.
