(* ===== verification/Errors.v ===== *)
(** * Errors

    The error type of the file system ([fs/errors.rs]) and the status codes it
    becomes on the NFS and 9P protocols. *)

From S2P Require Import Prelude.

(** [enum FsError]. *)
Inductive FsError :=
| PermissionDenied | OperationNotPermitted | NotFound | Exists | InvalidArgument
| IoError | NotEmpty | TooManyLinks | NoSpace | RetryLater | IsDirectory
| NotDirectory | NameTooLong | NotSupported | StaleHandle | InvalidData
| ReadOnlyFilesystem | LeaderLeaseExpired | LeaderRejectedBeforeApply | ShuttingDown.

#[export] Instance FsError_eq_dec : EqDecision FsError.
Proof. solve_decision. Defined.
