(* ===== verification/ReplTypes.v ===== *)
(** * Replication scalars

    The validated values of [replication/types.rs]: writer epochs and ship
    sequence numbers are non-zero, a prune watermark precedes its ship, the
    durable frontier never exceeds the applied one, and a durable provenance
    stamp ([HaStamp]) relates them.  The constructors are the only way to build
    the values in the source, so [*_wf] predicates state what they guarantee. *)

From S2P Require Import Prelude.

(** [WriterEpoch::new], [ShipSeqno::new]: a [NonZeroU64]. *)
Definition nonzero_u64 (value : Z) : option Z :=
  if value =? 0 then None else Some value.
Definition WriterEpoch_new (value : Z) : option Z := nonzero_u64 value.
Definition ShipSeqno_new (value : Z) : option Z := nonzero_u64 value.

(** [opt.map_or(0, ShipSeqno::get)]. *)
Definition seqno_or_zero (o : option Z) : Z := match o with Some v => v | None => 0 end.

Definition ShipSeqno_checked_next (s : Z) : option Z := checked_add_u64 s 1.

(** [PruneWatermark::for_ship]; the watermark is an optional seqno. *)
Definition PruneWatermark_for_ship (value current : Z) : option (option Z) :=
  let watermark := ShipSeqno_new value in
  match watermark with
  | Some w => if current <=? w then None else Some watermark
  | None => Some watermark
  end.

Record CoverageFrontier := mkCoverage {
  cov_applied_through : option Z;
  cov_durable_through : option Z }.

Definition CoverageFrontier_new (applied durable : option Z) : option CoverageFrontier :=
  match applied, durable with
  | None, Some _ => None
  | Some a, Some d => if a <? d then None else Some (mkCoverage applied durable)
  | _, None => Some (mkCoverage applied durable)
  end.
Definition CoverageFrontier_from_wire (applied durable : Z) : option CoverageFrontier :=
  CoverageFrontier_new (ShipSeqno_new applied) (ShipSeqno_new durable).

Inductive SoloHistory :=
| SoloNever
| SoloEver (commits_since_last_ship : Z).

Definition SoloHistory_from_parts (commits : Z) (ran_solo : bool) : option SoloHistory :=
  match ran_solo with
  | true => Some (SoloEver commits)
  | false => if commits =? 0 then Some SoloNever else None
  end.
Definition commits_since_last_ship (h : SoloHistory) : Z :=
  match h with SoloNever => 0 | SoloEver c => c end.
Definition ran_solo (h : SoloHistory) : bool :=
  match h with SoloNever => false | SoloEver _ => true end.

Record HaStamp := mkHaStamp {
  writer_epoch : Z;
  last_shipped : option Z;
  solo_history : SoloHistory;
  applied_through : option Z }.

Inductive InvalidHaStamp :=
| AppliedFrontierBehindShip (last_shipped applied_through : Z)
| UnacknowledgedApplyWithoutSoloHistory (last_shipped applied_through : Z).

(** [HaStamp::new]. *)
Definition HaStamp_new (epoch : Z) (shipped : option Z) (solo : SoloHistory)
    (applied : option Z) : result InvalidHaStamp HaStamp :=
  let s := seqno_or_zero shipped in
  let a := seqno_or_zero applied in
  if a <? s then Err (AppliedFrontierBehindShip s a)
  else if (s <? a) && negb (ran_solo solo) then
    Err (UnacknowledgedApplyWithoutSoloHistory s a)
  else Ok (mkHaStamp epoch shipped solo applied).

(** ** What the constructors guarantee *)

Definition seqno_wf (o : option Z) : Prop :=
  match o with Some v => 0 < v <= U64_MAX | None => True end.

Definition HaStamp_wf (st : HaStamp) : Prop :=
  0 < writer_epoch st <= U64_MAX /\
  seqno_wf (last_shipped st) /\ seqno_wf (applied_through st) /\
  is_u64 (commits_since_last_ship (solo_history st)) /\
  seqno_or_zero (last_shipped st) <= seqno_or_zero (applied_through st) /\
  (seqno_or_zero (last_shipped st) < seqno_or_zero (applied_through st) ->
   ran_solo (solo_history st) = true).

Lemma nonzero_u64_Some v w : nonzero_u64 v = Some w <-> w = v /\ v <> 0.
Proof. unfold nonzero_u64. destruct (Z.eqb_spec v 0); naive_solver. Qed.

Lemma seqno_of_zero o : seqno_wf o -> ShipSeqno_new (seqno_or_zero o) = o.
Proof.
  destruct o as [v|]; cbn; [|done]. intros ?. apply nonzero_u64_Some. lia.
Qed.

Lemma ShipSeqno_new_wf v : is_u64 v -> seqno_wf (ShipSeqno_new v).
Proof.
  intros. unfold ShipSeqno_new, nonzero_u64. destruct (Z.eqb_spec v 0); cbn; ulia.
Qed.

Lemma HaStamp_new_Ok e s h a st :
  HaStamp_new e s h a = Ok st <->
  st = mkHaStamp e s h a /\ seqno_or_zero s <= seqno_or_zero a /\
  (seqno_or_zero s < seqno_or_zero a -> ran_solo h = true).
Proof.
  unfold HaStamp_new. cbv zeta.
  destruct (Z.ltb_spec (seqno_or_zero a) (seqno_or_zero s)); [naive_solver lia|].
  destruct (Z.ltb_spec (seqno_or_zero s) (seqno_or_zero a)), (ran_solo h); naive_solver lia.
Qed.

Lemma HaStamp_new_of_wf st :
  HaStamp_wf st ->
  HaStamp_new (writer_epoch st) (last_shipped st) (solo_history st) (applied_through st) = Ok st.
Proof. intros (_&_&_&_&?&?). apply HaStamp_new_Ok. by destruct st. Qed.

Lemma SoloHistory_parts h :
  SoloHistory_from_parts (commits_since_last_ship h) (ran_solo h) = Some h.
Proof. by destruct h. Qed.

(** A frontier accepted from the wire is durable only as far as it is applied. *)
Lemma CoverageFrontier_wire_ordered a d c :
  CoverageFrontier_from_wire a d = Some c ->
  seqno_or_zero (cov_durable_through c) <= Z.max 0 (seqno_or_zero (cov_applied_through c)).
Proof.
  unfold CoverageFrontier_from_wire, CoverageFrontier_new.
  destruct (ShipSeqno_new a) as [a'|] eqn:Ha, (ShipSeqno_new d) as [d'|] eqn:Hd; cbn;
    try case_match; intros; simplify_eq; cbn; lia.
Qed.
