(* ===== verification/KeyCodec.v ===== *)
(** * Key codec

    [fs/key_codec.rs]: the byte layout of every key and counter value stored in
    the LSM tree.  A key is a domain prefix, a kind byte and big-endian ids; the
    theorems say that distinct logical keys have distinct encodings, that the
    range of a kind holds exactly the keys of that kind, that directory scans
    resume strictly after their cookie, and that every decoder inverts its
    encoder. *)

From S2P Require Import Prelude Errors ReplTypes.

Definition PREFIX_INODE : Z := 1.
Definition PREFIX_DIR_ENTRY : Z := 2.
Definition PREFIX_DIR_SCAN : Z := 3.
Definition PREFIX_DIR_COOKIE : Z := 4.
Definition PREFIX_STATS : Z := 5.
Definition PREFIX_SYSTEM : Z := 6.
Definition PREFIX_TOMBSTONE : Z := 7.
Definition PREFIX_ORPHAN : Z := 8.
Definition PREFIX_SEGCOUNT : Z := 9.
Definition PREFIX_EXTENT : Z := 254.

Definition SYSTEM_COUNTER_SUBTYPE : Z := 1.
Definition SYSTEM_HA_SEQNO_SUBTYPE : Z := 2.
Definition SYSTEM_LINEAGE_SUBTYPE : Z := 3.
Definition SYSTEM_TAINT_SUBTYPE : Z := 4.
Definition SYSTEM_ORPHAN_SWEEP_SUBTYPE : Z := 5.

Definition U64_SIZE : nat := 8.

(** [b"meta"] and [b"extent"]. *)
Definition META_DOMAIN : bytes := [109; 101; 116; 97].
Definition EXTENT_DOMAIN : bytes := [101; 120; 116; 101; 110; 116].

Inductive KeyPrefix :=
| PInode | PExtent | PDirEntry | PDirScan | PTombstone | POrphan | PStats
| PSystem | PDirCookie | PSegCount.

#[export] Instance KeyPrefix_eq_dec : EqDecision KeyPrefix.
Proof. solve_decision. Defined.

(** [KeyPrefix::try_from]. *)
Definition KeyPrefix_of_u8 (byte : Z) : option KeyPrefix :=
  if byte =? PREFIX_INODE then Some PInode
  else if byte =? PREFIX_EXTENT then Some PExtent
  else if byte =? PREFIX_DIR_ENTRY then Some PDirEntry
  else if byte =? PREFIX_DIR_SCAN then Some PDirScan
  else if byte =? PREFIX_TOMBSTONE then Some PTombstone
  else if byte =? PREFIX_ORPHAN then Some POrphan
  else if byte =? PREFIX_STATS then Some PStats
  else if byte =? PREFIX_SYSTEM then Some PSystem
  else if byte =? PREFIX_DIR_COOKIE then Some PDirCookie
  else if byte =? PREFIX_SEGCOUNT then Some PSegCount
  else None.

(** [u8::from(KeyPrefix)]. *)
Definition KeyPrefix_to_u8 (p : KeyPrefix) : Z :=
  match p with
  | PInode => PREFIX_INODE
  | PExtent => PREFIX_EXTENT
  | PDirEntry => PREFIX_DIR_ENTRY
  | PDirScan => PREFIX_DIR_SCAN
  | PTombstone => PREFIX_TOMBSTONE
  | POrphan => PREFIX_ORPHAN
  | PStats => PREFIX_STATS
  | PSystem => PREFIX_SYSTEM
  | PDirCookie => PREFIX_DIR_COOKIE
  | PSegCount => PREFIX_SEGCOUNT
  end.

Definition domain (p : KeyPrefix) : bytes :=
  match p with PExtent => EXTENT_DOMAIN | _ => META_DOMAIN end.

Inductive ParsedKey :=
| ParsedDirScan (cookie : Z)
| ParsedTombstone (inode_id : Z)
| ParsedOrphan (inode_id : Z)
| ParsedUnknown.

Definition kind_offset (p : KeyPrefix) : nat := length (domain p).
Definition id_offset (p : KeyPrefix) : nat := (kind_offset p + 1)%nat.
Definition push_prefix (p : KeyPrefix) : bytes := domain p ++ [KeyPrefix_to_u8 p].

Definition inode_key_size : nat := (id_offset PInode + U64_SIZE)%nat.
Definition extent_key_size : nat := (id_offset PExtent + U64_SIZE * 2)%nat.
Definition tombstone_key_size : nat := (id_offset PTombstone + U64_SIZE * 2)%nat.
Definition orphan_key_size : nat := (id_offset POrphan + U64_SIZE)%nat.

(** ** Encoders of keys *)

Definition inode_key (inode_id : Z) : bytes :=
  push_prefix PInode ++ be_bytes U64_SIZE inode_id.
Definition extent_key (inode_id extent_index : Z) : bytes :=
  push_prefix PExtent ++ be_bytes U64_SIZE inode_id ++ be_bytes U64_SIZE extent_index.
Definition segcount_key (epoch counter : Z) : bytes :=
  push_prefix PSegCount ++ be_bytes U64_SIZE epoch ++ be_bytes U64_SIZE counter.
Definition dir_entry_key (dir_id : Z) (name : bytes) : bytes :=
  push_prefix PDirEntry ++ be_bytes U64_SIZE dir_id ++ name.
Definition dir_scan_key (dir_id cookie : Z) : bytes :=
  push_prefix PDirScan ++ be_bytes U64_SIZE dir_id ++ be_bytes U64_SIZE cookie.
Definition dir_scan_prefix (dir_id : Z) : bytes :=
  push_prefix PDirScan ++ be_bytes U64_SIZE dir_id.
(** [resume_after_cookie + 1] wraps at [u64::MAX]. *)
Definition dir_scan_resume_key (dir_id resume_after_cookie : Z) : bytes :=
  dir_scan_prefix dir_id ++ be_bytes U64_SIZE (u64_wrap (resume_after_cookie + 1)).
Definition dir_cookie_counter_key (dir_id : Z) : bytes :=
  push_prefix PDirCookie ++ be_bytes U64_SIZE dir_id.
Definition tombstone_key (timestamp inode_id : Z) : bytes :=
  push_prefix PTombstone ++ be_bytes U64_SIZE timestamp ++ be_bytes U64_SIZE inode_id.
Definition orphan_key (inode_id : Z) : bytes :=
  push_prefix POrphan ++ be_bytes U64_SIZE inode_id.
Definition stats_shard_key (shard_id : Z) : bytes :=
  push_prefix PStats ++ be_bytes U64_SIZE shard_id.
Definition system_counter_key : bytes := push_prefix PSystem ++ [SYSTEM_COUNTER_SUBTYPE].
Definition ha_seqno_key : bytes := push_prefix PSystem ++ [SYSTEM_HA_SEQNO_SUBTYPE].
Definition lineage_key : bytes := push_prefix PSystem ++ [SYSTEM_LINEAGE_SUBTYPE].
Definition taint_key : bytes := push_prefix PSystem ++ [SYSTEM_TAINT_SUBTYPE].
Definition last_orphan_sweep_key : bytes :=
  push_prefix PSystem ++ [SYSTEM_ORPHAN_SWEEP_SUBTYPE].

(** ** Decoders of keys *)

Definition is_extent_key (key : bytes) : bool :=
  (length key =? extent_key_size)%nat && starts_with EXTENT_DOMAIN key
  && bool_decide (key !! kind_offset PExtent = Some PREFIX_EXTENT).

Definition parse_extent_key (key : bytes) : option Z :=
  if negb (is_extent_key key) then None
  else Some (be_val (slice (id_offset PExtent + U64_SIZE) extent_key_size key)).

Definition parse_extent_key_full (key : bytes) : option (Z * Z) :=
  if negb (is_extent_key key) then None
  else
    let id_off := id_offset PExtent in
    Some (be_val (slice id_off (id_off + U64_SIZE) key),
          be_val (slice (id_off + U64_SIZE) extent_key_size key)).

Definition parse_segcount_key (key : bytes) : option (Z * Z) :=
  let id_off := id_offset PSegCount in
  if negb (length key =? id_off + U64_SIZE * 2)%nat
     || negb (starts_with META_DOMAIN key)
     || negb (bool_decide (key !! kind_offset PSegCount = Some PREFIX_SEGCOUNT))
  then None
  else Some (be_val (slice id_off (id_off + U64_SIZE) key),
             be_val (drop (id_off + U64_SIZE) key)).

(** [slice.strip_prefix]. *)
Definition strip_prefix (p key : bytes) : option bytes :=
  if starts_with p key then Some (drop (length p) key) else None.

Definition peek_kind (key : bytes) : option KeyPrefix :=
  match strip_prefix EXTENT_DOMAIN key with
  | Some rest =>
      b ← head rest; kind ← KeyPrefix_of_u8 b;
      if decide (kind = PExtent) then Some kind else None
  | None =>
      match strip_prefix META_DOMAIN key with
      | Some rest =>
          b ← head rest; kind ← KeyPrefix_of_u8 b;
          if decide (kind <> PExtent) then Some kind else None
      | None => None
      end
  end.

Definition parse_key (key : bytes) : ParsedKey :=
  match peek_kind key with
  | None => ParsedUnknown
  | Some kind =>
      let id_off := id_offset kind in
      match kind with
      | PDirScan =>
          let expected := (id_off + U64_SIZE * 2)%nat in
          if negb (length key =? expected)%nat then ParsedUnknown
          else ParsedDirScan (be_val (slice (id_off + U64_SIZE) expected key))
      | PTombstone =>
          if negb (length key =? tombstone_key_size)%nat then ParsedUnknown
          else ParsedTombstone (be_val (slice (id_off + U64_SIZE) tombstone_key_size key))
      | POrphan =>
          if negb (length key =? orphan_key_size)%nat then ParsedUnknown
          else ParsedOrphan (be_val (slice id_off orphan_key_size key))
      | _ => ParsedUnknown
      end
  end.

(** [end[last_idx] += 1] on the kind byte. *)
Definition prefix_range (p : KeyPrefix) : bytes * bytes :=
  (push_prefix p, domain p ++ [(KeyPrefix_to_u8 p + 1) mod 256]).
Definition segcount_prefix_range : bytes * bytes := prefix_range PSegCount.

(** ** Values *)

Definition encode_u64 (value : Z) : bytes := le_bytes U64_SIZE value.
Definition decode_u64 (data : bytes) : option Z :=
  if negb (length data =? U64_SIZE)%nat then None else Some (le_val (take U64_SIZE data)).

Definition encode_segcount (live total : Z) : bytes :=
  le_bytes U64_SIZE live ++ le_bytes U64_SIZE total.
Definition decode_segcount (data : bytes) : option (Z * Z) :=
  if (length data =? U64_SIZE * 2)%nat then
    Some (le_val (take U64_SIZE data), le_val (drop U64_SIZE data))
  else if (length data =? U64_SIZE)%nat then
    let live := le_val (take U64_SIZE data) in Some (live, live)
  else None.

Definition encode_counter (value : Z) : bytes := le_bytes U64_SIZE value.
Definition decode_counter (data : bytes) : result FsError Z :=
  if negb (length data =? U64_SIZE)%nat then Err InvalidData else Ok (le_val data).

Definition encode_dir_entry (inode_id cookie : Z) : bytes :=
  le_bytes U64_SIZE inode_id ++ le_bytes U64_SIZE cookie.
Definition decode_dir_entry (data : bytes) : result FsError (Z * Z) :=
  if (length data <? U64_SIZE * 2)%nat then Err InvalidData
  else Ok (le_val (take U64_SIZE data), le_val (slice U64_SIZE (U64_SIZE * 2) data)).

Definition encode_tombstone_size (size : Z) : bytes := le_bytes U64_SIZE size.
Definition decode_tombstone_size (data : bytes) : result FsError Z :=
  if negb (length data =? U64_SIZE)%nat then Err InvalidData else Ok (le_val data).

Definition encode_ha_stamp (stamp : HaStamp) : bytes :=
  le_bytes U64_SIZE (writer_epoch stamp)
  ++ le_bytes U64_SIZE (seqno_or_zero (last_shipped stamp))
  ++ le_bytes U64_SIZE (commits_since_last_ship (solo_history stamp))
  ++ le_bytes U64_SIZE (seqno_or_zero (applied_through stamp))
  ++ le_bytes U64_SIZE (if ran_solo (solo_history stamp) then 1 else 0).

Definition result_ok {E A} (r : result E A) : option A :=
  match r with Ok a => Some a | Err _ => None end.

Definition decode_ha_stamp (data : bytes) : option HaStamp :=
  if negb (length data =? U64_SIZE * 2)%nat && negb (length data =? U64_SIZE * 3)%nat
     && negb (length data =? U64_SIZE * 5)%nat
  then None
  else
    writer_epoch ← WriterEpoch_new (le_val (take U64_SIZE data));
    let last_shipped := ShipSeqno_new (le_val (slice U64_SIZE (U64_SIZE * 2) data)) in
    if (length data =? U64_SIZE * 2)%nat then
      result_ok (HaStamp_new writer_epoch last_shipped (SoloEver 0) last_shipped)
    else
      let solo := le_val (slice (U64_SIZE * 2) (U64_SIZE * 3) data) in
      if (length data =? U64_SIZE * 3)%nat then
        result_ok (HaStamp_new writer_epoch last_shipped (SoloEver solo) last_shipped)
      else
        let applied_through :=
          ShipSeqno_new (le_val (slice (U64_SIZE * 3) (U64_SIZE * 4) data)) in
        let solo_ever := le_val (drop (U64_SIZE * 4) data) in
        ran_solo ← (if solo_ever =? 0 then Some false
                    else if solo_ever =? 1 then Some true else None);
        solo_history ← SoloHistory_from_parts solo ran_solo;
        result_ok (HaStamp_new writer_epoch last_shipped solo_history applied_through).

(** ** Logical keys

    The keys the rest of the program forms, and the encoder each one uses. *)

Inductive DbKey :=
| KInode (id : Z)
| KExtent (id extent : Z)
| KDirEntry (dir : Z) (name : bytes)
| KDirScan (dir cookie : Z)
| KDirCookie (dir : Z)
| KStats (shard : Z)
| KSysCounter | KSysHaSeqno | KSysLineage | KSysTaint | KSysOrphanSweep
| KTombstone (ts id : Z)
| KOrphan (id : Z)
| KSegCount (epoch counter : Z).

Definition key_bytes (k : DbKey) : bytes :=
  match k with
  | KInode id => inode_key id
  | KExtent id x => extent_key id x
  | KDirEntry d n => dir_entry_key d n
  | KDirScan d c => dir_scan_key d c
  | KDirCookie d => dir_cookie_counter_key d
  | KStats s => stats_shard_key s
  | KSysCounter => system_counter_key
  | KSysHaSeqno => ha_seqno_key
  | KSysLineage => lineage_key
  | KSysTaint => taint_key
  | KSysOrphanSweep => last_orphan_sweep_key
  | KTombstone t id => tombstone_key t id
  | KOrphan id => orphan_key id
  | KSegCount e c => segcount_key e c
  end.

Definition key_kind (k : DbKey) : KeyPrefix :=
  match k with
  | KInode _ => PInode | KExtent _ _ => PExtent | KDirEntry _ _ => PDirEntry
  | KDirScan _ _ => PDirScan | KDirCookie _ => PDirCookie | KStats _ => PStats
  | KSysCounter | KSysHaSeqno | KSysLineage | KSysTaint | KSysOrphanSweep => PSystem
  | KTombstone _ _ => PTombstone | KOrphan _ => POrphan | KSegCount _ _ => PSegCount
  end.

(** Every id of the key is a [u64]. *)
Definition key_wf (k : DbKey) : Prop :=
  match k with
  | KInode x | KDirCookie x | KStats x | KOrphan x | KDirEntry x _ => is_u64 x
  | KExtent x y | KDirScan x y | KTombstone x y | KSegCount x y => is_u64 x /\ is_u64 y
  | _ => True
  end.

(** ** Structure of encoded keys *)

#[local] Opaque be_bytes le_bytes.

Definition key_tail (k : DbKey) : bytes :=
  match k with
  | KInode x | KDirCookie x | KStats x | KOrphan x => be_bytes U64_SIZE x
  | KDirEntry x n => be_bytes U64_SIZE x ++ n
  | KExtent x y | KDirScan x y | KTombstone x y | KSegCount x y =>
      be_bytes U64_SIZE x ++ be_bytes U64_SIZE y
  | KSysCounter => [SYSTEM_COUNTER_SUBTYPE]
  | KSysHaSeqno => [SYSTEM_HA_SEQNO_SUBTYPE]
  | KSysLineage => [SYSTEM_LINEAGE_SUBTYPE]
  | KSysTaint => [SYSTEM_TAINT_SUBTYPE]
  | KSysOrphanSweep => [SYSTEM_ORPHAN_SWEEP_SUBTYPE]
  end.

Lemma u64_pow256 x : is_u64 x <-> 0 <= x < pow256 U64_SIZE.
Proof. change (pow256 U64_SIZE) with 18446744073709551616. ulia. Qed.

Lemma key_bytes_split k : key_bytes k = push_prefix (key_kind k) ++ key_tail k.
Proof. by destruct k. Qed.

Lemma KeyPrefix_u8_roundtrip p : KeyPrefix_of_u8 (KeyPrefix_to_u8 p) = Some p.
Proof. by destruct p. Qed.

Lemma be_u64_inj x y :
  is_u64 x -> is_u64 y -> be_bytes U64_SIZE x = be_bytes U64_SIZE y -> x = y.
Proof. rewrite !u64_pow256. apply be_bytes_inj. Qed.
Lemma be_u64_val x : is_u64 x -> be_val (be_bytes U64_SIZE x) = x.
Proof. rewrite u64_pow256. apply be_val_bytes. Qed.
Lemma le_u64_val x : is_u64 x -> le_val (le_bytes U64_SIZE x) = x.
Proof. rewrite u64_pow256. apply le_val_bytes. Qed.

(** Two-id tails are injective in both ids. *)
Lemma be_pair_inj x y x' y' :
  is_u64 x -> is_u64 y -> is_u64 x' -> is_u64 y' ->
  be_bytes U64_SIZE x ++ be_bytes U64_SIZE y = be_bytes U64_SIZE x' ++ be_bytes U64_SIZE y' ->
  x = x' /\ y = y'.
Proof.
  intros ???? E. apply app_inj_1 in E as [E1 E2]; [|by rewrite !length_be_bytes].
  split; by apply be_u64_inj.
Qed.

Lemma peek_kind_key k : peek_kind (key_bytes k) = Some (key_kind k).
Proof. by destruct k. Qed.

Lemma push_prefix_range p r :
  in_range (prefix_range p).1 (prefix_range p).2 (push_prefix p ++ r) = true.
Proof.
  unfold in_range, prefix_range. cbn [fst snd]. rewrite bytes_leb_prefix. cbn [andb].
  unfold push_prefix. rewrite <- app_assoc, bytes_ltb_common.
  destruct p; reflexivity.
Qed.

(** The key range of a kind excludes the keys of the other kinds. *)
Lemma prefix_range_other p q r :
  p <> q -> in_range (prefix_range p).1 (prefix_range p).2 (push_prefix q ++ r) = false.
Proof. destruct p, q; intros; try done; reflexivity. Qed.

Lemma is_extent_key_spec key :
  is_extent_key key = true <-> exists r, key = push_prefix PExtent ++ r /\ length r = 16%nat.
Proof.
  unfold is_extent_key. rewrite !andb_true_iff, Nat.eqb_eq, starts_with_spec, bool_decide_eq_true.
  split.
  - intros [[Hl [r ->]] Hk]. change (kind_offset PExtent) with (length EXTENT_DOMAIN) in Hk.
    rewrite lookup_app_r, Nat.sub_diag in Hk by done.
    destruct r as [|b r]; [done|]. cbn in Hk. simplify_eq.
    exists r. split; [done|]. cbn in Hl. unfold extent_key_size in Hl. cbn in Hl. lia.
  - intros (r & -> & Hl). repeat split; [|by eexists].
    rewrite length_app, Hl. reflexivity.
Qed.

Lemma split_16 (r : bytes) :
  length r = 16%nat -> exists a b, r = a ++ b /\ length a = 8%nat /\ length b = 8%nat.
Proof.
  intros. exists (take 8 r), (drop 8 r). rewrite take_drop, length_take, length_drop.
  split; [done|lia].
Qed.

(** ** Properties *)

(** C31: distinct logical keys never collide in the LSM tree: the encoders of all
    key kinds are jointly injective on keys whose ids are [u64]s. *)
Theorem key_bytes_injective k1 k2 :
  key_wf k1 -> key_wf k2 -> key_bytes k1 = key_bytes k2 -> k1 = k2.
Proof.
  intros W1 W2 E.
  assert (K : key_kind k1 = key_kind k2).
  { apply (inj Some). rewrite <- !peek_kind_key. by f_equal. }
  rewrite (key_bytes_split k1), (key_bytes_split k2), K in E. apply app_inv_head in E.
  destruct k1, k2; try discriminate K; cbn [key_wf key_tail] in *; try discriminate E;
    try reflexivity; destruct_and?;
    try (apply be_u64_inj in E; [by subst|done|done]);
    try (apply be_pair_inj in E as [-> ->]; [reflexivity|done..]).
  apply app_inj_1 in E as [E1 ->]; [|by rewrite !length_be_bytes].
  apply be_u64_inj in E1; [by subst|done|done].
Qed.

Lemma prefix_range_exact p k :
  in_range (prefix_range p).1 (prefix_range p).2 (key_bytes k) = bool_decide (key_kind k = p).
Proof.
  rewrite key_bytes_split. case_bool_decide as H.
  - rewrite H. apply push_prefix_range.
  - apply prefix_range_other. congruence.
Qed.

Lemma dir_scan_prefix_keys d k :
  is_u64 d -> key_wf k ->
  starts_with (dir_scan_prefix d) (key_bytes k) = true <-> exists c, k = KDirScan d c.
Proof.
  intros Hd Hk. rewrite starts_with_spec. split.
  - intros [r Hr]. assert (K : key_kind k = PDirScan).
    { apply (inj Some). rewrite <- peek_kind_key, Hr. reflexivity. }
    destruct k as [| | |d' c| | | | | | | | | |]; try discriminate K.
    exists c. cbn [key_bytes key_wf] in *. unfold dir_scan_key, dir_scan_prefix in Hr.
    rewrite <- app_assoc in Hr. apply app_inv_head in Hr.
    apply app_inj_1 in Hr as [Hr _]; [|by rewrite !length_be_bytes].
    apply be_u64_inj in Hr; naive_solver.
  - intros [c ->]. exists (be_bytes U64_SIZE c). cbn. unfold dir_scan_prefix. done.
Qed.

Lemma dir_scan_key_order d c c' :
  is_u64 c -> is_u64 c' ->
  bytes_ltb (dir_scan_key d c) (dir_scan_key d c') = (c <? c').
Proof.
  intros. unfold dir_scan_key. rewrite !app_assoc, bytes_ltb_common.
  apply be_bytes_ltb; by apply u64_pow256.
Qed.

Lemma dir_scan_resume_exact d r k :
  is_u64 d -> 0 <= r < U64_MAX -> key_wf k ->
  starts_with (dir_scan_prefix d) (key_bytes k) = true /\
  bytes_leb (dir_scan_resume_key d r) (key_bytes k) = true <->
  exists c, k = KDirScan d c /\ r < c.
Proof.
  intros Hd Hr Hk. rewrite dir_scan_prefix_keys by done. unfold bytes_leb.
  rewrite negb_true_iff. split.
  - intros [[c ->] Hle]. exists c. split; [done|]. destruct Hk as [_ Hc]. revert Hle.
    change (dir_scan_resume_key d r) with
      (dir_scan_prefix d ++ be_bytes U64_SIZE (u64_wrap (r + 1))).
    unfold dir_scan_prefix. rewrite <- app_assoc.
    change (bytes_ltb (dir_scan_key d c) (dir_scan_key d (u64_wrap (r + 1))) = false -> r < c).
    rewrite u64_wrap_id by ulia. rewrite dir_scan_key_order by ulia. lia.
  - intros (c & -> & Hlt). split; [by eexists|]. destruct Hk as [_ Hc].
    unfold dir_scan_resume_key, dir_scan_prefix. rewrite <- app_assoc.
    change (bytes_ltb (dir_scan_key d c) (dir_scan_key d (u64_wrap (r + 1))) = false).
    rewrite u64_wrap_id by ulia. rewrite dir_scan_key_order by ulia. lia.
Qed.

(** C32: scans read exactly the keys they are meant to.  The half-open range of a key
    kind, which every full scan uses, holds a key exactly when the key is of that kind;
    and a directory scan that resumes after a cookie reads a key, through [scan_prefix]
    with the resume key as its seek position, iff it is a scan key of that directory past
    the cookie, for every cookie below [u64::MAX]. *)
Theorem scan_ranges_exact p d r k :
  is_u64 d -> 0 <= r < U64_MAX -> key_wf k ->
  in_range (prefix_range p).1 (prefix_range p).2 (key_bytes k) = bool_decide (key_kind k = p) /\
  (starts_with (dir_scan_prefix d) (key_bytes k) = true /\
   bytes_leb (dir_scan_resume_key d r) (key_bytes k) = true <->
   exists c, k = KDirScan d c /\ r < c).
Proof. intros Hd Hr Hk. split; [apply prefix_range_exact|by apply dir_scan_resume_exact]. Qed.

Lemma scan_ranges_exact_witness :
  in_range (prefix_range PDirScan).1 (prefix_range PDirScan).2 (key_bytes (KDirScan 10 43)) = true /\
  (starts_with (dir_scan_prefix 10) (key_bytes (KDirScan 10 43)) = true /\
   bytes_leb (dir_scan_resume_key 10 42) (key_bytes (KDirScan 10 43)) = true <->
   exists c, KDirScan 10 43 = KDirScan 10 c /\ 42 < c).
Proof. apply (scan_ranges_exact PDirScan 10 42 (KDirScan 10 43)); cbn; ulia. Defined.

Lemma key_bytes_injective_witness : KDirScan 1 2 = KDirScan 1 2.
Proof.
  apply (key_bytes_injective (KDirScan 1 2) (KDirScan 1 2)); [cbn; ulia|cbn; ulia|reflexivity].
Defined.

(** A decoded pair of big-endian ids re-encodes to the bytes it came from. *)
Lemma be_pair_val (a b : bytes) :
  length a = 8%nat -> length b = 8%nat -> bytes_ok (a ++ b) ->
  is_u64 (be_val a) /\ is_u64 (be_val b) /\
  be_bytes U64_SIZE (be_val a) ++ be_bytes U64_SIZE (be_val b) = a ++ b.
Proof.
  intros Ha Hb Hok. apply Forall_app in Hok as [Hoka Hokb].
  pose proof (be_val_range a Hoka) as Ra. pose proof (be_val_range b Hokb) as Rb.
  rewrite Ha in Ra. rewrite Hb in Rb. rewrite !u64_pow256. unfold U64_SIZE.
  split; [done|]. split; [done|]. f_equal.
  - rewrite <- Ha at 1. by apply be_bytes_val.
  - rewrite <- Hb at 1. by apply be_bytes_val.
Qed.

Lemma is_extent_key_enc i x : is_extent_key (extent_key i x) = true.
Proof.
  apply is_extent_key_spec. eexists. split; [reflexivity|].
  rewrite length_app, !length_be_bytes. reflexivity.
Qed.

(** [parse_extent_key_full] accepts exactly the encodings of extent keys and returns the
    ids they were built from. *)
Lemma parse_extent_key_full_exact key i x :
  bytes_ok key ->
  parse_extent_key_full key = Some (i, x) <-> is_u64 i /\ is_u64 x /\ key = extent_key i x.
Proof.
  intros Hok. unfold parse_extent_key_full. split.
  - destruct (is_extent_key key) eqn:E; cbn [negb]; [|done]. intros H; simplify_eq.
    apply is_extent_key_spec in E as (r & -> & Hl).
    apply Forall_app in Hok as [_ Hok]. apply split_16 in Hl as (a & b & -> & Ha & Hb).
    destruct (be_pair_val a b) as (?&?&E); [done..|].
    rewrite (slice_app_mid _ _ (push_prefix PExtent) a b) by done.
    rewrite app_assoc, <- (app_nil_r b), (slice_app_mid _ _ (push_prefix PExtent ++ a) b []).
    + rewrite app_nil_r, <- app_assoc, <- E. done.
    + by rewrite length_app, Ha.
    + by rewrite Hb.
  - intros (Hi & Hx & ->). rewrite is_extent_key_enc. cbn [negb]. unfold extent_key.
    rewrite slice_app_mid by (by rewrite ?length_be_bytes).
    rewrite app_assoc, <- (app_nil_r (be_bytes U64_SIZE x)), slice_app_mid.
    + by rewrite !be_u64_val.
    + by rewrite length_app, length_be_bytes.
    + by rewrite length_be_bytes.
Qed.

(** ** Values *)

Lemma le_val_take8 x r : is_u64 x -> le_val (take 8 (le_bytes U64_SIZE x ++ r)) = x.
Proof. intros. rewrite take_app_exact by apply length_le_bytes. by apply le_u64_val. Qed.

Lemma le_val_u64 a : bytes_ok a -> (length a <= 8)%nat -> is_u64 (le_val a).
Proof.
  intros Hok Hl. pose proof (le_val_range a Hok). apply u64_pow256.
  assert (pow256 (length a) <= pow256 U64_SIZE); [|lia].
  unfold pow256, U64_SIZE. apply Z.pow_le_mono_r; lia.
Qed.
#[local] Hint Resolve le_val_u64 : zerofs.

Lemma decode_ha_stamp_40 a b c d e :
  length a = 8%nat -> length b = 8%nat -> length c = 8%nat -> length d = 8%nat ->
  length e = 8%nat ->
  decode_ha_stamp (a ++ b ++ c ++ d ++ e) =
    (w ← WriterEpoch_new (le_val a);
     ran ← (if le_val e =? 0 then Some false else if le_val e =? 1 then Some true else None);
     h ← SoloHistory_from_parts (le_val c) ran;
     result_ok (HaStamp_new w (ShipSeqno_new (le_val b)) h (ShipSeqno_new (le_val d)))).
Proof.
  intros Ha Hb Hc Hd He. unfold decode_ha_stamp.
  rewrite !length_app, Ha, Hb, Hc, Hd, He. cbn -[take drop slice le_val Z.eqb].
  unfold U64_SIZE. rewrite take_app_exact by done.
  rewrite (slice_app_mid 8 16 a b) by done.
  rewrite (app_assoc a b), (slice_app_mid 16 24 (a ++ b) c) by (rewrite ?length_app; lia).
  rewrite (app_assoc (a ++ b) c), (slice_app_mid 24 32 ((a ++ b) ++ c) d)
    by (rewrite ?length_app; lia).
  rewrite (app_assoc _ d), drop_app_exact by (rewrite !length_app; lia). done.
Qed.

Lemma ha_stamp_roundtrip st :
  HaStamp_wf st -> decode_ha_stamp (encode_ha_stamp st) = Some st.
Proof.
  intros W. pose proof W as (He & Hs & Ha & Hc & _ & _). unfold encode_ha_stamp.
  rewrite decode_ha_stamp_40 by apply length_le_bytes.
  assert (forall o, seqno_wf o -> is_u64 (seqno_or_zero o)).
  { intros [v|]; cbn; ulia. }
  rewrite !le_u64_val by (try destruct (ran_solo _); auto; ulia).
  rewrite !seqno_of_zero by done.
  assert (WriterEpoch_new (writer_epoch st) = Some (writer_epoch st)) as ->
    by (apply nonzero_u64_Some; lia).
  assert ((if (if ran_solo (solo_history st) then 1 else 0) =? 0 then Some false
           else if (if ran_solo (solo_history st) then 1 else 0) =? 1 then Some true else None)
          = Some (ran_solo (solo_history st))) as -> by (by destruct (ran_solo _)).
  cbn -[SoloHistory_from_parts HaStamp_new]. rewrite SoloHistory_parts. cbn -[HaStamp_new].
  by rewrite HaStamp_new_of_wf.
Qed.

Lemma result_ok_Some {E A} (r : result E A) a : result_ok r = Some a <-> r = Ok a.
Proof. destruct r; cbn; naive_solver. Qed.

Lemma slice_ok a b (bs : bytes) : bytes_ok bs -> bytes_ok (slice a b bs).
Proof. intros. by apply Forall_take, Forall_drop. Qed.
Lemma length_slice_le a b (bs : bytes) : (length (slice a b bs) <= b - a)%nat.
Proof. unfold slice. rewrite length_take. lia. Qed.

Lemma legacy_stamp_wf data e c st :
  bytes_ok data -> is_u64 c ->
  WriterEpoch_new (le_val (take U64_SIZE data)) = Some e ->
  HaStamp_new e (ShipSeqno_new (le_val (slice U64_SIZE (U64_SIZE * 2) data))) (SoloEver c)
    (ShipSeqno_new (le_val (slice U64_SIZE (U64_SIZE * 2) data))) = Ok st ->
  HaStamp_wf st /\ ran_solo (solo_history st) = true.
Proof.
  intros Hok Hc [-> Hz]%nonzero_u64_Some (-> & ? & ?)%HaStamp_new_Ok.
  pose proof (slice_ok U64_SIZE (U64_SIZE * 2) data Hok) as Hok'.
  pose proof (length_slice_le U64_SIZE (U64_SIZE * 2) data) as Hl.
  assert (He : is_u64 (le_val (take U64_SIZE data))).
  { apply le_val_u64; [by apply Forall_take|]. rewrite length_take. unfold U64_SIZE. lia. }
  split; [|done]. unfold HaStamp_wf. cbn [writer_epoch last_shipped applied_through solo_history].
  assert (seqno_wf (ShipSeqno_new (le_val (slice U64_SIZE (U64_SIZE * 2) data)))).
  { apply ShipSeqno_new_wf, le_val_u64; done. }
  cbn [commits_since_last_ship]. repeat split; try done; ulia.
Qed.

Lemma split_40 (r : bytes) :
  length r = 40%nat ->
  exists a b c d e, r = a ++ b ++ c ++ d ++ e /\ length a = 8%nat /\ length b = 8%nat /\
    length c = 8%nat /\ length d = 8%nat /\ length e = 8%nat.
Proof.
  intros H. exists (take 8 r), (take 8 (drop 8 r)), (take 8 (drop 16 r)),
    (take 8 (drop 24 r)), (drop 32 r).
  rewrite !length_take, !length_drop. split; [|lia].
  rewrite <- (take_drop 8 r) at 1. f_equal.
  rewrite <- (take_drop 8 (drop 8 r)) at 1. f_equal. rewrite drop_drop.
  rewrite <- (take_drop 8 (drop _ r)) at 1. f_equal. rewrite drop_drop.
  rewrite <- (take_drop 8 (drop _ r)) at 1. f_equal. by rewrite drop_drop.
Qed.

Lemma le_bytes_val8 (a : bytes) :
  bytes_ok a -> length a = 8%nat -> le_bytes U64_SIZE (le_val a) = a.
Proof. intros Hok Hl. rewrite <- (le_bytes_val a) at 2 by done. by rewrite Hl. Qed.

Lemma seqno_zero_new v : is_u64 v -> seqno_or_zero (ShipSeqno_new v) = v.
Proof.
  intros. unfold ShipSeqno_new, nonzero_u64. destruct (Z.eqb_spec v 0); cbn; lia.
Qed.

Lemma decode_ha_stamp_40_sound data st :
  bytes_ok data -> length data = 40%nat -> decode_ha_stamp data = Some st ->
  HaStamp_wf st /\ data = encode_ha_stamp st.
Proof.
  intros Hok Hl. apply split_40 in Hl as (a & b & c & d & e & -> & Ha & Hb & Hc & Hd & He).
  rewrite decode_ha_stamp_40 by done. unfold bytes_ok in Hok. rewrite !Forall_app in Hok.
  destruct Hok as (?&?&?&?&?).
  assert (is_u64 (le_val a) /\ is_u64 (le_val b) /\ is_u64 (le_val c) /\
          is_u64 (le_val d) /\ is_u64 (le_val e)) as (?&?&?&?&?).
  { repeat split; apply le_val_u64; try done; lia. }
  rewrite bind_Some. intros (w & [-> Hz]%nonzero_u64_Some & HD).
  apply bind_Some in HD as (ran & Hran & HD). apply bind_Some in HD as (h & Hh & HD).
  apply result_ok_Some, HaStamp_new_Ok in HD as (-> & Hle & Hlt).
  assert (le_val e = (if ran then 1 else 0)) as Hev.
  { revert Hran. destruct (Z.eqb_spec (le_val e) 0), (Z.eqb_spec (le_val e) 1); naive_solver. }
  assert (commits_since_last_ship h = le_val c /\ ran_solo h = ran) as [Hcm Hrs].
  { revert Hh. unfold SoloHistory_from_parts. destruct ran; [naive_solver|].
    destruct (Z.eqb_spec (le_val c) 0); naive_solver. }
  split.
  - unfold HaStamp_wf.
    cbn [writer_epoch last_shipped applied_through solo_history]. rewrite Hcm.
    repeat split; try (apply ShipSeqno_new_wf; done); try done; ulia.
  - unfold encode_ha_stamp.
    cbn [writer_epoch last_shipped applied_through solo_history].
    rewrite !seqno_zero_new, Hcm, Hrs, <- Hev by done. by rewrite !le_bytes_val8.
Qed.

(** C33: whatever bytes are read back, an accepted stamp satisfies the invariant of
    [HaStamp::new]; a 40-byte stamp is the canonical encoding of the value it
    decodes to, and a legacy 16- or 24-byte stamp always reports Solo history,
    so it can never authorise promotion retry grace. *)
Theorem decode_ha_stamp_sound data st :
  bytes_ok data -> decode_ha_stamp data = Some st ->
  HaStamp_wf st /\
  (length data = 40%nat -> data = encode_ha_stamp st) /\
  (length data <> 40%nat -> ran_solo (solo_history st) = true).
Proof.
  intros Hok H.
  destruct (decide (length data = 40%nat)) as [H40|H40].
  { destruct (decode_ha_stamp_40_sound data st); naive_solver. }
  revert H. unfold decode_ha_stamp.
  destruct (length data =? U64_SIZE * 2)%nat eqn:E2, (length data =? U64_SIZE * 3)%nat eqn:E3,
    (length data =? U64_SIZE * 5)%nat eqn:E5; cbn [negb andb]; try done;
    try (apply Nat.eqb_eq in E5; cbn in E5; lia);
    rewrite bind_Some; intros (w & Hw & HD%result_ok_Some);
    (eapply legacy_stamp_wf in HD; [naive_solver|done| |done]); try ulia.
  apply le_val_u64; [by apply slice_ok|]. apply length_slice_le.
Qed.

Lemma decode_ha_stamp_sound_witness :
  exists st, decode_ha_stamp (le_bytes 8 7 ++ le_bytes 8 3) = Some st /\ HaStamp_wf st.
Proof.
  exists (mkHaStamp 7 (Some 3) (SoloEver 0) (Some 3)). split; [vm_compute; reflexivity|].
  apply (decode_ha_stamp_sound (le_bytes 8 7 ++ le_bytes 8 3)).
  - apply (bool_decide_unpack _). vm_compute. exact I.
  - vm_compute. reflexivity.
Defined.

(** C34: every fixed-width value of the store decodes to what was
    encoded: directory entries, cookie and inode counters, tombstone sizes,
    segment counters, where an 8-byte segment counter of the old layout counts
    the whole segment as live, and the durable replication stamp of 40 bytes. *)
Theorem value_codecs_roundtrip x y st :
  is_u64 x -> is_u64 y -> HaStamp_wf st ->
  decode_ha_stamp (encode_ha_stamp st) = Some st /\
  decode_dir_entry (encode_dir_entry x y) = Ok (x, y) /\
  decode_segcount (encode_segcount x y) = Some (x, y) /\
  decode_segcount (encode_u64 x) = Some (x, x) /\
  decode_counter (encode_counter x) = Ok x /\
  decode_tombstone_size (encode_tombstone_size x) = Ok x /\
  decode_u64 (encode_u64 x) = Some x.
Proof.
  intros Hx Hy Hst. split; [by apply ha_stamp_roundtrip|].
  unfold decode_dir_entry, encode_dir_entry, decode_segcount, encode_segcount, decode_counter,
    encode_counter, decode_tombstone_size, encode_tombstone_size, decode_u64, encode_u64.
  rewrite !length_app, !length_le_bytes. cbn -[take drop slice le_val]. unfold U64_SIZE.
  rewrite !take_app_exact, !drop_app_exact, take_exact by apply length_le_bytes.
  rewrite <- (app_nil_r (le_bytes 8 y)) at 1.
  rewrite slice_app_mid by apply length_le_bytes.
  change 8%nat with U64_SIZE. by rewrite !le_u64_val.
Qed.

Lemma value_codecs_roundtrip_witness :
  let st := mkHaStamp 7 (Some 3) (SoloEver 2) (Some 5) in
  decode_ha_stamp (encode_ha_stamp st) = Some st /\ decode_dir_entry (encode_dir_entry 5 3) = Ok (5, 3).
Proof.
  intros st. destruct (value_codecs_roundtrip 5 3 st) as (Hs & Hd & _); [ulia|ulia|unfold HaStamp_wf; cbn; ulia|].
  exact (conj Hs Hd).
Defined.
