(* ===== verification/FrameCodec.v ===== *)
(** * Frame codec

    [frame_codec.rs]: compress-then-encrypt of one frame.  The AEAD cipher and
    the two compressors are third-party code; a [CodecPrims] instance supplies
    them and [CodecPrimsLaws] states what the codec relies on.  The nonce drawn
    from the random generator is an explicit argument. *)

From S2P Require Import Prelude.

Definition NONCE_SIZE : nat := 24.
Definition TAG_SIZE : nat := 16.
Definition SEALED_FRAME_OVERHEAD : nat := NONCE_SIZE + TAG_SIZE.
Definition ZSTD_MAGIC : bytes := [40; 181; 47; 253].

Inductive CodecError :=
| Compress | Decompress | Encrypt | TooShort (n : nat) | Decrypt.

Inductive CompressionConfig := Lz4 | Zstd (level : Z).

(** A compressed, not yet encrypted payload: the newtype [Compressed(Vec<u8>)]. *)
Inductive Compressed := mkCompressed (payload : bytes).
Definition payload (c : Compressed) : bytes := let 'mkCompressed p := c in p.

Definition compressed_len (c : Compressed) : nat := length (payload c).
Definition sealed_len (c : Compressed) : nat := (length (payload c) + SEALED_FRAME_OVERHEAD)%nat.

(** The primitives the codec calls. *)
Class CodecPrims := {
  (** [encrypt_in_place_detached nonce aad msg]: ciphertext and tag. *)
  aead_encrypt : bytes -> bytes -> bytes -> option (bytes * bytes);
  (** [decrypt nonce {msg, aad}]. *)
  aead_decrypt : bytes -> bytes -> bytes -> option bytes;
  (** [compress_prepend_size] and [decompress_size_prepended] of lz4. *)
  lz4_compress : bytes -> bytes;
  lz4_decompress : bytes -> option bytes;
  (** [zstd::bulk]. *)
  zstd_compress : Z -> bytes -> option bytes;
  zstd_decompress : bytes -> Z -> option bytes }.

Definition is_zstd_payload (data : bytes) : bool :=
  (8 <=? length data)%nat && bool_decide (slice 4 8 data = ZSTD_MAGIC).

(** What the codec relies on: an authenticated cipher that keeps the message
    length and opens what it sealed, and compressors that invert.  A zstd frame
    starts with its magic number; an lz4 block of the size-prefixed format never
    carries that number at offset 4 (its first match offset would exceed the
    output produced so far). *)
Class CodecPrimsLaws `{CodecPrims} := {
  aead_roundtrip nonce aad msg ct tag :
    aead_encrypt nonce aad msg = Some (ct, tag) ->
    aead_decrypt nonce aad (ct ++ tag) = Some msg;
  aead_lengths nonce aad msg ct tag :
    aead_encrypt nonce aad msg = Some (ct, tag) ->
    length ct = length msg /\ length tag = TAG_SIZE;
  lz4_roundtrip data : lz4_decompress (lz4_compress data) = Some data;
  lz4_not_zstd data : is_zstd_payload (lz4_compress data) = false;
  zstd_roundtrip level data c :
    zstd_compress level data = Some c ->
    zstd_decompress c (Z.of_nat (length data)) = Some data;
  zstd_magic level data c :
    zstd_compress level data = Some c -> take 4 c = ZSTD_MAGIC }.

Section codec.
Context `{CodecPrims} (compression : CompressionConfig).

Definition codec_compress (data : bytes) : result CodecError Compressed :=
  match compression with
  | Lz4 => Ok (mkCompressed (lz4_compress data))
  | Zstd level =>
      match zstd_compress level data with
      | None => Err Compress
      | Some c => Ok (mkCompressed (le_bytes 4 (u32_wrap (Z.of_nat (length data))) ++ c))
      end
  end.

Definition codec_decompress (data : bytes) : result CodecError bytes :=
  if is_zstd_payload data then
    ok_or Decompress (zstd_decompress (drop 4 data) (le_val (take 4 data)))
  else ok_or Decompress (lz4_decompress data).

Definition seal_compressed (nonce : bytes) (c : Compressed) (aad : bytes) : result CodecError bytes :=
  match aead_encrypt nonce aad (payload c) with
  | None => Err Encrypt
  | Some (ct, tag) => Ok (nonce ++ ct ++ tag)
  end.

Definition codec_seal (nonce plain aad : bytes) : result CodecError bytes :=
  c ← codec_compress plain; seal_compressed nonce c aad.

Definition open_compressed (frame aad : bytes) : result CodecError Compressed :=
  if (length frame <? NONCE_SIZE + TAG_SIZE)%nat then Err (TooShort (length frame))
  else
    match aead_decrypt (take NONCE_SIZE frame) aad (drop NONCE_SIZE frame) with
    | None => Err Decrypt
    | Some m => Ok (mkCompressed m)
    end.

Definition codec_open (frame aad : bytes) : result CodecError bytes :=
  c ← open_compressed frame aad; codec_decompress (payload c).
End codec.

(** ** Facts *)

Section facts.
Context `{CodecPrimsLaws}.

Lemma seal_compressed_length nonce c aad s :
  length nonce = NONCE_SIZE -> seal_compressed nonce c aad = Ok s -> length s = sealed_len c.
Proof.
  intros Hn. unfold seal_compressed, sealed_len, SEALED_FRAME_OVERHEAD.
  destruct (aead_encrypt nonce aad (payload c)) as [[ct tag]|] eqn:E; [|done].
  intros; simplify_eq. apply aead_lengths in E as [Hc Ht]. rewrite !length_app. lia.
Qed.

Lemma open_seal_compressed nonce c aad s :
  length nonce = NONCE_SIZE -> seal_compressed nonce c aad = Ok s -> open_compressed s aad = Ok c.
Proof.
  intros Hn Hs. pose proof (seal_compressed_length _ _ _ _ Hn Hs) as Hl. revert Hs.
  unfold seal_compressed, open_compressed.
  destruct (aead_encrypt nonce aad (payload c)) as [[ct tag]|] eqn:E; [|done].
  intros; simplify_eq. rewrite take_app_exact, drop_app_exact by done.
  rewrite (aead_roundtrip _ _ _ _ _ E), Hl. unfold sealed_len, SEALED_FRAME_OVERHEAD.
  case_match eqn:C; [|by destruct c]. apply Nat.ltb_lt in C. lia.
Qed.

Lemma decompress_compress k data c :
  Z.of_nat (length data) <= U32_MAX ->
  codec_compress k data = Ok c -> codec_decompress (payload c) = Ok data.
Proof.
  intros Hlen. unfold codec_compress, codec_decompress. destruct k as [|level].
  - intros; simplify_eq. cbn. rewrite lz4_not_zstd, lz4_roundtrip. done.
  - destruct (zstd_compress level data) as [z|] eqn:E; [|done]. intros Hc.
    assert (c = mkCompressed (le_bytes 4 (u32_wrap (Z.of_nat (length data))) ++ z)) as ->
      by congruence. cbn [payload].
    pose proof (zstd_magic _ _ _ E) as Hm. apply zstd_roundtrip in E.
    assert (is_zstd_payload (le_bytes 4 (u32_wrap (Z.of_nat (length data))) ++ z) = true) as ->.
    { unfold is_zstd_payload. rewrite length_app, length_le_bytes.
      unfold slice. rewrite drop_app_exact by apply length_le_bytes.
      change (8 - 4)%nat with 4%nat. rewrite Hm, bool_decide_true by done.
      assert (length (take 4 z) = 4%nat) as Hl by by rewrite Hm.
      rewrite length_take in Hl. rewrite andb_true_r. apply Nat.leb_le. lia. }
    rewrite drop_app_exact, take_app_exact by apply length_le_bytes.
    rewrite u32_wrap_id by ulia. rewrite le_val_bytes, E; [done|].
    change (pow256 4) with 4294967296. ulia.
Qed.

(** A frame sealed under any compression setting opens, with the same
    additional data, to the plaintext it was sealed from, whatever algorithm
    the reader is configured for; its length is the one [sealed_len] predicts,
    on which the writers' byte reservations rely. *)
Lemma frame_roundtrip k nonce plain aad s :
  length nonce = NONCE_SIZE -> Z.of_nat (length plain) <= U32_MAX ->
  codec_seal k nonce plain aad = Ok s ->
  codec_open s aad = Ok plain /\
  exists c, codec_compress k plain = Ok c /\ length s = sealed_len c.
Proof.
  intros Hn Hlen (c & Hc & Hs)%result_bind_Ok.
  pose proof (seal_compressed_length _ _ _ _ Hn Hs).
  apply open_seal_compressed in Hs; [|done].
  split; [|by exists c]. unfold codec_open. rewrite Hs. cbn.
  by apply (decompress_compress k).
Qed.
End facts.

(** A concrete instance: a cipher that stores the additional data's checksum as
    its tag, and size-prefixed stored blocks as the compressors. *)
Module TestPrims.
Definition checksum (bs : bytes) : Z := fold_left (fun acc b => (acc * 31 + b) mod 4294967296) bs 7.
Definition tag_of (nonce aad msg : bytes) : bytes := le_bytes 16 (checksum (nonce ++ aad ++ msg)).
Definition stored (data : bytes) : bytes :=
  le_bytes 4 (Z.of_nat (length data)) ++ 0 :: data.

#[export] Instance prims : CodecPrims := {|
  aead_encrypt nonce aad msg := Some (msg, tag_of nonce aad msg);
  aead_decrypt nonce aad c :=
    let msg := take (length c - 16) c in
    if bool_decide (drop (length c - 16) c = tag_of nonce aad msg) then Some msg else None;
  lz4_compress := stored;
  lz4_decompress c := Some (drop 5 c);
  zstd_compress _ data := Some (ZSTD_MAGIC ++ data);
  zstd_decompress c _ := Some (drop 4 c) |}.

#[export] Instance laws : CodecPrimsLaws.
Proof.
  split.
  - intros nonce aad msg ct tag E. cbn in E. simplify_eq. cbn.
    assert (length (ct ++ tag_of nonce aad ct) - 16 = length ct)%nat as ->.
    { rewrite length_app. unfold tag_of. rewrite length_le_bytes. lia. }
    rewrite take_app_length, drop_app_length, bool_decide_true by done. done.
  - intros nonce aad msg ct tag E. cbn in E. simplify_eq. split; [done|]. apply length_le_bytes.
  - done.
  - intros data. cbn. unfold is_zstd_payload, stored, slice. rewrite andb_false_iff. right.
    rewrite drop_app_exact by apply length_le_bytes.
    apply bool_decide_false. done.
  - intros level data c E. cbn in E. by simplify_eq.
  - intros level data c E. cbn in E. by simplify_eq.
Qed.
End TestPrims.
