(* ===== verification/Segment.v ===== *)
(** * Segment objects

    [segment.rs]: the immutable data-plane objects.  A segment is a run of
    length-prefixed sealed frames, a sealed directory and a 64-byte footer.  The
    theorems show that every frame of a finished segment is read back from its
    byte range, that the footer and directory parse back to what was written,
    and that the additional data binds a frame to one slot.

    The CRC routine is third-party code ([Crc32c]); running out of memory while
    reserving buffers is not modelled. *)

From Stdlib Require Import String.
From S2P Require Import Prelude FrameCodec.

Definition FOOTER_LEN : nat := 64.
Definition MAGIC : bytes := [90; 83; 69; 71].
Definition VERSION : Z := 1.
Definition DIR_ENTRY_LEN : nat := 28.
Definition LEN_PREFIX : nat := 4.

Definition F_MAGIC : nat := 0.
Definition F_VERSION : nat := 4.
Definition F_K : nat := 8.
Definition F_DIR_OFFSET : nat := 12.
Definition F_DIR_LEN : nat := 20.
Definition F_SEALED_EPOCH : nat := 24.
Definition F_COUNTER : nat := 32.
Definition F_SEALED_SEQNO : nat := 40.
Definition F_TOTAL_LEN : nat := 48.
Definition F_CRC : nat := 56.
Definition F_RESERVED : nat := 60.

Record Segid := mkSegid { epoch : Z; counter : Z }.

#[export] Instance Segid_eq_dec : EqDecision Segid.
Proof. solve_decision. Defined.
#[export] Instance Segid_countable : Countable Segid.
Proof.
  apply (inj_countable' (fun s => (epoch s, counter s)) (fun p => mkSegid p.1 p.2)).
  by intros [].
Defined.

Definition Segid_wf (s : Segid) : Prop := is_u64 (epoch s) /\ is_u64 (counter s).

Definition Segid_to_le_bytes (s : Segid) : bytes :=
  le_bytes 8 (epoch s) ++ le_bytes 8 (counter s).

Record DirEntry := mkDirEntry {
  de_byte_offset : Z; de_len : Z; de_inode : Z; de_extent : Z }.

Record FrameLoc := mkFrameLoc {
  fl_segid : Segid; fl_frame_index : Z; fl_byte_offset : Z; fl_byte_len : Z }.

#[export] Instance DirEntry_eq_dec : EqDecision DirEntry.
Proof. solve_decision. Defined.
#[export] Instance FrameLoc_eq_dec : EqDecision FrameLoc.
Proof. solve_decision. Defined.
#[export] Instance FrameLoc_countable : Countable FrameLoc.
Proof.
  apply (inj_countable'
    (fun l => (fl_segid l, fl_frame_index l, fl_byte_offset l, fl_byte_len l))
    (fun p => mkFrameLoc p.1.1.1 p.1.1.2 p.1.2 p.2)).
  by intros [].
Defined.

Definition rd_u32 (b : bytes) (off : nat) : Z := le_val (slice off (off + 4) b).
Definition rd_u64 (b : bytes) (off : nat) : Z := le_val (slice off (off + 8) b).

Definition FrameLoc_ENCODED_LEN : nat := 32.

(** [FrameLoc::encode] and [FrameLoc::decode]. *)
Definition FrameLoc_encode (l : FrameLoc) : bytes :=
  le_bytes 8 (epoch (fl_segid l)) ++ le_bytes 8 (counter (fl_segid l))
  ++ le_bytes 4 (fl_frame_index l) ++ le_bytes 8 (fl_byte_offset l)
  ++ le_bytes 4 (fl_byte_len l).
Definition FrameLoc_decode (b : bytes) : option FrameLoc :=
  if negb (length b =? FrameLoc_ENCODED_LEN)%nat then None
  else Some (mkFrameLoc (mkSegid (rd_u64 b 0) (rd_u64 b 8)) (rd_u32 b 16) (rd_u64 b 20) (rd_u32 b 28)).

Inductive SegmentError :=
| SegTooSmall (n : nat)
| BadMagic
| BadVersion (v : Z)
| CrcMismatch (stored computed : Z)
| Malformed (field : string)
| SegidMismatch (expected found : Segid)
| SegCodec (e : CodecError).

(** [?] on a codec result. *)
Definition lift_codec {A} (r : result CodecError A) : result SegmentError A :=
  match r with Ok a => Ok a | Err e => Err (SegCodec e) end.

(** ** Checked widths

    [limits] is the field [u32_max] of [SegmentFormatLimits]; production code
    passes [WIRE]. *)

Definition WIRE : Z := U32_MAX.

Definition checked_wire_u32 (value limits : Z) (field : string) : result SegmentError Z :=
  if limits <? value then Err (Malformed field)
  else if U32_MAX <? value then Err (Malformed field) else Ok value.
Definition checked_frame_count (current additional limits : Z) : result SegmentError Z :=
  total ← ok_or (Malformed "segment frame count") (checked_add_u64 current additional);
  checked_wire_u32 total limits "segment frame count".
Definition checked_directory_plaintext_len (entry_count limits : Z) : result SegmentError Z :=
  let plain_len := entry_count * Z.of_nat DIR_ENTRY_LEN in
  if U64_MAX <? plain_len then Err (Malformed "directory plaintext length")
  else
    _ ← checked_wire_u32 plain_len limits "directory plaintext length"; Ok plain_len.
Definition checked_stored_frame_len (stored_len limits : Z) : result SegmentError Z :=
  checked_wire_u32 stored_len limits "stored frame length".
Definition checked_append_frame_index (current limits : Z) : result SegmentError Z :=
  _ ← checked_frame_count current 1 limits; checked_wire_u32 current limits "frame index".
Definition checked_frame_run_start (current additional limits : Z) : result SegmentError Z :=
  _ ← checked_frame_count current additional limits; checked_wire_u32 current limits "frame index".
Definition checked_frame_index (first offset limits : Z) : result SegmentError Z :=
  offset ← checked_wire_u32 offset limits "frame index";
  let index := first + offset in
  if U32_MAX <? index then Err (Malformed "frame index")
  else if limits <? index then Err (Malformed "frame index") else Ok index.
Definition checked_frame_body_len (body_len limits : Z) : result SegmentError Z :=
  body_len ← checked_wire_u32 body_len limits "stored frame length";
  let stored_len := body_len + Z.of_nat LEN_PREFIX in
  if U32_MAX <? stored_len then Err (Malformed "stored frame length")
  else if limits <? stored_len then Err (Malformed "stored frame length") else Ok body_len.

(** ** Additional data *)

Definition frame_aad (s : Segid) (frame_index inode extent : Z) : bytes :=
  [70] ++ Segid_to_le_bytes s ++ le_bytes 4 frame_index ++ le_bytes 8 inode ++ le_bytes 8 extent.
Definition dir_aad (s : Segid) (k : Z) : bytes :=
  [68] ++ Segid_to_le_bytes s ++ le_bytes 4 k.

(** The checksum of the metadata tail. *)
Class Crc32c := {
  crc32c : bytes -> Z;
  crc32c_append : Z -> bytes -> Z }.
Class Crc32cLaws `{Crc32c} := {
  crc32c_append_app a b : crc32c_append (crc32c a) b = crc32c (a ++ b);
  crc32c_u32 a : is_u32 (crc32c a) }.

(** ** Building a segment *)

Record SegmentBuilder := mkBuilder {
  sb_segid : Segid; sb_buf : bytes; sb_dir : list DirEntry; sb_limits : Z }.

Definition SegmentBuilder_with_limits (s : Segid) (limits : Z) : SegmentBuilder :=
  mkBuilder s [] [] limits.

Definition zlen {A} (l : list A) : Z := Z.of_nat (length l).

Definition try_append_sealed (b : SegmentBuilder) (inode extent : Z) (sealed : bytes)
    : result SegmentError (Z * SegmentBuilder) :=
  frame_index ← checked_append_frame_index (zlen (sb_dir b)) (sb_limits b);
  final_frame_count ← ok_or (Malformed "segment frame count") (checked_add_u64 (zlen (sb_dir b)) 1);
  _ ← checked_directory_plaintext_len final_frame_count (sb_limits b);
  len ← checked_frame_body_len (zlen sealed) (sb_limits b);
  let byte_offset := zlen (sb_buf b) in
  Ok (frame_index,
      mkBuilder (sb_segid b) (sb_buf b ++ le_bytes 4 len ++ sealed)
        (sb_dir b ++ [mkDirEntry byte_offset len inode extent]) (sb_limits b)).

Definition dir_entry_bytes (e : DirEntry) : bytes :=
  le_bytes 8 (de_byte_offset e) ++ le_bytes 4 (de_len e)
  ++ le_bytes 8 (de_inode e) ++ le_bytes 8 (de_extent e).

Record PreparedSegmentAssembly := mkPrepared {
  pa_k : Z; pa_dir_offset : Z; pa_dir_len : Z; pa_total_len : Z }.

Definition prepare_segment_assembly (buf : bytes) (frame_count : Z) (sealed_dir : bytes) (limits : Z)
    : result SegmentError PreparedSegmentAssembly :=
  k ← checked_wire_u32 frame_count limits "segment frame count";
  dir_len ← checked_wire_u32 (zlen sealed_dir) limits "sealed directory length";
  let dir_offset := zlen buf in
  additional ← ok_or (Malformed "segment total length")
                 (checked_add_u64 (zlen sealed_dir) (Z.of_nat FOOTER_LEN));
  total_len ← ok_or (Malformed "segment total length") (checked_add_u64 dir_offset additional);
  Ok (mkPrepared k dir_offset dir_len total_len).

(** The footer bytes before the checksum field. *)
Definition footer_head (s : Segid) (sealed_seqno : Z) (p : PreparedSegmentAssembly) : bytes :=
  MAGIC ++ le_bytes 4 VERSION ++ le_bytes 4 (pa_k p) ++ le_bytes 8 (pa_dir_offset p)
  ++ le_bytes 4 (pa_dir_len p) ++ le_bytes 8 (epoch s) ++ le_bytes 8 (counter s)
  ++ le_bytes 8 sealed_seqno ++ le_bytes 8 (pa_total_len p).

Definition assemble_prepared_segment `{Crc32c} (s : Segid) (buf sealed_dir : bytes)
    (sealed_seqno : Z) (p : PreparedSegmentAssembly) : bytes :=
  let body := buf ++ sealed_dir ++ footer_head s sealed_seqno p in
  let crc := crc32c (drop (Z.to_nat (pa_dir_offset p)) body) in
  body ++ le_bytes 4 crc ++ le_bytes 4 0.

Section sealing.
Context `{CodecPrims, Crc32c} (compression : CompressionConfig).

Definition seal_directory (nonce : bytes) (s : Segid) (dir : list DirEntry)
    : result SegmentError bytes :=
  k ← checked_wire_u32 (zlen dir) WIRE "segment frame count";
  _ ← checked_directory_plaintext_len (zlen dir) WIRE;
  let dir_plain := concat (map dir_entry_bytes dir) in
  sealed ← lift_codec (codec_seal compression nonce dir_plain (dir_aad s k));
  _ ← checked_wire_u32 (zlen sealed) WIRE "sealed directory length";
  Ok sealed.

Definition assemble_segment (s : Segid) (buf : bytes) (frame_count : Z) (sealed_dir : bytes)
    (sealed_seqno : Z) : result SegmentError bytes :=
  p ← prepare_segment_assembly buf frame_count sealed_dir WIRE;
  Ok (assemble_prepared_segment s buf sealed_dir sealed_seqno p).

Definition finalize_segment (nonce : bytes) (s : Segid) (buf : bytes) (dir : list DirEntry)
    (sealed_seqno : Z) : result SegmentError bytes :=
  sealed_dir ← seal_directory nonce s dir;
  assemble_segment s buf (zlen dir) sealed_dir sealed_seqno.

Definition SegmentBuilder_finish (nonce : bytes) (b : SegmentBuilder) (sealed_seqno : Z)
    : result SegmentError bytes :=
  finalize_segment nonce (sb_segid b) (sb_buf b) (sb_dir b) sealed_seqno.

Definition seal_compressed_frame (nonce : bytes) (s : Segid) (frame_index inode extent : Z)
    (c : Compressed) : result SegmentError bytes :=
  lift_codec (seal_compressed nonce c (frame_aad s frame_index inode extent)).

(** A frame to seal: inode, extent, payload, and the nonce its seal draws.
    [seal_compressed_batch] maps [seal_one] over the enumerated frames; running
    it across cores computes the same list. *)
Fixpoint seal_compressed_batch_from (s : Segid) (first_frame i : Z)
    (frames : list (Z * Z * Compressed * bytes)) : result SegmentError (list (Z * Z * bytes)) :=
  match frames with
  | [] => Ok []
  | (inode, extent, c, nonce) :: rest =>
      fi ← checked_frame_index first_frame i WIRE;
      sealed ← seal_compressed_frame nonce s fi inode extent c;
      rest' ← seal_compressed_batch_from s first_frame (i + 1) rest;
      Ok ((inode, extent, sealed) :: rest')
  end.
Definition seal_compressed_batch (s : Segid) (first_frame : Z)
    (frames : list (Z * Z * Compressed * bytes)) : result SegmentError (list (Z * Z * bytes)) :=
  seal_compressed_batch_from s first_frame 0 frames.
End sealing.

(** ** Reading a segment *)

Record FooterMeta := mkFooterMeta {
  fm_segid : Segid; fm_k : Z; fm_dir_offset : Z; fm_dir_len : Z; fm_crc : Z }.

Definition parse_footer (footer : bytes) (object_size : Z) : result SegmentError FooterMeta :=
  _ ← ensure (length footer =? FOOTER_LEN)%nat (SegTooSmall (length footer));
  _ ← ensure (bool_decide (slice F_MAGIC (F_MAGIC + 4) footer = MAGIC)) BadMagic;
  let version := rd_u32 footer F_VERSION in
  _ ← ensure (version =? VERSION) (BadVersion version);
  let total_len := rd_u64 footer F_TOTAL_LEN in
  _ ← ensure (total_len =? object_size) (Malformed "total_len does not match object size");
  _ ← ensure (rd_u32 footer F_RESERVED =? 0) (Malformed "reserved footer bytes nonzero");
  let dir_offset := rd_u64 footer F_DIR_OFFSET in
  let dir_len := rd_u32 footer F_DIR_LEN in
  let abut := checked_add_u64 dir_offset dir_len ≫= fun e => checked_add_u64 e (Z.of_nat FOOTER_LEN) in
  _ ← ensure (bool_decide (abut = Some total_len)) (Malformed "directory does not abut footer");
  Ok (mkFooterMeta (mkSegid (rd_u64 footer F_SEALED_EPOCH) (rd_u64 footer F_COUNTER))
        (rd_u32 footer F_K) dir_offset dir_len (rd_u32 footer F_CRC)).

Definition parse_dir_entry (plain : bytes) (o : nat) : DirEntry :=
  mkDirEntry (rd_u64 plain o) (rd_u32 plain (o + 8)) (rd_u64 plain (o + 12)) (rd_u64 plain (o + 20)).
Definition parse_dir_entries (plain : bytes) (k : Z) : result SegmentError (list DirEntry) :=
  if negb (zlen plain =? k * Z.of_nat DIR_ENTRY_LEN) then Err (Malformed "directory length mismatch")
  else Ok (map (fun i => parse_dir_entry plain (i * DIR_ENTRY_LEN)) (seq 0 (Z.to_nat k))).

(** A span: the byte range of a frame body in the region, its absolute index and
    its logical block. *)
Fixpoint parse_spans_from (region : bytes) (first_frame : Z) (i : Z) (pos : nat)
    (slots : list (Z * Z)) : result SegmentError (list (nat * nat * Z * Z * Z)) :=
  match slots with
  | [] => Ok []
  | (inode, extent) :: rest =>
      _ ← ensure (pos + LEN_PREFIX <=? length region)%nat
            (Malformed "frame length prefix out of bounds");
      let len := rd_u32 region pos in
      let pos := (pos + LEN_PREFIX)%nat in
      frame_end ← ok_or (Malformed "frame length overflow") (checked_add_u64 (Z.of_nat pos) len);
      _ ← ensure (frame_end <=? zlen region) (Malformed "frame body out of bounds");
      fi ← checked_frame_index first_frame i WIRE;
      spans ← parse_spans_from region first_frame (i + 1) (Z.to_nat frame_end) rest;
      Ok ((pos, Z.to_nat frame_end, fi, inode, extent) :: spans)
  end.
Definition parse_spans (region : bytes) (first_frame : Z) (slots : list (Z * Z)) :=
  parse_spans_from region first_frame 0 0 slots.

Fixpoint collect {A B} (f : A -> result SegmentError B) (l : list A) : result SegmentError (list B) :=
  match l with
  | [] => Ok []
  | x :: r => y ← f x; ys ← collect f r; Ok (y :: ys)
  end.

Section reading.
Context `{CodecPrims, Crc32c}.

Definition decode_directory (dir_bytes footer : bytes) (meta : FooterMeta)
    : result SegmentError (list DirEntry) :=
  _ ← ensure ((zlen dir_bytes =? fm_dir_len meta) && (length footer =? FOOTER_LEN)%nat)
        (Malformed "directory/footer length mismatch");
  let computed := crc32c_append (crc32c dir_bytes) (take F_CRC footer) in
  _ ← ensure (computed =? fm_crc meta) (CrcMismatch (fm_crc meta) computed);
  plain ← lift_codec (codec_open dir_bytes (dir_aad (fm_segid meta) (fm_k meta)));
  parse_dir_entries plain (fm_k meta).

Definition open_span (region : bytes) (s : Segid) (sp : nat * nat * Z * Z * Z)
    : result SegmentError bytes :=
  let '(a, b, fi, inode, extent) := sp in
  lift_codec (codec_open (slice a b region) (frame_aad s fi inode extent)).

Definition read_frames_from_region (region : bytes) (s : Segid) (first_frame : Z)
    (slots : list (Z * Z)) : result SegmentError (list bytes) :=
  spans ← parse_spans region first_frame slots; collect (open_span region s) spans.

Definition read_compressed_frames_from_region (region : bytes) (s : Segid) (first_frame : Z)
    (slots : list (Z * Z)) : result SegmentError (list Compressed) :=
  spans ← parse_spans region first_frame slots;
  collect (fun sp => let '(a, b, fi, inode, extent) := sp in
             lift_codec (open_compressed (slice a b region) (frame_aad s fi inode extent))) spans.
End reading.

(** ** Reading fields back *)

Ltac seg_skip :=
  repeat (rewrite slice_skip by (autorewrite with bytes_len; cbn; lia));
  autorewrite with bytes_len; cbn [Nat.sub].
Ltac seg_field :=
  unfold rd_u64, rd_u32; cbn [Nat.add]; seg_skip;
  first [rewrite slice_head by apply length_le_bytes | rewrite slice_all by apply length_le_bytes];
  rewrite le_val_bytes by (rewrite ?pow256_8, ?pow256_4; ulia).

(** The same where a prefix of unknown length comes first. *)
Ltac seg_field_at :=
  unfold rd_u64, rd_u32;
  repeat (rewrite slice_skip by (autorewrite with bytes_len; lia));
  match goal with
  | |- le_val (slice ?a ?b (le_bytes ?n _ ++ _)) = _ =>
      replace a with 0%nat by (autorewrite with bytes_len; lia);
      replace b with n by (autorewrite with bytes_len; lia)
  end;
  rewrite slice_head by apply length_le_bytes;
  apply le_val_bytes; rewrite ?pow256_8, ?pow256_4; ulia.

Definition FrameLoc_wf (l : FrameLoc) : Prop :=
  Segid_wf (fl_segid l) /\ is_u32 (fl_frame_index l) /\ is_u64 (fl_byte_offset l) /\
  is_u32 (fl_byte_len l).

Lemma FrameLoc_decode_encode l : FrameLoc_wf l -> FrameLoc_decode (FrameLoc_encode l) = Some l.
Proof.
  destruct l as [[e c] fi bo bl]. intros ([? ?] & ? & ? & ?). cbn in *.
  unfold FrameLoc_decode, FrameLoc_encode. cbn [fl_segid fl_frame_index fl_byte_offset fl_byte_len epoch counter].
  autorewrite with bytes_len. cbn [Nat.add negb Nat.eqb FrameLoc_ENCODED_LEN].
  repeat f_equal; seg_field; done.
Qed.

Lemma le_bytes_val_n n (a : bytes) : bytes_ok a -> length a = n -> le_bytes n (le_val a) = a.
Proof. intros ? <-. by apply le_bytes_val. Qed.

Lemma slice_range_u a b (bs : bytes) n :
  bytes_ok bs -> (b - a <= n)%nat -> 0 <= le_val (slice a b bs) < pow256 n.
Proof.
  intros Hok Hn. assert (Hs : bytes_ok (slice a b bs)) by by apply Forall_take, Forall_drop.
  pose proof (le_val_range _ Hs). assert (pow256 (length (slice a b bs)) <= pow256 n); [|lia].
  unfold pow256. apply Z.pow_le_mono_r; [lia|]. unfold slice. rewrite length_take. lia.
Qed.

Lemma slice_split a b c (bs : bytes) :
  (a <= b <= c)%nat -> slice a c bs = slice a b bs ++ slice b c bs.
Proof.
  intros H. unfold slice. rewrite <- (take_drop (b - a) (take (c - a) (drop a bs))).
  rewrite take_take, skipn_firstn_comm, drop_drop.
  by replace (Nat.min (b - a) (c - a))%nat with (b - a)%nat by lia;
    replace (c - a - (b - a))%nat with (c - b)%nat by lia;
    replace (a + (b - a))%nat with b by lia.
Qed.

Lemma length_slice a b (bs : bytes) : (b <= length bs)%nat -> length (slice a b bs) = (b - a)%nat.
Proof. intros. unfold slice. rewrite length_take, length_drop. lia. Qed.

(** The 32-byte extent pointer is a bijection between valid frame locations
    and 32-byte strings: decoding accepts exactly the encodings, so an extent
    never resolves to a location other than the one written. *)
Lemma FrameLoc_codec_exact b l :
  bytes_ok b -> FrameLoc_decode b = Some l <-> FrameLoc_wf l /\ b = FrameLoc_encode l.
Proof.
  intros Hok. split; [|intros [? ->]; by apply FrameLoc_decode_encode].
  unfold FrameLoc_decode. destruct (length b =? FrameLoc_ENCODED_LEN)%nat eqn:E; [|done].
  apply Nat.eqb_eq in E. unfold FrameLoc_ENCODED_LEN in E. cbn [negb]. intros; simplify_eq.
  unfold FrameLoc_wf, Segid_wf, FrameLoc_encode, rd_u64, rd_u32, is_u32, is_u64, U32_MAX, U64_MAX.
  cbn [fl_segid fl_frame_index fl_byte_offset fl_byte_len epoch counter Nat.add].
  pose proof (slice_range_u 0 8 b 8 Hok). pose proof (slice_range_u 8 16 b 8 Hok).
  pose proof (slice_range_u 16 20 b 4 Hok). pose proof (slice_range_u 20 28 b 8 Hok).
  pose proof (slice_range_u 28 32 b 4 Hok). rewrite ?pow256_8, ?pow256_4 in *.
  split; [lia|].
  assert (Hb : b = slice 0 32 b) by (symmetry; by apply slice_all).
  rewrite Hb at 1.
  rewrite (slice_split 0 8 32), (slice_split 8 16 32), (slice_split 16 20 32),
    (slice_split 20 28 32) by lia.
  rewrite !le_bytes_val_n; try done;
    try (by apply Forall_take, Forall_drop); rewrite length_slice by lia; lia.
Qed.

(** ** Additional data binds a frame to its slot *)

Lemma le_bytes_app_inj n x y (r r' : bytes) :
  0 <= x < pow256 n -> 0 <= y < pow256 n ->
  le_bytes n x ++ r = le_bytes n y ++ r' -> x = y /\ r = r'.
Proof.
  intros Hx Hy E. apply app_inj_1 in E as [E ->]; [|by rewrite !length_le_bytes].
  split; [|done]. by apply (le_bytes_inj n).
Qed.

(** C30: frames cannot be moved: two frames share their additional data only when
    segment, slot, inode and extent all agree, and no frame shares it with a
    directory, so an authenticated frame opens in its own slot only. *)
Theorem frame_aad_binds s fi i x s' fi' i' x' k :
  Segid_wf s -> Segid_wf s' -> is_u32 fi -> is_u32 fi' -> is_u64 i -> is_u64 i' ->
  is_u64 x -> is_u64 x' ->
  (frame_aad s fi i x = frame_aad s' fi' i' x' -> s = s' /\ fi = fi' /\ i = i' /\ x = x') /\
  frame_aad s fi i x <> dir_aad s' k.
Proof.
  destruct s as [e c], s' as [e' c']. intros [? ?] [? ?] ??????. cbn in *.
  split; [|done]. unfold frame_aad, Segid_to_le_bytes. cbn [epoch counter].
  rewrite <- !app_assoc. intros E. apply (app_inv_head [70]) in E.
  apply le_bytes_app_inj in E as [-> E]; [|rewrite pow256_8; ulia..].
  apply le_bytes_app_inj in E as [-> E]; [|rewrite pow256_8; ulia..].
  apply le_bytes_app_inj in E as [-> E]; [|rewrite pow256_4; ulia..].
  apply le_bytes_app_inj in E as [-> E]; [|rewrite pow256_8; ulia..].
  apply le_bytes_inj in E as ->; [done|rewrite pow256_8; ulia..].
Qed.

Lemma frame_aad_binds_witness :
  (frame_aad (mkSegid 1 2) 3 4 5 = frame_aad (mkSegid 1 2) 3 4 5 ->
   mkSegid 1 2 = mkSegid 1 2 /\ 3 = 3 /\ 4 = 4 /\ 5 = 5) /\
  frame_aad (mkSegid 1 2) 3 4 5 <> dir_aad (mkSegid 1 2) 3.
Proof.
  apply (frame_aad_binds (mkSegid 1 2) 3 4 5 (mkSegid 1 2) 3 4 5 3);
    unfold Segid_wf; cbn; ulia.
Defined.

(** ** A finished segment reads back *)

Definition frame_bytes (sealed : bytes) : bytes := le_bytes 4 (zlen sealed) ++ sealed.

Lemma checked_wire_u32_Ok v l f x :
  checked_wire_u32 v l f = Ok x <-> x = v /\ v <= l /\ v <= U32_MAX.
Proof.
  unfold checked_wire_u32. destruct (Z.ltb_spec l v), (Z.ltb_spec U32_MAX v); naive_solver lia.
Qed.
Lemma checked_frame_index_Ok f o l x :
  checked_frame_index f o l = Ok x <->
  x = f + o /\ o <= l /\ o <= U32_MAX /\ f + o <= U32_MAX /\ f + o <= l.
Proof.
  unfold checked_frame_index. rewrite result_bind_Ok.
  setoid_rewrite checked_wire_u32_Ok. split.
  - intros (a & (-> & ? & ?) & HE). cbv zeta in HE.
    destruct (Z.ltb_spec U32_MAX (f + o)); [done|].
    destruct (Z.ltb_spec l (f + o)); naive_solver.
  - intros (-> & ? & ? & ? & ?). exists o. split; [done|]. cbv zeta.
    destruct (Z.ltb_spec U32_MAX (f + o)), (Z.ltb_spec l (f + o)); naive_solver lia.
Qed.

(** What one successful append adds. *)
Lemma try_append_sealed_Ok b inode extent sealed fi b' :
  try_append_sealed b inode extent sealed = Ok (fi, b') <->
  fi = zlen (sb_dir b) /\ zlen (sb_dir b) + 1 <= Z.min U32_MAX (sb_limits b) /\
  (zlen (sb_dir b) + 1) * 28 <= Z.min U32_MAX (sb_limits b) /\
  zlen sealed + 4 <= Z.min U32_MAX (sb_limits b) /\
  b' = mkBuilder (sb_segid b) (sb_buf b ++ frame_bytes sealed)
         (sb_dir b ++ [mkDirEntry (zlen (sb_buf b)) (zlen sealed) inode extent]) (sb_limits b).
Proof.
  assert (0 <= zlen sealed) by (unfold zlen; lia).
  assert (0 <= zlen (sb_dir b)) by (unfold zlen; lia).
  unfold try_append_sealed, checked_append_frame_index, checked_frame_count,
    checked_directory_plaintext_len, checked_frame_body_len, frame_bytes.
  repeat setoid_rewrite result_bind_Ok. setoid_rewrite ok_or_Ok.
  setoid_rewrite checked_add_u64_Some. setoid_rewrite checked_wire_u32_Ok.
  cbv zeta. change (Z.of_nat DIR_ENTRY_LEN) with 28. change (Z.of_nat LEN_PREFIX) with 4. split.
  - intros (? & (? & (? & (-> & ?) & ?) & ?) & ? & (-> & ?) & ? & Hd & ? & Hb & E).
    simplify_eq. destruct_and?; subst.
    destruct (Z.ltb_spec U64_MAX ((zlen (sb_dir b) + 1) * 28)); [done|].
    apply result_bind_Ok in Hd as (? & (-> & ? & ?)%checked_wire_u32_Ok & E'). simplify_eq.
    destruct Hb as (? & (-> & ? & ?) & Hb).
    destruct (Z.ltb_spec U32_MAX (zlen sealed + 4)); [done|].
    destruct (Z.ltb_spec (sb_limits b) (zlen sealed + 4)); simplify_eq.
    split; [done|]. split; [lia|]. split; [lia|]. split; [lia|done].
  - intros (-> & ? & ? & ? & ->). exists (zlen (sb_dir b)). split.
    { exists (zlen (sb_dir b) + 1). split; [|ulia]. exists (zlen (sb_dir b) + 1). ulia. }
    exists (zlen (sb_dir b) + 1). split; [ulia|].
    exists ((zlen (sb_dir b) + 1) * 28). split.
    { destruct (Z.ltb_spec U64_MAX ((zlen (sb_dir b) + 1) * 28)); [ulia|].
      apply result_bind_Ok. exists ((zlen (sb_dir b) + 1) * 28).
      rewrite checked_wire_u32_Ok. split; [lia|done]. }
    exists (zlen sealed). split; [|done]. exists (zlen sealed). split; [lia|].
    destruct (Z.ltb_spec U32_MAX (zlen sealed + 4)); [lia|].
    destruct (Z.ltb_spec (sb_limits b) (zlen sealed + 4)); [lia|done].
Qed.

(** ** The segment store's object codec

    [SegmentStore::seal_compressed_with_limits] up to the upload, and the ranged
    reads.  The stored object is the byte string itself; [next_segid] supplies
    the identity. *)

Section store.
Context `{CodecPrims, Crc32c} (compression : CompressionConfig).

Fixpoint append_frames (b : SegmentBuilder) (sealed : list (Z * Z * bytes))
    : result SegmentError (SegmentBuilder * list (Z * Z * FrameLoc)) :=
  match sealed with
  | [] => Ok (b, [])
  | (id, extent, body) :: rest =>
      let byte_offset := zlen (sb_buf b) in
      '(frame_index, b') ← try_append_sealed b id extent body;
      byte_len ← checked_stored_frame_len (zlen (sb_buf b') - byte_offset) (sb_limits b);
      '(b'', locs) ← append_frames b' rest;
      Ok (b'', (id, extent, mkFrameLoc (sb_segid b) frame_index byte_offset byte_len) :: locs)
  end.

Fixpoint check_body_lens (limits : Z) (frames : list (Z * Z * Compressed * bytes))
    : result SegmentError unit :=
  match frames with
  | [] => Ok tt
  | (_, _, c, _) :: rest =>
      _ ← checked_frame_body_len (Z.of_nat (sealed_len c)) limits; check_body_lens limits rest
  end.

Definition seal_compressed_with_limits (segid : Segid) (dir_nonce : bytes) (limits : Z)
    (frames : list (Z * Z * Compressed * bytes))
    : result SegmentError (bytes * list (Z * Z * FrameLoc)) :=
  _ ← checked_frame_count 0 (zlen frames) limits;
  _ ← checked_directory_plaintext_len (zlen frames) limits;
  _ ← check_body_lens limits frames;
  sealed ← seal_compressed_batch segid 0 frames;
  '(b, locs) ← append_frames (SegmentBuilder_with_limits segid limits) sealed;
  object ← SegmentBuilder_finish compression dir_nonce b (counter segid);
  Ok (object, locs).

(** One ranged GET of the object. *)
Definition read_run_region (object : bytes) (byte_offset byte_len : Z) : bytes :=
  slice (Z.to_nat byte_offset) (Z.to_nat (byte_offset + byte_len)) object.
Definition read_run (object : bytes) (segid : Segid) (byte_offset byte_len first_frame : Z)
    (slots : list (Z * Z)) : result SegmentError (list bytes) :=
  read_frames_from_region (read_run_region object byte_offset byte_len) segid first_frame slots.
Definition read_extent (object : bytes) (loc : FrameLoc) (id extent : Z)
    : result SegmentError (list bytes) :=
  read_run object (fl_segid loc) (fl_byte_offset loc) (fl_byte_len loc) (fl_frame_index loc)
    [(id, extent)].
(** The directory read of GC and recovery: a suffix GET of the footer, then a
    ranged GET of the directory it locates. *)
Definition read_directory (object : bytes) (segid : Segid) : result SegmentError (list DirEntry) :=
  let footer := drop (length object - FOOTER_LEN) object in
  meta ← parse_footer footer (zlen object);
  _ ← ensure (bool_decide (fm_segid meta = segid)) (SegidMismatch segid (fm_segid meta));
  let dir_bytes := slice (Z.to_nat (fm_dir_offset meta))
                     (Z.to_nat (fm_dir_offset meta + fm_dir_len meta)) object in
  decode_directory dir_bytes footer meta.
End store.

(** ** Reading runs of frames *)

(** [opens open i items]: every body of the run opens, at its own index, to the
    value beside it. *)
Fixpoint opens {B} (open : bytes -> Z -> Z -> Z -> result SegmentError B) (i : Z)
    (items : list (bytes * Z * Z * B)) : Prop :=
  match items with
  | [] => True
  | (body, inode, extent, out) :: rest =>
      open body i inode extent = Ok out /\ opens open (i + 1) rest
  end.

Definition item_slot {B} (it : bytes * Z * Z * B) : Z * Z := (it.1.1.2, it.1.2).
Definition item_body {B} (it : bytes * Z * Z * B) : bytes := it.1.1.1.
Definition item_out {B} (it : bytes * Z * Z * B) : B := it.2.

Definition open_with {B} (open : bytes -> Z -> Z -> Z -> result SegmentError B) (region : bytes)
    (sp : nat * nat * Z * Z * Z) : result SegmentError B :=
  let '(a, b, fi, inode, extent) := sp in open (slice a b region) fi inode extent.

Lemma frame_bytes_length body : length (frame_bytes body) = (4 + length body)%nat.
Proof. unfold frame_bytes. by rewrite length_app, length_le_bytes. Qed.

Lemma rd_u32_frame (pre body post : bytes) :
  zlen body <= U32_MAX ->
  rd_u32 (pre ++ frame_bytes body ++ post) (length pre) = zlen body.
Proof.
  intros. unfold rd_u32, frame_bytes. rewrite slice_skip by lia. rewrite Nat.sub_diag.
  rewrite <- app_assoc, slice_head by (rewrite length_le_bytes; lia).
  apply le_val_bytes. rewrite pow256_4. unfold zlen in *. ulia.
Qed.

Lemma slice_frame_body (pre body post : bytes) :
  slice (length pre + 4) (length pre + 4 + length body) (pre ++ frame_bytes body ++ post) = body.
Proof.
  unfold frame_bytes. rewrite <- !app_assoc.
  rewrite slice_skip, slice_skip by (rewrite ?length_le_bytes; lia).
  rewrite length_le_bytes.
  replace (length pre + 4 - length pre - 4)%nat with 0%nat by lia.
  apply slice_head. lia.
Qed.

Lemma read_spans_run {B} (open : bytes -> Z -> Z -> Z -> result SegmentError B) first
    (items : list (bytes * Z * Z * B)) : forall (pre post : bytes) i,
  let region := pre ++ concat (map (fun it => frame_bytes (item_body it)) items) ++ post in
  zlen region <= U64_MAX -> 0 <= first -> 0 <= i -> first + i + zlen items <= U32_MAX + 1 ->
  Forall (fun it => zlen (item_body it) <= U32_MAX) items ->
  opens open (first + i) items ->
  (spans ← parse_spans_from region first i (length pre) (map item_slot items);
   collect (open_with open region) spans) = Ok (map item_out items).
Proof.
  induction items as [|[[[body inode] extent] out] items IH]; intros pre post i region Hr Hf Hi Hc Hl Ho.
  { done. }
  apply Forall_cons in Hl as [Hb Hl]. destruct Ho as [Ho Hos].
  cbn [item_body fst] in Hb. cbn [map item_slot fst snd parse_spans_from].
  assert (Hreg : region = pre ++ frame_bytes body ++
      concat (map (fun it => frame_bytes (item_body it)) items) ++ post).
  { subst region. cbn [map item_body fst concat]. by rewrite <- app_assoc. }
  rewrite Hreg in *. clear region Hreg.
  set (tail := concat _ ++ post) in *.
  assert (Hlen : length (pre ++ frame_bytes body ++ tail)
                 = (length pre + 4 + length body + length tail)%nat).
  { rewrite !length_app, frame_bytes_length. lia. }
  unfold zlen in Hr. rewrite Hlen in Hr. unfold zlen in Hc. cbn [length] in Hc.
  rewrite rd_u32_frame by done.
  assert (ensure (length pre + LEN_PREFIX <=? length (pre ++ frame_bytes body ++ tail))%nat
     (Malformed "frame length prefix out of bounds") = Ok tt) as ->.
  { apply ensure_Ok, Nat.leb_le. rewrite Hlen. unfold LEN_PREFIX. lia. }
  cbn [mbind result_bind].
  assert (ok_or (Malformed "frame length overflow")
    (checked_add_u64 (Z.of_nat (length pre + LEN_PREFIX)) (zlen body))
    = Ok (Z.of_nat (length pre + 4 + length body))) as ->.
  { apply ok_or_Ok, checked_add_u64_Some. unfold zlen, LEN_PREFIX. lia. }
  cbn [mbind result_bind].
  assert (ensure (Z.of_nat (length pre + 4 + length body) <=? zlen (pre ++ frame_bytes body ++ tail))
    (Malformed "frame body out of bounds") = Ok tt) as ->.
  { apply ensure_Ok, Z.leb_le. unfold zlen. rewrite Hlen. lia. }
  cbn [mbind result_bind].
  assert (checked_frame_index first i WIRE = Ok (first + i)) as ->.
  { apply checked_frame_index_Ok. unfold WIRE. lia. }
  rewrite Nat2Z.id. unfold LEN_PREFIX.
  specialize (IH (pre ++ frame_bytes body) post (i + 1)). cbv zeta in IH.
  rewrite <- app_assoc in IH. fold tail in IH.
  replace (length (pre ++ frame_bytes body)) with (length pre + 4 + length body)%nat in IH
    by (rewrite length_app, frame_bytes_length; lia).
  replace (first + (i + 1)) with (first + i + 1) in IH by lia.
  specialize (IH ltac:(unfold zlen; rewrite Hlen; lia) ltac:(lia) ltac:(lia)
                 ltac:(unfold zlen; lia) Hl Hos).
  cbn [mbind result_bind] in *.
  destruct (parse_spans_from _ _ _ _ _) as [spans|]; [|done].
  cbn [mbind result_bind] in *. cbn [collect open_with].
  rewrite slice_frame_body, Ho. cbn [mbind result_bind].
  by rewrite IH.
Qed.

(** ** What sealing and appending produce *)

Definition bodies (sealed : list (Z * Z * bytes)) : bytes :=
  concat (map (fun f => frame_bytes f.2) sealed).

Fixpoint locs_of (s : Segid) (index offset : Z) (sealed : list (Z * Z * bytes))
    : list (Z * Z * FrameLoc) :=
  match sealed with
  | [] => []
  | (id, extent, body) :: rest =>
      (id, extent, mkFrameLoc s index offset (zlen body + 4))
        :: locs_of s (index + 1) (offset + (zlen body + 4)) rest
  end.
Fixpoint dir_of (offset : Z) (sealed : list (Z * Z * bytes)) : list DirEntry :=
  match sealed with
  | [] => []
  | (id, extent, body) :: rest =>
      mkDirEntry offset (zlen body) id extent :: dir_of (offset + (zlen body + 4)) rest
  end.

Lemma zlen_app {A} (x y : list A) : zlen (x ++ y) = zlen x + zlen y.
Proof. unfold zlen. rewrite length_app. lia. Qed.
Lemma zlen_cons {A} a (x : list A) : zlen (a :: x) = 1 + zlen x.
Proof. unfold zlen. cbn [length]. lia. Qed.
Lemma zlen_nonneg {A} (x : list A) : 0 <= zlen x.
Proof. unfold zlen. lia. Qed.
Lemma zlen_frame_bytes b : zlen (frame_bytes b) = zlen b + 4.
Proof. unfold zlen. rewrite frame_bytes_length. lia. Qed.
Lemma zlen_bodies_cons i x b r : zlen (bodies ((i, x, b) :: r)) = zlen b + 4 + zlen (bodies r).
Proof. unfold bodies. cbn [map concat snd]. rewrite zlen_app, zlen_frame_bytes. lia. Qed.
Lemma bodies_app p q : bodies (p ++ q) = bodies p ++ bodies q.
Proof. unfold bodies. by rewrite map_app, concat_app. Qed.

Lemma locs_of_app s i o p q :
  locs_of s i o (p ++ q) = locs_of s i o p ++ locs_of s (i + zlen p) (o + zlen (bodies p)) q.
Proof.
  revert i o. induction p as [|[[id x] b] p IH]; intros i o; cbn [app locs_of].
  { unfold zlen, bodies. cbn. f_equal; lia. }
  rewrite IH, zlen_bodies_cons, zlen_cons. cbn. do 3 f_equal; lia.
Qed.

Lemma append_frames_Ok sealed : forall b b' locs,
  append_frames b sealed = Ok (b', locs) ->
  b' = mkBuilder (sb_segid b) (sb_buf b ++ bodies sealed)
         (sb_dir b ++ dir_of (zlen (sb_buf b)) sealed) (sb_limits b) /\
  locs = locs_of (sb_segid b) (zlen (sb_dir b)) (zlen (sb_buf b)) sealed /\
  (sealed <> [] -> (zlen (sb_dir b) + zlen sealed) * 28 <= U32_MAX) /\
  Forall (fun f => zlen f.2 + 4 <= U32_MAX) sealed.
Proof.
  induction sealed as [|[[id x] body] sealed IH]; intros b b' locs; cbn [append_frames].
  { intros; simplify_eq. unfold bodies. cbn. rewrite !app_nil_r. by destruct b'. }
  rewrite result_bind_Ok. intros ([fi b1] & Happ & HR).
  apply try_append_sealed_Ok in Happ as (-> & ? & ? & Hb & ->).
  apply result_bind_Ok in HR as (bl & (-> & _)%checked_wire_u32_Ok & HR).
  apply result_bind_Ok in HR as ([b2 locs2] & HR & HE).
  apply IH in HR as (-> & -> & Hc & Hl). simplify_eq. cbn [sb_segid sb_buf sb_dir sb_limits] in *.
  rewrite !zlen_app, zlen_frame_bytes, zlen_cons in *.
  change (zlen (@nil DirEntry)) with 0 in *.
  split_and!.
  - unfold bodies. cbn [map concat snd dir_of]. by rewrite <- !app_assoc.
  - cbn [locs_of]. do 2 f_equal; f_equal; lia.
  - intros _. rewrite zlen_cons. destruct sealed as [|f sealed]; [change (zlen (@nil (Z * Z * bytes))) with 0; ulia|].
    specialize (Hc ltac:(done)). lia.
  - constructor; [cbn; lia|done].
Qed.

Section roundtrip.
Context `{CodecPrimsLaws, Crc32cLaws}.

Definition frame_slot (f : Z * Z * Compressed * bytes) : Z * Z := (f.1.1.1, f.1.1.2).
Definition frame_payload (f : Z * Z * Compressed * bytes) : Compressed := f.1.2.
Definition nonces_ok (frames : list (Z * Z * Compressed * bytes)) : Prop :=
  Forall (fun f => length f.2 = NONCE_SIZE) frames.

Definition open_payload (s : Segid) (body : bytes) (fi inode extent : Z)
    : result SegmentError Compressed :=
  lift_codec (open_compressed body (frame_aad s fi inode extent)).
Definition open_plain (s : Segid) (body : bytes) (fi inode extent : Z)
    : result SegmentError bytes :=
  lift_codec (codec_open body (frame_aad s fi inode extent)).

(** The sealed batch in step with the frames it came from. *)
Inductive sealed_from (s : Segid) : Z -> list (Z * Z * Compressed * bytes) ->
    list (Z * Z * bytes) -> Prop :=
| sealed_nil i : sealed_from s i [] []
| sealed_cons i inode extent c nonce body frames sealed :
    open_payload s body i inode extent = Ok c ->
    sealed_from s (i + 1) frames sealed ->
    sealed_from s i ((inode, extent, c, nonce) :: frames) ((inode, extent, body) :: sealed).

Lemma seal_batch_sealed_from s first frames : forall i sealed,
  nonces_ok frames ->
  seal_compressed_batch_from s first i frames = Ok sealed ->
  sealed_from s (first + i) frames sealed /\
  (frames <> [] -> first + i + zlen frames <= U32_MAX + 1).
Proof.
  induction frames as [|[[[inode extent] c] nonce] frames IH]; intros i sealed Hn; cbn.
  { intros; simplify_eq. split; [constructor|done]. }
  apply Forall_cons in Hn as [Hn Hns].
  rewrite result_bind_Ok. intros (fi & (-> & ? & ? & ? & ?)%checked_frame_index_Ok & HR).
  apply result_bind_Ok in HR as (body & Hbody & HR).
  apply result_bind_Ok in HR as (rest & Hrest & HE). simplify_eq.
  apply IH in Hrest as [Hrest Hlen]; [|done].
  replace (first + (i + 1)) with (first + i + 1) in * by lia.
  split.
  - constructor; [|done]. unfold open_payload, seal_compressed_frame, lift_codec in *.
    destruct (seal_compressed _ _ _) as [b|] eqn:Es; [|done]. simplify_eq.
    by rewrite (open_seal_compressed _ _ _ _ Hn Es).
  - intros _. rewrite zlen_cons. destruct frames; [unfold zlen; cbn; ulia|].
    specialize (Hlen ltac:(done)). lia.
Qed.

Lemma sealed_from_app s i frames p q :
  sealed_from s i frames (p ++ q) ->
  exists fp fq, frames = fp ++ fq /\ sealed_from s i fp p /\ sealed_from s (i + zlen p) fq q.
Proof.
  revert i frames. induction p as [|[[a b] c] p IH]; intros i frames; cbn [app].
  { intros. exists [], frames. split; [done|]. split; [constructor|].
    unfold zlen. cbn. by rewrite Z.add_0_r. }
  inversion 1; subst. destruct (IH (i + 1) frames0) as (fp & fq & -> & ? & ?); [done|].
  eexists (_ :: fp), fq. split; [done|]. split; [by constructor|].
  rewrite zlen_cons. by replace (i + (1 + zlen p)) with (i + 1 + zlen p) by lia.
Qed.

Lemma sealed_from_length s i frames sealed :
  sealed_from s i frames sealed -> length frames = length sealed.
Proof. induction 1; cbn; congruence. Qed.

(** The run as items of [read_spans_run]. *)
Lemma sealed_from_items s i frames sealed :
  sealed_from s i frames sealed ->
  exists items : list (bytes * Z * Z * Compressed),
    opens (open_payload s) i items /\ map item_slot items = map frame_slot frames /\
    map item_out items = map frame_payload frames /\
    map item_body items = map snd sealed.
Proof.
  induction 1 as [i|i inode extent c nonce body frames sealed Ho _ (items & ? & Hs & Hc & Hb)].
  { by exists []. }
  exists ((body, inode, extent, c) :: items). cbn. by rewrite Hs, Hc, Hb.
Qed.

Lemma read_compressed_run_ok s i frames sealed :
  sealed_from s i frames sealed -> 0 <= i -> i + zlen frames <= U32_MAX + 1 ->
  Forall (fun f => zlen f.2 + 4 <= U32_MAX) sealed ->
  zlen (bodies sealed) <= U64_MAX ->
  read_compressed_frames_from_region (bodies sealed) s i (map frame_slot frames)
  = Ok (map frame_payload frames).
Proof.
  intros Hs Hi Hc Hl Hz.
  destruct (sealed_from_items _ _ _ _ Hs) as (items & Ho & Hsl & Hp & Hb).
  assert (Hreg : bodies sealed = concat (map (fun it => frame_bytes (item_body it)) items)).
  { unfold bodies. rewrite <- (map_map snd frame_bytes), <- Hb, map_map. done. }
  pose proof (read_spans_run (open_payload s) i items [] [] 0) as HR. cbv zeta in HR.
  rewrite app_nil_r in HR. cbn [app length] in HR. rewrite <- Hreg, Hsl, Hp in HR.
  unfold read_compressed_frames_from_region, parse_spans.
  apply HR; try done; try (rewrite Z.add_0_r).
  - apply (f_equal length) in Hsl. rewrite !length_map in Hsl. unfold zlen in *. lia.
  - rewrite Forall_forall. intros it Hit.
    assert (Hin : item_body it ∈ map snd sealed) by (rewrite <- Hb; by apply list_elem_of_fmap_2).
    apply list_elem_of_fmap_1 in Hin as (f & -> & Hf).
    rewrite Forall_forall in Hl. specialize (Hl f Hf). cbn in Hl. ulia.
  - done.
Qed.

Definition decompresses (f : Z * Z * Compressed * bytes) (p : bytes) : Prop :=
  codec_decompress (payload (frame_payload f)) = Ok p.

Lemma sealed_from_plain_items s i frames sealed plains :
  sealed_from s i frames sealed -> Forall2 decompresses frames plains ->
  exists items : list (bytes * Z * Z * bytes),
    opens (open_plain s) i items /\ map item_slot items = map frame_slot frames /\
    map item_out items = plains /\ map item_body items = map snd sealed.
Proof.
  intros Hs. revert plains.
  induction Hs as [i|i inode extent c nonce body frames sealed Ho _ IH]; intros plains Hp.
  { apply Forall2_nil_inv_l in Hp as ->. by exists []. }
  apply Forall2_cons_inv_l in Hp as (p & plains' & Hd & Hp & ->).
  destruct (IH plains' Hp) as (items & ? & Hsl & Hout & Hb).
  exists ((body, inode, extent, p) :: items). cbn. rewrite Hsl, Hout, Hb.
  split_and!; try done. unfold open_plain, open_payload, codec_open, lift_codec in *.
  destruct (open_compressed _ _) as [c'|] eqn:E; [|done]. simplify_eq. cbn. by rewrite Hd.
Qed.

Lemma read_plain_run_ok s i frames sealed plains :
  sealed_from s i frames sealed -> Forall2 decompresses frames plains ->
  0 <= i -> i + zlen frames <= U32_MAX + 1 ->
  Forall (fun f => zlen f.2 + 4 <= U32_MAX) sealed -> zlen (bodies sealed) <= U64_MAX ->
  read_frames_from_region (bodies sealed) s i (map frame_slot frames) = Ok plains.
Proof.
  intros Hs Hp Hi Hc Hl Hz.
  destruct (sealed_from_plain_items _ _ _ _ _ Hs Hp) as (items & Ho & Hsl & <- & Hb).
  assert (Hreg : bodies sealed = concat (map (fun it => frame_bytes (item_body it)) items)).
  { unfold bodies. rewrite <- (map_map snd frame_bytes), <- Hb, map_map. done. }
  pose proof (read_spans_run (open_plain s) i items [] [] 0) as HR. cbv zeta in HR.
  rewrite app_nil_r in HR. cbn [app length] in HR. rewrite <- Hreg, Hsl in HR.
  unfold read_frames_from_region, parse_spans.
  apply HR; try done; try (rewrite Z.add_0_r).
  - apply (f_equal length) in Hsl. rewrite !length_map in Hsl. unfold zlen in *. lia.
  - rewrite Forall_forall. intros it Hit.
    assert (Hin : item_body it ∈ map snd sealed) by (rewrite <- Hb; by apply list_elem_of_fmap_2).
    apply list_elem_of_fmap_1 in Hin as (f & -> & Hf).
    rewrite Forall_forall in Hl. specialize (Hl f Hf). cbn in Hl. ulia.
  - done.
Qed.

(** The bytes of a finished object. *)
Lemma finish_Ok k nonce b seqno object :
  SegmentBuilder_finish k nonce b seqno = Ok object ->
  exists sealed_dir p,
    seal_directory k nonce (sb_segid b) (sb_dir b) = Ok sealed_dir /\
    p = mkPrepared (zlen (sb_dir b)) (zlen (sb_buf b)) (zlen sealed_dir)
          (zlen (sb_buf b) + zlen sealed_dir + 64) /\
    zlen (sb_dir b) <= U32_MAX /\ zlen sealed_dir <= U32_MAX /\ pa_total_len p <= U64_MAX /\
    object = assemble_prepared_segment (sb_segid b) (sb_buf b) sealed_dir seqno p.
Proof.
  unfold SegmentBuilder_finish, finalize_segment, assemble_segment, prepare_segment_assembly.
  rewrite result_bind_Ok. intros (sd & Hsd & HR). rewrite result_bind_Ok in HR.
  destruct HR as (p & Hp & HE). simplify_eq. exists sd, p. split; [done|].
  apply result_bind_Ok in Hp as (? & (-> & ? & _)%checked_wire_u32_Ok & Hp).
  apply result_bind_Ok in Hp as (? & (-> & ? & _)%checked_wire_u32_Ok & Hp).
  cbv zeta in Hp.
  apply result_bind_Ok in Hp as (? & [-> _]%ok_or_Ok%checked_add_u64_Some & Hp).
  apply result_bind_Ok in Hp as (? & [-> Ht]%ok_or_Ok%checked_add_u64_Some & Hp).
  simplify_eq. change (Z.of_nat FOOTER_LEN) with 64 in *. unfold WIRE in *.
  cbn [pa_total_len]. split; [f_equal; lia|]. split_and!; try done.
Qed.

Lemma seal_object_Ok k segid dn limits frames object locs :
  nonces_ok frames ->
  seal_compressed_with_limits k segid dn limits frames = Ok (object, locs) ->
  exists sealed sealed_dir p,
    sealed_from segid 0 frames sealed /\ locs = locs_of segid 0 0 sealed /\
    zlen frames <= U32_MAX /\ Forall (fun f => zlen f.2 + 4 <= U32_MAX) sealed /\
    seal_directory k dn segid (dir_of 0 sealed) = Ok sealed_dir /\
    p = mkPrepared (zlen (dir_of 0 sealed)) (zlen (bodies sealed)) (zlen sealed_dir)
          (zlen (bodies sealed) + zlen sealed_dir + 64) /\
    zlen (dir_of 0 sealed) <= U32_MAX /\ zlen sealed_dir <= U32_MAX /\
    pa_total_len p <= U64_MAX /\
    object = assemble_prepared_segment segid (bodies sealed) sealed_dir (counter segid) p.
Proof.
  intros Hn. unfold seal_compressed_with_limits, checked_frame_count.
  rewrite result_bind_Ok. intros (? & Hcnt & HR).
  apply result_bind_Ok in Hcnt as (? & [-> _]%ok_or_Ok%checked_add_u64_Some &
                                   (-> & _ & Hcnt)%checked_wire_u32_Ok).
  apply result_bind_Ok in HR as (? & _ & HR). apply result_bind_Ok in HR as (? & _ & HR).
  apply result_bind_Ok in HR as (sealed & Hs & HR).
  apply result_bind_Ok in HR as ([b l] & Happ & HR).
  apply result_bind_Ok in HR as (obj & Hfin & HE). simplify_eq.
  apply seal_batch_sealed_from in Hs as [Hs _]; [|done].
  apply append_frames_Ok in Happ as (-> & -> & _ & Hl).
  apply finish_Ok in Hfin as (sd & p & Hsd & Hp & ? & ? & ? & ->).
  exists sealed, sd, p. cbn in *. by split_and!.
Qed.

(** Total stored length of a run of locations, the length of its ranged GET. *)
Definition run_len (locs : list (Z * Z * FrameLoc)) : Z :=
  fold_right (fun l acc => fl_byte_len l.2 + acc) 0 locs.

Lemma run_len_locs_of s i o sealed : run_len (locs_of s i o sealed) = zlen (bodies sealed).
Proof.
  revert i o. induction sealed as [|[[id x] b] r IH]; intros; [done|].
  rewrite zlen_bodies_cons. cbn. unfold run_len in IH. rewrite IH. lia.
Qed.
Lemma length_locs_of s i o sealed : length (locs_of s i o sealed) = length sealed.
Proof. revert i o. induction sealed as [|[[id x] b] r IH]; intros; cbn; auto. Qed.

Lemma read_run_region_object segid seqno p sd (sp sm sq : list (Z * Z * bytes)) :
  read_run_region (assemble_prepared_segment segid (bodies (sp ++ sm ++ sq)) sd seqno p)
    (zlen (bodies sp)) (zlen (bodies sm)) = bodies sm.
Proof.
  unfold read_run_region, assemble_prepared_segment. cbv zeta.
  rewrite !bodies_app, <- !app_assoc.
  apply slice_app_mid; unfold zlen; lia.
Qed.

(** C28: every contiguous run of frames of a finished segment reads back: one ranged
    GET over the byte range of the run's locations, opened slot by slot, yields
    the plaintexts that were sealed there, in order.  A single extent read is a
    run of one frame. *)
Theorem segment_runs_roundtrip k segid dn limits frames object locs fp fm fq lp lm lq plains l0 lm' :
  nonces_ok frames ->
  seal_compressed_with_limits k segid dn limits frames = Ok (object, locs) ->
  frames = fp ++ fm ++ fq -> locs = lp ++ lm ++ lq ->
  length lp = length fp -> length lm = length fm -> lm = l0 :: lm' ->
  Forall2 decompresses fm plains ->
  read_run object segid (fl_byte_offset l0.2) (run_len lm) (fl_frame_index l0.2) (map frame_slot fm)
  = Ok plains.
Proof.
  intros Hn Hseal Hfr Hlo Hlp Hlm Hl0 Hd.
  destruct (seal_object_Ok _ _ _ _ _ _ _ Hn Hseal)
    as (sealed & sd & p & Hs & Hlocs & Hcnt & Hfit & _ & Hp & _ & _ & Htot & ->).
  pose proof (sealed_from_length _ _ _ _ Hs) as Hlen.
  set (n := length fp) in *. set (m := length fm) in *.
  assert (Hsplit : sealed = take n sealed ++ take m (drop n sealed) ++ drop m (drop n sealed))
    by by rewrite !take_drop.
  set (sp := take n sealed) in *. set (sm := take m (drop n sealed)) in *.
  set (sq := drop m (drop n sealed)) in *.
  rewrite Hfr, !length_app in Hlen.
  assert (Hsp : length sp = length fp) by (subst sp n; rewrite length_take; lia).
  assert (Hsm : length sm = length fm) by (subst sm n m; rewrite length_take, length_drop; lia).
  rewrite Hsplit in Hlocs. rewrite !locs_of_app in Hlocs. rewrite Hlo in Hlocs.
  apply app_inj_1 in Hlocs as [_ Hlocs]; [|rewrite length_locs_of; lia].
  apply app_inj_1 in Hlocs as [Hlm' _]; [|rewrite length_locs_of; lia].
  rewrite !Z.add_0_l in Hlm'. rewrite Hlm' in *. rewrite run_len_locs_of.
  assert (Hl0' : fl_byte_offset l0.2 = zlen (bodies sp) /\ fl_frame_index l0.2 = zlen sp).
  { destruct sm as [|[[a b] c] sm']; [done|]. cbn in Hl0. by simplify_eq. }
  destruct Hl0' as [-> ->]. unfold read_run. rewrite Hsplit at 1. rewrite read_run_region_object.
  rewrite Hsplit in Hs. apply sealed_from_app in Hs as (gp & g & Hg & Hsp' & Hs).
  apply sealed_from_app in Hs as (gm & gq & -> & Hs & _). rewrite Z.add_0_l in Hs.
  rewrite Hfr in Hg. apply app_inj_1 in Hg as [-> Hg];
    [|rewrite (sealed_from_length _ _ _ _ Hsp'); lia].
  apply app_inj_1 in Hg as [-> _]; [|rewrite (sealed_from_length _ _ _ _ Hs); lia].
  apply read_plain_run_ok; try done.
  - apply zlen_nonneg.
  - rewrite Hfr, !zlen_app in Hcnt. unfold zlen in *. lia.
  - rewrite Hsplit in Hfit. apply Forall_app in Hfit as [_ Hfit].
    by apply Forall_app in Hfit as [Hfit _].
  - subst p. cbn in Htot. rewrite Hsplit, !bodies_app, !zlen_app in Htot.
    pose proof (zlen_nonneg (bodies sp)). pose proof (zlen_nonneg (bodies sq)).
    pose proof (zlen_nonneg sd). lia.
Qed.

(** ** The directory reads back *)

Definition DirEntry_wf (e : DirEntry) : Prop :=
  is_u64 (de_byte_offset e) /\ is_u32 (de_len e) /\ is_u64 (de_inode e) /\ is_u64 (de_extent e).

Lemma length_dir_entry_bytes e : length (dir_entry_bytes e) = 28%nat.
Proof. unfold dir_entry_bytes. by rewrite !length_app, !length_le_bytes. Qed.

Lemma length_dir_plain dir : length (concat (map dir_entry_bytes dir)) = (28 * length dir)%nat.
Proof.
  induction dir as [|e dir IH]; [done|]. cbn [map concat].
  rewrite length_app, length_dir_entry_bytes, IH. cbn [length]. lia.
Qed.

Lemma parse_dir_entry_at e (pre post : bytes) :
  DirEntry_wf e -> parse_dir_entry (pre ++ dir_entry_bytes e ++ post) (length pre) = e.
Proof.
  destruct e as [o l i x]. intros (?&?&?&?). cbn in *.
  unfold parse_dir_entry, dir_entry_bytes.
  cbn [de_byte_offset de_len de_inode de_extent]. rewrite <- !app_assoc.
  f_equal; seg_field_at.
Qed.

Lemma parse_dir_entries_concat dir :
  Forall DirEntry_wf dir ->
  parse_dir_entries (concat (map dir_entry_bytes dir)) (zlen dir) = Ok dir.
Proof.
  intros Hwf. unfold parse_dir_entries.
  replace (zlen (concat (map dir_entry_bytes dir)) =? zlen dir * Z.of_nat DIR_ENTRY_LEN) with true.
  2:{ symmetry. apply Z.eqb_eq. unfold zlen. rewrite length_dir_plain.
      change (Z.of_nat DIR_ENTRY_LEN) with 28. lia. }
  cbn [negb]. f_equal. unfold zlen. rewrite Nat2Z.id.
  cut (forall pre : bytes, forall i, length pre = (i * 28)%nat ->
    map (fun j => parse_dir_entry (pre ++ concat (map dir_entry_bytes dir)) (j * DIR_ENTRY_LEN))
      (seq i (length dir)) = dir).
  { intros HC. apply (HC [] 0%nat). done. }
  induction Hwf as [|e dir He _ IH]; intros pre i Hpre; [done|].
  cbn [map concat seq length]. f_equal.
  - unfold DIR_ENTRY_LEN. rewrite <- Hpre. by apply parse_dir_entry_at.
  - rewrite app_assoc. apply (IH (pre ++ dir_entry_bytes e) (S i)).
    rewrite length_app, length_dir_entry_bytes. lia.
Qed.

Lemma length_footer_head s seqno p : length (footer_head s seqno p) = 56%nat.
Proof. unfold footer_head. by rewrite !length_app, !length_le_bytes. Qed.

Lemma parse_footer_head s seqno p crc :
  Segid_wf s -> is_u64 seqno -> is_u32 crc ->
  is_u32 (pa_k p) -> is_u64 (pa_dir_offset p) -> is_u32 (pa_dir_len p) ->
  pa_total_len p = pa_dir_offset p + pa_dir_len p + 64 -> pa_total_len p <= U64_MAX ->
  parse_footer (footer_head s seqno p ++ le_bytes 4 crc ++ le_bytes 4 0) (pa_total_len p) =
    Ok (mkFooterMeta s (pa_k p) (pa_dir_offset p) (pa_dir_len p) crc).
Proof.
  destruct s as [e c], p as [k o l t]. intros [? ?]. cbn [epoch counter] in *.
  cbn [pa_k pa_dir_offset pa_dir_len pa_total_len]. intros ???????.
  unfold parse_footer. rewrite !length_app, length_footer_head, !length_le_bytes.
  cbn [mbind result_bind ensure Nat.add Nat.eqb FOOTER_LEN].
  set (ft := footer_head _ _ _ ++ _ ++ _).
  assert (F : slice F_MAGIC (F_MAGIC + 4) ft = MAGIC).
  { subst ft. unfold footer_head. rewrite <- !app_assoc. by apply slice_head. }
  assert (rd_u32 ft F_VERSION = VERSION /\ rd_u64 ft F_TOTAL_LEN = t /\ rd_u32 ft F_RESERVED = 0 /\
          rd_u64 ft F_DIR_OFFSET = o /\ rd_u32 ft F_DIR_LEN = l /\ rd_u64 ft F_SEALED_EPOCH = e /\
          rd_u64 ft F_COUNTER = c /\ rd_u32 ft F_K = k /\ rd_u32 ft F_CRC = crc)
    as (E1 & E2 & E3 & E4 & E5 & E6 & E7 & E8 & E9).
  { subst ft. unfold footer_head, F_VERSION, F_TOTAL_LEN, F_RESERVED, F_DIR_OFFSET, F_DIR_LEN,
      F_SEALED_EPOCH, F_COUNTER, F_K, F_CRC, VERSION, MAGIC.
    cbn [pa_k pa_dir_offset pa_dir_len pa_total_len epoch counter]. rewrite <- !app_assoc.
    rewrite <- (app_nil_r (le_bytes 4 0)).
    split_and!; try seg_field_at. }
  assert (A : checked_add_u64 o l ≫= (fun e0 => checked_add_u64 e0 (Z.of_nat FOOTER_LEN)) = Some t).
  { change (Z.of_nat FOOTER_LEN) with 64. apply bind_Some. exists (o + l).
    rewrite !checked_add_u64_Some. ulia. }
  cbv zeta. rewrite F, E1, E2, E3, E4, E5, E6, E7, E8, E9, A.
  rewrite !bool_decide_true by done. cbn [mbind result_bind ensure].
  rewrite !Z.eqb_refl. done.
Qed.

Lemma seal_directory_Ok k nonce s dir sd :
  length nonce = NONCE_SIZE -> seal_directory k nonce s dir = Ok sd ->
  codec_open sd (dir_aad s (zlen dir)) = Ok (concat (map dir_entry_bytes dir)).
Proof.
  intros Hn. unfold seal_directory, checked_directory_plaintext_len. rewrite result_bind_Ok.
  intros (? & (-> & _ & _)%checked_wire_u32_Ok & HR). apply result_bind_Ok in HR as (? & Hl & HR).
  apply result_bind_Ok in HR as (sealed & Hs & HR). apply result_bind_Ok in HR as (? & _ & HE).
  simplify_eq. unfold lift_codec in Hs. destruct (codec_seal _ _ _ _) as [s'|] eqn:Es; [|done].
  simplify_eq. apply result_bind_Ok in Es as (c & Hc & Hsc).
  apply open_seal_compressed in Hsc; [|done]. unfold codec_open. rewrite Hsc. cbn.
  apply (decompress_compress k); [|done].
  rewrite length_dir_plain. case_match; [done|].
  apply result_bind_Ok in Hl as (? & (-> & _ & Hl)%checked_wire_u32_Ok & _).
  change (Z.of_nat DIR_ENTRY_LEN) with 28 in Hl. unfold zlen in Hl. lia.
Qed.

Definition entry_of_loc (l : Z * Z * FrameLoc) : DirEntry :=
  mkDirEntry (fl_byte_offset l.2) (fl_byte_len l.2 - 4) l.1.1 l.1.2.

Lemma dir_of_locs s i o sealed : dir_of o sealed = map entry_of_loc (locs_of s i o sealed).
Proof.
  revert i o. induction sealed as [|[[id x] b] r IH]; intros; [done|].
  cbn [dir_of locs_of map]. rewrite <- IH. unfold entry_of_loc. cbn. f_equal. f_equal. lia.
Qed.

Lemma dir_of_wf s frames sealed : forall i o,
  sealed_from s i frames sealed -> 0 <= o ->
  Forall (fun f => is_u64 (frame_slot f).1 /\ is_u64 (frame_slot f).2) frames ->
  Forall (fun f => zlen f.2 + 4 <= U32_MAX) sealed -> o + zlen (bodies sealed) <= U64_MAX ->
  Forall DirEntry_wf (dir_of o sealed).
Proof.
  intros i o Hs. revert o. induction Hs as [|i inode extent c nonce body frames sealed _ _ IH];
    intros o Ho Hf Hl Hz; [constructor|].
  apply Forall_cons in Hf as [[Hi Hx] Hf]. apply Forall_cons in Hl as [Hb Hl].
  rewrite zlen_bodies_cons in Hz. cbn in Hb, Hi, Hx. cbn [dir_of]. pose proof (zlen_nonneg body). pose proof (zlen_nonneg (bodies sealed)).
  constructor; [unfold DirEntry_wf; cbn; ulia|]. apply IH; try done; lia.
Qed.

(** The directory of any assembled object reads back. *)
Lemma read_directory_assembled k nonce s buf dir sd seqno p :
  length nonce = NONCE_SIZE -> Segid_wf s -> is_u64 seqno -> Forall DirEntry_wf dir ->
  seal_directory k nonce s dir = Ok sd ->
  p = mkPrepared (zlen dir) (zlen buf) (zlen sd) (zlen buf + zlen sd + 64) ->
  zlen dir <= U32_MAX -> zlen sd <= U32_MAX -> pa_total_len p <= U64_MAX ->
  read_directory (assemble_prepared_segment s buf sd seqno p) s = Ok dir.
Proof.
  intros Hdn Hwf Hseq Hdir Hsd Hp Hk Hdl Htot.
  pose proof (zlen_nonneg buf). pose proof (zlen_nonneg sd). pose proof (zlen_nonneg dir).
  set (crc := crc32c (sd ++ footer_head s seqno p)).
  set (ft := footer_head s seqno p ++ le_bytes 4 crc ++ le_bytes 4 0).
  assert (Hobj : assemble_prepared_segment s buf sd seqno p = buf ++ sd ++ ft).
  { unfold assemble_prepared_segment. cbv zeta. subst p. cbn [pa_dir_offset]. unfold zlen.
    rewrite Nat2Z.id, drop_app_length. rewrite <- !app_assoc. done. }
  assert (Hft : length ft = 64%nat).
  { subst ft. rewrite !length_app, length_footer_head, !length_le_bytes. done. }
  assert (Hfoot : parse_footer ft (pa_total_len p) =
    Ok (mkFooterMeta s (pa_k p) (pa_dir_offset p) (pa_dir_len p) crc)).
  { apply parse_footer_head; try done; subst p; cbn in *; try ulia. apply crc32c_u32. }
  unfold read_directory. rewrite Hobj. cbv zeta.
  assert (Hsz : zlen (buf ++ sd ++ ft) = pa_total_len p).
  { rewrite !zlen_app. unfold zlen at 3. rewrite Hft. subst p. cbn. lia. }
  assert (Hdrop : drop (length (buf ++ sd ++ ft) - FOOTER_LEN) (buf ++ sd ++ ft) = ft).
  { rewrite app_assoc. apply drop_app_exact. rewrite !length_app, Hft. unfold FOOTER_LEN. lia. }
  rewrite Hsz, Hdrop, Hfoot. cbn [mbind result_bind fm_segid fm_dir_offset fm_dir_len].
  rewrite bool_decide_true by done. cbn [mbind result_bind ensure].
  assert (Hslice : slice (Z.to_nat (pa_dir_offset p)) (Z.to_nat (pa_dir_offset p + pa_dir_len p))
                     (buf ++ sd ++ ft) = sd).
  { subst p. cbn [pa_dir_offset pa_dir_len]. apply slice_app_mid; unfold zlen; lia. }
  rewrite Hslice. unfold decode_directory. cbn [fm_dir_len fm_crc fm_segid fm_k].
  replace (pa_dir_len p) with (zlen sd) by by subst p.
  rewrite Z.eqb_refl, Hft. cbn [andb Nat.eqb FOOTER_LEN ensure mbind result_bind].
  rewrite crc32c_append_app. subst ft. rewrite take_app_exact by apply length_footer_head.
  fold crc. rewrite Z.eqb_refl. cbn [ensure mbind result_bind].
  replace (pa_k p) with (zlen dir) by by subst p.
  rewrite (seal_directory_Ok _ _ _ _ _ Hdn Hsd). cbn [lift_codec mbind result_bind].
  by apply parse_dir_entries_concat.
Qed.

(** What finalizing a buffer gives: the buffer first, and a directory that reads back. *)
Lemma finalize_Ok k nonce s buf dir seqno object :
  length nonce = NONCE_SIZE -> Segid_wf s -> is_u64 seqno -> Forall DirEntry_wf dir ->
  finalize_segment k nonce s buf dir seqno = Ok object ->
  (exists more, object = buf ++ more) /\ zlen object <= U64_MAX /\ read_directory object s = Ok dir.
Proof.
  intros Hn Hs Hq Hd Hf. destruct (finish_Ok k nonce (mkBuilder s buf dir WIRE) seqno object Hf)
    as (sd & p & Hsd & Hp & ? & ? & Htot & ->). cbn [sb_segid sb_buf sb_dir] in *. split_and!.
  - unfold assemble_prepared_segment. cbv zeta. rewrite <- !app_assoc. eauto.
  - unfold assemble_prepared_segment. cbv zeta. rewrite !zlen_app. subst p. cbn in Htot.
    unfold zlen in *. rewrite length_footer_head, !length_le_bytes. lia.
  - eapply read_directory_assembled; eauto.
Qed.

(** C29: the directory of a finished segment, located through the footer, verified
    by its checksum and opened, lists exactly the frame locations the writer
    returned, in order, so garbage collection and recovery see every frame. *)
Theorem segment_directory_roundtrip k segid dn limits frames object locs :
  nonces_ok frames -> length dn = NONCE_SIZE -> Segid_wf segid ->
  Forall (fun f => is_u64 (frame_slot f).1 /\ is_u64 (frame_slot f).2) frames ->
  seal_compressed_with_limits k segid dn limits frames = Ok (object, locs) ->
  read_directory object segid = Ok (map entry_of_loc locs).
Proof.
  intros Hn Hdn Hwf Hslots Hseal.
  destruct (seal_object_Ok _ _ _ _ _ _ _ Hn Hseal)
    as (sealed & sd & p & Hs & -> & _ & Hfit & Hsd & Hp & Hk & Hdl & Htot & ->).
  rewrite <- (dir_of_locs segid 0 0 sealed).
  eapply read_directory_assembled; try done; [apply Hwf|]. eapply dir_of_wf; try done.
  pose proof (zlen_nonneg sd). subst p. cbn in Htot. lia.
Qed.
End roundtrip.

(** ** Concrete instances *)

Module TestCrc.
Definition mix (acc b : Z) : Z := (acc * 31 + b) mod 4294967296.
#[export] Instance crc : Crc32c := {|
  crc32c bs := fold_left mix bs 7;
  crc32c_append c bs := fold_left mix bs c |}.
#[export] Instance laws : Crc32cLaws.
Proof.
  split.
  - intros a b. cbn. by rewrite fold_left_app.
  - intros a. cbn. destruct a as [|b a] using rev_ind; [cbn; ulia|].
    rewrite fold_left_app. cbn. unfold mix at 1.
    pose proof (Z.mod_pos_bound (fold_left mix a 7 * 31 + b) 4294967296). ulia.
Qed.
End TestCrc.

Module TestSegment.
Definition nonce : bytes := List.repeat 1 24.
Definition frame (i x : Z) (data : bytes) : Z * Z * Compressed * bytes :=
  (i, x, mkCompressed (TestPrims.stored data), nonce).
Definition frames : list (Z * Z * Compressed * bytes) :=
  [frame 9 0 [1; 2]; frame 9 1 [3; 4; 5]; frame 12 7 [6]].
Definition sealed : result SegmentError (bytes * list (Z * Z * FrameLoc)) :=
  seal_compressed_with_limits (H := TestPrims.prims) (H0 := TestCrc.crc) Lz4 (mkSegid 4 5) nonce WIRE frames.
Definition object : bytes := match sealed with Ok r => r.1 | Err _ => [] end.
Definition locs : list (Z * Z * FrameLoc) := match sealed with Ok r => r.2 | Err _ => [] end.
End TestSegment.

Lemma segment_runs_roundtrip_witness :
  read_run (H := TestPrims.prims) TestSegment.object (mkSegid 4 5)
    (fl_byte_offset (nth 1 TestSegment.locs (0, 0, mkFrameLoc (mkSegid 0 0) 0 0 0)).2)
    (run_len (drop 1 TestSegment.locs))
    (fl_frame_index (nth 1 TestSegment.locs (0, 0, mkFrameLoc (mkSegid 0 0) 0 0 0)).2)
    (map frame_slot (drop 1 TestSegment.frames)) = Ok [[3; 4; 5]; [6]].
Proof.
  apply (segment_runs_roundtrip (H := TestPrims.prims) (H0 := TestPrims.laws)
    (H1 := TestCrc.crc) Lz4 (mkSegid 4 5) TestSegment.nonce WIRE
    TestSegment.frames TestSegment.object TestSegment.locs
    (take 1 TestSegment.frames) (drop 1 TestSegment.frames) []
    (take 1 TestSegment.locs) (drop 1 TestSegment.locs) [] [[3; 4; 5]; [6]]
    (nth 1 TestSegment.locs (0, 0, mkFrameLoc (mkSegid 0 0) 0 0 0)) (drop 2 TestSegment.locs));
    try (vm_compute; reflexivity).
  - repeat constructor.
  - repeat constructor.
Defined.

Lemma segment_directory_roundtrip_witness :
  read_directory (H := TestPrims.prims) (H0 := TestCrc.crc) TestSegment.object (mkSegid 4 5)
  = Ok (map entry_of_loc TestSegment.locs).
Proof.
  apply (segment_directory_roundtrip (H := TestPrims.prims) (H0 := TestPrims.laws)
    (H1 := TestCrc.crc) (H2 := TestCrc.laws) Lz4 (mkSegid 4 5) TestSegment.nonce WIRE
    TestSegment.frames TestSegment.object TestSegment.locs).
  - repeat constructor.
  - reflexivity.
  - split; cbn; ulia.
  - repeat constructor; cbn; ulia.
  - vm_compute. reflexivity.
Defined.
