(* ===== verification/Quota.v ===== *)
(** * Logical quota

    [fs/quota.rs]: the visible-size budget and the life cycle of one growth
    reservation.  The mutex makes each method atomic, so a method is a function
    on the counters.  [Ledger] composes the methods over any number of
    reservations held by concurrent writers, one atomic method per step. *)

From S2P Require Import Prelude Errors.

Record QuotaCounters := mkCounters {
  committed : Z;
  pending : Z;
  poisoned : bool }.

Record LogicalQuota := mkQuota {
  max_bytes : Z;
  inner : QuotaCounters }.

Inductive QuotaReservationState :=
| Provisional | Accepted | Canonical | TerminalRetained | Released.

#[export] Instance QuotaReservationState_eq_dec : EqDecision QuotaReservationState.
Proof. solve_decision. Defined.

Record Reservation := mkReservation {
  r_bytes : Z;
  r_state : QuotaReservationState }.

Definition LogicalQuota_new (max_bytes committed : Z) : LogicalQuota :=
  mkQuota max_bytes (mkCounters committed 0 false).

Definition set_inner (q : LogicalQuota) (c : QuotaCounters) : LogicalQuota := mkQuota (max_bytes q) c.
Definition poison (c : QuotaCounters) : QuotaCounters := mkCounters (committed c) (pending c) true.

(** [LogicalQuota::visible_bytes]. *)
Definition visible_bytes (q : LogicalQuota) : Z * LogicalQuota :=
  match checked_add_u64 (committed (inner q)) (pending (inner q)) with
  | Some v => (v, q)
  | None => (U64_MAX, set_inner q (poison (inner q)))
  end.

(** [LogicalQuota::reserve]. *)
Definition reserve (bytes : Z) (q : LogicalQuota) : result FsError Reservation * LogicalQuota :=
  let c := inner q in
  if poisoned c then (Err IoError, q)
  else if bytes =? 0 then (Ok (mkReservation 0 Provisional), q)
  else
    match checked_add_u64 (committed c) (pending c) with
    | None => (Err IoError, set_inner q (poison c))
    | Some visible =>
        match checked_add_u64 visible bytes with
        | None => (Err IoError, set_inner q (poison c))
        | Some next =>
            if max_bytes q <? next then (Err NoSpace, q)
            else
              match checked_add_u64 (pending c) bytes with
              | None => (Err IoError, set_inner q (poison c))
              | Some p =>
                  (Ok (mkReservation bytes Provisional),
                   set_inner q (mkCounters (committed c) p (poisoned c)))
              end
        end
    end.

Definition release_committed (bytes : Z) (q : LogicalQuota) : LogicalQuota :=
  let c := inner q in
  if bytes =? 0 then q
  else if poisoned c then q
  else match checked_sub (committed c) bytes with
       | Some x => set_inner q (mkCounters x (pending c) (poisoned c))
       | None => set_inner q (poison c)
       end.

Definition release_pending (bytes : Z) (q : LogicalQuota) : LogicalQuota :=
  let c := inner q in
  if bytes =? 0 then q
  else if poisoned c then q
  else match checked_sub (pending c) bytes with
       | Some x => set_inner q (mkCounters (committed c) x (poisoned c))
       | None => set_inner q (poison c)
       end.

Definition transfer_to_committed (bytes : Z) (q : LogicalQuota) : LogicalQuota :=
  let c := inner q in
  if bytes =? 0 then q
  else if poisoned c then q
  else match checked_sub (pending c) bytes, checked_add_u64 (committed c) bytes with
       | Some p, Some x => set_inner q (mkCounters x p (poisoned c))
       | _, _ => set_inner q (poison c)
       end.

(** [ProvisionalQuotaReservation::accept], [canonical], [retain_terminal], [drop]. *)
Definition accept (r : Reservation) : Reservation :=
  match r_state r with Provisional => mkReservation (r_bytes r) Accepted | _ => r end.
Definition canonical (r : Reservation) (q : LogicalQuota) : Reservation * LogicalQuota :=
  (mkReservation (r_bytes r) Canonical,
   match r_state r with
   | Provisional | Accepted => transfer_to_committed (r_bytes r) q
   | _ => q
   end).
Definition retain_terminal (r : Reservation) : Reservation :=
  mkReservation (r_bytes r) TerminalRetained.
Definition drop_reservation (r : Reservation) (q : LogicalQuota) : Reservation * LogicalQuota :=
  match r_state r with
  | Provisional => (mkReservation (r_bytes r) Released, release_pending (r_bytes r) q)
  | _ => (r, q)
  end.

(** [QuotaSettlement] and its [finish]; a failed growth is refunded by the drop
    of the reservation the settlement owns. *)
Inductive QuotaSettlement :=
| Growth (r : Reservation)
| Shrink (bytes : Z).

Definition settle_finish (s : QuotaSettlement) (ok : bool) (q : LogicalQuota) : LogicalQuota :=
  match s with
  | Growth r =>
      if ok then
        let '(r', q') := canonical (accept r) q in (drop_reservation r' q').2
      else (drop_reservation r q).2
  | Shrink bytes => if ok then release_committed bytes q else q
  end.

(** ** Concurrent use

    The reservations handed out so far, by ticket.  [le_moved] records (for the
    statement only) whether a reservation's charge has been transferred to the
    committed size.  A released reservation has been dropped, so its owner calls
    no further method on it. *)

Record LedgerEntry := mkEntry { le_res : Reservation; le_moved : bool }.
Record Ledger := mkLedger {
  l_quota : LogicalQuota;
  l_live : gmap nat LedgerEntry;
  l_next : nat }.

Inductive LedgerStep : Ledger -> Ledger -> Prop :=
| step_reserve l bytes r q :
    0 <= bytes <= U64_MAX ->
    reserve bytes (l_quota l) = (Ok r, q) ->
    LedgerStep l (mkLedger q (<[l_next l := mkEntry r false]> (l_live l)) (S (l_next l)))
| step_reserve_fail l bytes e q :
    0 <= bytes <= U64_MAX ->
    reserve bytes (l_quota l) = (Err e, q) ->
    LedgerStep l (mkLedger q (l_live l) (l_next l))
| step_accept l t e :
    l_live l !! t = Some e ->
    LedgerStep l (mkLedger (l_quota l)
      (<[t := mkEntry (accept (le_res e)) (le_moved e)]> (l_live l)) (l_next l))
| step_canonical l t e :
    l_live l !! t = Some e -> r_state (le_res e) <> Released ->
    LedgerStep l (mkLedger (canonical (le_res e) (l_quota l)).2
      (<[t := mkEntry (canonical (le_res e) (l_quota l)).1
           (match r_state (le_res e) with Provisional | Accepted => true | _ => le_moved e end)]>
         (l_live l)) (l_next l))
| step_retain l t e :
    l_live l !! t = Some e -> r_state (le_res e) <> Released ->
    LedgerStep l (mkLedger (l_quota l)
      (<[t := mkEntry (retain_terminal (le_res e)) (le_moved e)]> (l_live l)) (l_next l))
| step_drop l t e :
    l_live l !! t = Some e ->
    LedgerStep l (mkLedger (drop_reservation (le_res e) (l_quota l)).2
      (<[t := mkEntry (drop_reservation (le_res e) (l_quota l)).1 (le_moved e)]> (l_live l))
      (l_next l))
| step_shrink l bytes :
    0 <= bytes <= committed (inner (l_quota l)) ->
    LedgerStep l (mkLedger (release_committed bytes (l_quota l)) (l_live l) (l_next l)).

(** ** The quota invariant *)

Definition charge (e : LedgerEntry) : Z :=
  if le_moved e then 0
  else match r_state (le_res e) with Released => 0 | _ => r_bytes (le_res e) end.

Definition entry_wf (e : LedgerEntry) : Prop :=
  0 <= r_bytes (le_res e) /\
  (le_moved e = true -> r_state (le_res e) = Canonical \/ r_state (le_res e) = TerminalRetained).

(** The counters of a healthy ledger are exact; a poisoned one is frozen. *)
Record LedgerInv (l : Ledger) : Prop := {
  li_committed : 0 <= committed (inner (l_quota l));
  li_pos : 0 <= pending (inner (l_quota l));
  li_pending : poisoned (inner (l_quota l)) = false ->
    pending (inner (l_quota l)) = msum (fun _ => charge) (l_live l);
  li_budget : committed (inner (l_quota l)) + pending (inner (l_quota l)) <= max_bytes (l_quota l);
  li_max : max_bytes (l_quota l) <= U64_MAX;
  li_wf : forall t e, l_live l !! t = Some e -> entry_wf e;
  li_fresh : forall t e, l_live l !! t = Some e -> (t < l_next l)%nat }.

Lemma charge_nonneg e : entry_wf e -> 0 <= charge e.
Proof. intros [? _]. unfold charge. by repeat case_match. Qed.

Lemma ledger_charge_le l t e :
  LedgerInv l -> poisoned (inner (l_quota l)) = false -> l_live l !! t = Some e ->
  charge e <= pending (inner (l_quota l)).
Proof.
  intros Hi Hh Ht. rewrite (li_pending l Hi Hh).
  apply (msum_ge (fun _ => charge) (l_live l) t e); [|done].
  intros t' e' Ht'. eapply charge_nonneg, li_wf; eauto.
Qed.

(** A step that rewrites one entry and moves the counters accordingly. *)
Lemma ledger_update l t e e' q :
  LedgerInv l -> l_live l !! t = Some e -> entry_wf e' ->
  0 <= committed (inner q) -> 0 <= pending (inner q) -> max_bytes q = max_bytes (l_quota l) ->
  (poisoned (inner q) = false -> poisoned (inner (l_quota l)) = false /\
   pending (inner q) = pending (inner (l_quota l)) - charge e + charge e') ->
  committed (inner q) + pending (inner q) <= max_bytes (l_quota l) ->
  LedgerInv (mkLedger q (<[t := e']> (l_live l)) (l_next l)).
Proof.
  intros Hi Ht Hwf Hc Hp Hm Hpe Hb. split; cbn; try done.
  - intros [Hh ->]%Hpe. rewrite (li_pending l Hi Hh), (msum_insert_upd _ _ _ _ _ Ht). done.
  - by rewrite Hm.
  - rewrite Hm. apply (li_max l Hi).
  - intros t' e'' [[-> ->]|[_ Ht']]%lookup_insert_Some; [done|]. by eapply li_wf.
  - intros t' e'' [[-> ->]|[_ Ht']]%lookup_insert_Some; by eapply li_fresh.
Qed.

(** [reserve] on counters that respect the budget: the three outcomes. *)
Variant reserve_spec (bytes : Z) (q : LogicalQuota) :
  result FsError Reservation * LogicalQuota -> Prop :=
| reserve_granted :
    poisoned (inner q) = false -> committed (inner q) + pending (inner q) + bytes <= max_bytes q ->
    reserve_spec bytes q
      (Ok (mkReservation bytes Provisional),
       set_inner q (mkCounters (committed (inner q)) (pending (inner q) + bytes) false))
| reserve_refused e :
    (e = IoError /\ poisoned (inner q) = true) \/
    (e = NoSpace /\ poisoned (inner q) = false /\
     max_bytes q < committed (inner q) + pending (inner q) + bytes <= U64_MAX) ->
    reserve_spec bytes q (Err e, q)
| reserve_poisons :
    poisoned (inner q) = false ->
    U64_MAX < committed (inner q) + pending (inner q) + bytes ->
    reserve_spec bytes q (Err IoError, set_inner q (poison (inner q))).

Lemma checked_add_u64_spec a b :
  checked_add_u64 a b = if U64_MAX <? a + b then None else Some (a + b).
Proof.
  unfold checked_add_u64. destruct (Z.leb_spec (a + b) U64_MAX), (Z.ltb_spec U64_MAX (a + b)); lia || done.
Qed.

Lemma reserve_elim bytes q :
  0 <= committed (inner q) -> 0 <= pending (inner q) ->
  committed (inner q) + pending (inner q) <= max_bytes q -> max_bytes q <= U64_MAX ->
  0 <= bytes ->
  reserve_spec bytes q (reserve bytes q).
Proof.
  intros ?????. destruct q as [mx [c p po]]; cbn in *.
  unfold reserve; cbn. destruct po; [by constructor; auto|].
  destruct (Z.eqb_spec bytes 0) as [->|].
  { rewrite <- (Z.add_0_r p) at 2. by constructor; cbn; [|lia]. }
  rewrite (checked_add_u64_spec c p). destruct (Z.ltb_spec U64_MAX (c + p)); [lia|].
  rewrite !checked_add_u64_spec.
  destruct (Z.ltb_spec U64_MAX (c + p + bytes)); [by constructor|].
  destruct (Z.ltb_spec mx (c + p + bytes)); [constructor; auto|].
  destruct (Z.ltb_spec U64_MAX (p + bytes)); [lia|]. by constructor.
Qed.

(** A poisoned quota is frozen: no method changes a counter. *)
Lemma poisoned_frozen q bytes :
  poisoned (inner q) = true ->
  release_committed bytes q = q /\ release_pending bytes q = q /\ transfer_to_committed bytes q = q.
Proof.
  intros Hp. unfold release_committed, release_pending, transfer_to_committed.
  rewrite Hp. by case_match.
Qed.

Lemma transfer_ok q bytes :
  poisoned (inner q) = false -> 0 <= bytes <= pending (inner q) ->
  committed (inner q) + pending (inner q) <= U64_MAX ->
  transfer_to_committed bytes q =
    set_inner q (mkCounters (committed (inner q) + bytes) (pending (inner q) - bytes) false).
Proof.
  destruct q as [mx [c p po]]; cbn. intros -> ??. unfold transfer_to_committed, checked_sub; cbn.
  destruct (Z.eqb_spec bytes 0) as [->|]; [by rewrite Z.add_0_r, Z.sub_0_r|].
  rewrite checked_add_u64_spec. destruct (Z.leb_spec bytes p), (Z.ltb_spec U64_MAX (c + bytes)); lia || done.
Qed.

Lemma release_pending_ok q bytes :
  poisoned (inner q) = false -> 0 <= bytes <= pending (inner q) ->
  release_pending bytes q =
    set_inner q (mkCounters (committed (inner q)) (pending (inner q) - bytes) false).
Proof.
  destruct q as [mx [c p po]]; cbn. intros -> ?. unfold release_pending, checked_sub; cbn.
  destruct (Z.eqb_spec bytes 0) as [->|]; [by rewrite Z.sub_0_r|].
  destruct (Z.leb_spec bytes p); lia || done.
Qed.

Lemma release_committed_ok q bytes :
  poisoned (inner q) = false -> 0 <= bytes <= committed (inner q) ->
  release_committed bytes q =
    set_inner q (mkCounters (committed (inner q) - bytes) (pending (inner q)) false).
Proof.
  destruct q as [mx [c p po]]; cbn. intros -> ?. unfold release_committed, checked_sub; cbn.
  destruct (Z.eqb_spec bytes 0) as [->|]; [by rewrite Z.sub_0_r|].
  destruct (Z.leb_spec bytes c); lia || done.
Qed.

(** The life-cycle methods preserve an entry's well-formedness. *)
Lemma accept_wf e : entry_wf e -> entry_wf (mkEntry (accept (le_res e)) (le_moved e)).
Proof.
  destruct e as [[b st] mv]; unfold entry_wf, accept; cbn. intros [? H]; split; destruct st; naive_solver.
Qed.

Lemma accept_charge e :
  entry_wf e -> charge (mkEntry (accept (le_res e)) (le_moved e)) = charge e.
Proof. destruct e as [[b st] mv]; unfold charge, accept; cbn. by destruct st, mv. Qed.

Lemma ledger_reserve_inv l bytes :
  LedgerInv l -> 0 <= bytes -> poisoned (inner (l_quota l)) = false ->
  committed (inner (l_quota l)) + pending (inner (l_quota l)) + bytes <= max_bytes (l_quota l) ->
  LedgerInv (mkLedger
    (set_inner (l_quota l)
       (mkCounters (committed (inner (l_quota l))) (pending (inner (l_quota l)) + bytes) false))
    (<[l_next l := mkEntry (mkReservation bytes Provisional) false]> (l_live l)) (S (l_next l))).
Proof.
  intros [Hc Hp Hpe Hb Hm Hwf Hfr] ???.
  assert (Hn : l_live l !! l_next l = None).
  { destruct (l_live l !! l_next l) eqn:E; [|done]. apply Hfr in E. lia. }
  split; cbn; try lia; try done.
  - intros _. rewrite msum_insert_new by done. change (charge _) with bytes. rewrite Hpe by done. lia.
  - intros t e [[<- <-]|[_ ?]]%lookup_insert_Some; [by split|eauto].
  - intros t e [[<- <-]|[_ ?]]%lookup_insert_Some; [lia|]. assert (t < l_next l)%nat by eauto. lia.
Qed.

Lemma ledger_canonical_inv l t e :
  LedgerInv l -> l_live l !! t = Some e -> r_state (le_res e) <> Released ->
  LedgerInv (mkLedger (canonical (le_res e) (l_quota l)).2
    (<[t := mkEntry (canonical (le_res e) (l_quota l)).1
         (match r_state (le_res e) with Provisional | Accepted => true | _ => le_moved e end)]>
       (l_live l)) (l_next l)).
Proof.
  intros Hi Ht Hnr. pose proof Hi as [Hc Hp Hpe Hb Hm Hwf Hfr].
  destruct (Hwf t e Ht) as [Hb0 Hmv]. destruct e as [[b st] mv]; cbn in *.
  destruct (poisoned (inner (l_quota l))) eqn:Hh.
  - destruct (poisoned_frozen (l_quota l) b Hh) as (_ & _ & E).
    replace (match st with Provisional | Accepted => _ | _ => _ end) with (l_quota l)
      by (by destruct st).
    apply (ledger_update l t (mkEntry (mkReservation b st) mv)); try done; [|congruence].
    split; cbn; [done|]. destruct st; auto.
  - pose proof (ledger_charge_le l t _ Hi Hh Ht) as Hle. unfold charge in Hle; cbn in Hle.
    assert (Hst : mv = false /\ (st = Provisional \/ st = Accepted) \/
                  (st = Canonical \/ st = TerminalRetained)) by (destruct st, mv; naive_solver).
    destruct Hst as [[-> Hst]|Hst].
    + replace (match st with Provisional | Accepted => _ | _ => _ end)
        with (transfer_to_committed b (l_quota l)) by (by destruct Hst as [-> | ->]).
      replace (match st with Provisional | Accepted => true | _ => false end) with true
        by (by destruct Hst as [-> | ->]).
      assert (b <= pending (inner (l_quota l))) by (by destruct Hst as [-> | ->]).
      rewrite transfer_ok by (done || lia).
      eapply ledger_update; [done|exact Ht|by split; auto|cbn; lia..| |cbn; lia].
      intros _. split; [done|]. destruct Hst as [-> | ->]; cbn; lia.
    + replace (match st with Provisional | Accepted => _ | _ => l_quota l end) with (l_quota l)
        by (by destruct Hst as [-> | ->]).
      replace (match st with Provisional | Accepted => true | _ => mv end) with mv
        by (by destruct Hst as [-> | ->]).
      eapply ledger_update; [done|exact Ht|by split; auto|done..| |done].
      intros _. split; [done|]. unfold charge; cbn. destruct Hst as [-> | ->]; lia.
Qed.

Lemma ledger_drop_inv l t e :
  LedgerInv l -> l_live l !! t = Some e ->
  LedgerInv (mkLedger (drop_reservation (le_res e) (l_quota l)).2
    (<[t := mkEntry (drop_reservation (le_res e) (l_quota l)).1 (le_moved e)]> (l_live l))
    (l_next l)).
Proof.
  intros Hi Ht. pose proof Hi as [Hc Hp Hpe Hb Hm Hwf Hfr].
  destruct (Hwf t e Ht) as [Hb0 Hmv]. destruct e as [[b st] mv]; cbn in *.
  destruct st; cbn;
    try (rewrite insert_id by done; by destruct l).
  assert (mv = false) as -> by (destruct mv; naive_solver).
  destruct (poisoned (inner (l_quota l))) eqn:Hh.
  - destruct (poisoned_frozen (l_quota l) b Hh) as (_ & -> & _).
    eapply ledger_update; [done|exact Ht|..]; try done. congruence.
  - pose proof (ledger_charge_le l t _ Hi Hh Ht) as Hle. unfold charge in Hle; cbn in Hle.
    rewrite release_pending_ok by (done || lia).
    eapply ledger_update; [done|exact Ht|..]; cbn; try lia; try done.
    intros _. unfold charge; cbn. split; [done|lia].
Qed.

Lemma LedgerStep_inv l l' : LedgerInv l -> LedgerStep l l' -> LedgerInv l'.
Proof.
  intros Hi Hs. pose proof Hi as [Hc Hp Hpe Hb Hm Hwf Hfr].
  destruct Hs as [l bytes r q ? Hr|l bytes e q ? Hr|l t e Ht|l t e Ht Hnr|l t e Ht Hnr|l t e Ht|l bytes ?].
  - destruct (reserve_elim bytes (l_quota l)) in Hr; simplify_eq; try lia.
    apply ledger_reserve_inv; auto; lia.
  - destruct (reserve_elim bytes (l_quota l)) in Hr; simplify_eq; try lia.
    + by destruct l.
    + by split.
  - assert (entry_wf e) by eauto.
    apply (ledger_update l t e); auto using accept_wf. intros. rewrite accept_charge by done. split; [done|lia].
  - by apply ledger_canonical_inv.
  - destruct (Hwf t e Ht) as [Hb0 Hmv]. apply (ledger_update l t e); auto.
    + by split; cbn; auto.
    + intros. split; [done|]. destruct e as [[b st] mv]; unfold charge, retain_terminal; cbn in *. destruct mv, st; done || lia.
  - by apply ledger_drop_inv.
  - destruct (poisoned (inner (l_quota l))) eqn:Hh.
    + destruct (poisoned_frozen (l_quota l) bytes Hh) as (-> & _ & _). by destruct l.
    + rewrite release_committed_ok by done. split; cbn; lia || auto.
Qed.

Lemma set_poison_max q bytes :
  max_bytes (release_committed bytes q) = max_bytes q /\
  max_bytes (release_pending bytes q) = max_bytes q /\
  max_bytes (transfer_to_committed bytes q) = max_bytes q /\
  max_bytes (reserve bytes q).2 = max_bytes q.
Proof.
  unfold release_committed, release_pending, transfer_to_committed, reserve.
  repeat split; by repeat case_match.
Qed.

Lemma LedgerStep_max l l' : LedgerStep l l' -> max_bytes (l_quota l') = max_bytes (l_quota l).
Proof.
  destruct 1 as [l bytes r q ? Hr|l bytes e q ? Hr|l t e Ht|l t e Ht Hnr|l t e Ht Hnr|l t e Ht|l bytes ?];
    cbn; try done;
    try (replace q with (reserve bytes (l_quota l)).2 by (by rewrite Hr));
    unfold drop_reservation; try case_match; cbn; try done; apply set_poison_max.
Qed.

Lemma rtc_LedgerStep_inv l l' :
  rtc LedgerStep l l' -> LedgerInv l -> LedgerInv l' /\ max_bytes (l_quota l') = max_bytes (l_quota l).
Proof.
  induction 1 as [|l l1 l2 Hs _ IH]; intros Hi; [done|].
  destruct (IH (LedgerStep_inv _ _ Hi Hs)) as [? ->]. by rewrite (LedgerStep_max _ _ Hs).
Qed.

Lemma LedgerInv_new max c0 :
  0 <= c0 <= max -> max <= U64_MAX -> LedgerInv (mkLedger (LogicalQuota_new max c0) ∅ 0).
Proof. intros. split; cbn; try lia; try done; intros ??; by rewrite lookup_empty. Qed.

Lemma canonical_healthy l t e :
  LedgerInv l -> poisoned (inner (l_quota l)) = false -> l_live l !! t = Some e ->
  poisoned (inner (canonical (le_res e) (l_quota l)).2) = false.
Proof.
  intros Hi Hh Ht. pose proof Hi as [Hc Hp _ Hb Hm Hwf _].
  destruct (Hwf t e Ht) as [Hb0 Hmv]. pose proof (ledger_charge_le l t _ Hi Hh Ht) as Hle.
  destruct e as [[b st] mv]; unfold charge in Hle; cbn in *.
  destruct mv; [by destruct (Hmv eq_refl) as [-> | ->]|].
  destruct st; try done; by rewrite transfer_ok by (done || lia).
Qed.

Lemma drop_healthy l t e :
  LedgerInv l -> poisoned (inner (l_quota l)) = false -> l_live l !! t = Some e ->
  poisoned (inner (drop_reservation (le_res e) (l_quota l)).2) = false.
Proof.
  intros Hi Hh Ht. pose proof Hi as [Hc Hp _ Hb Hm Hwf _].
  destruct (Hwf t e Ht) as [Hb0 Hmv]. pose proof (ledger_charge_le l t _ Hi Hh Ht) as Hle.
  destruct e as [[b st] mv]; unfold charge in Hle; cbn in *.
  destruct mv; [by destruct (Hmv eq_refl) as [-> | ->]|].
  destruct st; try done; cbn. by rewrite release_pending_ok by (done || lia).
Qed.

Lemma poison_only_overflow l l' :
  LedgerInv l -> LedgerStep l l' ->
  poisoned (inner (l_quota l)) = false -> poisoned (inner (l_quota l')) = true ->
  exists bytes, reserve bytes (l_quota l) = (Err IoError, l_quota l') /\
    U64_MAX < committed (inner (l_quota l)) + pending (inner (l_quota l)) + bytes.
Proof.
  intros Hi Hs Hh Hp'.
  pose proof Hi as [Hc Hp Hpe Hb Hm Hwf Hfr].
  destruct Hs as [l bytes r q ? Hq|l bytes e q ? Hq|l t e Ht|l t e Ht Hnr|l t e Ht Hnr|l t e Ht|l bytes ?];
    cbn in Hp'; try congruence.
  - destruct (reserve_elim bytes (l_quota l)) in Hq; simplify_eq; cbn in *; lia || congruence.
  - exists bytes. cbn. rewrite Hq. revert Hq.
    destruct (reserve_elim bytes (l_quota l)); intros; simplify_eq; cbn in *; try lia; congruence || done.
  - pose proof (canonical_healthy l t e Hi Hh Ht) as Hk. cbn in Hk. congruence.
  - pose proof (drop_healthy l t e Hi Hh Ht) as Hk. cbn in Hk. congruence.
  - by rewrite release_committed_ok in Hp'.
Qed.

(** C26: Any interleaving of reservations, acceptances, canonical transfers,
    terminal retentions, drops and committed shrinks, started from a volume within
    its budget, keeps committed plus pending bytes within [max_bytes]; while the
    quota is healthy the pending counter is exactly the sum of the reservations
    that are still charged (neither released nor transferred).  The counters are
    poisoned (after which every growth fails with an I/O error) only by a request whose
    size would overflow the 64-bit visible size; no release, transfer or drop of a
    reservation ever poisons them. *)
Theorem quota_ledger_exact max c0 l :
  0 <= c0 <= max -> max <= U64_MAX ->
  rtc LedgerStep (mkLedger (LogicalQuota_new max c0) ∅ 0) l ->
  0 <= committed (inner (l_quota l)) /\ 0 <= pending (inner (l_quota l)) /\
  committed (inner (l_quota l)) + pending (inner (l_quota l)) <= max /\
  (poisoned (inner (l_quota l)) = false ->
   pending (inner (l_quota l)) = msum (fun _ => charge) (l_live l)) /\
  (forall l', LedgerStep l l' -> poisoned (inner (l_quota l)) = false -> poisoned (inner (l_quota l')) = true ->
   exists bytes, reserve bytes (l_quota l) = (Err IoError, l_quota l') /\
     U64_MAX < committed (inner (l_quota l)) + pending (inner (l_quota l)) + bytes).
Proof.
  intros ?? Hr. destruct (rtc_LedgerStep_inv _ _ Hr) as [Hi Hm]; [by apply LedgerInv_new|].
  pose proof (poison_only_overflow l) as Hpo. pose proof Hi as [Hc Hp Hpe Hb Hx Hwf Hfr]. cbn in Hm.
  split_and!; auto; lia.
Qed.

(** Two writers: one growth is transferred, the other refused and then dropped. *)
Lemma quota_ledger_exact_witness :
  let q2 := mkQuota 100 (mkCounters 70 0 false) in
  let l := mkLedger q2 {[0%nat := mkEntry (mkReservation 60 Canonical) true]} 1 in
  0 <= 70 /\ 0 <= 0 /\ 70 + 0 <= 100 /\ (false = false -> 0 = msum (fun _ => charge) (l_live l)) /\
  (forall l', LedgerStep l l' -> false = false -> poisoned (inner (l_quota l')) = true ->
   exists bytes, reserve bytes q2 = (Err IoError, l_quota l') /\ U64_MAX < 70 + 0 + bytes).
Proof.
  intros q2 l. apply (quota_ledger_exact 100 10 l); [lia|ulia|].
  eapply rtc_l.
  { apply (step_reserve _ 60 (mkReservation 60 Provisional)
             (mkQuota 100 (mkCounters 10 60 false))); [ulia|reflexivity]. }
  eapply rtc_l.
  { apply (step_reserve_fail _ 31 NoSpace (mkQuota 100 (mkCounters 10 60 false))); [ulia|reflexivity]. }
  eapply rtc_l.
  { eapply (step_canonical _ 0%nat (mkEntry (mkReservation 60 Provisional) false)); [reflexivity|done]. }
  apply rtc_refl.
Defined.

(** C38: A request that exceeds the budget is not always answered with [NoSpace]:
    on any volume that already holds a byte, growing one file by [u64::MAX] bytes
    overflows the visible size, so the request fails with an I/O error and leaves
    the quota poisoned; every later growth, of any size and by any writer, then
    fails with an I/O error, and shrinks no longer return space. *)
Theorem quota_oversized_request_disables_growth q :
  poisoned (inner q) = false -> 0 < committed (inner q) -> 0 <= pending (inner q) ->
  committed (inner q) + pending (inner q) <= max_bytes q -> max_bytes q <= U64_MAX ->
  let q' := (reserve U64_MAX q).2 in
  (reserve U64_MAX q).1 = Err IoError /\
  (forall bytes, reserve bytes q' = (Err IoError, q')) /\
  (forall bytes, release_committed bytes q' = q').
Proof.
  intros Hh ???? q'.
  assert (Hq : reserve U64_MAX q = (Err IoError, set_inner q (poison (inner q)))).
  { destruct (reserve_elim U64_MAX q) as [|? [[? ?]|?]|]; lia || congruence || ulia. }
  subst q'. rewrite Hq. cbn. split_and!; [done|done|].
  intros bytes. by apply poisoned_frozen.
Qed.

Lemma quota_oversized_request_disables_growth_witness :
  let q' := (reserve U64_MAX (LogicalQuota_new 1000 1)).2 in
  (reserve U64_MAX (LogicalQuota_new 1000 1)).1 = Err IoError /\
  (forall bytes, reserve bytes q' = (Err IoError, q')) /\
  (forall bytes, release_committed bytes q' = q').
Proof.
  apply (quota_oversized_request_disables_growth (LogicalQuota_new 1000 1)); cbn; reflexivity || ulia.
Defined.
