(* ===== verification/Inode.v ===== *)
(** * Inodes and attributes

    The inode records of [fs/inode.rs] and the protocol-neutral attribute types
    of [fs/types.rs].  The nine attribute fields that every inode struct repeats
    (times, mode, owner) are one record [Attrs] here; everything else follows
    the source field by field. *)

From S2P Require Import Prelude Errors.

(** Directory entry names are opaque byte strings. *)
Abbreviation name := (list Z).

Definition MAX_DEVICE_MAJOR : Z := Z.shiftl 1 12 - 1.
Definition MAX_DEVICE_MINOR : Z := Z.shiftl 1 20 - 1.

Record Attrs := mkAttrs {
  mtime : Z; mtime_nsec : Z;
  ctime : Z; ctime_nsec : Z;
  atime : Z; atime_nsec : Z;
  mode : Z; uid : Z; gid : Z }.

Record FileInode := mkFile {
  f_size : Z;
  f_attrs : Attrs;
  f_parent : option Z;
  f_name : option name;
  f_nlink : Z }.

Record DirectoryInode := mkDir {
  d_attrs : Attrs;
  d_entry_count : Z;
  d_parent : Z;
  d_name : option name;
  d_nlink : Z }.

Record SymlinkInode := mkSymlink {
  s_target : bytes;
  s_attrs : Attrs;
  s_parent : option Z;
  s_name : option name;
  s_nlink : Z }.

Record SpecialInode := mkSpecial {
  p_attrs : Attrs;
  p_parent : option Z;
  p_name : option name;
  p_nlink : Z;
  p_rdev : option (Z * Z) }.

Inductive Inode :=
| IFile (f : FileInode)
| IDirectory (d : DirectoryInode)
| ISymlink (s : SymlinkInode)
| IFifo (p : SpecialInode)
| ISocket (p : SpecialInode)
| ICharDevice (p : SpecialInode)
| IBlockDevice (p : SpecialInode).

#[export] Instance Attrs_eq_dec : EqDecision Attrs.
Proof. solve_decision. Defined.
#[export] Instance FileInode_eq_dec : EqDecision FileInode.
Proof. solve_decision. Defined.
#[export] Instance DirectoryInode_eq_dec : EqDecision DirectoryInode.
Proof. solve_decision. Defined.
#[export] Instance SymlinkInode_eq_dec : EqDecision SymlinkInode.
Proof. solve_decision. Defined.
#[export] Instance SpecialInode_eq_dec : EqDecision SpecialInode.
Proof. solve_decision. Defined.
#[export] Instance Inode_eq_dec : EqDecision Inode.
Proof. solve_decision. Defined.

(** ** The [InodeAttrs] accessors *)

Definition attrs (i : Inode) : Attrs :=
  match i with
  | IFile f => f_attrs f
  | IDirectory d => d_attrs d
  | ISymlink s => s_attrs s
  | IFifo p | ISocket p | ICharDevice p | IBlockDevice p => p_attrs p
  end.
Definition nlink (i : Inode) : Z :=
  match i with
  | IFile f => f_nlink f
  | IDirectory d => d_nlink d
  | ISymlink s => s_nlink s
  | IFifo p | ISocket p | ICharDevice p | IBlockDevice p => p_nlink p
  end.
Definition parent (i : Inode) : option Z :=
  match i with
  | IFile f => f_parent f
  | IDirectory d => Some (d_parent d)
  | ISymlink s => s_parent s
  | IFifo p | ISocket p | ICharDevice p | IBlockDevice p => p_parent p
  end.
Definition iname (i : Inode) : option name :=
  match i with
  | IFile f => f_name f
  | IDirectory d => d_name d
  | ISymlink s => s_name s
  | IFifo p | ISocket p | ICharDevice p | IBlockDevice p => p_name p
  end.
Definition is_directory (i : Inode) : bool :=
  match i with IDirectory _ => true | _ => false end.

(** ** Field updates

    One function per assignment pattern of the operations. *)

Definition with_attrs (a : Attrs) (i : Inode) : Inode :=
  match i with
  | IFile f => IFile (mkFile (f_size f) a (f_parent f) (f_name f) (f_nlink f))
  | IDirectory d => IDirectory (mkDir a (d_entry_count d) (d_parent d) (d_name d) (d_nlink d))
  | ISymlink s => ISymlink (mkSymlink (s_target s) a (s_parent s) (s_name s) (s_nlink s))
  | IFifo p => IFifo (mkSpecial a (p_parent p) (p_name p) (p_nlink p) (p_rdev p))
  | ISocket p => ISocket (mkSpecial a (p_parent p) (p_name p) (p_nlink p) (p_rdev p))
  | ICharDevice p => ICharDevice (mkSpecial a (p_parent p) (p_name p) (p_nlink p) (p_rdev p))
  | IBlockDevice p => IBlockDevice (mkSpecial a (p_parent p) (p_name p) (p_nlink p) (p_rdev p))
  end.

(** [nlink], [parent] and [name] of the four non-directory kinds; a directory
    keeps its mandatory parent. *)
Definition with_links (n : Z) (par : option Z) (nm : option name) (i : Inode) : Inode :=
  match i with
  | IFile f => IFile (mkFile (f_size f) (f_attrs f) par nm n)
  | IDirectory d => IDirectory (mkDir (d_attrs d) (d_entry_count d) (d_parent d) nm n)
  | ISymlink s => ISymlink (mkSymlink (s_target s) (s_attrs s) par nm n)
  | IFifo p => IFifo (mkSpecial (p_attrs p) par nm n (p_rdev p))
  | ISocket p => ISocket (mkSpecial (p_attrs p) par nm n (p_rdev p))
  | ICharDevice p => ICharDevice (mkSpecial (p_attrs p) par nm n (p_rdev p))
  | IBlockDevice p => IBlockDevice (mkSpecial (p_attrs p) par nm n (p_rdev p))
  end.

(** [x.ctime = sec; x.ctime_nsec = nsec], and the like for [mtime] and [atime]. *)
Definition set_ctime (t : Z * Z) (a : Attrs) : Attrs :=
  mkAttrs (mtime a) (mtime_nsec a) t.1 t.2 (atime a) (atime_nsec a) (mode a) (uid a) (gid a).
Definition set_mtime (t : Z * Z) (a : Attrs) : Attrs :=
  mkAttrs t.1 t.2 (ctime a) (ctime_nsec a) (atime a) (atime_nsec a) (mode a) (uid a) (gid a).
Definition set_atime (t : Z * Z) (a : Attrs) : Attrs :=
  mkAttrs (mtime a) (mtime_nsec a) (ctime a) (ctime_nsec a) t.1 t.2 (mode a) (uid a) (gid a).
Definition set_mode (m : Z) (a : Attrs) : Attrs :=
  mkAttrs (mtime a) (mtime_nsec a) (ctime a) (ctime_nsec a) (atime a) (atime_nsec a) m (uid a) (gid a).
Definition set_uid (u : Z) (a : Attrs) : Attrs :=
  mkAttrs (mtime a) (mtime_nsec a) (ctime a) (ctime_nsec a) (atime a) (atime_nsec a) (mode a) u (gid a).
Definition set_gid (g : Z) (a : Attrs) : Attrs :=
  mkAttrs (mtime a) (mtime_nsec a) (ctime a) (ctime_nsec a) (atime a) (atime_nsec a) (mode a) (uid a) g.

Definition touch_ctime (t : Z * Z) (i : Inode) : Inode := with_attrs (set_ctime t (attrs i)) i.
Definition touch_mctime (t : Z * Z) (a : Attrs) : Attrs := set_ctime t (set_mtime t a).

(** All three times set to one instant, as new inodes have. *)
Definition fresh_attrs (t : Z * Z) (m u g : Z) : Attrs := mkAttrs t.1 t.2 t.1 t.2 t.1 t.2 m u g.

(** ** Requested attributes *)

Record Timestamp := mkTimestamp { seconds : Z; nanoseconds : Z }.

Inductive SetField := Set_ (x : Z) | NoChange.
Inductive SetTime := SetToClientTime (t : Timestamp) | SetToServerTime | TimeNoChange.

Record SetAttributes := mkSetAttributes {
  sa_mode : SetField; sa_uid : SetField; sa_gid : SetField; sa_size : SetField;
  sa_atime : SetTime; sa_mtime : SetTime }.

Definition SetAttributes_default : SetAttributes :=
  mkSetAttributes NoChange NoChange NoChange NoChange TimeNoChange TimeNoChange.

(** [match attr.f { Set(x) => x, NoChange => d }]. *)
Definition set_or (f : SetField) (d : Z) : Z := match f with Set_ x => x | NoChange => d end.
Definition is_set (f : SetField) : bool := match f with Set_ _ => true | NoChange => false end.
Definition is_set_time (t : SetTime) : bool :=
  match t with TimeNoChange => false | _ => true end.

(** ** Reported attributes *)

Inductive FileType :=
| Regular | Directory | Symlink | Fifo | Socket | CharDevice | BlockDevice.

#[export] Instance FileType_eq_dec : EqDecision FileType.
Proof. solve_decision. Defined.

Record FileAttributes := mkFileAttributes {
  fa_type : FileType; fa_mode : Z; fa_nlink : Z; fa_uid : Z; fa_gid : Z;
  fa_size : Z; fa_used : Z; fa_rdev : option (Z * Z); fa_fsid : Z; fa_fileid : Z;
  fa_atime : Timestamp; fa_mtime : Timestamp; fa_ctime : Timestamp }.

Definition type_size_rdev (i : Inode) : FileType * Z * option (Z * Z) :=
  match i with
  | IFile f => (Regular, f_size f, None)
  | IDirectory _ => (Directory, 4096, None)
  | ISymlink s => (Symlink, Z.of_nat (length (s_target s)), None)
  | IFifo p => (Fifo, 0, p_rdev p)
  | ISocket p => (Socket, 0, p_rdev p)
  | ICharDevice p => (CharDevice, 0, p_rdev p)
  | IBlockDevice p => (BlockDevice, 0, p_rdev p)
  end.

(** [FileAttributes::from(InodeWithId)]. *)
Definition file_attributes (i : Inode) (id : Z) : FileAttributes :=
  let '(ft, size, rdev) := type_size_rdev i in
  let a := attrs i in
  mkFileAttributes ft (mode a) (nlink i) (uid a) (gid a) size size rdev 0 id
    (mkTimestamp (atime a) (atime_nsec a)) (mkTimestamp (mtime a) (mtime_nsec a))
    (mkTimestamp (ctime a) (ctime_nsec a)).

(** ** Facts used by the components *)

Lemma attrs_with_attrs a i : attrs (with_attrs a i) = a.
Proof. by destruct i. Qed.
Lemma nlink_with_attrs a i : nlink (with_attrs a i) = nlink i.
Proof. by destruct i. Qed.
Lemma parent_with_attrs a i : parent (with_attrs a i) = parent i.
Proof. by destruct i. Qed.
Lemma iname_with_attrs a i : iname (with_attrs a i) = iname i.
Proof. by destruct i. Qed.
Lemma is_directory_with_attrs a i : is_directory (with_attrs a i) = is_directory i.
Proof. by destruct i. Qed.
Lemma nlink_with_links n p m i : nlink (with_links n p m i) = n.
Proof. by destruct i. Qed.
Lemma iname_with_links n p m i : iname (with_links n p m i) = m.
Proof. by destruct i. Qed.
Lemma is_directory_with_links n p m i : is_directory (with_links n p m i) = is_directory i.
Proof. by destruct i. Qed.
Lemma parent_with_links n p m i :
  is_directory i = false -> parent (with_links n p m i) = p.
Proof. by destruct i. Qed.

Create Rewrite HintDb inode.
#[export] Hint Rewrite attrs_with_attrs nlink_with_attrs parent_with_attrs iname_with_attrs
  is_directory_with_attrs nlink_with_links iname_with_links is_directory_with_links : inode.
