(* ===== verification/Dedup.v ===== *)
(** * The idempotency ledger

    [dedup.rs]: the map from client operation ids to the results of completed
    mutations, with in-flight claims, replay pins, inode protection and expiry.
    Every method runs under one mutex, so it is a function on [Inner]; the clock
    reading the method takes is its [now] argument.  [panicked] is set where the
    source has [unreachable!] or [unwrap].  [reclaim_sent] is the sequence of inode
    ids sent to the orphan-reclaim drainer. *)

From S2P Require Import Prelude Errors Inode.

(** A client operation id: sixteen bytes, all zero when absent. *)
Abbreviation OpId := (list Z).

Definition no_op_id : OpId := repeat 0 16.
Definition has_op_id (op_id : OpId) : bool := existsb (fun b => negb (b =? 0)) op_id.

Inductive DedupResult :=
| DApplied
| DCreate (inode_id : Z) (attrs : FileAttributes)
| DMkdir (inode_id : Z) (attrs : FileAttributes)
| DMknod (inode_id : Z) (attrs : FileAttributes)
| DSymlink (inode_id : Z) (attrs : FileAttributes)
| DLink (inode_id : Z) (attrs : FileAttributes)
| DSetattr (attrs : FileAttributes)
| DWrite (attrs : FileAttributes)
| DFallocate (attrs : FileAttributes)
| DError (errno : Z)
| DRemove
| DRename.

Definition into_create (r : DedupResult) : option (Z * FileAttributes) :=
  match r with DCreate i a => Some (i, a) | _ => None end.
Definition into_mkdir (r : DedupResult) : option (Z * FileAttributes) :=
  match r with DMkdir i a => Some (i, a) | _ => None end.
Definition into_mknod (r : DedupResult) : option (Z * FileAttributes) :=
  match r with DMknod i a => Some (i, a) | _ => None end.
Definition into_symlink (r : DedupResult) : option (Z * FileAttributes) :=
  match r with DSymlink i a => Some (i, a) | _ => None end.
Definition into_link (r : DedupResult) : option (Z * FileAttributes) :=
  match r with DLink i a => Some (i, a) | _ => None end.
Definition into_setattr (r : DedupResult) : option FileAttributes :=
  match r with DSetattr a => Some a | _ => None end.
Definition into_write (r : DedupResult) : option FileAttributes :=
  match r with DWrite a => Some a | _ => None end.
Definition into_fallocate (r : DedupResult) : option FileAttributes :=
  match r with DFallocate a => Some a | _ => None end.
Definition into_remove (r : DedupResult) : option unit :=
  match r with DRemove => Some tt | _ => None end.
Definition into_rename (r : DedupResult) : option unit :=
  match r with DRename => Some tt | _ => None end.

(** Inode pinned while this result can be replayed. *)
Definition replay_inode (r : DedupResult) : option Z :=
  match r with DCreate i _ => Some i | _ => None end.

Record WriteRequestReplay := mkWriteRequest { fingerprint : bytes; wr_count : Z }.

Inductive WriteReplay := Match (count : Z) | FingerprintMismatch | Legacy.

Record TimedResult := mkTimed {
  value : DedupResult;
  expires_at : Z;
  replay_pins : Z;
  write_request : option WriteRequestReplay;
  materialization_pending : bool;
  retracted : bool }.

(** [Applying]: the claim is the identity of the [Notify] allocation. *)
Inductive OpState :=
| Applying (claim : nat) (owners : Z)
| Complete (r : TimedResult).

Record InodeProtection := mkProtection { until : Z; refs : Z }.

Record Inner := mkInner {
  ops : gmap OpId OpState;
  inflight_ids : Z;
  replay_pinned_results : Z;
  protected_inodes : gmap Z InodeProtection;
  reclaim_on_unprotect : gset Z;
  promotion_retry_grace : option (Z * Z);
  next_claim : nat;
  reclaim_sent : list Z;
  panicked : bool }.

Definition Inner_new : Inner := mkInner ∅ 0 0 ∅ ∅ None 0 [] false.

Definition with_ops (s : Inner) (o : gmap OpId OpState) : Inner :=
  mkInner o (inflight_ids s) (replay_pinned_results s) (protected_inodes s)
    (reclaim_on_unprotect s) (promotion_retry_grace s) (next_claim s) (reclaim_sent s) (panicked s).
Definition with_inflight (s : Inner) (n : Z) : Inner :=
  mkInner (ops s) n (replay_pinned_results s) (protected_inodes s)
    (reclaim_on_unprotect s) (promotion_retry_grace s) (next_claim s) (reclaim_sent s) (panicked s).
Definition with_pinned (s : Inner) (n : Z) : Inner :=
  mkInner (ops s) (inflight_ids s) n (protected_inodes s)
    (reclaim_on_unprotect s) (promotion_retry_grace s) (next_claim s) (reclaim_sent s) (panicked s).
Definition with_protected (s : Inner) (p : gmap Z InodeProtection) : Inner :=
  mkInner (ops s) (inflight_ids s) (replay_pinned_results s) p
    (reclaim_on_unprotect s) (promotion_retry_grace s) (next_claim s) (reclaim_sent s) (panicked s).
Definition with_reclaim (s : Inner) (r : gset Z) : Inner :=
  mkInner (ops s) (inflight_ids s) (replay_pinned_results s) (protected_inodes s)
    r (promotion_retry_grace s) (next_claim s) (reclaim_sent s) (panicked s).
Definition with_grace (s : Inner) (g : option (Z * Z)) : Inner :=
  mkInner (ops s) (inflight_ids s) (replay_pinned_results s) (protected_inodes s)
    (reclaim_on_unprotect s) g (next_claim s) (reclaim_sent s) (panicked s).
Definition with_claim (s : Inner) (c : nat) : Inner :=
  mkInner (ops s) (inflight_ids s) (replay_pinned_results s) (protected_inodes s)
    (reclaim_on_unprotect s) (promotion_retry_grace s) c (reclaim_sent s) (panicked s).
Definition panic (s : Inner) : Inner :=
  mkInner (ops s) (inflight_ids s) (replay_pinned_results s) (protected_inodes s)
    (reclaim_on_unprotect s) (promotion_retry_grace s) (next_claim s) (reclaim_sent s) true.

(** [notify_reclaim]. *)
Definition notify_reclaim (i : option Z) (s : Inner) : Inner :=
  match i with
  | None => s
  | Some i =>
      mkInner (ops s) (inflight_ids s) (replay_pinned_results s) (protected_inodes s)
        (reclaim_on_unprotect s) (promotion_retry_grace s) (next_claim s)
        (reclaim_sent s ++ [i]) (panicked s)
  end.

(** [Inner::release_applying_owner]. *)
Definition release_applying_owner (op_id : OpId) (claim : nat) (s : Inner) : Inner :=
  match ops s !! op_id with
  | Some (Applying c owners) =>
      if decide (c = claim) then
        if decide (owners - 1 = 0) then
          with_inflight (with_ops s (delete op_id (ops s))) (inflight_ids s - 1)
        else with_ops s (<[op_id := Applying c (owners - 1)]> (ops s))
      else s
  | _ => s
  end.

(** [Inner::protect_result_inode]. *)
Definition protect_result_inode (r : DedupResult) (expires : Z) (s : Inner) : Inner :=
  match replay_inode r with
  | None => s
  | Some i =>
      let p := default (mkProtection expires 0) (protected_inodes s !! i) in
      with_protected s
        (<[i := mkProtection (Z.max (until p) expires) (refs p + 1)]> (protected_inodes s))
  end.

(** [Inner::remove_result]: the inode to reclaim, if its last protection went. *)
Definition remove_result (op_id : OpId) (s : Inner) : Inner * option Z :=
  match ops s !! op_id with
  | Some (Complete entry) =>
      let s1 := with_ops s (delete op_id (ops s)) in
      match replay_inode (value entry) with
      | None => (s1, None)
      | Some i =>
          match protected_inodes s1 !! i with
          | None => (panic s1, None)
          | Some p =>
              if decide (refs p - 1 = 0) then
                let s2 := with_protected s1 (delete i (protected_inodes s1)) in
                (with_reclaim s2 (reclaim_on_unprotect s2 ∖ {[i]}),
                 if decide (i ∈ reclaim_on_unprotect s2) then Some i else None)
              else
                (with_protected s1
                   (<[i := mkProtection (until p) (refs p - 1)]> (protected_inodes s1)), None)
          end
      end
  | _ => (panic s, None)
  end.

Definition removable (now : Z) (st : option OpState) : bool :=
  match st with
  | Some (Complete e) =>
      (expires_at e <=? now) && (replay_pins e =? 0) && negb (materialization_pending e)
  | _ => false
  end.

(** [remove_target_if_expired_and_unpinned], followed by its caller's [notify_reclaim]. *)
Definition expire_target (op_id : OpId) (now : Z) (s : Inner) : Inner :=
  if removable now (ops s !! op_id) then
    let '(s', r) := remove_result op_id s in notify_reclaim r s'
  else s.

(** ** Methods of the cache *)

Inductive Admission := Granted (claim : option nat) | InFlight | UnseenRetry.

(** [DedupCache::admit_nonzero]. *)
Definition admit_nonzero (op_id : OpId) (retry_origin : option Z) (now : Z) (s : Inner)
  : Admission * Inner :=
  let s := expire_target op_id now s in
  match ops s !! op_id with
  | Some (Complete r) =>
      if retracted r then (UnseenRetry, s)
      else if expires_at r <=? now then (UnseenRetry, s)
      else
        let s1 := with_ops s (<[op_id := Complete (mkTimed (value r) (expires_at r)
                     (replay_pins r + 1) (write_request r) (materialization_pending r)
                     (retracted r))]> (ops s)) in
        (Granted None,
         if replay_pins r =? 0 then with_pinned s1 (replay_pinned_results s1 + 1) else s1)
  | Some (Applying _ _) => (InFlight, s)
  | None =>
      let stale :=
        match retry_origin with
        | None => false
        | Some origin =>
            negb match promotion_retry_grace s with
                 | Some (allowed, deadline) =>
                     negb (origin =? 0) && (origin =? allowed) && (now <? deadline)
                 | None => false
                 end
        end in
      if stale then (UnseenRetry, s)
      else
        let c := next_claim s in
        (Granted (Some c),
         with_claim (with_inflight (with_ops s (<[op_id := Applying c 1]> (ops s)))
                       (inflight_ids s + 1)) (S c))
  end.

(** [DedupCache::get]. *)
Definition dedup_get (op_id : OpId) (now : Z) (s : Inner) : option DedupResult * Inner :=
  if negb (has_op_id op_id) then (None, s)
  else
    let s := expire_target op_id now s in
    (match ops s !! op_id with Some (Complete e) => Some (value e) | _ => None end, s).

(** [DedupCache::record_entry_with_write_request]: the retention deadline. *)
Definition record_entry_with_write_request (op_id : OpId) (result : DedupResult)
    (wr : option WriteRequestReplay) (pending : bool) (retention now : Z) (s : Inner)
  : option Z * Inner :=
  if negb (has_op_id op_id) then (None, s)
  else
    let s := expire_target op_id now s in
    match ops s !! op_id with
    | Some (Complete e) =>
        (Some (expires_at e),
         match write_request e with
         | None => with_ops s (<[op_id := Complete (mkTimed (value e) (expires_at e)
                     (replay_pins e) wr (materialization_pending e) (retracted e))]> (ops s))
         | Some _ => s
         end)
    | previous =>
        let exp := now + retention in
        let s1 := protect_result_inode result exp s in
        let s2 := with_ops s1
                    (<[op_id := Complete (mkTimed result exp 0 wr pending false)]> (ops s1)) in
        (Some exp,
         match previous with
         | Some (Applying _ _) => with_inflight s2 (inflight_ids s2 - 1)
         | _ => s2
         end)
    end.

(** [record_entry]: how the commit worker publishes a result. *)
Definition record_entry (op_id : OpId) (r : DedupResult) (retention now : Z) (s : Inner) : Inner :=
  (record_entry_with_write_request op_id r None false retention now s).2.

(** [DedupCache::stage_write_request] and the drop of the request it returns. *)
Definition stage_write_request (op_id : OpId) (s : Inner) : option nat * Inner :=
  match ops s !! op_id with
  | Some (Applying c owners) => (Some c, with_ops s (<[op_id := Applying c (owners + 1)]> (ops s)))
  | _ => (None, s)
  end.
Definition drop_pending_write (op_id : OpId) (claim : option nat) (s : Inner) : Inner :=
  match claim with None => s | Some c => release_applying_owner op_id c s end.

(** [DedupCache::finish_accepted_write]. *)
Definition finish_accepted_write (op_id : OpId) (materialized : bool) (now : Z) (s : Inner) : Inner :=
  if negb (has_op_id op_id) then s
  else
    match ops s !! op_id with
    | Some (Complete e) =>
        if negb (materialization_pending e) then s
        else
          let e' := if materialized
                    then mkTimed (value e) (expires_at e) (replay_pins e) (write_request e)
                           false (retracted e)
                    else mkTimed (value e) now (replay_pins e) (write_request e) false true in
          let s1 := with_ops s (<[op_id := Complete e']> (ops s)) in
          if (if materialized then expires_at e <=? now else true) && (replay_pins e =? 0) then
            let '(s2, r) := remove_result op_id s1 in notify_reclaim r s2
          else s1
    | _ => s
    end.

(** [DedupCache::replay_write_entry]. *)
Definition replay_write_entry (op_id : OpId) (fp : bytes) (now : Z) (s : Inner)
  : option (WriteReplay * FileAttributes) * Inner :=
  if negb (has_op_id op_id) then (None, s)
  else
    let s := expire_target op_id now s in
    (match ops s !! op_id with
     | Some (Complete e) =>
         if retracted e then None
         else match value e with
              | DWrite attrs =>
                  Some (match write_request e with
                        | Some q => if decide (fingerprint q = fp) then Match (wr_count q)
                                    else FingerprintMismatch
                        | None => Legacy
                        end, attrs)
              | _ => None
              end
     | _ => None
     end, s).

(** [DedupGuard::drop]: releases an apply claim or a replay pin. *)
Definition drop_guard (op_id : OpId) (claim : option nat) (now : Z) (s : Inner) : Inner :=
  match claim with
  | Some c => release_applying_owner op_id c s
  | None =>
      match ops s !! op_id with
      | Some (Complete r) =>
          if replay_pins r =? 0 then s
          else
            let pins := replay_pins r - 1 in
            let s1 := with_ops s (<[op_id := Complete (mkTimed (value r) (expires_at r) pins
                        (write_request r) (materialization_pending r) (retracted r))]> (ops s)) in
            let s2 := if pins =? 0 then with_pinned s1 (replay_pinned_results s1 - 1) else s1 in
            if (pins =? 0) && (expires_at r <=? now) then
              let '(s3, i) := remove_result op_id s2 in notify_reclaim i s3
            else s2
      | _ => s
      end
  end.

(** [DedupCache::reap_expired_batch]. *)
Definition reap_one (s : Inner) (e : OpId * Z) : Inner :=
  match ops s !! e.1 with
  | Some (Complete r) =>
      if (expires_at r =? e.2) && (replay_pins r =? 0) && negb (materialization_pending r) then
        let '(s', i) := remove_result e.1 s in notify_reclaim i s'
      else s
  | _ => s
  end.
Definition reap_expired_batch (batch : list (OpId * Z)) (s : Inner) : Inner :=
  foldl reap_one s batch.

(** [arm_promotion_retry_grace_until] and [clear_promotion_retry_grace]. *)
Definition arm_promotion_retry_grace_until (epoch deadline retention now : Z) (s : Inner)
  : bool * Inner :=
  if (epoch =? 0) || (deadline <=? now) then (false, with_grace s None)
  else (true, with_grace s (Some (epoch, Z.min deadline (now + retention)))).

(** [protects_replay_inode] and [reclaim_when_unprotected]. *)
Definition protects_replay_inode (i : Z) (s : Inner) : bool := bool_decide (is_Some (protected_inodes s !! i)).
Definition reclaim_when_unprotected (i : Z) (s : Inner) : bool * Inner :=
  if protects_replay_inode i s then (true, with_reclaim s ({[i]} ∪ reclaim_on_unprotect s))
  else (false, s).

(** ** Call sequences

    One method call on the shared ledger, by any of its users, at time [now]. *)

Inductive Call :=
| CAdmit (op_id : OpId) (origin : option Z)
| CGet (op_id : OpId)
| CRecord (op_id : OpId) (r : DedupResult) (wr : option WriteRequestReplay) (pending : bool)
| CStage (op_id : OpId)
| CDropPending (op_id : OpId) (claim : option nat)
| CFinish (op_id : OpId) (materialized : bool)
| CReplayWrite (op_id : OpId) (fp : bytes)
| CDropGuard (op_id : OpId) (claim : option nat)
| CReap (batch : list (OpId * Z))
| CArm (epoch deadline : Z)
| CClearGrace
| CReclaim (i : Z).

Definition run_call (retention : Z) (c : Call) (now : Z) (s : Inner) : Inner :=
  match c with
  | CAdmit op o => (admit_nonzero op o now s).2
  | CGet op => (dedup_get op now s).2
  | CRecord op r wr p => (record_entry_with_write_request op r wr p retention now s).2
  | CStage op => (stage_write_request op s).2
  | CDropPending op c => drop_pending_write op c s
  | CFinish op m => finish_accepted_write op m now s
  | CReplayWrite op fp => (replay_write_entry op fp now s).2
  | CDropGuard op c => drop_guard op c now s
  | CReap b => reap_expired_batch b s
  | CArm e d => (arm_promotion_retry_grace_until e d retention now s).2
  | CClearGrace => with_grace s None
  | CReclaim i => (reclaim_when_unprotected i s).2
  end.

Definition run_calls (retention : Z) (cs : list (Call * Z)) (s : Inner) : Inner :=
  foldl (fun s c => run_call retention c.1 c.2 s) s cs.

(** ** The ledger invariant *)

Definition is_applying (st : OpState) : bool := match st with Applying _ _ => true | _ => false end.
Definition is_pinned (st : OpState) : bool :=
  match st with Complete e => 0 <? replay_pins e | _ => false end.
Definition creates (i : Z) (st : OpState) : bool :=
  match st with Complete e => bool_decide (replay_inode (value e) = Some i) | _ => false end.
Definition state_ok (claims : nat) (st : OpState) : Prop :=
  match st with
  | Applying c owners => (c < claims)%nat /\ 0 < owners
  | Complete e => 0 <= replay_pins e
  end.

(** The counters are the numbers of in-flight and pinned entries, an inode is
    protected exactly while some retained result created it, with one reference
    per such result, and only protected inodes await a reclaim. *)
Record DedupInv (s : Inner) : Prop := {
  di_panic : panicked s = false;
  di_inflight : inflight_ids s = mcount (fun _ => is_applying) (ops s);
  di_pinned : replay_pinned_results s = mcount (fun _ => is_pinned) (ops s);
  di_refs : forall i, mcount (fun _ => creates i) (ops s) =
              match protected_inodes s !! i with Some p => refs p | None => 0 end;
  di_refs_pos : forall i p, protected_inodes s !! i = Some p -> 0 < refs p;
  di_reclaim : forall i, i ∈ reclaim_on_unprotect s -> is_Some (protected_inodes s !! i);
  di_states : forall op st, ops s !! op = Some st -> state_ok (next_claim s) st }.

Lemma DedupInv_new : DedupInv Inner_new.
Proof.
  split; cbn; try done; try set_solver; intros; unfold mcount; rewrite ?msum_empty, ?lookup_empty; try done.
  all: by rewrite lookup_empty in *.
Qed.

(** A new state for one existing entry that keeps the result it retains. *)
Lemma DedupInv_update s op st st' n p c :
  DedupInv s -> ops s !! op = Some st -> state_ok c st' -> (next_claim s <= c)%nat ->
  (forall i, creates i st' = creates i st) ->
  n = inflight_ids s - (if is_applying st then 1 else 0) + (if is_applying st' then 1 else 0) ->
  p = replay_pinned_results s - (if is_pinned st then 1 else 0) + (if is_pinned st' then 1 else 0) ->
  DedupInv (with_claim (with_pinned (with_inflight (with_ops s (<[op:=st']> (ops s))) n) p) c).
Proof.
  intros [Hpa Hin Hpi Hre Hrp Hrc Hst] Hop Hok Hc Hcr -> ->. split; cbn; auto.
  - rewrite (mcount_insert_upd _ _ _ _ _ Hop). lia.
  - rewrite (mcount_insert_upd _ _ _ _ _ Hop). lia.
  - intros i. rewrite (mcount_insert_upd _ _ _ _ _ Hop), Hcr, Hre. lia.
  - intros op' st'' [[<- <-]|[_ Hs]]%lookup_insert_Some; [done|]. apply Hst in Hs.
    destruct st''; cbn in *; lia.
Qed.

Lemma DedupInv_insert s op c st :
  DedupInv s -> ops s !! op = None -> (next_claim s <= c)%nat -> state_ok c st ->
  (forall i, creates i st = false) -> is_pinned st = false ->
  DedupInv (with_claim (with_inflight (with_ops s (<[op:=st]> (ops s)))
    (inflight_ids s + (if is_applying st then 1 else 0))) c).
Proof.
  intros [Hpa Hin Hpi Hre Hrp Hrc Hst] Hop Hc Hok Hcr Hnp. split; cbn; auto.
  - rewrite mcount_insert_new by done. lia.
  - rewrite mcount_insert_new by done. rewrite Hnp. lia.
  - intros i. rewrite mcount_insert_new by done. rewrite Hcr, Hre. lia.
  - intros op' st'' [[<- <-]|[_ Hs]]%lookup_insert_Some; [done|]. apply Hst in Hs.
    destruct st''; cbn in *; lia.
Qed.

Lemma DedupInv_notify i s : DedupInv s -> DedupInv (notify_reclaim i s).
Proof. intros []. destruct i; by split. Qed.
Lemma DedupInv_grace g s : DedupInv s -> DedupInv (with_grace s g).
Proof. intros []. by split. Qed.

(** Dropping an unpinned result releases its protection without panicking. *)
Lemma remove_result_inv s op e :
  DedupInv s -> ops s !! op = Some (Complete e) -> replay_pins e = 0 ->
  DedupInv (remove_result op s).1.
Proof.
  intros Hi Hop Hpin. pose proof Hi as [Hpa Hin Hpi Hre Hrp Hrc Hst].
  unfold remove_result. rewrite Hop. cbn.
  assert (Hdel : forall P, P (Complete e) = false ->
            mcount (fun _ => P) (delete op (ops s)) = mcount (fun _ => P) (ops s)).
  { intros P HP. rewrite (mcount_delete _ _ _ _ Hop), HP. lia. }
  assert (Hst' : forall op' st, delete op (ops s) !! op' = Some st -> state_ok (next_claim s) st).
  { intros op' st [_ ?]%lookup_delete_Some. eauto. }
  assert (Hnp : is_pinned (Complete e) = false) by (cbn; rewrite Hpin; done).
  destruct (replay_inode (value e)) as [i|] eqn:Hv; cbn.
  2:{ split; cbn; auto; [by rewrite Hdel|by rewrite Hdel|].
      intros i. rewrite Hdel; [done|]. cbn. rewrite Hv. done. }
  assert (Hci : forall j, creates j (Complete e) = bool_decide (i = j)).
  { intros j. cbn. rewrite Hv. apply bool_decide_ext. naive_solver. }
  assert (Hpos : 0 < mcount (fun _ => creates i) (ops s)).
  { eapply mcount_pos; [exact Hop|]. rewrite Hci. by apply bool_decide_eq_true. }
  destruct (protected_inodes s !! i) as [p|] eqn:Hp; [|rewrite Hre, Hp in Hpos; lia].
  assert (Hcount : forall j, mcount (fun _ => creates j) (delete op (ops s)) =
            match protected_inodes s !! j with Some p => refs p | None => 0 end
            - (if decide (i = j) then 1 else 0)).
  { intros j. rewrite (mcount_delete _ _ _ _ Hop), Hci, Hre.
    destruct (decide (i = j)); [by rewrite bool_decide_true|by rewrite bool_decide_false]. }
  destruct (decide (refs p - 1 = 0)) as [Hz|Hz]; split; cbn; auto; try (by rewrite Hdel).
  - intros j. rewrite Hcount. destruct (decide (i = j)) as [<-|].
    + rewrite lookup_delete_eq, Hp. lia.
    + rewrite lookup_delete_ne by done. lia.
  - intros j q [_ ?]%lookup_delete_Some. eauto.
  - intros j Hj. rewrite lookup_delete_ne by set_solver. apply Hrc. set_solver.
  - intros j. rewrite Hcount. destruct (decide (i = j)) as [<-|].
    + rewrite lookup_insert_eq, Hp. cbn. lia.
    + rewrite lookup_insert_ne by done. lia.
  - intros j q [[<- <-]|[_ ?]]%lookup_insert_Some; [cbn|eauto].
    assert (0 < refs p) by eauto. lia.
  - intros j Hj. destruct (decide (i = j)) as [<-|]; [by rewrite lookup_insert_eq|].
    rewrite lookup_insert_ne by done. eauto.
Qed.

Lemma remove_notify_inv s op e :
  DedupInv s -> ops s !! op = Some (Complete e) -> replay_pins e = 0 ->
  DedupInv (let '(s', r) := remove_result op s in notify_reclaim r s').
Proof.
  intros Hi Hop Hp. pose proof (remove_result_inv s op e Hi Hop Hp).
  destruct (remove_result op s); cbn in *. by apply DedupInv_notify.
Qed.

Lemma expire_target_inv op now s : DedupInv s -> DedupInv (expire_target op now s).
Proof.
  intros Hi. unfold expire_target. destruct (removable now (ops s !! op)) eqn:Hr; [|done].
  destruct (ops s !! op) as [[|e]|] eqn:Hop; try done. cbn in Hr.
  apply (remove_notify_inv s op e); auto. lia.
Qed.

(** [DedupInv_update] for a change that keeps the claim counter. *)
Lemma DedupInv_set s op st st' n p s' :
  DedupInv s -> ops s !! op = Some st -> state_ok (next_claim s) st' ->
  (forall i, creates i st' = creates i st) ->
  n = inflight_ids s - (if is_applying st then 1 else 0) + (if is_applying st' then 1 else 0) ->
  p = replay_pinned_results s - (if is_pinned st then 1 else 0) + (if is_pinned st' then 1 else 0) ->
  s' = with_pinned (with_inflight (with_ops s (<[op:=st']> (ops s))) n) p ->
  DedupInv s'.
Proof.
  intros Hi ?????->. by apply (DedupInv_update s op st st' n p (next_claim s)).
Qed.

Lemma with_pinned_id s : with_pinned s (replay_pinned_results s) = s.
Proof. by destruct s. Qed.
Lemma with_inflight_id s : with_inflight s (inflight_ids s) = s.
Proof. by destruct s. Qed.

(** Closes the side conditions of [DedupInv_set] for a state written out. *)
Ltac dedup_set s op st :=
  match goal with
  | |- context [<[op := ?st']> _] =>
      eapply (DedupInv_set s op st st');
      [done|done|cbn; try done; lia|done|cbn; reflexivity|cbn; reflexivity
      |destruct s; unfold with_pinned, with_inflight, with_ops, with_claim; cbn in *; f_equal;
       repeat case_match; try done; lia]
  end.

Lemma release_applying_owner_inv op c s : DedupInv s -> DedupInv (release_applying_owner op c s).
Proof.
  intros Hi. unfold release_applying_owner.
  destruct (ops s !! op) as [[c' o|]|] eqn:Hop; [|done..]. destruct (decide (c' = c)); [|done].
  pose proof (di_states s Hi op _ Hop) as [Hlt Ho].
  destruct (decide (o - 1 = 0)).
  - destruct Hi as [Hpa Hin Hpi Hre Hrp Hrc Hst]. split; cbn; auto.
    + rewrite (mcount_delete _ _ _ _ Hop). cbn. lia.
    + rewrite (mcount_delete _ _ _ _ Hop). cbn. lia.
    + intros i. rewrite (mcount_delete _ _ _ _ Hop). cbn. rewrite Z.sub_0_r. apply Hre.
    + intros op' st [_ ?]%lookup_delete_Some. eauto.
  - dedup_set s op (Applying c' o).
Qed.

Lemma admit_nonzero_inv op o now s : DedupInv s -> DedupInv (admit_nonzero op o now s).2.
Proof.
  intros Hi. unfold admit_nonzero. apply (expire_target_inv op now) in Hi.
  revert Hi. generalize (expire_target op now s). clear s. intros s Hi.
  destruct (ops s !! op) as [[c' ow|r]|] eqn:Hop; [done| |].
  - destruct (retracted r); [done|]. destruct (expires_at r <=? now); [done|]. cbn.
    pose proof (di_states s Hi op _ Hop) as Hp. cbn in Hp.
    destruct (Z.eqb_spec (replay_pins r) 0).
    + dedup_set s op (Complete r).
    + dedup_set s op (Complete r).
  - case_match; [done|]. cbn.
    apply (DedupInv_insert s op (S (next_claim s)) (Applying (next_claim s) 1)); auto. cbn. lia.
Qed.

(** Publication of a new unpinned result over an absent or in-flight entry. *)
Lemma publish_counts s op prev st P :
  ops s !! op = prev ->
  mcount (fun _ => P) (<[op:=st]> (ops s)) =
  mcount (fun _ => P) (ops s) - (if default false (P <$> prev) then 1 else 0)
    + (if P st then 1 else 0).
Proof.
  intros Hop. destruct prev as [st0|]; cbn.
  - by rewrite (mcount_insert_upd _ _ _ _ _ Hop).
  - rewrite mcount_insert_new by done. lia.
Qed.

Lemma publish_inv s op r exp wr p n :
  DedupInv s -> (forall e, ops s !! op <> Some (Complete e)) ->
  n = inflight_ids s - (if default false (is_applying <$> ops s !! op) then 1 else 0) ->
  DedupInv (with_inflight (with_ops (protect_result_inode r exp s)
    (<[op := Complete (mkTimed r exp 0 wr p false)]> (ops s))) n).
Proof.
  intros Hi Hnc ->. pose proof Hi as [Hpa Hin Hpi Hre Hrp Hrc Hst].
  assert (Hpn : default false (is_pinned <$> ops s !! op) = false)
    by (destruct (ops s !! op) as [[]|] eqn:E; naive_solver).
  assert (Hcn : forall i, default false (creates i <$> ops s !! op) = false)
    by (intros i; destruct (ops s !! op) as [[]|] eqn:E; naive_solver).
  assert (Hst' : forall op' st, <[op:=Complete (mkTimed r exp 0 wr p false)]> (ops s) !! op' = Some st ->
            state_ok (next_claim s) st).
  { intros op' st [[<- <-]|[_ ?]]%lookup_insert_Some; [cbn; lia|eauto]. }
  unfold protect_result_inode. destruct (replay_inode r) as [i|] eqn:Hr; split; cbn; auto;
    try (erewrite publish_counts by done; rewrite ?Hpn; cbn; lia).
  - intros j. erewrite publish_counts by done. rewrite Hcn, Hre. cbn. rewrite Hr.
    destruct (decide (i = j)) as [<-|Hne].
    + rewrite lookup_insert_eq, bool_decide_true by done. destruct (protected_inodes s !! i); cbn; lia.
    + rewrite lookup_insert_ne, bool_decide_false by naive_solver. lia.
  - intros j q [[<- <-]|[_ ?]]%lookup_insert_Some; cbn; [|eauto].
    destruct (protected_inodes s !! i) eqn:E; cbn; [|lia]. apply Hrp in E. lia.
  - intros j Hj. destruct (decide (i = j)) as [<-|]; [by rewrite lookup_insert_eq|].
    rewrite lookup_insert_ne by done. eauto.
  - intros j. erewrite publish_counts by done. rewrite Hcn, Hre. cbn. rewrite Hr.
    rewrite bool_decide_false by done. lia.
Qed.

Lemma protect_fields r exp s :
  ops (protect_result_inode r exp s) = ops s /\
  inflight_ids (protect_result_inode r exp s) = inflight_ids s.
Proof. unfold protect_result_inode. by case_match. Qed.

Lemma record_inv op r wr p ret now s :
  DedupInv s -> DedupInv (record_entry_with_write_request op r wr p ret now s).2.
Proof.
  intros Hi. unfold record_entry_with_write_request. destruct (negb (has_op_id op)); [done|].
  apply (expire_target_inv op now) in Hi.
  revert Hi. generalize (expire_target op now s). clear s. intros s Hi.
  destruct (protect_fields r (now + ret) s) as [Ho Hf].
  destruct (ops s !! op) as [[c' ow|e]|] eqn:Hop; cbn.
  - rewrite Ho, Hf. apply publish_inv; [done|congruence|]. by rewrite Hop.
  - pose proof (di_states s Hi op _ Hop) as Hp. cbn in Hp.
    destruct (write_request e); [done|]. dedup_set s op (Complete e).
  - rewrite Ho. rewrite <- (with_inflight_id (with_ops _ _)). cbn. rewrite Hf.
    apply publish_inv; [done|congruence|]. rewrite Hop. cbn. lia.
Qed.

Lemma finish_inv op m now s : DedupInv s -> DedupInv (finish_accepted_write op m now s).
Proof.
  intros Hi. unfold finish_accepted_write. destruct (negb (has_op_id op)); [done|].
  destruct (ops s !! op) as [[|e]|] eqn:Hop; [done| |done].
  destruct (negb (materialization_pending e)); [done|].
  pose proof (di_states s Hi op _ Hop) as Hp. cbn in Hp.
  set (e' := if m then mkTimed _ _ _ _ _ _ else _).
  assert (He : value e' = value e /\ replay_pins e' = replay_pins e) by (by destruct m).
  assert (Hi' : DedupInv (with_ops s (<[op:=Complete e']> (ops s)))).
  { eapply (DedupInv_set s op (Complete e) (Complete e')); try done.
    - cbn. destruct He as [_ ->]. done.
    - intros i. cbn. by destruct He as [-> _].
    - cbn. destruct He as [_ ->]. destruct s; unfold with_pinned, with_inflight, with_ops; cbn.
      f_equal; repeat case_match; lia. }
  case_match eqn:Hc; [|done]. apply (remove_notify_inv _ op e'); auto.
  - cbn. apply lookup_insert_eq.
  - destruct He as [_ ->]. lia.
Qed.

Lemma drop_guard_inv op c now s : DedupInv s -> DedupInv (drop_guard op c now s).
Proof.
  intros Hi. unfold drop_guard. destruct c; [by apply release_applying_owner_inv|].
  destruct (ops s !! op) as [[|r]|] eqn:Hop; [done| |done].
  pose proof (di_states s Hi op _ Hop) as Hp. cbn in Hp.
  destruct (Z.eqb_spec (replay_pins r) 0); [done|].
  set (r' := mkTimed _ _ (replay_pins r - 1) _ _ _).
  set (s2 := if replay_pins r - 1 =? 0 then with_pinned _ _ else _).
  assert (Hs2 : DedupInv s2 /\ ops s2 !! op = Some (Complete r')).
  { subst s2. destruct (Z.eqb_spec (replay_pins r - 1) 0); (split; [|cbn; apply lookup_insert_eq]).
    all: dedup_set s op (Complete r). }
  destruct Hs2 as [Hi2 Hop2]. case_match eqn:Hc; [|done].
  apply (remove_notify_inv s2 op r'); auto. cbn. lia.
Qed.

Lemma reap_inv batch s : DedupInv s -> DedupInv (reap_expired_batch batch s).
Proof.
  unfold reap_expired_batch. revert s. induction batch as [|e batch IH]; intros s Hi; [done|].
  cbn. apply IH. unfold reap_one. destruct (ops s !! e.1) as [[|r]|] eqn:Hop; [done| |done].
  case_match eqn:Hc; [|done]. apply (remove_notify_inv s e.1 r); auto. lia.
Qed.

Lemma run_call_inv ret c now s : DedupInv s -> DedupInv (run_call ret c now s).
Proof.
  intros Hi. destruct c; cbn.
  - by apply admit_nonzero_inv.
  - unfold dedup_get. case_match; [done|]. by apply expire_target_inv.
  - by apply record_inv.
  - unfold stage_write_request. destruct (ops s !! op_id) as [[c ow|]|] eqn:Hop; [|done..].
    pose proof (di_states s Hi op_id _ Hop) as Hp. cbn in Hp. cbn. dedup_set s op_id (Applying c ow).
  - destruct claim; [|done]. by apply release_applying_owner_inv.
  - by apply finish_inv.
  - unfold replay_write_entry. case_match; [done|]. by apply expire_target_inv.
  - by apply drop_guard_inv.
  - by apply reap_inv.
  - unfold arm_promotion_retry_grace_until. case_match; by apply DedupInv_grace.
  - by apply DedupInv_grace.
  - unfold reclaim_when_unprotected, protects_replay_inode. case_bool_decide; [|done].
    destruct Hi. split; auto. cbn. intros i' [->%elem_of_singleton|?]%elem_of_union; auto.
Qed.

(** C24: Whatever methods the connections, the commit worker, the materializer and
    the reaper call on the ledger, in whatever order and at whatever times: no call
    panics, the in-flight and pinned counters equal the numbers of such entries, an
    inode is protected from reclaim exactly while a retained result created it, with
    one reference per result, and every inode still waiting for a reclaim
    notification is protected, so that the notification cannot be lost. *)
Theorem dedup_ledger_consistent retention calls :
  let s := run_calls retention calls Inner_new in
  panicked s = false /\
  inflight_ids s = mcount (fun _ => is_applying) (ops s) /\
  replay_pinned_results s = mcount (fun _ => is_pinned) (ops s) /\
  (forall i, mcount (fun _ => creates i) (ops s) =
     match protected_inodes s !! i with Some p => refs p | None => 0 end) /\
  (forall i, protects_replay_inode i s = true <->
     exists op e, ops s !! op = Some (Complete e) /\ replay_inode (value e) = Some i) /\
  (forall i, i ∈ reclaim_on_unprotect s -> protects_replay_inode i s = true).
Proof.
  intros s. assert (Hi : DedupInv s).
  { subst s. unfold run_calls. generalize DedupInv_new. generalize Inner_new.
    induction calls as [|c cs IH]; intros s Hi; [done|]. cbn. by apply IH, run_call_inv. }
  destruct Hi as [Hpa Hin Hpi Hre Hrp Hrc Hst]. split_and!; auto.
  - intros i. unfold protects_replay_inode. rewrite bool_decide_eq_true. split.
    + intros [p Hp]. destruct (mcount_pos_inv (fun _ => creates i) (ops s)) as (op & st & Hop & Hc).
      { rewrite Hre, Hp. eauto. }
      destruct st; [done|]. cbn in Hc. apply bool_decide_eq_true in Hc. eauto.
    + intros (op & e & Hop & Hv).
      assert (Hp : 0 < mcount (fun _ => creates i) (ops s)).
      { eapply mcount_pos; [exact Hop|]. cbn. by apply bool_decide_eq_true. }
      rewrite Hre in Hp. destruct (protected_inodes s !! i); [done|lia].
  - intros i Hi. apply bool_decide_eq_true. auto.
Qed.

(** ** Replay within the retention window *)

(** The entry of [op] is a completed result with deadline [exp], not provisional. *)
Definition retained (op : OpId) (r : DedupResult) (exp : Z) (s : Inner) : Prop :=
  exists e, ops s !! op = Some (Complete e) /\ value e = r /\ expires_at e = exp /\
    materialization_pending e = false /\ retracted e = false.

(** The reaper is handed expiry events whose deadline has passed. *)
Definition call_ok (c : Call) (now : Z) : Prop :=
  match c with CReap b => Forall (fun e => e.2 <= now) b | _ => True end.

Lemma ops_notify i s : ops (notify_reclaim i s) = ops s.
Proof. by destruct i. Qed.

Lemma ops_remove_result op s :
  ops (let '(s', r) := remove_result op s in notify_reclaim r s') =
  match ops s !! op with Some (Complete _) => delete op (ops s) | _ => ops s end.
Proof.
  assert (H : ops (remove_result op s).1 =
    match ops s !! op with Some (Complete _) => delete op (ops s) | _ => ops s end).
  { unfold remove_result. destruct (ops s !! op) as [[|e]|]; [done| |done].
    destruct (replay_inode (value e)) as [i|]; [|done].
    destruct (protected_inodes _ !! i) as [q|]; [|done]. by destruct (decide (refs q - 1 = 0)). }
  rewrite <- H. destruct (remove_result op s). apply ops_notify.
Qed.

Lemma ops_remove_ne op op' s :
  op <> op' ->
  ops (let '(s', r) := remove_result op' s in notify_reclaim r s') !! op = ops s !! op.
Proof. intros. rewrite ops_remove_result. repeat case_match; try done. by rewrite lookup_delete_ne. Qed.

Lemma retained_ext op r exp s s' :
  ops s' !! op = ops s !! op -> retained op r exp s -> retained op r exp s'.
Proof. unfold retained. by intros ->. Qed.

Lemma retained_expire op r exp op' now s :
  now < exp -> retained op r exp s -> retained op r exp (expire_target op' now s).
Proof.
  intros Hn Hr. unfold expire_target. destruct (removable _ _) eqn:Hm; [|done].
  destruct (decide (op = op')) as [<-|Hne].
  - destruct Hr as (e & Hop & _ & Hx & _). rewrite Hop in Hm. cbn in Hm. lia.
  - eapply retained_ext; [by apply ops_remove_ne|done].
Qed.

Lemma retained_release op r exp op' c s :
  retained op r exp s -> retained op r exp (release_applying_owner op' c s).
Proof.
  intros Hr. unfold release_applying_owner.
  destruct (ops s !! op') as [[c' o|]|] eqn:Hop; [|done..].
  assert (op <> op') by (intros <-; destruct Hr as (? & ? & _); congruence).
  repeat case_match; try done; (eapply retained_ext; [|done]); cbn.
  - by rewrite lookup_delete_ne.
  - by rewrite lookup_insert_ne.
Qed.

(** Rewriting an entry of another id, or rewriting this one without changing the
    retained result. *)
Lemma retained_insert op r exp op' st s s' :
  ops s' = <[op' := st]> (ops s) -> retained op r exp s ->
  (op = op' -> exists e, st = Complete e /\ value e = r /\ expires_at e = exp /\
     materialization_pending e = false /\ retracted e = false) ->
  retained op r exp s'.
Proof.
  intros Ho Hr Hs. destruct (decide (op = op')) as [<-|Hne].
  - destruct (Hs eq_refl) as (e & -> & He). exists e. rewrite Ho. by rewrite lookup_insert_eq.
  - eapply retained_ext; [|done]. by rewrite Ho, lookup_insert_ne.
Qed.

(** An entry of [op] seen in a retaining state is the retained one. *)
Ltac retained_entry Hr :=
  destruct Hr as (? & ? & ? & ? & ? & ?); simplify_eq; eexists; split_and!; eauto.

Lemma retained_call ret c now op r exp s :
  now < exp -> call_ok c now -> retained op r exp s -> retained op r exp (run_call ret c now s).
Proof.
  intros Hn Hok Hr. destruct c; cbn.
  - unfold admit_nonzero. apply (retained_expire op r exp op_id now) in Hr; [|done].
    revert Hr. generalize (expire_target op_id now s). clear s. intros s Hr.
    destruct (ops s !! op_id) as [[c' ow|e]|] eqn:Hop; [done| |].
    + repeat case_match; try done; cbn; (eapply retained_insert; [done|done|]); intros <-; retained_entry Hr.
    + case_match; [done|]. cbn. eapply retained_insert; [done|done|]. intros <-. retained_entry Hr.
  - unfold dedup_get. case_match; [done|]. by apply retained_expire.
  - unfold record_entry_with_write_request. case_match; [done|].
    apply (retained_expire op r exp op_id now) in Hr; [|done].
    revert Hr. generalize (expire_target op_id now s). clear s. intros s Hr.
    destruct (protect_fields r0 (now + ret) s) as [Ho Hf].
    destruct (ops s !! op_id) as [[c' ow|e]|] eqn:Hop; cbn.
    + eapply retained_insert; [cbn; by rewrite Ho|done|]. intros <-. retained_entry Hr.
    + case_match; [done|]. eapply retained_insert; [done|done|]. intros <-. retained_entry Hr.
    + eapply retained_insert; [cbn; by rewrite Ho|done|]. intros <-. retained_entry Hr.
  - unfold stage_write_request. destruct (ops s !! op_id) as [[c' ow|]|] eqn:Hop; [|done..]. cbn.
    eapply retained_insert; [done|done|]. intros <-. retained_entry Hr.
  - destruct claim; [|done]. by apply retained_release.
  - unfold finish_accepted_write. case_match; [done|].
    destruct (ops s !! op_id) as [[|e]|] eqn:Hop; [done| |done].
    destruct (negb (materialization_pending e)) eqn:Hp; [done|].
    assert (op <> op_id).
    { intros <-. destruct Hr as (? & ? & _ & _ & Hm & _). simplify_eq. by rewrite Hm in Hp. }
    case_match; (eapply retained_ext; [|done]).
    + rewrite ops_remove_ne by done. cbn. by rewrite lookup_insert_ne.
    + cbn. by rewrite lookup_insert_ne.
  - unfold replay_write_entry. case_match; [done|]. by apply retained_expire.
  - unfold drop_guard. destruct claim; [by apply retained_release|].
    destruct (ops s !! op_id) as [[|e]|] eqn:Hop; [done| |done]. destruct (replay_pins e =? 0); [done|].
    set (s2 := if replay_pins e - 1 =? 0 then with_pinned _ _ else _).
    assert (Hr2 : retained op r exp s2).
    { subst s2. case_match; (eapply retained_insert; [done|done|]); intros <-; retained_entry Hr. }
    case_match eqn:Hc; [|done]. destruct (decide (op = op_id)) as [<-|].
    + destruct Hr as (? & ? & ? & Hx & _). simplify_eq. lia.
    + eapply retained_ext; [by apply ops_remove_ne|done].
  - unfold reap_expired_batch. revert s Hr.
    induction Hok as [|e b He _ IH]; intros s Hr; [done|]. cbn. apply IH. unfold reap_one.
    destruct (ops s !! e.1) as [[|x]|] eqn:Hop; [done| |done]. case_match eqn:Hc; [|done].
    destruct (decide (op = e.1)) as [->|].
    + destruct Hr as (? & ? & ? & Hx & _). simplify_eq. lia.
    + eapply retained_ext; [by apply ops_remove_ne|done].
  - unfold arm_promotion_retry_grace_until. by case_match.
  - done.
  - unfold reclaim_when_unprotected. by case_match.
Qed.

Lemma retained_calls ret cs op r exp s :
  Forall (fun c => c.2 < exp /\ call_ok c.1 c.2) cs -> retained op r exp s ->
  retained op r exp (run_calls ret cs s).
Proof.
  intros Hcs. revert s. induction Hcs as [|c cs [? ?] _ IH]; intros s Hr; [done|].
  cbn. apply IH. by apply retained_call.
Qed.

(** C25: Exactly-once replay: once the commit worker has recorded the result of an
    operation id, then until the retention deadline every lookup of that id returns
    that same result and every further attempt with that id, initial or retry, is
    admitted only as a replay, whatever other calls (recordings under the same id,
    pins, drops, reaping, failover grace) happen in between. *)
Theorem dedup_replay_exact retention op r t0 s0 calls now origin :
  has_op_id op = true ->
  (forall e, ops s0 !! op <> Some (Complete e)) ->
  let s1 := record_entry op r retention t0 s0 in
  Forall (fun c => c.2 < t0 + retention /\ call_ok c.1 c.2) calls ->
  now < t0 + retention ->
  (dedup_get op now (run_calls retention calls s1)).1 = Some r /\
  (admit_nonzero op origin now (run_calls retention calls s1)).1 = Granted None.
Proof.
  intros Hid Hnc s1 Hcs Hn.
  assert (Hr : retained op r (t0 + retention) (run_calls retention calls s1)).
  { apply retained_calls; [done|]. subst s1.
    unfold record_entry, record_entry_with_write_request. rewrite Hid. cbn.
    assert (He : expire_target op t0 s0 = s0).
    { unfold expire_target. destruct (ops s0 !! op) as [[|e]|] eqn:E; [done|by destruct (Hnc e)|done]. }
    rewrite He. destruct (protect_fields r (t0 + retention) s0) as [Ho _].
    destruct (ops s0 !! op) as [[|e]|] eqn:E; [|by destruct (Hnc e)|]; cbn.
    all: eexists; cbn; rewrite Ho, lookup_insert_eq; by split_and!. }
  apply (retained_expire _ _ _ op now) in Hr; [|done].
  unfold dedup_get, admit_nonzero. rewrite Hid. cbn.
  destruct Hr as (e & -> & <- & Hx & _ & ->). split; [done|].
  destruct (Z.leb_spec (expires_at e) now); [lia|done].
Qed.

Definition test_op : OpId := 7 :: repeat 0 15.

Lemma dedup_replay_exact_witness :
  let s1 := record_entry test_op DRemove 100 5 Inner_new in
  let calls := [(CAdmit test_op None, 10); (CRecord test_op DRename None false, 11);
                (CDropGuard test_op None, 12); (CReap [(test_op, 20)], 50)] in
  (dedup_get test_op 104 (run_calls 100 calls s1)).1 = Some DRemove /\
  (admit_nonzero test_op (Some 3) 104 (run_calls 100 calls s1)).1 = Granted None.
Proof.
  intros s1 calls. apply (dedup_replay_exact 100 test_op DRemove 5 Inner_new calls 104 (Some 3)).
  - reflexivity.
  - intros e. cbn. by rewrite lookup_empty.
  - subst calls. repeat constructor; cbn; lia.
  - lia.
Defined.

(** C39: A result whose canonical apply is still pending is not safe from expiry:
    when the last replay guard of such an entry is dropped at or after the deadline,
    the entry is removed, and the next initial frame with the same operation id is
    admitted as a new operation while the first one is still being applied. *)
Theorem guard_drop_expires_pending_result s op e now :
  ops s !! op = Some (Complete e) ->
  materialization_pending e = true -> replay_pins e = 1 -> expires_at e <= now ->
  let s' := drop_guard op None now s in
  ops s' !! op = None /\ exists claim, (admit_nonzero op None now s').1 = Granted (Some claim).
Proof.
  intros Hop Hm Hp Hx s'.
  assert (Hd : ops s' !! op = None).
  { subst s'. unfold drop_guard. rewrite Hop, Hp, (proj2 (Z.leb_le _ _) Hx).
    change (1 =? 0) with false. change (1 - 1 =? 0) with true. cbv beta iota zeta delta [andb].
    rewrite ops_remove_result. cbn. rewrite lookup_insert_eq. apply lookup_delete_eq. }
  split; [done|]. unfold admit_nonzero.
  assert (He : expire_target op now s' = s') by (unfold expire_target; by rewrite Hd).
  rewrite He, Hd. cbn. eauto.
Qed.

(** An accepted write recorded at 0, retried at 90, whose retry finishes at 101. *)
Lemma guard_drop_expires_pending_result_witness :
  let attrs := file_attributes (IFile (mkFile 0 (fresh_attrs (0, 0) 0 0 0) None None 1)) 5 in
  let s := run_calls 100 [(CRecord test_op (DWrite attrs) None true, 0);
                          (CAdmit test_op (Some 1), 90)] Inner_new in
  let s' := drop_guard test_op None 101 s in
  ops s' !! test_op = None /\ exists claim, (admit_nonzero test_op None 101 s').1 = Granted (Some claim).
Proof.
  intros attrs s.
  apply (guard_drop_expires_pending_result s test_op (mkTimed (DWrite attrs) 100 1 None true false) 101);
    vm_compute; reflexivity || (intros; discriminate).
Defined.
