(* ===== verification/Permissions.v ===== *)
(** * Permission checks

    [fs/permissions.rs]: credentials, the access check of the three permission
    classes, ownership, sticky-bit deletion and timestamp authorisation. *)

From S2P Require Import Prelude Errors Inode.

Definition S_IRUSR : Z := 256. (* 0o400 *)
Definition S_IWUSR : Z := 128.
Definition S_IXUSR : Z := 64.
Definition S_IRGRP : Z := 32.
Definition S_IWGRP : Z := 16.
Definition S_IXGRP : Z := 8.
Definition S_IROTH : Z := 4.
Definition S_IWOTH : Z := 2.
Definition S_IXOTH : Z := 1.
Definition S_ISVTX : Z := 512. (* 0o1000 *)
Definition S_ISGID : Z := 1024. (* 0o2000 *)
Definition S_ISUID : Z := 2048. (* 0o4000 *)

(** [mode & bits != 0] and [mode & !bits]. *)
Definition has_bits (m bits : Z) : bool := negb (Z.land m bits =? 0).
Definition clear_bits (m bits : Z) : Z := Z.land m (Z.lxor U32_MAX bits).

Record AuthContext := mkAuth {
  auth_uid : Z; auth_gid : Z; auth_gid_known : bool; auth_gids : list Z;
  auth_groups_complete : bool }.

(** The first [groups_count] slots of the fixed array are the list [groups]. *)
Record Credentials := mkCreds {
  c_uid : Z; c_gid : Z; c_gid_known : bool; c_groups : list Z; c_groups_complete : bool }.

Definition from_auth_context (a : AuthContext) : Credentials :=
  mkCreds (auth_uid a) (auth_gid a) (auth_gid_known a) (take 16 (auth_gids a))
    (auth_groups_complete a).
Definition with_gid (c : Credentials) (g : Z) : Credentials :=
  mkCreds (c_uid c) g (c_gid_known c) (c_groups c) (c_groups_complete c).

Definition is_known_member_of_group (c : Credentials) (g : Z) : bool :=
  (c_gid_known c && (c_gid c =? g)) || existsb (fun x => x =? g) (c_groups c).
Definition is_member_of_group (c : Credentials) (g : Z) : bool :=
  is_known_member_of_group c g || negb (c_groups_complete c).

Inductive AccessMode := Read | Write | Execute.

Definition permission_bits (m : AccessMode) : Z * Z * Z :=
  match m with
  | Read => (S_IRUSR, S_IRGRP, S_IROTH)
  | Write => (S_IWUSR, S_IWGRP, S_IWOTH)
  | Execute => (S_IXUSR, S_IXGRP, S_IXOTH)
  end.

Definition check_access (i : Inode) (c : Credentials) (m : AccessMode) : result FsError unit :=
  let fm := mode (attrs i) in
  if c_uid c =? 0 then
    match m with
    | Execute => if Z.land fm 73 =? 0 then Err PermissionDenied else Ok tt
    | _ => Ok tt
    end
  else
    let '(bu, bg, bo) := permission_bits m in
    let granted :=
      if c_uid c =? uid (attrs i) then has_bits fm bu
      else if is_known_member_of_group c (gid (attrs i)) then has_bits fm bg
      else if negb (c_groups_complete c) then has_bits fm (Z.lor bg bo)
      else has_bits fm bo in
    if granted then Ok tt else Err PermissionDenied.

Definition check_ownership (i : Inode) (c : Credentials) : result FsError unit :=
  if (c_uid c =? 0) || (c_uid c =? uid (attrs i)) then Ok tt else Err OperationNotPermitted.

Definition check_sticky_bit_delete (par target : Inode) (c : Credentials) : result FsError unit :=
  if is_directory par && has_bits (mode (attrs par)) S_ISVTX && negb (c_uid c =? 0)
     && negb (c_uid c =? uid (attrs par)) && negb (c_uid c =? uid (attrs target))
  then Err PermissionDenied else Ok tt.

Definition validate_mode (m : Z) : Z := Z.land m 4095.

Definition can_set_times (i : Inode) (c : Credentials) (to_current : bool) : result FsError unit :=
  if (c_uid c =? 0) || (c_uid c =? uid (attrs i)) then Ok tt
  else if to_current then check_access i c Write
  else Err OperationNotPermitted.

(** ** Facts *)

(** Access depends on the attributes alone. *)
Lemma check_access_attrs i j c m : attrs i = attrs j -> check_access i c m = check_access j c m.
Proof. unfold check_access. by intros ->. Qed.

(** ** The POSIX rule

    The reference: three octal digits of the mode, one per class, whose bits are read (4),
    write (2) and execute (1); the class of a caller with user id [u] who is in the groups
    [G]; the super-user, who may not execute what nobody may. *)

Inductive PermClass := OwnerClass | GroupClass | OtherClass.
Definition mode_digit (k : PermClass) (m : Z) : Z :=
  match k with OwnerClass => m / 8 / 8 | GroupClass => m / 8 | OtherClass => m end mod 8.
Definition digit_allows (d : Z) (a : AccessMode) : Prop :=
  match a with Read => 4 <= d | Write => d = 2 \/ d = 3 \/ d = 6 \/ d = 7 | Execute => d mod 2 = 1 end.
Definition in_class (u : Z) (G : Z -> Prop) (a : Attrs) (k : PermClass) : Prop :=
  match k with
  | OwnerClass => u = uid a
  | GroupClass => u <> uid a /\ G (gid a)
  | OtherClass => u <> uid a /\ ~ G (gid a)
  end.
Definition posix_grants (u : Z) (G : Z -> Prop) (a : Attrs) (m : AccessMode) : Prop :=
  if decide (u = 0) then m = Execute -> exists k, digit_allows (mode_digit k (mode a)) m
  else exists k, in_class u G a k /\ digit_allows (mode_digit k (mode a)) m.

(** Groups the caller may be in, as far as the credentials tell. *)
Definition compatible (c : Credentials) (G : Z -> Prop) : Prop :=
  (c_gid_known c = true -> G (c_gid c)) /\ (forall g, g ∈ c_groups c -> G g) /\
  (c_groups_complete c = true -> forall g, G g -> (c_gid_known c = true /\ g = c_gid c) \/ g ∈ c_groups c).

Definition class_bit (k : PermClass) : Z := match k with OwnerClass => 6 | GroupClass => 3 | OtherClass => 0 end.
Definition access_bit (a : AccessMode) : Z := match a with Read => 2 | Write => 1 | Execute => 0 end.

Lemma digit_testbit d a : 0 <= d < 8 -> digit_allows d a <-> Z.testbit d (access_bit a) = true.
Proof.
  intros Hd. assert (d = 0 \/ d = 1 \/ d = 2 \/ d = 3 \/ d = 4 \/ d = 5 \/ d = 6 \/ d = 7) as Hc by lia.
  unfold digit_allows. destruct a; cbn [access_bit];
    repeat match type of Hc with _ \/ _ => destruct Hc as [->|Hc] | _ => subst d end; vm_compute; intuition congruence.
Qed.
Lemma mode_digit_shift k m : mode_digit k m = Z.land (Z.shiftr m (class_bit k)) (Z.ones 3).
Proof.
  rewrite Z.land_ones, Z.shiftr_div_pow2 by (destruct k; cbn; lia). unfold mode_digit. destruct k; cbn [class_bit].
  - by rewrite Z.div_div by lia.
  - done.
  - by rewrite Z.div_1_r.
Qed.
Lemma digit_bit k m a : digit_allows (mode_digit k m) a <-> Z.testbit m (class_bit k + access_bit a) = true.
Proof.
  assert (0 <= access_bit a < 3 /\ 0 <= class_bit k) as [Ha Hk] by (destruct a, k; cbn; lia).
  rewrite digit_testbit by (unfold mode_digit; apply Z.mod_pos_bound; lia).
  rewrite mode_digit_shift, Z.land_spec, Z.shiftr_spec, Z.ones_spec_low, andb_true_r by lia.
  by rewrite Z.add_comm.
Qed.

Lemma has_bits_pow m n : 0 <= n -> has_bits m (2 ^ n) = Z.testbit m n.
Proof.
  intros Hn. unfold has_bits. destruct (Z.testbit m n) eqn:E.
  - apply negb_true_iff, Z.eqb_neq. intros Hz. apply (f_equal (fun z => Z.testbit z n)) in Hz.
    by rewrite Z.land_spec, E, Z.pow2_bits_true, Z.bits_0 in Hz by done.
  - apply negb_false_iff, Z.eqb_eq, Z.bits_inj'. intros k Hk. rewrite Z.land_spec, Z.bits_0.
    destruct (decide (n = k)) as [<-|Hne]; [by rewrite E|]. by rewrite Z.pow2_bits_false, andb_false_r.
Qed.
Lemma has_bits_lor m b b' : has_bits m (Z.lor b b') = has_bits m b || has_bits m b'.
Proof.
  unfold has_bits. rewrite Z.land_lor_distr_r. destruct (Z.eqb_spec (Z.land m b) 0) as [->|Hb]; cbn; [by rewrite Z.lor_0_l|].
  destruct (Z.eqb_spec (Z.lor (Z.land m b) (Z.land m b')) 0) as [[E _]%Z.lor_eq_0_iff|]; done.
Qed.
Lemma permission_bits_pow a : permission_bits a = (2 ^ (6 + access_bit a), 2 ^ (3 + access_bit a), 2 ^ (0 + access_bit a)).
Proof. by destruct a. Qed.
Lemma class_has_bits k m a : has_bits m (2 ^ (class_bit k + access_bit a)) = true <-> digit_allows (mode_digit k m) a.
Proof. rewrite digit_bit, has_bits_pow; [done|]. by destruct k, a. Qed.
Lemma any_execute m : Z.land m 73 <> 0 <-> exists k, digit_allows (mode_digit k m) Execute.
Proof.
  transitivity (has_bits m 73 = true); [unfold has_bits; rewrite negb_true_iff, Z.eqb_neq; done|].
  change 73 with (Z.lor (2 ^ (class_bit OwnerClass + access_bit Execute))
    (Z.lor (2 ^ (class_bit GroupClass + access_bit Execute)) (2 ^ (class_bit OtherClass + access_bit Execute)))).
  rewrite !has_bits_lor, !orb_true_iff, !class_has_bits. split.
  - intros [H|[H|H]]; eauto.
  - intros [[] H]; auto.
Qed.
Lemma known_member c g : is_known_member_of_group c g = true <-> (c_gid_known c = true /\ c_gid c = g) \/ g ∈ c_groups c.
Proof.
  unfold is_known_member_of_group. rewrite orb_true_iff, andb_true_iff, Z.eqb_eq, existsb_exists, list_elem_of_In.
  split; intros [H|H]; auto; right; [destruct H as (x & Hx & ->%Z.eqb_eq); done|]. exists g. by rewrite Z.eqb_refl.
Qed.

(** A known member is in the group whatever else is; with complete credentials nobody else
    is; without, everything is possible. *)
Lemma compatible_known c G g : compatible c G -> is_known_member_of_group c g = true -> G g.
Proof. intros (Hp & Hg & _) [[Hk <-]|Hk]%known_member; auto. Qed.
Lemma compatible_unknown c G g : compatible c G -> c_groups_complete c = true -> is_known_member_of_group c g = false -> ~ G g.
Proof.
  intros (_ & _ & Hc) Hcomp Hk Hg. apply not_true_iff_false in Hk. apply Hk, known_member.
  destruct (Hc Hcomp g Hg) as [[? ->]|?]; auto.
Qed.
Lemma compatible_least c : compatible c (fun g => is_known_member_of_group c g = true).
Proof.
  split_and!.
  - intros Hk. apply known_member. by left.
  - intros g Hg. apply known_member. by right.
  - intros _ g [[? <-]|?]%known_member; auto.
Qed.
Lemma compatible_all c : c_groups_complete c = false -> compatible c (fun _ => True).
Proof. intros Hc. split_and!; try done. by rewrite Hc. Qed.

(** C27: the access check is the POSIX rule.  It answers yes or [PermissionDenied], and yes
    exactly when the rule grants the access to the caller for some group membership that
    agrees with the credentials: for root, reading and writing always and executing when
    some class may; for the owner the owner digit of the mode alone, even if another digit
    would allow more; for a known member of the group the group digit; for others the last
    digit, or the group digit too when the list of the caller's groups is incomplete. *)
Theorem check_access_posix i c m :
  (check_access i c m = Ok tt \/ check_access i c m = Err PermissionDenied) /\
  (check_access i c m = Ok tt <-> exists G, compatible c G /\ posix_grants (c_uid c) G (attrs i) m).
Proof.
  unfold check_access, posix_grants. set (a := attrs i). rewrite permission_bits_pow. cbv zeta.
  destruct (Z.eqb_spec (c_uid c) 0) as [H0|H0].
  { split; [destruct m; auto; case_match; auto|]. destruct (decide (c_uid c = 0)) as [_|]; [|done]. split.
    - intros Hc. eexists. split; [apply compatible_least|]. intros ->. apply any_execute.
      by destruct (Z.eqb_spec (Z.land (mode a) 73) 0).
    - intros (G & _ & Hg). destruct m; try done. apply any_execute in Hg; [|done]. by destruct (Z.eqb_spec (Z.land (mode a) 73) 0). }
  destruct (decide (c_uid c = 0)) as [|_]; [done|].
  assert (Hif : forall b : bool, ((if b then Ok tt else Err PermissionDenied) = @Ok FsError unit tt <-> b = true) /\
    ((if b then Ok tt else Err PermissionDenied) = @Ok FsError unit tt \/ (if b then @Ok FsError unit tt else Err PermissionDenied) = Err PermissionDenied))
    by (intros []; split; auto; by split).
  match goal with |- context [if ?b then Ok tt else Err PermissionDenied] => destruct (Hif b) as [-> Htot]; split; [exact Htot|clear Htot] end.
  rewrite has_bits_lor. pose proof (fun k => class_has_bits k (mode a) m) as Hb.
  pose proof (Hb OwnerClass) as Hu. pose proof (Hb GroupClass) as Hg. pose proof (Hb OtherClass) as Ho. cbn [class_bit] in Hu, Hg, Ho.
  destruct (Z.eqb_spec (c_uid c) (uid a)) as [Hown|Hown].
  { rewrite Hu. split; [intros H; eexists; split; [apply compatible_least|]; by exists OwnerClass|].
    intros (G & _ & [] & Hk & H); by try destruct Hk. }
  destruct (is_known_member_of_group c (gid a)) eqn:Hkn.
  { rewrite Hg. split; [intros H; eexists; split; [apply compatible_least|]; by exists GroupClass|].
    intros (G & HG & [] & Hk & H); [done|done|]. by destruct Hk as [_ []%(fun n => n (compatible_known _ _ _ HG Hkn))]. }
  assert (Hlast : digit_allows (mode_digit OtherClass (mode a)) m ->
    exists G, compatible c G /\ exists k, in_class (c_uid c) G a k /\ digit_allows (mode_digit k (mode a)) m).
  { intros H. eexists. split; [apply compatible_least|]. exists OtherClass. split; [|done]. split; [done|]. by rewrite Hkn. }
  destruct (c_groups_complete c) eqn:Hcc; cbn [negb].
  - rewrite Ho. split; [exact Hlast|]. intros (G & HG & [] & Hk & H); [done| |done].
    by destruct (compatible_unknown _ _ _ HG Hcc Hkn (proj2 Hk)).
  - rewrite orb_true_iff, Hg, Ho. split.
    + intros [H|H]; [|by apply Hlast]. eexists. split; [by apply compatible_all|]. by exists GroupClass.
    + intros (G & _ & [] & Hk & H); [done|by left|by right].
Qed.
