(* ===== verification/Store.v ===== *)
(** * The metadata store and its transactions

    The key-value database as the file system uses it, one finite map per key kind
    of [fs/key_codec.rs] (distinct typed keys have distinct byte keys, see
    [KeyCodec]), the write transaction of [db.rs] and the staging functions of
    [fs/store/inode.rs], [fs/store/directory.rs], [fs/store/orphan.rs],
    [fs/store/tombstone.rs] and of [fs/store/extent/write.rs] ([delete_range]).

    The read caches in front of the database always hold what the database holds
    once a commit has been applied, so reads go to the database here. *)

From S2P Require Import Prelude Errors Segment Inode Dedup.

Definition COOKIE_DOT : Z := 1.
Definition COOKIE_DOTDOT : Z := 2.
Definition COOKIE_FIRST_ENTRY : Z := 3.
Definition EXTENT_SIZE : Z := 32768.
Definition STATS_SHARDS : Z := 100.
Definition SMALL_FILE_TOMBSTONE_THRESHOLD : Z := 10.
Definition NAME_MAX : Z := 255.
Definition MAX_HARDLINKS_PER_INODE : Z := U32_MAX.

(** Value of a directory scan record. *)
Inductive DirScanValue :=
| WithInode (inode_id : Z) (inode : Inode)
| Reference (inode_id : Z).

#[export] Instance DirScanValue_eq_dec : EqDecision DirScanValue.
Proof. solve_decision. Defined.

Definition scan_inode_id (v : DirScanValue) : Z :=
  match v with WithInode i _ => i | Reference i => i end.
Definition into_inode (v : DirScanValue) : option Inode :=
  match v with WithInode _ i => Some i | Reference _ => None end.

Record Db := mkDb {
  inodes : gmap Z Inode;
  entries : gmap (Z * name) (Z * Z);           (* (dir, name) -> (inode, cookie) *)
  scans : gmap (Z * Z) (name * DirScanValue);  (* (dir, cookie) -> (name, value) *)
  cookies : gmap Z Z;                          (* dir -> next cookie *)
  orphans : gset Z;
  tombstones : gmap (Z * Z) Z;                 (* (timestamp, inode) -> remaining size *)
  extents : gmap (Z * Z) FrameLoc;             (* (inode, extent) -> location *)
  segcounts : gmap Segid (Z * Z);              (* segment -> (live, total) bytes *)
  shards : gmap Z (Z * Z);                     (* shard -> (used bytes, used inodes) *)
  sys_counter : option Z }.

Definition with_inodes (f : gmap Z Inode -> gmap Z Inode) (d : Db) : Db :=
  mkDb (f (inodes d)) (entries d) (scans d) (cookies d) (orphans d) (tombstones d) (extents d)
    (segcounts d) (shards d) (sys_counter d).
Definition with_entries (f : gmap (Z * name) (Z * Z) -> gmap (Z * name) (Z * Z)) (d : Db) : Db :=
  mkDb (inodes d) (f (entries d)) (scans d) (cookies d) (orphans d) (tombstones d) (extents d)
    (segcounts d) (shards d) (sys_counter d).
Definition with_scans (f : gmap (Z * Z) (name * DirScanValue) -> gmap (Z * Z) (name * DirScanValue))
    (d : Db) : Db :=
  mkDb (inodes d) (entries d) (f (scans d)) (cookies d) (orphans d) (tombstones d) (extents d)
    (segcounts d) (shards d) (sys_counter d).
Definition with_cookies (f : gmap Z Z -> gmap Z Z) (d : Db) : Db :=
  mkDb (inodes d) (entries d) (scans d) (f (cookies d)) (orphans d) (tombstones d) (extents d)
    (segcounts d) (shards d) (sys_counter d).
Definition with_orphans (f : gset Z -> gset Z) (d : Db) : Db :=
  mkDb (inodes d) (entries d) (scans d) (cookies d) (f (orphans d)) (tombstones d) (extents d)
    (segcounts d) (shards d) (sys_counter d).
Definition with_tombstones (f : gmap (Z * Z) Z -> gmap (Z * Z) Z) (d : Db) : Db :=
  mkDb (inodes d) (entries d) (scans d) (cookies d) (orphans d) (f (tombstones d)) (extents d)
    (segcounts d) (shards d) (sys_counter d).
Definition with_extents (f : gmap (Z * Z) FrameLoc -> gmap (Z * Z) FrameLoc) (d : Db) : Db :=
  mkDb (inodes d) (entries d) (scans d) (cookies d) (orphans d) (tombstones d) (f (extents d))
    (segcounts d) (shards d) (sys_counter d).
Definition with_segcounts (f : gmap Segid (Z * Z) -> gmap Segid (Z * Z)) (d : Db) : Db :=
  mkDb (inodes d) (entries d) (scans d) (cookies d) (orphans d) (tombstones d) (extents d)
    (f (segcounts d)) (shards d) (sys_counter d).
Definition with_shards (f : gmap Z (Z * Z) -> gmap Z (Z * Z)) (d : Db) : Db :=
  mkDb (inodes d) (entries d) (scans d) (cookies d) (orphans d) (tombstones d) (extents d)
    (segcounts d) (f (shards d)) (sys_counter d).
Definition with_counter (c : option Z) (d : Db) : Db :=
  mkDb (inodes d) (entries d) (scans d) (cookies d) (orphans d) (tombstones d) (extents d)
    (segcounts d) (shards d) c.

(** ** Transactions *)

Inductive TxOp :=
| PutInode (id : Z) (i : Inode) | DelInode (id : Z)
| PutEntry (d : Z) (n : name) (v : Z * Z) | DelEntry (d : Z) (n : name)
| PutScan (d c : Z) (v : name * DirScanValue) | DelScan (d c : Z)
| PutCookie (d c : Z) | DelCookie (d : Z)
| PutOrphan (id : Z) | DelOrphan (id : Z)
| PutTombstone (ts id size : Z) | DelTombstone (ts id : Z)
| PutExtent (id x : Z) (l : FrameLoc) | DelExtent (id x : Z)
| PutSegcount (s : Segid) (v : Z * Z) | DelSegcount (s : Segid)
| PutShard (s : Z) (v : Z * Z)
| PutCounter (c : Z).

Definition apply_op (d : Db) (op : TxOp) : Db :=
  match op with
  | PutInode id i => with_inodes <[id := i]> d
  | DelInode id => with_inodes (delete id) d
  | PutEntry dir n v => with_entries <[(dir, n) := v]> d
  | DelEntry dir n => with_entries (delete (dir, n)) d
  | PutScan dir c v => with_scans <[(dir, c) := v]> d
  | DelScan dir c => with_scans (delete (dir, c)) d
  | PutCookie dir c => with_cookies <[dir := c]> d
  | DelCookie dir => with_cookies (delete dir) d
  | PutOrphan id => with_orphans (fun o => {[id]} ∪ o) d
  | DelOrphan id => with_orphans (fun o => o ∖ {[id]}) d
  | PutTombstone ts id size => with_tombstones <[(ts, id) := size]> d
  | DelTombstone ts id => with_tombstones (delete (ts, id)) d
  | PutExtent id x l => with_extents <[(id, x) := l]> d
  | DelExtent id x => with_extents (delete (id, x)) d
  | PutSegcount s v => with_segcounts <[s := v]> d
  | DelSegcount s => with_segcounts (delete s) d
  | PutShard s v => with_shards <[s := v]> d
  | PutCounter c => with_counter (Some c) d
  end.

(** [Transaction::apply_to]: the operations replayed in order, the last write to a
    key winning. *)
Definition apply_ops (d : Db) (l : list TxOp) : Db := foldl apply_op d l.

Record Transaction := mkTxn {
  tx_ops : list TxOp;
  tx_inodes : list (Z * option Inode);   (* inode_cache_updates *)
  tx_stats : list (Z * Z);               (* (inode, change of the inode count) *)
  tx_segs : list (Segid * (Z * Z));      (* segment counter adjustments *)
  tx_dedup : option (OpId * DedupResult) }.

Definition txn_new : Transaction := mkTxn [] [] [] [] None.

Definition push (op : TxOp) (t : Transaction) : Transaction :=
  mkTxn (tx_ops t ++ [op]) (tx_inodes t) (tx_stats t) (tx_segs t) (tx_dedup t).
Definition update_cached_inode (id : Z) (i : option Inode) (t : Transaction) : Transaction :=
  mkTxn (tx_ops t) (tx_inodes t ++ [(id, i)]) (tx_stats t) (tx_segs t) (tx_dedup t).
Definition add_inode_count_delta (id n : Z) (t : Transaction) : Transaction :=
  if n =? 0 then t
  else mkTxn (tx_ops t) (tx_inodes t) (tx_stats t ++ [(id, n)]) (tx_segs t) (tx_dedup t).
Definition add_seg_delta (s : Segid) (live total : Z) (t : Transaction) : Transaction :=
  if (live =? 0) && (total =? 0) then t
  else mkTxn (tx_ops t) (tx_inodes t) (tx_stats t) (tx_segs t ++ [(s, (live, total))]) (tx_dedup t).
Definition set_dedup_result (op_id : OpId) (r : DedupResult) (t : Transaction) : Transaction :=
  mkTxn (tx_ops t) (tx_inodes t) (tx_stats t) (tx_segs t)
    (if has_op_id op_id then Some (op_id, r) else None).

(** ** The stores *)

(** [InodeStore::get], [save] and [delete]. *)
Definition inode_get (db : Db) (id : Z) : result FsError Inode := ok_or NotFound (inodes db !! id).
Definition inode_save (id : Z) (i : Inode) (t : Transaction) : Transaction :=
  update_cached_inode id (Some i) (push (PutInode id i) t).
Definition inode_delete (id : Z) (t : Transaction) : Transaction :=
  update_cached_inode id None (push (DelInode id) t).

(** [DirectoryStore]. *)
Definition get_entry_with_cookie (db : Db) (d : Z) (n : name) : result FsError (Z * Z) :=
  ok_or NotFound (entries db !! (d, n)).
Definition dir_exists (db : Db) (d : Z) (n : name) : bool := bool_decide (is_Some (entries db !! (d, n))).
Definition read_cookie (db : Db) (d : Z) : Z := default COOKIE_FIRST_ENTRY (cookies db !! d).
Definition stage_cookie_increment (d current : Z) (t : Transaction) : Transaction :=
  push (PutCookie d (u64_wrap (current + 1))) t.
Definition dir_add (d : Z) (n : name) (id cookie : Z) (i : option Inode) (t : Transaction) : Transaction :=
  push (PutScan d cookie (n, match i with Some i => WithInode id i | None => Reference id end))
    (push (PutEntry d n (id, cookie)) t).
Definition unlink_entry (d : Z) (n : name) (cookie : Z) (t : Transaction) : Transaction :=
  push (DelScan d cookie) (push (DelEntry d n) t).
Definition delete_directory (d : Z) (t : Transaction) : Transaction := push (DelCookie d) t.
Definition update_inode_in_entry (db : Db) (d : Z) (n : name) (id : Z) (i : Inode) (t : Transaction)
  : result FsError Transaction :=
  e ← get_entry_with_cookie db d n;
  Ok (push (PutScan d e.2 (n, WithInode id i)) t).
Definition convert_to_reference (db : Db) (d : Z) (n : name) (id : Z) (t : Transaction)
  : result FsError Transaction :=
  e ← get_entry_with_cookie db d n;
  Ok (push (PutScan d e.2 (n, Reference id)) t).

(** [update_inode_in_entry(..).await.ok()]. *)
Definition try_update_inode_in_entry (db : Db) (d : Z) (n : name) (id : Z) (i : Inode)
    (t : Transaction) : Transaction :=
  match update_inode_in_entry db d n id i t with Ok t' => t' | Err _ => t end.

(** [OrphanStore] and [TombstoneStore]. *)
Definition orphan_add (id : Z) (t : Transaction) : Transaction := push (PutOrphan id) t.
Definition orphan_remove (id : Z) (t : Transaction) : Transaction := push (DelOrphan id) t.
Definition orphan_contains (db : Db) (id : Z) : bool := bool_decide (id ∈ orphans db).
Definition tombstone_add (ts id size : Z) (t : Transaction) : Transaction :=
  push (PutTombstone ts id size) t.

(** [ExtentStore::delete] and [delete_range].  The scan visits the allocated extents
    of [start, end); each visit debits its segment and deletes its key, and the
    visits commute, so the map's own order stands for the key order. *)
Definition extent_delete (id x : Z) (t : Transaction) : Transaction := push (DelExtent id x) t.
Definition scan_extents (db : Db) (id start stop : Z) : list (Z * Z * FrameLoc) :=
  map_to_list (filter (fun kv => kv.1.1 = id /\ start <= kv.1.2 < stop) (extents db)).
Definition delete_range_step (id : Z) (t : Transaction) (kv : Z * Z * FrameLoc) : Transaction :=
  extent_delete id kv.1.2 (add_seg_delta (fl_segid kv.2) (- fl_byte_len kv.2) 0 t).
Definition delete_range (db : Db) (id start stop : Z) (t : Transaction) : Transaction :=
  if stop <=? start then t else foldl (delete_range_step id) t (scan_extents db id start stop).

(** ** The database a transaction leads to *)

Definition tx_db (d : Db) (t : Transaction) : Db := apply_ops d (tx_ops t).

Lemma tx_db_new d : tx_db d txn_new = d.
Proof. done. Qed.
Lemma tx_db_push d op t : tx_db d (push op t) = apply_op (tx_db d t) op.
Proof. unfold tx_db, apply_ops. cbn. by rewrite foldl_app. Qed.
Lemma tx_db_cached d id i t : tx_db d (update_cached_inode id i t) = tx_db d t.
Proof. done. Qed.
Lemma tx_db_count d id n t : tx_db d (add_inode_count_delta id n t) = tx_db d t.
Proof. unfold add_inode_count_delta. by case_match. Qed.
Lemma tx_db_seg d s l n t : tx_db d (add_seg_delta s l n t) = tx_db d t.
Proof. unfold add_seg_delta. by case_match. Qed.
Lemma tx_db_dedup d o r t : tx_db d (set_dedup_result o r t) = tx_db d t.
Proof. done. Qed.

Create Rewrite HintDb txn.
#[export] Hint Rewrite tx_db_new tx_db_push tx_db_cached tx_db_count tx_db_seg tx_db_dedup : txn.

Lemma tx_db_save d id i t : tx_db d (inode_save id i t) = with_inodes <[id := i]> (tx_db d t).
Proof. unfold inode_save. by autorewrite with txn. Qed.
Lemma tx_db_inode_delete d id t : tx_db d (inode_delete id t) = with_inodes (delete id) (tx_db d t).
Proof. unfold inode_delete. by autorewrite with txn. Qed.
Lemma tx_db_add d dir n id c i t :
  tx_db d (dir_add dir n id c i t) =
  with_scans <[(dir, c) := (n, match i with Some i => WithInode id i | None => Reference id end)]>
    (with_entries <[(dir, n) := (id, c)]> (tx_db d t)).
Proof. unfold dir_add. by autorewrite with txn. Qed.
Lemma tx_db_unlink d dir n c t :
  tx_db d (unlink_entry dir n c t) =
  with_scans (delete (dir, c)) (with_entries (delete (dir, n)) (tx_db d t)).
Proof. unfold unlink_entry. by autorewrite with txn. Qed.
Lemma tx_db_cookie d dir c t :
  tx_db d (stage_cookie_increment dir c t) = with_cookies <[dir := u64_wrap (c + 1)]> (tx_db d t).
Proof. unfold stage_cookie_increment. by autorewrite with txn. Qed.
Lemma tx_db_delete_directory d dir t :
  tx_db d (delete_directory dir t) = with_cookies (delete dir) (tx_db d t).
Proof. unfold delete_directory. by autorewrite with txn. Qed.
Lemma tx_db_orphan_add d id t :
  tx_db d (orphan_add id t) = with_orphans (fun o => {[id]} ∪ o) (tx_db d t).
Proof. unfold orphan_add. by autorewrite with txn. Qed.
Lemma tx_db_orphan_remove d id t :
  tx_db d (orphan_remove id t) = with_orphans (fun o => o ∖ {[id]}) (tx_db d t).
Proof. unfold orphan_remove. by autorewrite with txn. Qed.
Lemma tx_db_tombstone d ts id size t :
  tx_db d (tombstone_add ts id size t) = with_tombstones <[(ts, id) := size]> (tx_db d t).
Proof. unfold tombstone_add. by autorewrite with txn. Qed.
Lemma tx_db_try_update d0 d dir n id i t :
  tx_db d (try_update_inode_in_entry d0 dir n id i t) =
  match entries d0 !! (dir, n) with
  | Some e => with_scans <[(dir, e.2) := (n, WithInode id i)]> (tx_db d t)
  | None => tx_db d t
  end.
Proof.
  unfold try_update_inode_in_entry, update_inode_in_entry, get_entry_with_cookie.
  destruct (entries d0 !! (dir, n)); cbn -[push tx_db]; [by rewrite tx_db_push|done].
Qed.

#[export] Hint Rewrite tx_db_save tx_db_inode_delete tx_db_add tx_db_unlink tx_db_cookie
  tx_db_delete_directory tx_db_orphan_add tx_db_orphan_remove tx_db_tombstone tx_db_try_update : txn.

(** ** The recorded result of a transaction: staging anything else keeps it *)

Lemma dedup_count id n t : tx_dedup (add_inode_count_delta id n t) = tx_dedup t.
Proof. unfold add_inode_count_delta. by case_match. Qed.
Lemma dedup_try_update db d n id i t : tx_dedup (try_update_inode_in_entry db d n id i t) = tx_dedup t.
Proof. unfold try_update_inode_in_entry, update_inode_in_entry. by destruct (get_entry_with_cookie db d n). Qed.
Lemma dedup_to_reference db d n id t t' : convert_to_reference db d n id t = Ok t' -> tx_dedup t' = tx_dedup t.
Proof. unfold convert_to_reference. destruct (get_entry_with_cookie db d n); [|done]. by intros [= <-]. Qed.
Lemma dedup_delete_range db id a b t : tx_dedup (delete_range db id a b t) = tx_dedup t.
Proof.
  unfold delete_range. case_match; [done|]. generalize (scan_extents db id a b) as l. intros l. revert t.
  induction l as [|kv l IH]; intros t; [done|]. cbn [foldl]. rewrite IH.
  unfold delete_range_step, add_seg_delta. by case_match.
Qed.

Create Rewrite HintDb txn_dedup.
#[export] Hint Rewrite dedup_count dedup_try_update dedup_delete_range : txn_dedup.

(** ** [delete_range] removes exactly the extents of the range *)

Lemma foldl_delete_range_db d id l t :
  tx_db d (foldl (delete_range_step id) t l) =
  with_extents (fun m => foldl (fun m kv => delete (id, kv.1.2) m) m l) (tx_db d t).
Proof.
  revert t. induction l as [|kv l IH]; intros t; cbn.
  - by destruct (tx_db d t).
  - rewrite IH. unfold delete_range_step, extent_delete. by autorewrite with txn.
Qed.

Lemma foldl_delete_lookup (id : Z) (l : list (Z * Z * FrameLoc)) (m : gmap (Z * Z) FrameLoc) k :
  foldl (fun m kv => delete (id, kv.1.2) m) m l !! k =
  if decide (k ∈ map (fun kv => (id, kv.1.2)) l) then None else m !! k.
Proof.
  revert m. induction l as [|kv l IH]; intros m; cbn [foldl map].
  - by destruct (decide (k ∈ [])) as [?%elem_of_nil|].
  - rewrite IH. destruct (decide (k ∈ map _ l)) as [Hi|Hi].
    + rewrite decide_True; [done|]. by right.
    + destruct (decide (k = (id, kv.1.2))) as [->|Hne].
      * rewrite lookup_delete_eq, decide_True; [done|]. left.
      * rewrite lookup_delete_ne, decide_False by (rewrite ?elem_of_cons; naive_solver). done.
Qed.

Lemma scan_extents_In db id start stop x :
  (id, x) ∈ map (fun kv => (id, kv.1.2)) (scan_extents db id start stop) <->
  is_Some (extents db !! (id, x)) /\ start <= x < stop.
Proof.
  unfold scan_extents. rewrite list_elem_of_fmap. split.
  - intros ([[i x'] l] & [= ->] & Hin). apply elem_of_map_to_list, map_lookup_filter_Some in Hin as [Hl [Hi Hr]].
    cbn in *. subst i. eauto.
  - intros [[l Hl] Hr]. exists (id, x, l). split; [done|].
    apply elem_of_map_to_list, map_lookup_filter_Some. done.
Qed.

Lemma delete_range_extents db id start stop k :
  foldl (fun m kv => delete (id, kv.1.2) m) (extents db) (scan_extents db id start stop) !! k =
  if decide (k.1 = id /\ start <= k.2 < stop) then None else extents db !! k.
Proof.
  rewrite foldl_delete_lookup. destruct k as [i x]; cbn.
  destruct (decide ((i, x) ∈ _)) as [Hin|Hin].
  - pose proof Hin as Hin'. apply list_elem_of_fmap in Hin' as (? & Heq & _). injection Heq as -> _.
    apply scan_extents_In in Hin as [_ ?]. by rewrite decide_True.
  - destruct (decide _) as [[-> Hr]|]; [|done].
    destruct (extents db !! (id, x)) eqn:E; [|done].
    destruct Hin. apply scan_extents_In. eauto.
Qed.

(** [delete_range] on a transaction that has not touched extents yet. *)
Definition clear_range (id start stop : Z) (m : gmap (Z * Z) FrameLoc) : gmap (Z * Z) FrameLoc :=
  filter (fun kv => ~ (kv.1.1 = id /\ start <= kv.1.2 < stop)) m.

Lemma lookup_clear_range id start stop m k :
  clear_range id start stop m !! k = if decide (k.1 = id /\ start <= k.2 < stop) then None else m !! k.
Proof.
  unfold clear_range. destruct (decide _) as [Hd|Hd].
  - apply map_lookup_filter_None. right. intros x _. by intros Hn.
  - destruct (m !! k) eqn:E; [by apply map_lookup_filter_Some|].
    apply map_lookup_filter_None. by left.
Qed.

Lemma tx_db_delete_range d id start stop t :
  extents (tx_db d t) = extents d ->
  tx_db d (delete_range d id start stop t) = with_extents (clear_range id start stop) (tx_db d t).
Proof.
  intros He. unfold delete_range. destruct (Z.leb_spec stop start).
  - assert (Hc : clear_range id start stop (extents (tx_db d t)) = extents (tx_db d t)).
    { apply map_eq. intros k. rewrite lookup_clear_range. case_decide; [lia|done]. }
    unfold with_extents. rewrite Hc. by destruct (tx_db d t).
  - rewrite foldl_delete_range_db. unfold with_extents. f_equal.
    rewrite He. apply map_eq. intros k. by rewrite delete_range_extents, lookup_clear_range.
Qed.
