(* ===== verification/Namespace.v ===== *)
(** * The namespace invariant

    What every committed database satisfies: directory entries, directory scan
    records, cookie counters, parent pointers, embedded inode copies, link counts and
    entry counts describe one tree of directories with hard-linked files in it.

    The structural clauses only depend on the shape of an inode (is it a directory,
    its parent, its name), so they are stated on the map of shapes; copies and counts
    are separate clauses.  The operations change the database in a few elementary
    steps (a new child, a link, an unlink, a move, a rewritten inode); the lemmas of
    this file show what each step does to every clause. *)

From S2P Require Import Prelude Errors Segment Inode Dedup Store.

(** ** Shapes *)

Record Shape := mkShape { sh_dir : bool; sh_parent : option Z; sh_name : option name }.

Definition shape (i : Inode) : Shape := mkShape (is_directory i) (parent i) (iname i).
Definition shapes (m : gmap Z Inode) : gmap Z Shape := shape <$> m.

Abbreviation Entries := (gmap (Z * name) (Z * Z)).
Abbreviation Scans := (gmap (Z * Z) (name * DirScanValue)).

Lemma lookup_shapes m id : shapes m !! id = shape <$> m !! id.
Proof. apply lookup_fmap. Qed.
Lemma shapes_insert m id i : shapes (<[id := i]> m) = <[id := shape i]> (shapes m).
Proof. apply fmap_insert. Qed.
Lemma shapes_delete m id : shapes (delete id m) = delete id (shapes m).
Proof. apply fmap_delete. Qed.
Lemma shapes_same m id i i' : m !! id = Some i -> shape i' = shape i -> shapes (<[id := i']> m) = shapes m.
Proof.
  intros Hi Hs. rewrite shapes_insert. apply insert_id. by rewrite lookup_shapes, Hi, Hs.
Qed.

(** ** Parent chains *)

(** Following parent pointers from [id] ends: at the root, at an id that has no inode,
    or at a non-directory. *)
Inductive Chain (sh : gmap Z Shape) : Z -> Prop :=
| chain_root : Chain sh 0
| chain_gone id : sh !! id = None -> Chain sh id
| chain_leaf id x : sh !! id = Some x -> sh_dir x = false -> Chain sh id
| chain_step id x p : sh !! id = Some x -> sh_dir x = true -> sh_parent x = Some p ->
    Chain sh p -> Chain sh id.

(** The chain from [id] does not pass through [a]. *)
Inductive Avoids (sh : gmap Z Shape) (a : Z) : Z -> Prop :=
| avoid_root : a <> 0 -> Avoids sh a 0
| avoid_gone id : id <> a -> sh !! id = None -> Avoids sh a id
| avoid_leaf id x : id <> a -> sh !! id = Some x -> sh_dir x = false -> Avoids sh a id
| avoid_step id x p : id <> a -> sh !! id = Some x -> sh_dir x = true -> sh_parent x = Some p ->
    Avoids sh a p -> Avoids sh a id.

(** Directories of [sh'] that were directories of [sh] with the same parent. *)
Lemma chain_sub sh sh' id :
  (forall id x', sh' !! id = Some x' -> sh_dir x' = true ->
     exists x, sh !! id = Some x /\ sh_dir x = true /\ sh_parent x = sh_parent x') ->
  Chain sh id -> Chain sh' id.
Proof.
  intros Hsub Hc. induction Hc as [|id Hn|id x Hx Hd|id x p Hx Hd Hp _ IH]; [constructor|..];
    (destruct (sh' !! id) as [x'|] eqn:Hx'; [|by apply chain_gone]);
    (destruct (sh_dir x') eqn:Hd'; [|by eapply chain_leaf]);
    destruct (Hsub _ _ Hx' Hd') as (y & Hy & Hyd & Hyp); simplify_eq; try congruence.
  eapply chain_step; eauto. congruence.
Qed.

(** A fresh id that no directory points to. *)
Lemma chain_fresh sh id y x :
  (forall k z, sh !! k = Some z -> sh_dir z = true -> sh_parent z <> Some id) ->
  x <> id -> Chain sh x -> Chain (<[id := y]> sh) x.
Proof.
  intros Hp Hne Hc. induction Hc as [|x Hn|x z Hx Hd|x z p Hx Hd Hpz _ IH]; [constructor|..].
  - apply chain_gone. by rewrite lookup_insert_ne.
  - eapply chain_leaf; [|done]. by rewrite lookup_insert_ne.
  - eapply chain_step; [by rewrite lookup_insert_ne|done|done|].
    apply IH. intros ->. by eapply Hp.
Qed.

Lemma avoids_chain sh a y id : Avoids sh a id -> Chain (<[a := y]> sh) id.
Proof.
  induction 1 as [|id Hne Hn|id x Hne Hx Hd|id x p Hne Hx Hd Hp _ IH]; [constructor|..].
  - apply chain_gone. by rewrite lookup_insert_ne.
  - eapply chain_leaf; [|done]. by rewrite lookup_insert_ne.
  - eapply chain_step; [by rewrite lookup_insert_ne|done..].
Qed.

(** A directory moved under a directory whose chain avoids it. *)
Lemma chain_move sh a y p x :
  Avoids sh a p -> sh_dir y = true -> sh_parent y = Some p ->
  Chain sh x -> Chain (<[a := y]> sh) x.
Proof.
  intros Ha Hd Hp Hc.
  assert (Hca : Chain (<[a := y]> sh) a).
  { eapply chain_step; [apply lookup_insert_eq|done|done|]. by apply avoids_chain. }
  induction Hc as [|x Hn|x z Hx Hdz|x z q Hx Hdz Hq _ IH]; [constructor|..];
    destruct (decide (x = a)) as [->|Hne]; auto.
  - apply chain_gone. by rewrite lookup_insert_ne.
  - eapply chain_leaf; [|done]. by rewrite lookup_insert_ne.
  - eapply chain_step; [by rewrite lookup_insert_ne|done..].
Qed.

(** A directory is not its own parent, unless it is the root. *)
Lemma chain_parent_ne sh id x p :
  Chain sh id -> id <> 0 -> sh !! id = Some x -> sh_dir x = true -> sh_parent x = Some p -> p <> id.
Proof.
  induction 1 as [|id Hn|id y Hy Hd|id y q Hy Hd Hq Hc IH]; intros H0 Hx Hdx Hp; simplify_eq.
  - congruence.
  - intros ->. by eapply IH.
Qed.

(** ** Structural clauses *)

Definition attached (sh : gmap Z Shape) (d : Z) : Prop :=
  exists x, sh !! d = Some x /\ sh_dir x = true /\ (d = 0 \/ sh_name x <> None).

(** An inode that names its place, as every directory does, is at that place. *)
Definition placed (x : Shape) (d : Z) (n : name) : Prop :=
  sh_dir x = true \/ sh_name x <> None -> sh_parent x = Some d /\ sh_name x = Some n.

Record Tree (nid : Z) (sh : gmap Z Shape) (e : Entries) : Prop := {
  tr_root : exists x, sh !! 0 = Some x /\ sh_dir x = true /\ sh_name x = None /\ sh_parent x = Some 0;
  tr_ids : forall id x, sh !! id = Some x -> 0 <= id < nid /\ (forall p, sh_parent x = Some p -> 0 <= p < nid);
  tr_dir : forall id x, sh !! id = Some x -> sh_dir x = true -> is_Some (sh_parent x);
  tr_unnamed : forall id x, sh !! id = Some x -> sh_dir x = false -> sh_name x = None -> sh_parent x = None;
  tr_entry : forall d n id c, e !! (d, n) = Some (id, c) ->
    attached sh d /\ id <> 0 /\ exists x, sh !! id = Some x /\ placed x d n;
  tr_named : forall id x n, sh !! id = Some x -> sh_name x = Some n ->
    exists p c, sh_parent x = Some p /\ e !! (p, n) = Some (id, c);
  tr_chain : forall id, Chain sh id }.

(** Entries and scan records index each other; cookies stay below the counter. *)
Record Index (e : Entries) (s : Scans) (k : gmap Z Z) : Prop := {
  ix_scan : forall d n id c, e !! (d, n) = Some (id, c) ->
    exists v, s !! (d, c) = Some (n, v) /\ scan_inode_id v = id;
  ix_entry : forall d c n v, s !! (d, c) = Some (n, v) -> e !! (d, n) = Some (scan_inode_id v, c);
  ix_cookie : forall d n id c, e !! (d, n) = Some (id, c) ->
    COOKIE_FIRST_ENTRY <= c < default COOKIE_FIRST_ENTRY (k !! d);
  ix_counter : forall d c, k !! d = Some c -> COOKIE_FIRST_ENTRY <= c <= U64_MAX }.

(** Embedded copies equal the stored inode. *)
Definition Embedded (m : gmap Z Inode) (s : Scans) : Prop :=
  forall d c n id j, s !! (d, c) = Some (n, WithInode id j) -> m !! id = Some j /\ iname j <> None.

(** ** Elementary steps on the tree *)

Lemma tree_mono nid nid' sh e : Tree nid sh e -> nid <= nid' -> Tree nid' sh e.
Proof.
  intros [Hr Hi Hd Hu He Hn Hc] Hle. split; auto. intros id x Hx.
  destruct (Hi id x Hx) as [? Hp]. split; [lia|]. intros p Hpp. specialize (Hp p Hpp). lia.
Qed.

(** Shapes replaced by one with the same kind at other ids. *)
Lemma attached_insert_ne sh d id x : d <> id -> attached sh d -> attached (<[id := x]> sh) d.
Proof. intros Hne (y & Hy & ?). exists y. by rewrite lookup_insert_ne. Qed.
Lemma attached_insert_named sh d id x n :
  sh_dir x = true -> sh_name x = Some n -> attached sh d -> attached (<[id := x]> sh) d.
Proof.
  intros Hd Hn Ha. destruct (decide (d = id)) as [->|]; [|by apply attached_insert_ne].
  exists x. rewrite lookup_insert_eq. split_and!; auto. right. congruence.
Qed.
Lemma attached_delete_ne sh d id : d <> id -> attached sh d -> attached (delete id sh) d.
Proof. intros Hne (y & Hy & ?). exists y. by rewrite lookup_delete_ne. Qed.
Lemma attached_dir sh d x : attached sh d -> sh !! d = Some x -> sh_dir x = true.
Proof. intros (y & Hy & ? & _) Hx. simplify_eq. done. Qed.

Section tree.
Context (nid : Z) (sh : gmap Z Shape) (e : Entries) (T : Tree nid sh e).

Lemma tree_fresh id k x : nid <= id -> sh !! k = Some x -> k <> id /\ sh_parent x <> Some id.
Proof.
  intros Hid Hx. destruct (tr_ids _ _ _ T k x Hx) as [Hk Hp]. split; [lia|].
  intros Hpp. apply Hp in Hpp. lia.
Qed.

(** The root has no entry and every entry of a directory leads back to it. *)
Lemma tree_dir_entries id x d n c d' n' c' :
  sh !! id = Some x -> sh_dir x = true \/ sh_name x <> None ->
  e !! (d, n) = Some (id, c) -> e !! (d', n') = Some (id, c') -> d = d' /\ n = n'.
Proof.
  intros Hx Hs H1 H2.
  destruct (tr_entry _ _ _ T _ _ _ _ H1) as (_ & _ & x1 & Hx1 & Hp1).
  destruct (tr_entry _ _ _ T _ _ _ _ H2) as (_ & _ & x2 & Hx2 & Hp2). simplify_eq.
  destruct (Hp1 Hs), (Hp2 Hs). split; congruence.
Qed.

Lemma tree_new nid' d n id x c :
  nid <= id < nid' -> 0 <= id -> attached sh d -> e !! (d, n) = None ->
  sh_parent x = Some d -> sh_name x = Some n ->
  Tree nid' (<[id := x]> sh) (<[(d, n) := (id, c)]> e).
Proof.
  intros Hid Hid0 Ha Hfree Hp Hn. pose proof T as [Tr Ti Td Tu Te Tn Tc].
  assert (Hidn : sh !! id = None).
  { destruct (sh !! id) as [y|] eqn:E; [|done]. destruct (tree_fresh id id y ltac:(lia) E). done. }
  assert (H0 : id <> 0) by (destruct Tr as (y & Hy & _); intros ->; congruence).
  destruct Ha as (dx & Hdx & Hdd & Hda).
  assert (Hd : d <> id) by (intros ->; congruence).
  split.
  - destruct Tr as (y & Hy & ?). exists y. by rewrite lookup_insert_ne.
  - intros k y [[<- <-]|[_ Hk]]%lookup_insert_Some.
    + split; [lia|]. intros p. rewrite Hp. intros [= <-]. apply Ti in Hdx. lia.
    + destruct (Ti k y Hk) as [? Hpp]. split; [lia|]. intros p Hpy. apply Hpp in Hpy. lia.
  - intros k y [[<- <-]|[_ Hk]]%lookup_insert_Some; eauto.
  - intros k y [[<- <-]|[_ Hk]]%lookup_insert_Some; [congruence|eauto].
  - intros d' n' id' c' [[[= <- <-] [= <- <-]]|[Hne He]]%lookup_insert_Some.
    + split_and!; [by apply attached_insert_ne; [|exists dx]|done|].
      exists x. rewrite lookup_insert_eq. split; [done|]. by intros _.
    + destruct (Te _ _ _ _ He) as (Ha' & Hz & y & Hy & Hpl).
      assert (id' <> id) by congruence. split_and!; [|done|exists y; by rewrite lookup_insert_ne].
      apply attached_insert_ne; [|done]. destruct Ha' as (? & ? & _). congruence.
  - intros k y m [[<- <-]|[Hk0 Hk]]%lookup_insert_Some Hm.
    + exists d, c. simplify_eq. by rewrite Hp, lookup_insert_eq.
    + destruct (Tn k y m Hk Hm) as (p & c' & Hpy & He). exists p, c'. split; [done|].
      rewrite lookup_insert_ne; [done|]. congruence.
  - intros k. destruct (decide (k = id)) as [->|Hk].
    + destruct (sh_dir x) eqn:E; [|eapply chain_leaf; [apply lookup_insert_eq|done]].
      eapply chain_step; [apply lookup_insert_eq|done|done|].
      apply chain_fresh; [|done|apply Tc]. intros k' z Hk' _. by eapply tree_fresh; [|done]; lia.
    + apply chain_fresh; [|done|apply Tc]. intros k' z Hk' _. by eapply tree_fresh; [|done]; lia.
Qed.

(** A further link to a non-directory: the inode gives up its name, unless this is its
    only link. *)
Lemma tree_link d n id x x' c :
  sh !! id = Some x -> sh_dir x = false -> attached sh d -> e !! (d, n) = None ->
  x' = mkShape false None None \/
  x' = mkShape false (Some d) (Some n) /\ (forall k c', e !! k <> Some (id, c')) ->
  Tree nid (<[id := x']> sh) (<[(d, n) := (id, c)]> e).
Proof.
  intros Hx Hxd Ha Hfree Hx'. pose proof T as [Tr Ti Td Tu Te Tn Tc].
  assert (Hd' : sh_dir x' = false) by (by destruct Hx' as [->|[-> _]]).
  assert (Hne : forall d', attached sh d' -> d' <> id).
  { intros d' Hd0 ->. pose proof (attached_dir _ _ _ Hd0 Hx). congruence. }
  assert (H0 : id <> 0) by (destruct Tr as (y & Hy & ? & _); intros ->; congruence).
  split.
  - destruct Tr as (y & Hy & ?). exists y. by rewrite lookup_insert_ne.
  - intros k y [[<- <-]|[_ Hk]]%lookup_insert_Some; [|eauto]. destruct (Ti id x Hx) as [? _].
    split; [done|]. intros p. destruct Hx' as [->|[-> _]]; [done|]. intros [= <-].
    destruct Ha as (dx & Hdx & _). apply Ti in Hdx. lia.
  - intros k y [[<- <-]|[_ Hk]]%lookup_insert_Some; [congruence|eauto].
  - intros k y [[<- <-]|[_ Hk]]%lookup_insert_Some; [|eauto]. by destruct Hx' as [->|[-> _]].
  - intros d' n' id' c' [[[= <- <-] [= <- <-]]|[Hk He]]%lookup_insert_Some.
    + split_and!; [apply attached_insert_ne; auto|done|]. exists x'. rewrite lookup_insert_eq.
      split; [done|]. destruct Hx' as [->|[-> _]]; [|done]. intros [?|?]; done.
    + destruct (Te _ _ _ _ He) as (Ha' & Hz & y & Hy & Hpl).
      split_and!; [apply attached_insert_ne; auto|done|].
      destruct (decide (id' = id)) as [->|]; [|exists y; by rewrite lookup_insert_ne].
      exists x'. rewrite lookup_insert_eq. split; [done|].
      destruct Hx' as [->|[-> Hno]]; [intros [?|?]; done|]. by destruct (Hno (d', n') c').
  - intros k y m [[<- <-]|[Hk0 Hk]]%lookup_insert_Some Hm.
    + destruct Hx' as [->|[-> _]]; [done|]. simplify_eq/=. exists d, c. by rewrite lookup_insert_eq.
    + destruct (Tn k y m Hk Hm) as (p & c' & Hpy & He). exists p, c'. split; [done|].
      rewrite lookup_insert_ne; [done|]. congruence.
  - intros k. apply (chain_sub sh); [|apply Tc].
    intros k' z [[<- <-]|[_ Hk]]%lookup_insert_Some Hz; [congruence|eauto].
Qed.

(** Entries of a directory that is about to go. *)
Definition childless (id : Z) : Prop := forall n v, e !! (id, n) <> Some v.

(** An entry removed, its inode kept without a name. *)
Lemma tree_unlink_keep d n id x x' c :
  e !! (d, n) = Some (id, c) -> sh !! id = Some x ->
  sh_dir x' = sh_dir x -> sh_name x' = None ->
  (if sh_dir x then sh_parent x' = sh_parent x /\ childless id else sh_parent x' = None) ->
  Tree nid (<[id := x']> sh) (delete (d, n) e).
Proof.
  intros Hent Hx Hd' Hn' Hp'. pose proof T as [Tr Ti Td Tu Te Tn Tc].
  destruct (Te _ _ _ _ Hent) as (_ & H0 & y & Hy & Hpl). simplify_eq.
  assert (Hatt : forall d' n' v, e !! (d', n') = Some v -> attached sh d' -> attached (<[id := x']> sh) d').
  { intros d' n' v Hv Ha. apply attached_insert_ne; [|done]. intros ->.
    rewrite (attached_dir _ _ _ Ha Hx) in Hp'. destruct Hp' as [_ Hch]. by eapply Hch. }
  split.
  - destruct Tr as (y & Hy & ?). exists y. by rewrite lookup_insert_ne.
  - intros k y [[<- <-]|[_ Hk]]%lookup_insert_Some; [|eauto]. destruct (Ti id x Hx) as [? Hpp].
    split; [done|]. intros p Hp. apply Hpp. destruct (sh_dir x); [by destruct Hp' as [<- _]|congruence].
  - intros k y [[<- <-]|[_ Hk]]%lookup_insert_Some; [|eauto]. rewrite Hd'. intros Hdx. rewrite Hdx in Hp'.
    destruct Hp' as [-> _]. eauto.
  - intros k y [[<- <-]|[_ Hk]]%lookup_insert_Some; [|eauto]. rewrite Hd'. intros Hdx. by rewrite Hdx in Hp'.
  - intros d' n' id' c' [Hk He]%lookup_delete_Some.
    destruct (Te _ _ _ _ He) as (Ha & Hz & y & Hy & Hpl'). split_and!; [by eapply Hatt|done|].
    destruct (decide (id' = id)) as [->|]; [|exists y; by rewrite lookup_insert_ne].
    exists x'. rewrite lookup_insert_eq. split; [done|]. simplify_eq. intros [Hdd|?]; [|congruence].
    rewrite Hd' in Hdd. destruct Hk. destruct (tree_dir_entries id x d n c d' n' c') as [-> ->]; auto.
  - intros k y m [[<- <-]|[Hk0 Hk]]%lookup_insert_Some Hm; [congruence|].
    destruct (Tn k y m Hk Hm) as (p & c' & Hpy & He). exists p, c'. split; [done|].
    rewrite lookup_delete_ne; [done|]. congruence.
  - intros k. apply (chain_sub sh); [|apply Tc].
    intros k' z [[<- <-]|[_ Hk]]%lookup_insert_Some Hz; [|eauto].
    exists x. rewrite Hd' in Hz. rewrite Hz in Hp'. destruct Hp' as [<- _]. done.
Qed.

(** The last entry of an inode removed together with the inode. *)
Lemma tree_unlink_drop d n id c :
  e !! (d, n) = Some (id, c) ->
  (forall k c', e !! k = Some (id, c') -> k = (d, n)) -> childless id ->
  Tree nid (delete id sh) (delete (d, n) e).
Proof.
  intros Hent Hlast Hch. pose proof T as [Tr Ti Td Tu Te Tn Tc].
  destruct (Te _ _ _ _ Hent) as (_ & H0 & x & Hx & Hpl).
  split.
  - destruct Tr as (y & Hy & ?). exists y. by rewrite lookup_delete_ne.
  - intros k y [_ Hk]%lookup_delete_Some. eauto.
  - intros k y [_ Hk]%lookup_delete_Some. eauto.
  - intros k y [_ Hk]%lookup_delete_Some. eauto.
  - intros d' n' id' c' [Hk He]%lookup_delete_Some.
    destruct (Te _ _ _ _ He) as (Ha & Hz & y & Hy & Hpl'). split_and!; [|done|].
    + apply attached_delete_ne; [|done]. intros ->. by eapply Hch.
    + exists y. rewrite lookup_delete_ne; [done|]. intros ->. apply Hlast in He. congruence.
  - intros k y m [Hk0 Hk]%lookup_delete_Some Hm.
    destruct (Tn k y m Hk Hm) as (p & c' & Hpy & He). exists p, c'. split; [done|].
    rewrite lookup_delete_ne; [done|]. congruence.
  - intros k. apply (chain_sub sh); [|apply Tc]. intros k' z [_ Hk]%lookup_delete_Some Hz. eauto.
Qed.

(** An inode without entries removed (a reclaimed orphan). *)
Lemma tree_reclaim id x :
  sh !! id = Some x -> id <> 0 -> (forall k c', e !! k <> Some (id, c')) -> childless id ->
  Tree nid (delete id sh) e.
Proof.
  intros Hx H0 Hno Hch. pose proof T as [Tr Ti Td Tu Te Tn Tc]. split.
  - destruct Tr as (y & Hy & ?). exists y. by rewrite lookup_delete_ne.
  - intros k y [_ Hk]%lookup_delete_Some. eauto.
  - intros k y [_ Hk]%lookup_delete_Some. eauto.
  - intros k y [_ Hk]%lookup_delete_Some. eauto.
  - intros d' n' id' c' He.
    destruct (Te _ _ _ _ He) as (Ha & Hz & y & Hy & Hpl'). split_and!; [|done|].
    + apply attached_delete_ne; [|done]. intros ->. by eapply Hch.
    + exists y. rewrite lookup_delete_ne; [done|]. intros ->. by eapply Hno.
  - intros k y m [Hk0 Hk]%lookup_delete_Some Hm. eauto.
  - intros k. apply (chain_sub sh); [|apply Tc]. intros k' z [_ Hk]%lookup_delete_Some Hz. eauto.
Qed.

(** An entry moved to a free place; the inode takes the new name unless it is a
    nameless hard link. *)
Lemma tree_move d n id x x' c d' n' c' :
  e !! (d, n) = Some (id, c) -> sh !! id = Some x -> attached sh d' -> d' <> id ->
  e !! (d', n') = None ->
  x' = mkShape (sh_dir x) (Some d') (Some n') /\
    (forall k c0, e !! k = Some (id, c0) -> k = (d, n)) /\
    (sh_dir x = true -> Avoids sh id d') \/
  x' = x /\ x = mkShape false None None ->
  Tree nid (<[id := x']> sh) (<[(d', n') := (id, c')]> (delete (d, n) e)).
Proof.
  intros Hent Hx Ha Hd'id Hfree Hx'. pose proof T as [Tr Ti Td Tu Te Tn Tc].
  destruct (Te _ _ _ _ Hent) as (_ & H0 & y & Hy & Hpl). simplify_eq.
  assert (Hdir : sh_dir x' = sh_dir x) by (destruct Hx' as [[-> _]|[-> _]]; done).
  assert (Hatt : forall d0, attached sh d0 -> attached (<[id := x']> sh) d0).
  { intros d0 Ha0. destruct (decide (d0 = id)) as [->|]; [|by apply attached_insert_ne].
    pose proof (attached_dir _ _ _ Ha0 Hx) as Hdx.
    destruct Hx' as [[-> _]|[_ ->]]; [|done]. by eapply attached_insert_named. }
  split.
  - destruct Tr as (y & Hy & ?). exists y. by rewrite lookup_insert_ne.
  - intros k y [[<- <-]|[_ Hk]]%lookup_insert_Some; [|eauto]. destruct (Ti id x Hx) as [? Hpp].
    split; [done|]. intros p. destruct Hx' as [[-> _]|[-> _]]; [|eauto]. intros [= <-].
    destruct Ha as (dx & Hdx & _). apply Ti in Hdx. lia.
  - intros k y [[<- <-]|[_ Hk]]%lookup_insert_Some; [|eauto].
    destruct Hx' as [[-> _]|[-> ->]]; [done|]. by intros ?.
  - intros k y [[<- <-]|[_ Hk]]%lookup_insert_Some; [|eauto].
    destruct Hx' as [[-> _]|[-> ->]]; by intros ??.
  - intros d0 n0 id0 c0 [[[= <- <-] [= <- <-]]|[Hk [Hk' He]%lookup_delete_Some]]%lookup_insert_Some.
    + split_and!; [by apply Hatt|done|]. exists x'. rewrite lookup_insert_eq. split; [done|].
      destruct Hx' as [[-> _]|[-> ->]]; [done|]. intros [?|?]; done.
    + destruct (Te _ _ _ _ He) as (Ha0 & Hz & y & Hy & Hpl0). split_and!; [by apply Hatt|done|].
      destruct (decide (id0 = id)) as [->|]; [|exists y; by rewrite lookup_insert_ne].
      destruct Hx' as [(-> & Hone & _)|[-> ->]]; [by apply Hone in He|].
      exists (mkShape false None None). rewrite lookup_insert_eq. split; [done|]. intros [?|?]; done.
  - intros k y m [[<- <-]|[Hk0 Hk]]%lookup_insert_Some Hm.
    + destruct Hx' as [[-> _]|[-> ->]]; [|done]. simplify_eq/=. exists d', c'. by rewrite lookup_insert_eq.
    + destruct (Tn k y m Hk Hm) as (p & c0 & Hpy & He). exists p, c0. split; [done|].
      rewrite lookup_insert_ne by congruence. rewrite lookup_delete_ne; [done|]. congruence.
  - intros k. destruct Hx' as [(-> & _ & Hav)|[-> ->]].
    + destruct (sh_dir x) eqn:Hdx; [by apply (chain_move sh id _ d'); auto|].
      apply (chain_sub sh); [|apply Tc].
      intros k' z [[<- <-]|[_ Hk]]%lookup_insert_Some Hz; [done|eauto].
    + rewrite insert_id by done. apply Tc.
Qed.
End tree.

(** ** Elementary steps on the index *)

Section index.
Context (e : Entries) (s : Scans) (k : gmap Z Z) (X : Index e s k).

(** An unused cookie below the counter. *)
Lemma index_put d n id c v :
  e !! (d, n) = None -> s !! (d, c) = None -> scan_inode_id v = id ->
  COOKIE_FIRST_ENTRY <= c < default COOKIE_FIRST_ENTRY (k !! d) ->
  Index (<[(d, n) := (id, c)]> e) (<[(d, c) := (n, v)]> s) k.
Proof.
  intros He Hs Hv Hc. destruct X as [Xs Xe Xc Xk]. split; [..|done].
  - intros d' n' id' c' [[[= <- <-] [= <- <-]]|[Hne H]]%lookup_insert_Some.
    + exists v. by rewrite lookup_insert_eq.
    + destruct (Xs _ _ _ _ H) as (w & Hw & ?). exists w. rewrite lookup_insert_ne; [done|].
      intros [= <- <-]. congruence.
  - intros d' c' n' v' [[[= <- <-] [= <- <-]]|[Hne H]]%lookup_insert_Some.
    + by rewrite lookup_insert_eq, Hv.
    + apply Xe in H. rewrite lookup_insert_ne; [done|]. intros [= <- <-]. congruence.
  - intros d' n' id' c' [[[= <- <-] [= <- <-]]|[Hne H]]%lookup_insert_Some; [done|eauto].
Qed.

Lemma index_counter_fresh d : s !! (d, default COOKIE_FIRST_ENTRY (k !! d)) = None.
Proof.
  destruct (s !! _) as [[n v]|] eqn:E; [|done]. apply (ix_entry _ _ _ X), (ix_cookie _ _ _ X) in E. lia.
Qed.

Lemma index_counter_first d : COOKIE_FIRST_ENTRY <= default COOKIE_FIRST_ENTRY (k !! d).
Proof. destruct (k !! d) eqn:E; cbn; [|done]. apply (ix_counter _ _ _ X) in E. lia. Qed.

Lemma index_bump d :
  default COOKIE_FIRST_ENTRY (k !! d) < U64_MAX ->
  Index e s (<[d := default COOKIE_FIRST_ENTRY (k !! d) + 1]> k).
Proof.
  intros Hlt. pose proof (index_counter_first d). destruct X as [Xs Xe Xc Xk]. split; auto.
  - intros d' n' id' c' H'. apply Xc in H'. destruct (decide (d = d')) as [<-|].
    + rewrite lookup_insert_eq. cbn. lia.
    + by rewrite lookup_insert_ne.
  - intros d' c' [[<- <-]|[_ H']]%lookup_insert_Some; [lia|eauto].
Qed.

(** Another value under the same scan key. *)
Lemma index_reval d c n v v' :
  s !! (d, c) = Some (n, v) -> scan_inode_id v' = scan_inode_id v ->
  Index e (<[(d, c) := (n, v')]> s) k.
Proof.
  intros Hs Hv. destruct X as [Xs Xe Xc Xk]. split; auto.
  - intros d' n' id' c' H. destruct (Xs _ _ _ _ H) as (w & Hw & Hid).
    destruct (decide ((d', c') = (d, c))) as [[= -> ->]|].
    + exists v'. rewrite lookup_insert_eq. simplify_eq. done.
    + exists w. by rewrite lookup_insert_ne.
  - intros d' c' n' w [[[= <- <-] [= <- <-]]|[Hne H]]%lookup_insert_Some; [|eauto].
    rewrite Hv. by apply Xe.
Qed.

Lemma index_unlink d n id c :
  e !! (d, n) = Some (id, c) -> Index (delete (d, n) e) (delete (d, c) s) k.
Proof.
  intros He. destruct X as [Xs Xe Xc Xk]. split; [..|done].
  - intros d' n' id' c' [Hne H]%lookup_delete_Some. destruct (Xs _ _ _ _ H) as (w & Hw & Hid).
    exists w. rewrite lookup_delete_ne; [done|]. intros [= <- <-].
    apply Xs in He as (v & Hv & _). simplify_eq.
  - intros d' c' n' v [Hne H]%lookup_delete_Some. apply Xe in H. rewrite lookup_delete_ne; [done|].
    intros [= <- <-]. congruence.
  - intros d' n' id' c' [Hne H]%lookup_delete_Some. eauto.
Qed.

Lemma index_drop_counter d :
  (forall n v, e !! (d, n) <> Some v) -> Index e s (delete d k).
Proof.
  intros Hno. destruct X as [Xs Xe Xc Xk]. split; auto.
  - intros d' n' id' c' H. rewrite lookup_delete_ne; [eauto|]. intros <-. by eapply Hno.
  - intros d' c' [_ H]%lookup_delete_Some. eauto.
Qed.
End index.

(** ** Elementary steps on embedded copies *)

Lemma embedded_put m s d c n v :
  Embedded m s -> (forall j, into_inode v = Some j -> m !! scan_inode_id v = Some j /\ iname j <> None) ->
  Embedded m (<[(d, c) := (n, v)]> s).
Proof.
  intros Hm Hv d' c' n' id j [[_ [= _ Ev]]|[_ H]]%lookup_insert_Some; [|eauto].
  subst v. by apply Hv.
Qed.
Lemma embedded_del m s k : Embedded m s -> Embedded m (delete k s).
Proof. intros Hm d' c' n' id j [_ H]%lookup_delete_Some. eauto. Qed.

(** The inode table changed at an id of which no scan record holds a copy. *)
Lemma embedded_inode m m' s id :
  Embedded m s -> (forall k, k <> id -> m' !! k = m !! k) ->
  (forall d c n j, s !! (d, c) <> Some (n, WithInode id j)) -> Embedded m' s.
Proof.
  intros Hm Hk Hno d c n id' j H. destruct (decide (id' = id)) as [->|Hne]; [by destruct (Hno d c n j)|].
  rewrite Hk by done. eauto.
Qed.

Lemma embedded_none m s id :
  Embedded m s -> (forall i, m !! id = Some i -> iname i = None) ->
  forall d c n j, s !! (d, c) <> Some (n, WithInode id j).
Proof. intros Hm Hi d c n j H. apply Hm in H as [Hj Hn]. by apply Hi in Hj. Qed.

(** A copy of a named inode or directory sits at the inode's only entry. *)
Lemma embedded_at nid m e s k id i d n c :
  Tree nid (shapes m) e -> Index e s k -> Embedded m s ->
  m !! id = Some i -> e !! (d, n) = Some (id, c) -> is_directory i = true \/ iname i <> None ->
  forall d' c' n' j, s !! (d', c') = Some (n', WithInode id j) -> (d', c') = (d, c).
Proof.
  intros T X Hm Hi He Hs d' c' n' j H. apply (ix_entry _ _ _ X) in H. cbn in H.
  destruct (tree_dir_entries _ _ _ T id (shape i) d n c d' n' c') as [-> ->]; auto.
  - by rewrite lookup_shapes, Hi.
  - congruence.
Qed.

(** The copy of a named inode rewritten together with it. *)
Lemma embedded_refresh nid m e s k id i i' d n c :
  Tree nid (shapes m) e -> Index e s k -> Embedded m s ->
  m !! id = Some i -> e !! (d, n) = Some (id, c) -> iname i <> None -> iname i' <> None ->
  Embedded (<[id := i']> m) (<[(d, c) := (n, WithInode id i')]> s).
Proof.
  intros T X Hm Hi He Hn Hn' d' c' n' id' j [[_ [= _ <- <-]]|[Hne H]]%lookup_insert_Some.
  - by rewrite lookup_insert_eq.
  - destruct (decide (id' = id)) as [->|]; [|rewrite lookup_insert_ne by done; eauto].
    destruct Hne. symmetry. by eapply embedded_at; eauto.
Qed.

(** ** Counts *)

Definition nentries (e : Entries) (d : Z) : Z := mcount (fun k _ => bool_decide (k.1 = d)) e.
Definition nrefs (e : Entries) (id : Z) : Z := mcount (fun _ v => bool_decide (v.1 = id)) e.
Definition is_sub (d : Z) (x : Shape) : bool :=
  sh_dir x && bool_decide (sh_parent x = Some d) && bool_decide (sh_name x <> None).
Definition nsub (sh : gmap Z Shape) (d : Z) : Z := mcount (fun _ => is_sub d) sh.

(** The link count an inode should have: a directory in the tree counts itself, its
    entry and its subdirectories; another inode counts its entries. *)
Definition exp_links (sh : gmap Z Shape) (e : Entries) (id : Z) (x : Shape) : Z :=
  if sh_dir x then
    (if decide (id = 0 \/ sh_name x <> None) then 2 + nsub sh id else 0)
  else nrefs e id.

Definition ecount (i : Inode) : Z := match i with IDirectory d => d_entry_count d | _ => 0 end.

Definition one (x y : Z) : Z := if decide (x = y) then 1 else 0.

(** Counts up to discrepancies [de] (entry counts) and [dl] (link counts) that the
    rest of the transaction makes good. *)
Definition Counts (m : gmap Z Inode) (e : Entries) (de dl : Z -> Z) : Prop :=
  forall id i, m !! id = Some i ->
    nlink i = exp_links (shapes m) e id (shape i) + dl id /\
    (is_directory i = true -> ecount i = nentries e id + de id).

Lemma counts_ext m e de dl de' dl' :
  Counts m e de dl -> (forall id, is_Some (m !! id) -> de id = de' id /\ dl id = dl' id) ->
  Counts m e de' dl'.
Proof.
  intros Hc Hx id i Hi. destruct (Hx id ltac:(eauto)) as [<- <-]. by apply Hc.
Qed.

Lemma nentries_insert e d n v d' :
  e !! (d, n) = None -> nentries (<[(d, n) := v]> e) d' = nentries e d' + one d d'.
Proof.
  intros He. unfold nentries, one. rewrite mcount_insert_new by done. cbn.
  destruct (decide (d = d')); case_bool_decide; done || lia.
Qed.
Lemma nentries_delete e d n v d' :
  e !! (d, n) = Some v -> nentries (delete (d, n) e) d' = nentries e d' - one d d'.
Proof.
  intros He. unfold nentries, one. rewrite (mcount_delete _ _ _ _ He). cbn.
  destruct (decide (d = d')); case_bool_decide; done || lia.
Qed.
Lemma nrefs_insert e k id c id' :
  e !! k = None -> nrefs (<[k := (id, c)]> e) id' = nrefs e id' + one id id'.
Proof.
  intros He. unfold nrefs, one. rewrite mcount_insert_new by done. cbn.
  destruct (decide (id = id')); case_bool_decide; done || lia.
Qed.
Lemma nrefs_delete e k id c id' :
  e !! k = Some (id, c) -> nrefs (delete k e) id' = nrefs e id' - one id id'.
Proof.
  intros He. unfold nrefs, one. rewrite (mcount_delete _ _ _ _ He). cbn.
  destruct (decide (id = id')); case_bool_decide; done || lia.
Qed.
Lemma nsub_insert_new sh id x d :
  sh !! id = None -> nsub (<[id := x]> sh) d = nsub sh d + (if is_sub d x then 1 else 0).
Proof. intros He. unfold nsub. by rewrite mcount_insert_new. Qed.
Lemma nsub_insert sh id x y d :
  sh !! id = Some y ->
  nsub (<[id := x]> sh) d = nsub sh d - (if is_sub d y then 1 else 0) + (if is_sub d x then 1 else 0).
Proof. intros He. unfold nsub. by rewrite (mcount_insert_upd _ _ _ _ _ He). Qed.
Lemma nsub_delete sh id y d :
  sh !! id = Some y -> nsub (delete id sh) d = nsub sh d - (if is_sub d y then 1 else 0).
Proof. intros He. unfold nsub. by rewrite (mcount_delete _ _ _ _ He). Qed.

Lemma is_sub_dir d x : sh_dir x = false -> is_sub d x = false.
Proof. intros E. unfold is_sub. by rewrite E. Qed.
Lemma is_sub_unnamed d x : sh_name x = None -> is_sub d x = false.
Proof. intros E. unfold is_sub. rewrite E. by destruct (sh_dir x), (bool_decide _). Qed.
Lemma is_sub_placed d d' n x :
  sh_dir x = true -> sh_parent x = Some d -> sh_name x = Some n ->
  (if is_sub d' x then 1 else 0) = one d d'.
Proof.
  intros Hd Hp Hn. unfold is_sub, one. rewrite Hd, Hp, Hn. rewrite (bool_decide_true (Some n <> None)) by done.
  destruct (decide (d = d')) as [->|]; [by rewrite bool_decide_true|].
  by rewrite bool_decide_false by congruence.
Qed.

Lemma one_refl x : one x x = 1.
Proof. unfold one. by rewrite decide_True. Qed.
Lemma one_ne x y : x <> y -> one x y = 0.
Proof. intros. unfold one. by rewrite decide_False. Qed.
Lemma one_sym x y : one x y = one y x.
Proof. unfold one. repeat case_decide; congruence. Qed.
Lemma one_bounds x y : 0 <= one x y <= 1.
Proof. unfold one. case_decide; lia. Qed.

(** Zero counts. *)
Lemma nrefs_zero e id : (forall k c, e !! k <> Some (id, c)) -> nrefs e id = 0.
Proof.
  intros Hno. unfold nrefs, mcount. apply msum_zero. intros k [id' c] Hk. cbn.
  case_bool_decide; [|done]. subst. by destruct (Hno k c).
Qed.
Lemma nrefs_zero_inv e id k c : nrefs e id = 0 -> e !! k <> Some (id, c).
Proof.
  intros Hz Hk. eapply mcount_zero_inv in Hk; [|exact Hz]. cbn in Hk. by case_bool_decide.
Qed.
Lemma nrefs_one_inv e id k k' c c' :
  nrefs e id = 1 -> e !! k = Some (id, c) -> e !! k' = Some (id, c') -> k' = k.
Proof.
  intros H1 Hk Hk'. unfold nrefs, mcount in H1. symmetry.
  apply (msum_one_inv (fun _ v => if bool_decide (v.1 = id) then 1 else 0) e k (id, c) k' (id, c'));
    try done; cbn; [|by rewrite bool_decide_true..].
  intros k0 v0 _. by case_bool_decide.
Qed.
Lemma nentries_zero e d : (forall n v, e !! (d, n) <> Some v) -> nentries e d = 0.
Proof.
  intros Hno. unfold nentries, mcount. apply msum_zero. intros [d' n] v Hk. cbn.
  case_bool_decide; [|done]. subst. by destruct (Hno n v).
Qed.
Lemma nentries_zero_inv e d n v : nentries e d = 0 -> e !! (d, n) <> Some v.
Proof.
  intros Hz Hk. eapply mcount_zero_inv in Hk; [|exact Hz]. cbn in Hk. by case_bool_decide.
Qed.
Lemma nsub_zero nid sh e d : Tree nid sh e -> nentries e d = 0 -> nsub sh d = 0.
Proof.
  intros T Hz. unfold nsub, mcount. apply msum_zero. intros id x Hx. unfold is_sub.
  destruct (sh_dir x); [|done]. case_bool_decide as Hp; [|done]. case_bool_decide as Hn; [|done].
  destruct (sh_name x) as [n|] eqn:E; [|done].
  destruct (tr_named _ _ _ T id x n Hx E) as (p & c & Hp' & He). simplify_eq.
  by apply nentries_zero_inv in He.
Qed.
Lemma nrefs_named nid sh e id x n :
  Tree nid sh e -> sh !! id = Some x -> sh_name x = Some n -> nrefs e id = 1.
Proof.
  intros T Hx Hn. destruct (tr_named _ _ _ T id x n Hx Hn) as (p & c & Hp & He).
  rewrite <- (insert_delete_id e (p, n) (id, c) He).
  rewrite nrefs_insert by apply lookup_delete_eq. rewrite one_refl, nrefs_zero; [done|].
  intros [d' n'] c' [Hne Hk]%lookup_delete_Some. destruct Hne.
  destruct (tree_dir_entries _ _ _ T id x p n c d' n' c') as [-> ->]; auto. right. congruence.
Qed.

(** Case analysis on the ids a step touches. *)
Ltac one_cases :=
  repeat match goal with
    | |- context [one ?x ?x] => rewrite (one_refl x)
    | H : context [one ?x ?x] |- _ => rewrite (one_refl x) in H
    | |- context [one ?x ?y] => unfold one at 1; destruct (decide (x = y)); subst
    | H : context [one ?x ?y] |- _ => unfold one in H; destruct (decide (x = y)); subst
    end.

Lemma counts_refresh m e de dl id i i' :
  Counts m e de dl -> m !! id = Some i -> shape i' = shape i ->
  Counts (<[id := i']> m) e
    (fun x => de x + (ecount i' - ecount i) * one x id)
    (fun x => dl x + (nlink i' - nlink i) * one x id).
Proof.
  intros Hc Hi Hs k j [[<- <-]|[Hne Hk]]%lookup_insert_Some; rewrite (shapes_same m id i i') by done.
  - destruct (Hc id i Hi) as [Hl He]. rewrite Hs, !one_refl. split; [lia|].
    intros Hd. injection Hs as Hsd _ _. rewrite Hsd in Hd. specialize (He Hd). lia.
  - destruct (Hc k j Hk) as [Hl He]. rewrite one_ne by done. split; [lia|]. intros Hd. specialize (He Hd). lia.
Qed.

Section counts.
Context (nid : Z) (m : gmap Z Inode) (e : Entries) (de dl : Z -> Z).
Context (T : Tree nid (shapes m) e) (C : Counts m e de dl).

(** Expected links of an inode the step does not rewrite. *)
Lemma exp_links_step sh' e' id x dn dr :
  nsub sh' id = nsub (shapes m) id + dn -> nrefs e' id = nrefs e id + dr ->
  (sh_dir x = true -> dn <> 0 -> id = 0 \/ sh_name x <> None) ->
  exp_links sh' e' id x =
  exp_links (shapes m) e id x + (if sh_dir x then dn else dr).
Proof.
  intros Hn Hr Hok. unfold exp_links. destruct (sh_dir x); [|lia].
  case_decide; [lia|]. destruct (decide (dn = 0)); [lia|]. tauto.
Qed.

Lemma counts_new d n id i c :
  nid <= id -> attached (shapes m) d -> e !! (d, n) = None ->
  parent i = Some d -> iname i = Some n ->
  nlink i = (if is_directory i then 2 else 1) + dl id -> ecount i = de id ->
  Counts (<[id := i]> m) (<[(d, n) := (id, c)]> e)
    (fun x => de x - one d x) (fun x => dl x - (if is_directory i then one d x else 0)).
Proof.
  intros Hid Ha Hfree Hp Hn Hl He.
  assert (Hidn : shapes m !! id = None).
  { destruct (shapes m !! id) as [y|] eqn:E; [|done]. destruct (tree_fresh _ _ _ T id id y Hid E). done. }
  assert (Hd : d <> id) by (destruct Ha as (? & ? & _); congruence).
  assert (Href : nrefs e id = 0).
  { apply nrefs_zero. intros [d' n'] c' H. apply (tr_entry _ _ _ T) in H as (_ & _ & y & Hy & _). congruence. }
  assert (Hent : nentries e id = 0).
  { apply nentries_zero. intros n' [id' c'] H. apply (tr_entry _ _ _ T) in H as ((y & Hy & _) & _). congruence. }
  assert (Hsub : nsub (shapes m) id = 0) by (by apply (nsub_zero nid _ e)).
  assert (Hns : forall k, nsub (<[id := shape i]> (shapes m)) k =
                nsub (shapes m) k + (if is_directory i then one d k else 0)).
  { intros k. rewrite nsub_insert_new by done. f_equal.
    destruct (is_directory i) eqn:Hdi; [|by rewrite is_sub_dir]. by apply (is_sub_placed d k n). }
  intros k j [[<- <-]|[Hne Hk]]%lookup_insert_Some; rewrite shapes_insert.
  - rewrite nentries_insert, Hent, (one_ne d id) by done. split; [|lia].
    unfold exp_links. cbn. rewrite Hns, nrefs_insert, Hsub, Href, one_refl, (one_ne d id) by done.
    destruct (is_directory i); [|lia]. rewrite decide_True by (right; congruence). lia.
  - destruct (C k j Hk) as [Hkl Hke]. rewrite nentries_insert by done.
    split; [|intros Hdj; specialize (Hke Hdj); lia].
    rewrite (exp_links_step _ _ k (shape j) (if is_directory i then one d k else 0) (one id k)).
    + rewrite (one_ne id k) by done. cbn. destruct (is_directory j) eqn:Hdj; [lia|].
      rewrite (one_ne d k); [destruct (is_directory i); lia|]. intros <-.
      destruct Ha as (y & Hy & Hyd & _). rewrite lookup_shapes, Hk in Hy. injection Hy as <-. cbn in Hyd. congruence.
    + apply Hns.
    + by apply nrefs_insert.
    + intros _ Hz. destruct (is_directory i); [|done]. unfold one in Hz. case_decide; [|done]. subst k.
      destruct Ha as (y & Hy & _ & Hyn). rewrite lookup_shapes, Hk in Hy. by injection Hy as <-.
Qed.

(** A further link to a non-directory. *)
Lemma counts_link d n id i i' c :
  m !! id = Some i -> is_directory i = false -> is_directory i' = false -> e !! (d, n) = None ->
  Counts (<[id := i']> m) (<[(d, n) := (id, c)]> e)
    (fun x => de x - one d x) (fun x => dl x + (nlink i' - nlink i - 1) * one id x).
Proof.
  intros Hi Hd Hd' Hfree.
  assert (Hns : forall k, nsub (<[id := shape i']> (shapes m)) k = nsub (shapes m) k + 0).
  { intros k. rewrite (nsub_insert _ _ _ (shape i)) by (by rewrite lookup_shapes, Hi).
    rewrite !is_sub_dir by done. lia. }
  intros k j [[<- <-]|[Hne Hk]]%lookup_insert_Some; rewrite shapes_insert.
  - destruct (C id i Hi) as [Hkl _]. rewrite one_refl. split; [|congruence].
    unfold exp_links in *. cbn in *. rewrite Hd' , Hd in *. rewrite nrefs_insert, one_refl by done. lia.
  - destruct (C k j Hk) as [Hkl Hke]. rewrite nentries_insert by done.
    split; [|intros Hdj; specialize (Hke Hdj); lia].
    rewrite (exp_links_step _ _ k (shape j) 0 (one id k)); [|apply Hns|by apply nrefs_insert|done].
    rewrite (one_ne id k) by done. cbn. case_match; lia.
Qed.

(** An entry never leads to its own directory. *)
Lemma tree_entry_ne d n id c : e !! (d, n) = Some (id, c) -> d <> id.
Proof.
  intros He ->. destruct (tr_entry _ _ _ T _ _ _ _ He) as ((y & Hy & Hd & _) & H0 & x & Hx & Hp).
  simplify_eq. destruct Hp as [Hp _]; [by left|].
  by eapply chain_parent_ne; [apply (tr_chain _ _ _ T id)|..].
Qed.

(** The changes an unlinked entry makes to the three counts. *)
Lemma unlink_subs d n id i c k :
  e !! (d, n) = Some (id, c) -> m !! id = Some i ->
  (if is_sub k (shape i) then 1 else 0) = if is_directory i then one d k else 0.
Proof.
  intros He Hi. destruct (is_directory i) eqn:Hd; [|by rewrite is_sub_dir].
  destruct (tr_entry _ _ _ T _ _ _ _ He) as (_ & _ & x & Hx & Hp).
  rewrite lookup_shapes, Hi in Hx. injection Hx as <-.
  destruct Hp as [Hp Hn]; [by left|]. by apply (is_sub_placed d k n).
Qed.

(** A directory that is a parent of something is in the tree. *)
Lemma attached_links d j : attached (shapes m) d -> m !! d = Some j ->
  is_directory j = true /\ (d = 0 \/ iname j <> None).
Proof. intros (y & Hy & Hd & Hn) Hj. rewrite lookup_shapes, Hj in Hy. by injection Hy as <-. Qed.

(** Inodes that an unlink of [(d, n)] does not rewrite. *)
Lemma counts_unlink_other sh' d n id i c k j :
  e !! (d, n) = Some (id, c) -> m !! id = Some i -> id <> k -> m !! k = Some j ->
  (forall k, nsub sh' k = nsub (shapes m) k - (if is_directory i then one d k else 0)) ->
  nlink j = exp_links sh' (delete (d, n) e) k (shape j) + (dl k + (if is_directory i then one d k else 0)) /\
  (is_directory j = true -> ecount j = nentries (delete (d, n) e) k + (de k + one d k)).
Proof.
  intros He Hi Hne Hk Hns. destruct (C k j Hk) as [Hkl Hke].
  rewrite (nentries_delete _ _ _ _ _ He). split; [|intros Hdj; specialize (Hke Hdj); lia].
  destruct (tr_entry _ _ _ T _ _ _ _ He) as (Ha & _).
  rewrite (exp_links_step _ _ k (shape j) (- (if is_directory i then one d k else 0)) (- one id k)).
  - rewrite (one_ne id k) by done. cbn. destruct (is_directory j) eqn:Hdj; [lia|].
    rewrite (one_ne d k); [destruct (is_directory i); lia|]. intros <-.
    destruct (attached_links d j Ha Hk). congruence.
  - rewrite Hns. lia.
  - rewrite (nrefs_delete _ _ _ _ _ He). lia.
  - intros _ Hz. destruct (is_directory i); [|done]. unfold one in Hz. case_decide; [|done]. subst k.
    by destruct (attached_links d j Ha Hk).
Qed.

Lemma counts_unlink_keep d n id i i' c :
  e !! (d, n) = Some (id, c) -> m !! id = Some i ->
  is_directory i' = is_directory i -> iname i' = None ->
  (is_directory i = true -> nentries e id = 0) ->
  Counts (<[id := i']> m) (delete (d, n) e)
    (fun x => de x + one d x + (ecount i' - ecount i) * one id x)
    (fun x => dl x + (if is_directory i then one d x else 0)
              + (nlink i' - nlink i + (if is_directory i then 2 else 1)) * one id x).
Proof.
  intros He Hi Hd' Hn' Hch. pose proof (tree_entry_ne _ _ _ _ He) as Hdid.
  assert (Hns : forall k, nsub (<[id := shape i']> (shapes m)) k =
                nsub (shapes m) k - (if is_directory i then one d k else 0)).
  { intros k. rewrite (nsub_insert _ _ _ (shape i)) by (by rewrite lookup_shapes, Hi).
    rewrite (unlink_subs d n id i c k He Hi), is_sub_unnamed by done. lia. }
  destruct (tr_entry _ _ _ T _ _ _ _ He) as (_ & H0 & x & Hx & Hp).
  rewrite lookup_shapes, Hi in Hx. injection Hx as <-.
  intros k j [[<- <-]|[Hne Hk]]%lookup_insert_Some; rewrite shapes_insert.
  - destruct (C id i Hi) as [Hkl Hke]. rewrite one_refl, (one_ne d id), (nentries_delete _ _ _ _ _ He) by done.
    rewrite Hd'. split; [|rewrite (one_ne d id) by done; intros Hdi; specialize (Hke Hdi); lia].
    unfold exp_links in *. cbn in *. rewrite Hd'.
    destruct (is_directory i) eqn:Hdi.
    + destruct Hp as [_ Hn]; [by left|]. cbn in Hn. rewrite Hn in Hkl.
      rewrite decide_True in Hkl by (by right). rewrite decide_False by (intros [?|?]; congruence).
      rewrite (nsub_zero nid _ e) in Hkl by (done || by apply Hch). lia.
    + rewrite (nrefs_delete _ _ _ _ _ He), one_refl. lia.
  - destruct (counts_unlink_other (<[id := shape i']> (shapes m)) d n id i c k j He Hi Hne Hk Hns) as [Hl Hce].
    rewrite (one_ne id k) by done. split; [|intros Hdj; specialize (Hce Hdj)]; lia.
Qed.

Lemma counts_unlink_drop d n id i c :
  e !! (d, n) = Some (id, c) -> m !! id = Some i ->
  Counts (delete id m) (delete (d, n) e)
    (fun x => de x + one d x) (fun x => dl x + (if is_directory i then one d x else 0)).
Proof.
  intros He Hi k j [Hne Hk]%lookup_delete_Some. rewrite shapes_delete.
  apply (counts_unlink_other (delete id (shapes m)) d n id i c k j); auto.
  intros k'. rewrite (nsub_delete _ _ (shape i)) by (by rewrite lookup_shapes, Hi).
  by rewrite (unlink_subs d n id i c k' He Hi).
Qed.

Lemma counts_reclaim id i :
  m !! id = Some i -> (is_directory i = true -> iname i = None) -> Counts (delete id m) e de dl.
Proof.
  intros Hi Hn k j [Hne Hk]%lookup_delete_Some. destruct (C k j Hk) as [Hkl Hke]. split; [|done].
  rewrite shapes_delete, (exp_links_step _ e k (shape j) 0 0); [case_match; lia|..|lia|done].
  rewrite (nsub_delete _ _ (shape i)) by (by rewrite lookup_shapes, Hi).
  destruct (is_directory i) eqn:Hd; [rewrite is_sub_unnamed by auto|rewrite is_sub_dir by done]; lia.
Qed.

(** A moved entry. *)
Lemma counts_move d n id i i' c d' n' c' :
  e !! (d, n) = Some (id, c) -> m !! id = Some i -> attached (shapes m) d' -> d' <> id ->
  e !! (d', n') = None -> is_directory i' = is_directory i ->
  (is_directory i = true -> parent i' = Some d' /\ iname i' = Some n') ->
  Counts (<[id := i']> m) (<[(d', n') := (id, c')]> (delete (d, n) e))
    (fun x => de x + one d x - one d' x + (ecount i' - ecount i) * one id x)
    (fun x => dl x + (if is_directory i then one d x - one d' x else 0)
              + (nlink i' - nlink i) * one id x).
Proof.
  intros He Hi Ha' Hd'id Hfree Hdir Hpl. pose proof (tree_entry_ne _ _ _ _ He) as Hdid.
  destruct (tr_entry _ _ _ T _ _ _ _ He) as (Ha & H0 & x & Hx & Hp).
  rewrite lookup_shapes, Hi in Hx. injection Hx as <-.
  assert (Hfree' : delete (d, n) e !! (d', n') = None) by (apply lookup_delete_None; by right).
  assert (Hne' : forall k, nentries (<[(d', n') := (id, c')]> (delete (d, n) e)) k =
                 nentries e k - one d k + one d' k)
    by (intros k; by rewrite nentries_insert, (nentries_delete _ _ _ _ _ He)).
  assert (Hnr : forall k, nrefs (<[(d', n') := (id, c')]> (delete (d, n) e)) k = nrefs e k + 0)
    by (intros k; rewrite nrefs_insert, (nrefs_delete _ _ _ _ _ He) by done; lia).
  assert (Hns : forall k, nsub (<[id := shape i']> (shapes m)) k = nsub (shapes m) k +
                (if is_directory i then one d' k - one d k else 0)).
  { intros k. rewrite (nsub_insert _ _ _ (shape i)) by (by rewrite lookup_shapes, Hi).
    rewrite (unlink_subs d n id i c k He Hi). destruct (is_directory i) eqn:Hdi.
    - destruct (Hpl eq_refl). rewrite (is_sub_placed d' k n') by done. lia.
    - rewrite is_sub_dir by done. lia. }
  intros k j [[<- <-]|[Hne Hk]]%lookup_insert_Some; rewrite shapes_insert, Hne'.
  - destruct (C id i Hi) as [Hkl Hke]. rewrite one_refl, (one_ne d id), (one_ne d' id), Hdir by done.
    split; [|intros Hdi; specialize (Hke Hdi); lia].
    unfold exp_links in *. cbn in *. rewrite Hdir, Hns, Hnr, (one_ne d id), (one_ne d' id) by done.
    destruct (is_directory i) eqn:Hdi; [|lia].
    destruct Hp as [_ Hn]; [by left|]. cbn in Hn. destruct (Hpl eq_refl) as [_ Hn2]. rewrite Hn in Hkl. rewrite Hn2.
    rewrite decide_True in Hkl by (by right). rewrite decide_True by (by right). lia.
  - destruct (C k j Hk) as [Hkl Hke]. rewrite (one_ne id k) by done.
    split; [|intros Hdj; specialize (Hke Hdj); lia].
    assert (Hdk : is_directory j = false -> one d k = 0 /\ one d' k = 0).
    { intros Hdj. split; apply one_ne; intros <-.
      - destruct (attached_links d j Ha Hk). congruence.
      - destruct (attached_links d' j Ha' Hk). congruence. }
    rewrite (exp_links_step _ _ k (shape j) (if is_directory i then one d' k - one d k else 0) 0); auto.
    + cbn. destruct (is_directory j) eqn:Hdj; [destruct (is_directory i); lia|].
      destruct Hdk as [-> ->]; [done|]. destruct (is_directory i); lia.
    + intros _ Hz. destruct (is_directory i); [|done]. unfold one in Hz.
      destruct (decide (d' = k)) as [->|]; [by destruct (attached_links k j Ha' Hk)|].
      destruct (decide (d = k)) as [->|]; [by destruct (attached_links k j Ha Hk)|done].
Qed.
End counts.

(** ** The invariant *)

(** The clauses that one elementary step after the other preserves, up to count
    discrepancies. *)
Record Pre (nid : Z) (de dl : Z -> Z) (db : Db) : Prop := {
  pr_tree : Tree nid (shapes (inodes db)) (entries db);
  pr_index : Index (entries db) (scans db) (cookies db);
  pr_embedded : Embedded (inodes db) (scans db);
  pr_counts : Counts (inodes db) (entries db) de dl }.

Record NsInv (nid : Z) (db : Db) : Prop := {
  ns_pre : Pre nid (fun _ => 0) (fun _ => 0) db;
  ns_orphans : forall id, id ∈ orphans db <-> exists i, inodes db !! id = Some i /\ nlink i = 0;
  ns_bounds : forall id i, inodes db !! id = Some i -> 0 <= nlink i <= U32_MAX;
  ns_room : forall d dd, inodes db !! d = Some (IDirectory dd) ->
    d_entry_count dd + COOKIE_FIRST_ENTRY <= read_cookie db d }.

Lemma pre_ext nid de dl de' dl' db :
  Pre nid de dl db -> (forall id, is_Some (inodes db !! id) -> de id = de' id /\ dl id = dl' id) ->
  Pre nid de' dl' db.
Proof. intros [] Hx. split; auto. by eapply counts_ext. Qed.

(** The database after saving [i'] and refreshing the copy in its directory entry. *)
Definition refreshed (id : Z) (i' : Inode) (db : Db) : Db :=
  match parent i', iname i' with
  | Some p, Some n =>
      match entries db !! (p, n) with
      | Some ec => with_scans <[(p, ec.2) := (n, WithInode id i')]> (with_inodes <[id := i']> db)
      | None => with_inodes <[id := i']> db
      end
  | _, _ => with_inodes <[id := i']> db
  end.

Lemma pre_refresh nid de dl db id i i' :
  Pre nid de dl db -> inodes db !! id = Some i -> shape i' = shape i ->
  Pre nid (fun x => de x + (ecount i' - ecount i) * one x id)
          (fun x => dl x + (nlink i' - nlink i) * one x id) (refreshed id i' db).
Proof.
  intros [T X M C] Hi Hs. pose proof Hs as [= Hsd Hsp Hsn].
  pose proof (counts_refresh _ _ _ _ id i i' C Hi Hs) as C'.
  assert (T' : Tree nid (shapes (<[id := i']> (inodes db))) (entries db))
    by (by rewrite (shapes_same _ id i i')).
  unfold refreshed. destruct (iname i') as [n|] eqn:Hn.
  - destruct (tr_named _ _ _ T id (shape i) n) as (p & c & Hp & He);
      [by rewrite lookup_shapes, Hi|by rewrite <- Hs|].
    cbn in Hp. rewrite Hsp, Hp, He. cbn. split; cbn; auto.
    + destruct (ix_scan _ _ _ X _ _ _ _ He) as (v & Hv & Hvid). by eapply index_reval.
    + eapply embedded_refresh; eauto; congruence.
  - assert (Hno : forall d c n j, scans db !! (d, c) <> Some (n, WithInode id j)).
    { eapply embedded_none; [done|]. intros j Hj. simplify_eq. congruence. }
    destruct (parent i'); split; cbn; auto;
      (eapply embedded_inode; [done| |done]); intros k Hk; by rewrite lookup_insert_ne.
Qed.

(** A child added at the directory's next cookie. *)
Lemma pre_new nid nid' de dl db d n id i c :
  Pre nid de dl db -> c = read_cookie db d -> c < U64_MAX -> nid <= id < nid' -> 0 <= id ->
  attached (shapes (inodes db)) d -> entries db !! (d, n) = None ->
  parent i = Some d -> iname i = Some n ->
  nlink i = (if is_directory i then 2 else 1) + dl id -> ecount i = de id ->
  Pre nid' (fun x => de x - one d x) (fun x => dl x - (if is_directory i then one d x else 0))
    (with_scans <[(d, c) := (n, WithInode id i)]> (with_entries <[(d, n) := (id, c)]>
       (with_inodes <[id := i]> (with_cookies <[d := c + 1]> db)))).
Proof.
  intros [T X M C] Hc Hlt Hid H0 Ha Hfree Hp Hn Hl He.
  assert (Hidn : inodes db !! id = None).
  { destruct (inodes db !! id) as [y|] eqn:E; [|done].
    destruct (tree_fresh _ _ _ T id id (shape y)); [lia|by rewrite lookup_shapes, E|done]. }
  split; cbn.
  - rewrite shapes_insert. apply (tree_new nid _ _ T); auto.
  - apply index_put; auto.
    + subst c. by apply index_bump.
    + subst c. by apply (index_counter_fresh (entries db) _ (cookies db)).
    + rewrite lookup_insert_eq. cbn. subst c. pose proof (index_counter_first _ _ _ X d).
      unfold read_cookie in *. lia.
  - apply embedded_put; [|cbn; intros j [= <-]; rewrite lookup_insert_eq; split; congruence].
    eapply embedded_inode; [done| |].
    + intros k Hk. by rewrite lookup_insert_ne.
    + eapply embedded_none; [done|]. intros j Hj. congruence.
  - apply (counts_new nid _ _ _ _ T C); auto; lia.
Qed.

(** No copy of an inode is left once its own scan record is gone or replaced. *)
Lemma no_copy_elsewhere (nid : Z) (de dl : Z -> Z) (db : Db) (id : Z) (i : Inode) (d : Z) (n : name) (c : Z) (s' : Scans) :
  Pre nid de dl db -> inodes db !! id = Some i -> entries db !! (d, n) = Some (id, c) ->
  (forall k v, s' !! k = Some v -> k <> (d, c) -> scans db !! k = Some v) ->
  (forall m j, s' !! (d, c) <> Some (m, WithInode id j)) ->
  forall d' c' n' j, s' !! (d', c') <> Some (n', WithInode id j).
Proof.
  intros [T X M C] Hi He Hsub Hat d' c' n' j H.
  destruct (decide ((d', c') = (d, c))) as [[= -> ->]|Hne]; [by eapply Hat|].
  apply Hsub in H; [|done]. destruct (decide (is_directory i = true \/ iname i <> None)) as [Hs|Hs].
  - destruct Hne. by eapply embedded_at.
  - eapply embedded_none; [done| |exact H]. intros i0 Hi0. simplify_eq.
    destruct (iname i); [|done]. destruct Hs. by right.
Qed.

(** The scan record of a named inode turned into a reference, as a second link does. *)
Definition dereferenced (id : Z) (i : Inode) (db : Db) : Db :=
  match parent i, iname i with
  | Some p, Some n =>
      match entries db !! (p, n) with
      | Some ec => with_scans <[(p, ec.2) := (n, Reference id)]> db
      | None => db
      end
  | _, _ => db
  end.

Lemma dereferenced_fields id i db :
  inodes (dereferenced id i db) = inodes db /\ entries (dereferenced id i db) = entries db /\
  cookies (dereferenced id i db) = cookies db /\ orphans (dereferenced id i db) = orphans db /\
  extents (dereferenced id i db) = extents db.
Proof. unfold dereferenced. by repeat case_match. Qed.

Lemma dereferenced_spec nid de dl db id i :
  Pre nid de dl db -> inodes db !! id = Some i -> is_directory i = false ->
  Pre nid de dl (dereferenced id i db) /\
  forall d c n j, scans (dereferenced id i db) !! (d, c) <> Some (n, WithInode id j).
Proof.
  intros P Hi Hd. pose proof P as [T X M C]. unfold dereferenced.
  destruct (iname i) as [n|] eqn:Hn.
  - destruct (tr_named _ _ _ T id (shape i) n) as (p & c & Hp & He); [by rewrite lookup_shapes, Hi|done|].
    cbn in Hp. rewrite Hp, He. cbn. split.
    + destruct (ix_scan _ _ _ X _ _ _ _ He) as (v & Hv & Hvid).
      split; cbn; auto; [by eapply index_reval|by apply embedded_put].
    + eapply no_copy_elsewhere; [done|done|exact He|..].
      * intros k v [[<- _]|[_ ?]]%lookup_insert_Some; done.
      * intros m j. by rewrite lookup_insert_eq.
  - assert (Hno : forall d c n j, scans db !! (d, c) <> Some (n, WithInode id j)).
    { eapply embedded_none; [done|]. intros j Hj. by simplify_eq. }
    by destruct (parent i).
Qed.

(** A further link to a non-directory, at the directory's next cookie. *)
Lemma pre_link nid de dl db d n id i i' c v :
  Pre nid de dl db -> c = read_cookie db d -> c < U64_MAX ->
  inodes db !! id = Some i -> is_directory i = false -> is_directory i' = false ->
  attached (shapes (inodes db)) d -> entries db !! (d, n) = None ->
  shape i' = mkShape false None None /\ v = Reference id \/
  shape i' = mkShape false (Some d) (Some n) /\ v = WithInode id i' /\ nrefs (entries db) id = 0 ->
  Pre nid (fun x => de x - one d x) (fun x => dl x + (nlink i' - nlink i - 1) * one id x)
    (with_scans <[(d, c) := (n, v)]> (with_entries <[(d, n) := (id, c)]>
       (with_inodes <[id := i']> (with_cookies <[d := c + 1]> (dereferenced id i db))))).
Proof.
  intros P Hc Hlt Hi Hd Hd' Ha Hfree Hv.
  destruct (dereferenced_fields id i db) as (Ei & Ee & Ek & _).
  destruct (dereferenced_spec nid de dl db id i P Hi Hd) as [[T X M C] Hno].
  rewrite Ei, Ee, Ek in *. split; cbn; rewrite ?Ei, ?Ee, ?Ek.
  - rewrite shapes_insert. apply (tree_link nid _ _ T d n id (shape i)); auto.
    + by rewrite lookup_shapes, Hi.
    + destruct Hv as [[-> _]|(-> & _ & Hz)]; [by left|right]. split; [done|].
      intros k c'. by apply nrefs_zero_inv.
  - assert (Hck : default COOKIE_FIRST_ENTRY (cookies db !! d) = c) by (by subst c).
    apply index_put; auto.
    + rewrite <- Hck. apply index_bump; [done|lia].
    + rewrite <- Hck. by apply (index_counter_fresh (entries db) _ (cookies db)).
    + by destruct Hv as [[_ ->]|(_ & -> & _)].
    + rewrite lookup_insert_eq. cbn. pose proof (index_counter_first _ _ _ X d). lia.
  - apply embedded_put.
    + eapply embedded_inode; [done| |done]. intros k Hk. by rewrite lookup_insert_ne.
    + destruct Hv as [[_ ->]|(Hs & -> & _)]; cbn; [done|]. intros j [= <-]. rewrite lookup_insert_eq.
      split; [done|]. injection Hs as _ _ ->. done.
  - by apply (counts_link _ _ _ _ C).
Qed.

(** An entry removed whose inode stays. *)
Lemma pre_unlink_keep nid de dl db d n id i i' c :
  Pre nid de dl db -> entries db !! (d, n) = Some (id, c) -> inodes db !! id = Some i ->
  is_directory i' = is_directory i -> iname i' = None ->
  (if is_directory i then parent i' = parent i /\ nentries (entries db) id = 0 else parent i' = None) ->
  Pre nid (fun x => de x + one d x + (ecount i' - ecount i) * one id x)
    (fun x => dl x + (if is_directory i then one d x else 0)
              + (nlink i' - nlink i + (if is_directory i then 2 else 1)) * one id x)
    (with_scans (delete (d, c)) (with_entries (delete (d, n)) (with_inodes <[id := i']> db))).
Proof.
  intros P He Hi Hd' Hn' Hp'. pose proof P as [T X M C]. split; cbn.
  - rewrite shapes_insert. apply (tree_unlink_keep nid _ _ T d n id (shape i) (shape i') c); auto.
    + by rewrite lookup_shapes, Hi.
    + cbn. destruct (is_directory i); [|done]. destruct Hp' as [? Hz]. split; [done|].
      intros m v. by apply nentries_zero_inv.
  - by eapply index_unlink.
  - eapply embedded_inode; [by apply embedded_del| |].
    + intros k Hk. by rewrite lookup_insert_ne.
    + eapply no_copy_elsewhere; [done|done|exact He|..].
      * by intros k v [_ ?]%lookup_delete_Some.
      * intros m j. by rewrite lookup_delete_eq.
  - apply (counts_unlink_keep nid _ _ _ _ T C d n id i i' c); auto. intros Hdi. rewrite Hdi in Hp'. tauto.
Qed.

(** An entry removed together with its inode; a directory's cookie counter goes too. *)
Lemma pre_unlink_drop nid de dl db d n id i c (dk : bool) :
  Pre nid de dl db -> entries db !! (d, n) = Some (id, c) -> inodes db !! id = Some i ->
  nrefs (entries db) id = 1 -> nentries (entries db) id = 0 ->
  Pre nid (fun x => de x + one d x) (fun x => dl x + (if is_directory i then one d x else 0))
    (with_scans (delete (d, c)) (with_entries (delete (d, n))
       (with_cookies (if dk then delete id else fun k => k) (with_inodes (delete id) db)))).
Proof.
  intros P He Hi Hone Hz. pose proof P as [T X M C].
  assert (Hch : forall m v, entries db !! (id, m) <> Some v) by (intros m v; by apply nentries_zero_inv).
  split; cbn.
  - rewrite shapes_delete. eapply tree_unlink_drop; [done|exact He| |done].
    intros k c' Hk. by eapply nrefs_one_inv.
  - assert (Xu : Index (delete (d, n) (entries db)) (delete (d, c) (scans db)) (cookies db))
      by (by eapply index_unlink).
    destruct dk; [|done]. apply index_drop_counter; [done|].
    intros m v [_ Hv]%lookup_delete_Some. by eapply Hch.
  - eapply embedded_inode; [by apply embedded_del| |].
    + intros k Hk. by rewrite lookup_delete_ne.
    + eapply no_copy_elsewhere; [done|done|exact He|..].
      * by intros k v [_ ?]%lookup_delete_Some.
      * intros m j. by rewrite lookup_delete_eq.
  - by apply (counts_unlink_drop nid _ _ _ _ T C d n id i c).
Qed.

(** An orphan reclaimed: no entry changes. *)
Lemma pre_reclaim nid de dl db id i (dk : bool) :
  Pre nid de dl db -> inodes db !! id = Some i -> id <> 0 ->
  nrefs (entries db) id = 0 -> nentries (entries db) id = 0 ->
  Pre nid de dl (with_cookies (if dk then delete id else fun k => k) (with_inodes (delete id) db)).
Proof.
  intros [T X M C] Hi H0 Href Hz.
  assert (Hno : forall k c, entries db !! k <> Some (id, c)) by (intros k c; by apply nrefs_zero_inv).
  assert (Hch : forall m v, entries db !! (id, m) <> Some v) by (intros m v; by apply nentries_zero_inv).
  assert (Hun : iname i = None).
  { destruct (iname i) as [n|] eqn:E; [|done].
    destruct (tr_named _ _ _ T id (shape i) n) as (p & c & _ & He); [by rewrite lookup_shapes, Hi|done|].
    by destruct (Hno (p, n) c). }
  split; cbn.
  - rewrite shapes_delete. eapply tree_reclaim; [done| |done|done|done]. by rewrite lookup_shapes, Hi.
  - destruct dk; [|done]. by apply index_drop_counter.
  - eapply embedded_inode; [done| |].
    + intros k Hk. by rewrite lookup_delete_ne.
    + eapply embedded_none; [done|]. intros j Hj. by simplify_eq.
  - by apply (counts_reclaim _ _ _ _ C id i).
Qed.

(** An entry moved to the free place [(d', n')] under cookie [c']: the old cookie when
    the directory stays the same, the directory's next cookie otherwise. *)
Lemma pre_move nid de dl db d n id i i' c d' n' c' v :
  Pre nid de dl db -> entries db !! (d, n) = Some (id, c) -> inodes db !! id = Some i ->
  attached (shapes (inodes db)) d' -> d' <> id -> entries db !! (d', n') = None ->
  is_directory i' = is_directory i ->
  shape i' = mkShape (is_directory i) (Some d') (Some n') /\ nrefs (entries db) id = 1 /\
    (is_directory i = true -> Avoids (shapes (inodes db)) id d') \/
  shape i' = shape i /\ shape i = mkShape false None None ->
  v = Reference id \/ v = WithInode id i' /\ iname i' <> None ->
  (d' = d /\ c' = c) \/ (d' <> d /\ c' = read_cookie db d' /\ c' < U64_MAX) ->
  Pre nid (fun x => de x + one d x - one d' x + (ecount i' - ecount i) * one id x)
    (fun x => dl x + (if is_directory i then one d x - one d' x else 0) + (nlink i' - nlink i) * one id x)
    (with_scans <[(d', c') := (n', v)]> (with_entries <[(d', n') := (id, c')]>
       (with_cookies (if decide (d' = d) then fun k => k else <[d' := c' + 1]>)
          (with_scans (delete (d, c)) (with_entries (delete (d, n)) (with_inodes <[id := i']> db)))))).
Proof.
  intros P He Hi Ha Hd'id Hfree Hdir Hsh Hv Hc. pose proof P as [T X M C].
  assert (Hfree' : delete (d, n) (entries db) !! (d', n') = None)
    by (apply lookup_delete_None; by right).
  assert (Xu : Index (delete (d, n) (entries db)) (delete (d, c) (scans db)) (cookies db))
    by (by eapply index_unlink).
  split; cbn.
  - rewrite shapes_insert.
    apply (tree_move nid _ _ T d n id (shape i) (shape i') c d' n' c'); auto; [by rewrite lookup_shapes, Hi|].
    destruct Hsh as [(-> & Hone & Hav)|[-> ->]]; [left|by right]. split_and!; auto.
    intros k c0 Hk. by eapply nrefs_one_inv.
  - apply index_put; auto.
    + destruct (decide (d' = d)); [done|]. destruct Hc as [[? _]|(_ & -> & Hlt)]; [done|].
      unfold read_cookie in *. by apply (index_bump _ _ _ Xu).
    + destruct Hc as [[-> ->]|(Hne & -> & Hlt)]; [apply lookup_delete_eq|].
      by apply (index_counter_fresh _ _ _ Xu).
    + by destruct Hv as [->|[-> _]].
    + destruct Hc as [[-> ->]|(Hne & -> & Hlt)].
      * rewrite decide_True by done. by apply (ix_cookie _ _ _ X) in He.
      * rewrite decide_False, lookup_insert_eq by done. cbn.
        pose proof (index_counter_first _ _ _ X d'). unfold read_cookie. lia.
  - apply embedded_put.
    + eapply embedded_inode; [by apply embedded_del| |].
      * intros k Hk. by rewrite lookup_insert_ne.
      * eapply no_copy_elsewhere; [done|done|exact He|..].
        -- by intros k w [_ ?]%lookup_delete_Some.
        -- intros m j. by rewrite lookup_delete_eq.
    + destruct Hv as [->|[-> Hn]]; cbn; [done|]. intros j [= <-]. by rewrite lookup_insert_eq.
  - apply (counts_move nid _ _ _ _ T C d n id i i' c d' n' c'); auto.
    intros Hdi. destruct Hsh as [([= _ ? ?] & _)|[_ [= Hf _ _]]]; [done|congruence].
Qed.

(** ** Consequences used by the operations *)

Section inv.
Context (nid : Z) (db : Db) (Inv : NsInv nid db).

Lemma inv_tree : Tree nid (shapes (inodes db)) (entries db).
Proof. apply Inv. Qed.

(** What an entry tells about its inode and its directory. *)
Lemma inv_entry d n id c :
  entries db !! (d, n) = Some (id, c) ->
  attached (shapes (inodes db)) d /\ id <> 0 /\ d <> id /\
  exists i, inodes db !! id = Some i /\ 0 < nlink i /\
    (is_directory i = true \/ iname i <> None -> parent i = Some d /\ iname i = Some n).
Proof.
  intros He. destruct (ns_pre _ _ Inv) as [T X M C].
  destruct (tr_entry _ _ _ T _ _ _ _ He) as (Ha & H0 & x & Hx & Hp).
  rewrite lookup_shapes in Hx. destruct (inodes db !! id) as [i|] eqn:Hi; [|done]. injection Hx as <-.
  split_and!; auto; [by eapply tree_entry_ne|]. exists i. split_and!; auto.
  destruct (C id i Hi) as [-> _]. unfold exp_links. cbn. destruct (is_directory i) eqn:Hd.
  - rewrite decide_True by (right; destruct Hp as [_ Hn]; [by left|]; cbn in Hn; congruence).
    assert (0 <= nsub (shapes (inodes db)) id) by apply mcount_nonneg. lia.
  - assert (0 < nrefs (entries db) id).
    { eapply mcount_pos; [exact He|]. cbn. by apply bool_decide_eq_true. } lia.
Qed.

Lemma inv_links id i : inodes db !! id = Some i ->
  nlink i = exp_links (shapes (inodes db)) (entries db) id (shape i).
Proof. intros Hi. destruct (pr_counts _ _ _ _ (ns_pre _ _ Inv) id i Hi) as [-> _]. lia. Qed.
Lemma inv_ecount id i : inodes db !! id = Some i -> is_directory i = true ->
  ecount i = nentries (entries db) id.
Proof. intros Hi Hd. destruct (pr_counts _ _ _ _ (ns_pre _ _ Inv) id i Hi) as [_ H]. rewrite H by done. lia. Qed.

(** Liveness of a directory is being in the tree. *)
Lemma inv_live_dir d dd : inodes db !! d = Some (IDirectory dd) ->
  d_nlink dd <> 0 <-> attached (shapes (inodes db)) d.
Proof.
  intros Hd. pose proof (inv_links d _ Hd) as Hl. unfold exp_links in Hl. cbn in Hl.
  assert (0 <= nsub (shapes (inodes db)) d) by apply mcount_nonneg. split.
  - intros Hn. exists (shape (IDirectory dd)). rewrite lookup_shapes, Hd. split_and!; [done..|].
    destruct (decide (d = 0 \/ d_name dd <> None)) as [Hc|Hc]; [done|lia].
  - intros (x & Hx & _ & Hc). rewrite lookup_shapes, Hd in Hx. injection Hx as <-. cbn in Hc.
    rewrite decide_True in Hl by done. lia.
Qed.

(** A non-directory with one link has one entry; with none it has no entry. *)
Lemma inv_nrefs id i : inodes db !! id = Some i -> is_directory i = false ->
  nrefs (entries db) id = nlink i.
Proof. intros Hi Hd. rewrite (inv_links id i Hi). unfold exp_links. cbn. by rewrite Hd. Qed.

Lemma inv_named id i n : inodes db !! id = Some i -> iname i = Some n ->
  exists p c, parent i = Some p /\ entries db !! (p, n) = Some (id, c) /\ nrefs (entries db) id = 1.
Proof.
  intros Hi Hn. destruct (tr_named _ _ _ inv_tree id (shape i) n) as (p & c & Hp & He);
    [by rewrite lookup_shapes, Hi|done|]. exists p, c. split_and!; auto.
  apply (nrefs_named nid _ _ _ (shape i) n inv_tree); [|done]. by rewrite lookup_shapes, Hi.
Qed.

Lemma inv_unnamed id i : inodes db !! id = Some i -> is_directory i = false -> iname i = None ->
  parent i = None.
Proof.
  intros Hi Hd Hn. apply (tr_unnamed _ _ _ inv_tree id (shape i)); auto. by rewrite lookup_shapes, Hi.
Qed.
End inv.

(** ** Per-inode conditions

    Everything of the invariant beside [Pre] is a condition on each inode alone. *)

Definition Sound (o : gset Z) (ks : gmap Z Z) (id : Z) (i : Inode) : Prop :=
  (id ∈ o <-> nlink i = 0) /\ 0 <= nlink i <= U32_MAX /\
  (is_directory i = true -> ecount i + COOKIE_FIRST_ENTRY <= default COOKIE_FIRST_ENTRY (ks !! id)).

Lemma ns_sound nid db id i : NsInv nid db -> inodes db !! id = Some i ->
  Sound (orphans db) (cookies db) id i.
Proof.
  intros Inv Hi. split_and!.
  - rewrite (ns_orphans _ _ Inv). split; [|eauto]. intros (j & Hj & Hz). rewrite Hi in Hj. by injection Hj as <-.
  - by eapply ns_bounds.
  - by eapply ns_bounds.
  - destruct i as [|dd| | | | |]; try done. intros _. by apply (ns_room _ _ Inv).
Qed.

Lemma ns_orphan_some nid db id : NsInv nid db -> id ∈ orphans db -> is_Some (inodes db !! id).
Proof. intros Inv (i & Hi & _)%(ns_orphans _ _ Inv). eauto. Qed.

Lemma ns_intro nid db :
  Pre nid (fun _ => 0) (fun _ => 0) db ->
  (forall id i, inodes db !! id = Some i -> Sound (orphans db) (cookies db) id i) ->
  (forall id, id ∈ orphans db -> is_Some (inodes db !! id)) -> NsInv nid db.
Proof.
  intros P S O. split; auto.
  - intros id. split; [|intros (i & Hi & Hz); by apply (S id i Hi)].
    intros Ho. destruct (O id Ho) as [i Hi]. exists i. split; [done|]. by apply (S id i Hi).
  - intros id i Hi. by destruct (S id i Hi) as (_ & ? & _).
  - intros d dd Hd. destruct (S d _ Hd) as (_ & _ & H). by apply H.
Qed.

(** The condition depends on the orphan set and the counters only at its own id. *)
Lemma sound_frame o ks o' ks' id i :
  Sound o ks id i -> (id ∈ o' <-> id ∈ o) -> ks' !! id = ks !! id -> Sound o' ks' id i.
Proof. unfold Sound. intros (? & ? & ?) Ho ->. split_and!; auto; tauto. Qed.

(** Cookie counters start at the first entry cookie. *)
Lemma cookie_ge nid db d : NsInv nid db ->
  COOKIE_FIRST_ENTRY <= default COOKIE_FIRST_ENTRY (cookies db !! d) <= U64_MAX.
Proof.
  intros Inv. destruct (cookies db !! d) as [c|] eqn:E; [|done].
  by apply (ix_counter _ _ _ (pr_index _ _ _ _ (ns_pre _ _ Inv)) d).
Qed.

(** An id at or above the allocator is unused. *)
Lemma ns_fresh nid db id : NsInv nid db -> nid <= id -> inodes db !! id = None /\ id ∉ orphans db.
Proof.
  intros Inv Hle. assert (H : inodes db !! id = None).
  { destruct (inodes db !! id) as [i|] eqn:Hi; [|done].
    destruct (tr_ids _ _ _ (ns_pre _ _ Inv).(pr_tree _ _ _ _) id (shape i)); [|lia]. by rewrite lookup_shapes, Hi. }
  split; [done|]. intros [i Hi]%(ns_orphan_some _ _ _ Inv). by rewrite H in Hi.
Qed.
