(* ===== verification/Commit.v ===== *)
(** * The commit worker

    [fs/write_coordinator.rs] with the usage counters of [fs/stats.rs]: a batch of
    queued transactions is merged into one atomic write, together with the inode
    allocation watermark, the statistics shards and the segment counters that the
    batch changes; then the results, counters and settlements are published.

    [FS] is the process state the operations share.  Everything outside the process
    that decides a batch's fate (database reads, the replication peer, the local
    write, the flush of a synchronous mount) is the [Outcome] argument. *)

From S2P Require Import Prelude Errors Segment Quota Inode Dedup Store.

(** ** Usage statistics *)

(** [size_delta]: the signed difference clamped to [i64::MAX] in magnitude. *)
Definition size_delta (old_size new_size : Z) : Z :=
  if old_size <=? new_size
  then (if new_size - old_size <=? I64_MAX then new_size - old_size else I64_MAX)
  else (if old_size - new_size <=? I64_MAX then - (old_size - new_size) else - I64_MAX).

Definition shard_of (inode_id : Z) : Z := inode_id mod STATS_SHARDS.

Definition shard_get (m : gmap Z (Z * Z)) (s : Z) : Z * Z := default (0, 0) (m !! s).

(** [FileSystemGlobalStats::stage_delta]. *)
Definition stage_delta (mem : gmap Z (Z * Z)) (s bytes inodes : Z) : Z * Z :=
  (sat_add_signed (shard_get mem s).1 bytes, sat_add_signed (shard_get mem s).2 inodes).

(** [get_totals]. *)
Definition get_totals (mem : gmap Z (Z * Z)) : Z * Z :=
  foldl (fun acc s => (acc.1 + (shard_get mem s).1, acc.2 + (shard_get mem s).2)) (0, 0)
    (seqZ 0 STATS_SHARDS).

(** ** Process state *)

Record FS := mkFS {
  fs_db : Db;
  next_id : Z;                    (* InodeStore::next_id *)
  last_emitted : Z;               (* worker_loop::last_emitted_counter *)
  mem_shards : gmap Z (Z * Z);    (* FileSystemGlobalStats::shards *)
  fs_dedup : Inner;
  fs_quota : LogicalQuota;
  open_handles : gmap Z Z;
  reclaim_queue : list Z }.

Definition set_db (d : Db) (f : FS) : FS :=
  mkFS d (next_id f) (last_emitted f) (mem_shards f) (fs_dedup f) (fs_quota f) (open_handles f) (reclaim_queue f).
Definition set_next_id (n : Z) (f : FS) : FS :=
  mkFS (fs_db f) n (last_emitted f) (mem_shards f) (fs_dedup f) (fs_quota f) (open_handles f) (reclaim_queue f).
Definition set_last_emitted (n : Z) (f : FS) : FS :=
  mkFS (fs_db f) (next_id f) n (mem_shards f) (fs_dedup f) (fs_quota f) (open_handles f) (reclaim_queue f).
Definition set_mem_shards (m : gmap Z (Z * Z)) (f : FS) : FS :=
  mkFS (fs_db f) (next_id f) (last_emitted f) m (fs_dedup f) (fs_quota f) (open_handles f) (reclaim_queue f).
Definition set_fs_dedup (d : Inner) (f : FS) : FS :=
  mkFS (fs_db f) (next_id f) (last_emitted f) (mem_shards f) d (fs_quota f) (open_handles f) (reclaim_queue f).
Definition set_fs_quota (q : LogicalQuota) (f : FS) : FS :=
  mkFS (fs_db f) (next_id f) (last_emitted f) (mem_shards f) (fs_dedup f) q (open_handles f) (reclaim_queue f).
Definition set_open_handles (h : gmap Z Z) (f : FS) : FS :=
  mkFS (fs_db f) (next_id f) (last_emitted f) (mem_shards f) (fs_dedup f) (fs_quota f) h (reclaim_queue f).
Definition set_reclaim_queue (q : list Z) (f : FS) : FS :=
  mkFS (fs_db f) (next_id f) (last_emitted f) (mem_shards f) (fs_dedup f) (fs_quota f) (open_handles f) q.

(** [InodeStore::allocate]. *)
Definition allocate (f : FS) : Z * FS := (next_id f, set_next_id (u64_wrap (next_id f + 1)) f).

(** ** Settlements *)

(** [CommitSettlement]: what the worker settles with the batch's canonical result.  Of the
    settlement of a write ([PostCommitSettlement]) this is the quota; the tail cache and
    the extents it owns are settled in [Volume]. *)
Inductive Settlement :=
| SettleNone
| SettleWrite (quota : list Reservation)
| SettleQuota (q : QuotaSettlement)
| SettleDeferred (inode_id : Z).

Definition settle (s : Settlement) (ok : bool) (f : FS) : FS :=
  match s with
  | SettleNone => f
  | SettleWrite rs =>
      set_fs_quota (foldl (fun q r => settle_finish (Growth r) ok q) (fs_quota f) rs) f
  | SettleQuota q => set_fs_quota (settle_finish q ok (fs_quota f)) f
  | SettleDeferred id => if ok then set_reclaim_queue (reclaim_queue f ++ [id]) f else f
  end.

(** ** One batch *)

(** [PendingWriteRequest]: a claimed write request carried beside its transaction. *)
Record PendingWriteRequest := mkPending {
  pw_op : OpId;
  pw_request : WriteRequestReplay;
  pw_claim : option nat }.

Definition drop_pending (p : PendingWriteRequest) (d : Inner) : Inner :=
  drop_pending_write (pw_op p) (pw_claim p) d.

(** A queued request: its transaction, the write request carried beside it (if any) and
    its settlement. *)
Record Request := mkRequest {
  rq_txn : Transaction;
  rq_write : option PendingWriteRequest;
  rq_settlement : Settlement }.

Inductive Outcome :=
| Applied (flush : result FsError unit)   (* written; the flush of a synchronous mount *)
| UnreadablePreimage (e : FsError)        (* derive_byte_deltas failed *)
| UnreadableSegcount (e : FsError)        (* stage_seg_deltas failed *)
| Deposed                                 (* the standby rejected the ship *)
| ApplyFailed.                            (* the local write failed *)

(** A write request without a matching dedup entry. *)
Definition invalid_request (r : Request) : bool :=
  match tx_dedup (rq_txn r), rq_write r with
  | Some (op, _), Some p => bool_decide (op <> pw_op p)
  | None, Some _ => true
  | _, None => false
  end.

Definition inode_updates (batch : list Request) : gmap Z (option Inode) :=
  foldl (fun m r => foldl (fun m u => <[u.1 := u.2]> m) m (tx_inodes (rq_txn r))) ∅ batch.

(** [entry.or_default(); entry.0.saturating_add(b); entry.1.saturating_add(n)]. *)
Definition bump {K} `{Countable K} (k : K) (d : Z * Z) (m : gmap K (Z * Z)) : gmap K (Z * Z) :=
  let old := default (0, 0) (m !! k) in
  <[k := (sat_add_i64 old.1 d.1, sat_add_i64 old.2 d.2)]> m.

Definition count_deltas (batch : list Request) : gmap Z (Z * Z) :=
  foldl (fun m r => foldl (fun m d => bump (shard_of d.1) (0, d.2) m) m (tx_stats (rq_txn r))) ∅ batch.
Definition seg_deltas (batch : list Request) : gmap Segid (Z * Z) :=
  foldl (fun m r => foldl (fun m d => bump d.1 d.2 m) m (tx_segs (rq_txn r))) ∅ batch.

(** [InodeStore::committed_byte_usage]. *)
Definition inode_size (i : option Inode) : Z :=
  match i with Some (IFile f) => f_size f | _ => 0 end.

(** [derive_byte_deltas]: the delta of one updated inode, then of the whole batch. *)
Definition byte_delta (db : Db) (u : Z * option Inode) : option (Z * Z) :=
  match u.2 with
  | Some (IFile _) | None =>
      let d := size_delta (inode_size (inodes db !! u.1)) (inode_size u.2) in
      if d =? 0 then None else Some (u.1, d)
  | Some _ => None
  end.
Definition derive_byte_deltas (db : Db) (updates : gmap Z (option Inode)) : list (Z * Z) :=
  omap (byte_delta db) (map_to_list updates).

Definition shard_deltas (db : Db) (batch : list Request) : gmap Z (Z * Z) :=
  foldl (fun m d => bump (shard_of d.1) (d.2, 0) m) (count_deltas batch)
    (derive_byte_deltas db (inode_updates batch)).

Definition staged_shards (f : FS) (batch : list Request) : list (Z * (Z * Z)) :=
  map (fun e => (e.1, stage_delta (mem_shards f) e.1 e.2.1 e.2.2))
    (map_to_list (shard_deltas (fs_db f) batch)).

(** [stage_seg_deltas]: absolute counters, [live] clamped at zero and [total]
    monotonic; both are [u64]. *)
Definition staged_segs (db : Db) (batch : list Request) : list (Segid * (Z * Z)) :=
  map (fun e => let cur := default (0, 0) (segcounts db !! e.1) in
                (e.1, (u64_wrap (Z.max (cur.1 + e.2.1) 0), u64_wrap (Z.max (cur.2 + e.2.2) cur.2))))
    (map_to_list (seg_deltas batch)).

Definition batch_ops (batch : list Request) : list TxOp :=
  concat (map (fun r => tx_ops (rq_txn r)) batch).
Definition batch_dedup (batch : list Request) : list (OpId * DedupResult * option PendingWriteRequest) :=
  omap (fun r => e ← tx_dedup (rq_txn r); Some (e, rq_write r)) batch.

(** Publishing one result; a write request is recorded with it and then dropped. *)
Definition record_one (retention instant : Z) (d : Inner)
    (e : OpId * DedupResult * option PendingWriteRequest) : Inner :=
  match e.2 with
  | Some p =>
      drop_pending p (record_entry_with_write_request e.1.1 e.1.2 (Some (pw_request p)) false
                        retention instant d).2
  | None => record_entry e.1.1 e.1.2 retention instant d
  end.

Definition counter_staged (f : FS) : bool := last_emitted f <? next_id f.

(** The merged [WriteBatch]. *)
Definition merged_ops (f : FS) (batch : list Request) : list TxOp :=
  batch_ops batch
  ++ (if counter_staged f then [PutCounter (next_id f)] else [])
  ++ map (fun e => PutShard e.1 e.2) (staged_shards f batch)
  ++ map (fun e => PutSegcount e.1 e.2) (staged_segs (fs_db f) batch).

Definition settle_all (batch : list Request) (ok : bool) (f : FS) : FS :=
  foldl (fun f r => settle (rq_settlement r) ok f) f batch.

(** A batch that is not applied: its write requests are dropped, its replies settled. *)
Definition drop_requests (batch : list Request) (d : Inner) : Inner :=
  foldl (fun d r => match rq_write r with Some p => drop_pending p d | None => d end) d batch.
Definition fail_batch (batch : list Request) (f : FS) : FS :=
  settle_all batch false (set_fs_dedup (drop_requests batch (fs_dedup f)) f).

Definition burn (staged : bool) (f : FS) : FS := if staged then (allocate f).2 else f.

(** The part of the turn after the batch has been written: results, counters and
    settlements are published, then a synchronous mount flushes. *)
Definition publish_batch (retention instant : Z) (flush : result FsError unit)
    (batch : list Request) (f : FS) : result FsError unit * FS :=
  let staged := counter_staged f in
  let ops := merged_ops f batch in
  let f1 := if staged then set_last_emitted (next_id f) f else f in
  let f2 := set_db (apply_ops (fs_db f) ops) f1 in
  let f3 := set_fs_dedup (foldl (record_one retention instant) (fs_dedup f2) (batch_dedup batch)) f2 in
  let f4 := set_mem_shards (foldl (fun m e => <[e.1 := e.2]> m) (mem_shards f3)
                              (staged_shards f batch)) f3 in
  let f5 := settle_all batch true f4 in
  let result := if bool_decide (ops <> []) then flush else Ok tt in
  (result, burn (staged && negb (is_ok result)) f5).

(** One turn of [worker_loop] over a drained batch: the reply every request of the
    batch receives, and the new state. *)
Definition process_batch (retention instant : Z) (o : Outcome) (batch : list Request) (f : FS)
  : result FsError unit * FS :=
  let staged := counter_staged f in
  let f1 := if staged then set_last_emitted (next_id f) f else f in
  let any_ops := bool_decide (merged_ops f batch <> []) in
  let has_work := any_ops || bool_decide (batch_dedup batch <> []) in
  if existsb invalid_request batch then (Err InvalidData, fail_batch batch f)
  else
    match o with
    | UnreadablePreimage e => (Err e, fail_batch batch f)
    | UnreadableSegcount e => (Err e, fail_batch batch (burn staged f1))
    | Deposed =>
        if has_work then (Err LeaderRejectedBeforeApply, fail_batch batch (burn staged f1))
        else publish_batch retention instant (Ok tt) batch f
    | ApplyFailed =>
        if any_ops then (Err IoError, burn staged (fail_batch batch f1))
        else publish_batch retention instant (Ok tt) batch f
    | Applied flush => publish_batch retention instant flush batch f
    end.

(** Whether the turn writes the batch, which is what its settlements are told. *)
Definition batch_written (o : Outcome) (batch : list Request) (f : FS) : bool :=
  let any_ops := bool_decide (merged_ops f batch <> []) in
  let has_work := any_ops || bool_decide (batch_dedup batch <> []) in
  negb (existsb invalid_request batch) &&
  match o with
  | UnreadablePreimage _ | UnreadableSegcount _ => false
  | Deposed => negb has_work
  | ApplyFailed => negb any_ops
  | Applied _ => true
  end.

(** [WriteCoordinator::commit_with_settlement] of one transaction, drained as a batch
    of its own. *)
Definition commit (retention instant : Z) (o : Outcome) (t : Transaction) (s : Settlement) (f : FS)
  : result FsError unit * FS :=
  process_batch retention instant o [mkRequest t None s] f.

(** ** What a batch leaves alone *)

(** The maps that only the transactions themselves write. *)
Definition core (d : Db) :=
  (inodes d, entries d, scans d, cookies d, orphans d, tombstones d, extents d).

Definition bookkeeping (op : TxOp) : Prop :=
  match op with PutSegcount _ _ | DelSegcount _ | PutShard _ _ | PutCounter _ => True | _ => False end.

Lemma core_bookkeeping l d : Forall bookkeeping l -> core (apply_ops d l) = core d.
Proof.
  intros Hl. revert d. induction Hl as [|op l Hop _ IH]; intros d; [done|].
  cbn. rewrite IH. by destruct op.
Qed.

Lemma core_ops l : forall d d', core d = core d' -> core (apply_ops d l) = core (apply_ops d' l).
Proof.
  induction l as [|op l IH]; intros d d' Hc; [done|]. cbn. apply IH. unfold core in *. simplify_eq.
  destruct op; cbn; congruence.
Qed.

Lemma merged_tail f batch :
  exists tl, merged_ops f batch = batch_ops batch ++ tl /\ Forall bookkeeping tl.
Proof.
  eexists. split; [done|]. rewrite !Forall_app. split_and!.
  - destruct (counter_staged f); repeat constructor.
  - apply Forall_forall. intros ? (? & -> & _)%list_elem_of_fmap. done.
  - apply Forall_forall. intros ? (? & -> & _)%list_elem_of_fmap. done.
Qed.

Lemma core_merged f batch d :
  core (apply_ops d (merged_ops f batch)) = core (apply_ops d (batch_ops batch)).
Proof.
  destruct (merged_tail f batch) as (tl & -> & Htl). unfold apply_ops.
  rewrite foldl_app. by apply core_bookkeeping.
Qed.

(** Projections of the state that settlements and burns do not touch. *)
Lemma settle_all_db batch ok f : fs_db (settle_all batch ok f) = fs_db f.
Proof.
  unfold settle_all. revert f. induction batch as [|r batch IH]; intros f; [done|]. cbn.
  rewrite IH. by destruct (rq_settlement r), ok.
Qed.
Lemma settle_all_next batch ok f : next_id (settle_all batch ok f) = next_id f.
Proof.
  unfold settle_all. revert f. induction batch as [|r batch IH]; intros f; [done|]. cbn.
  rewrite IH. by destruct (rq_settlement r), ok.
Qed.
Lemma settle_all_last batch ok f : last_emitted (settle_all batch ok f) = last_emitted f.
Proof.
  unfold settle_all. revert f. induction batch as [|r batch IH]; intros f; [done|]. cbn.
  rewrite IH. by destruct (rq_settlement r), ok.
Qed.
Lemma settle_all_mem batch ok f : mem_shards (settle_all batch ok f) = mem_shards f.
Proof.
  unfold settle_all. revert f. induction batch as [|r batch IH]; intros f; [done|]. cbn.
  rewrite IH. by destruct (rq_settlement r), ok.
Qed.
Lemma settle_all_dedup batch ok f : fs_dedup (settle_all batch ok f) = fs_dedup f.
Proof.
  unfold settle_all. revert f. induction batch as [|r batch IH]; intros f; [done|]. cbn.
  rewrite IH. by destruct (rq_settlement r), ok.
Qed.
Lemma settle_all_handles batch ok f : open_handles (settle_all batch ok f) = open_handles f.
Proof.
  unfold settle_all. revert f. induction batch as [|r batch IH]; intros f; [done|]. cbn.
  rewrite IH. by destruct (rq_settlement r), ok.
Qed.
Lemma burn_db b f : fs_db (burn b f) = fs_db f.
Proof. by destruct b. Qed.
Lemma burn_next b f : next_id (burn b f) = if b then u64_wrap (next_id f + 1) else next_id f.
Proof. by destruct b. Qed.
Lemma burn_last b f : last_emitted (burn b f) = last_emitted f.
Proof. by destruct b. Qed.
Lemma burn_mem b f : mem_shards (burn b f) = mem_shards f.
Proof. by destruct b. Qed.
Lemma burn_dedup b f : fs_dedup (burn b f) = fs_dedup f.
Proof. by destruct b. Qed.
Lemma burn_quota b f : fs_quota (burn b f) = fs_quota f.
Proof. by destruct b. Qed.
Lemma burn_handles b f : open_handles (burn b f) = open_handles f.
Proof. by destruct b. Qed.

Create Rewrite HintDb fs_proj.
#[export] Hint Rewrite settle_all_db settle_all_next settle_all_last settle_all_mem settle_all_dedup
  settle_all_handles burn_db burn_next burn_last burn_mem burn_dedup burn_quota burn_handles : fs_proj.

(** The state that the worker's bookkeeping gives a batch: whether the batch was
    written, and the watermark it leaves. *)
Variant batch_spec (batch : list Request) (f : FS) : result FsError unit -> FS -> Prop :=
| batch_rejected e f' :
    fs_db f' = fs_db f -> mem_shards f' = mem_shards f ->
    fs_dedup f' = drop_requests batch (fs_dedup f) ->
    open_handles f' = open_handles f ->
    (next_id f' = next_id f /\ last_emitted f' = last_emitted f) \/
    (counter_staged f = true /\ last_emitted f' = next_id f /\ next_id f' = u64_wrap (next_id f + 1)) ->
    batch_spec batch f (Err e) f'
| batch_applied r f' :
    fs_db f' = apply_ops (fs_db f) (merged_ops f batch) ->
    mem_shards f' = foldl (fun m e => <[e.1 := e.2]> m) (mem_shards f) (staged_shards f batch) ->
    open_handles f' = open_handles f ->
    last_emitted f' = (if counter_staged f then next_id f else last_emitted f) ->
    (next_id f' = next_id f \/ counter_staged f = true /\ next_id f' = u64_wrap (next_id f + 1)) ->
    batch_spec batch f r f'.

Lemma publish_batch_spec ret inst fl batch f :
  batch_spec batch f (publish_batch ret inst fl batch f).1 (publish_batch ret inst fl batch f).2.
Proof.
  unfold publish_batch. cbn [fst snd]. apply batch_applied; autorewrite with fs_proj; cbn;
    destruct (counter_staged f); cbn; auto; repeat case_match; auto.
Qed.

Lemma process_batch_spec ret inst o batch f :
  batch_spec batch f (process_batch ret inst o batch f).1 (process_batch ret inst o batch f).2.
Proof.
  unfold process_batch, fail_batch. destruct (existsb invalid_request batch).
  { apply batch_rejected; cbn [fst snd]; autorewrite with fs_proj; cbn; autorewrite with fs_proj; auto. }
  destruct o; try apply publish_batch_spec.
  - apply batch_rejected; cbn [fst snd]; autorewrite with fs_proj; cbn; autorewrite with fs_proj; auto.
  - apply batch_rejected; cbn [fst snd]; autorewrite with fs_proj; destruct (counter_staged f); cbn; autorewrite with fs_proj; auto.
  - case_match; [|apply publish_batch_spec].
    apply batch_rejected; cbn [fst snd]; autorewrite with fs_proj; destruct (counter_staged f); cbn; autorewrite with fs_proj; auto.
  - case_match; [|apply publish_batch_spec].
    apply batch_rejected; cbn [fst snd]; autorewrite with fs_proj; destruct (counter_staged f); cbn;
      autorewrite with fs_proj; cbn; autorewrite with fs_proj; auto.
Qed.

(** The quota only depends on the settlements, and settlements on nothing else. *)
Lemma settle_all_quota batch ok f :
  fs_quota (settle_all batch ok f) =
  foldl (fun q r => match rq_settlement r with
                    | SettleNone | SettleDeferred _ => q
                    | SettleWrite rs => foldl (fun q r => settle_finish (Growth r) ok q) q rs
                    | SettleQuota s => settle_finish s ok q
                    end) (fs_quota f) batch.
Proof.
  unfold settle_all. revert f. induction batch as [|r batch IH]; intros f; [done|]. cbn.
  rewrite IH. by destruct (rq_settlement r), ok.
Qed.

Lemma process_batch_written ret inst o batch f :
  batch_written o batch f = true -> exists fl, process_batch ret inst o batch f = publish_batch ret inst fl batch f.
Proof.
  unfold batch_written, process_batch. destruct (existsb _ _); [done|]. cbn [negb andb].
  destruct o; try done; [eauto|..]; intros ->%negb_true_iff; eauto.
Qed.
Lemma process_batch_unwritten ret inst o batch f :
  batch_written o batch f = false ->
  let f' := (process_batch ret inst o batch f).2 in
  fs_db f' = fs_db f /\ fs_quota f' = fs_quota (settle_all batch false f) /\
  fs_dedup f' = drop_requests batch (fs_dedup f) /\ exists e, (process_batch ret inst o batch f).1 = Err e.
Proof.
  unfold batch_written, process_batch, fail_batch. destruct (existsb _ _); cbn [negb andb].
  { intros _. cbn. rewrite !settle_all_quota. autorewrite with fs_proj. cbn. eauto. }
  destruct o; try done; [intros _..|intros ->%negb_false_iff|intros ->%negb_false_iff]; cbn;
    rewrite !settle_all_quota; autorewrite with fs_proj; cbn;
    destruct (counter_staged f); cbn; rewrite ?settle_all_quota; autorewrite with fs_proj; eauto.
Qed.
Lemma publish_batch_state ret inst fl batch f :
  let f' := (publish_batch ret inst fl batch f).2 in
  fs_db f' = apply_ops (fs_db f) (merged_ops f batch) /\ fs_quota f' = fs_quota (settle_all batch true f) /\
  fs_dedup f' = foldl (record_one ret inst) (fs_dedup f) (batch_dedup batch).
Proof.
  unfold publish_batch. cbn [fst snd]. autorewrite with fs_proj. rewrite !settle_all_quota. cbn.
  by destruct (counter_staged f).
Qed.

(** ** The inode allocation watermark

    Boot reads the persisted counter (1 when absent) as the next id and the worker
    starts with that value as the last one emitted ([fs/boot.rs]). *)

Definition persisted_counter (d : Db) : Z := default 1 (sys_counter d).

Definition op_inode (op : TxOp) : option (Z * option Inode) :=
  match op with
  | PutInode id i => Some (id, Some i)
  | DelInode id => Some (id, None)
  | _ => None
  end.

(** A run of the allocator with its history: the ids handed out since the process started,
    the ids that inodes of this tree have ever had, and the tree of the last flush with the
    ids that its inodes had ever had. *)
Record IdRun := mkIdRun {
  ir_fs : FS;
  ir_handed : list Z;
  ir_ever : gset Z;
  ir_durable : Db * gset Z }.

(** A batch writes inodes whose ids were handed out by this process or are in use already. *)
Definition batch_ids_ok (batch : list Request) (s : IdRun) : Prop :=
  forall id i, PutInode id i ∈ batch_ops batch -> id ∈ ir_handed s \/ id ∈ ir_ever s.

Definition id_allocated (s : IdRun) : IdRun :=
  mkIdRun (allocate (ir_fs s)).2 (ir_handed s ++ [(allocate (ir_fs s)).1]) (ir_ever s) (ir_durable s).
Definition id_processed (ret inst : Z) (o : Outcome) (batch : list Request) (s : IdRun) : IdRun :=
  let f := (process_batch ret inst o batch (ir_fs s)).2 in
  mkIdRun f (ir_handed s) (ir_ever s ∪ dom (inodes (fs_db f))) (ir_durable s).
Definition id_flushed (s : IdRun) : IdRun :=
  mkIdRun (ir_fs s) (ir_handed s) (ir_ever s) (fs_db (ir_fs s), ir_ever s).

(** Allocations, batches with any outcome, flushes, and crashes: a new process opens the
    tree of the last flush and starts with its counter. *)
Inductive IdStep : IdRun -> IdRun -> Prop :=
| id_allocate s : next_id (ir_fs s) < U64_MAX -> IdStep s (id_allocated s)
| id_batch ret inst o batch s :
    next_id (ir_fs s) < U64_MAX -> batch_ids_ok batch s ->
    (forall c, PutCounter c ∉ batch_ops batch) ->
    IdStep s (id_processed ret inst o batch s)
| id_flush s : IdStep s (id_flushed s)
| id_restart s f' :
    fs_db f' = (ir_durable s).1 -> next_id f' = persisted_counter (fs_db f') -> last_emitted f' = next_id f' ->
    IdStep s (mkIdRun f' [] (ir_durable s).2 (ir_durable s)).

(** The counter of a tree is above every id its inodes ever had. *)
Record tree_ids_ok (db : Db) (ever : gset Z) : Prop := {
  ti_dom : dom (inodes db) ⊆ ever;
  ti_ever : forall id, id ∈ ever -> id < persisted_counter db;
  ti_range : 1 <= persisted_counter db <= U64_MAX }.
Record WatermarkInv (s : IdRun) : Prop := {
  wi_tree : tree_ids_ok (fs_db (ir_fs s)) (ir_ever s);
  wi_durable : tree_ids_ok (ir_durable s).1 (ir_durable s).2;
  wi_next : persisted_counter (fs_db (ir_fs s)) <= next_id (ir_fs s) <= U64_MAX;
  wi_handed : NoDup (ir_handed s) /\ forall id, id ∈ ir_handed s -> id < next_id (ir_fs s);
  wi_last : last_emitted (ir_fs s) < next_id (ir_fs s) \/
            last_emitted (ir_fs s) = next_id (ir_fs s) /\
            persisted_counter (fs_db (ir_fs s)) = next_id (ir_fs s) }.

Lemma counter_ops l d :
  (forall c, PutCounter c ∉ l) -> sys_counter (apply_ops d l) = sys_counter d.
Proof.
  revert d. induction l as [|op l IH]; intros d Hl; [done|]. cbn.
  rewrite IH by (intros c Hc; apply (Hl c); by right).
  destruct op; try done. destruct (Hl c). by left.
Qed.

Lemma inodes_ops l d id :
  is_Some (inodes (apply_ops d l) !! id) ->
  is_Some (inodes d !! id) \/ exists i, PutInode id i ∈ l.
Proof.
  revert d. induction l as [|op l IH]; intros d; [by left|]. cbn. intros [H|[i Hi]]%IH.
  - destruct op; cbn in H; try (by left).
    + destruct (decide (id = id0)) as [->|].
      * right. eexists. left.
      * rewrite lookup_insert_ne in H by done. by left.
    + left. destruct H as [x [_ ?]%lookup_delete_Some]. eauto.
  - right. exists i. by right.
Qed.

Lemma merged_counter f batch d :
  (forall c, PutCounter c ∉ batch_ops batch) ->
  sys_counter (apply_ops d (merged_ops f batch)) =
    if counter_staged f then Some (next_id f) else sys_counter d.
Proof.
  intros Hc. unfold merged_ops, apply_ops. rewrite !foldl_app.
  assert (Hm : forall A (g : A -> TxOp) l d, (forall a c, g a <> PutCounter c) ->
            sys_counter (foldl apply_op d (map g l)) = sys_counter d).
  { intros A g l d' Hg. apply counter_ops. intros c (a & E & _)%list_elem_of_fmap. by eapply Hg. }
  rewrite !Hm by done. destruct (counter_staged f); cbn; [done|]. by apply counter_ops.
Qed.

(** A batch: refused ones leave the tree, applied ones put the counter above every id
    handed out before. *)
Lemma processed_inv ret inst o batch s :
  next_id (ir_fs s) < U64_MAX -> batch_ids_ok batch s -> (forall c, PutCounter c ∉ batch_ops batch) ->
  WatermarkInv s -> WatermarkInv (id_processed ret inst o batch s).
Proof.
  intros Hlt Hb Hc [[Hdom Hever Hrange] Hdur Hnext [Hnd Hhd] Hlast].
  assert (Hw : u64_wrap (next_id (ir_fs s) + 1) = next_id (ir_fs s) + 1) by (apply u64_wrap_id; ulia).
  unfold id_processed. destruct (process_batch_spec ret inst o batch (ir_fs s)) as [e f' Hdb _ _ _ Hids'|r f' Hdb _ _ Hle Hnx];
    cbn [snd].
  - rewrite Hw in Hids'. assert (Hn' : next_id (ir_fs s) <= next_id f' <= U64_MAX) by (destruct Hids' as [[??]|(?&?&?)]; lia).
    split; cbn; rewrite ?Hdb; try done.
    + replace (ir_ever s ∪ dom (inodes (fs_db (ir_fs s)))) with (ir_ever s) by set_solver. by split.
    + lia.
    + split; [done|]. intros id Hid%Hhd. lia.
    + destruct Hids' as [[??]|(?&?&?)]; lia.
  - rewrite Hw in Hnx.
    assert (Hpn : persisted_counter (fs_db f') = next_id (ir_fs s)).
    { unfold persisted_counter at 1. rewrite Hdb, merged_counter by done. unfold counter_staged. cbn.
      destruct (Z.ltb_spec (last_emitted (ir_fs s)) (next_id (ir_fs s))); [done|]. fold (persisted_counter (fs_db (ir_fs s))). lia. }
    assert (Hnew : forall id, id ∈ dom (inodes (fs_db f')) -> id < next_id (ir_fs s)).
    { intros id Hid%elem_of_dom. rewrite Hdb in Hid. pose proof (core_merged (ir_fs s) batch (fs_db (ir_fs s))) as Hcm.
      unfold core in Hcm. injection Hcm as Hin. rewrite Hin in Hid.
      apply inodes_ops in Hid as [Hid|[i Hi]]; [|destruct (Hb _ _ Hi) as [?%Hhd|?%Hever]; lia].
      apply elem_of_dom, Hdom, Hever in Hid. lia. }
    split; cbn; rewrite ?Hpn; try done.
    + split; rewrite ?Hpn; [set_solver| |lia]. intros id [Hid%Hever|Hid%Hnew]%elem_of_union; lia.
    + lia.
    + split; [done|]. intros id Hid%Hhd. lia.
    + rewrite Hle. unfold counter_staged. destruct (Z.ltb_spec (last_emitted (ir_fs s)) (next_id (ir_fs s))); lia.
Qed.

Lemma IdStep_inv s s' : WatermarkInv s -> IdStep s s' -> WatermarkInv s'.
Proof.
  intros Inv Hs. destruct Hs as [s Hlt|ret inst o batch s Hlt Hb Hc|s|s f' Hdb Hn Hl]; [|by apply processed_inv|..];
    destruct Inv as [Htree Hdur Hnext [Hnd Hhd] Hlast]; split; cbn; try done.
  - rewrite u64_wrap_id by (destruct Htree; ulia). lia.
  - rewrite u64_wrap_id by (destruct Htree; ulia). split.
    + apply NoDup_app. split_and!; [done| |apply NoDup_singleton]. intros id Hid%Hhd ->%list_elem_of_singleton. lia.
    + intros id [Hid%Hhd| ->%list_elem_of_singleton]%elem_of_app; lia.
  - rewrite u64_wrap_id by (destruct Htree; ulia). lia.
  - by rewrite Hdb.
  - rewrite Hn, Hdb. pose proof (ti_range _ _ Hdur). lia.
  - split; [constructor|]. by intros id ?%not_elem_of_nil.
  - right. split; congruence.
Qed.

(** A fresh volume as far as allocation is concerned. *)
Definition watermark_boot (f : FS) : Prop :=
  sys_counter (fs_db f) = None /\ next_id f = 1 /\ last_emitted f = 1 /\ dom (inodes (fs_db f)) ⊆ {[0]}.
Definition id_boot (f : FS) : IdRun :=
  mkIdRun f [] (dom (inodes (fs_db f))) (fs_db f, dom (inodes (fs_db f))).

(** C22: inode ids are never reused.  Along every run of allocations, batches with any
    outcome (unreadable pre-images or counters, deposition, failed writes, failed flushes),
    flushes, and crashes with a restart from the tree of the last flush: a process never
    hands out an id twice, the next id was never handed out by this process and was never
    the id of an inode of this tree, deleted ones included, and so is the id with which a
    process would start that opened this tree, or the tree of the last flush. *)
Theorem inode_ids_fresh f0 s :
  watermark_boot f0 -> rtc IdStep (id_boot f0) s ->
  let '(next, _) := allocate (ir_fs s) in
  let '(durable, durable_ever) := ir_durable s in
  NoDup (ir_handed s) /\ (next ∉ ir_handed s) /\ (next ∉ ir_ever s) /\
  dom (inodes (fs_db (ir_fs s))) ⊆ ir_ever s /\ (persisted_counter (fs_db (ir_fs s)) ∉ ir_ever s) /\
  dom (inodes durable) ⊆ durable_ever /\ (persisted_counter durable ∉ durable_ever).
Proof.
  intros (Hc & Hn & Hl & Hi) Hr.
  assert (Hw : WatermarkInv s).
  { assert (Hp : persisted_counter (fs_db f0) = 1) by (unfold persisted_counter; by rewrite Hc).
    assert (Ht : tree_ids_ok (fs_db f0) (dom (inodes (fs_db f0)))).
    { split; rewrite ?Hp; [done| |ulia]. intros id ->%Hi%elem_of_singleton. lia. }
    assert (H0 : WatermarkInv (id_boot f0)).
    { unfold id_boot. split; cbn [ir_fs ir_ever ir_handed ir_durable fst snd]; rewrite ?Hp, ?Hn, ?Hl;
        [exact Ht|exact Ht|ulia|split; [constructor|by intros id ?%not_elem_of_nil]|lia]. }
    clear -H0 Hr. induction Hr as [|s0 s1 s2 Hs _ IH]; [done|]. eauto using IdStep_inv. }
  destruct Hw as [[Hdom Hever _] [Hdom' Hever' _] Hnext [Hnd Hhd] _]. destruct (ir_durable s) as [db ever]. cbn in *. split_and!; try done.
  - intros ?%Hhd. lia.
  - intros ?%Hever. lia.
  - intros ?%Hever. lia.
  - intros ?%Hever'. lia.
Qed.
