(* ===== verification/Usage.v ===== *)
(** * Usage accounting

    The statistics shards are exact: the byte counter of a shard is the sum of the
    committed sizes of its files and the inode counter the number of its inodes
    (the root is not counted).  The byte dimension is derived by the commit worker
    ([derive_byte_deltas]) from the inode images a batch writes, whatever the
    callers staged; the inode dimension is staged by the callers.  *)

From S2P Require Import Prelude Errors Segment Quota Inode Dedup Store Commit.

(** ** Ground truth *)

Definition shard_bytes (m : gmap Z Inode) (s : Z) : Z :=
  msum (fun id i => if shard_of id =? s then inode_size (Some i) else 0) m.
Definition shard_count (m : gmap Z Inode) (s : Z) : Z :=
  msum (fun id i => if (shard_of id =? s) && negb (id =? 0) then 1 else 0) m.
Definition total_bytes (m : gmap Z Inode) : Z := msum (fun _ i => inode_size (Some i)) m.

(** ** The inode images a batch writes *)

(** The caches' update list repeats the inode operations of the transaction. *)
Definition mirrored (t : Transaction) : Prop := tx_inodes t = omap op_inode (tx_ops t).

Definition updates_of (l : list (Z * option Inode)) : gmap Z (option Inode) :=
  foldl (fun m u => <[u.1 := u.2]> m) ∅ l.

Definition overlay (m : gmap Z (option Inode)) (d : gmap Z Inode) : gmap Z Inode :=
  merge (fun u i => match u with Some u => u | None => i end) m d.

Lemma lookup_overlay m d id :
  overlay m d !! id = match m !! id with Some u => u | None => d !! id end.
Proof. unfold overlay. rewrite lookup_merge. by destruct (m !! id), (d !! id). Qed.

Lemma overlay_insert m d id u :
  overlay (<[id := u]> m) d = partial_alter (fun _ => u) id (overlay m d).
Proof.
  apply map_eq. intros k. rewrite lookup_overlay. destruct (decide (id = k)) as [<-|].
  - by rewrite lookup_insert_eq, lookup_partial_alter_eq.
  - by rewrite lookup_insert_ne, lookup_partial_alter_ne, lookup_overlay.
Qed.

Lemma inodes_apply_ops l d :
  inodes (apply_ops d l) = overlay (updates_of (omap op_inode l)) (inodes d).
Proof.
  induction l as [|op l IH] using rev_ind.
  - apply map_eq. intros k. rewrite lookup_overlay. unfold updates_of. cbn. by rewrite lookup_empty.
  - unfold apply_ops, updates_of in *. rewrite foldl_app, omap_app, foldl_app. cbn.
    destruct op; cbn; rewrite ?IH, ?overlay_insert; done.
Qed.

Lemma inode_updates_batch batch :
  inode_updates batch = updates_of (concat (map (fun r => tx_inodes (rq_txn r)) batch)).
Proof.
  unfold inode_updates, updates_of. generalize (∅ : gmap Z (option Inode)).
  induction batch as [|r batch IH]; intros m; [done|]. cbn. by rewrite foldl_app, IH.
Qed.

Lemma inode_updates_mirrored batch :
  Forall (fun r => mirrored (rq_txn r)) batch ->
  inode_updates batch = updates_of (omap op_inode (batch_ops batch)).
Proof.
  intros Hm. rewrite inode_updates_batch. f_equal. unfold batch_ops.
  induction Hm as [|r batch Hr _ IH]; [done|]. cbn. by rewrite omap_app, Hr, IH.
Qed.

(** A sum over inodes after an overlay. *)
Section overlay_sum.
Context (g : Z -> option Inode -> Z) (Hg : forall id, g id None = 0).

Lemma sum_partial_alter d id u :
  msum (fun k i => g k (Some i)) (partial_alter (fun _ => u) id d) =
  msum (fun k i => g k (Some i)) d - g id (d !! id) + g id u.
Proof.
  destruct u as [i|].
  - change (partial_alter _ id d) with (<[id := i]> d). destruct (d !! id) as [j|] eqn:E.
    + by rewrite (msum_insert_upd _ _ _ _ _ E).
    + rewrite msum_insert_new by done. rewrite Hg. lia.
  - change (partial_alter _ id d) with (delete id d). rewrite Hg. destruct (d !! id) as [j|] eqn:E.
    + rewrite (msum_delete _ _ _ _ E). lia.
    + rewrite msum_delete_none by done. rewrite Hg. lia.
Qed.

Lemma sum_overlay m d :
  msum (fun k i => g k (Some i)) (overlay m d) =
  msum (fun k i => g k (Some i)) d + msum (fun k u => g k u - g k (d !! k)) m.
Proof.
  induction m as [|id u m Hid IH] using map_ind.
  - rewrite msum_empty. replace (overlay ∅ d) with d; [lia|].
    apply map_eq. intros k. by rewrite lookup_overlay, lookup_empty.
  - rewrite overlay_insert, sum_partial_alter, IH, msum_insert_new by done.
    rewrite lookup_overlay, Hid. lia.
Qed.
End overlay_sum.

(** ** Aggregated deltas *)

Definition gget {K} `{Countable K} (m : gmap K (Z * Z)) (k : K) : Z * Z := default (0, 0) (m !! k).

(** Sums of the deltas that a list has for one key. *)
Definition ksum {K} `{EqDecision K} (p : Z * Z -> Z) (k : K) (l : list (K * (Z * Z))) : Z :=
  foldr (fun d acc => (if decide (d.1 = k) then p d.2 else 0) + acc) 0 l.

Definition bumps {K} `{Countable K} (m : gmap K (Z * Z)) (l : list (K * (Z * Z))) : gmap K (Z * Z) :=
  foldl (fun m d => bump d.1 d.2 m) m l.

Lemma ksum_app {K} `{EqDecision K} p (k : K) l1 l2 : ksum p k (l1 ++ l2) = ksum p k l1 + ksum p k l2.
Proof. unfold ksum. induction l1 as [|d l IH]; cbn; [done|]. rewrite IH. lia. Qed.

Lemma ksum_nonneg {K} `{EqDecision K} (p : Z * Z -> Z) (k : K) l :
  (forall v, 0 <= p v) -> 0 <= ksum p k l.
Proof.
  intros Hp. unfold ksum. induction l as [|x l IH]; cbn; [done|].
  specialize (Hp x.2). case_match; lia.
Qed.

Lemma bump_get {K} `{Countable K} (d : K * (Z * Z)) (m : gmap K (Z * Z)) k :
  gget (bump d.1 d.2 m) k =
  if decide (d.1 = k)
  then (sat_add_i64 (gget m k).1 d.2.1, sat_add_i64 (gget m k).2 d.2.2) else gget m k.
Proof.
  unfold gget, bump. destruct (decide (d.1 = k)) as [<-|].
  - by rewrite lookup_insert_eq.
  - by rewrite lookup_insert_ne.
Qed.

(** Without saturation, the aggregate of a key is the sum of its deltas. *)
Lemma bumps_fst {K} `{Countable K} l (m : gmap K (Z * Z)) k :
  Z.abs (gget m k).1 + ksum (fun v => Z.abs v.1) k l <= I64_MAX ->
  (gget (bumps m l) k).1 = (gget m k).1 + ksum fst k l.
Proof.
  revert m. induction l as [|d l IH]; intros m Hb.
  - unfold bumps, ksum. cbn. lia.
  - change (bumps m (d :: l)) with (bumps (bump d.1 d.2 m) l). unfold ksum in *. cbn in Hb |- *.
    pose proof (ksum_nonneg (fun v => Z.abs v.1) k l ltac:(intros; lia)) as Hn. unfold ksum in Hn.
    rewrite IH; rewrite bump_get; destruct (decide (d.1 = k)); cbn; ulia.
Qed.
Lemma bumps_snd {K} `{Countable K} l (m : gmap K (Z * Z)) k :
  Z.abs (gget m k).2 + ksum (fun v => Z.abs v.2) k l <= I64_MAX ->
  (gget (bumps m l) k).2 = (gget m k).2 + ksum snd k l.
Proof.
  revert m. induction l as [|d l IH]; intros m Hb.
  - unfold bumps, ksum. cbn. lia.
  - change (bumps m (d :: l)) with (bumps (bump d.1 d.2 m) l). unfold ksum in *. cbn in Hb |- *.
    pose proof (ksum_nonneg (fun v => Z.abs v.2) k l ltac:(intros; lia)) as Hn. unfold ksum in Hn.
    rewrite IH; rewrite bump_get; destruct (decide (d.1 = k)); cbn; ulia.
Qed.

(** Absolute values written for every key of a delta map. *)
Lemma foldl_insert_lookup {K} `{Countable K} {B} (l : list (K * B)) (m : gmap K B) k :
  NoDup l.*1 ->
  foldl (fun m e => <[e.1 := e.2]> m) m l !! k =
  match list_to_map (M := gmap K B) l !! k with Some v => Some v | None => m !! k end.
Proof.
  revert m. induction l as [|[k' v] l IH]; intros m Hn; [cbn; by rewrite lookup_empty|].
  rewrite fmap_cons, NoDup_cons in Hn. destruct Hn as [Hk Hn]. cbn. rewrite IH by done.
  destruct (decide (k' = k)) as [<-|].
  - rewrite (not_elem_of_list_to_map_1 (M := gmap K)), !lookup_insert_eq by done. done.
  - by rewrite !lookup_insert_ne.
Qed.

Lemma foldl_insert_staged {K} `{Countable K} {A B} (h : K -> A -> B) (M : gmap K A) (m : gmap K B) k :
  foldl (fun m e => <[e.1 := e.2]> m) m (map (fun e => (e.1, h e.1 e.2)) (map_to_list M)) !! k =
  match M !! k with Some d => Some (h k d) | None => m !! k end.
Proof.
  assert (Hfst : (map (fun e => (e.1, h e.1 e.2)) (map_to_list M)).*1 = (map_to_list M).*1).
  { rewrite <- list_fmap_compose. apply list_fmap_ext. done. }
  rewrite foldl_insert_lookup by (rewrite Hfst; apply NoDup_fst_map_to_list).
  destruct (M !! k) as [d|] eqn:E.
  - rewrite (elem_of_list_to_map_1 (M := gmap K) _ k (h k d)); [done|..].
    + rewrite Hfst. apply NoDup_fst_map_to_list.
    + apply list_elem_of_fmap. exists (k, d). split; [done|]. by apply elem_of_map_to_list.
  - rewrite not_elem_of_list_to_map_1; [done|]. rewrite Hfst.
    intros (x & -> & Hx)%list_elem_of_fmap. destruct x as [k' d]. apply elem_of_map_to_list in Hx. cbn in E. congruence.
Qed.

(** ** The deltas of a batch *)

Definition count_list (batch : list Request) : list (Z * (Z * Z)) :=
  map (fun d => (shard_of d.1, (0, d.2))) (concat (map (fun r => tx_stats (rq_txn r)) batch)).
Definition byte_list (db : Db) (batch : list Request) : list (Z * (Z * Z)) :=
  map (fun d => (shard_of d.1, (d.2, 0))) (derive_byte_deltas db (inode_updates batch)).

Lemma shard_deltas_bumps db batch :
  shard_deltas db batch = bumps ∅ (count_list batch ++ byte_list db batch).
Proof.
  unfold shard_deltas, bumps. rewrite foldl_app. unfold byte_list. rewrite foldl_fmap. f_equal.
  unfold count_deltas, count_list. rewrite foldl_fmap. generalize (∅ : gmap Z (Z * Z)).
  induction batch as [|r batch IH]; intros m; [done|]. cbn. by rewrite foldl_app, IH.
Qed.

Lemma ksum_count_fst p s batch : (forall v, p (0, v) = 0) -> ksum p s (count_list batch) = 0.
Proof.
  intros Hp. unfold count_list, ksum. induction (concat _) as [|d l IH]; cbn; [done|].
  rewrite IH, Hp. by case_match.
Qed.
Lemma ksum_byte_snd p s db batch : (forall v, p (v, 0) = 0) -> ksum p s (byte_list db batch) = 0.
Proof.
  intros Hp. unfold byte_list, ksum. induction (derive_byte_deltas _ _) as [|d l IH]; cbn; [done|].
  rewrite IH, Hp. by case_match.
Qed.

(** The worker's premise: an inode that had bytes is not replaced by another kind. *)
Definition kind_stable (db : Db) (m : gmap Z (option Inode)) : Prop :=
  forall id i, m !! id = Some (Some i) -> (forall f, i <> IFile f) -> inode_size (inodes db !! id) = 0.

Lemma msum_foldr {K} `{Countable K} {A} (f : K -> A -> Z) (m : gmap K A) :
  msum f m = foldr (fun e acc => f e.1 e.2 + acc) 0 (map_to_list m).
Proof.
  unfold msum. rewrite map_fold_foldr. induction (map_to_list m) as [|[k v] l IH]; cbn; [done|].
  by rewrite IH.
Qed.

Lemma size_delta_exact a b : 0 <= a <= I64_MAX -> 0 <= b <= I64_MAX -> size_delta a b = b - a.
Proof. intros. unfold size_delta. repeat case_match; lia. Qed.

(** The contribution of one updated inode to a shard. *)
Lemma byte_delta_contrib p s db id u :
  p (0, 0) = 0 ->
  (forall i, u = Some i -> (forall f, i <> IFile f) -> inode_size (inodes db !! id) = 0) ->
  0 <= inode_size (inodes db !! id) <= I64_MAX -> 0 <= inode_size u <= I64_MAX ->
  match byte_delta db (id, u) with
  | Some d => if decide (shard_of d.1 = s) then p (d.2, 0) else 0
  | None => 0
  end = if shard_of id =? s then p (inode_size u - inode_size (inodes db !! id), 0) else 0.
Proof.
  intros Hp Hk Hd Hu. pose proof (size_delta_exact _ _ Hd Hu) as Hs.
  assert (Hz : inode_size u - inode_size (inodes db !! id) = 0 ->
    0 = if shard_of id =? s then p (inode_size u - inode_size (inodes db !! id), 0) else 0)
    by (intros ->; rewrite Hp; by case_match).
  assert (Hnf : (exists f, u = Some (IFile f)) \/ u = None \/
                inode_size u - inode_size (inodes db !! id) = 0 /\ byte_delta db (id, u) = None).
  { destruct u as [[]|]; eauto; right; right; (split; [|done]); by rewrite (Hk _ eq_refl). }
  assert (Hb : inode_size u - inode_size (inodes db !! id) <> 0 ->
               byte_delta db (id, u) = Some (id, inode_size u - inode_size (inodes db !! id))).
  { intros Hne. unfold byte_delta; cbn. rewrite Hs, (proj2 (Z.eqb_neq _ _) Hne).
    destruct Hnf as [[f ->]|[->|[? _]]]; done. }
  assert (Hb0 : inode_size u - inode_size (inodes db !! id) = 0 -> byte_delta db (id, u) = None).
  { intros He. destruct Hnf as [[f ->]|[->|[_ ?]]]; [..|done]; unfold byte_delta; cbn in *; by rewrite Hs, He. }
  destruct (decide (inode_size u - inode_size (inodes db !! id) = 0)) as [E|E].
  - rewrite Hb0 by done. by apply Hz.
  - rewrite Hb by done. cbn. destruct (decide _), (Z.eqb_spec (shard_of id) s); lia || done.
Qed.

(** The derived deltas, summed over a shard by any function that is zero at zero. *)
Lemma ksum_byte_list p s db batch :
  p (0, 0) = 0 -> kind_stable db (inode_updates batch) ->
  (forall id, 0 <= inode_size (inodes db !! id) <= I64_MAX) ->
  (forall id u, inode_updates batch !! id = Some u -> 0 <= inode_size u <= I64_MAX) ->
  ksum p s (byte_list db batch) =
  msum (fun id u => if shard_of id =? s
                    then p (inode_size u - inode_size (inodes db !! id), 0) else 0) (inode_updates batch).
Proof.
  intros Hp Hk Hd Hu. rewrite msum_foldr. unfold byte_list, derive_byte_deltas, ksum.
  assert (Hl : forall id u, (id, u) ∈ map_to_list (inode_updates batch) -> inode_updates batch !! id = Some u)
    by (intros id u; by rewrite elem_of_map_to_list).
  revert Hl. induction (map_to_list (inode_updates batch)) as [|[id u] l IH]; intros Hl; [done|].
  specialize (IH ltac:(intros; apply Hl; by right)).
  specialize (Hl id u ltac:(left)). cbn [omap list_omap foldr fst snd]. rewrite <- IH.
  rewrite <- (byte_delta_contrib p s db id u); eauto; [|intros i ->; by apply (Hk id)].
  destruct (byte_delta db (id, u)); [done|]. cbn. lia.
Qed.

Definition sizes_ok (m : gmap Z Inode) : Prop :=
  forall id i, m !! id = Some i -> 0 <= inode_size (Some i).

Lemma sizes_ok_le m id : sizes_ok m -> 0 <= inode_size (m !! id) <= total_bytes m.
Proof.
  intros Hs. unfold total_bytes. destruct (m !! id) as [i|] eqn:E; cbn [inode_size].
  - split; [by apply (Hs id)|]. apply (msum_ge (fun _ i => inode_size (Some i)) m id i); eauto.
  - split; [done|]. apply msum_nonneg. eauto.
Qed.

(** Bytes that the updated inodes had before and have afterwards. *)
Lemma updated_bytes_le (m : gmap Z (option Inode)) d :
  sizes_ok d -> sizes_ok (overlay m d) ->
  msum (fun id _ => inode_size (d !! id)) m <= total_bytes d /\
  msum (fun _ u => inode_size u) m <= total_bytes (overlay m d).
Proof.
  intros Hd Ho. pose proof (sum_overlay (fun _ u => inode_size u) ltac:(done) m d) as H1.
  pose proof (sum_overlay (fun _ u => inode_size u) ltac:(done) ((fun _ => None) <$> m) d) as H2.
  assert (Hnn : 0 <= msum (fun _ i => inode_size (Some i)) (overlay ((fun _ => None) <$> m) d)).
  { apply msum_nonneg. intros id i Hi. rewrite lookup_overlay, lookup_fmap in Hi.
    destruct (m !! id); [done|]. cbn in Hi. by apply (Hd id). }
  assert (Hf : msum (fun k u => inode_size u - inode_size (d !! k)) ((fun _ => None) <$> m) =
               - msum (fun id _ => inode_size (d !! id)) m).
  { clear. induction m as [|k u m Hk IH] using map_ind; [by rewrite fmap_empty|].
    rewrite fmap_insert, !msum_insert_new, IH by (rewrite ?lookup_fmap, ?Hk; done). cbn. lia. }
  assert (Hs : msum (fun k u => inode_size u - inode_size (d !! k)) m =
               msum (fun _ u => inode_size u) m - msum (fun id _ => inode_size (d !! id)) m).
  { unfold Z.sub. by rewrite msum_add, msum_opp. }
  unfold total_bytes in *. lia.
Qed.

(** The worker's byte deltas telescope onto the change of each shard. *)
Lemma shard_deltas_bytes db batch s :
  let d' := overlay (inode_updates batch) (inodes db) in
  sizes_ok (inodes db) -> sizes_ok d' -> kind_stable db (inode_updates batch) ->
  total_bytes (inodes db) + total_bytes d' <= I64_MAX ->
  (gget (shard_deltas db batch) s).1 = shard_bytes d' s - shard_bytes (inodes db) s.
Proof.
  intros d' Hd Hd' Hk Hb.
  assert (Hold : forall id, 0 <= inode_size (inodes db !! id) <= total_bytes (inodes db))
    by (intros; by apply sizes_ok_le).
  assert (Hnew : forall id u, inode_updates batch !! id = Some u -> 0 <= inode_size u <= total_bytes d').
  { intros id u Hu. pose proof (sizes_ok_le d' id Hd') as H. unfold d' in H at 1 2.
    rewrite lookup_overlay, Hu in H. exact H. }
  assert (H0 : 0 <= total_bytes (inodes db) /\ 0 <= total_bytes d')
    by (pose proof (sizes_ok_le _ 0 Hd); pose proof (sizes_ok_le _ 0 Hd'); lia).
  assert (Hkb : forall p, p (0, 0) = 0 -> ksum p s (byte_list db batch) =
    msum (fun id u => if shard_of id =? s then p (inode_size u - inode_size (inodes db !! id), 0) else 0)
      (inode_updates batch)).
  { intros p Hp. apply ksum_byte_list; auto.
    - intros id. specialize (Hold id). lia.
    - intros id u Hu. specialize (Hnew id u Hu). lia. }
  destruct (updated_bytes_le (inode_updates batch) (inodes db) Hd Hd') as [Hu1 Hu2].
  rewrite shard_deltas_bumps, bumps_fst.
  - rewrite ksum_app, ksum_count_fst, Hkb by done. cbn [gget].
    unfold shard_bytes, d'.
    pose proof (sum_overlay (fun id u => if shard_of id =? s then inode_size u else 0)
      ltac:(intros id; cbv beta; by destruct (shard_of id =? s)) (inode_updates batch) (inodes db)) as Hso.
    rewrite Hso. unfold gget. rewrite lookup_empty. cbn [default fst].
    match goal with |- 0 + (0 + ?x) = ?a + ?y - ?a => assert (x = y); [|lia] end.
    apply msum_ext. intros id u _. by case_match.
  - unfold gget at 1. rewrite lookup_empty. cbn [default fst].
    rewrite ksum_app, ksum_count_fst, Hkb by done.
    assert (Hle : msum (fun id u => if shard_of id =? s then Z.abs (inode_size u - inode_size (inodes db !! id)) else 0)
              (inode_updates batch) <=
            msum (fun id u => inode_size u + inode_size (inodes db !! id)) (inode_updates batch)).
    { apply msum_le. intros id u Hu. specialize (Hold id). specialize (Hnew id u Hu). case_match; lia. }
    rewrite msum_add in Hle. unfold d' in *. cbn. lia.
Qed.

(** ** Exactness *)

(** What the callers of the coordinator guarantee about the transactions of a batch:
    the cache updates repeat the inode writes, no caller writes a statistics record,
    an inode keeps its kind, the staged inode-count changes are the changes of the
    inode table, and the logical size stays below 2^63. *)
Record batch_accounted (f : FS) (batch : list Request) : Prop := {
  ba_mirrored : Forall (fun r => mirrored (rq_txn r)) batch;
  ba_noshard : forall s v, PutShard s v ∉ batch_ops batch;
  ba_kind : kind_stable (fs_db f) (inode_updates batch);
  ba_sizes : sizes_ok (inodes (apply_ops (fs_db f) (batch_ops batch)));
  ba_total : total_bytes (inodes (fs_db f)) +
             total_bytes (inodes (apply_ops (fs_db f) (batch_ops batch))) <= I64_MAX;
  ba_counts : forall s, ksum (fun v => Z.abs v.2) s (count_list batch) <= I64_MAX /\
    ksum snd s (count_list batch) =
    shard_count (inodes (apply_ops (fs_db f) (batch_ops batch))) s - shard_count (inodes (fs_db f)) s;
  ba_bound : forall s, shard_count (inodes (apply_ops (fs_db f) (batch_ops batch))) s <= U64_MAX }.

Record UsageInv (f : FS) : Prop := {
  ui_sizes : sizes_ok (inodes (fs_db f));
  ui_total : total_bytes (inodes (fs_db f)) <= I64_MAX;
  ui_mem : forall s, shard_get (mem_shards f) s =
             (shard_bytes (inodes (fs_db f)) s, shard_count (inodes (fs_db f)) s);
  ui_disk : forall s, shard_get (shards (fs_db f)) s = shard_get (mem_shards f) s }.

Lemma shard_bytes_bounds m s : sizes_ok m -> 0 <= shard_bytes m s <= total_bytes m.
Proof.
  intros Hs. split.
  - apply msum_nonneg. intros id i Hi. case_match; [by apply (Hs id)|done].
  - apply msum_le. intros id i Hi. pose proof (Hs id i Hi). case_match; lia.
Qed.
Lemma shard_count_nonneg m s : 0 <= shard_count m s.
Proof. apply msum_nonneg. intros. by case_match. Qed.

Lemma staged_get f batch (m : gmap Z (Z * Z)) s :
  shard_get (foldl (fun m e => <[e.1 := e.2]> m) m (staged_shards f batch)) s =
  match shard_deltas (fs_db f) batch !! s with
  | Some d => stage_delta (mem_shards f) s d.1 d.2
  | None => shard_get m s
  end.
Proof.
  unfold shard_get at 1, staged_shards.
  rewrite (foldl_insert_staged (fun k d => stage_delta (mem_shards f) k d.1 d.2)). by case_match.
Qed.

Lemma shards_ops l d :
  (forall s v, PutShard s v ∉ l) -> shards (apply_ops d l) = shards d.
Proof.
  revert d. induction l as [|op l IH]; intros d Hl; [done|]. cbn.
  rewrite IH by (intros s v Hc; apply (Hl s v); by right).
  destruct op; try done. destruct (Hl s v). by left.
Qed.

Lemma merged_shards f batch d :
  (forall s v, PutShard s v ∉ batch_ops batch) ->
  shards (apply_ops d (merged_ops f batch)) =
  foldl (fun m e => <[e.1 := e.2]> m) (shards d) (staged_shards f batch).
Proof.
  intros Hn. unfold merged_ops, apply_ops. rewrite !foldl_app. fold (apply_ops d (batch_ops batch)).
  assert (Hs : forall l d, shards (foldl apply_op d (map (fun e => PutSegcount e.1 e.2) l)) = shards d).
  { intros l d'. apply (shards_ops (map _ l)). intros s v (? & ? & _)%list_elem_of_fmap. done. }
  rewrite Hs.
  assert (Hp : forall (l : list (Z * (Z * Z))) d,
    shards (foldl apply_op d (map (fun e => PutShard e.1 e.2) l)) =
    foldl (fun m e => <[e.1 := e.2]> m) (shards d) l).
  { induction l as [|e l IH]; intros d'; [done|]. cbn. by rewrite IH. }
  rewrite Hp. f_equal. destruct (counter_staged f); cbn; by rewrite shards_ops.
Qed.

(** C23: The usage statistics are exact: when a batch is written, then afterwards, for
    every shard, the in-memory and the persisted counters both equal the sum of the
    committed file sizes and the number of inodes of that shard; when it is not
    written, whatever the failure, they stay exact for the unchanged database. *)
Theorem usage_counters_exact ret inst o batch f :
  UsageInv f -> batch_accounted f batch -> UsageInv (process_batch ret inst o batch f).2.
Proof.
  intros [Hs Ht Hm Hd] [Bm Bs Bk Bz Bt Bc Bb].
  assert (Hin : inodes (apply_ops (fs_db f) (batch_ops batch)) =
                overlay (inode_updates batch) (inodes (fs_db f)))
    by (by rewrite inodes_apply_ops, inode_updates_mirrored).
  destruct (process_batch_spec ret inst o batch f) as [e f' Hdb Hmem _ _ _|r f' Hdb Hmem _ _ _].
  { split; rewrite ?Hdb, ?Hmem; auto. }
  assert (Hin' : inodes (fs_db f') = overlay (inode_updates batch) (inodes (fs_db f))).
  { rewrite Hdb, <- Hin. pose proof (core_merged f batch (fs_db f)) as Hc. unfold core in Hc. congruence. }
  rewrite Hin in *. pose proof (shard_bytes_bounds _ 0 Hs). pose proof (shard_bytes_bounds _ 0 Bz).
  split; rewrite ?Hin'; auto; [lia|..].
  - intros s. rewrite Hmem, staged_get.
    pose proof (shard_deltas_bytes (fs_db f) batch s Hs Bz Bk Bt) as Hby.
    destruct (Bc s) as [Hca Hcs].
    assert (Hct : (gget (shard_deltas (fs_db f) batch) s).2 = ksum snd s (count_list batch)).
    { rewrite shard_deltas_bumps, bumps_snd; rewrite ksum_app, ksum_byte_snd by done;
        unfold gget; rewrite lookup_empty; cbn; lia. }
    rewrite Hcs in Hct.
    pose proof (shard_bytes_bounds _ s Hs). pose proof (shard_bytes_bounds _ s Bz).
    pose proof (shard_count_nonneg (inodes (fs_db f)) s).
    pose proof (shard_count_nonneg (overlay (inode_updates batch) (inodes (fs_db f))) s).
    specialize (Bb s). unfold gget in *.
    destruct (shard_deltas (fs_db f) batch !! s) as [[db dc]|]; cbn in Hby, Hct.
    + unfold stage_delta. rewrite Hm. cbn. f_equal; unfold sat_add_signed; ulia.
    + rewrite Hm. f_equal; lia.
  - intros s. rewrite Hmem, Hdb, merged_shards, !staged_get by done. by case_match.
Qed.
