(* ===== verification/Ops.v ===== *)
(** * Operation framework

    What every file system operation uses: the monad of operations on the process
    state, replay of recorded results ([fs/ops/mod.rs]), name validation
    ([fs/mod.rs]), transactions and commits, open handles ([fs/handle.rs]).

    An operation runs under the inode locks it takes, so it is one atomic function of
    the state; what it reads from outside (clocks, the metadata fence, the fate of its
    commit) is its [Env]. *)

From S2P Require Import Prelude Errors Segment Quota Inode Dedup Permissions Store Namespace.
From S2P Require Import Commit.

(** [OP_ID_RETENTION] in seconds ([ninep-proto/src/retry.rs]). *)
Definition OP_ID_RETENTION : Z := 150.

Record Env := mkEnv {
  e_clock : nat -> Z * Z;          (* successive [get_current_time] readings *)
  e_ts : Z;                        (* [SystemTime::now] of a tombstone *)
  e_instant : Z;                   (* the ledger's clock *)
  e_fence : result FsError unit;   (* [fence_metadata] *)
  e_read_only : bool;
  e_outcome : Outcome }.

Abbreviation M := (stM FS FsError).

Definition gets {A} (g : FS -> A) : M A := fun f => (Ok (g f), f).

(** [ZeroFS::replay_dedup_result]. *)
Definition replay_dedup_result {A} (env : Env) (op_id : OpId) (extract : DedupResult -> option A)
  : M (option A) :=
  fun f =>
    let '(r, d) := dedup_get op_id (e_instant env) (fs_dedup f) in
    (match r with
     | None => Ok None
     | Some r => match extract r with Some a => Ok (Some a) | None => Err InvalidArgument end
     end, set_fs_dedup d f).

(** [validate_filename]. *)
Definition validate_filename (n : name) : result FsError unit :=
  if NAME_MAX <? Z.of_nat (length n) then Err NameTooLong else Ok tt.

(** [Db::new_transaction]. *)
Definition new_transaction (env : Env) : result FsError Transaction :=
  if e_read_only env then Err ReadOnlyFilesystem else Ok txn_new.

Definition allocateM : M Z := fun f => let '(id, f') := allocate f in (Ok id, f').

Definition commitM (env : Env) (t : Transaction) (s : Settlement) : M unit :=
  commit OP_ID_RETENTION (e_instant env) (e_outcome env) t s.

(** Replay, then the operation unless a result was replayed; every mutation checks
    before and after it waits for its locks. *)
Definition replaying {A} (env : Env) (op_id : OpId) (extract : DedupResult -> option A)
    (k : M A) : M A :=
  r ← replay_dedup_result env op_id extract;
  match r with Some a => mret a | None => k end.

(** ** Open handles *)

(** [open_handle_inc], [dec_open_handle] with [OpenHandle::drop], [open_handle_count]. *)
Definition open_handle_count (f : FS) (id : Z) : Z := default 0 (open_handles f !! id).
Definition open_handle_inc (id : Z) (f : FS) : FS :=
  set_open_handles (<[id := open_handle_count f id + 1]> (open_handles f)) f.
Definition dec_open_handle (id : Z) (m : gmap Z Z) : Z * gmap Z Z :=
  match m !! id with
  | Some n => if sat_sub n 1 =? 0 then (0, delete id m) else (sat_sub n 1, <[id := sat_sub n 1]> m)
  | None => (0, m)
  end.
Definition open_handle_drop (id : Z) (f : FS) : FS :=
  let '(n, m) := dec_open_handle id (open_handles f) in
  let f1 := set_open_handles m f in
  if n =? 0 then set_reclaim_queue (reclaim_queue f1 ++ [id]) f1 else f1.

(** [should_defer_unlinked_inode]. *)
Definition should_defer_unlinked_inode (f : FS) (id : Z) : bool :=
  (0 <? open_handle_count f id) || protects_replay_inode id (fs_dedup f).

(** ** Weakest preconditions *)

Definition wp {A} (m : M A) (Q : result FsError A -> FS -> Prop) (f : FS) : Prop :=
  Q (m f).1 (m f).2.

Lemma wp_ret {A} (a : A) Q f : Q (Ok a) f -> wp (mret a) Q f.
Proof. done. Qed.
Lemma wp_bind {A B} (m : M A) (k : A -> M B) Q f :
  wp m (fun r f' => match r with Ok a => wp (k a) Q f' | Err e => Q (Err e) f' end) f ->
  wp (m ≫= k) Q f.
Proof. unfold wp, mbind, stM_bind. destruct (m f) as [[a|e] f']; done. Qed.
Lemma wp_lift {A} (r : result FsError A) Q f : Q r f -> wp (liftR r) Q f.
Proof. done. Qed.
Lemma wp_throw {A} e (Q : result FsError A -> FS -> Prop) f : Q (Err e) f -> wp (throwS e) Q f.
Proof. done. Qed.
Lemma wp_gets {A} (g : FS -> A) Q f : Q (Ok (g f)) f -> wp (gets g) Q f.
Proof. done. Qed.
Lemma wp_conseq {A} (m : M A) Q Q' f : wp m Q f -> (forall r f', Q r f' -> Q' r f') -> wp m Q' f.
Proof. unfold wp. auto. Qed.

(** A step that touches neither the database nor the allocator, and at most drops results
    from the ledger. *)
Definition inert (f f' : FS) : Prop :=
  fs_db f' = fs_db f /\ next_id f' = next_id f /\ last_emitted f' = last_emitted f /\
  mem_shards f' = mem_shards f /\ fs_quota f' = fs_quota f /\ open_handles f' = open_handles f /\
  forall op e, ops (fs_dedup f') !! op = Some (Complete e) -> ops (fs_dedup f) !! op = Some (Complete e).

Lemma inert_refl f : inert f f.
Proof. done. Qed.
Lemma inert_trans f1 f2 f3 : inert f1 f2 -> inert f2 f3 -> inert f1 f3.
Proof. unfold inert. intros (?&?&?&?&?&?&?) (?&?&?&?&?&?&?). split_and!; try congruence. auto. Qed.

(** The ledger has [a] as the recorded reply to [op]; it has no recorded result. *)
Definition recorded {A} (extract : DedupResult -> option A) (op : OpId) (f : FS) (a : A) : Prop :=
  has_op_id op = true /\ exists e, ops (fs_dedup f) !! op = Some (Complete e) /\ extract (value e) = Some a.
Definition unrecorded (op : OpId) (f : FS) : Prop :=
  has_op_id op = true -> forall e, ops (fs_dedup f) !! op <> Some (Complete e).

Lemma recorded_inert {A} (extract : DedupResult -> option A) op f f' a :
  inert f f' -> recorded extract op f' a -> recorded extract op f a.
Proof. intros (_ & _ & _ & _ & _ & _ & Hl) (Ho & e & He & Hx). split; [done|]. exists e. auto. Qed.

Lemma expire_completes op op' now s e :
  ops (expire_target op now s) !! op' = Some (Complete e) -> ops s !! op' = Some (Complete e).
Proof.
  unfold expire_target. case_match; [|done]. rewrite ops_remove_result. repeat case_match; try done.
  by intros [_ ?]%lookup_delete_Some.
Qed.

Lemma wp_replay {A} env op (extract : DedupResult -> option A) Q f :
  (forall r f', inert f f' ->
     r = Err InvalidArgument \/ r = Ok None /\ unrecorded op f' \/
     (exists a, r = Ok (Some a) /\ recorded extract op f a /\ recorded extract op f' a) -> Q r f') ->
  wp (replay_dedup_result env op extract) Q f.
Proof.
  intros H. unfold wp, replay_dedup_result, dedup_get. destruct (has_op_id op) eqn:Ho; cbn.
  2:{ apply H; [done|]. right. left. split; [done|]. intros Ho'. congruence. }
  set (s := expire_target op (e_instant env) (fs_dedup f)).
  assert (Hi : inert f (set_fs_dedup s f)) by (split_and!; try done; intros op' e; apply expire_completes).
  destruct (ops s !! op) as [[|e]|] eqn:E; [|destruct (extract (value e)) as [a|] eqn:Ex|]; (apply H; [done|]); auto.
  - right. left. split; [done|]. intros _ e. cbn. by rewrite E.
  - right. right. exists a. split; [done|]. assert (recorded extract op (set_fs_dedup s f) a) by (split; [done|]; by exists e).
    split; [by eapply recorded_inert|done].
  - right. left. split; [done|]. intros _ e. cbn. by rewrite E.
Qed.

(** An operation after replay, twice: it either replays a result the ledger had, or runs on
    an inert copy whose ledger has none. *)
Lemma wp_replaying {A} env op (extract : DedupResult -> option A) (k : M A) Q f :
  (forall f', inert f f' -> Q (Err InvalidArgument) f') ->
  (forall a f', inert f f' -> recorded extract op f a -> recorded extract op f' a -> Q (Ok a) f') ->
  (forall f', inert f f' -> unrecorded op f' -> wp k Q f') ->
  wp (replaying env op extract k) Q f.
Proof.
  intros He Hr Hk. apply wp_bind, wp_replay. intros r f' Hi [->|[[-> Hu]|(a & -> & Ha & Ha')]]; auto.
  apply wp_ret. auto.
Qed.

(** A commit records its result for retries. *)
Lemma record_entry_completes op r ret now s :
  has_op_id op = true -> (forall e, ops s !! op <> Some (Complete e)) ->
  exists e, ops (record_entry op r ret now s) !! op = Some (Complete e) /\ value e = r.
Proof.
  intros Ho Hn. unfold record_entry, record_entry_with_write_request. rewrite Ho. cbn [negb].
  assert (He : expire_target op now s = s).
  { unfold expire_target. destruct (ops s !! op) as [[|e]|] eqn:E; [done|by destruct (Hn e)|done]. }
  rewrite He. destruct (ops s !! op) as [[|e]|] eqn:E; [|by destruct (Hn e)|];
    cbn; eexists; (split; [apply lookup_insert_eq|done]).
Qed.

(** Case analysis on the steps of an operation. *)
Ltac wp_step :=
  match goal with
  | |- wp (mret _) _ _ => apply wp_ret
  | |- wp (throwS _) _ _ => apply wp_throw
  | |- wp (liftR _ ≫= _) _ _ => apply wp_bind, wp_lift
  | |- wp (gets _ ≫= _) _ _ => apply wp_bind, wp_gets
  | |- match ?r with Ok _ => _ | Err _ => _ end => destruct r eqn:?
  end.

(** ** Commits *)

(** The allocator after a commit: unchanged or one id burned. *)
Definition bumped (f f' : FS) : Prop := next_id f <= next_id f' <= next_id f + 1.

(** A commit whose transaction was written; only a failed flush is reported as an error. *)
Record committed (env : Env) (t : Transaction) (f : FS) (r : result FsError unit) (f' : FS) : Prop := {
  cm_core : core (fs_db f') = core (tx_db (fs_db f) t);
  cm_bumped : bumped f f';
  cm_reply : r = Ok tt \/ exists e, e_outcome env = Applied (Err e) /\ r = Err e;
  cm_dedup : fs_dedup f' = match tx_dedup t with
                           | Some (op, x) => record_entry op x OP_ID_RETENTION (e_instant env) (fs_dedup f)
                           | None => fs_dedup f
                           end;
  cm_handles : open_handles f' = open_handles f }.

(** A commit that was not written. *)
Record refused (f f' : FS) : Prop := {
  rf_db : fs_db f' = fs_db f;
  rf_bumped : bumped f f';
  rf_dedup : fs_dedup f' = fs_dedup f;
  rf_handles : open_handles f' = open_handles f }.

Lemma publish_reply ret inst fl batch f e :
  (publish_batch ret inst fl batch f).1 = Err e -> fl = Err e.
Proof. unfold publish_batch. cbn. by case_match. Qed.

Lemma publish_dedup ret inst fl batch f :
  fs_dedup (publish_batch ret inst fl batch f).2 =
  foldl (record_one ret inst) (fs_dedup f) (batch_dedup batch).
Proof.
  unfold publish_batch. cbn [snd]. destruct (counter_staged f); cbn; repeat case_match;
    autorewrite with fs_proj; by destruct (counter_staged f).
Qed.

(** A batch is either refused or published. *)
Lemma process_batch_cases ret inst o batch f :
  (exists e, (process_batch ret inst o batch f).1 = Err e /\
     fs_db (process_batch ret inst o batch f).2 = fs_db f /\
     fs_dedup (process_batch ret inst o batch f).2 = drop_requests batch (fs_dedup f) /\
     (existsb invalid_request batch = false -> forall fl, o <> Applied fl)) \/
  (exists fl, process_batch ret inst o batch f = publish_batch ret inst fl batch f /\
     (fl = Ok tt \/ o = Applied fl)).
Proof.
  unfold process_batch, fail_batch.
  destruct (existsb _ _); [left; cbn; autorewrite with fs_proj; eexists; by split_and!|].
  destruct o; repeat case_match; eauto; left; cbn; autorewrite with fs_proj; cbn; autorewrite with fs_proj;
    destruct (counter_staged f); cbn; autorewrite with fs_proj; eexists; by split_and!.
Qed.

Lemma wp_commit env t s Q f :
  0 <= next_id f < U64_MAX ->
  (forall e f', (forall fl, e_outcome env <> Applied fl) -> refused f f' -> Q (Err e) f') ->
  (forall r f', committed env t f r f' -> Q r f') ->
  wp (commitM env t s) Q f.
Proof.
  intros Hn He Hr. unfold wp, commitM, commit. set (b := [mkRequest t None s]).
  assert (Hw : u64_wrap (next_id f + 1) = next_id f + 1) by (apply u64_wrap_id; ulia).
  pose proof (process_batch_spec OP_ID_RETENTION (e_instant env) (e_outcome env) b f) as Hs.
  assert (Hb : bumped f (process_batch OP_ID_RETENTION (e_instant env) (e_outcome env) b f).2 /\
    open_handles (process_batch OP_ID_RETENTION (e_instant env) (e_outcome env) b f).2 = open_handles f).
  { unfold bumped. destruct Hs as [e f' _ _ _ Ho Hnx|r f' _ _ Ho _ Hnx]; rewrite Hw in Hnx; split; auto; lia. }
  destruct Hb as [Hb Ho].
  destruct (process_batch_cases OP_ID_RETENTION (e_instant env) (e_outcome env) b f)
    as [(e & -> & Hdb & Hdd & Hno)|(fl & Hp & Hfl)].
  { apply He; [|by split]. apply Hno. unfold b, invalid_request. cbn. by destruct (tx_dedup t) as [[??]|]. }
  rewrite Hp in *. apply Hr. split; auto.
  - assert (Hops : batch_ops b = tx_ops t) by (unfold batch_ops; cbn; by rewrite app_nil_r).
    unfold tx_db. rewrite <- Hops, <- (core_merged f). f_equal.
    unfold publish_batch. cbn [snd]. by autorewrite with fs_proj.
  - destruct (publish_batch _ _ _ _ _).1 as [[]|e] eqn:E; [by left|]. right. exists e.
    apply publish_reply in E as ->. destruct Hfl; [done|]. auto.
  - rewrite publish_dedup. unfold b, batch_dedup. cbn. by destruct (tx_dedup t) as [[??]|].
Qed.

(** ** The namespace invariant across commits *)

Lemma ns_mono nid nid' db : NsInv nid db -> nid <= nid' -> NsInv nid' db.
Proof. intros [[T X M C] O B R] Hle. split; auto. split; auto. by eapply tree_mono. Qed.

Lemma ns_core nid db db' : core db' = core db -> NsInv nid db -> NsInv nid db'.
Proof.
  unfold core. intros [= Ei Ee Es Ek Eo Et Ex] [[T X M C] O B R].
  split; unfold read_cookie; rewrite ?Ei, ?Eo, ?Ek; auto. split; rewrite ?Ei, ?Ee, ?Es, ?Ek; auto.
Qed.

Lemma ns_nid_pos nid db : NsInv nid db -> 0 < nid.
Proof.
  intros Inv. destruct (tr_root _ _ _ (pr_tree _ _ _ _ (ns_pre _ _ Inv))) as (x & Hx & _).
  destruct (tr_ids _ _ _ (pr_tree _ _ _ _ (ns_pre _ _ Inv)) 0 x Hx). lia.
Qed.

(** ** What an operation does to the namespace

    [performs env op extract eff f r f']: the invariant holds afterwards, and either nothing
    of the namespace, the orphan list, the tombstones or the extents changed (the operation
    failed, or replayed a result the ledger had for [op]), or the effect [eff] took place and
    the result is recorded for retries; then the operation returns its result, or the error
    of a failed flush. *)
Definition performs {A} (env : Env) (op : OpId) (extract : DedupResult -> option A) (eff : A -> Db -> Db -> Prop)
    (f : FS) (r : result FsError A) (f' : FS) : Prop :=
  NsInv (next_id f') (fs_db f') /\
  (core (fs_db f') = core (fs_db f) /\ (forall a, r = Ok a -> recorded extract op f a /\ recorded extract op f' a) \/
   exists a, eff a (fs_db f) (fs_db f') /\
     (has_op_id op = true -> (exists x, extract x = Some a) -> recorded extract op f' a) /\
     (r = Ok a \/ exists e, e_outcome env = Applied (Err e) /\ r = Err e)).

(** Ids left for an operation: one to allocate and one to burn. *)
Definition id_room (f : FS) : Prop := next_id f + 1 < U64_MAX.

Definition NsState (f : FS) : Prop := NsInv (next_id f) (fs_db f).

Lemma inert_ns f f' : inert f f' -> NsState f -> NsState f'.
Proof. unfold NsState. by intros (-> & -> & _). Qed.
Lemma inert_room f f' : inert f f' -> id_room f -> id_room f'.
Proof. unfold id_room. by intros (_ & -> & _). Qed.

Section performs.
Context {A : Type} (env : Env) (op : OpId) (extract : DedupResult -> option A) (eff : A -> Db -> Db -> Prop).

Lemma performs_inert f f1 r f' : inert f f1 -> performs env op extract eff f1 r f' -> performs env op extract eff f r f'.
Proof.
  intros Hi [Inv Hc]. pose proof Hi as (Hdb & _). split; [done|]. rewrite <- Hdb. destruct Hc as [[Hcore Hr]|Hc]; [left|by right].
  split; [done|]. intros a Ha. destruct (Hr a Ha). split; [by eapply recorded_inert|done].
Qed.

Lemma performs_err f e : NsState f -> performs env op extract eff f (Err e) f.
Proof. intros H. split; [done|]. by left. Qed.

Lemma performs_refused f f' e : NsState f -> refused f f' -> performs env op extract eff f (Err e) f'.
Proof.
  intros H [Hdb [Hb _] _ _]. split; [|left; by rewrite Hdb]. rewrite Hdb. by eapply ns_mono.
Qed.

(** The replay frame of an operation. *)
Lemma performs_replaying (k : M A) f :
  NsState f -> id_room f ->
  (forall f', inert f f' -> unrecorded op f' -> NsState f' -> id_room f' -> wp k (performs env op extract eff f') f') ->
  wp (replaying env op extract k) (performs env op extract eff f) f.
Proof.
  intros Inv Hroom Hk. apply wp_replaying.
  - intros f' Hi. eapply performs_inert; [done|]. apply performs_err. by eapply inert_ns.
  - intros a f' Hi Ha Ha'. split; [by eapply inert_ns|]. left. split; [by rewrite (proj1 Hi)|]. by intros ? [= <-].
  - intros f' Hi Hu. eapply wp_conseq.
    + apply Hk; eauto using inert_ns, inert_room.
    + intros r f''. by apply performs_inert.
Qed.

(** The transaction carries the result to record. *)
Definition carries (t : Transaction) (a : A) : Prop :=
  has_op_id op = true -> (exists x, extract x = Some a) -> exists x, tx_dedup t = Some (op, x) /\ extract x = Some a.
Lemma committed_recorded t a f r f' :
  unrecorded op f -> carries t a -> committed env t f r f' ->
  has_op_id op = true -> (exists x, extract x = Some a) -> recorded extract op f' a.
Proof.
  intros Hu Hc Hcm Ho Hx. destruct (Hc Ho Hx) as (x & Ht & Hxa). pose proof (cm_dedup _ _ _ _ _ Hcm) as Hd. rewrite Ht in Hd.
  destruct (record_entry_completes op x OP_ID_RETENTION (e_instant env) (fs_dedup f) Ho (Hu Ho)) as (e & He & Hv).
  split; [done|]. exists e. by rewrite Hd, Hv.
Qed.

(** The commit of an operation and its reply. *)
Lemma performs_commit t s a f :
  NsState f -> id_room f -> unrecorded op f -> carries t a -> NsInv (next_id f) (tx_db (fs_db f) t) ->
  (forall db', core db' = core (tx_db (fs_db f) t) -> eff a (fs_db f) db') ->
  wp (_ ← commitM env t s; mret a) (performs env op extract eff f) f.
Proof.
  intros Inv Hroom Hu Hcar Inv' He. pose proof (ns_nid_pos _ _ Inv). unfold id_room in Hroom.
  apply wp_bind, wp_commit; [lia|intros; by apply performs_refused|].
  intros r f' Hcm. pose proof Hcm as [Hcore [Hb _] Hr _ _]. assert (NsInv (next_id f') (fs_db f')).
  { eapply ns_mono; [|exact Hb]. by eapply ns_core. }
  pose proof (committed_recorded t a f r f' Hu Hcar Hcm).
  destruct Hr as [->|(e & Ho & ->)]; (split; [done|]); right; exists a; (split; [by apply He|]); eauto.
Qed.
End performs.

(** The same for an operation that ends with its commit. *)
Lemma performs_commit_unit env op extract (eff : unit -> Db -> Db -> Prop) t s f :
  NsState f -> id_room f -> unrecorded op f -> carries op extract t tt -> NsInv (next_id f) (tx_db (fs_db f) t) ->
  (forall db', core db' = core (tx_db (fs_db f) t) -> eff tt (fs_db f) db') ->
  wp (commitM env t s) (performs env op extract eff f) f.
Proof.
  intros Inv Hroom Hu Hcar Inv' He. pose proof (performs_commit env op extract eff t s tt f Inv Hroom Hu Hcar Inv' He) as H.
  unfold wp, mbind, stM_bind in H |- *. by destruct (commitM env t s f) as [[[]|e] f'].
Qed.

(** The same as a statement about the value an operation returns.  The invariant is kept.
    A success has its effect, unless the ledger already had this very reply recorded for the
    operation id and nothing changed; and with an operation id the reply is recorded
    afterwards, so that a retry gets it.  An error leaves the namespace, orphans, tombstones
    and extents as they were, except that a failed flush is reported after the effect. *)
Definition op_sound {A} (env : Env) (op : OpId) (extract : DedupResult -> option A) (eff : A -> Db -> Db -> Prop)
    (m : M A) (f : FS) : Prop :=
  NsState (m f).2 /\
  (forall a, (m f).1 = Ok a ->
     eff a (fs_db f) (fs_db (m f).2) \/ recorded extract op f a /\ core (fs_db (m f).2) = core (fs_db f)) /\
  (forall a, (m f).1 = Ok a -> has_op_id op = true -> (exists x, extract x = Some a) -> recorded extract op (m f).2 a) /\
  (forall e, (m f).1 = Err e -> core (fs_db (m f).2) = core (fs_db f) \/
     e_outcome env = Applied (Err e) /\ exists a, eff a (fs_db f) (fs_db (m f).2)).

Lemma performs_sound {A} env op extract (eff : A -> Db -> Db -> Prop) (m : M A) f :
  wp m (performs env op extract eff f) f -> op_sound env op extract eff m f.
Proof.
  unfold wp, performs, op_sound. intros [Inv Hc]. split; [done|].
  destruct Hc as [[Hcore Hrep]|(a & Ha & Hrec & [->|(e & Ho & ->)])]; split_and!; try (by intros ? [= <-]; eauto).
  - intros a Hr. right. split; [by apply Hrep|done].
  - intros a Hr _ _. by apply Hrep.
  - auto.
Qed.
