(* ===== verification/Boot.v ===== *)
(** * Opening a volume

    [ZeroFS::new_with_slatedb] of [fs/boot.rs], up to the drain of orphans (which is
    [Reclaim.drain_orphans]): the allocation counter, the root inode of a fresh volume,
    the usage shards and the quota; and the invariants of a fresh volume. *)

From S2P Require Import Prelude Errors Segment Quota Inode Dedup Permissions Store Namespace.
From S2P Require Import Commit Usage Ops.

Definition root_dir (uid gid : Z) (now : Z * Z) : Inode :=
  IDirectory (mkDir (fresh_attrs now 1023 uid gid) 0 0 None 2).

(** The root inode of a volume that has none; a read-only open of such a volume fails. *)
Definition init_root (read_only : bool) (uid gid : Z) (now : Z * Z) (db : Db) : option Db :=
  match inodes db !! 0 with
  | Some _ => Some db
  | None => if read_only then None else Some (with_inodes <[0 := root_dir uid gid now]> db)
  end.

(** [load_shard] over every shard. *)
Definition load_shards (db : Db) : gmap Z (Z * Z) :=
  foldl (fun m i => match shards db !! i with Some d => <[i := d]> m | None => m end) ∅
    (seqZ 0 STATS_SHARDS).

Definition open_volume (read_only : bool) (uid gid max_bytes : Z) (now : Z * Z) (dedup : Inner) (db : Db)
  : option FS :=
  let next_inode_id := persisted_counter db in
  db' ← init_root read_only uid gid now db;
  let mem := load_shards db' in
  Some (mkFS db' next_inode_id next_inode_id mem dedup
          (LogicalQuota_new max_bytes (get_totals mem).1) ∅ []).

Definition empty_db : Db := mkDb ∅ ∅ ∅ ∅ ∅ ∅ ∅ ∅ ∅ None.

(** ** A fresh volume *)

Lemma fresh_tree uid gid now : Tree 1 (shapes {[0 := root_dir uid gid now]}) ∅.
Proof.
  assert (Hs : shapes {[0 := root_dir uid gid now]} = {[0 := mkShape true (Some 0) None]}).
  { unfold shapes. by rewrite map_fmap_singleton. }
  rewrite Hs. split; try done.
  - eexists. split; [apply lookup_singleton_eq|done].
  - intros id x [<- <-]%lookup_singleton_Some. cbn. split; [lia|]. intros p [= <-]. lia.
  - intros id x [<- <-]%lookup_singleton_Some. cbn. eauto.
  - intros id x [<- <-]%lookup_singleton_Some. done.
  - intros id x n [<- <-]%lookup_singleton_Some. done.
  - intros id. destruct (decide (id = 0)) as [->|].
    + apply chain_root.
    + apply chain_gone. by rewrite lookup_singleton_ne.
Qed.

Lemma open_fresh uid gid max now dd :
  exists f, open_volume false uid gid max now dd empty_db = Some f /\
    fs_db f = with_inodes <[0 := root_dir uid gid now]> empty_db /\ next_id f = 1 /\ last_emitted f = 1.
Proof. eexists. by split. Qed.

(** The namespace invariant of a fresh volume. *)
Lemma open_fresh_ns uid gid max now dd f :
  open_volume false uid gid max now dd empty_db = Some f -> NsState f.
Proof.
  destruct (open_fresh uid gid max now dd) as (f' & -> & Hdb & Hn & _). intros [= <-].
  unfold NsState. rewrite Hn, Hdb. apply ns_intro; cbn.
  - split; cbn; try done; [apply fresh_tree|].
    intros id i [<- <-]%lookup_singleton_Some. by vm_compute.
  - intros id i [<- <-]%lookup_singleton_Some. 
    unfold Sound. cbn. split_and!; [|ulia..|done]. by rewrite elem_of_empty.
  - intros id []%elem_of_empty.
Qed.

(** ** A concrete volume, for examples *)

Definition example_fs : FS :=
  mkFS (with_inodes <[0 := root_dir 0 0 (7, 0)]> empty_db) 1 1 ∅ Inner_new (LogicalQuota_new 1000000 0) ∅ [].
Definition example_env : Env := mkEnv (fun _ => (9, 5)) 11 100 (Ok tt) false (Applied (Ok tt)).
(** The operation id of a call that may be retried. *)
Definition retry_id : OpId := 1 :: repeat 0 15.
Definition root_creds : Credentials := mkCreds 0 0 true [] true.

Lemma example_ns : NsState example_fs.
Proof. by apply (open_fresh_ns 0 0 1000000 (7, 0) Inner_new). Qed.

(** A batch that creates a file of five bytes, and one that is refused. *)
Definition example_file : Inode := IFile (mkFile 5 (fresh_attrs (7, 0) 420 0 0) (Some 0) (Some [102]) 1).
Definition example_batch (id : Z) : list Request :=
  [mkRequest (add_inode_count_delta id 1 (inode_save id example_file txn_new)) None SettleNone].

(** A run with an allocation, a failed batch (which burns an id), another allocation, an
    applied batch, a flush, an allocation that is lost, and a restart. *)
Definition example_run : IdRun :=
  let s1 := id_allocated (id_boot example_fs) in
  let s2 := id_processed 150 100 (UnreadableSegcount IoError) (example_batch 1) s1 in
  let s3 := id_allocated s2 in
  let s4 := id_processed 150 100 (Applied (Ok tt)) (example_batch 3) s3 in
  id_allocated (id_flushed s4).
Definition example_restarted : IdRun :=
  mkIdRun (mkFS (ir_durable example_run).1 4 4 ∅ Inner_new (LogicalQuota_new 1000000 5) ∅ [])
    [] (ir_durable example_run).2 (ir_durable example_run).

Lemma example_batch_ids id s : id ∈ ir_handed s -> batch_ids_ok (example_batch id) s.
Proof. intros Hlt id' i Hi%list_elem_of_singleton. injection Hi as -> _. by left. Qed.

Lemma inode_ids_fresh_witness :
  inodes (fs_db (ir_fs example_restarted)) !! 3 = Some example_file /\ ir_handed example_run = [1; 3; 4] /\
  (allocate (ir_fs example_restarted)).1 ∉ ir_ever example_restarted.
Proof.
  split; [by vm_compute|]. split; [by vm_compute|].
  destruct (inode_ids_fresh example_fs example_restarted) as (_ & _ & Hfresh & _); [..|exact Hfresh].
  - split_and!; [done..|]. by apply (bool_decide_unpack _); vm_compute.
  - assert (Hc : forall id c, PutCounter c ∉ batch_ops (example_batch id))
      by (intros id c Hi%list_elem_of_singleton; done).
    eapply rtc_l; [apply id_allocate; by vm_compute|].
    eapply rtc_l; [apply (id_batch 150 100 (UnreadableSegcount IoError) (example_batch 1));
      [by vm_compute|apply example_batch_ids; by left|apply Hc]|].
    eapply rtc_l; [apply id_allocate; by vm_compute|].
    eapply rtc_l; [apply (id_batch 150 100 (Applied (Ok tt)) (example_batch 3));
      [by vm_compute|apply example_batch_ids; right; by left|apply Hc]|].
    eapply rtc_l; [apply id_flush|]. eapply rtc_l; [apply id_allocate; by vm_compute|].
    apply rtc_once. apply id_restart; by vm_compute.
Defined.

(** The state of a fresh volume is accounted for. *)
Lemma example_usage : UsageInv example_fs.
Proof.
  assert (Hi : inodes (fs_db example_fs) = {[0 := root_dir 0 0 (7, 0)]}) by done.
  split; rewrite ?Hi; try done.
  - by intros id i [<- <-]%lookup_singleton_Some.
  - intros s. unfold shard_bytes, shard_count. rewrite <- insert_empty, !msum_insert_new, !msum_empty by done.
    cbn. rewrite andb_false_r. by case_match.
Qed.

Lemma usage_counters_exact_witness :
  let f' := (process_batch 150 100 (Applied (Ok tt)) (example_batch 1) (allocate example_fs).2).2 in
  UsageInv f' /\ shard_get (mem_shards f') 1 = (5, 1).
Proof.
  split; [|by vm_compute]. apply usage_counters_exact; [destruct example_usage; by split|].
  set (m := inodes (apply_ops (fs_db (allocate example_fs).2) (batch_ops (example_batch 1)))).
  assert (Hm : m = <[1 := example_file]> {[0 := root_dir 0 0 (7, 0)]}) by done.
  assert (Hc : forall s, shard_count m s = if 1 =? s then 1 else 0).
  { intros s. rewrite Hm. unfold shard_count. rewrite msum_insert_new, <- insert_empty, msum_insert_new, msum_empty
      by done. cbn. rewrite andb_false_r, andb_true_r. by destruct s as [|[]|]. }
  split; fold m.
  - by repeat constructor.
  - intros s v Hi%list_elem_of_singleton. done.
  - intros id i Hi Hno. cbn in Hi. destruct (decide (id = 1)) as [->|Hne].
    + rewrite lookup_insert_eq in Hi. injection Hi as <-. by destruct (Hno _ eq_refl).
    + by rewrite lookup_insert_ne, lookup_empty in Hi.
  - rewrite Hm. intros id i [[_ <-]|[_ [_ <-]%lookup_singleton_Some]]%lookup_insert_Some; done.
  - by vm_compute.
  - intros s. rewrite Hc.
    assert (Hz : shard_count (inodes (fs_db (allocate example_fs).2)) s = 0)
      by (by pose proof (f_equal snd (ui_mem _ example_usage s))).
    rewrite Hz. unfold count_list. cbn. change (shard_of 1) with 1.
    destruct (decide (1 = s)) as [<-|Hs]; [by vm_compute|].
    split; [by vm_compute|]. by destruct s as [|[]|].
  - intros s. rewrite Hc. case_match; by vm_compute.
Defined.
