(* ===== verification/OpsCreate.v ===== *)
(** * Child-creating operations

    [create], [mkdir], [mknod] of [fs/ops/create.rs] and [symlink] of
    [fs/ops/link.rs], with their idempotent variants; that they preserve the
    namespace invariant, and what a successful call leaves behind. *)

From S2P Require Import Prelude Errors Segment Quota Inode Dedup Permissions Store Namespace.
From S2P Require Import Commit Usage Ops Boot.

(** [dir.entry_count += 1; dir.nlink += n; dir.mtime = dir.ctime = now]. *)
Definition grow_dir (now : Z * Z) (links : Z) (d : DirectoryInode) : DirectoryInode :=
  mkDir (touch_mctime now (d_attrs d)) (u64_wrap (d_entry_count d + 1)) (d_parent d) (d_name d)
    (d_nlink d + links).

(** Save a directory and refresh the copy in its own parent's entry. *)
Definition save_directory (db : Db) (dirid : Z) (dir : DirectoryInode) (t : Transaction) : Transaction :=
  let t := inode_save dirid (IDirectory dir) t in
  match d_name dir with
  | Some n => try_update_inode_in_entry db (d_parent dir) n dirid (IDirectory dir) t
  | None => t
  end.

(** The parent and name reads of a child-creating operation, with its checks. *)
Definition open_parent (creds : Credentials) (dirid : Z) (n : name) : M (Db * DirectoryInode) :=
  db ← gets fs_db;
  dir_inode ← liftR (inode_get db dirid);
  _ ← liftR (check_access dir_inode creds Write);
  _ ← liftR (check_access dir_inode creds Execute);
  match dir_inode with
  | IDirectory dir =>
      _ ← liftR (ensure (negb (d_nlink dir =? 0)) StaleHandle);
      _ ← liftR (ensure (negb (dir_exists db dirid n)) Exists);
      mret (db, dir)
  | _ => throwS NotDirectory
  end.

(** The transaction of a child-creating operation. *)
Definition stage_child (db : Db) (op_id : OpId) (r : DedupResult) (dirid : Z) (dir' : DirectoryInode)
    (n : name) (id : Z) (child : Inode) (cookie : Z) (t : Transaction) : Transaction :=
  let t := stage_cookie_increment dirid cookie t in
  let t := set_dedup_result op_id r t in
  let t := inode_save id child t in
  let t := dir_add dirid n id cookie (Some child) t in
  let t := save_directory db dirid dir' t in
  add_inode_count_delta id 1 t.

Definition create_idempotent (env : Env) (creds : Credentials) (dirid : Z) (n : name)
    (attr : SetAttributes) (op_id : OpId) : M (Z * FileAttributes) :=
  replaying env op_id into_create (
  _ ← liftR (validate_filename n);
  _ ← liftR (e_fence env);
  replaying env op_id into_create (
  p ← open_parent creds dirid n;
  let '(db, dir) := p in
  file_id ← allocateM;
  let now := e_clock env 0 in
  let final_mode := match sa_mode attr with Set_ m => validate_mode m | NoChange => 438 end in
  let file_inode := IFile (mkFile 0 (fresh_attrs now final_mode (set_or (sa_uid attr) (c_uid creds))
                                       (set_or (sa_gid attr) (c_gid creds))) (Some dirid) (Some n) 1) in
  t ← liftR (new_transaction env);
  let attrs := file_attributes file_inode file_id in
  _ ← commitM env (stage_child db op_id (DCreate file_id attrs) dirid (grow_dir now 0 dir) n file_id
                     file_inode (read_cookie db dirid) t) SettleNone;
  mret (file_id, attrs))).

(** [create] and [create_exclusive]. *)
Definition create (env : Env) (creds : Credentials) (dirid : Z) (n : name) (attr : SetAttributes) :=
  create_idempotent env creds dirid n attr no_op_id.
Definition create_exclusive (env : Env) (auth : AuthContext) (dirid : Z) (n : name) : M Z :=
  r ← create env (from_auth_context auth) dirid n SetAttributes_default;
  mret r.1.

Definition client_time_or (t : SetTime) (now : Z * Z) : Z * Z :=
  match t with SetToClientTime ts => (seconds ts, nanoseconds ts) | _ => now end.

Definition mkdir_idempotent (env : Env) (creds : Credentials) (dirid : Z) (n : name)
    (attr : SetAttributes) (op_id : OpId) : M (Z * FileAttributes) :=
  replaying env op_id into_mkdir (
  _ ← liftR (validate_filename n);
  _ ← liftR (e_fence env);
  replaying env op_id into_mkdir (
  p ← open_parent creds dirid n;
  let '(db, dir) := p in
  new_dir_id ← allocateM;
  let now := e_clock env 0 in
  let parent_mode := mode (d_attrs dir) in
  let setgid := has_bits parent_mode S_ISGID in
  let new_mode := let m := set_or (sa_mode attr) 511 in if setgid then Z.lor m S_ISGID else m in
  let new_gid := match sa_gid attr with
                 | Set_ g => g
                 | NoChange => if setgid then gid (d_attrs dir) else c_gid creds
                 end in
  let at_ := client_time_or (sa_atime attr) now in
  let mt := client_time_or (sa_mtime attr) now in
  let new_dir := IDirectory (mkDir (mkAttrs mt.1 mt.2 now.1 now.2 at_.1 at_.2 new_mode
                                      (set_or (sa_uid attr) (c_uid creds)) new_gid)
                               0 dirid (Some n) 2) in
  t ← liftR (new_transaction env);
  let attrs := file_attributes new_dir new_dir_id in
  _ ← liftR (ensure (negb (d_nlink dir =? U32_MAX)) NoSpace);
  _ ← commitM env (stage_child db op_id (DMkdir new_dir_id attrs) dirid (grow_dir now 1 dir) n
                     new_dir_id new_dir (read_cookie db dirid) t) SettleNone;
  mret (new_dir_id, attrs))).
Definition mkdir (env : Env) (creds : Credentials) (dirid : Z) (n : name) (attr : SetAttributes) :=
  mkdir_idempotent env creds dirid n attr no_op_id.

(** The constructor of a special node; other file types are invalid. *)
Definition special_of (ft : FileType) (s : SpecialInode) : option Inode :=
  match ft with
  | Fifo => Some (IFifo s) | CharDevice => Some (ICharDevice s)
  | BlockDevice => Some (IBlockDevice s) | Socket => Some (ISocket s)
  | _ => None
  end.

Definition mknod_idempotent (env : Env) (creds : Credentials) (dirid : Z) (n : name)
    (ftype : FileType) (attr : SetAttributes) (rdev : option (Z * Z)) (op_id : OpId)
  : M (Z * FileAttributes) :=
  replaying env op_id into_mknod (
  _ ← liftR (validate_filename n);
  _ ← liftR (match rdev with
             | Some (major, minor) =>
                 ensure (negb ((MAX_DEVICE_MAJOR <? major) || (MAX_DEVICE_MINOR <? minor))) InvalidArgument
             | None => Ok tt
             end);
  _ ← liftR (e_fence env);
  replaying env op_id into_mknod (
  p ← open_parent creds dirid n;
  let '(db, dir) := p in
  special_id ← allocateM;
  let now := e_clock env 0 in
  let final_mode := match sa_mode attr with Set_ m => validate_mode m | NoChange => 438 end in
  inode ← liftR (ok_or InvalidArgument (special_of ftype
             (mkSpecial (fresh_attrs now final_mode (set_or (sa_uid attr) (c_uid creds))
                           (set_or (sa_gid attr) (c_gid creds))) (Some dirid) (Some n) 1 rdev)));
  t ← liftR (new_transaction env);
  let attrs := file_attributes inode special_id in
  _ ← commitM env (stage_child db op_id (DMknod special_id attrs) dirid (grow_dir now 0 dir) n
                     special_id inode (read_cookie db dirid) t) SettleNone;
  mret (special_id, attrs))).
Definition mknod (env : Env) (creds : Credentials) (dirid : Z) (n : name) (ftype : FileType)
    (attr : SetAttributes) (rdev : option (Z * Z)) :=
  mknod_idempotent env creds dirid n ftype attr rdev no_op_id.

Definition symlink_idempotent (env : Env) (creds : Credentials) (dirid : Z) (linkname : name)
    (target : bytes) (attr : SetAttributes) (op_id : OpId) : M (Z * FileAttributes) :=
  replaying env op_id into_symlink (
  _ ← liftR (validate_filename linkname);
  _ ← liftR (e_fence env);
  replaying env op_id into_symlink (
  p ← open_parent creds dirid linkname;
  let '(db, dir) := p in
  new_id ← allocateM;
  let m := match sa_mode attr with Set_ m => Z.lor m 40960 | NoChange => 41471 end in
  let now := e_clock env 0 in
  let symlink_inode := ISymlink (mkSymlink target (fresh_attrs now m
                          (set_or (sa_uid attr) (c_uid creds)) (set_or (sa_gid attr) (c_gid creds)))
                          (Some dirid) (Some linkname) 1) in
  t ← liftR (new_transaction env);
  let attrs := file_attributes symlink_inode new_id in
  _ ← commitM env (stage_child db op_id (DSymlink new_id attrs) dirid (grow_dir now 0 dir) linkname
                     new_id symlink_inode (read_cookie db dirid) t) SettleNone;
  mret (new_id, attrs))).
Definition symlink (env : Env) (creds : Credentials) (dirid : Z) (linkname : name) (target : bytes)
    (attr : SetAttributes) :=
  symlink_idempotent env creds dirid linkname target attr no_op_id.

(** ** A directory saved with its copy *)

(** Saving a directory together with its copy is the [refreshed] step. *)
Lemma tx_save_directory db dirid dir t :
  (forall n, d_name dir = Some n ->
     entries (tx_db db t) !! (d_parent dir, n) = entries db !! (d_parent dir, n)) ->
  tx_db db (save_directory db dirid dir t) = refreshed dirid (IDirectory dir) (tx_db db t).
Proof.
  intros Hl. unfold save_directory, refreshed. cbn. destruct (d_name dir) as [n|] eqn:Hn.
  - autorewrite with txn. rewrite (Hl n) by done. by destruct (entries db !! (d_parent dir, n)).
  - by autorewrite with txn.
Qed.

Lemma refreshed_fields id i db :
  inodes (refreshed id i db) = <[id := i]> (inodes db) /\ entries (refreshed id i db) = entries db /\
  cookies (refreshed id i db) = cookies db /\ orphans (refreshed id i db) = orphans db.
Proof. unfold refreshed. by repeat case_match. Qed.

Lemma refreshed_rest id i db :
  tombstones (refreshed id i db) = tombstones db /\ extents (refreshed id i db) = extents db.
Proof. unfold refreshed. by repeat case_match. Qed.

Lemma refreshed_scan id i db d c :
  (iname i <> None -> parent i <> Some d) -> scans (refreshed id i db) !! (d, c) = scans db !! (d, c).
Proof.
  intros Hd. unfold refreshed. repeat case_match; try done. cbn.
  apply lookup_insert_ne. intros [= -> _]. by apply Hd.
Qed.

(** A live directory other than the root is named and not its own parent. *)
Lemma live_dir_parent nid db dirid dir n :
  NsInv nid db -> inodes db !! dirid = Some (IDirectory dir) -> d_name dir = Some n ->
  d_parent dir <> dirid.
Proof.
  intros Inv Hd Hn. destruct (inv_named nid db Inv dirid _ n Hd Hn) as (p & c & [= <-] & He & _).
  by destruct (inv_entry nid db Inv _ _ _ _ He) as (_ & _ & ? & _).
Qed.

(** A directory's entry count stays below its cookie counter, so it does not wrap. *)
Lemma grow_count nid db d dir :
  NsInv nid db -> inodes db !! d = Some (IDirectory dir) -> read_cookie db d < U64_MAX ->
  0 <= d_entry_count dir /\ u64_wrap (d_entry_count dir + 1) = d_entry_count dir + 1.
Proof.
  intros Inv Hd Hc. pose proof (ns_room _ _ Inv d dir Hd) as Hroom.
  pose proof (inv_ecount _ _ Inv d _ Hd eq_refl) as Hec. cbn in Hec.
  assert (0 <= d_entry_count dir) by (rewrite Hec; apply mcount_nonneg).
  split; [done|]. apply u64_wrap_id. unfold COOKIE_FIRST_ENTRY in *. ulia.
Qed.

Lemma grow_sound nid db d dir now l :
  NsInv nid db -> inodes db !! d = Some (IDirectory dir) -> read_cookie db d < U64_MAX ->
  d_nlink dir <> 0 -> 0 <= l -> d_nlink dir + l <= U32_MAX ->
  Sound (orphans db) (<[d := read_cookie db d + 1]> (cookies db)) d (IDirectory (grow_dir now l dir)).
Proof.
  intros Inv Hd Hc Hl H0 Hmax. destruct (grow_count _ _ _ _ Inv Hd Hc) as [_ Hw].
  destruct (ns_sound _ _ _ _ Inv Hd) as (So & Sb & Sr). cbn in So, Sb, Sr. unfold Sound. cbn.
  rewrite lookup_insert_eq, Hw, So. cbn. split_and!; [lia|lia|lia|].
  intros _. specialize (Sr eq_refl). unfold read_cookie. lia.
Qed.

(** ** A new child preserves the invariant *)

(** What the operations give a new child. *)
Definition fresh_child (d : Z) (n : name) (i : Inode) : Prop :=
  parent i = Some d /\ iname i = Some n /\ ecount i = 0 /\
  nlink i = if is_directory i then 2 else 1.

Lemma stage_child_db db op r dirid dir now l n id child :
  NsInv id db -> inodes db !! dirid = Some (IDirectory dir) ->
  entries db !! (dirid, n) = None ->
  read_cookie db dirid < U64_MAX -> 0 <= read_cookie db dirid ->
  tx_db db (stage_child db op r dirid (grow_dir now l dir) n id child (read_cookie db dirid) txn_new) =
  refreshed dirid (IDirectory (grow_dir now l dir))
    (with_scans <[(dirid, read_cookie db dirid) := (n, WithInode id child)]>
      (with_entries <[(dirid, n) := (id, read_cookie db dirid)]>
        (with_inodes <[id := child]> (with_cookies <[dirid := read_cookie db dirid + 1]> db)))).
Proof.
  intros Inv Hd Hfree Hc Hc0. unfold stage_child. rewrite tx_db_count, tx_save_directory.
  - autorewrite with txn. rewrite u64_wrap_id by ulia. done.
  - intros m Hm. autorewrite with txn. cbn. rewrite lookup_insert_ne; [done|]. intros [= Hp _].
    by eapply (live_dir_parent id db dirid dir m).
Qed.

Lemma new_child_inv nid db dirid dir now n id child :
  NsInv nid db -> nid = id -> inodes db !! dirid = Some (IDirectory dir) -> d_nlink dir <> 0 ->
  entries db !! (dirid, n) = None -> read_cookie db dirid < U64_MAX ->
  fresh_child dirid n child -> 0 <= id ->
  (is_directory child = true -> d_nlink dir < U32_MAX) ->
  NsInv (id + 1)
    (refreshed dirid (IDirectory (grow_dir now (if is_directory child then 1 else 0) dir))
      (with_scans <[(dirid, read_cookie db dirid) := (n, WithInode id child)]>
        (with_entries <[(dirid, n) := (id, read_cookie db dirid)]>
          (with_inodes <[id := child]> (with_cookies <[dirid := read_cookie db dirid + 1]> db))))).
Proof.
  intros Inv -> Hd Hlive Hfree Hc (Hp & Hn & He & Hl) H0 Hmax.
  set (l := if is_directory child then 1 else 0).
  set (c := read_cookie db dirid). set (dir' := grow_dir now l dir).
  set (db1 := with_scans _ _).
  pose proof (proj1 (inv_live_dir id db Inv dirid dir Hd) Hlive) as Ha.
  destruct (ns_fresh _ _ id Inv) as [Hnone Hno]; [lia|].
  assert (Hne : dirid <> id) by congruence.
  destruct (grow_count _ _ _ _ Inv Hd Hc) as [_ Hwrap].
  assert (P1 : Pre (id + 1) (fun x => 0 - one dirid x)
            (fun x => 0 - (if is_directory child then one dirid x else 0)) db1).
  { apply (pre_new id (id + 1) (fun _ => 0) (fun _ => 0) db dirid n id child c); auto; try lia.
    apply Inv. }
  assert (Hd1 : inodes db1 !! dirid = Some (IDirectory dir)).
  { subst db1. cbn. by rewrite lookup_insert_ne. }
  pose proof (pre_refresh _ _ _ db1 dirid _ (IDirectory dir') P1 Hd1 eq_refl) as P2.
  destruct (refreshed_fields dirid (IDirectory dir') db1) as (Ei & Ee & Ek & Eo).
  apply ns_intro.
  - eapply pre_ext; [exact P2|]. intros k _. cbn. rewrite Hwrap. unfold l.
    rewrite (one_sym k dirid). destruct (is_directory child); lia.
  - rewrite Ei, Ek, Eo. subst db1. cbn.
    intros k i [[<- <-]|[Hk [[<- <-]|[Hk' Hi]]%lookup_insert_Some]]%lookup_insert_Some.
    + destruct (ns_sound _ _ _ _ Inv Hd) as (_ & Sb & _). cbn in Sb.
      eapply grow_sound; eauto; unfold l; destruct (is_directory child); try lia.
    + unfold Sound. rewrite Hl, He, lookup_insert_ne by done.
      pose proof (cookie_ge _ _ id Inv). destruct (is_directory child); (split_and!; [split; [done|lia]|ulia|ulia|ulia]).
    + eapply sound_frame; [by eapply ns_sound|done|]. by rewrite lookup_insert_ne.
  - rewrite Ei, Eo. subst db1. cbn. intros k Hk. destruct (ns_orphan_some _ _ _ Inv Hk) as [i Hi].
    rewrite lookup_insert_is_Some', lookup_insert_is_Some'. eauto.
Qed.

(** ** What the operations do *)

(** The four operations as one family. *)
Inductive ChildKind :=
| MakeFile | MakeDir | MakeNode (ft : FileType) (rdev : option (Z * Z)) | MakeSymlink (target : bytes).

Definition make_child (k : ChildKind) (env : Env) (creds : Credentials) (dirid : Z) (n : name)
    (attr : SetAttributes) (op_id : OpId) : M (Z * FileAttributes) :=
  match k with
  | MakeFile => create_idempotent env creds dirid n attr op_id
  | MakeDir => mkdir_idempotent env creds dirid n attr op_id
  | MakeNode ft rdev => mknod_idempotent env creds dirid n ft attr rdev op_id
  | MakeSymlink target => symlink_idempotent env creds dirid n target attr op_id
  end.

(** The state after a child was made: one new inode, one new entry with its scan
    record, and the parent's counters; nothing else. *)
Record child_made (db db' : Db) (dirid : Z) (dir' : DirectoryInode) (n : name) (id : Z) (child : Inode)
  : Prop := {
  ch_inodes : inodes db' = <[dirid := IDirectory dir']> (<[id := child]> (inodes db));
  ch_entries : entries db' = <[(dirid, n) := (id, read_cookie db dirid)]> (entries db);
  ch_scan : scans db' !! (dirid, read_cookie db dirid) = Some (n, WithInode id child);
  ch_rest : orphans db' = orphans db /\ tombstones db' = tombstones db /\ extents db' = extents db }.

(** Type, size, owner and group of a new child: a directory inherits its group from a
    setgid parent unless the request sets one. *)
Definition child_spec (k : ChildKind) (creds : Credentials) (attr : SetAttributes)
    (dir : DirectoryInode) (child : Inode) : Prop :=
  uid (attrs child) = set_or (sa_uid attr) (c_uid creds) /\
  gid (attrs child) = set_or (sa_gid attr)
    (match k with
     | MakeDir => if has_bits (mode (d_attrs dir)) S_ISGID then gid (d_attrs dir) else c_gid creds
     | _ => c_gid creds
     end) /\
  type_size_rdev child =
    match k with
    | MakeFile => (Regular, 0, None)
    | MakeDir => (Directory, 4096, None)
    | MakeNode ft rdev => (ft, 0, rdev)
    | MakeSymlink target => (Symlink, Z.of_nat (length target), None)
    end.

Definition child_effect (k : ChildKind) (creds : Credentials) (dirid : Z) (n : name)
    (attr : SetAttributes) (now : Z * Z) (a : Z * FileAttributes) (db db' : Db) : Prop :=
  exists dir child,
    inodes db !! dirid = Some (IDirectory dir) /\ d_nlink dir <> 0 /\
    check_access (IDirectory dir) creds Write = Ok tt /\
    check_access (IDirectory dir) creds Execute = Ok tt /\
    entries db !! (dirid, n) = None /\ inodes db !! a.1 = None /\
    fresh_child dirid n child /\ child_spec k creds attr dir child /\
    a.2 = file_attributes child a.1 /\
    child_made db db' dirid (grow_dir now (if is_directory child then 1 else 0) dir) n a.1 child.

Lemma wp_open_parent creds dirid n Q f :
  (forall e, Q (Err e) f) ->
  (forall dir, inodes (fs_db f) !! dirid = Some (IDirectory dir) -> d_nlink dir <> 0 ->
     check_access (IDirectory dir) creds Write = Ok tt ->
     check_access (IDirectory dir) creds Execute = Ok tt ->
     entries (fs_db f) !! (dirid, n) = None -> Q (Ok (fs_db f, dir)) f) ->
  wp (open_parent creds dirid n) Q f.
Proof.
  intros He Hok. unfold open_parent, inode_get. repeat wp_step; auto.
  destruct a as [|dir| | | | |]; repeat wp_step; auto.
  unfold ensure, ok_or, dir_exists in *. repeat case_match; simplify_eq.
  destruct a0, a1. apply Hok; auto; [lia|]. apply negb_true_iff, bool_decide_eq_false in H.
  by apply eq_None_not_Some.
Qed.

Lemma child_committed env op r dirid dir now n child f res f' :
  let id := next_id f in
  let l := if is_directory child then 1 else 0 in
  NsState f -> id_room f -> inodes (fs_db f) !! dirid = Some (IDirectory dir) -> d_nlink dir <> 0 ->
  entries (fs_db f) !! (dirid, n) = None -> read_cookie (fs_db f) dirid < U64_MAX ->
  fresh_child dirid n child -> (is_directory child = true -> d_nlink dir < U32_MAX) ->
  committed env (stage_child (fs_db f) op r dirid (grow_dir now l dir) n id child
                   (read_cookie (fs_db f) dirid) txn_new) (set_next_id (id + 1) f) res f' ->
  NsState f' /\ child_made (fs_db f) (fs_db f') dirid (grow_dir now l dir) n id child.
Proof.
  intros id l Inv Hroom Hd Hlive Hfree Hc Hch Hmax [Hcore [Hb _] _ _ _].
  cbn [fs_db next_id set_next_id] in Hb, Hcore.
  pose proof (cookie_ge _ _ dirid Inv) as Hck. pose proof (ns_nid_pos _ _ Inv).
  rewrite (stage_child_db _ _ _ _ _ _ _ _ id) in Hcore 
    by (auto; unfold read_cookie, COOKIE_FIRST_ENTRY in *; ulia).
  split.
  - apply (ns_mono (id + 1)); [|done]. eapply ns_core; [exact Hcore|].
    eapply new_child_inv; eauto. lia.
  - revert Hcore. set (db1 := with_scans _ _). set (i' := IDirectory _).
    destruct (refreshed_fields dirid i' db1) as (Ei & Ee & _ & Eo).
    destruct (refreshed_rest dirid i' db1) as [Et Ex].
    unfold core. rewrite Ei, Ee, Eo, Et, Ex. intros [= H1 H2 Hs _ H3 H4 H5]. split; auto.
    rewrite Hs, refreshed_scan; [apply lookup_insert_eq|].
    cbn. intros Hn [= Hp]. destruct (d_name dir) as [m|] eqn:Hm; [|done].
    by eapply (live_dir_parent id _ dirid dir m).
Qed.

(** The recorded reply of each kind. *)
Definition into_child (k : ChildKind) : DedupResult -> option (Z * FileAttributes) :=
  match k with
  | MakeFile => into_create
  | MakeDir => into_mkdir
  | MakeNode _ _ => into_mknod
  | MakeSymlink _ => into_symlink
  end.

Lemma dedup_save_directory db d dir t : tx_dedup (save_directory db d dir t) = tx_dedup t.
Proof. unfold save_directory. case_match; by autorewrite with txn_dedup. Qed.
#[export] Hint Rewrite dedup_save_directory : txn_dedup.
Lemma stage_child_dedup db op r d dir n id child c t :
  has_op_id op = true -> tx_dedup (stage_child db op r d dir n id child c t) = Some (op, r).
Proof. intros Ho. unfold stage_child. cbv zeta. autorewrite with txn_dedup. cbn. by rewrite Ho. Qed.

Lemma wp_child k env creds attr op r dirid dir n child f :
  let id := next_id f in
  let now := e_clock env 0 in
  let l := if is_directory child then 1 else 0 in
  NsState f -> id_room f -> unrecorded op f -> into_child k r = Some (id, file_attributes child id) ->
  read_cookie (fs_db f) dirid < U64_MAX ->
  inodes (fs_db f) !! dirid = Some (IDirectory dir) -> d_nlink dir <> 0 ->
  check_access (IDirectory dir) creds Write = Ok tt ->
  check_access (IDirectory dir) creds Execute = Ok tt ->
  entries (fs_db f) !! (dirid, n) = None ->
  fresh_child dirid n child -> child_spec k creds attr dir child ->
  (is_directory child = true -> d_nlink dir < U32_MAX) ->
  wp (_ ← commitM env (stage_child (fs_db f) op r dirid (grow_dir now l dir) n id child
                        (read_cookie (fs_db f) dirid) txn_new) SettleNone;
      mret (id, file_attributes child id))
    (performs env op (into_child k) (child_effect k creds dirid n attr now) f) (set_next_id (id + 1) f).
Proof.
  intros id now l Inv Hroom Hu Hres Hc Hd Hlive Hw Hx Hfree Hch Hsp Hmax.
  pose proof (ns_nid_pos _ _ Inv). unfold id_room in Hroom.
  apply wp_bind, wp_commit; [cbn; subst id; lia|..].
  - intros e f' _ [Hdb [Hb _] _ _]. cbn in *. split; [|left; by rewrite Hdb].
    rewrite Hdb. eapply ns_mono; [exact Inv|]. subst id. lia.
  - intros res f' Hcm.
    assert (Hrec : has_op_id op = true -> (exists x, into_child k x = Some (id, file_attributes child id)) ->
      recorded (into_child k) op f' (id, file_attributes child id)).
    { eapply committed_recorded; [|intros Ho _; exists r; split; [by apply stage_child_dedup|done]|exact Hcm]. done. }
    destruct (cm_reply _ _ _ _ _ Hcm) as [->|(e & He & ->)];
      eapply child_committed in Hcm as [Inv' Hmade]; eauto; (split; [done|]); right;
      exists (id, file_attributes child id); (split; [|eauto]); exists dir, child; split_and!; auto;
      by eapply ns_fresh.
Qed.

Lemma wp_allocate {B} (k : Z -> M B) Q f :
  NsState f -> id_room f -> wp (k (next_id f)) Q (set_next_id (next_id f + 1) f) ->
  wp (allocateM ≫= k) Q f.
Proof.
  intros Inv%ns_nid_pos Hroom H. apply wp_bind. unfold wp, allocateM, allocate. cbn [fst snd].
  unfold id_room in Hroom. by rewrite u64_wrap_id by ulia.
Qed.

Lemma performs_allocated {A} env op extract (eff : A -> Db -> Db -> Prop) f e :
  NsState f -> performs env op extract eff f (Err e) (set_next_id (next_id f + 1) f).
Proof. intros Inv. split; [|by left]. eapply ns_mono; [exact Inv|]. cbn. lia. Qed.

(** The steps of an operation before its commit. *)
Ltac op_step :=
  match goal with
  | |- wp (replaying _ _ _ _) _ ?f =>
      apply performs_replaying; [done..|];
      let f1 := fresh "f" in let Hdb := fresh in let Hoh := fresh in
      intros f1 (Hdb & _ & _ & _ & _ & Hoh & _) ? ? ?; rewrite <- ?Hdb, <- ?Hoh in *; clear Hdb Hoh
  | |- wp (liftR _ ≫= _) _ _ => apply wp_bind, wp_lift
  | |- match ?r with Ok _ => _ | Err _ => _ end =>
      let E := fresh "E" in destruct r eqn:E; [|first [by apply performs_err|by apply performs_allocated]]
  | |- wp (gets _ ≫= _) _ _ => apply wp_bind, wp_gets
  | |- wp (throwS _) _ _ => apply wp_throw; first [by apply performs_err|by apply performs_allocated]
  | |- wp (match ?i with _ => _ end) _ _ => is_var i; destruct i
  | H : ensure _ _ = Ok _ |- _ => apply ensure_Ok, negb_true_iff in H
  | H : inode_get _ _ = Ok _ |- _ => apply ok_or_Ok in H
  | H : get_entry_with_cookie _ _ _ = Ok _ |- _ => apply ok_or_Ok in H
  | H : dir_exists _ _ _ = false |- _ => apply bool_decide_eq_false, eq_None_not_Some in H
  | u : unit |- _ => destruct u
  | |- wp (allocateM ≫= _) _ _ => apply wp_allocate; [done..|]
  | |- wp (open_parent _ _ _ ≫= _) _ _ =>
      apply wp_bind, wp_open_parent; [intros; by apply performs_err|intros dir ? ? ? ? ?]
  | H : new_transaction _ = Ok ?t |- _ =>
      unfold new_transaction in H; destruct (e_read_only _); [done|]; injection H as <-
  end.

Lemma make_child_performs k env creds dirid n attr op f :
  NsState f -> id_room f -> read_cookie (fs_db f) dirid < U64_MAX ->
  wp (make_child k env creds dirid n attr op)
    (performs env op (into_child k) (child_effect k creds dirid n attr (e_clock env 0)) f) f.
Proof.
  intros Inv Hroom Hc. destruct k as [| |ft rdev|target]; cbn [make_child].
  - unfold create_idempotent. repeat op_step. by eapply (wp_child MakeFile); eauto.
  - unfold mkdir_idempotent. repeat op_step. eapply (wp_child MakeDir); eauto; try done.
    intros _. match goal with H : inodes _ !! dirid = _ |- _ =>
      eapply ns_bounds in H as Hb; [|done] end. cbn in Hb. lia.
  - unfold mknod_idempotent. repeat op_step. apply ok_or_Ok in E2.
    destruct ft; try discriminate; injection E2 as <-; by eapply (wp_child (MakeNode _ rdev)); eauto.
  - unfold symlink_idempotent. repeat op_step. by eapply (wp_child (MakeSymlink _)); eauto.
Qed.

(** C13: Creating a file, directory, special node or symbolic link, with or without an
    operation id: the namespace invariant is preserved on every path.  On success, unless
    the ledger had recorded exactly this reply for the operation id and nothing changes, the
    caller may write and search the live parent directory, the name was free, exactly one
    inode under an id that no inode had, one entry and its scan record were added, the
    parent's entry and link counts grew accordingly, the child has the requested type, size,
    owner and (setgid) group, and the reply carries its id and attributes.  A reply under an
    operation id is recorded for retries; errors change nothing, but for that of the final
    flush. *)
Theorem make_child_sound k env creds dirid n attr op f :
  NsState f -> id_room f -> read_cookie (fs_db f) dirid < U64_MAX ->
  op_sound env op (into_child k) (child_effect k creds dirid n attr (e_clock env 0))
    (make_child k env creds dirid n attr op) f.
Proof. intros. by apply performs_sound, make_child_performs. Qed.

(** A directory made under an operation id, and its retry. *)
Lemma make_child_sound_witness :
  let reply := (1, file_attributes (IDirectory (mkDir (fresh_attrs (9, 5) 511 0 0) 0 0 (Some [97]) 2)) 1) in
  let mkdir := make_child MakeDir example_env root_creds 0 [97] SetAttributes_default retry_id in
  op_sound example_env retry_id into_mkdir (child_effect MakeDir root_creds 0 [97] SetAttributes_default (9, 5)) mkdir example_fs /\
  (mkdir example_fs).1 = Ok reply /\ (mkdir (mkdir example_fs).2).1 = Ok reply /\
  core (fs_db (mkdir (mkdir example_fs).2).2) = core (fs_db (mkdir example_fs).2).
Proof.
  intros reply mkdir. split; [|vm_compute; repeat split; reflexivity].
  apply (make_child_sound MakeDir example_env root_creds 0 [97] SetAttributes_default retry_id example_fs).
  - exact example_ns.
  - vm_compute. reflexivity.
  - vm_compute. reflexivity.
Defined.

(** Successive children of the example volume. *)
Definition example_made (k : ChildKind) (d : Z) (n : name) (f : FS) : FS :=
  (make_child k example_env root_creds d n SetAttributes_default no_op_id f).2.

Lemma example_made_ns k d n f :
  NsState f -> id_room f -> read_cookie (fs_db f) d < U64_MAX -> NsState (example_made k d n f).
Proof.
  intros Inv Hr Hc.
  by destruct (make_child_performs k example_env root_creds d n SetAttributes_default no_op_id f Inv Hr Hc).
Qed.

(** The volume with the directory [/a] (inode 1), the file [/f] (2) and the file [/a/g] (3). *)
Definition example_tree : FS :=
  example_made MakeFile 1 [103] (example_made MakeFile 0 [102] (example_made MakeDir 0 [97] example_fs)).

Lemma example_tree_ns : NsState example_tree.
Proof. repeat (apply example_made_ns; [|by vm_compute..]). exact example_ns. Qed.
