(* ===== verification/OpsLink.v ===== *)
(** * Hard links

    [link] of [fs/ops/link.rs] (lines 200-430): a further name for a non-directory, or a
    name given back to a file that is held open after its last unlink. *)

From S2P Require Import Prelude Errors Segment Quota Inode Dedup Permissions Store Namespace.
From S2P Require Import Commit Usage Ops Boot OpsCreate.

(** The linked inode: one link more; a single name is kept in the inode. *)
Definition relink (d : Z) (n : name) (now : Z * Z) (i : Inode) : result FsError (Inode * bool) :=
  if nlink i =? MAX_HARDLINKS_PER_INODE then Err TooManyLinks
  else
    let resurrected := nlink i =? 0 in
    let '(p, m) := if resurrected then (Some d, Some n)
                   else if 1 <? nlink i + 1 then (None, None) else (parent i, iname i) in
    Ok (touch_ctime now (with_links (nlink i + 1) p m i), resurrected).

(** [original_parent_name] turned into a reference. *)
Definition dereference (db : Db) (id : Z) (i : Inode) (t : Transaction) : result FsError Transaction :=
  match parent i, iname i with
  | Some p, Some m => convert_to_reference db p m id t
  | _, _ => Ok t
  end.

Definition link_idempotent (env : Env) (auth : AuthContext) (fileid linkdirid : Z) (linkname : name)
    (op_id : OpId) : M (Z * FileAttributes) :=
  replaying env op_id into_link (
  _ ← liftR (validate_filename linkname);
  _ ← liftR (e_fence env);
  replaying env op_id into_link (
  let creds := from_auth_context auth in
  db ← gets fs_db;
  link_dir_inode ← liftR (inode_get db linkdirid);
  file_inode ← liftR (inode_get db fileid);
  let exists_ := dir_exists db linkdirid linkname in
  _ ← liftR (check_access link_dir_inode creds Write);
  _ ← liftR (check_access link_dir_inode creds Execute);
  match link_dir_inode with
  | IDirectory link_dir =>
      _ ← liftR (ensure (negb (d_nlink link_dir =? 0)) StaleHandle);
      _ ← liftR (ensure (negb (is_directory file_inode)) InvalidArgument);
      _ ← liftR (ensure (negb exists_) Exists);
      t ← liftR (new_transaction env);
      let cookie := read_cookie db linkdirid in
      let t := stage_cookie_increment linkdirid cookie t in
      t ← liftR (dereference db fileid file_inode t);
      let now := e_clock env 0 in
      ir ← liftR (relink linkdirid linkname now file_inode);
      let '(file_inode, resurrected) := ir in
      let embed := if nlink file_inode =? 1 then Some file_inode else None in
      let t := dir_add linkdirid linkname fileid cookie embed t in
      let attrs := file_attributes file_inode fileid in
      let t := set_dedup_result op_id (DLink fileid attrs) t in
      let t := if (resurrected : bool) then orphan_remove fileid t else t in
      let t := inode_save fileid file_inode t in
      let t := save_directory db linkdirid (grow_dir now 0 link_dir) t in
      _ ← commitM env t SettleNone;
      mret (fileid, attrs)
  | _ => throwS NotDirectory
  end)).

Definition link (env : Env) (auth : AuthContext) (fileid linkdirid : Z) (linkname : name) : M unit :=
  _ ← link_idempotent env auth fileid linkdirid linkname no_op_id; mret tt.

(** ** The step on the database *)

Definition linked_value (id : Z) (i' : Inode) : DirScanValue :=
  if nlink i' =? 1 then WithInode id i' else Reference id.

Definition link_db (db : Db) (fileid d : Z) (n : name) (now : Z * Z) (dir : DirectoryInode)
    (i i' : Inode) (res : bool) : Db :=
  let c := read_cookie db d in
  let db1 := with_scans <[(d, c) := (n, linked_value fileid i')]>
               (with_entries <[(d, n) := (fileid, c)]>
                 (with_inodes <[fileid := i']> (with_cookies <[d := c + 1]> (dereferenced fileid i db)))) in
  refreshed d (IDirectory (grow_dir now 0 dir))
    (with_orphans (if res then fun o => o ∖ {[fileid]} else fun o => o) db1).

Lemma pre_orphans nid de dl db g : Pre nid de dl db -> Pre nid de dl (with_orphans g db).
Proof. intros []. by split. Qed.

Lemma relink_Ok d n now i i' res :
  relink d n now i = Ok (i', res) -> 0 <= nlink i ->
  nlink i <> U32_MAX /\ nlink i' = nlink i + 1 /\ is_directory i' = is_directory i /\
  (res = true <-> nlink i = 0) /\
  (is_directory i = false ->
   if res then shape i' = mkShape false (Some d) (Some n) else shape i' = mkShape false None None).
Proof.
  unfold relink, MAX_HARDLINKS_PER_INODE. intros H H0. destruct (Z.eqb_spec (nlink i) U32_MAX); [done|].
  destruct (Z.eqb_spec (nlink i) 0); [|replace (1 <? nlink i + 1) with true in H by lia];
    injection H as <- <-; unfold touch_ctime, shape; autorewrite with inode;
    (split_and!; [done|done|done|done|]); intros Hd; by rewrite parent_with_links, Hd.
Qed.

Lemma link_inv nid db fileid d n now dir i i' res :
  NsInv nid db -> inodes db !! d = Some (IDirectory dir) -> d_nlink dir <> 0 ->
  inodes db !! fileid = Some i -> is_directory i = false -> entries db !! (d, n) = None ->
  read_cookie db d < U64_MAX -> relink d n now i = Ok (i', res) ->
  NsInv nid (link_db db fileid d n now dir i i' res).
Proof.
  intros Inv Hd Hlive Hi Hdir Hfree Hc Hre.
  destruct (ns_sound _ _ _ _ Inv Hi) as (So & Sb & _).
  destruct (relink_Ok _ _ _ _ _ _ Hre) as (Hmax & Hl & Hdir' & Hres & Hsh); [lia|]. specialize (Hsh Hdir).
  assert (Hne : d <> fileid) by (intros ->; rewrite Hi in Hd; by injection Hd as ->).
  destruct (grow_count _ _ _ _ Inv Hd Hc) as [_ Hwrap].
  unfold link_db. set (c := read_cookie db d). set (db1 := with_scans _ _).
  assert (P1 : Pre nid (fun x => 0 - one d x) (fun x => 0 + (nlink i' - nlink i - 1) * one fileid x) db1).
  { apply (pre_link nid (fun _ => 0) (fun _ => 0)); auto.
    - apply Inv.
    - by rewrite Hdir'.
    - by eapply inv_live_dir.
    - pose proof (inv_nrefs nid db Inv fileid i Hi Hdir) as Hr. unfold linked_value.
      destruct res; [right|left]; (split; [done|]).
      + rewrite Hl, (proj1 Hres eq_refl), Hr. cbn. split; [done|]. by apply Hres.
      + destruct (Z.eqb_spec (nlink i') 1); [|done]. assert (nlink i = 0) as ?%Hres by lia. done. }
  destruct (dereferenced_fields fileid i db) as (Fi & Fe & Fk & Fo & _).
  set (db2 := with_orphans _ db1). set (d' := IDirectory (grow_dir now 0 dir)).
  assert (Hd2 : inodes db2 !! d = Some (IDirectory dir)).
  { cbn. by rewrite lookup_insert_ne, Fi. }
  pose proof (pre_refresh _ _ _ db2 d _ d' (pre_orphans _ _ _ _ _ P1) Hd2 eq_refl) as P2.
  destruct (refreshed_fields d d' db2) as (Ei & _ & Ek & Eo).
  assert (Ho : forall k, k <> fileid -> k ∈ orphans db2 <-> k ∈ orphans db).
  { intros k Hk. cbn. rewrite Fo. destruct res; [|done]. set_solver. }
  apply ns_intro; rewrite ?Ei, ?Ek, ?Eo.
  - eapply pre_ext; [exact P2|]. intros k _. cbn. rewrite Hwrap, Hl, (one_sym k d). lia.
  - replace (cookies db2) with (<[d := c + 1]> (cookies db)) by (cbn; by rewrite Fk).
    replace (inodes db2) with (<[fileid := i']> (inodes db)) by (cbn; by rewrite Fi).
    intros k j [[<- <-]|[Hk [[<- <-]|[Hk' Hj]]%lookup_insert_Some]]%lookup_insert_Some.
    + eapply sound_frame; [eapply (grow_sound _ _ _ _ now 0 Inv Hd)|by apply Ho|done]; auto; [lia|].
      pose proof (ns_bounds _ _ Inv _ _ Hd). cbn in *. lia.
    + unfold Sound. rewrite Hl, Hdir', Hdir. split_and!; [|lia|lia|done]. cbn. rewrite Fo.
      destruct res; [set_solver by lia|]. rewrite So. split; [|lia]. by intros ?%Hres.
    + eapply sound_frame; [by eapply ns_sound|by apply Ho|]. by rewrite lookup_insert_ne.
  - intros k Hk. cbn. rewrite Fi, !lookup_insert_is_Some'. cbn in Hk. rewrite Fo in Hk.
    right; right. eapply ns_orphan_some; [done|]. destruct res; set_solver.
Qed.

(** ** The operation *)

(** The state after a link: one new entry, one link more on the inode, the parent's
    entry count; a linked inode is no orphan. *)
Definition link_effect (creds : Credentials) (fileid d : Z) (n : name) (now : Z * Z)
    (a : Z * FileAttributes) (db db' : Db) : Prop :=
  exists dir i i',
    inodes db !! d = Some (IDirectory dir) /\ d_nlink dir <> 0 /\
    check_access (IDirectory dir) creds Write = Ok tt /\
    check_access (IDirectory dir) creds Execute = Ok tt /\
    entries db !! (d, n) = None /\
    inodes db !! fileid = Some i /\ is_directory i = false /\
    nlink i' = nlink i + 1 /\ type_size_rdev i' = type_size_rdev i /\ a = (fileid, file_attributes i' fileid) /\
    inodes db' = <[d := IDirectory (grow_dir now 0 dir)]> (<[fileid := i']> (inodes db)) /\
    entries db' = <[(d, n) := (fileid, read_cookie db d)]> (entries db) /\
    orphans db' = orphans db ∖ {[fileid]} /\ tombstones db' = tombstones db /\ extents db' = extents db.

Lemma tx_dereference db id i t t' :
  dereference db id i t = Ok t' -> entries (tx_db db t) = entries db ->
  tx_db db t' = dereferenced id i (tx_db db t).
Proof.
  unfold dereference, dereferenced, convert_to_reference, get_entry_with_cookie. intros H ->.
  repeat case_match; simplify_eq; try done.
  destruct (entries db !! _) as [e|]; cbn -[push] in *; simplify_eq. by rewrite tx_db_push.
Qed.

Lemma dereferenced_cookies id i g db :
  dereferenced id i (with_cookies g db) = with_cookies g (dereferenced id i db).
Proof. unfold dereferenced. by repeat (case_match; cbn in *; simplify_eq). Qed.

Lemma dereferenced_rest id i db : tombstones (dereferenced id i db) = tombstones db.
Proof. unfold dereferenced. by repeat case_match. Qed.

(** The transaction that [link] commits. *)
Lemma link_tx nid db fileid d n dir now i i' res op x t :
  NsInv nid db -> inodes db !! d = Some (IDirectory dir) ->
  inodes db !! fileid = Some i -> is_directory i = false -> entries db !! (d, n) = None ->
  read_cookie db d < U64_MAX ->
  dereference db fileid i (stage_cookie_increment d (read_cookie db d) txn_new) = Ok t ->
  let t1 := set_dedup_result op x
              (dir_add d n fileid (read_cookie db d) (if nlink i' =? 1 then Some i' else None) t) in
  tx_db db (save_directory db d (grow_dir now 0 dir)
     (inode_save fileid i' (if res : bool then orphan_remove fileid t1 else t1))) =
  link_db db fileid d n now dir i i' res.
Proof.
  intros Inv Hd Hi Hdir Hfree Hc Ht t1. pose proof (cookie_ge _ _ d Inv) as Hck. subst t1.
  apply tx_dereference in Ht; [|done]. rewrite tx_db_cookie, tx_db_new, dereferenced_cookies in Ht.
  rewrite u64_wrap_id in Ht by (unfold read_cookie, COOKIE_FIRST_ENTRY in *; ulia).
  assert (Hent : forall m, d_name dir = Some m -> (d_parent dir, m) <> (d, n)).
  { intros m Hm [= Hp _]. by eapply (live_dir_parent nid db d dir m). }
  destruct (dereferenced_fields fileid i db) as (_ & Fe & _).
  unfold link_db. rewrite tx_save_directory.
  - f_equal. autorewrite with txn.
    destruct res; autorewrite with txn; rewrite Ht; unfold linked_value; by destruct (nlink i' =? 1).
  - intros m Hm. specialize (Hent m Hm).
    destruct res; autorewrite with txn; rewrite Ht; cbn; rewrite lookup_insert_ne, Fe by done; done.
Qed.

Lemma link_effect_holds nid db db' creds fileid d n dir now i i' res :
  NsInv nid db -> inodes db !! d = Some (IDirectory dir) -> d_nlink dir <> 0 ->
  check_access (IDirectory dir) creds Write = Ok tt ->
  check_access (IDirectory dir) creds Execute = Ok tt ->
  inodes db !! fileid = Some i -> is_directory i = false -> entries db !! (d, n) = None ->
  relink d n now i = Ok (i', res) ->
  core db' = core (link_db db fileid d n now dir i i' res) ->
  link_effect creds fileid d n now (fileid, file_attributes i' fileid) db db'.
Proof.
  intros Inv Hd Hlive Hw Hx Hi Hdir Hfree Hre.
  destruct (ns_sound _ _ _ _ Inv Hi) as (So & Sb & _).
  destruct (relink_Ok _ _ _ _ _ _ Hre) as (_ & Hl & _ & Hres & _); [lia|].
  assert (Hty : type_size_rdev i' = type_size_rdev i).
  { unfold relink in Hre. repeat case_match; simplify_eq; by destruct i. }
  unfold link_db. set (db1 := with_orphans _ _). set (dd := IDirectory _).
  destruct (refreshed_fields d dd db1) as (Ei & Ee & _ & Eo). destruct (refreshed_rest d dd db1) as [Et Ex].
  destruct (dereferenced_fields fileid i db) as (Fi & Fe & _ & Fo & Fx).
  pose proof (dereferenced_rest fileid i db) as Ft.
  unfold core. rewrite Ei, Ee, Eo, Et, Ex. cbn. rewrite Fi, Fe, Fo, Ft, Fx.
  intros [= H1 H2 _ _ H3 H4 H5]. exists dir, i, i'. split_and!; auto. rewrite H3.
  destruct res; [done|]. assert (fileid ∉ orphans db); [|set_solver].
  rewrite So. by intros ?%Hres.
Qed.

Lemma link_performs env auth fileid d n op f :
  NsState f -> id_room f -> read_cookie (fs_db f) d < U64_MAX ->
  wp (link_idempotent env auth fileid d n op)
    (performs env op into_link (link_effect (from_auth_context auth) fileid d n (e_clock env 0)) f) f.
Proof.
  intros Inv Hroom Hc. unfold link_idempotent. repeat op_step.
  match goal with |- wp (commitM _ ?T _ ≫= _) _ _ =>
    assert (HT : tx_db (fs_db f1) T = link_db (fs_db f1) fileid d n (e_clock env 0) d0 a2 i b)
      by (by eapply link_tx) end.
  apply performs_commit; auto; [|rewrite HT..].
  - intros Ho _. eexists. split; [autorewrite with txn_dedup; case_match; cbn; rewrite Ho; reflexivity|done].
  - eapply link_inv; eauto. lia.
  - intros db' Hcore. eapply link_effect_holds; eauto. lia.
Qed.

(** C14: Hard linking, with or without an operation id, preserves the namespace invariant
    on every path.  On success, unless the ledger had recorded exactly this reply for the
    operation id and nothing changes, the caller may write and search the live directory,
    the name was free, the target is not a directory, it gained exactly one link and left
    the orphan list, its type, size and data are untouched, and the directory gained exactly
    this entry.  A reply under an operation id is recorded for retries; errors change
    nothing, but for that of the final flush. *)
Theorem link_sound env auth fileid d n op f :
  NsState f -> id_room f -> read_cookie (fs_db f) d < U64_MAX ->
  op_sound env op into_link (link_effect (from_auth_context auth) fileid d n (e_clock env 0))
    (link_idempotent env auth fileid d n op) f.
Proof. intros. by apply performs_sound, link_performs. Qed.

Definition root_auth : AuthContext := mkAuth 0 0 true [] true.

Lemma link_sound_witness :
  op_sound example_env retry_id into_link (link_effect root_creds 2 1 [104] (9, 5))
    (link_idempotent example_env root_auth 2 1 [104] retry_id) example_tree /\
  entries (fs_db (link_idempotent example_env root_auth 2 1 [104] retry_id example_tree).2) !! (1, [104]) =
    Some (2, 4).
Proof.
  split; [|vm_compute; reflexivity].
  apply (link_sound example_env root_auth 2 1 [104] retry_id example_tree).
  - exact example_tree_ns.
  - vm_compute. reflexivity.
  - vm_compute. reflexivity.
Defined.
