(* ===== verification/OpsLookup.v ===== *)
(** * Lookups and directory listings

    [fs/ops/lookup.rs] and the scans of [fs/store/directory.rs].  A listing is read page by
    page, each from the cookie of the last entry seen, while other operations change the
    directory in between; the theorem is about such a session. *)

From stdpp Require Import sorting.
From S2P Require Import Prelude Errors KeyCodec Inode Permissions Store Namespace Commit Ops OpsCreate OpsLink.

Definition MAX_READDIR_ENTRIES : nat := Z.to_nat 4096.

Definition fs_lookup (creds : Credentials) (dirid : Z) (filename : name) (db : Db) : result FsError Z :=
  dir_inode ← inode_get db dirid;
  match dir_inode with
  | IDirectory _ =>
      _ ← check_access dir_inode creds Execute;
      e ← get_entry_with_cookie db dirid filename;
      Ok e.1
  | _ => Err NotDirectory
  end.

(** ** Scans of a directory *)

Record DirEntryInfo := mkInfo { di_name : name; di_inode_id : Z; di_cookie : Z; di_inode : option Inode }.

(** The rows of a prefix scan in the order of their keys, from [seek] on. *)
Definition scan_row_le (a b : bytes * (name * DirScanValue)) : Prop := bytes_leb a.1 b.1 = true.
#[export] Instance scan_row_le_dec a b : Decision (scan_row_le a b).
Proof. unfold scan_row_le. apply _. Defined.
Definition scan_prefix (prefix : bytes) (seek : option bytes) (db : Db) : list (bytes * (name * DirScanValue)) :=
  merge_sort scan_row_le
    (filter (fun row => starts_with prefix row.1 = true /\ default true ((fun s => bytes_leb s row.1) <$> seek) = true)
       (map (fun kv => (dir_scan_key kv.1.1 kv.1.2, kv.2)) (map_to_list (scans db)))).

Definition entry_info (row : bytes * (name * DirScanValue)) : result FsError DirEntryInfo :=
  match parse_key row.1 with
  | ParsedDirScan cookie => Ok (mkInfo row.2.1 (scan_inode_id row.2.2) cookie (into_inode row.2.2))
  | _ => Err InvalidData
  end.
Definition dir_list (dir_id : Z) (db : Db) : list (result FsError DirEntryInfo) :=
  map entry_info (scan_prefix (dir_scan_prefix dir_id) None db).
Definition list_from (dir_id resume_after_cookie : Z) (db : Db) : list (result FsError DirEntryInfo) :=
  map entry_info (scan_prefix (dir_scan_prefix dir_id) (Some (dir_scan_resume_key dir_id resume_after_cookie)) db).

(** ** Pages *)

Record DirEntry := mkDirEntry { rd_fileid : Z; rd_name : name; rd_attr : FileAttributes; rd_cookie : Z }.
Record ReadDirResult := mkReadDir { rr_entries : list DirEntry; rr_end : bool }.

Definition dot : name := [46].
Definition dotdot : name := [46; 46].

(** Entries up to the budget; whether there is another one. *)
Fixpoint take_page (remaining : nat) (iter : list (result FsError DirEntryInfo)) : result FsError (list DirEntryInfo * bool) :=
  match iter, remaining with
  | [], _ => Ok ([], false)
  | _ :: _, O => Ok ([], true)
  | r :: rest, S n =>
      e ← r;
      p ← take_page n rest;
      Ok (e :: p.1, p.2)
  end.

(** The inode of an entry without a copy of it is looked up; if it is gone the entry is
    skipped. *)
Definition load_entry (db : Db) (e : DirEntryInfo) : option DirEntry :=
  let inode := match di_inode e with Some i => Some i | None => inodes db !! di_inode_id e end in
  (fun i => mkDirEntry (di_inode_id e) (di_name e) (file_attributes i (di_inode_id e)) (di_cookie e)) <$> inode.

Definition dotdot_entry (dirid : Z) (dir_inode : Inode) (dir : DirectoryInode) (db : Db) : result FsError DirEntry :=
  let parent_id := if dirid =? 0 then 0 else d_parent dir in
  parent_inode ← (if parent_id =? dirid then Ok dir_inode else inode_get db parent_id);
  Ok (mkDirEntry parent_id dotdot (file_attributes parent_inode parent_id) COOKIE_DOTDOT).

Definition readdir_inner (auth : option AuthContext) (dirid start_after : Z) (max_entries : nat) (db : Db)
    : result FsError ReadDirResult :=
  dir_inode ← inode_get db dirid;
  let max_entries := Nat.min max_entries MAX_READDIR_ENTRIES in
  _ ← match auth with Some a => check_access dir_inode (from_auth_context a) Read | None => Ok tt end;
  match dir_inode with
  | IDirectory dir =>
      let first := if (start_after <? COOKIE_DOT) && (0 <? max_entries)%nat
                   then [mkDirEntry dirid dot (file_attributes dir_inode dirid) COOKIE_DOT] else [] in
      second ← (if (start_after <? COOKIE_DOTDOT) && (length first <? max_entries)%nat
                then e ← dotdot_entry dirid dir_inode dir db; Ok [e] else Ok []);
      let special_entry_pending := ((start_after <? COOKIE_DOT) && (max_entries <=? 0)%nat)
                                   || ((start_after <? COOKIE_DOTDOT) && (max_entries <=? length first)%nat) in
      let entries := first ++ second in
      page ← (if (max_entries =? 0)%nat then Ok ([], negb (start_after =? U64_MAX))
              else if negb special_entry_pending && negb (start_after =? U64_MAX) then
                take_page (max_entries - length entries)
                  (if start_after <? COOKIE_DOTDOT then dir_list dirid db else list_from dirid start_after db)
              else Ok ([], special_entry_pending));
      Ok (mkReadDir (entries ++ omap (load_entry db) page.1) (negb page.2))
  | _ => Err NotDirectory
  end.

(** ** The rows of a directory *)

Abbreviation Row := (Z * (name * DirScanValue))%type.
Definition cookie_lt (a b : Row) : Prop := a.1 < b.1.
Definition cookie_le (a b : Row) : Prop := a.1 <= b.1.
#[local] Instance cookie_le_dec a b : Decision (cookie_le a b).
Proof. unfold cookie_le. apply _. Defined.

(** In the order of the cookies. *)
Definition dir_rows (db : Db) (dirid : Z) : list Row :=
  merge_sort cookie_le (omap (fun kv : Z * Z * (name * DirScanValue) => if decide (kv.1.1 = dirid) then Some (kv.1.2, kv.2) else None) (map_to_list (scans db))).

Lemma sorted_filter {A} (R : A -> A -> Prop) (P : A -> Prop) `{forall x, Decision (P x)} (l : list A) :
  StronglySorted R l -> StronglySorted R (filter P l).
Proof.
  induction 1 as [|a l _ IH Hf]; [constructor|]. destruct (decide (P a)).
  - rewrite filter_cons_True by done. constructor; [done|]. rewrite Forall_forall in Hf |- *. intros b [_ Hb]%list_elem_of_filter. by apply Hf.
  - by rewrite filter_cons_False.
Qed.

(** Sorting by distinct cookies. *)
Lemma strictly_sorted (l : list Row) : NoDup l.*1 -> StronglySorted cookie_le l -> StronglySorted cookie_lt l.
Proof.
  induction l as [|a l IH]; intros Hn Hs; [constructor|]. cbn in Hn. apply NoDup_cons in Hn as [Ha Hn].
  apply StronglySorted_inv in Hs as [Hs Hf]. constructor; [by apply IH|]. rewrite Forall_forall in Hf |- *. intros b Hb.
  specialize (Hf b Hb). unfold cookie_le, cookie_lt in *. assert (a.1 <> b.1); [|lia]. intros E. apply Ha. rewrite E. by apply list_elem_of_fmap_2.
Qed.

Lemma omap_rows_elem db dirid c v :
  (c, v) ∈ omap (fun kv : Z * Z * (name * DirScanValue) => if decide (kv.1.1 = dirid) then Some (kv.1.2, kv.2) else None) (map_to_list (scans db))
  <-> scans db !! (dirid, c) = Some v.
Proof.
  rewrite list_elem_of_omap. split.
  - intros ([[d c'] v'] & Hin & E). cbn in E. case_decide; [|done]. simplify_eq. by apply elem_of_map_to_list.
  - intros Hk. exists ((dirid, c), v). split; [by apply elem_of_map_to_list|]. cbn. by rewrite decide_True.
Qed.
Lemma dir_rows_elem db dirid c v : (c, v) ∈ dir_rows db dirid <-> scans db !! (dirid, c) = Some v.
Proof. unfold dir_rows. rewrite merge_sort_Permutation. apply omap_rows_elem. Qed.

#[local] Instance cookie_le_trans : Transitive cookie_le.
Proof. intros a b c. unfold cookie_le. lia. Qed.
#[local] Instance cookie_le_total : Total cookie_le.
Proof. intros a b. unfold cookie_le. lia. Qed.
Lemma dir_rows_sorted db dirid : StronglySorted cookie_lt (dir_rows db dirid).
Proof.
  apply strictly_sorted.
  - assert (Hp : (dir_rows db dirid).*1 ≡ₚ (omap (fun kv : Z * Z * (name * DirScanValue) => if decide (kv.1.1 = dirid) then Some (kv.1.2, kv.2) else None) (map_to_list (scans db))).*1)
      by (apply fmap_Permutation, merge_sort_Permutation).
    rewrite Hp. pose proof (NoDup_fst_map_to_list (scans db)) as Hn. clear Hp. revert Hn.
    induction (map_to_list (scans db)) as [|[[d c] v] l IH]; [constructor|]. cbn. intros [Hk Hn]%NoDup_cons. case_decide; [|by apply IH].
    subst. cbn. constructor; [|by apply IH]. intros ([c' v'] & -> & Hin)%list_elem_of_fmap. apply list_elem_of_omap in Hin as ([[d' c''] v''] & Hin & E).
    cbn in E. case_decide; [|done]. simplify_eq. apply Hk. by apply (list_elem_of_fmap_2 fst _ _ Hin).
  - apply Sorted_StronglySorted; [apply cookie_le_trans|]. apply Sorted_merge_sort; apply _.
Qed.

(** ** The scans yield them *)

Section scans.
Context (nid : Z) (db : Db) (Inv : NsInv nid db) (Hids : nid <= U64_MAX).

Lemma scan_bounds d c n v : scans db !! (d, c) = Some (n, v) ->
  0 <= d < nid /\ COOKIE_FIRST_ENTRY <= c < U64_MAX /\ entries db !! (d, n) = Some (scan_inode_id v, c).
Proof.
  intros Hs. destruct (ns_pre _ _ Inv) as [T X _ _]. pose proof (ix_entry _ _ _ X d c n v Hs) as He.
  destruct (tr_entry _ _ _ T _ _ _ _ He) as ((x & Hx & _) & _). destruct (tr_ids _ _ _ T d x Hx) as [Hd _].
  pose proof (ix_cookie _ _ _ X _ _ _ _ He) as Hc. destruct (cookies db !! d) as [k|] eqn:Ek; cbn in Hc; [|lia].
  pose proof (ix_counter _ _ _ X d k Ek). split; [done|]. split; [lia|done].
Qed.
Lemma parse_scan_key d c : is_u64 d -> is_u64 c -> parse_key (dir_scan_key d c) = ParsedDirScan c.
Proof.
  intros Hd Hc. unfold parse_key. change (dir_scan_key d c) with (key_bytes (KDirScan d c)). rewrite peek_kind_key. cbn [key_kind key_bytes].
  unfold dir_scan_key.
  assert (Hl : length (push_prefix PDirScan) = id_offset PDirScan) by reflexivity.
  rewrite !length_app, !length_be_bytes, Hl. replace (_ =? _)%nat with true by (symmetry; apply Nat.eqb_eq; lia). cbn [negb]. f_equal.
  rewrite slice_skip by (rewrite ?Hl; lia). rewrite Hl. rewrite slice_skip by (rewrite length_be_bytes; lia).
  rewrite length_be_bytes. rewrite slice_all by (rewrite length_be_bytes; lia). apply be_val_bytes. by apply u64_pow256.
Qed.

Definition info_of (r : Row) : DirEntryInfo := mkInfo r.2.1 (scan_inode_id r.2.2) r.1 (into_inode r.2.2).
Definition bytes_of (dirid : Z) (r : Row) : bytes * (name * DirScanValue) := (dir_scan_key dirid r.1, r.2).

#[local] Instance scan_row_trans : Transitive scan_row_le.
Proof. intros a b c. apply bytes_leb_trans. Qed.
#[local] Instance scan_row_total : Total scan_row_le.
Proof. intros a b. apply bytes_leb_total. Qed.

Definition seek_of (dirid start : Z) (seek : option bytes) : Prop :=
  (seek = None /\ start < COOKIE_FIRST_ENTRY) \/ (seek = Some (dir_scan_resume_key dirid start) /\ 0 <= start < U64_MAX).

Lemma scan_filter dirid start seek d c n v :
  is_u64 dirid -> seek_of dirid start seek -> scans db !! (d, c) = Some (n, v) ->
  (starts_with (dir_scan_prefix dirid) (dir_scan_key d c) = true /\ default true ((fun s => bytes_leb s (dir_scan_key d c)) <$> seek) = true)
  <-> d = dirid /\ start < c.
Proof.
  intros Hd Hseek Hs. destruct (scan_bounds d c n v Hs) as (Hdd & Hc & _). assert (Hwf : key_wf (KDirScan d c)) by (cbn; unfold COOKIE_FIRST_ENTRY in Hc; ulia).
  change (dir_scan_key d c) with (key_bytes (KDirScan d c)). destruct Hseek as [[-> Hst]|[-> Hst]]; cbn [default fmap option_fmap option_map].
  - rewrite dir_scan_prefix_keys by done. split; [intros [[c' E] _]; injection E as -> ->; lia|]. intros [-> _]. split; [by exists c|done].
  - pose proof (dir_scan_resume_exact dirid start (KDirScan d c) Hd Hst Hwf) as Hx.
    split; [intros Hx'; destruct (proj1 Hx Hx') as (c' & E & ?); by injection E as -> ->|]. intros [-> ?]. apply Hx. by exists c.
Qed.

Lemma scan_rows dirid start seek :
  is_u64 dirid -> seek_of dirid start seek ->
  scan_prefix (dir_scan_prefix dirid) seek db = bytes_of dirid <$> filter (fun r => start < r.1) (dir_rows db dirid).
Proof.
  intros Hd Hseek.
  assert (Hu : forall r, r ∈ filter (fun r => start < r.1) (dir_rows db dirid) -> is_u64 r.1).
  { intros [c [n v]] [_ Hin%dir_rows_elem]%list_elem_of_filter. destruct (scan_bounds _ _ _ _ Hin) as (_ & Hc & _). cbn. unfold COOKIE_FIRST_ENTRY in Hc. ulia. }
  assert (Hsort : StronglySorted cookie_lt (filter (fun r => start < r.1) (dir_rows db dirid))) by apply sorted_filter, dir_rows_sorted.
  assert (Hperm : scan_prefix (dir_scan_prefix dirid) seek db ≡ₚ bytes_of dirid <$> filter (fun r => start < r.1) (dir_rows db dirid)).
  { unfold scan_prefix, dir_rows. rewrite !merge_sort_Permutation.
    assert (Hall : Forall (fun kv : Z * Z * (name * DirScanValue) => scans db !! kv.1 = Some kv.2) (map_to_list (scans db))).
    { apply Forall_forall. intros [k v] Hin. by apply elem_of_map_to_list in Hin. }
    induction Hall as [|[[d c] [n v]] l Hk _ IH]; [done|]. cbn in Hk. cbn [map omap list_omap fst snd].
    pose proof (scan_filter dirid start seek d c n v Hd Hseek Hk) as Hiff. destruct (decide (d = dirid)) as [->|Hne].
    - destruct (decide (start < c)) as [Hlt|Hge].
      + rewrite !filter_cons_True by (cbn; tauto). cbn. by rewrite IH.
      + rewrite !filter_cons_False by (cbn; tauto). done.
    - rewrite filter_cons_False by (cbn; tauto). done. }
  apply (StronglySorted_unique_strong scan_row_le); [| |..|done].
  - intros x1 x2. rewrite Hperm. intros (r1 & -> & H1)%list_elem_of_fmap (r2 & -> & H2)%list_elem_of_fmap L1 L2.
    unfold scan_row_le, bytes_leb, bytes_of in L1, L2. cbn [fst] in L1, L2. rewrite negb_true_iff, dir_scan_key_order in L1 by (by apply Hu).
    rewrite negb_true_iff, dir_scan_key_order in L2 by (by apply Hu). assert (r1.1 = r2.1) by lia.
    apply list_elem_of_filter in H1 as [_ H1], H2 as [_ H2]. destruct r1 as [c v1], r2 as [c2 v2]. cbn in *. subst c2.
    apply dir_rows_elem in H1, H2. congruence.
  - apply Sorted_StronglySorted; [apply scan_row_trans|]. apply Sorted_merge_sort; apply _.
  - clear Hperm. induction Hsort as [|r l _ IH Hf]; [constructor|]. cbn. constructor; [apply IH; intros; apply Hu; by right|].
    apply Forall_fmap. rewrite Forall_forall in Hf |- *. intros r' Hr'.
    change (negb (bytes_ltb (dir_scan_key dirid r'.1) (dir_scan_key dirid r.1)) = true).
    rewrite negb_true_iff, dir_scan_key_order by (apply Hu; (by left) || by right). specialize (Hf r' Hr'). unfold cookie_lt in Hf. lia.
Qed.

Lemma scan_infos dirid start seek :
  is_u64 dirid -> seek_of dirid start seek ->
  map entry_info (scan_prefix (dir_scan_prefix dirid) seek db) = (fun r => Ok (info_of r)) <$> filter (fun r => start < r.1) (dir_rows db dirid).
Proof.
  intros Hd Hseek. rewrite (scan_rows dirid start) by done. change (map entry_info) with (fmap entry_info : list _ -> _).
  rewrite <- list_fmap_compose. apply list_fmap_ext. intros i [c [n v]] Hi. apply list_elem_of_lookup_2, list_elem_of_filter in Hi as [_ Hin%dir_rows_elem].
  destruct (scan_bounds _ _ _ _ Hin) as (_ & Hc & _). change (entry_info (dir_scan_key dirid c, (n, v)) = Ok (info_of (c, (n, v)))).
  unfold entry_info. cbn [fst snd]. rewrite parse_scan_key; [done|done|]. unfold COOKIE_FIRST_ENTRY in Hc. ulia.
Qed.

(** ** What a page holds *)

(** An entry with the attributes its inode has now. *)
Definition row_entry (db0 : Db) (r : Row) : option DirEntry :=
  let id := scan_inode_id r.2.2 in
  (fun i => mkDirEntry id r.2.1 (file_attributes i id) r.1) <$> inodes db0 !! id.
Definition listing (db0 : Db) (dirid : Z) : option (list DirEntry) :=
  match inodes db0 !! dirid with
  | Some (IDirectory dir) =>
      match dotdot_entry dirid (IDirectory dir) dir db0 with
      | Ok e => Some (mkDirEntry dirid dot (file_attributes (IDirectory dir) dirid) COOKIE_DOT :: e :: omap (row_entry db0) (dir_rows db0 dirid))
      | Err _ => None
      end
  | _ => None
  end.
Definition after (start : Z) (l : list DirEntry) : list DirEntry := filter (fun e => start < rd_cookie e) l.

Lemma row_loads dirid r : r ∈ dir_rows db dirid -> load_entry db (info_of r) = row_entry db r /\ is_Some (row_entry db r).
Proof.
  destruct r as [c [n v]]. intros Hin%dir_rows_elem. destruct (ns_pre _ _ Inv) as [T X M _].
  destruct (scan_bounds _ _ _ _ Hin) as (_ & _ & He). destruct (tr_entry _ _ _ T _ _ _ _ He) as (_ & _ & x & Hx & _).
  rewrite lookup_shapes in Hx. apply fmap_Some in Hx as (i & Hi & _). unfold load_entry, row_entry. cbn. split; [|by rewrite Hi].
  destruct v as [id j|id]; cbn in *; [|done]. by destruct (M _ _ _ _ _ Hin) as [-> _].
Qed.
Lemma loads_all dirid rows k :
  (forall r, r ∈ rows -> r ∈ dir_rows db dirid) ->
  omap (load_entry db) (info_of <$> take k rows) = take k (omap (row_entry db) rows) /\ length (omap (row_entry db) rows) = length rows.
Proof.
  revert k. induction rows as [|r rows IH]; intros k Hr; [by destruct k|].
  destruct (row_loads dirid r) as [Hl [e He]]; [apply Hr; left|]. destruct (IH (pred k)) as [IHk IHl]; [intros; apply Hr; by right|].
  split; [|cbn; rewrite He; cbn; by rewrite IHl]. destruct k as [|k]; [done|]. cbn [take fmap list_fmap omap list_omap].
  rewrite Hl, He. cbn [take]. f_equal. exact IHk.
Qed.
Lemma after_rows start rows :
  after start (omap (row_entry db) rows) = omap (row_entry db) (filter (fun r => start < r.1) rows).
Proof.
  unfold after. induction rows as [|r rows IH]; [done|]. cbn [omap list_omap].
  assert (Hc : forall e, row_entry db r = Some e -> rd_cookie e = r.1).
  { unfold row_entry. intros e. destruct (inodes db !! _); [|done]. by intros [= <-]. }
  destruct (decide (start < r.1)) as [Hlt|Hge].
  - rewrite (filter_cons_True (fun r : Row => start < r.1)) by done. cbn [omap list_omap]. destruct (row_entry db r) as [e|]; [|done].
    rewrite filter_cons_True by (by rewrite (Hc e)). by rewrite IH.
  - rewrite (filter_cons_False (fun r : Row => start < r.1)) by done. destruct (row_entry db r) as [e|]; [|done].
    rewrite filter_cons_False by (by rewrite (Hc e)). done.
Qed.
Lemma take_page_spec (rows : list Row) : forall n,
  take_page n ((fun r => Ok (info_of r)) <$> rows) = Ok (info_of <$> take n rows, (n <? length rows)%nat).
Proof.
  induction rows as [|r rows IH]; intros n; [by destruct n|]. destruct n as [|n]; [done|]. cbn [fmap list_fmap take_page mbind result_bind].
  change (list_fmap Row _ (fun r0 : Row => Ok (info_of r0)) rows) with ((fun r => Ok (E := FsError) (info_of r)) <$> rows). rewrite IH. done.
Qed.

Lemma rows_after dirid start : start < COOKIE_FIRST_ENTRY -> filter (fun r => start < r.1) (dir_rows db dirid) = dir_rows db dirid.
Proof.
  intros Hst. assert (Hall : forall r, r ∈ dir_rows db dirid -> start < r.1).
  { intros [c [n v]] Hin%dir_rows_elem. destruct (scan_bounds _ _ _ _ Hin) as (_ & ? & _). cbn. lia. }
  induction (dir_rows db dirid) as [|r rows IH]; [done|]. rewrite filter_cons_True by (apply Hall; left). f_equal. apply IH. intros; apply Hall. by right.
Qed.

(** The part of a page behind the two special entries. *)
Lemma page_rows dirid start k :
  is_u64 dirid -> 0 <= start < U64_MAX ->
  exists page, take_page k (if start <? COOKIE_DOTDOT then dir_list dirid db else list_from dirid start db) = Ok page /\
    omap (load_entry db) page.1 = take k (after start (omap (row_entry db) (dir_rows db dirid))) /\
    page.2 = (k <? length (after start (omap (row_entry db) (dir_rows db dirid))))%nat.
Proof.
  intros Hd Hst. assert (Hiter : (if start <? COOKIE_DOTDOT then dir_list dirid db else list_from dirid start db) =
    (fun r => Ok (info_of r)) <$> filter (fun r => start < r.1) (dir_rows db dirid)).
  { destruct (Z.ltb_spec start COOKIE_DOTDOT).
    - unfold dir_list. apply scan_infos; [done|]. left. split; [done|]. unfold COOKIE_DOTDOT, COOKIE_FIRST_ENTRY in *. lia.
    - unfold list_from. apply scan_infos; [done|]. by right. }
  rewrite Hiter, take_page_spec. eexists. split; [done|]. cbn [fst snd]. rewrite after_rows.
  destruct (loads_all dirid (filter (fun r => start < r.1) (dir_rows db dirid)) k) as [Hl Hlen]; [by intros r [_ ?]%list_elem_of_filter|].
  by rewrite Hl, Hlen.
Qed.

(** The special entries [es] and what fits of the rows. *)
Lemma page_cut dirid start n es (rows := omap (row_entry db) (dir_rows db dirid)) :
  is_u64 dirid -> (length es <= n)%nat -> 0 <= start < U64_MAX ->
  exists page, take_page (n - length es) (if start <? COOKIE_DOTDOT then dir_list dirid db else list_from dirid start db) = Ok page /\
    mkReadDir (es ++ omap (load_entry db) page.1) (negb page.2) =
    mkReadDir (take n (es ++ after start rows)) (length (es ++ after start rows) <=? n)%nat.
Proof.
  intros Hd Hes Hs. destruct (page_rows dirid start (n - length es) Hd Hs) as (page & Hp & Ho & Hm). exists page. split; [exact Hp|]. rewrite Ho, Hm.
  fold rows. rewrite take_app, (take_ge es) by lia. f_equal. rewrite length_app.
  destruct (Nat.ltb_spec (n - length es) (length (after start rows))), (Nat.leb_spec (length es + length (after start rows)) n); cbn; lia || done.
Qed.
Lemma after_max dirid : after U64_MAX (omap (row_entry db) (dir_rows db dirid)) = [].
Proof.
  rewrite after_rows. assert (filter (fun r : Row => U64_MAX < r.1) (dir_rows db dirid) = []) as ->; [|done].
  destruct (filter _ _) as [|[c [n0 v]] l0] eqn:Ef; [done|].
  assert (Hin : (c, (n0, v)) ∈ filter (fun r : Row => U64_MAX < r.1) (dir_rows db dirid)) by (rewrite Ef; left).
  apply list_elem_of_filter in Hin as [Hgt Hin%dir_rows_elem]. destruct (scan_bounds _ _ _ _ Hin) as (_ & ? & _). cbn in Hgt. lia.
Qed.

Lemma page_spec auth dirid start max l :
  listing db dirid = Some l -> is_u64 dirid -> 0 <= start <= U64_MAX -> (0 < max)%nat ->
  (forall i, inodes db !! dirid = Some i -> match auth with Some a => check_access i (from_auth_context a) Read | None => Ok tt end = Ok tt) ->
  let n := Nat.min max MAX_READDIR_ENTRIES in
  readdir_inner auth dirid start max db = Ok (mkReadDir (take n (after start l)) (length (after start l) <=? n)%nat).
Proof.
  intros Hl Hd Hst Hmax Hacc n. unfold listing in Hl. unfold readdir_inner, inode_get. destruct (inodes db !! dirid) as [i|] eqn:Hi; [|done].
  cbn [ok_or mbind result_bind]. rewrite (Hacc i eq_refl). cbn [mbind result_bind]. destruct i as [|dir| | | | |]; try done.
  destruct (dotdot_entry dirid (IDirectory dir) dir db) as [e2|] eqn:E2; [|done]. injection Hl as <-. fold n.
  assert (Hn : (0 < n)%nat) by (unfold n, MAX_READDIR_ENTRIES; lia).
  assert (Hc2 : rd_cookie e2 = COOKIE_DOTDOT).
  { unfold dotdot_entry in E2. cbv zeta in E2. by apply result_bind_Ok in E2 as (p & _ & [= <-]). }
  set (e1 := mkDirEntry dirid dot _ COOKIE_DOT).
  replace (0 <? n)%nat with true by (symmetry; by apply Nat.ltb_lt). replace (n <=? 0)%nat with false by (symmetry; apply Nat.leb_gt; lia).
  replace (n =? 0)%nat with false by (symmetry; apply Nat.eqb_neq; lia). rewrite !andb_true_r, !andb_false_r, orb_false_l.
  pose proof (fun es => page_cut dirid start n es Hd) as Hcut. cbv zeta in Hcut. pose proof (after_max dirid) as Hnil.
  unfold after, COOKIE_DOT, COOKIE_DOTDOT in *. rewrite !filter_cons. cbn [rd_cookie e1]. rewrite Hc2.
  destruct (Z.ltb_spec start 1) as [H1|H1].
  - rewrite (decide_True (P := start < 1)), (decide_True (P := start < 2)) by lia. replace (start <? 2) with true in Hcut |- * by lia.
    cbn [length andb]. destruct (Nat.ltb_spec 1 n) as [Hn2|Hn2]; [|by assert (n = 1%nat) as -> by lia].
    replace (n <=? 1)%nat with false by (symmetry; apply Nat.leb_gt; lia). replace (start =? U64_MAX) with false by ulia.
    destruct (Hcut [e1; e2]) as (page & Hp & Hr); [cbn; lia|ulia|].
    cbn [andb orb negb mbind result_bind length app] in Hp, Hr |- *. rewrite Hp. cbn [mbind result_bind]. by rewrite Hr.
  - rewrite (decide_False (P := start < 1)) by lia. destruct (Z.ltb_spec start 2) as [H2|H2].
    + rewrite (decide_True (P := start < 2)) by lia. cbn [length]. replace (0 <? n)%nat with true by (symmetry; by apply Nat.ltb_lt).
      replace (n <=? 0)%nat with false by (symmetry; apply Nat.leb_gt; lia). replace (start =? U64_MAX) with false by ulia.
      destruct (Hcut [e2]) as (page & Hp & Hr); [cbn; lia|ulia|].
      cbn [andb orb negb mbind result_bind length app] in Hp, Hr |- *. rewrite Hp. cbn [mbind result_bind]. by rewrite Hr.
    + rewrite (decide_False (P := start < 2)) by lia. destruct (Z.eqb_spec start U64_MAX) as [->|Hne]; cbn [andb orb negb mbind result_bind length app].
      * rewrite Hnil. by destruct n.
      * destruct (Hcut []) as (page & Hp & Hr); [cbn; lia|ulia|]. cbn [length app] in Hp, Hr. rewrite Hp. cbn [mbind result_bind]. by rewrite Hr.
Qed.
End scans.

(** ** A listing read page by page *)

Definition entry_lt (a b : DirEntry) : Prop := rd_cookie a < rd_cookie b.

Section listings.
Context (nid : Z) (db : Db) (Inv : NsInv nid db) (Hids : nid <= U64_MAX) (dirid : Z) (Hatt : attached (shapes (inodes db)) dirid).

Lemma listed_dir : exists dir, inodes db !! dirid = Some (IDirectory dir) /\ 0 <= dirid < nid.
Proof.
  destruct (ns_pre _ _ Inv) as [T _ _ _]. destruct Hatt as (x & Hx & Hdir & _). destruct (tr_ids _ _ _ T dirid x Hx) as [Hd _].
  rewrite lookup_shapes in Hx. apply fmap_Some in Hx as ([|dir| | | | |] & Hi & ->); try done. eauto.
Qed.
Lemma listing_some : exists l, listing db dirid = Some l.
Proof.
  destruct listed_dir as (dir & Hi & _). destruct (ns_pre _ _ Inv) as [T _ _ _]. unfold listing, dotdot_entry. rewrite Hi. cbv zeta.
  destruct (Z.eqb_spec dirid 0) as [->|Hne]; [cbn; eauto|]. destruct Hatt as (x & Hx & _ & [?|Hn]); [done|].
  rewrite lookup_shapes, Hi in Hx. injection Hx as <-. destruct (iname (IDirectory dir)) as [n|] eqn:En; [|by destruct Hn].
  destruct (tr_named _ _ _ T dirid (shape (IDirectory dir)) n) as (p & c & Hp & He); [by rewrite lookup_shapes, Hi|done|].
  cbn in Hp. injection Hp as Hp. destruct (tr_entry _ _ _ T _ _ _ _ He) as ((y & Hy & _) & _).
  rewrite lookup_shapes in Hy. apply fmap_Some in Hy as (j & Hj & _). unfold inode_get. rewrite Hp, Hj.
  destruct (p =? dirid); cbn; eauto.
Qed.

Lemma row_entry_cookie r e : row_entry db r = Some e -> rd_cookie e = r.1.
Proof. unfold row_entry. destruct (inodes db !! _); [|done]. by intros [= <-]. Qed.
Lemma listing_inv l : listing db dirid = Some l ->
  exists e1 e2, l = e1 :: e2 :: omap (row_entry db) (dir_rows db dirid) /\ rd_cookie e1 = COOKIE_DOT /\ rd_cookie e2 = COOKIE_DOTDOT /\
    rd_name e1 = dot /\ rd_fileid e1 = dirid /\
    Forall (fun e => exists i, inodes db !! rd_fileid e = Some i /\ rd_attr e = file_attributes i (rd_fileid e)) [e1; e2].
Proof.
  unfold listing. destruct (inodes db !! dirid) as [[|dir| | | | |]|] eqn:Hi; try done.
  destruct (dotdot_entry _ _ _ _) as [e2|] eqn:E2; [|done]. intros [= <-]. eexists _, e2. split; [done|].
  unfold dotdot_entry in E2. cbv zeta in E2. apply result_bind_Ok in E2 as (p & Hp & [= <-]). split_and!; [done..|].
  repeat constructor; cbn [rd_fileid rd_attr]; [by exists (IDirectory dir)|]. exists p. split; [|done].
  revert Hp. generalize (if dirid =? 0 then 0 else d_parent dir) as q. intros q Hp. destruct (Z.eqb_spec q dirid) as [E|_]; [injection Hp as <-; by rewrite E|].
  unfold inode_get in Hp. by destruct (inodes db !! q); [injection Hp as <-|].
Qed.
Lemma listing_sorted l : listing db dirid = Some l -> StronglySorted entry_lt l.
Proof.
  intros (e1 & e2 & -> & Hc1 & Hc2 & _)%listing_inv.
  assert (Hrows : Forall (fun e => COOKIE_FIRST_ENTRY <= rd_cookie e) (omap (row_entry db) (dir_rows db dirid))).
  { apply Forall_forall. intros e ([c [n v]] & Hin%dir_rows_elem & He)%list_elem_of_omap. rewrite (row_entry_cookie _ _ He).
    destruct (scan_bounds nid db Inv _ _ _ _ Hin) as (_ & ? & _). cbn. lia. }
  unfold COOKIE_DOT, COOKIE_DOTDOT, COOKIE_FIRST_ENTRY in *. constructor; [constructor|].
  - clear Hrows. induction (dir_rows_sorted db dirid) as [|r rows _ IH Hf]; [constructor|]. cbn. destruct (row_entry db r) as [e|] eqn:He; [|done].
    constructor; [done|]. apply Forall_forall. intros e' (r' & Hr' & He')%list_elem_of_omap. rewrite Forall_forall in Hf.
    unfold entry_lt. rewrite (row_entry_cookie _ _ He), (row_entry_cookie _ _ He'). by apply Hf.
  - eapply Forall_impl; [exact Hrows|]. unfold entry_lt. cbn. lia.
  - constructor; [unfold entry_lt; lia|]. eapply Forall_impl; [exact Hrows|]. unfold entry_lt. cbn. lia.
Qed.

(** What a listing says of an entry: its inode as it is, and what a lookup of the name finds. *)
Definition truthful (db0 : Db) (d : Z) (e : DirEntry) : Prop :=
  (exists i, inodes db0 !! rd_fileid e = Some i /\ rd_attr e = file_attributes i (rd_fileid e)) /\
  (COOKIE_FIRST_ENTRY <= rd_cookie e -> forall creds i, inodes db0 !! d = Some i -> check_access i creds Execute = Ok tt ->
   fs_lookup creds d (rd_name e) db0 = Ok (rd_fileid e)).
Definition present (db0 : Db) (d : Z) (n : name) (id c : Z) : Prop :=
  entries db0 !! (d, n) = Some (id, c) \/ (n = dot /\ id = d /\ c = COOKIE_DOT).

Lemma listing_truthful l e : listing db dirid = Some l -> e ∈ l -> truthful db dirid e.
Proof.
  intros (e1 & e2 & -> & Hc1 & Hc2 & _ & _ & [H1 [H2 _]%Forall_cons]%Forall_cons)%listing_inv He.
  unfold truthful, COOKIE_DOT, COOKIE_DOTDOT, COOKIE_FIRST_ENTRY in *.
  apply elem_of_cons in He as [->|He]; [split; [done|lia]|]. apply elem_of_cons in He as [->|He]; [split; [done|lia]|].
  apply list_elem_of_omap in He as ([c [n v]] & Hin%dir_rows_elem & He). unfold row_entry in He. cbn in He.
  destruct (inodes db !! scan_inode_id v) as [i|] eqn:Hi; [|done]. injection He as <-. cbn. split; [by exists i|].
  intros _ creds d Hd Hacc. destruct listed_dir as (dir & Hdir & _). rewrite Hdir in Hd. injection Hd as <-.
  destruct (scan_bounds nid db Inv _ _ _ _ Hin) as (_ & _ & He). unfold fs_lookup, inode_get. rewrite Hdir. cbn [ok_or mbind result_bind].
  rewrite Hacc. unfold get_entry_with_cookie. by rewrite He.
Qed.
Lemma listing_present l n id c : listing db dirid = Some l -> present db dirid n id c ->
  exists e, e ∈ l /\ rd_name e = n /\ rd_fileid e = id /\ rd_cookie e = c.
Proof.
  intros (e1 & e2 & -> & Hc1 & _ & Hn1 & Hi1 & _)%listing_inv [He|(-> & -> & ->)]; [|exists e1; split; [left|done]].
  destruct (ns_pre _ _ Inv) as [T X _ _]. destruct (ix_scan _ _ _ X _ _ _ _ He) as (v & Hs & <-). apply dir_rows_elem in Hs.
  destruct (row_loads nid db Inv dirid _ Hs) as [_ [e Hre]]. exists e. split; [right; right; apply list_elem_of_omap; eauto|].
  unfold row_entry in Hre. cbn in Hre. destruct (inodes db !! _); [|done]. by injection Hre as <-.
Qed.
End listings.

(** A client reads the directory, each page from the cookie of the last entry it got; the
    states are those its reads meet. *)
Fixpoint session (auth : option AuthContext) (dirid start : Z) (max : nat) (states : list FS) : result FsError (list DirEntry * bool) :=
  match states with
  | [] => Ok ([], false)
  | f :: rest =>
      page ← readdir_inner auth dirid start max (fs_db f);
      if rr_end page then Ok (rr_entries page, true)
      else
        more ← session auth dirid (default start (rd_cookie <$> last (rr_entries page))) max rest;
        Ok (rr_entries page ++ more.1, more.2)
  end.
Definition visitable (auth : option AuthContext) (dirid : Z) (f : FS) : Prop :=
  NsState f /\ next_id f <= U64_MAX /\ attached (shapes (inodes (fs_db f))) dirid /\
  (forall i, inodes (fs_db f) !! dirid = Some i -> match auth with Some a => check_access i (from_auth_context a) Read | None => Ok tt end = Ok tt).

Lemma sorted_after start l : StronglySorted entry_lt l -> StronglySorted entry_lt (after start l).
Proof. apply sorted_filter. Qed.

(** A page that is not the last one: where the next one starts. *)
Lemma page_split n l start : StronglySorted entry_lt l -> (0 < n)%nat -> (n < length (after start l))%nat ->
  exists c, rd_cookie <$> last (take n (after start l)) = Some c /\ start < c /\
    (forall e, e ∈ take n (after start l) -> rd_cookie e <= c) /\
    forall e, e ∈ l -> start < rd_cookie e -> e ∈ take n (after start l) \/ c < rd_cookie e.
Proof.
  intros Hs Hn Hlen. pose proof (sorted_after start l Hs) as Ha. destruct (after start l !! pred n) as [x|] eqn:Hx;
    [|apply lookup_ge_None in Hx; lia].
  assert (Hlast : last (take n (after start l)) = Some x).
  { rewrite last_lookup, length_take, Nat.min_l by lia. rewrite lookup_take_lt; [done|lia]. }
  exists (rd_cookie x). rewrite Hlast. split; [done|].
  split; [by apply list_elem_of_lookup_2, list_elem_of_filter in Hx as [? _]|].
  rewrite <- (take_drop n (after start l)) in Ha. split.
  { pose proof (StronglySorted_app_1_l entry_lt _ _ Ha) as Ht. apply last_Some in Hlast as [l' Hl']. rewrite Hl' in Ht |- *.
    intros e [He|He]%elem_of_app; [|apply list_elem_of_singleton in He as ->; done].
    apply Z.lt_le_incl, (StronglySorted_app_1_elem_of entry_lt _ _ e x Ht He). by left. }
  intros e He Hst. assert (Hin : e ∈ after start l) by (by apply list_elem_of_filter).
  rewrite <- (take_drop n (after start l)) in Hin. apply elem_of_app in Hin as [Hin|Hin]; [by left|]. right.
  apply (StronglySorted_app_1_elem_of entry_lt _ _ x e Ha); [|done]. by apply last_Some_elem_of.
Qed.

(** A session from [start] on. *)
Definition Session (auth : option AuthContext) (dirid start : Z) (max : nat) (states : list FS) (es : list DirEntry) (finished : bool) : Prop :=
  session auth dirid start max states = Ok (es, finished) /\
  StronglySorted entry_lt es /\ Forall (fun e => start < rd_cookie e) es /\
  (forall e, e ∈ es -> exists f, f ∈ states /\ truthful (fs_db f) dirid e) /\
  (finished = true -> forall n id c, start < c -> (forall f, f ∈ states -> present (fs_db f) dirid n id c) ->
    exists e, e ∈ es /\ rd_name e = n /\ rd_fileid e = id /\ rd_cookie e = c) /\
  (finished = false -> length es = length states * Nat.min max MAX_READDIR_ENTRIES)%nat.

Lemma visit auth dirid start max f (n := Nat.min max MAX_READDIR_ENTRIES) :
  visitable auth dirid f -> 0 <= start <= U64_MAX -> (0 < max)%nat ->
  exists l, StronglySorted entry_lt l /\ Forall (fun e => rd_cookie e <= U64_MAX /\ truthful (fs_db f) dirid e) l /\
    (forall m id c, present (fs_db f) dirid m id c -> exists e, e ∈ l /\ rd_name e = m /\ rd_fileid e = id /\ rd_cookie e = c) /\
    readdir_inner auth dirid start max (fs_db f) = Ok (mkReadDir (take n (after start l)) (length (after start l) <=? n)%nat).
Proof.
  intros (Inv & Hids & Hatt & Hacc) Hst Hmax. destruct (listing_some _ _ Inv _ Hatt) as [l Hl].
  destruct (listed_dir _ _ Inv _ Hatt) as (_ & _ & Hd). exists l. split; [by apply (listing_sorted _ _ Inv dirid)|]. split; [|split].
  - apply Forall_forall. intros e He. split; [|by apply (listing_truthful _ _ Inv _ Hatt l)].
    destruct (listing_inv (fs_db f) dirid l Hl) as (e1 & e2 & -> & H1 & H2 & _).
    apply elem_of_cons in He as [->|He]; [rewrite H1; by unfold COOKIE_DOT|]. apply elem_of_cons in He as [->|He]; [rewrite H2; by unfold COOKIE_DOTDOT|].
    apply list_elem_of_omap in He as ([c [m v]] & Hin%dir_rows_elem & He). rewrite (row_entry_cookie _ _ _ He).
    destruct (scan_bounds _ _ Inv _ _ _ _ Hin) as (_ & ? & _). cbn. lia.
  - intros m id c. by apply (listing_present _ _ Inv).
  - by apply (page_spec _ _ Inv Hids); [|ulia|..].
Qed.
Lemma session_ok auth dirid max states : (0 < max)%nat -> forall start, 0 <= start <= U64_MAX -> Forall (visitable auth dirid) states ->
  exists es finished, Session auth dirid start max states es finished.
Proof.
  intros Hmax. induction states as [|f states IH]; intros start Hst Hall; [exists [], false; split_and!; repeat constructor; set_solver|].
  apply Forall_cons in Hall as [Hf Hall]. destruct (visit auth dirid start max f Hf Hst Hmax) as (l & Hs & Hl & Hpres & Hpage).
  set (n := Nat.min max MAX_READDIR_ENTRIES) in *. assert (Hn : (0 < n)%nat) by (unfold n, MAX_READDIR_ENTRIES; lia).
  rewrite Forall_forall in Hl. assert (Hafter : forall e, e ∈ after start l -> start < rd_cookie e /\ e ∈ l) by (by intros e [? ?]%list_elem_of_filter).
  unfold Session. cbn [session]. rewrite Hpage. cbn [mbind result_bind rr_end rr_entries]. fold n.
  destruct (Nat.leb_spec (length (after start l)) n) as [Hend|Hmore].
  - exists (after start l), true. rewrite take_ge by done. split_and!; [done|by apply sorted_after|..|done].
    + apply Forall_forall. intros e He. by apply Hafter.
    + intros e He. exists f. split; [left|]. by apply Hl, Hafter.
    + intros _ m id c Hc Hp. destruct (Hpres m id c) as (e & He & <- & <- & <-); [apply Hp; left|]. exists e. split; [|done]. by apply list_elem_of_filter.
  - destruct (page_split n l start Hs Hn Hmore) as (c & Hlast & Hc & Hle & Hsplit). rewrite Hlast. change (default start (Some c)) with c.
    assert (Hcl : c <= U64_MAX).
    { apply fmap_Some in Hlast as (x & Hx & ->). apply last_Some_elem_of, elem_of_take in Hx as (k & Hk & _). by apply Hl, Hafter, (list_elem_of_lookup_2 _ k). }
    destruct (IH c) as (es & finished & Hr & Hso & Hgt & Htr & Hco & Hpr); [lia|done|]. rewrite Hr. cbn [mbind result_bind fst snd].
    exists (take n (after start l) ++ es), finished. rewrite Forall_forall in Hgt.
    assert (Htake : forall e, e ∈ take n (after start l) -> start < rd_cookie e <= c /\ e ∈ l).
    { intros e He. pose proof (Hle e He). apply elem_of_take in He as (k & Hk%list_elem_of_lookup_2%Hafter & _). tauto. }
    split_and!; [done|..].
    + apply StronglySorted_app_2; [intros a b [? _]%Htake Hb%Hgt; unfold entry_lt; lia| |done].
      eapply StronglySorted_app_1_l. rewrite take_drop. by apply sorted_after.
    + apply Forall_forall. intros e [[? _]%Htake|He%Hgt]%elem_of_app; lia.
    + intros e [[_ He]%Htake|He]%elem_of_app; [exists f; split; [left|by apply Hl]|]. destruct (Htr e He) as (g & ? & ?). exists g. split; [by right|done].
    + intros Hfin m id c' Hc' Hp. destruct (Hpres m id c') as (e & He & En & Ei & Ec); [apply Hp; left|].
      destruct (Hsplit e He) as [Hin|Hgt']; [lia|exists e; split; [by apply elem_of_app; left|done]|].
      destruct (Hco Hfin m id c') as (e' & He' & Hx); [lia|intros g Hg; apply Hp; by right|]. exists e'. split; [apply elem_of_app; by right|done].
    + intros Hfin. rewrite length_app, length_take, Nat.min_l, (Hpr Hfin) by lia. done.
Qed.


(** The root of the example volume, two entries a page; [/h] is made after the first page. *)
Definition example_grown : FS := example_made MakeFile 0 [104] example_tree.
