(* ===== verification/OpsRemove.v ===== *)
(** * Unlinking

    [remove] of [fs/ops/remove.rs] with its checked, conditional and idempotent
    variants.  The name is resolved before the locks are taken and verified after, so
    the operation has two phases: [remove_resolve] and [remove_locked]; the theorems
    about [remove_locked] hold for whatever the first phase saw. *)

From S2P Require Import Prelude Errors Segment Quota Inode Dedup Permissions Store Namespace.
From S2P Require Import Commit Usage Ops Boot OpsCreate OpsLink.

(** Dropping one link of an inode, shared by [remove] and the target of a rename: one
    link less; or, for the last link, deferred to the last close as an orphan; or
    deleted with its data.  The flag tells whether reclaim was deferred. *)
Definition drop_target (db : Db) (defer : bool) (now : Z * Z) (ts id : Z) (i : Inode) (t : Transaction)
  : Transaction * bool :=
  match i with
  | IDirectory _ =>
      if defer then
        (orphan_add id (inode_save id (touch_ctime now (with_links 0 (parent i) None i)) t), true)
      else (delete_directory id (inode_delete id t), false)
  | _ =>
      if 1 <? nlink i then
        (inode_save id (touch_ctime now (with_links (nlink i - 1) (parent i) (iname i) i)) t, false)
      else if defer then
        (orphan_add id (inode_save id (touch_ctime now (with_links 0 None None i)) t), true)
      else
        let t := match i with
                 | IFile f =>
                     let total_extents := div_ceil (f_size f) EXTENT_SIZE in
                     if total_extents <=? SMALL_FILE_TOMBSTONE_THRESHOLD
                     then delete_range db id 0 total_extents t
                     else tombstone_add ts id (f_size f) t
                 | _ => t
                 end in
        (inode_delete id t, false)
  end.

(** The links that decide about statistics and quota ([original_nlink]; directories
    count as one and always leave the statistics). *)
Definition last_link (i : Inode) : bool := is_directory i || (nlink i <=? 1).
Definition drop_stats (deferred : bool) (id : Z) (i : Inode) (t : Transaction) : Transaction :=
  if negb deferred && last_link i then add_inode_count_delta id (-1) t else t.
Definition drop_settlement (deferred : bool) (id : Z) (i : Inode) : Settlement :=
  if deferred then SettleDeferred id
  else match i with
       | IFile f => if f_nlink f <=? 1 then SettleQuota (Shrink (f_size f)) else SettleNone
       | _ => SettleNone
       end.

(** The parent: one entry less, one link less for a subdirectory. *)
Definition shrink_dir (now : Z * Z) (links : Z) (d : DirectoryInode) : DirectoryInode :=
  mkDir (touch_mctime now (d_attrs d)) (sat_sub (d_entry_count d) 1) (d_parent d) (d_name d)
    (sat_sub (d_nlink d) links).

Definition replay_remove (r : DedupResult) : option bool :=
  match into_remove r with Some _ => Some true | None => None end.

(** Before the locks: permission to search, then the entry. *)
Definition remove_resolve (env : Env) (creds : Credentials) (dirid : Z) (n : name) (op_id : OpId)
    (expected_entry : option (Z * Z)) (k : Z * Z -> M bool) : M bool :=
  db ← gets fs_db;
  dir_inode ← liftR (inode_get db dirid);
  match dir_inode with
  | IDirectory dir =>
      _ ← liftR (check_access dir_inode creds Execute);
      _ ← liftR (ensure (negb (d_nlink dir =? 0)) StaleHandle);
      match expected_entry with
      | Some e => k e
      | None =>
          match get_entry_with_cookie db dirid n with
          | Ok e => k e
          | Err e => replaying env op_id replay_remove (throwS e)
          end
      end
  | _ => throwS NotDirectory
  end.

(** Under the locks. *)
Definition remove_locked (env : Env) (creds : Credentials) (dirid : Z) (n : name) (op_id : OpId)
    (expected_directory : option bool) (conditional : bool) (file_id cookie : Z) : M bool :=
  replaying env op_id replay_remove (
  f ← gets (fun f => f);
  let db := fs_db f in
  dir_inode ← liftR (inode_get db dirid);
  _ ← liftR (check_access dir_inode creds Write);
  _ ← liftR (check_access dir_inode creds Execute);
  match dir_inode with
  | IDirectory dir =>
      _ ← liftR (ensure (negb (d_nlink dir =? 0)) StaleHandle);
      match get_entry_with_cookie db dirid n with
      | Err e => if conditional && bool_decide (e = NotFound) then mret false else throwS e
      | Ok (verified_id, verified_cookie) =>
          if negb (verified_id =? file_id) || negb (verified_cookie =? cookie)
          then if conditional then mret false else throwS NotFound
          else
            file_inode ← liftR (inode_get db file_id);
            _ ← liftR (ensure (negb (match expected_directory with
                                     | Some true => negb (is_directory file_inode) | _ => false end)) NotDirectory);
            _ ← liftR (ensure (negb (match expected_directory with
                                     | Some false => is_directory file_inode | _ => false end)) IsDirectory);
            let defer := should_defer_unlinked_inode f file_id in
            _ ← liftR (check_sticky_bit_delete dir_inode file_inode creds);
            t ← liftR (new_transaction env);
            let t := set_dedup_result op_id DRemove t in
            let now := e_clock env 0 in
            _ ← liftR (ensure (negb (is_directory file_inode && (0 <? ecount file_inode))) NotEmpty);
            let '(t, deferred) := drop_target db defer now (e_ts env) file_id file_inode t in
            let t := unlink_entry dirid n cookie t in
            let dir' := shrink_dir now (if is_directory file_inode then 1 else 0) dir in
            let t := save_directory db dirid dir' t in
            let t := drop_stats deferred file_id file_inode t in
            _ ← commitM env t (drop_settlement deferred file_id file_inode);
            mret true
      end
  | _ => throwS NotDirectory
  end).

Definition remove_idempotent_inner (env : Env) (auth : AuthContext) (dirid : Z) (n : name) (op_id : OpId)
    (expected_directory : option bool) (expected_entry : option (Z * Z)) : M bool :=
  _ ← liftR (validate_filename n);
  replaying env op_id replay_remove (
  let creds := from_auth_context auth in
  remove_resolve env creds dirid n op_id expected_entry (fun e =>
  _ ← liftR (e_fence env);
  remove_locked env creds dirid n op_id expected_directory (bool_decide (is_Some expected_entry)) e.1 e.2)).

Definition remove (env : Env) (auth : AuthContext) (dirid : Z) (n : name) : M unit :=
  _ ← remove_idempotent_inner env auth dirid n no_op_id None None; mret tt.
Definition remove_idempotent_checked (env : Env) (auth : AuthContext) (dirid : Z) (n : name)
    (op_id : OpId) (remove_directory : bool) : M unit :=
  _ ← remove_idempotent_inner env auth dirid n op_id (Some remove_directory) None; mret tt.
Definition remove_if_entry_matches (env : Env) (auth : AuthContext) (dirid : Z) (n : name)
    (expected_inode expected_cookie : Z) : M bool :=
  remove_idempotent_inner env auth dirid n no_op_id None (Some (expected_inode, expected_cookie)).

(** ** The invariant up to count discrepancies *)

(** [Near nid de dl db]: the invariant, except that entry and link counts may differ from
    what the entries say by [de] and [dl]; a multi-step operation passes through it. *)
Definition Near (nid : Z) (de dl : Z -> Z) (db : Db) : Prop :=
  Pre nid de dl db /\
  (forall k j, inodes db !! k = Some j -> Sound (orphans db) (cookies db) k j) /\
  (forall k, k ∈ orphans db -> is_Some (inodes db !! k)).

Lemma near_inv nid db : Near nid (fun _ => 0) (fun _ => 0) db <-> NsInv nid db.
Proof.
  split; [intros (P & S & O); by apply ns_intro|]. intros Inv. split_and!; [apply Inv|..].
  - intros k j Hj. by eapply ns_sound.
  - intros k. by eapply ns_orphan_some.
Qed.

Lemma near_ext nid de dl de' dl' db :
  Near nid de dl db -> (forall id, is_Some (inodes db !! id) -> de id = de' id /\ dl id = dl' id) ->
  Near nid de' dl' db.
Proof. intros (P & S & O) Hx. split_and!; auto. by eapply pre_ext. Qed.

(** Extents and tombstones are no part of it. *)
Lemma near_data nid de dl db g h : Near nid de dl db -> Near nid de dl (with_extents g (with_tombstones h db)).
Proof. intros ([] & S & O). split; [by split|]. by split. Qed.

Lemma near_refresh nid de dl db id i i' :
  Near nid de dl db -> inodes db !! id = Some i -> shape i' = shape i ->
  Sound (orphans db) (cookies db) id i' ->
  Near nid (fun x => de x + (ecount i' - ecount i) * one x id)
    (fun x => dl x + (nlink i' - nlink i) * one x id) (refreshed id i' db).
Proof.
  intros (P & S & O) Hi Hs Hn. destruct (refreshed_fields id i' db) as (Ei & _ & Ek & Eo).
  split_and!; [by apply pre_refresh|..]; rewrite Ei, Eo; [rewrite Ek|].
  - intros k j [[<- <-]|[_ Hj]]%lookup_insert_Some; auto.
  - intros k Hk. rewrite lookup_insert_is_Some'. auto.
Qed.

(** ** Dropping a link *)

(** What becomes of the dropped inode. *)
Definition dropped_inode (defer : bool) (now : Z * Z) (i : Inode) : option Inode :=
  if negb (last_link i) then Some (touch_ctime now (with_links (nlink i - 1) (parent i) (iname i) i))
  else if defer then Some (touch_ctime now (with_links 0 (if is_directory i then parent i else None) None i))
  else None.

(** The data that goes with it. *)
Definition drop_data (defer : bool) (ts id : Z) (i : Inode) (db : Db) : Db :=
  match i with
  | IFile f =>
      if last_link i && negb defer then
        if div_ceil (f_size f) EXTENT_SIZE <=? SMALL_FILE_TOMBSTONE_THRESHOLD
        then with_extents (clear_range id 0 (div_ceil (f_size f) EXTENT_SIZE)) db
        else with_tombstones <[(ts, id) := f_size f]> db
      else db
  | _ => db
  end.

Definition drop_db (defer : bool) (now : Z * Z) (ts id : Z) (i : Inode) (db : Db) : Db :=
  match dropped_inode defer now i with
  | Some i' => with_orphans (if last_link i then fun o => {[id]} ∪ o else fun o => o)
                 (with_inodes <[id := i']> db)
  | None => with_cookies (if is_directory i then delete id else fun k => k)
              (with_inodes (delete id) (drop_data defer ts id i db))
  end.

Lemma drop_target_flag db defer now ts id i t :
  (drop_target db defer now ts id i t).2 = last_link i && defer.
Proof.
  unfold drop_target, last_link. destruct i; cbn; repeat case_match; cbn in *; try done; lia.
Qed.

Lemma drop_target_tx db defer now ts id i t :
  tx_db db t = db ->
  tx_db db (drop_target db defer now ts id i t).1 = drop_db defer now ts id i db.
Proof.
  intros Ht. assert (Hx : extents (tx_db db t) = extents db) by (by rewrite Ht).
  unfold drop_target, drop_db, dropped_inode, drop_data, last_link.
  rewrite !(Z.leb_antisym 1).
  destruct i; cbn [is_directory nlink orb]; try destruct (1 <? _); destruct defer; cbn [negb andb fst];
    try case_match; autorewrite with txn; rewrite ?tx_db_delete_range by done; rewrite ?Ht; by destruct db.
Qed.

(** What the invariant says of a named inode that may be removed. *)
Record removable (db : Db) (id : Z) (i : Inode) : Prop := {
  rm_inode : inodes db !! id = Some i;
  rm_empty : nentries (entries db) id = 0;
  rm_last : last_link i = true -> nrefs (entries db) id = 1 /\ nlink i = if is_directory i then 2 else 1;
  rm_more : last_link i = false -> is_directory i = false /\ 1 < nlink i /\ iname i = None /\ parent i = None }.

Lemma named_removable nid db d n id c i :
  NsInv nid db -> entries db !! (d, n) = Some (id, c) -> inodes db !! id = Some i ->
  (is_directory i = true -> ecount i = 0) -> removable db id i.
Proof.
  intros Inv He Hi Hec. destruct (inv_entry _ _ Inv _ _ _ _ He) as (_ & H0 & _ & i' & Hi' & Hpos & Hnm).
  rewrite Hi in Hi'. injection Hi' as <-. split; auto; unfold last_link.
  - destruct (is_directory i) eqn:Hd; [rewrite <- (inv_ecount _ _ Inv id i Hi Hd); auto|].
    apply nentries_zero. intros m [k c'] Hk. apply (inv_entry _ _ Inv) in Hk as ((x & Hx & Hxd & _) & _).
    rewrite lookup_shapes, Hi in Hx. injection Hx as <-. cbn in Hxd. congruence.
  - destruct (is_directory i) eqn:Hd.
    + intros _. destruct (Hnm (or_introl eq_refl)) as [_ Hn].
      destruct (inv_named _ _ Inv id i n Hi Hn) as (_ & _ & _ & _ & Hr). split; [done|].
      rewrite (inv_links _ _ Inv id i Hi). unfold exp_links. cbn. rewrite Hd, Hn, decide_True by auto.
      rewrite (nsub_zero nid _ (entries db)); [done|apply Inv|]. rewrite <- (inv_ecount _ _ Inv id i Hi Hd). auto.
    + cbn [orb]. intros Hle. rewrite (inv_nrefs _ _ Inv id i Hi Hd). lia.
  - destruct (is_directory i) eqn:Hd; [done|]. cbn [orb]. intros Hgt.
    assert (Hn : iname i = None).
    { destruct (iname i) as [m|] eqn:Hm; [|done].
      destruct (inv_named _ _ Inv id i m Hi Hm) as (_ & _ & _ & _ & Hr).
      rewrite (inv_nrefs _ _ Inv id i Hi Hd) in Hr. lia. }
    split_and!; auto; [lia|]. by apply (inv_unnamed _ _ Inv id).
Qed.

Lemma dropped_inode_Some defer now i i' :
  dropped_inode defer now i = Some i' -> 
  is_directory i' = is_directory i /\ ecount i' = ecount i /\
  nlink i' = (if last_link i then 0 else nlink i - 1) /\
  iname i' = (if last_link i then None else iname i) /\
  parent i' = (if is_directory i then parent i else if last_link i then None else parent i).
Proof.
  unfold dropped_inode. destruct (last_link i) eqn:Hl; cbn; [destruct defer; [|done]|];
    intros [= <-]; unfold touch_ctime; autorewrite with inode; split_and!; try done; by destruct i.
Qed.

Lemma drop_data_shape defer ts id i db :
  exists g h, drop_data defer ts id i db = with_extents g (with_tombstones h db).
Proof.
  assert (Hid : db = with_extents (fun m => m) (with_tombstones (fun m => m) db)) by (by destruct db).
  unfold drop_data. repeat case_match; eauto;
    [by exists (clear_range id 0 (div_ceil (f_size f) EXTENT_SIZE)), (fun m => m)
    |by exists (fun m => m), <[(ts, id) := f_size f]>].
Qed.

Lemma near_drop nid db d n id c i defer now ts :
  NsInv nid db -> entries db !! (d, n) = Some (id, c) -> inodes db !! id = Some i ->
  (is_directory i = true -> ecount i = 0) ->
  Near nid (one d) (fun x => if is_directory i then one d x else 0)
    (with_scans (delete (d, c)) (with_entries (delete (d, n)) (drop_db defer now ts id i db))).
Proof.
  intros Inv He Hi Hec. destruct (named_removable _ _ _ _ _ _ _ Inv He Hi Hec) as [_ Hem Hla Hmo].
  pose proof (ns_sound _ _ _ _ Inv Hi) as (So & Sb & Sr).
  destruct (inv_entry _ _ Inv _ _ _ _ He) as (_ & _ & _ & i0 & Hi0 & Hpos & _).
  rewrite Hi in Hi0. injection Hi0 as <-.
  unfold drop_db. destruct (dropped_inode defer now i) as [i'|] eqn:Hdi.
  - apply dropped_inode_Some in Hdi as (Hd' & He' & Hl' & Hn' & Hp').
    set (g := if last_link i then _ else _).
    assert (Hpn : iname i' = None /\
      (if is_directory i then parent i' = parent i /\ nentries (entries db) id = 0 else parent i' = None)).
    { rewrite Hn', Hp'. destruct (last_link i); [by destruct (is_directory i)|].
      destruct (Hmo eq_refl) as (-> & _ & -> & ->). done. }
    split_and!.
    + eapply pre_ext; [exact (pre_orphans _ _ _ _ g (pre_unlink_keep _ _ _ db d n id i i' c
        (ns_pre _ _ Inv) He Hi Hd' (proj1 Hpn) (proj2 Hpn)))|].
      intros k _. cbn. rewrite He', Hl'. split; [lia|].
      destruct (last_link i); [destruct (Hla eq_refl) as [_ ->]|destruct (Hmo eq_refl) as (-> & _)];
        try destruct (is_directory i); lia.
    + cbn. intros k j [[<- <-]|[Hk Hj]]%lookup_insert_Some.
      * unfold Sound. rewrite Hl', Hd', He'. unfold g.
        destruct (last_link i); [set_solver by lia|]. destruct (Hmo eq_refl) as (_ & ? & _).
        rewrite So. split_and!; auto; lia.
      * eapply sound_frame; [by eapply ns_sound| |done]. unfold g. destruct (last_link i); set_solver.
    + cbn. intros k Hk. rewrite lookup_insert_is_Some'. 
      destruct (decide (k = id)) as [->|]; [by left|right]. eapply ns_orphan_some; [done|].
      unfold g in Hk. destruct (last_link i); set_solver.
  - assert (Hl : last_link i = true) by (unfold dropped_inode in Hdi; by destruct (last_link i), defer).
    destruct (Hla Hl) as [Hr Hln].
    assert (N : Near nid (one d) (fun x => if is_directory i then one d x else 0)
      (with_scans (delete (d, c)) (with_entries (delete (d, n))
        (with_cookies (if is_directory i then delete id else fun k => k) (with_inodes (delete id) db))))).
    { split_and!.
      - eapply pre_ext; [by apply (pre_unlink_drop _ _ _ db d n id i c _ (ns_pre _ _ Inv))|].
        intros k _. cbn. split; lia.
      - cbn. intros k j [Hk Hj]%lookup_delete_Some. eapply sound_frame; [by eapply ns_sound|done|].
        destruct (is_directory i); [by rewrite lookup_delete_ne|done].
      - cbn. intros k Hk. rewrite lookup_delete_ne; [by eapply ns_orphan_some|].
        intros <-. apply So in Hk. lia. }
    destruct (drop_data_shape defer ts id i db) as (g & h & ->). by apply (near_data _ _ _ _ g h N).
Qed.

(** ** The operation *)

(** A live directory that has an entry has at least one entry and two links (three with
    a subdirectory). *)
Lemma parent_counts nid db d dir n id c i :
  NsInv nid db -> inodes db !! d = Some (IDirectory dir) -> entries db !! (d, n) = Some (id, c) ->
  inodes db !! id = Some i ->
  1 <= d_entry_count dir /\ 2 + (if is_directory i then 1 else 0) <= d_nlink dir.
Proof.
  intros Inv Hd He Hi. split.
  - pose proof (inv_ecount _ _ Inv d _ Hd eq_refl) as Hec. cbn in Hec. rewrite Hec.
    assert (0 < nentries (entries db) d); [|lia]. eapply mcount_pos; [done|]. by apply bool_decide_eq_true.
  - destruct (inv_entry _ _ Inv _ _ _ _ He) as (Ha & _ & _ & j & Hj & _ & Hnm).
    rewrite Hi in Hj. injection Hj as <-. apply (inv_live_dir _ _ Inv d dir Hd) in Ha.
    pose proof (inv_links _ _ Inv d _ Hd) as Hl. unfold exp_links in Hl. cbn in Hl.
    destruct (decide _); [|done]. rewrite Hl.
    assert (0 <= nsub (shapes (inodes db)) d) by apply mcount_nonneg.
    destruct (is_directory i) eqn:Hdi; [|lia].
    assert (0 < nsub (shapes (inodes db)) d); [|lia].
    eapply (mcount_pos _ _ id (shape i)); [by rewrite lookup_shapes, Hi|].
    destruct (Hnm (or_introl eq_refl)) as [Hp Hn]. unfold is_sub, shape. cbn.
    rewrite Hdi, Hp, Hn, bool_decide_true, bool_decide_true by done. done.
Qed.

(** The parent after an entry is gone. *)
Lemma near_shrink nid db db1 d dir n id c i now :
  NsInv nid db -> inodes db !! d = Some (IDirectory dir) -> entries db !! (d, n) = Some (id, c) ->
  inodes db !! id = Some i ->
  Near nid (one d) (fun x => if is_directory i then one d x else 0) db1 ->
  inodes db1 !! d = Some (IDirectory dir) ->
  NsInv nid (refreshed d (IDirectory (shrink_dir now (if is_directory i then 1 else 0) dir)) db1).
Proof.
  intros Inv Hd He Hi N Hd1. destruct (parent_counts _ _ _ _ _ _ _ _ Inv Hd He Hi) as [Hec Hln].
  pose proof N as (_ & S & _). destruct (S d _ Hd1) as (So & Sb & Sr). cbn in So, Sb, Sr.
  apply near_inv. eapply near_ext.
  - eapply (near_refresh _ _ _ _ d (IDirectory dir)); [exact N|done|done|].
    unfold Sound. cbn. unfold sat_sub. rewrite So. specialize (Sr eq_refl).
    revert Hln. destruct (is_directory i); intros Hln; split_and!; lia.
  - intros k _. cbn. unfold sat_sub. rewrite (one_sym k d), !Z.max_r by (destruct (is_directory i); lia).
    destruct (is_directory i); split; lia.
Qed.

(** What a removal does: the entry is gone, the inode lost a link or is gone (an inode
    held open is kept, without a name, as an orphan), the parent is adjusted; the data of
    a deleted file is deleted, or left to the collector by a tombstone.  A conditional
    removal that finds another entry changes nothing. *)
Definition remove_effect (creds : Credentials) (dirid : Z) (n : name) (expected_directory : option bool)
    (held : Z -> bool) (now : Z * Z) (ts : Z) (a : bool) (db db' : Db) : Prop :=
  if a then
    exists dir id c i defer,
      inodes db !! dirid = Some (IDirectory dir) /\ d_nlink dir <> 0 /\
      check_access (IDirectory dir) creds Write = Ok tt /\
      check_access (IDirectory dir) creds Execute = Ok tt /\
      check_sticky_bit_delete (IDirectory dir) i creds = Ok tt /\
      entries db !! (dirid, n) = Some (id, c) /\ inodes db !! id = Some i /\
      (forall b, expected_directory = Some b -> is_directory i = b) /\
      (is_directory i = true -> nentries (entries db) id = 0) /\
      (held id = true -> defer = true) /\
      entries db' = delete (dirid, n) (entries db) /\
      inodes db' = <[dirid := IDirectory (shrink_dir now (if is_directory i then 1 else 0) dir)]>
        (match dropped_inode defer now i with Some i' => <[id := i']> (inodes db) | None => delete id (inodes db) end) /\
      orphans db' = (if last_link i && defer then {[id]} ∪ orphans db else orphans db) /\
      tombstones db' = tombstones (drop_data defer ts id i db) /\
      extents db' = extents (drop_data defer ts id i db)
  else core db' = core db.

(** The transaction of a removal. *)
Lemma remove_tx nid db d n id c i dir defer now ts l op x t b :
  NsInv nid db -> entries db !! (d, n) = Some (id, c) -> inodes db !! d = Some (IDirectory dir) ->
  drop_target db defer now ts id i (set_dedup_result op x txn_new) = (t, b) ->
  tx_db db (drop_stats b id i (save_directory db d (shrink_dir now l dir) (unlink_entry d n c t))) =
  refreshed d (IDirectory (shrink_dir now l dir))
    (with_scans (delete (d, c)) (with_entries (delete (d, n)) (drop_db defer now ts id i db))).
Proof.
  intros Inv He Hd Ht.
  assert (HT : tx_db db t = drop_db defer now ts id i db).
  { change t with (t, b).1. rewrite <- Ht. by apply drop_target_tx. }
  assert (Hst : forall t', tx_db db (drop_stats b id i t') = tx_db db t').
  { intros t'. unfold drop_stats. case_match; [apply tx_db_count|done]. }
  assert (Hen : entries (drop_db defer now ts id i db) = entries db).
  { unfold drop_db. destruct (drop_data_shape defer ts id i db) as (g & h & ->). by repeat case_match. }
  rewrite Hst, tx_save_directory; rewrite tx_db_unlink, HT; [done|].
  intros m Hm. cbn. rewrite Hen, lookup_delete_ne; [done|]. intros [= Hp _].
  by eapply (live_dir_parent nid db d dir m).
Qed.

Lemma drop_db_fields defer now ts id i db :
  inodes (drop_db defer now ts id i db) =
    (match dropped_inode defer now i with Some i' => <[id := i']> (inodes db) | None => delete id (inodes db) end) /\
  entries (drop_db defer now ts id i db) = entries db /\
  orphans (drop_db defer now ts id i db) = (if last_link i && defer then {[id]} ∪ orphans db else orphans db) /\
  tombstones (drop_db defer now ts id i db) = tombstones (drop_data defer ts id i db) /\
  extents (drop_db defer now ts id i db) = extents (drop_data defer ts id i db).
Proof.
  destruct (drop_data_shape defer ts id i db) as (g & h & Hdd).
  unfold drop_db, dropped_inode. destruct (last_link i) eqn:Hl, defer; cbn [negb andb]; try (by rewrite Hdd);
    unfold drop_data; rewrite Hl; cbn [negb andb]; by destruct i.
Qed.

Lemma remove_effect_holds nid db db' creds d n id c i dir defer ed held now ts :
  NsInv nid db -> entries db !! (d, n) = Some (id, c) -> inodes db !! d = Some (IDirectory dir) ->
  d_nlink dir <> 0 -> check_access (IDirectory dir) creds Write = Ok tt ->
  check_access (IDirectory dir) creds Execute = Ok tt ->
  check_sticky_bit_delete (IDirectory dir) i creds = Ok tt -> inodes db !! id = Some i ->
  (forall b, ed = Some b -> is_directory i = b) -> (is_directory i = true -> ecount i = 0) ->
  (held id = true -> defer = true) ->
  core db' = core (refreshed d (IDirectory (shrink_dir now (if is_directory i then 1 else 0) dir))
    (with_scans (delete (d, c)) (with_entries (delete (d, n)) (drop_db defer now ts id i db)))) ->
  remove_effect creds d n ed held now ts true db db'.
Proof.
  intros Inv He Hd Hl Hw Hx Hs Hi Hed Hec Hh. set (db1 := with_scans _ _). set (dd := IDirectory _).
  destruct (refreshed_fields d dd db1) as (Ei & Ee & _ & Eo). destruct (refreshed_rest d dd db1) as [Et Ex].
  destruct (drop_db_fields defer now ts id i db) as (Fi & Fe & Fo & Ft & Fx).
  unfold core. rewrite Ei, Ee, Eo, Et, Ex. subst db1. cbn. rewrite Fi, Fe, Fo, Ft, Fx.
  intros [= H1 H2 _ _ H3 H4 H5]. exists dir, id, c, i, defer. split_and!; auto.
  intros Hdir. rewrite <- (inv_ecount _ _ Inv id i Hi Hdir). auto.
Qed.

Lemma held_defers f id : 0 < default 0 (open_handles f !! id) -> should_defer_unlinked_inode f id = true.
Proof.
  intros Hh. unfold should_defer_unlinked_inode, open_handle_count. by rewrite (proj2 (Z.ltb_lt _ _) Hh).
Qed.

Lemma dedup_drop_target db defer now ts id i t : tx_dedup (drop_target db defer now ts id i t).1 = tx_dedup t.
Proof.
  unfold drop_target. destruct i; repeat case_match; cbn; autorewrite with txn_dedup; try done.
Qed.
Lemma dedup_drop_stats b id i t : tx_dedup (drop_stats b id i t) = tx_dedup t.
Proof. unfold drop_stats. case_match; by autorewrite with txn_dedup. Qed.
#[export] Hint Rewrite dedup_drop_target dedup_drop_stats : txn_dedup.

Lemma remove_locked_performs env creds dirid n op ed cond id c held f :
  NsState f -> id_room f ->
  (forall k, held k = true -> 0 < default 0 (open_handles f !! k)) ->
  wp (remove_locked env creds dirid n op ed cond id c)
    (performs env op replay_remove (remove_effect creds dirid n ed held (e_clock env 0) (e_ts env)) f) f.
Proof.
  intros Inv Hroom Hheld. unfold remove_locked. repeat op_step.
  assert (Hnop : performs env op replay_remove (remove_effect creds dirid n ed held (e_clock env 0) (e_ts env)) f0 (Ok false) f0).
  { split; [done|]. right. exists false. split; [done|]. split; [|by left]. intros _ [x Hx]. unfold replay_remove in Hx. by destruct (into_remove x). }
  destruct (get_entry_with_cookie (fs_db f0) dirid n) as [[vid vc]|e] eqn:He.
  2: { case_match; [done|by apply wp_throw, performs_err]. }
  destruct (negb _ || _) eqn:Hv; [case_match; [done|by apply wp_throw, performs_err]|].
  assert (vid = id /\ vc = c) as [-> ->] by lia. repeat op_step.
  destruct (drop_target _ _ _ _ _ _ _) as [t b] eqn:Ht.
  assert (Hem : is_directory a = true -> ecount a = 0).
  { intros Hd. rewrite Hd in *. rewrite (inv_ecount _ _ H2 id a E3 Hd) in *.
    assert (0 <= nentries (entries (fs_db f0)) id) by apply mcount_nonneg. lia. }
  pose proof (remove_tx _ _ _ _ _ _ _ _ _ _ _ (if is_directory a then 1 else 0) _ _ _ _ H2 He E Ht) as HT.
  apply performs_commit; auto; [|rewrite HT..].
  - intros Ho _. exists DRemove. split; [|done]. apply (f_equal fst), (f_equal tx_dedup) in Ht.
    rewrite dedup_drop_target in Ht. cbn in Ht. rewrite Ho in Ht. autorewrite with txn_dedup. symmetry. exact Ht.
  - eapply near_shrink; eauto; [by eapply near_drop|]. cbn.
    destruct (drop_db_fields (should_defer_unlinked_inode f0 id) (e_clock env 0) (e_ts env) id a (fs_db f0)) as [-> _].
    destruct (inv_entry _ _ H2 _ _ _ _ He) as (_ & _ & Hne & _).
    destruct (dropped_inode _ _ a); [by rewrite lookup_insert_ne|by rewrite lookup_delete_ne].
  - intros db' Hcore. eapply (remove_effect_holds _ _ _ _ _ _ _ _ _ _ (should_defer_unlinked_inode f0 id)); eauto; [lia|..].
    + intros b' ->. by destruct b', (is_directory a).
    + intros Hh%Hheld. by apply held_defers.
Qed.

Lemma remove_performs env auth dirid n op ed ee held f :
  NsState f -> id_room f -> (forall k, held k = true -> 0 < default 0 (open_handles f !! k)) ->
  wp (remove_idempotent_inner env auth dirid n op ed ee)
    (performs env op replay_remove (remove_effect (from_auth_context auth) dirid n ed held (e_clock env 0) (e_ts env)) f) f.
Proof.
  intros Inv Hroom Hheld. unfold remove_idempotent_inner, remove_resolve. repeat op_step.
  - by apply remove_locked_performs.
  - destruct (get_entry_with_cookie _ _ _) as [e|e]; repeat op_step. by apply remove_locked_performs.
Qed.


