(* ===== verification/Reclaim.v ===== *)
(** * Reclaim of unlinked inodes

    [reclaim_if_unreferenced], [reclaim_orphan_inode] and [drain_orphans] of
    [fs/handle.rs]: an inode whose last link went while it was held open, or while a
    retained result protected it, is deleted with its data after the last close, after
    the result expires, or when the volume is opened. *)

From stdpp Require Import sorting.
From S2P Require Import Prelude Errors Segment Quota Inode Dedup Permissions Store Namespace.
From S2P Require Import Commit Usage Ops Boot OpsCreate OpsLink OpsRemove.

(** Nothing to reclaim; a stray orphan key is cleared. *)
Definition clear_stray (env : Env) (id : Z) : M unit :=
  f ← gets (fun f => f);
  if orphan_contains (fs_db f) id then
    t ← liftR (new_transaction env);
    commitM env (orphan_remove id t) SettleNone
  else mret tt.

Definition reclaim_orphan_inode (env : Env) (id : Z) : M unit :=
  f ← gets (fun f => f);
  let db := fs_db f in
  match inode_get db id with
  | Ok i =>
      if nlink i =? 0 then
        match i with
        | IFile file =>
            t ← liftR (new_transaction env);
            let total_extents := div_ceil (f_size file) EXTENT_SIZE in
            let t := if total_extents <=? SMALL_FILE_TOMBSTONE_THRESHOLD
                     then delete_range db id 0 total_extents t
                     else tombstone_add (e_ts env) id (f_size file) t in
            let t := add_inode_count_delta id (-1) (inode_delete id t) in
            commitM env (orphan_remove id t) (SettleQuota (Shrink (f_size file)))
        | IDirectory dir =>
            if negb (d_entry_count dir =? 0) then mret tt
            else
              t ← liftR (new_transaction env);
              let t := delete_directory id (inode_delete id t) in
              commitM env (orphan_remove id (add_inode_count_delta id (-1) t)) SettleNone
        | _ =>
            t ← liftR (new_transaction env);
            let t := add_inode_count_delta id (-1) (inode_delete id t) in
            commitM env (orphan_remove id t) SettleNone
        end
      else clear_stray env id
  | Err e => if bool_decide (e = NotFound) then clear_stray env id else throwS e
  end.

(** [DedupCache::reclaim_when_unprotected] on the shared ledger. *)
Definition reclaim_when_unprotectedM (id : Z) : M bool :=
  fun f => let '(b, d) := reclaim_when_unprotected id (fs_dedup f) in (Ok b, set_fs_dedup d f).

(** Errors are logged. *)
Definition reclaim_if_unreferenced (env : Env) (id : Z) (f : FS) : FS :=
  match e_fence env with
  | Err _ => f
  | Ok _ =>
      if 0 <? open_handle_count f id then f
      else
        match reclaim_when_unprotectedM id f with
        | (Ok true, f1) => f1
        | (_, f1) => (reclaim_orphan_inode env id f1).2
        end
  end.

(** Each id in key order; [envs id] is the environment its reclaim meets. *)
Definition drain_orphans (envs : Z -> Env) (f : FS) : FS :=
  foldl (fun f id => reclaim_if_unreferenced (envs id) id f) f
    (merge_sort Z.le (elements (orphans (fs_db f)))).

(** ** What a reclaim does *)

Definition reclaim_db (ts id : Z) (i : Inode) (db : Db) : Db :=
  with_orphans (fun o => o ∖ {[id]}) (drop_db false (0, 0) ts id i db).

(** An inode without links goes, with its orphan entry and its data; anything else
    stays. *)
Definition reclaim_effect (ts id : Z) (db db' : Db) : Prop :=
  match inodes db !! id with
  | Some i => if nlink i =? 0 then core db' = core (reclaim_db ts id i db) else core db' = core db
  | None => core db' = core db
  end.

Lemma orphan_inode nid db id i : NsInv nid db -> inodes db !! id = Some i -> nlink i = 0 ->
  id <> 0 /\ nrefs (entries db) id = 0 /\ nentries (entries db) id = 0 /\ last_link i = true.
Proof.
  intros Inv Hi Hz. split_and!.
  - intros ->. pose proof (inv_links _ _ Inv 0 i Hi) as Hl. unfold exp_links in Hl.
    destruct (tr_root _ _ _ (inv_tree _ _ Inv)) as (x & Hx & Hd & _). rewrite lookup_shapes, Hi in Hx.
    injection Hx as <-. rewrite Hd, decide_True in Hl by auto.
    assert (0 <= nsub (shapes (inodes db)) 0) by apply mcount_nonneg. lia.
  - apply nrefs_zero. intros [d n] c (_ & _ & _ & j & Hj & Hp & _)%(inv_entry _ _ Inv).
    rewrite Hi in Hj. injection Hj as <-. lia.
  - apply nentries_zero. intros n [k c] (Ha & _)%(inv_entry _ _ Inv).
    destruct (attached_links _ _ _ Ha Hi) as [Hd _]. destruct i as [|dir|s|s|s|s|s]; try done.
    by apply (inv_live_dir _ _ Inv id dir Hi) in Ha.
  - unfold last_link. rewrite Hz. by destruct (is_directory i).
Qed.

Lemma reclaim_inv nid db ts id i :
  NsInv nid db -> inodes db !! id = Some i -> nlink i = 0 -> NsInv nid (reclaim_db ts id i db).
Proof.
  intros Inv Hi Hz. destruct (orphan_inode _ _ _ _ Inv Hi Hz) as (H0 & Hr & He & Hl).
  unfold reclaim_db, drop_db, dropped_inode. rewrite Hl. cbn [negb].
  assert (N : Near nid (fun _ => 0) (fun _ => 0) (with_orphans (fun o => o ∖ {[id]})
    (with_cookies (if is_directory i then delete id else fun k => k) (with_inodes (delete id) db)))).
  { split_and!.
    - by apply pre_orphans, (pre_reclaim _ _ _ _ _ i); [apply Inv|..].
    - cbn. intros k j [Hk Hj]%lookup_delete_Some. eapply sound_frame; [by eapply ns_sound|set_solver|].
      destruct (is_directory i); [by rewrite lookup_delete_ne|done].
    - cbn. intros k [Hk Hne]%elem_of_difference. rewrite lookup_delete_ne by set_solver.
      by eapply ns_orphan_some. }
  destruct (drop_data_shape false ts id i db) as (g & h & ->). by apply near_inv, (near_data _ _ _ _ g h N).
Qed.

(** ** One reclaim *)

(** Nothing in the way of a commit. *)
Definition willing (env : Env) : Prop :=
  e_fence env = Ok tt /\ e_read_only env = false /\ exists fl, e_outcome env = Applied fl.

(** The outcome of a reclaim; handles and retained results are as before. *)
Record reclaimed (env : Env) (eff : Db -> Db -> Prop) (f f' : FS) : Prop := {
  rc_ns : NsState f';
  rc_bumped : bumped f f';
  rc_handles : open_handles f' = open_handles f;
  rc_protected : protected_inodes (fs_dedup f') = protected_inodes (fs_dedup f);
  rc_effect : core (fs_db f') = core (fs_db f) /\ ~ willing env \/ eff (fs_db f) (fs_db f') }.

Lemma reclaimed_stay env (eff : Db -> Db -> Prop) f :
  NsState f -> ~ willing env \/ eff (fs_db f) (fs_db f) -> reclaimed env eff f f.
Proof. intros Inv H. split; auto; [unfold bumped; lia|]. tauto. Qed.

Lemma wp_reclaim_commit env (eff : Db -> Db -> Prop) t s f :
  NsState f -> next_id f < U64_MAX -> NsInv (next_id f) (tx_db (fs_db f) t) -> tx_dedup t = None ->
  (forall db', core db' = core (tx_db (fs_db f) t) -> eff (fs_db f) db') ->
  wp (commitM env t s) (fun _ => reclaimed env eff f) f.
Proof.
  intros Inv Hn Inv' Hd He. pose proof (ns_nid_pos _ _ Inv). apply wp_commit; [lia|..].
  - intros e f' Ho [Hdb Hb Hdd Hh]. split; auto; [|by rewrite Hdd|].
    + unfold NsState. rewrite Hdb. eapply ns_mono; [exact Inv|]. apply Hb.
    + left. rewrite Hdb. split; [done|]. intros (_ & _ & fl & Hfl). by apply (Ho fl).
  - intros r f' [Hc Hb _ Hdd Hh]. rewrite Hd in Hdd. split; auto; [|by rewrite Hdd].
    unfold NsState. eapply ns_mono; [|apply Hb]. by eapply ns_core.
Qed.

Lemma wp_clear_stray env (eff : Db -> Db -> Prop) id f :
  NsState f -> (forall i, inodes (fs_db f) !! id = Some i -> nlink i <> 0) -> eff (fs_db f) (fs_db f) ->
  wp (clear_stray env id) (fun _ => reclaimed env eff f) f.
Proof.
  intros Inv Hi He. unfold clear_stray. apply wp_bind, wp_gets. unfold orphan_contains.
  case_bool_decide as Ho; [|apply wp_ret, reclaimed_stay; auto].
  apply (ns_orphans _ _ Inv) in Ho as (i & Hi' & Hz). by apply Hi in Hi'.
Qed.

(** The deletion of an inode without links, staged by [k] and committed. *)
Lemma wp_reclaim_txn env id i f (k : Transaction -> Transaction) s :
  NsState f -> next_id f < U64_MAX -> inodes (fs_db f) !! id = Some i -> nlink i = 0 ->
  tx_db (fs_db f) (k txn_new) = drop_db false (0, 0) (e_ts env) id i (fs_db f) ->
  tx_dedup (k txn_new) = None ->
  wp (t ← liftR (new_transaction env); commitM env (orphan_remove id (k t)) s)
    (fun _ => reclaimed env (reclaim_effect (e_ts env) id) f) f.
Proof.
  intros Inv Hn Hi Hz Hk Hd. apply wp_bind, wp_lift. unfold new_transaction.
  destruct (e_read_only env) eqn:Hr.
  { apply reclaimed_stay; [done|]. left. intros (_ & Hr' & _). congruence. }
  apply wp_reclaim_commit; auto; rewrite tx_db_orphan_remove, Hk.
  - by apply reclaim_inv.
  - intros db' Hc. unfold reclaim_effect. by rewrite Hi, Hz.
Qed.

Lemma wp_reclaim_orphan env id f :
  NsState f -> next_id f < U64_MAX ->
  wp (reclaim_orphan_inode env id) (fun _ => reclaimed env (reclaim_effect (e_ts env) id) f) f.
Proof.
  intros Inv Hn. unfold reclaim_orphan_inode. apply wp_bind, wp_gets.
  unfold inode_get, ok_or. destruct (inodes (fs_db f) !! id) as [i|] eqn:Hi.
  2: { apply wp_clear_stray; [done|by rewrite Hi|]. unfold reclaim_effect. by rewrite Hi. }
  destruct (nlink i =? 0) eqn:Hz.
  2: { apply wp_clear_stray; [done|rewrite Hi; intros j [= <-]; lia|]. unfold reclaim_effect. by rewrite Hi, Hz. }
  apply Z.eqb_eq in Hz. destruct (orphan_inode _ _ _ _ Inv Hi Hz) as (_ & _ & He & Hl).
  destruct i as [fi|dir|s|s|s|s|s].
  2: { pose proof (inv_ecount _ _ Inv id _ Hi eq_refl) as Hc. cbn in Hc. rewrite He in Hc.
       rewrite Hc. cbn [Z.eqb negb]. apply (wp_reclaim_txn _ _ (IDirectory dir)
         f (fun t => add_inode_count_delta id (-1) (delete_directory id (inode_delete id t)))); auto. }
  1: { eapply (wp_reclaim_txn env id (IFile fi) f (fun t => add_inode_count_delta id (-1) (inode_delete id
         (if div_ceil (f_size fi) EXTENT_SIZE <=? SMALL_FILE_TOMBSTONE_THRESHOLD
          then delete_range (fs_db f) id 0 (div_ceil (f_size fi) EXTENT_SIZE) t
          else tombstone_add (e_ts env) id (f_size fi) t)))); auto.
       - unfold drop_db, dropped_inode, drop_data. rewrite Hl. cbn [negb andb is_directory].
         case_match; autorewrite with txn; rewrite ?tx_db_delete_range by done; autorewrite with txn; by destruct (fs_db f).
       - cbn. case_match; [by rewrite dedup_delete_range|done]. }
  all: eapply (wp_reclaim_txn env id _ f (fun t => add_inode_count_delta id (-1) (inode_delete id t))); eauto;
    autorewrite with txn; unfold drop_db, dropped_inode; rewrite Hl; cbn; by destruct (fs_db f).
Qed.

(** The reclaim of an inode nobody holds and no retained result protects. *)
Definition unreferenced_effect (f : FS) (ts id : Z) (db db' : Db) : Prop :=
  if should_defer_unlinked_inode f id then core db' = core db else reclaim_effect ts id db db'.

Lemma reclaim_step env id f :
  NsState f -> next_id f < U64_MAX ->
  reclaimed env (unreferenced_effect f (e_ts env) id) f (reclaim_if_unreferenced env id f).
Proof.
  intros Inv Hn. unfold reclaim_if_unreferenced, unreferenced_effect, should_defer_unlinked_inode.
  destruct (e_fence env) as [[]|e] eqn:Hf.
  2: { apply reclaimed_stay; [done|]. left. intros (Hf' & _). congruence. }
  destruct (0 <? open_handle_count f id); cbn [orb]; [apply reclaimed_stay; auto|].
  unfold reclaim_when_unprotectedM, reclaim_when_unprotected.
  destruct (protects_replay_inode id (fs_dedup f)).
  - split; cbn; auto. unfold bumped. cbn. lia.
  - pose proof (wp_reclaim_orphan env id (set_fs_dedup (fs_dedup f) f) Inv Hn) as [H1 H2 H3 H4 H5]. by split.
Qed.

(** Its effect, field by field. *)
Lemma reclaim_fields nid ts id db db' :
  NsInv nid db -> reclaim_effect ts id db db' ->
  entries db' = entries db /\
  (forall k, inodes db' !! k = if decide (k = id /\ id ∈ orphans db) then None else inodes db !! k) /\
  orphans db' = orphans db ∖ {[id]} /\
  (forall k x, k <> id -> extents db' !! (k, x) = extents db !! (k, x)) /\
  (id ∉ orphans db -> core db' = core db).
Proof.
  intros Inv Hr.
  assert (Hnot : id ∉ orphans db -> core db' = core db).
  { intros Ho. unfold reclaim_effect in Hr. destruct (inodes db !! id) as [i|] eqn:Hi; [|done].
    destruct (Z.eqb_spec (nlink i) 0) as [Hz|]; [|done]. destruct Ho. apply (ns_orphans _ _ Inv). eauto. }
  destruct (decide (id ∈ orphans db)) as [Ho|Ho].
  - pose proof Ho as (i & Hi & Hz)%(ns_orphans _ _ Inv).
    destruct (orphan_inode _ _ _ _ Inv Hi Hz) as (_ & _ & _ & Hl).
    unfold reclaim_effect in Hr. rewrite Hi, Hz in Hr. cbn in Hr.
    destruct (drop_db_fields false (0, 0) ts id i db) as (Fi & Fe & Fo & Ft & Fx).
    unfold core, reclaim_db in Hr. injection Hr as Ei Ee _ _ Eo _ Ex. cbn in *.
    rewrite Fi in Ei. rewrite Fo, andb_false_r in Eo. unfold dropped_inode in Ei. rewrite Hl in Ei. cbn in Ei.
    split_and!; try done; [congruence|..].
    + intros k. rewrite Ei. destruct (decide _) as [[-> _]|Hk]; [apply lookup_delete_eq|].
      apply lookup_delete_ne. naive_solver.
    + intros k x Hk. rewrite Ex, Fx. unfold drop_data. destruct i; try done. rewrite Hl. cbn [negb andb].
      destruct (_ <=? _); [|done]. cbn. rewrite lookup_clear_range, decide_False; [done|]. cbn. naive_solver.
  - pose proof (Hnot Ho) as [= Ei Ee _ _ Eo _ Ex]. split_and!; auto.
    + intros k. rewrite decide_False by naive_solver. by rewrite Ei.
    + rewrite Eo. set_solver.
    + intros k x _. by rewrite Ex.
Qed.

(** C20: Reclaiming an inode (after its last close, when a retained result expires, or at
    startup) preserves the namespace invariant whatever the fate of its commit.  An
    inode that is held open or protected by a retained result, and an inode that still
    has a link, are left alone with everything else; a reclaim that can commit removes
    an unreferenced orphan, its orphan entry, and no other inode's data. *)
Theorem reclaim_sound env id f :
  NsState f -> next_id f < U64_MAX ->
  let f' := reclaim_if_unreferenced env id f in
  NsState f' /\ entries (fs_db f') = entries (fs_db f) /\
  (forall k, k <> id -> inodes (fs_db f') !! k = inodes (fs_db f) !! k /\
     forall x, extents (fs_db f') !! (k, x) = extents (fs_db f) !! (k, x)) /\
  (should_defer_unlinked_inode f id = true \/ id ∉ orphans (fs_db f) -> core (fs_db f') = core (fs_db f)) /\
  (willing env -> should_defer_unlinked_inode f id = false -> id ∈ orphans (fs_db f) ->
     inodes (fs_db f') !! id = None /\ orphans (fs_db f') = orphans (fs_db f) ∖ {[id]}).
Proof.
  intros Inv Hn f'. destruct (reclaim_step env id f Inv Hn) as [Inv' _ _ _ He]. fold f' in Inv', He.
  split; [done|]. unfold unreferenced_effect in He.
  assert (Hsame : core (fs_db f') = core (fs_db f) -> entries (fs_db f') = entries (fs_db f) /\
    (forall k, k <> id -> inodes (fs_db f') !! k = inodes (fs_db f) !! k /\
       forall x, extents (fs_db f') !! (k, x) = extents (fs_db f) !! (k, x))).
  { intros [= Ei Ee _ _ _ _ Ex]. rewrite Ee, Ei, Ex. done. }
  destruct (should_defer_unlinked_inode f id) eqn:Hdf.
  - assert (Hc : core (fs_db f') = core (fs_db f)) by naive_solver. destruct (Hsame Hc). by split_and!.
  - destruct He as [[Hc Hw]|Hr]; [destruct (Hsame Hc); by split_and!|].
    destruct (reclaim_fields _ _ _ _ _ Inv Hr) as (Ee & Ei & Eo & Ex & Hno). split_and!; auto.
    + intros k Hk. rewrite Ei, decide_False by naive_solver. auto.
    + naive_solver.
    + intros _ _ Ho. by rewrite Ei, decide_True.
Qed.

(** ** Draining the orphans at startup *)

Section drain.
Context (envs : Z -> Env).

(** What draining [l] leaves. *)
Record drained (l : list Z) (f f' : FS) : Prop := {
  dr_ns : NsState f';
  dr_handles : open_handles f' = open_handles f;
  dr_protected : protected_inodes (fs_dedup f') = protected_inodes (fs_dedup f);
  dr_entries : entries (fs_db f') = entries (fs_db f);
  dr_orphans : forall k, k ∈ orphans (fs_db f') <->
    k ∈ orphans (fs_db f) /\ (k ∈ l -> should_defer_unlinked_inode f k = true);
  dr_inodes : forall k, k ∉ orphans (fs_db f) \/ k ∈ orphans (fs_db f') ->
    inodes (fs_db f') !! k = inodes (fs_db f) !! k /\
    forall x, extents (fs_db f') !! (k, x) = extents (fs_db f) !! (k, x);
  dr_gone : forall k, k ∈ orphans (fs_db f) -> k ∉ orphans (fs_db f') -> inodes (fs_db f') !! k = None }.

Lemma defer_same f f' k :
  open_handles f' = open_handles f -> protected_inodes (fs_dedup f') = protected_inodes (fs_dedup f) ->
  should_defer_unlinked_inode f' k = should_defer_unlinked_inode f k.
Proof.
  unfold should_defer_unlinked_inode, open_handle_count, protects_replay_inode. by intros -> ->.
Qed.

Lemma drain_one id f :
  NsState f -> next_id f < U64_MAX -> willing (envs id) ->
  drained [id] f (reclaim_if_unreferenced (envs id) id f).
Proof.
  intros Inv Hn Hw. destruct (reclaim_step (envs id) id f Inv Hn) as [Inv' _ Hh Hp He].
  destruct He as [[_ ?]|He]; [done|]. unfold unreferenced_effect in He.
  destruct (should_defer_unlinked_inode f id) eqn:Hdf.
  - injection He as Ei Ee _ _ Eo _ Ex. split; rewrite ?Ei, ?Ee, ?Eo, ?Ex; auto; set_solver.
  - destruct (reclaim_fields _ _ _ _ _ Inv He) as (Ee & Ei & Eo & Ex & Hno). split; auto.
    + intros k. rewrite Eo, elem_of_difference, elem_of_singleton, list_elem_of_singleton.
      split; [intros [? ?]; split; [done|intros ->; done]|].
      intros [Ho Hk]. split; [done|]. intros ->. specialize (Hk eq_refl). congruence.
    + intros k Hk. rewrite Ei. rewrite Eo in Hk. rewrite decide_False by set_solver. split; [done|].
      intros x. destruct (decide (k = id)) as [->|]; [|auto].
      assert (Hc : core (fs_db (reclaim_if_unreferenced (envs id) id f)) = core (fs_db f)) by (apply Hno; set_solver).
      by injection Hc as _ _ _ _ _ _ ->.
    + intros k Hk. rewrite Eo, Ei. intros Hk'. rewrite decide_True; [done|].
      destruct (decide (k = id)) as [->|]; [done|]. destruct Hk'. set_solver.
Qed.

Lemma drained_app l l' f f1 f2 : drained l f f1 -> drained l' f1 f2 -> drained (l ++ l') f f2.
Proof.
  intros [_ h1 p1 e1 o1 i1 g1] [n2 h2 p2 e2 o2 i2 g2]. split; try congruence.
  - intros k. rewrite o2, o1, elem_of_app, (defer_same f f1 k h1 p1). naive_solver.
  - intros k Hk. destruct (i1 k) as [Ha Hb]; [set_solver|]. destruct (i2 k) as [Hc Hd]; [set_solver|].
    rewrite Hc. split; [done|]. intros x. by rewrite Hd.
  - intros k Hk Hk'. destruct (decide (k ∈ orphans (fs_db f1))); [auto|].
    destruct (i2 k) as [-> _]; auto.
Qed.

Lemma drain_list l f :
  NsState f -> next_id f + Z.of_nat (length l) <= U64_MAX -> (forall id, id ∈ l -> willing (envs id)) ->
  drained l f (foldl (fun f id => reclaim_if_unreferenced (envs id) id f) f l).
Proof.
  revert f. induction l as [|id l IH]; intros f Inv Hn Hw; cbn [foldl length] in *.
  - split; auto; set_solver.
  - assert (H1 : drained [id] f (reclaim_if_unreferenced (envs id) id f))
      by (apply drain_one; [done|lia|apply Hw; left]).
    apply (drained_app [id] l f _ _ H1), IH; [apply H1| |intros; apply Hw; by right].
    destruct (reclaim_step (envs id) id f Inv ltac:(lia)) as [_ [_ Hb] _ _ _]. lia.
Qed.

(** C19: Draining the orphans of a volume that can commit removes exactly the orphans
    that nobody holds open and no retained result protects: the namespace invariant is
    preserved, every other inode keeps its record and its data, and no entry changes. *)
Theorem drain_orphans_complete f :
  NsState f -> next_id f + Z.of_nat (size (orphans (fs_db f))) <= U64_MAX ->
  (forall id, id ∈ orphans (fs_db f) -> willing (envs id)) ->
  let f' := drain_orphans envs f in
  NsState f' /\ entries (fs_db f') = entries (fs_db f) /\
  (forall k, k ∈ orphans (fs_db f') <-> k ∈ orphans (fs_db f) /\ should_defer_unlinked_inode f k = true) /\
  (forall k, k ∉ orphans (fs_db f) \/ k ∈ orphans (fs_db f') ->
     inodes (fs_db f') !! k = inodes (fs_db f) !! k /\
     forall x, extents (fs_db f') !! (k, x) = extents (fs_db f) !! (k, x)) /\
  (forall k, k ∈ orphans (fs_db f) -> k ∉ orphans (fs_db f') -> inodes (fs_db f') !! k = None).
Proof.
  intros Inv Hn Hw f'. set (l := merge_sort Z.le (elements (orphans (fs_db f)))).
  assert (Hl : forall k, k ∈ l <-> k ∈ orphans (fs_db f)).
  { intros k. unfold l. rewrite merge_sort_Permutation. apply elem_of_elements. }
  assert (D : drained l f f').
  { apply drain_list; [done| |intros; by apply Hw, Hl]. unfold l. rewrite merge_sort_Permutation.
    exact Hn. }
  destruct D as [n _ _ e o i]. split_and!; auto. intros k. rewrite o, Hl. tauto.
Qed.
End drain.

(** ** Examples *)

(** Two files of the example tree unlinked while held open; one is closed. *)
Definition example_held : FS :=
  let f1 := open_handle_inc 2 (open_handle_inc 3 example_tree) in
  let f2 := (remove_idempotent_inner example_env root_auth 1 [103] no_op_id (Some false) None f1).2 in
  let f3 := (remove_idempotent_inner example_env root_auth 0 [102] no_op_id (Some false) None f2).2 in
  open_handle_drop 3 f3.

Lemma open_drop_ns id f : NsState f -> NsState (open_handle_drop id f).
Proof. intros H. unfold open_handle_drop. destruct (dec_open_handle _ _) as [n m]. by case_match. Qed.

Lemma open_inc_ns id f : NsState f -> NsState (open_handle_inc id f).
Proof. done. Qed.

Lemma example_remove_ns dirid n f :
  NsState f -> bool_decide (next_id f + 1 < U64_MAX) = true ->
  NsState (remove_idempotent_inner example_env root_auth dirid n no_op_id (Some false) None f).2.
Proof.
  intros Inv Hroom%bool_decide_eq_true.
  apply (remove_performs example_env root_auth dirid n no_op_id (Some false) None (fun _ => false) f Inv Hroom). done.
Qed.

Lemma example_held_ns : NsState example_held.
Proof.
  unfold example_held. apply open_drop_ns, example_remove_ns; [apply example_remove_ns|];
    [apply open_inc_ns, open_inc_ns, example_tree_ns|vm_compute; reflexivity..].
Qed.

Lemma example_willing : willing example_env.
Proof. repeat split. by exists (Ok tt). Qed.

Lemma reclaim_sound_witness :
  let f' := reclaim_if_unreferenced example_env 3 example_held in
  NsState f' /\ inodes (fs_db f') !! 3 = None /\ orphans (fs_db f') = orphans (fs_db example_held) ∖ {[3]}.
Proof.
  destruct (reclaim_sound example_env 3 example_held example_held_ns eq_refl) as (H & _ & _ & _ & Hg).
  split; [exact H|]. apply Hg; [exact example_willing|by vm_compute|].
  apply (bool_decide_unpack _). by vm_compute.
Defined.

Lemma drain_orphans_complete_witness :
  let f' := drain_orphans (fun _ => example_env) example_held in
  NsState f' /\ 2 ∈ orphans (fs_db f') /\ inodes (fs_db f') !! 3 = None.
Proof.
  assert (Ho : forall k, bool_decide (k ∈ orphans (fs_db example_held)) = true -> k ∈ orphans (fs_db example_held))
    by (intros k; apply bool_decide_eq_true).
  destruct (drain_orphans_complete (fun _ => example_env) example_held) as (Hn & _ & Hd & _ & Hg).
  - exact example_held_ns.
  - by vm_compute.
  - intros id _. exact example_willing.
  - split_and!; [exact Hn|apply Hd; split; [apply Ho|]; by vm_compute|].
    apply Hg; [apply Ho; by vm_compute|]. intros [_ Hx]%Hd. vm_compute in Hx. discriminate.
Defined.
