(* ===== verification/OpsRename.v ===== *)
(** * Rename

    [rename] of [fs/ops/rename.rs] with its no-replace and idempotent variants, and the
    ancestry walk that guards against cycles.  As in [OpsRemove], names are resolved
    before the locks are taken ([rename_resolve]) and verified after ([rename_locked]).
    The content-verified variant (hashing the source under the locks) is not modelled. *)

From S2P Require Import Prelude Errors Segment Quota Inode Dedup Permissions Store Namespace.
From S2P Require Import Commit Usage Ops Boot OpsCreate OpsLink OpsRemove.

(** ** The ancestry walk *)

(** The [while] loop of [is_ancestor_of]; [None] is running out of fuel. *)
Fixpoint ancestor_walk (fuel : nat) (m : gmap Z Inode) (ancestor_id current_id : Z)
  : option (result FsError bool) :=
  match fuel with
  | O => None
  | S fuel =>
      if current_id =? 0 then Some (Ok false)
      else match m !! current_id with
           | None => Some (Err NotFound)
           | Some inode =>
               match parent inode with
               | None => Some (Ok false)
               | Some pid => if pid =? ancestor_id then Some (Ok true) else ancestor_walk fuel m ancestor_id pid
               end
           end
  end.

(** A walk visits no inode twice ([ancestor_walk_total]), so the number of inodes is
    fuel enough. *)
Definition is_ancestor_of (db : Db) (ancestor_id descendant_id : Z) : result FsError bool :=
  if ancestor_id =? descendant_id then Ok true
  else default (Err IoError) (ancestor_walk (S (size (inodes db))) (inodes db) ancestor_id descendant_id).

(** ** The inodes of a rename *)

(** The moved inode: a directory always knows its place, others when singly linked. *)
Definition move_inode (dir_changed : bool) (to_dirid : Z) (to_name : name) (i : Inode) : Inode :=
  match i with
  | IDirectory d =>
      IDirectory (mkDir (d_attrs d) (d_entry_count d) (if dir_changed then to_dirid else d_parent d)
                    (Some to_name) (d_nlink d))
  | _ => if nlink i =? 1 then with_links (nlink i) (Some to_dirid) (Some to_name) i else i
  end.

Definition update_from_dir (dir_changed has_target is_moved_dir target_was_directory : bool) (now : Z * Z)
    (i : Inode) : Inode :=
  match i with
  | IDirectory d =>
      let loses := dir_changed || has_target in
      let loses_link := if dir_changed then is_moved_dir else target_was_directory in
      IDirectory (mkDir (touch_mctime now (d_attrs d))
                    (if loses then sat_sub (d_entry_count d) 1 else d_entry_count d)
                    (d_parent d) (d_name d)
                    (if loses && loses_link then sat_sub (d_nlink d) 1 else d_nlink d))
  | _ => i
  end.

Definition update_to_dir (has_target is_moved_dir target_was_directory : bool) (now : Z * Z) (i : Inode)
  : result FsError Inode :=
  match i with
  | IDirectory d =>
      let gains_link := is_moved_dir && (negb has_target || negb target_was_directory) in
      if gains_link && (d_nlink d =? U32_MAX) then Err NoSpace
      else Ok (IDirectory (mkDir (touch_mctime now (d_attrs d))
                 (if has_target then d_entry_count d else u64_wrap (d_entry_count d + 1))
                 (d_parent d) (d_name d) (if gains_link then d_nlink d + 1 else d_nlink d)))
  | _ => Ok i
  end.

Definition save_dir_inode (db : Db) (id : Z) (i : Inode) (t : Transaction) : Transaction :=
  match i with IDirectory d => save_directory db id d t | _ => inode_save id i t end.

Definition dead_dir (i : Inode) : bool := is_directory i && (nlink i =? 0).

(** Only the replay result is committed. *)
Definition commit_replay (env : Env) (op_id : OpId) : M unit :=
  if has_op_id op_id then
    t ← liftR (new_transaction env);
    commitM env (set_dedup_result op_id DRename t) SettleNone
  else mret tt.

(** Moving a directory out of a sticky directory requires owning it. *)
Definition check_sticky_move (from_dir source : Inode) (creds : Credentials) : result FsError unit :=
  if is_directory source && is_directory from_dir && has_bits (mode (attrs from_dir)) 512
     && negb (c_uid creds =? 0) && negb (c_uid creds =? uid (attrs source))
  then Err PermissionDenied else Ok tt.

(** The clobbered target: kinds must agree, a directory must be empty. *)
Definition open_target (db : Db) (creds : Credentials) (source target_dir : Inode) (target : option (Z * Z))
  : result FsError (option (Z * Inode * Z)) :=
  match target with
  | None => Ok None
  | Some (target_id, target_cookie) =>
      inode ← inode_get db target_id;
      _ ← ensure (negb (is_directory source && negb (is_directory inode))) NotDirectory;
      _ ← ensure (negb (negb (is_directory source) && is_directory inode)) IsDirectory;
      _ ← ensure (negb (is_directory inode && (0 <? ecount inode))) NotEmpty;
      _ ← check_sticky_bit_delete target_dir inode creds;
      Ok (Some (target_id, inode, target_cookie))
  end.

(** Staging the removal of the target. *)
Definition drop_clobbered (db : Db) (f : FS) (env : Env) (to_dirid : Z) (to_name : name)
    (target : option (Z * Inode * Z)) (t : Transaction) : Transaction * Settlement :=
  match target with
  | None => (t, SettleNone)
  | Some (id, i, cookie) =>
      let defer := should_defer_unlinked_inode f id in
      let '(t, deferred) := drop_target db defer (e_clock env 0) (e_ts env) id i t in
      (unlink_entry to_dirid to_name cookie (drop_stats deferred id i t), drop_settlement deferred id i)
  end.

(** Moving the entry: a new cookie in another directory, the old one in the same. *)
Definition stage_move (ch : bool) (fd : Z) (fn : name) (td : Z) (tn : name) (sid sc nc : Z) (moved : Inode)
    (t : Transaction) : Transaction :=
  let t := unlink_entry fd fn sc t in
  let t := if ch then stage_cookie_increment td nc t else t in
  inode_save sid moved (dir_add td tn sid nc (if nlink moved =? 1 then Some moved else None) t).

(** ** The operation *)

(** What a rename does under its locks before it commits: it reads, checks and builds
    its transaction; [None] when the two names denote the same inode. *)
Definition rename_txn (env : Env) (f : FS) (creds : Credentials) (from_dirid : Z) (from_name : name)
    (to_dirid : Z) (to_name : name) (op_id : OpId) (replace_existing : bool)
    (source_inode_id source_cookie : Z) (target_inode_id : option Z)
  : result FsError (option (Transaction * Settlement)) :=
  let db := fs_db f in
  let dir_changed := negb (from_dirid =? to_dirid) in
  verified ← get_entry_with_cookie db from_dirid from_name;
  _ ← ensure (bool_decide (verified = (source_inode_id, source_cookie))) StaleHandle;
  let target := entries db !! (to_dirid, to_name) in
  _ ← ensure (replace_existing || negb (bool_decide (is_Some target))) Exists;
  _ ← ensure (bool_decide (fst <$> target = target_inode_id)) StaleHandle;
  source_inode ← inode_get db source_inode_id;
  cyclic ← (if is_directory source_inode then is_ancestor_of db source_inode_id to_dirid else Ok false);
  _ ← ensure (negb cyclic) InvalidArgument;
  from_dir ← inode_get db from_dirid;
  to_dir ← (if dir_changed then inode_get db to_dirid else Ok from_dir);
  _ ← ensure (negb (dead_dir from_dir || dead_dir to_dir)) StaleHandle;
  _ ← check_access from_dir creds Write;
  _ ← check_access from_dir creds Execute;
  _ ← check_access to_dir creds Write;
  _ ← check_access to_dir creds Execute;
  _ ← check_sticky_bit_delete from_dir source_inode creds;
  _ ← (if dir_changed then check_sticky_move from_dir source_inode creds else Ok tt);
  if bool_decide (target_inode_id = Some source_inode_id) then
    _ ← (if dir_changed then check_sticky_bit_delete to_dir source_inode creds else Ok tt);
    Ok None
  else
    clobbered ← open_target db creds source_inode to_dir target;
    t ← new_transaction env;
    let t := set_dedup_result op_id DRename t in
    let '(t, settlement) := drop_clobbered db f env to_dirid to_name clobbered t in
    let has_target := bool_decide (is_Some clobbered) in
    let target_was_directory := match clobbered with Some (_, i, _) => is_directory i | None => false end in
    let now := e_clock env 1 in
    let moved := move_inode dir_changed to_dirid to_name source_inode in
    let new_cookie := if dir_changed then read_cookie db to_dirid else source_cookie in
    let t := stage_move dir_changed from_dirid from_name to_dirid to_name source_inode_id source_cookie
               new_cookie moved t in
    let is_moved_dir := is_directory source_inode in
    let t := save_dir_inode db from_dirid
               (update_from_dir dir_changed has_target is_moved_dir target_was_directory now from_dir) t in
    t ← (if dir_changed then
           to_dir' ← update_to_dir has_target is_moved_dir target_was_directory now to_dir;
           Ok (save_dir_inode db to_dirid to_dir' t)
         else Ok t);
    Ok (Some (t, settlement)).

(** Under the locks, with the source entry and the target id seen before. *)
Definition rename_locked (env : Env) (creds : Credentials) (from_dirid : Z) (from_name : name)
    (to_dirid : Z) (to_name : name) (op_id : OpId) (replace_existing : bool)
    (source_inode_id source_cookie : Z) (target_inode_id : option Z) : M unit :=
  replaying env op_id into_rename (
  f ← gets (fun f => f);
  r ← liftR (rename_txn env f creds from_dirid from_name to_dirid to_name op_id replace_existing
               source_inode_id source_cookie target_inode_id);
  match r with
  | None => commit_replay env op_id
  | Some (t, settlement) => commitM env t settlement
  end).

Definition is_dot (n : name) : bool := bool_decide (n = [46]) || bool_decide (n = [46; 46]).

Definition rename_with_options (env : Env) (auth : AuthContext) (from_dirid : Z) (from_name : name)
    (to_dirid : Z) (to_name : name) (op_id : OpId) (replace_existing : bool) : M unit :=
  _ ← liftR (ensure (negb (bool_decide (from_name = []) || bool_decide (to_name = []))) InvalidArgument);
  _ ← liftR (validate_filename from_name);
  _ ← liftR (validate_filename to_name);
  replaying env op_id into_rename (
  _ ← liftR (ensure (negb (is_dot from_name)) InvalidArgument);
  _ ← liftR (ensure (negb (is_dot to_name)) Exists);
  if (from_dirid =? to_dirid) && bool_decide (from_name = to_name) then commit_replay env op_id
  else
    db ← gets fs_db;
    match get_entry_with_cookie db from_dirid from_name with
    | Err e => replaying env op_id into_rename (throwS e)
    | Ok (source_inode_id, source_cookie) =>
        _ ← liftR (ensure (negb (to_dirid =? source_inode_id)) InvalidArgument);
        let target_inode_id := fst <$> entries db !! (to_dirid, to_name) in
        _ ← liftR (e_fence env);
        rename_locked env (from_auth_context auth) from_dirid from_name to_dirid to_name op_id
          replace_existing source_inode_id source_cookie target_inode_id
    end).

Definition rename_idempotent (env : Env) (auth : AuthContext) (from_dirid : Z) (from_name : name)
    (to_dirid : Z) (to_name : name) (op_id : OpId) : M unit :=
  rename_with_options env auth from_dirid from_name to_dirid to_name op_id true.
Definition rename_noreplace_idempotent (env : Env) (auth : AuthContext) (from_dirid : Z) (from_name : name)
    (to_dirid : Z) (to_name : name) (op_id : OpId) : M unit :=
  rename_with_options env auth from_dirid from_name to_dirid to_name op_id false.
Definition rename (env : Env) (auth : AuthContext) (from_dirid : Z) (from_name : name)
    (to_dirid : Z) (to_name : name) : M unit :=
  rename_idempotent env auth from_dirid from_name to_dirid to_name no_op_id.

(** ** The walk ends and finds exactly the ancestors *)

(** The inodes visited from [id]. *)
Inductive Path (m : gmap Z Inode) : Z -> list Z -> Prop :=
| path_root : Path m 0 []
| path_gone id : id <> 0 -> m !! id = None -> Path m id []
| path_loose id i : id <> 0 -> m !! id = Some i -> parent i = None -> Path m id []
| path_step id i p l : id <> 0 -> m !! id = Some i -> parent i = Some p -> Path m p l -> Path m id (id :: l).

Lemma path_det m id l l' : Path m id l -> Path m id l' -> l = l'.
Proof.
  intros H. revert l'. induction H as [|id H0 Hn|id i H0 Hi Hp|id i p l H0 Hi Hp _ IH]; intros l';
    inversion 1; subst; simplify_eq; try done. f_equal. auto.
Qed.

Lemma path_suffix m id l x : Path m id l -> x ∈ l -> exists l', Path m x l' /\ (length l' <= length l)%nat.
Proof.
  induction 1 as [| | |id i p l H0 Hi Hp HP IH]; [by intros ?%elem_of_nil..|].
  intros [->|Hx]%elem_of_cons.
  - exists (id :: l). split; [by eapply path_step|done].
  - destruct (IH Hx) as (l' & Hl' & Hle). exists l'. split; [done|]. cbn. lia.
Qed.

Lemma path_NoDup m id l : Path m id l -> NoDup l /\ (forall x, x ∈ l -> is_Some (m !! x)).
Proof.
  induction 1 as [| | |id i p l H0 Hi Hp HP [IHn IHs]]; try (split; [constructor|by intros x ?%elem_of_nil]).
  split.
  - constructor; [|done]. intros Hin. destruct (path_suffix _ _ _ _ HP Hin) as (l' & Hl' & Hle).
    pose proof (path_det _ _ _ _ Hl' (path_step _ _ _ _ _ H0 Hi Hp HP)) as ->. cbn in Hle. lia.
  - intros x [->|Hx]%elem_of_cons; eauto.
Qed.

Lemma path_length m id l : Path m id l -> (length l <= size m)%nat.
Proof.
  intros [Hn Hs]%path_NoDup. rewrite <- (size_list_to_set (C := gset Z) l Hn), <- size_dom.
  apply subseteq_size. intros x Hx%elem_of_list_to_set. apply elem_of_dom. auto.
Qed.

(** The walk follows the path. *)
Lemma walk_path m a : forall fuel id l, Path m id l -> (length l < fuel)%nat ->
  exists r, ancestor_walk fuel m a id = Some r.
Proof.
  induction fuel as [|fuel IH]; intros id l HP Hlen; [lia|]. cbn.
  inversion HP as [|? H0 Hn|? i H0 Hi Hp|? i p l' H0 Hi Hp HP']; subst; rewrite ?Z.eqb_refl; eauto;
    rewrite (proj2 (Z.eqb_neq _ _) H0), ?Hn, ?Hi, ?Hp; eauto.
  destruct (p =? a); eauto. eapply IH; [done|]. cbn in Hlen. lia.
Qed.

Section walk.
Context (nid : Z) (db : Db) (Inv : NsInv nid db).
Let m := inodes db.

(** The parent of a live directory other than the root is live and has it as an entry. *)
Lemma live_parent d : attached (shapes m) d -> d <> 0 ->
  exists dd n p c, m !! d = Some (IDirectory dd) /\ d_parent dd = p /\
    attached (shapes m) p /\ entries db !! (p, n) = Some (d, c).
Proof.
  intros (x & Hx & Hd & [->|Hn]) H0; [done|]. rewrite lookup_shapes in Hx. subst m.
  destruct (inodes db !! d) as [i|] eqn:Hi; [|done]. injection Hx as <-. cbn in Hd, Hn.
  destruct i as [|dd| | | | |]; try done. destruct (d_name dd) as [n|] eqn:Hnm; [|done].
  destruct (inv_named _ _ Inv d _ n Hi Hnm) as (p & c & [= Hp] & He & _).
  exists dd, n, p, c. split_and!; auto. by destruct (inv_entry _ _ Inv _ _ _ _ He).
Qed.

Lemma live_path d : attached (shapes m) d -> exists l, Path m d l.
Proof.
  intros Ha. pose proof (tr_chain _ _ _ (inv_tree _ _ Inv) d) as Hc. fold m in Hc.
  induction Hc as [|d Hn|d x Hx Hd|d x p Hx Hd Hp _ IH]; [by exists []; constructor|..].
  - destruct Ha as (x & Hx & _). congruence.
  - destruct Ha as (y & Hy & Hyd & _). congruence.
  - destruct (decide (d = 0)) as [->|H0]; [by exists []; constructor|].
    destruct (live_parent d Ha H0) as (dd & n & p' & c & Hd' & Hp' & Ha' & _).
    rewrite lookup_shapes, Hd' in Hx. injection Hx as <-. cbn in Hp. injection Hp as Hp. subst.
    destruct (IH Ha') as [l Hl]. exists (d :: l). by eapply path_step.
Qed.

Lemma any_path d : exists l, Path m d l.
Proof.
  pose proof (tr_chain _ _ _ (inv_tree _ _ Inv) d) as Hc. fold m in Hc.
  induction Hc as [|d Hn|d x Hx Hd|d x p Hx Hd Hp _ IH]; [by exists []; constructor|..];
    (destruct (decide (d = 0)) as [->|H0]; [by exists []; constructor|]).
  - exists []. apply path_gone; [done|]. rewrite lookup_shapes in Hn. by destruct (m !! d).
  - rewrite lookup_shapes in Hx. destruct (m !! d) as [i|] eqn:Hi; [|done]. injection Hx as <-. cbn in Hd.
    destruct (parent i) as [p|] eqn:Hp; [|exists []; by eapply path_loose].
    destruct (iname i) as [n|] eqn:Hn; [|by rewrite (inv_unnamed _ _ Inv d i Hi Hd Hn) in Hp].
    destruct (inv_named _ _ Inv d i n Hi Hn) as (p' & c & Hp' & He & _). rewrite Hp in Hp'. injection Hp' as <-.
    destruct (inv_entry _ _ Inv _ _ _ _ He) as (Ha & _). destruct (live_path p Ha) as [l Hl].
    exists (d :: l). by eapply path_step.
  - rewrite lookup_shapes in Hx. destruct (m !! d) as [i|] eqn:Hi; [|done]. injection Hx as <-.
    destruct IH as [l Hl]. exists (d :: l). by eapply path_step.
Qed.

(** The fuel of [is_ancestor_of] is never exhausted. *)
Lemma ancestor_walk_total a d : exists r, ancestor_walk (S (size m)) m a d = Some r.
Proof. destruct (any_path d) as [l Hl]. eapply walk_path; [done|]. pose proof (path_length _ _ _ Hl). lia. Qed.

(** On a live directory the walk does not fail, and is negative exactly when the parent
    chain avoids the candidate. *)
Lemma walk_avoids a : a <> 0 -> forall fuel d, attached (shapes m) d -> d <> a ->
  (forall r, ancestor_walk fuel m a d = Some r -> exists b, r = Ok b /\ (b = false <-> Avoids (shapes m) a d)).
Proof.
  intros Ha0. induction fuel as [|fuel IH]; intros d Ha Hne r; [done|]. cbn.
  destruct (Z.eqb_spec d 0) as [->|H0].
  { intros [= <-]. exists false. split; [done|]. split; [intros _; by constructor|done]. }
  destruct (live_parent d Ha H0) as (dd & n & p & c & Hd & Hp & Ha' & _).
  assert (Hsh : shapes m !! d = Some (shape (IDirectory dd))) by (by rewrite lookup_shapes, Hd).
  assert (Hav : Avoids (shapes m) a d <-> Avoids (shapes m) a p).
  { split.
    - inversion 1; subst; simplify_eq; try done. cbn in *. congruence.
    - intros Hav. eapply avoid_step; [done|exact Hsh|done|cbn; by rewrite Hp|done]. }
  rewrite Hd. cbn [parent]. rewrite Hp. destruct (Z.eqb_spec p a) as [->|Hpa].
  - intros [= <-]. exists true. split; [done|]. rewrite Hav. split; [done|]. by inversion 1.
  - intros (b & -> & Hb)%IH; [|done..]. exists b. by rewrite Hav.
Qed.
End walk.

(** C21: The cycle guard of rename terminates on every tree the operations build, however
    deep, with one step per inode at most; for a live directory it returns a definite
    answer, and the answer is negative exactly when following parent pointers up to the
    root never meets the candidate. *)
Theorem is_ancestor_of_correct nid db a d :
  NsInv nid db ->
  (exists r, ancestor_walk (S (size (inodes db))) (inodes db) a d = Some r) /\
  (a <> 0 -> attached (shapes (inodes db)) d ->
   exists b, is_ancestor_of db a d = Ok b /\ (b = false <-> a <> d /\ Avoids (shapes (inodes db)) a d)).
Proof.
  intros Inv. destruct (ancestor_walk_total nid db Inv a d) as [r Hr]. split; [eauto|].
  intros Ha0 Ha. unfold is_ancestor_of. destruct (Z.eqb_spec a d) as [->|Hne].
  - exists true. split; [done|]. split; [done|]. tauto.
  - rewrite Hr. destruct (walk_avoids nid db Inv a Ha0 _ d Ha (not_eq_sym Hne) r Hr) as (b & -> & Hb).
    exists b. split; [done|]. tauto.
Qed.

Lemma is_ancestor_of_correct_witness :
  let db := fs_db (example_made MakeDir 1 [98] example_tree) in
  (exists b, is_ancestor_of db 1 4 = Ok b /\ (b = false <-> 1 <> 4 /\ Avoids (shapes (inodes db)) 1 4)) /\
  is_ancestor_of db 1 4 = Ok true /\ is_ancestor_of db 4 1 = Ok false.
Proof.
  intros db. split; [|vm_compute; split; reflexivity].
  assert (Inv : NsInv (next_id (example_made MakeDir 1 [98] example_tree)) db).
  { apply example_made_ns; [exact example_tree_ns|vm_compute; reflexivity..]. }
  apply (proj2 (is_ancestor_of_correct _ db 1 4 Inv)); [lia|].
  exists (shape (IDirectory (mkDir (fresh_attrs (9, 5) 511 0 0) 0 1 (Some [98]) 2))).
  split; [vm_compute; reflexivity|]. split; [reflexivity|]. right. discriminate.
Defined.

(** ** The steps of a rename *)

(** An empty directory, or a non-directory, is on no live directory's chain but its own. *)
Lemma attached_avoids nid db t d :
  NsInv nid db -> attached (shapes (inodes db)) d -> nentries (entries db) t = 0 -> t <> d -> t <> 0 ->
  Avoids (shapes (inodes db)) t d.
Proof.
  intros Inv Ha Hz. pose proof (tr_chain _ _ _ (inv_tree _ _ Inv) d) as Hc. revert Ha.
  induction Hc as [|d Hn|d x Hx Hd|d x p Hx Hd Hp _ IH]; intros Ha Hne H0; [by constructor|..].
  - destruct Ha as (x & Hx & _). congruence.
  - destruct Ha as (y & Hy & Hyd & _). congruence.
  - destruct (decide (d = 0)) as [->|Hd0]; [by constructor|].
    destruct (live_parent nid db Inv d Ha Hd0) as (dd & n & q & c & Hdd & Hq & Ha' & He).
    pose proof Hx as Hx'. rewrite lookup_shapes, Hdd in Hx'. injection Hx' as <-. cbn in Hp. rewrite Hq in Hp.
    injection Hp as <-. eapply avoid_step; [done|exact Hx|done|cbn; by rewrite Hq|].
    apply IH; [done| |done]. intros ->. by eapply nentries_zero_inv.
Qed.

Lemma avoids_upd sh sh' a t id :
  (forall k, k <> t -> sh' !! k = sh !! k) -> Avoids sh t id -> Avoids sh a id -> Avoids sh' a id.
Proof.
  intros Hk Ht Ha. induction Ha as [|id Hne Hn|id x Hne Hx Hd|id x p Hne Hx Hd Hp _ IH]; [by constructor|..];
    inversion Ht; subst; simplify_eq; try congruence; try (by apply avoid_root).
  - apply avoid_gone; [done|]. by rewrite Hk.
  - eapply avoid_leaf; [done| |done]. by rewrite Hk.
  - eapply avoid_step; [done|by rewrite Hk|done|done|]. auto.
Qed.

Lemma sound_mono o ks ks' k j :
  Sound o ks k j -> default COOKIE_FIRST_ENTRY (ks !! k) <= default COOKIE_FIRST_ENTRY (ks' !! k) ->
  Sound o ks' k j.
Proof. intros (? & ? & H) Hle. split; [done|]. split; [done|]. intros Hd. specialize (H Hd). lia. Qed.

Lemma near_move nid de dl db d n id i i' c d' n' c' v :
  Near nid de dl db -> entries db !! (d, n) = Some (id, c) -> inodes db !! id = Some i ->
  attached (shapes (inodes db)) d' -> d' <> id -> entries db !! (d', n') = None ->
  is_directory i' = is_directory i -> ecount i' = ecount i -> nlink i' = nlink i ->
  shape i' = mkShape (is_directory i) (Some d') (Some n') /\ nrefs (entries db) id = 1 /\
    (is_directory i = true -> Avoids (shapes (inodes db)) id d') \/
  shape i' = shape i /\ shape i = mkShape false None None ->
  v = Reference id \/ v = WithInode id i' /\ iname i' <> None ->
  (d' = d /\ c' = c) \/ (d' <> d /\ c' = read_cookie db d' /\ c' < U64_MAX) ->
  Near nid (fun x => de x + one d x - one d' x)
    (fun x => dl x + (if is_directory i then one d x - one d' x else 0))
    (with_scans <[(d', c') := (n', v)]> (with_entries <[(d', n') := (id, c')]>
       (with_cookies (if decide (d' = d) then fun k => k else <[d' := c' + 1]>)
          (with_scans (delete (d, c)) (with_entries (delete (d, n)) (with_inodes <[id := i']> db)))))).
Proof.
  intros (P & S & O) He Hi Ha Hd'id Hfree Hdir Hec Hln Hsh Hv Hc. split_and!.
  - eapply pre_ext; [by eapply pre_move|]. intros k _. cbn. rewrite Hec, Hln. split; lia.
  - cbn. intros k j Hj.
    assert (Sk : Sound (orphans db) (cookies db) k j).
    { apply lookup_insert_Some in Hj as [[<- <-]|[_ Hj]]; [|by apply S].
      destruct (S id i Hi) as (So & Sb & Sr). unfold Sound. by rewrite Hdir, Hec, Hln. }
    eapply sound_mono; [exact Sk|]. destruct (decide (d' = d)) as [|Hne]; [done|].
    destruct Hc as [[]|(_ & -> & _)]; [done|]. destruct (decide (k = d')) as [->|];
      [rewrite lookup_insert_eq; cbn; unfold read_cookie; lia|by rewrite lookup_insert_ne].
  - cbn. intros k Hk. rewrite lookup_insert_is_Some'. auto.
Qed.

(** The state after the target is gone. *)
Definition clobber_db (f : FS) (env : Env) (td : Z) (tn : name) (target : option (Z * Inode * Z)) (db : Db) : Db :=
  match target with
  | None => db
  | Some (id, i, c) =>
      with_scans (delete (td, c)) (with_entries (delete (td, tn))
        (drop_db (should_defer_unlinked_inode f id) (e_clock env 0) (e_ts env) id i db))
  end.

Definition target_ok (db : Db) (td : Z) (tn : name) (sid : Z) (si : Inode) (target : option (Z * Inode * Z)) : Prop :=
  match target with
  | None => entries db !! (td, tn) = None
  | Some (id, i, c) =>
      entries db !! (td, tn) = Some (id, c) /\ inodes db !! id = Some i /\ id <> sid /\
      is_directory i = is_directory si /\ (is_directory i = true -> ecount i = 0)
  end.

Record ready (nid : Z) (db db1 : Db) (fd : Z) (fn : name) (td : Z) (tn : name) (sid sc : Z) (si : Inode)
    (has_target : bool) : Prop := {
  rd_near : Near nid (fun x => if has_target then one td x else 0)
    (fun x => if has_target && is_directory si then one td x else 0) db1;
  rd_source : entries db1 !! (fd, fn) = Some (sid, sc);
  rd_free : entries db1 !! (td, tn) = None;
  rd_inode : inodes db1 !! sid = Some si;
  rd_from : inodes db1 !! fd = inodes db !! fd;
  rd_to : inodes db1 !! td = inodes db !! td;
  rd_att : attached (shapes (inodes db1)) td;
  rd_refs : nrefs (entries db1) sid = nrefs (entries db) sid;
  rd_avoid : Avoids (shapes (inodes db)) sid td -> Avoids (shapes (inodes db1)) sid td;
  rd_cookie : cookies db1 !! td = cookies db !! td }.

Lemma clobber_ready nid f env db fd fn td tn sid sc si target :
  NsInv nid db -> entries db !! (fd, fn) = Some (sid, sc) -> inodes db !! sid = Some si ->
  attached (shapes (inodes db)) td -> target_ok db td tn sid si target -> (fd, fn) <> (td, tn) ->
  ready nid db (clobber_db f env td tn target db) fd fn td tn sid sc si (bool_decide (is_Some target)).
Proof.
  intros Inv He Hsi Ha Ht Hne. destruct target as [[[id i] c]|]; cbn in Ht |- *.
  2: { split; auto. by apply near_inv. }
  destruct Ht as (Het & Hi & Hns & Hdir & Hec).
  set (df := should_defer_unlinked_inode f id).
  pose proof (near_drop _ _ _ _ _ _ _ df (e_clock env 0) (e_ts env) Inv Het Hi Hec) as N.
  pose proof (named_removable _ _ _ _ _ _ _ Inv Het Hi Hec) as Hrm.
  destruct (drop_db_fields df (e_clock env 0) (e_ts env) id i db) as (Fi & Fe & _).
  destruct (inv_entry _ _ Inv _ _ _ _ Het) as (_ & Hid0 & Htd & _).
  assert (Hfd : fd <> id).
  { intros ->. by eapply (nentries_zero_inv _ id); [apply (rm_empty _ _ _ Hrm)|exact He]. }
  assert (Hin : forall k, k <> id ->
    inodes (drop_db df (e_clock env 0) (e_ts env) id i db) !! k = inodes db !! k).
  { intros k Hk. rewrite Fi. destruct (dropped_inode _ _ i); [by rewrite lookup_insert_ne|by rewrite lookup_delete_ne]. }
  assert (Hsh : forall k, k <> id ->
    shapes (inodes (drop_db df (e_clock env 0) (e_ts env) id i db)) !! k = shapes (inodes db) !! k).
  { intros k Hk. by rewrite !lookup_shapes, Hin. }
  split; cbn; rewrite ?Fe, ?Hin by done; auto.
  - rewrite <- Hdir. exact N.
  - by rewrite lookup_delete_ne.
  - apply lookup_delete_eq.
  - destruct Ha as (x & Hx & ?). exists x. by rewrite Hsh.
  - rewrite (nrefs_delete _ _ _ _ _ Het), one_ne by done. lia.
  - intros Hav. eapply avoids_upd; [exact Hsh| |exact Hav].
    eapply attached_avoids; eauto using rm_empty.
  - unfold drop_db. destruct (drop_data_shape df (e_ts env) id i db) as (g & h & ->).
    case_match; cbn; [done|]. destruct (is_directory i); [by rewrite lookup_delete_ne|done].
Qed.

(** The moved entry. *)
Definition moved_value (sid : Z) (moved : Inode) : DirScanValue :=
  if nlink moved =? 1 then WithInode sid moved else Reference sid.

Definition move_db (changed : bool) (fd : Z) (fn : name) (td : Z) (tn : name) (sid sc nc : Z) (moved : Inode)
    (db : Db) : Db :=
  with_scans <[(td, nc) := (tn, moved_value sid moved)]> (with_entries <[(td, tn) := (sid, nc)]>
    (with_cookies (if changed then <[td := nc + 1]> else fun k => k)
      (with_scans (delete (fd, sc)) (with_entries (delete (fd, fn)) (with_inodes <[sid := moved]> db))))).

Lemma move_inode_facts ch td tn i :
  is_directory (move_inode ch td tn i) = is_directory i /\ ecount (move_inode ch td tn i) = ecount i /\
  nlink (move_inode ch td tn i) = nlink i /\ type_size_rdev (move_inode ch td tn i) = type_size_rdev i /\
  attrs (move_inode ch td tn i) = attrs i.
Proof. unfold move_inode. destruct i; cbn; try case_match; done. Qed.

(** Where the moved inode says it is. *)
Lemma move_inode_shape nid db fd fn td tn sid sc si :
  NsInv nid db -> entries db !! (fd, fn) = Some (sid, sc) -> inodes db !! sid = Some si ->
  let i' := move_inode (negb (fd =? td)) td tn si in
  shape i' = mkShape (is_directory si) (Some td) (Some tn) /\ nrefs (entries db) sid = 1 \/
  shape i' = shape si /\ shape si = mkShape false None None /\ nlink si <> 1.
Proof.
  intros Inv He Hi i'. destruct (inv_entry _ _ Inv _ _ _ _ He) as (_ & _ & _ & j & Hj & Hpos & Hnm).
  rewrite Hi in Hj. injection Hj as <-. destruct (is_directory si) eqn:Hd.
  - left. destruct (Hnm (or_introl eq_refl)) as [Hp Hn].
    destruct (inv_named _ _ Inv sid si fn Hi Hn) as (_ & _ & _ & _ & Hr). split; [|done].
    destruct si as [|dd| | | | |]; try done. unfold i', shape. cbn. cbn in Hp. injection Hp as Hp.
    destruct (Z.eqb_spec fd td) as [->|]; cbn; by rewrite ?Hp.
  - pose proof (inv_nrefs _ _ Inv sid si Hi Hd) as Hr. destruct (Z.eqb_spec (nlink si) 1) as [H1|H1].
    + left. split; [|lia]. unfold i', move_inode, shape. destruct si; try done; cbn in H1 |- *; by rewrite H1.
    + right. assert (Hn : iname si = None).
      { destruct (iname si) as [n|] eqn:E; [|done].
        destruct (inv_named _ _ Inv sid si n Hi E) as (_ & _ & _ & _ & ?). lia. }
      pose proof (inv_unnamed _ _ Inv sid si Hi Hd Hn) as Hp.
      assert (i' = si) as -> by (unfold i', move_inode; apply Z.eqb_neq in H1; destruct si; try done; by rewrite H1).
      split_and!; auto. unfold shape. by rewrite Hd, Hp, Hn.
Qed.

Lemma ready_move nid db db1 fd fn td tn sid sc si ht :
  NsInv nid db -> entries db !! (fd, fn) = Some (sid, sc) -> inodes db !! sid = Some si -> td <> sid ->
  ready nid db db1 fd fn td tn sid sc si ht -> read_cookie db td < U64_MAX ->
  (is_directory si = true -> Avoids (shapes (inodes db)) sid td) ->
  let ch := negb (fd =? td) in
  Near nid (fun x => (if ht then one td x else 0) + one fd x - one td x)
    (fun x => (if ht && is_directory si then one td x else 0) + (if is_directory si then one fd x - one td x else 0))
    (move_db ch fd fn td tn sid sc (if ch then read_cookie db td else sc) (move_inode ch td tn si) db1).
Proof.
  intros Inv He Hi Htd [N Hs Hf Hsi _ _ Ha Hr Hav Hck] Hc Hcyc ch.
  destruct (move_inode_facts ch td tn si) as (Hd' & Hec & Hln & _).
  pose proof (move_inode_shape _ _ _ _ td tn _ _ _ Inv He Hi) as Hsh. cbv zeta in Hsh. fold ch in Hsh.
  unfold move_db.
  assert (Hk : forall v, (if ch then <[td := v]> else fun k : gmap Z Z => k) =
                         (if decide (td = fd) then fun k : gmap Z Z => k else <[td := v]>)).
  { intros v. unfold ch. destruct (Z.eqb_spec fd td); case_decide; done. }
  rewrite Hk.
  apply (near_move _ _ _ db1 fd fn sid si); auto.
  - rewrite Hr. destruct Hsh as [[? ?]|(? & ? & _)]; [left|right]; auto.
  - unfold moved_value. rewrite Hln. destruct (Z.eqb_spec (nlink si) 1); [right|by left].
    split; [done|]. destruct Hsh as [[[= _ _ ->] _]|(_ & _ & ?)]; done.
  - unfold ch, read_cookie. rewrite Hck. destruct (Z.eqb_spec fd td); [by left|right]. by split_and!.
Qed.

(** The whole step. *)
Definition rename_db (f : FS) (env : Env) (fd : Z) (fn : name) (td : Z) (tn : name) (sid sc : Z) (si : Inode)
    (target : option (Z * Inode * Z)) (from' to' : Inode) (db : Db) : Db :=
  let ch := negb (fd =? td) in
  let db2 := move_db ch fd fn td tn sid sc (if ch then read_cookie db td else sc) (move_inode ch td tn si)
               (clobber_db f env td tn target db) in
  let db3 := refreshed fd from' db2 in
  if ch then refreshed td to' db3 else db3.

Lemma from_dir_near nid db db2 fd fn td sid sc si dir ht now :
  let ch := negb (fd =? td) in
  let from' := update_from_dir ch ht (is_directory si) (ht && is_directory si) now (IDirectory dir) in
  NsInv nid db -> entries db !! (fd, fn) = Some (sid, sc) -> inodes db !! sid = Some si ->
  inodes db !! fd = Some (IDirectory dir) -> inodes db2 !! fd = Some (IDirectory dir) ->
  Near nid (fun x => (if ht then one td x else 0) + one fd x - one td x)
    (fun x => (if ht && is_directory si then one td x else 0) + (if is_directory si then one fd x - one td x else 0)) db2 ->
  Near nid (fun x => if ch && negb ht then - one td x else 0)
    (fun x => if ch && negb ht && is_directory si then - one td x else 0) (refreshed fd from' db2).
Proof.
  intros ch from' Inv He Hi Hd Hd2 N.
  destruct (parent_counts _ _ _ _ _ _ _ _ Inv Hd He Hi) as [Hec Hln].
  pose proof N as (_ & S & _). destruct (S fd _ Hd2) as (So & Sb & Sr). cbn in So, Sb, Sr. specialize (Sr eq_refl).
  assert (Hf : from' = IDirectory (mkDir (touch_mctime now (d_attrs dir))
    (d_entry_count dir - (if ch || ht then 1 else 0)) (d_parent dir) (d_name dir)
    (d_nlink dir - (if (ch || ht) && is_directory si then 1 else 0)))).
  { unfold from', update_from_dir, sat_sub. destruct ch, ht, (is_directory si); cbn; repeat f_equal; lia. }
  eapply near_ext.
  - eapply (near_refresh _ _ _ _ fd (IDirectory dir)); [exact N|done|by rewrite Hf|].
    rewrite Hf. unfold Sound. cbn. rewrite So. destruct (ch || ht), (is_directory si); cbn; split_and!; lia.
  - intros k _. rewrite Hf. cbn. rewrite (one_sym k fd). unfold ch.
    destruct (Z.eqb_spec fd td) as [->|]; cbn; destruct ht, (is_directory si); cbn; split; lia.
Qed.

Lemma to_dir_near nid db db3 td dir ht sdir now to' :
  NsInv nid db -> inodes db !! td = Some (IDirectory dir) -> inodes db3 !! td = Some (IDirectory dir) ->
  d_nlink dir <> 0 -> read_cookie db td < U64_MAX -> cookies db3 !! td = Some (read_cookie db td + 1) ->
  update_to_dir ht sdir (ht && sdir) now (IDirectory dir) = Ok to' ->
  Near nid (fun x => if negb ht then - one td x else 0) (fun x => if negb ht && sdir then - one td x else 0) db3 ->
  NsInv nid (refreshed td to' db3).
Proof.
  intros Inv Hd Hd3 Hl Hc Hck Hto N. destruct (grow_count _ _ _ _ Inv Hd Hc) as [H0 Hw].
  pose proof (ns_room _ _ Inv td dir Hd) as Hroom.
  pose proof N as (_ & S & _). destruct (S td _ Hd3) as (So & Sb & _). cbn in So, Sb.
  set (g := sdir && (negb ht || negb (ht && sdir))) in *.
  assert (Hg : g = negb ht && sdir) by (unfold g; by destruct ht, sdir).
  unfold update_to_dir in Hto. fold g in Hto. rewrite Hw in Hto.
  destruct (g && (d_nlink dir =? U32_MAX)) eqn:Hmax; [done|]. injection Hto as <-.
  apply near_inv. eapply near_ext.
  - eapply (near_refresh _ _ _ _ td (IDirectory dir)); [exact N|done|done|].
    unfold Sound. cbn. rewrite Hck, So. cbn. rewrite Hg in *. destruct ht, sdir; cbn in *; split_and!; lia.
  - intros k _. cbn. rewrite (one_sym k td), Hg. destruct ht, sdir; cbn; split; lia.
Qed.

Lemma rename_inv nid f env db fd fn td tn sid sc si target fdir tdir now from' to' :
  let ch := negb (fd =? td) in
  let ht := bool_decide (is_Some target) in
  NsInv nid db -> entries db !! (fd, fn) = Some (sid, sc) -> inodes db !! sid = Some si -> td <> sid ->
  inodes db !! fd = Some (IDirectory fdir) -> inodes db !! td = Some (IDirectory tdir) -> d_nlink tdir <> 0 ->
  target_ok db td tn sid si target -> (fd, fn) <> (td, tn) -> read_cookie db td < U64_MAX ->
  (is_directory si = true -> Avoids (shapes (inodes db)) sid td) ->
  from' = update_from_dir ch ht (is_directory si) (ht && is_directory si) now (IDirectory fdir) ->
  (ch = true -> update_to_dir ht (is_directory si) (ht && is_directory si) now (IDirectory tdir) = Ok to') ->
  NsInv nid (rename_db f env fd fn td tn sid sc si target from' to' db).
Proof.
  intros ch ht Inv He Hi Htd Hfd Htdir Hl Ht Hne Hc Hcyc -> Hto.
  assert (Ha : attached (shapes (inodes db)) td) by (by eapply inv_live_dir).
  pose proof (clobber_ready nid f env db fd fn td tn sid sc si target Inv He Hi Ha Ht Hne) as R. fold ht in R.
  pose proof (ready_move _ _ _ _ _ _ _ _ _ _ _ Inv He Hi Htd R Hc Hcyc) as N2. cbv zeta in N2.
  unfold rename_db. cbv zeta. fold ch in N2 |- *. set (db2 := move_db _ _ _ _ _ _ _ _ _ _) in *.
  destruct (inv_entry _ _ Inv _ _ _ _ He) as (_ & _ & Hfs & _).
  assert (Hfd2 : inodes db2 !! fd = Some (IDirectory fdir)).
  { unfold db2, move_db. cbn. by rewrite lookup_insert_ne, (rd_from _ _ _ _ _ _ _ _ _ _ _ R). }
  pose proof (from_dir_near _ _ _ _ _ td _ _ _ _ ht now Inv He Hi Hfd Hfd2 N2) as N3. cbv zeta in N3. fold ch in N3.
  destruct ch eqn:Hch; [|apply near_inv; exact N3].
  destruct (refreshed_fields fd (update_from_dir true ht (is_directory si) (ht && is_directory si) now (IDirectory fdir)) db2)
    as (Ei & _ & Ek & _).
  assert (fd <> td) by (unfold ch in Hch; lia).
  eapply to_dir_near; [exact Inv|exact Htdir| |done|done| |by apply Hto|exact N3].
  - rewrite Ei. rewrite lookup_insert_ne by done. unfold db2, move_db. cbn.
    by rewrite lookup_insert_ne, (rd_to _ _ _ _ _ _ _ _ _ _ _ R).
  - rewrite Ek. unfold db2, move_db. cbn. apply lookup_insert_eq.
Qed.

(** ** The transaction of a rename *)

Lemma drop_clobbered_tx db f env td tn target op x :
  tx_db db (drop_clobbered db f env td tn target (set_dedup_result op x txn_new)).1 = clobber_db f env td tn target db.
Proof.
  destruct target as [[[id i] c]|]; [|done]. unfold drop_clobbered.
  destruct (drop_target _ _ _ _ _ _ _) as [t b] eqn:Ht. cbn [fst]. rewrite tx_db_unlink.
  assert (HT : tx_db db t = drop_db (should_defer_unlinked_inode f id) (e_clock env 0) (e_ts env) id i db).
  { change t with (t, b).1. rewrite <- Ht. by apply drop_target_tx. }
  cbn [clobber_db]. unfold drop_stats. destruct (negb b && last_link i); rewrite ?tx_db_count, HT; done.
Qed.

Lemma stage_move_tx db ch fd fn td tn sid sc nc moved t :
  0 <= nc < U64_MAX ->
  tx_db db (stage_move ch fd fn td tn sid sc nc moved t) = move_db ch fd fn td tn sid sc nc moved (tx_db db t).
Proof.
  intros Hc. unfold stage_move, move_db, moved_value.
  destruct ch; autorewrite with txn; rewrite ?u64_wrap_id by ulia; by destruct (nlink moved =? 1).
Qed.

(** The entries of the two directories themselves are not touched. *)
Lemma own_entry nid db fd fn td tn sid sc si target d dir n :
  NsInv nid db -> entries db !! (fd, fn) = Some (sid, sc) -> td <> sid ->
  target_ok db td tn sid si target ->
  d = fd \/ d = td -> inodes db !! d = Some (IDirectory dir) -> d_name dir = Some n ->
  (d_parent dir, n) <> (fd, fn) /\ (d_parent dir, n) <> (td, tn).
Proof.
  intros Inv He Htd Ht Hd Hi Hn.
  destruct (inv_named _ _ Inv d _ n Hi Hn) as (p & c & [= Hp] & Hen & _). subst p.
  pose proof (live_dir_parent _ _ _ _ _ Inv Hi Hn) as Hpd. destruct Hd as [-> | ->].
  - split; [by intros [= ? _]|]. intros Heq. rewrite Heq in Hen.
    destruct target as [[[id i] c']|]; cbn in Ht; [|congruence]. destruct Ht as (Het & Hti & _ & _ & Hec).
    rewrite Het in Hen. injection Hen as -> _.
    eapply (nentries_zero_inv (entries db) fd fn); [|exact He].
    eapply rm_empty. by apply (named_removable nid db td tn fd c' i).
  - split; [|by intros [= ? _]]. intros Heq. rewrite Heq, He in Hen. by injection Hen as ->.
Qed.

Lemma clobber_entries f env td tn target db k :
  k <> (td, tn) -> entries (clobber_db f env td tn target db) !! k = entries db !! k.
Proof.
  intros Hk. destruct target as [[[id i] c]|]; [|done]. cbn.
  destruct (drop_db_fields (should_defer_unlinked_inode f id) (e_clock env 0) (e_ts env) id i db) as (_ & -> & _).
  by rewrite lookup_delete_ne.
Qed.

Lemma rename_tx nid db f env fd fn td tn sid sc si target fdir tdir from' to' op x :
  let ch := negb (fd =? td) in
  let nc := if ch then read_cookie db td else sc in
  let t5 := stage_move ch fd fn td tn sid sc nc (move_inode ch td tn si)
              (drop_clobbered db f env td tn target (set_dedup_result op x txn_new)).1 in
  NsInv nid db -> entries db !! (fd, fn) = Some (sid, sc) -> td <> sid -> target_ok db td tn sid si target ->
  read_cookie db td < U64_MAX ->
  inodes db !! fd = Some (IDirectory fdir) -> inodes db !! td = Some (IDirectory tdir) ->
  (exists a ec nl, from' = mkDir a ec (d_parent fdir) (d_name fdir) nl) ->
  (exists a ec nl, to' = mkDir a ec (d_parent tdir) (d_name tdir) nl) ->
  let t6 := save_dir_inode db fd (IDirectory from') t5 in
  tx_db db (if ch then save_dir_inode db td (IDirectory to') t6 else t6) =
  rename_db f env fd fn td tn sid sc si target (IDirectory from') (IDirectory to') db.
Proof.
  intros ch nc t5 Inv He Htd Ht Hc Hf Htdir (a1 & e1 & l1 & ->) (a2 & e2 & l2 & ->) t6.
  assert (Hnc : 0 <= nc < U64_MAX).
  { unfold nc. pose proof (cookie_ge _ _ td Inv). pose proof (ix_cookie _ _ _ (pr_index _ _ _ _ (ns_pre _ _ Inv)) _ _ _ _ He).
    pose proof (cookie_ge _ _ fd Inv). unfold ch, read_cookie, COOKIE_FIRST_ENTRY in *. case_match; ulia. }
  assert (T5 : tx_db db t5 = move_db ch fd fn td tn sid sc nc (move_inode ch td tn si) (clobber_db f env td tn target db)).
  { unfold t5. rewrite stage_move_tx by done. by rewrite drop_clobbered_tx. }
  assert (Hent : forall k, k <> (fd, fn) -> k <> (td, tn) -> entries (tx_db db t5) !! k = entries db !! k).
  { intros k H1 H2. rewrite T5. unfold move_db. cbn. rewrite lookup_insert_ne, lookup_delete_ne by done.
    by apply clobber_entries. }
  assert (T6 : tx_db db t6 = refreshed fd (IDirectory (mkDir a1 e1 (d_parent fdir) (d_name fdir) l1)) (tx_db db t5)).
  { unfold t6. cbn [save_dir_inode]. apply tx_save_directory. cbn [d_name d_parent]. intros m Hm.
    destruct (own_entry _ _ fd fn td tn sid sc si target fd fdir m Inv He Htd Ht (or_introl eq_refl) Hf Hm). by apply Hent. }
  unfold rename_db. fold ch nc. rewrite <- T5. destruct ch; [|exact T6].
  cbn [save_dir_inode]. rewrite tx_save_directory; [by rewrite T6|]. cbn [d_name d_parent]. intros m Hm. rewrite T6.
  destruct (refreshed_fields fd (IDirectory (mkDir a1 e1 (d_parent fdir) (d_name fdir) l1)) (tx_db db t5)) as (_ & -> & _).
  destruct (own_entry _ _ fd fn td tn sid sc si target td tdir m Inv He Htd Ht (or_intror eq_refl) Htdir Hm). by apply Hent.
Qed.

(** ** The operation *)

(** The moved file or directory keeps its identity, attributes, links and content. *)
Definition same_object (i i' : Inode) : Prop :=
  attrs i' = attrs i /\ nlink i' = nlink i /\ type_size_rdev i' = type_size_rdev i /\ ecount i' = ecount i.

Definition rename_moves (creds : Credentials) (fd : Z) (fn : name) (td : Z) (tn : name) (replace_existing : bool)
    (held : Z -> bool) (now : Z * Z) (db db' : Db) : Prop :=
  exists sid sc nc si si' fdir tdir,
    entries db !! (fd, fn) = Some (sid, sc) /\ inodes db !! sid = Some si /\
    inodes db !! fd = Some (IDirectory fdir) /\ inodes db !! td = Some (IDirectory tdir) /\ d_nlink tdir <> 0 /\
    check_access (IDirectory fdir) creds Write = Ok tt /\ check_access (IDirectory tdir) creds Write = Ok tt /\
    check_access (IDirectory fdir) creds Execute = Ok tt /\ check_access (IDirectory tdir) creds Execute = Ok tt /\
    check_sticky_bit_delete (IDirectory fdir) si creds = Ok tt /\
    (is_directory si = true -> Avoids (shapes (inodes db)) sid td) /\
    entries db' = <[(td, tn) := (sid, nc)]> (delete (fd, fn) (entries db)) /\
    inodes db' !! sid = Some si' /\ same_object si si' /\
    match entries db !! (td, tn) with
    | None =>
        orphans db' = orphans db /\ extents db' = extents db /\
        forall k, k <> sid -> k <> fd -> k <> td -> inodes db' !! k = inodes db !! k
    | Some (tid, _) =>
        replace_existing = true /\ tid <> sid /\ tid <> td /\
        exists ti defer, inodes db !! tid = Some ti /\ is_directory ti = is_directory si /\
          (is_directory ti = true -> nentries (entries db) tid = 0) /\
          check_sticky_bit_delete (IDirectory tdir) ti creds = Ok tt /\
          (held tid = true -> defer = true) /\
          inodes db' !! tid = dropped_inode defer now ti /\
          orphans db' = (if last_link ti && defer then {[tid]} ∪ orphans db else orphans db) /\
          (forall k x, k <> tid -> extents db' !! (k, x) = extents db !! (k, x)) /\
          forall k, k <> sid -> k <> fd -> k <> td -> k <> tid -> inodes db' !! k = inodes db !! k
    end.

(** Renaming an entry to itself, or over another link to the same inode, changes nothing. *)
Definition rename_effect (creds : Credentials) (fd : Z) (fn : name) (td : Z) (tn : name)
    (replace_existing : bool) (held : Z -> bool) (now : Z * Z) (a : unit) (db db' : Db) : Prop :=
  core db' = core db /\ ((fd, fn) = (td, tn) \/ fst <$> entries db !! (fd, fn) = fst <$> entries db !! (td, tn)) \/
  rename_moves creds fd fn td tn replace_existing held now db db'.

Lemma clobber_extents f env td tn tid ti tc db k x :
  k <> tid -> extents (clobber_db f env td tn (Some (tid, ti, tc)) db) !! (k, x) = extents db !! (k, x).
Proof.
  intros Hk. cbn.
  destruct (drop_db_fields (should_defer_unlinked_inode f tid) (e_clock env 0) (e_ts env) tid ti db) as (_ & _ & _ & _ & ->).
  unfold drop_data. repeat case_match; try done. cbn. rewrite lookup_clear_range. case_decide; [|done]. cbn in *. tauto.
Qed.

(** The fields of the resulting database. *)
Lemma rename_db_fields f env fd fn td tn sid sc si target from' to' db :
  let db' := rename_db f env fd fn td tn sid sc si target from' to' db in
  let ch := negb (fd =? td) in
  let db1 := clobber_db f env td tn target db in
  entries db' = <[(td, tn) := (sid, if ch then read_cookie db td else sc)]> (delete (fd, fn) (entries db1)) /\
  inodes db' = (if ch then <[td := to']> else fun m => m) (<[fd := from']> (<[sid := move_inode ch td tn si]> (inodes db1))) /\
  orphans db' = orphans db1 /\ extents db' = extents db1.
Proof.
  cbv zeta. unfold rename_db, move_db. cbv zeta. set (db2 := with_scans _ _).
  destruct (refreshed_fields fd from' db2) as (Ei & Ee & _ & Eo). destruct (refreshed_rest fd from' db2) as [_ Ex].
  destruct (refreshed_fields td to' (refreshed fd from' db2)) as (Fi & Fe & _ & Fo).
  destruct (refreshed_rest td to' (refreshed fd from' db2)) as [_ Fx].
  destruct (negb (fd =? td)); rewrite ?Fi, ?Fe, ?Fo, ?Fx, ?Ei, ?Ee, ?Eo, ?Ex; done.
Qed.

Lemma rename_moves_holds nid f env creds db db' fd fn td tn sid sc si target fdir tdir from' to' replace_existing held :
  NsInv nid db -> entries db !! (fd, fn) = Some (sid, sc) -> inodes db !! sid = Some si -> td <> sid ->
  inodes db !! fd = Some (IDirectory fdir) -> inodes db !! td = Some (IDirectory tdir) -> d_nlink tdir <> 0 ->
  check_access (IDirectory fdir) creds Write = Ok tt -> check_access (IDirectory tdir) creds Write = Ok tt ->
  check_access (IDirectory fdir) creds Execute = Ok tt -> check_access (IDirectory tdir) creds Execute = Ok tt ->
  check_sticky_bit_delete (IDirectory fdir) si creds = Ok tt ->
  target_ok db td tn sid si target ->
  (forall id i c, target = Some (id, i, c) ->
     check_sticky_bit_delete (IDirectory tdir) i creds = Ok tt /\ replace_existing = true) ->
  (is_directory si = true -> Avoids (shapes (inodes db)) sid td) ->
  (forall id, held id = true -> should_defer_unlinked_inode f id = true) ->
  core db' = core (rename_db f env fd fn td tn sid sc si target from' to' db) ->
  rename_moves creds fd fn td tn replace_existing held (e_clock env 0) db db'.
Proof.
  intros Inv He Hi Htd Hf Ht Hl Hw Hw' Hx Hx' Hs Hok Htg Hcyc Hheld Hcore.
  destruct (rename_db_fields f env fd fn td tn sid sc si target from' to' db) as (Fe & Fi & Fo & Fx).
  cbv zeta in Fe, Fi, Fo, Fx. set (ch := negb (fd =? td)) in *.
  unfold core in Hcore. rewrite Fe, Fi, Fo, Fx in Hcore. injection Hcore as Hi' He' _ _ Ho' _ Hx''.
  destruct (inv_entry _ _ Inv _ _ _ _ He) as (_ & _ & Hfs & _).
  assert (Hlk : forall k, k <> fd -> k <> td -> k <> sid ->
            inodes db' !! k = inodes (clobber_db f env td tn target db) !! k).
  { intros k H1 H2 H3. rewrite Hi'. destruct ch; rewrite !lookup_insert_ne by done; done. }
  assert (Hsid : inodes db' !! sid = Some (move_inode ch td tn si)).
  { rewrite Hi'. destruct ch; rewrite !lookup_insert_ne by done; apply lookup_insert_eq. }
  assert (Hso : same_object si (move_inode ch td tn si)).
  { by destruct (move_inode_facts ch td tn si) as (_ & ? & ? & ? & ?). }
  exists sid, sc, (if ch then read_cookie db td else sc), si, (move_inode ch td tn si), fdir, tdir.
  destruct target as [[[tid ti] tc]|]; cbn in Hok, He'.
  - destruct Hok as (Het & Hti & Hns & Hdir & Hec). rewrite Het.
    destruct (drop_db_fields (should_defer_unlinked_inode f tid) (e_clock env 0) (e_ts env) tid ti db) as (Gi & Ge & Go & _).
    destruct (inv_entry _ _ Inv _ _ _ _ Het) as (_ & _ & Htd' & _).
    pose proof (named_removable _ _ _ _ _ _ _ Inv Het Hti Hec) as Hrm.
    assert (Hfd : fd <> tid).
    { intros ->. by eapply (nentries_zero_inv _ tid); [apply (rm_empty _ _ _ Hrm)|exact He]. }
    destruct (Htg _ _ _ eq_refl) as [Hst Hre].
    split_and!; auto.
    + by rewrite He', Ge, delete_delete, insert_delete_eq.
    + exists ti, (should_defer_unlinked_inode f tid). split_and!; auto.
      * intros _. apply (rm_empty _ _ _ Hrm).
      * rewrite Hlk by done. cbn. rewrite Gi.
        destruct (dropped_inode _ _ ti); [apply lookup_insert_eq|apply lookup_delete_eq].
      * by rewrite Ho'.
      * intros k x Hk. rewrite Hx''. by apply clobber_extents.
      * intros k H1 H2 H3 H4. rewrite Hlk by done. cbn. rewrite Gi.
        destruct (dropped_inode _ _ ti); [by rewrite lookup_insert_ne|by rewrite lookup_delete_ne].
  - rewrite Hok. split_and!; auto.
Qed.

Lemma commit_replay_performs env op (eff : unit -> Db -> Db -> Prop) f :
  NsState f -> id_room f -> unrecorded op f -> (forall db', core db' = core (fs_db f) -> eff tt (fs_db f) db') ->
  wp (commit_replay env op) (performs env op into_rename eff f) f.
Proof.
  intros Inv Hroom Hu He. unfold commit_replay. destruct (has_op_id op) eqn:Ho.
  - repeat op_step. apply performs_commit_unit; try done. intros _ _. exists DRename. cbn. by rewrite Ho.
  - apply wp_ret. split; [done|]. right. exists tt. split; [by apply He|]. split; [by rewrite Ho|by left].
Qed.

Lemma open_target_ok db creds td tn sid si tdir tgt target :
  open_target db creds si (IDirectory tdir) tgt = Ok target -> tgt = entries db !! (td, tn) ->
  fst <$> tgt <> Some sid -> (forall k j, inodes db !! k = Some j -> 0 <= ecount j) ->
  target_ok db td tn sid si target /\ bool_decide (is_Some target) = bool_decide (is_Some tgt) /\
  match target with Some (_, i, _) => is_directory i | None => false end =
    bool_decide (is_Some target) && is_directory si /\
  (forall id i c, target = Some (id, i, c) -> check_sticky_bit_delete (IDirectory tdir) i creds = Ok tt).
Proof.
  intros Ho Hg Hns Hec. destruct tgt as [[tid tc]|]; cbn in Ho; [|by injection Ho as <-].
  apply result_bind_Ok in Ho as (i & Hi%ok_or_Ok & Ho).
  apply result_bind_Ok in Ho as ([] & H1%ensure_Ok & Ho). apply result_bind_Ok in Ho as ([] & H2%ensure_Ok & Ho).
  apply result_bind_Ok in Ho as ([] & H3%ensure_Ok & Ho). apply result_bind_Ok in Ho as ([] & Hst & [= <-]).
  assert (Hdir : is_directory i = is_directory si) by (by destruct (is_directory i), (is_directory si)).
  specialize (Hec _ _ Hi). symmetry in Hg. cbn [target_ok]. split_and!; auto.
  - intros ->. by apply Hns.
  - intros Hd. rewrite Hd in H3. cbn in H3. lia.
  - by intros ? ? ? [= <- <- <-].
Qed.

Lemma ecount_nonneg nid db k j : NsInv nid db -> inodes db !! k = Some j -> 0 <= ecount j.
Proof.
  intros Inv Hj. destruct j as [|d| | | | |]; try done.
  rewrite (inv_ecount _ _ Inv k _ Hj eq_refl). apply mcount_nonneg.
Qed.

(** The checks of a rename on the ancestry. *)
Lemma not_cyclic nid db sid si td :
  NsInv nid db -> attached (shapes (inodes db)) td -> sid <> 0 ->
  (if is_directory si then is_ancestor_of db sid td else Ok false) = Ok false ->
  is_directory si = true -> sid <> td /\ Avoids (shapes (inodes db)) sid td.
Proof.
  intros Inv Ha H0 Hc Hd. rewrite Hd in Hc. unfold is_ancestor_of in Hc.
  destruct (Z.eqb_spec sid td) as [|Hne]; [done|]. split; [done|].
  destruct (ancestor_walk_total nid db Inv sid td) as [r Hr]. rewrite Hr in Hc. cbn in Hc. subst r.
  destruct (walk_avoids nid db Inv sid H0 _ td Ha (not_eq_sym Hne) _ Hr) as (b & [= <-] & Hb). by apply Hb.
Qed.

(** The transaction the operation builds is the step [rename_db]. *)
Lemma rename_staged nid db f env fd fn td tn sid sc si target fdir tdir ht md td' now op x t s t1 :
  let ch := negb (fd =? td) in
  let from' := update_from_dir ch ht md td' now (IDirectory fdir) in
  let t6 := save_dir_inode db fd from'
              (stage_move ch fd fn td tn sid sc (if ch then read_cookie db td else sc) (move_inode ch td tn si) t) in
  drop_clobbered db f env td tn target (set_dedup_result op x txn_new) = (t, s) ->
  NsInv nid db -> entries db !! (fd, fn) = Some (sid, sc) -> td <> sid -> target_ok db td tn sid si target ->
  read_cookie db td < U64_MAX ->
  inodes db !! fd = Some (IDirectory fdir) -> inodes db !! td = Some (IDirectory tdir) ->
  (if ch then to' ← update_to_dir ht md td' now (IDirectory tdir); Ok (save_dir_inode db td to' t6) else Ok t6) = Ok t1 ->
  exists to', (ch = true -> update_to_dir ht md td' now (IDirectory tdir) = Ok to') /\
    tx_db db t1 = rename_db f env fd fn td tn sid sc si target from' to' db.
Proof.
  intros ch from' t6 Ht Inv He Htd Hok Hc Hf Hto H1.
  assert (HT : forall to', (exists a ec nl, to' = mkDir a ec (d_parent tdir) (d_name tdir) nl) ->
    tx_db db (if ch then save_dir_inode db td (IDirectory to') t6 else t6) =
    rename_db f env fd fn td tn sid sc si target from' (IDirectory to') db).
  { intros to' Hto'. unfold t6. change t with (t, s).1. rewrite <- Ht.
    by eapply rename_tx; eauto. }
  destruct ch eqn:Hch.
  - apply result_bind_Ok in H1 as (to' & Hup & [= <-]). exists to'. split; [done|].
    unfold update_to_dir in Hup. case_match; [done|]. injection Hup as <-. apply HT. eauto.
  - injection H1 as <-. exists (IDirectory tdir). split; [done|]. apply HT. destruct tdir. eauto.
Qed.

(** What a successful preparation establishes. *)
Lemma rename_txn_spec env f creds fd fn td tn op rep sid sc tgt held r :
  NsState f -> read_cookie (fs_db f) td < U64_MAX ->
  (forall i, inodes (fs_db f) !! td = Some i -> is_directory i = true) ->
  (forall k, held k = true -> 0 < default 0 (open_handles f !! k)) ->
  rename_txn env f creds fd fn td tn op rep sid sc tgt = Ok r ->
  match r with
  | None => fst <$> entries (fs_db f) !! (fd, fn) = fst <$> entries (fs_db f) !! (td, tn)
  | Some (t, _) => NsInv (next_id f) (tx_db (fs_db f) t) /\
      forall db', core db' = core (tx_db (fs_db f) t) ->
        rename_moves creds fd fn td tn rep held (e_clock env 0) (fs_db f) db'
  end.
Proof.
  intros Inv Hc Htd Hheld Hr. unfold rename_txn in Hr. repeat ok_step Hr.
  rename x0 into si, x1 into cyc, x2 into from_dir, x3 into to_dir.
  apply bool_decide_eq_true in E0 as ->. apply bool_decide_eq_true in E2. apply negb_true_iff in E5 as ->.
  assert (exists fdir, from_dir = IDirectory fdir) as [fdir ->].
  { destruct (inv_entry _ _ Inv _ _ _ _ E) as ((x & Hx & Hxd & _) & _). rewrite lookup_shapes, E6 in Hx.
    injection Hx as <-. destruct from_dir; try done. eauto. }
  assert (E7' : inodes (fs_db f) !! td = Some to_dir).
  { destruct (Z.eqb_spec fd td) as [->|]; cbn in E7; [congruence|by apply ok_or_Ok in E7]. }
  assert (exists tdir, to_dir = IDirectory tdir) as [tdir ->]
    by (specialize (Htd _ E7'); destruct to_dir; eauto; done).
  assert (Hl : d_nlink tdir <> 0) by (unfold dead_dir in E8; cbn in E8; lia).
  destruct (decide (tgt = Some sid)) as [Hsame|Hsame];
    [rewrite bool_decide_true in Hr by done|rewrite bool_decide_false in Hr by done].
  { ok_step Hr. injection Hr as <-. by rewrite E, E2. }
  assert (Hatt : attached (shapes (inodes (fs_db f))) td) by (by eapply inv_live_dir).
  destruct (inv_entry _ _ Inv _ _ _ _ E) as (_ & Hsid0 & Hfs & _).
  assert (Hcyc : is_directory si = true -> sid <> td /\ Avoids (shapes (inodes (fs_db f))) sid td)
    by (by eapply not_cyclic).
  assert (Htds : td <> sid).
  { intros ->. rewrite E3 in E7'. injection E7' as ->. by destruct Hcyc. }
  assert (Hne : (fd, fn) <> (td, tn)).
  { intros Heq. rewrite <- Heq, E in E2. by destruct Hsame. }
  ok_step Hr. ok_step Hr. rename x into target, E0 into Eo.
  destruct (open_target_ok _ _ td tn sid _ _ _ _ Eo eq_refl) as (Hok & _ & Hwas & Hstk);
    [by rewrite E2|intros; by eapply ecount_nonneg|]. rewrite Hwas in Hr.
  unfold new_transaction in E5. destruct (e_read_only env); [done|]. injection E5 as <-.
  destruct (drop_clobbered _ _ _ _ _ _ _) as [t s] eqn:Hdc. ok_step Hr. injection Hr as <-.
  eapply rename_staged in E0 as (to' & Hto & HT); [|eauto..]. rewrite HT. split.
  - eapply rename_inv; eauto. by apply Hcyc.
  - intros db' Hcore. eapply rename_moves_holds; eauto.
    + intros id i c Hti. split; [by eapply Hstk|].
      rewrite Hti in Hok. destruct Hok as (Het & _). rewrite Het, bool_decide_true, orb_false_r in E1 by eauto. done.
    + by apply Hcyc.
    + intros id Hh. by apply held_defers, Hheld.
Qed.

Lemma dedup_drop_clobbered db f env td tn target t : tx_dedup (drop_clobbered db f env td tn target t).1 = tx_dedup t.
Proof.
  unfold drop_clobbered. destruct target as [[[id i] c]|]; [|done].
  pose proof (dedup_drop_target db (should_defer_unlinked_inode f id) (e_clock env 0) (e_ts env) id i t) as Hd.
  destruct (drop_target _ _ _ _ _ _ _) as [t' b]. cbn in *. by autorewrite with txn_dedup.
Qed.
Lemma dedup_save_dir_inode db id i t : tx_dedup (save_dir_inode db id i t) = tx_dedup t.
Proof. destruct i; cbn; by autorewrite with txn_dedup. Qed.
Lemma dedup_stage_move ch fd fn td tn sid sc nc i t : tx_dedup (stage_move ch fd fn td tn sid sc nc i t) = tx_dedup t.
Proof. by destruct ch. Qed.
#[export] Hint Rewrite dedup_drop_clobbered dedup_save_dir_inode dedup_stage_move : txn_dedup.

Lemma rename_txn_dedup env f creds fd fn td tn op rep sid sc tgt t s :
  rename_txn env f creds fd fn td tn op rep sid sc tgt = Ok (Some (t, s)) ->
  has_op_id op = true -> tx_dedup t = Some (op, DRename).
Proof.
  intros Hr Ho. unfold rename_txn in Hr. cbv zeta in Hr. repeat ok_step Hr. case_bool_decide; [by repeat ok_step Hr|].
  repeat ok_step Hr.
  unfold new_transaction in *. destruct (e_read_only env); [done|].
  destruct (drop_clobbered _ _ _ _ _ _ _) as [t0 s0] eqn:Hdc.
  apply (f_equal fst), (f_equal tx_dedup) in Hdc. rewrite dedup_drop_clobbered in Hdc. simplify_eq. cbn in Hdc. rewrite Ho in Hdc.
  apply result_bind_Ok in Hr as (t1 & Ht & Hr). injection Hr as <- <-.
  destruct (negb (fd =? td)); [ok_step Ht|]; injection Ht as <-; by autorewrite with txn_dedup.
Qed.

Lemma rename_locked_performs env creds fd fn td tn op rep sid sc tgt held f :
  NsState f -> id_room f -> read_cookie (fs_db f) td < U64_MAX ->
  (forall i, inodes (fs_db f) !! td = Some i -> is_directory i = true) ->
  (forall k, held k = true -> 0 < default 0 (open_handles f !! k)) ->
  wp (rename_locked env creds fd fn td tn op rep sid sc tgt)
    (performs env op into_rename (rename_effect creds fd fn td tn rep held (e_clock env 0)) f) f.
Proof.
  intros Inv Hroom Hc Htd Hheld. unfold rename_locked. repeat op_step.
  - pose proof (rename_txn_dedup _ _ _ _ _ _ _ _ _ _ _ _ _ _ E) as Hdd.
    eapply rename_txn_spec in E; eauto. destruct E as [Inv' Hm].
    apply performs_commit_unit; auto; [|intros db' Hcore; right; auto]. intros Ho _. exists DRename. by rewrite Hdd.
  - eapply rename_txn_spec in E; eauto. apply commit_replay_performs; auto. intros db' Hcore. left. auto.
Qed.

Lemma rename_performs env auth fd fn td tn op rep held f :
  NsState f -> id_room f -> read_cookie (fs_db f) td < U64_MAX ->
  (forall i, inodes (fs_db f) !! td = Some i -> is_directory i = true) ->
  (forall k, held k = true -> 0 < default 0 (open_handles f !! k)) ->
  wp (rename_with_options env auth fd fn td tn op rep)
    (performs env op into_rename (rename_effect (from_auth_context auth) fd fn td tn rep held (e_clock env 0)) f) f.
Proof.
  intros Inv Hroom Hc Htd Hheld. unfold rename_with_options. repeat op_step.
  destruct (_ && _) eqn:Hsame.
  { apply commit_replay_performs; auto. intros db' Hcore. left. split; [done|]. left.
    apply andb_prop in Hsame as [->%Z.eqb_eq ->%bool_decide_eq_true]. done. }
  op_step. destruct (get_entry_with_cookie _ _ _) as [[sid sc]|e] eqn:He; repeat op_step.
  by apply rename_locked_performs.
Qed.



(** ** What the checks leave open *)

(** The example tree with an executable file [/x] (inode 4). *)
Definition example_exec : FS :=
  (make_child MakeFile example_env root_creds 0 [120]
     (mkSetAttributes (Set_ 511) NoChange NoChange NoChange TimeNoChange TimeNoChange) no_op_id example_tree).2.

(** C36: The destination of a rename is never checked to be a directory: from a state that
    satisfies the invariant, [/a/g] is moved "into" the regular file [/x]; the call
    succeeds, the moved file has an entry below a regular file, where no path leads to
    it, and the invariant is gone. *)
Theorem rename_into_file_accepted :
  let f' := (rename example_env root_auth 1 [103] 4 [121] example_exec).2 in
  NsState example_exec /\ (rename example_env root_auth 1 [103] 4 [121] example_exec).1 = Ok tt /\
  (is_directory <$> inodes (fs_db f') !! 4) = Some false /\
  entries (fs_db f') !! (4, [121]) = Some (3, 3) /\ entries (fs_db f') !! (1, [103]) = None /\
  ~ NsState f'.
Proof.
  split_and!; [|by vm_compute..|].
  - destruct (make_child_performs MakeFile example_env root_creds 0 [120]
      (mkSetAttributes (Set_ 511) NoChange NoChange NoChange TimeNoChange TimeNoChange) no_op_id example_tree
      example_tree_ns) as [H _]; [by vm_compute..|exact H].
  - intros Inv. assert (He : entries (fs_db (rename example_env root_auth 1 [103] 4 [121] example_exec).2) !! (4, [121])
      = Some (3, 3)) by (by vm_compute).
    destruct (inv_entry _ _ Inv _ _ _ _ He) as ((x & Hx & Hd & _) & _).
    vm_compute in Hx. by injection Hx as <-.
Qed.

(** The inode locks a rename holds from its checks to its commit. *)
Definition rename_locks (from_dirid source_inode_id to_dirid : Z) (target_inode_id : option Z) : list Z :=
  [from_dirid; source_inode_id] ++ (if from_dirid =? to_dirid then [] else [to_dirid]) ++
  match target_inode_id with Some t => [t] | None => [] end.

(** [/p/s/t] and [/q/u/v]: inodes 1, 2, 3 and 4, 5, 6. *)
Definition example_deep : FS :=
  example_made MakeDir 5 [118] (example_made MakeDir 4 [117] (example_made MakeDir 0 [113]
    (example_made MakeDir 2 [116] (example_made MakeDir 1 [115] (example_made MakeDir 0 [112] example_fs))))).

(** Two renames in flight: both are checked and prepared, then both commit. *)
Definition two_renames (f : FS) : option FS :=
  match rename_txn example_env f root_creds 1 [115] 6 [115] no_op_id true 2 3 None,
        rename_txn example_env f root_creds 4 [117] 3 [117] no_op_id true 5 3 None with
  | Ok (Some (t1, s1)), Ok (Some (t2, s2)) =>
      match commitM example_env t1 s1 f with
      | (Ok _, f1) => match commitM example_env t2 s2 f1 with (Ok _, f2) => Some f2 | _ => None end
      | _ => None
      end
  | _, _ => None
  end.

Lemma walk_cycle m a x1 x2 x3 x4 i1 i2 i3 i4 :
  m !! x1 = Some i1 -> m !! x2 = Some i2 -> m !! x3 = Some i3 -> m !! x4 = Some i4 ->
  parent i1 = Some x2 -> parent i2 = Some x3 -> parent i3 = Some x4 -> parent i4 = Some x1 ->
  Forall (fun x => x <> 0 /\ x <> a) [x1; x2; x3; x4] -> forall fuel, ancestor_walk fuel m a x1 = None.
Proof.
  intros H1 H2 H3 H4 P1 P2 P3 P4 Hne fuel.
  repeat (apply Forall_cons in Hne as [[?%Z.eqb_neq ?%Z.eqb_neq] Hne]).
  assert (Hall : ancestor_walk fuel m a x1 = None /\ ancestor_walk fuel m a x2 = None /\
              ancestor_walk fuel m a x3 = None /\ ancestor_walk fuel m a x4 = None).
  { induction fuel as [|fuel (I1 & I2 & I3 & I4)]; [done|]. cbn.
    rewrite H1, H2, H3, H4, P1, P2, P3, P4, I1, I2, I3, I4. by repeat (case_match; try congruence). }
  apply Hall.
Qed.

(** C37: The ancestry check is not protected against a concurrent rename: moving
    [/p/s] into [/q/u/v] and [/q/u] into [/p/s/t] take disjoint inode locks, so both may
    pass their checks before either commits; each of the two would preserve the
    invariant alone, but after both the four directories form a cycle that is not
    reachable from the root, and the ancestry walk of a later rename into it never ends. *)
Theorem concurrent_renames_make_cycle :
  NsState example_deep /\
  rename_locks 1 2 6 None ## rename_locks 4 5 3 None /\
  exists f', two_renames example_deep = Some f' /\
    (parent <$> inodes (fs_db f') !! 2) = Some (Some 6) /\ (parent <$> inodes (fs_db f') !! 6) = Some (Some 5) /\
    (parent <$> inodes (fs_db f') !! 5) = Some (Some 3) /\ (parent <$> inodes (fs_db f') !! 3) = Some (Some 2) /\
    ~ NsState f' /\ forall fuel, ancestor_walk fuel (inodes (fs_db f')) 1 2 = None.
Proof.
  split; [repeat (apply example_made_ns; [|by vm_compute..]); exact example_ns|].
  split; [vm_compute; set_solver|].
  assert (Hp : (fun f => map (fun k => inodes (fs_db f) !! k ≫= parent) [2; 6; 5; 3]) <$> two_renames example_deep =
               Some [Some 6; Some 5; Some 3; Some 2]) by (by vm_compute).
  destruct (two_renames example_deep) as [f'|]; [|done]. cbn in Hp. injection Hp as H2 H6 H5 H3.
  apply bind_Some in H2 as (i2 & H2 & P2), H6 as (i6 & H6 & P6), H5 as (i5 & H5 & P5), H3 as (i3 & H3 & P3).
  assert (Hw : forall fuel, ancestor_walk fuel (inodes (fs_db f')) 1 2 = None).
  { eapply (walk_cycle _ 1 2 6 5 3); eauto. repeat constructor; done. }
  exists f'. rewrite H2, H6, H5, H3. cbn. split_and!; try congruence.
  intros Inv. destruct (ancestor_walk_total _ _ Inv 1 2) as [r Hr]. by rewrite Hw in Hr.
Qed.
