(* ===== verification/Lanes.v ===== *)
(** * Append lanes

    The in-memory open segments of [fs/store/extent/write.rs].  A writer claims a run of
    frame indices and a byte range under the lane's append gate ([claim]); the batch is
    encrypted outside that gate and copied into the claimed range afterwards ([fill]), so
    that claims and fills of several writers interleave.  The buffer is related to a list
    of slots, of which a claim reserves some and a fill completes those it reserved; from
    this follows that every frame whose location was handed out reads back, whatever the
    order of the other writers' claims, fills and failures. *)

From Stdlib Require Import String.
From S2P Require Import Prelude Errors FrameCodec Segment.

Record OpenSegment := mkOpen {
  os_segid : Segid;
  os_buf : bytes;
  os_dir : list DirEntry }.

(** [struct Reservation]. *)
Record FrameReservation := mkReservation {
  rs_segid : Segid;
  rs_first_frame : Z;
  rs_offsets : list Z;
  rs_lens : list Z }.

(** [buf[start..start + src.len()].copy_from_slice(src)]. *)
Definition copy_at (start : nat) (src buf : bytes) : bytes :=
  take start buf ++ src ++ drop (start + length src) buf.

(** The loop of [claim] over the frames [(extent, sealed_len)]: offsets, body lengths,
    directory entries and the end offset. *)
Fixpoint claim_layout (inode offset limits : Z) (frames : list (Z * Z))
    : result SegmentError (list Z * list Z * list DirEntry * Z) :=
  match frames with
  | [] => Ok ([], [], [], offset)
  | (extent, sealed_len) :: rest =>
      len ← checked_frame_body_len sealed_len limits;
      stored ← ok_or (Malformed "segment byte length")
                 (checked_add_u64 (Z.of_nat LEN_PREFIX) sealed_len);
      next ← ok_or (Malformed "segment byte length") (checked_add_u64 offset stored);
      '(offsets, lens, entries, final) ← claim_layout inode next limits rest;
      Ok (offset :: offsets, len :: lens, mkDirEntry offset len inode extent :: entries, final)
  end.

Definition write_prefixes (slots : list (Z * Z)) (buf : bytes) : bytes :=
  foldl (fun buf sl => copy_at (Z.to_nat sl.1) (le_bytes LEN_PREFIX sl.2) buf) buf slots.

(** [Reservation::claim]: nothing is changed when it fails. *)
Definition claim (o : OpenSegment) (inode : Z) (frames : list (Z * Z)) (limits : Z)
    : result SegmentError (FrameReservation * OpenSegment) :=
  final_frame_count ← ok_or (Malformed "segment frame count")
                        (checked_add_u64 (zlen (os_dir o)) (zlen frames));
  first_frame ← checked_frame_run_start (zlen (os_dir o)) (zlen frames) limits;
  _ ← checked_directory_plaintext_len final_frame_count limits;
  '(offsets, lens, entries, final_len) ← claim_layout inode (zlen (os_buf o)) limits frames;
  growth ← ok_or (Malformed "segment byte length") (checked_sub final_len (zlen (os_buf o)));
  let buf := write_prefixes (zip offsets lens) (os_buf o ++ replicate (Z.to_nat growth) 0) in
  Ok (mkReservation (os_segid o) first_frame offsets lens,
      mkOpen (os_segid o) buf (os_dir o ++ entries)).

(** The loop of [fill]: a failure leaves the frames copied so far. *)
Fixpoint fill_from (s : Segid) (first_frame i : Z) (slots : list (Z * Z))
    (sealed : list (Z * Z * bytes)) : stM bytes FsError (list FrameLoc) :=
  match slots, sealed with
  | (offset, len) :: slots', (_, _, body) :: sealed' =>
      match checked_frame_index first_frame i WIRE with
      | Err _ => throwS IoError
      | Ok frame_index =>
          if negb (zlen body =? len) then throwS IoError
          else
            buf ← getS;
            _ ← putS (copy_at (Z.to_nat offset + LEN_PREFIX) body buf);
            match checked_stored_frame_len (Z.of_nat LEN_PREFIX + len) WIRE with
            | Err _ => throwS IoError
            | Ok byte_len =>
                locs ← fill_from s first_frame (i + 1) slots' sealed';
                mret (mkFrameLoc s frame_index offset byte_len :: locs)
            end
      end
  | _, _ => mret []
  end.

(** [Reservation::fill]. *)
Definition fill (r : FrameReservation) (sealed : list (Z * Z * bytes)) (o : OpenSegment)
    : result FsError (list FrameLoc) * OpenSegment :=
  if negb (bool_decide (os_segid o = rs_segid r) && (length sealed =? length (rs_offsets r))%nat)
  then (Err IoError, o)
  else
    let '(res, buf) := fill_from (rs_segid r) (rs_first_frame r) 0
                         (zip (rs_offsets r) (rs_lens r)) sealed (os_buf o) in
    (res, mkOpen (os_segid o) buf (os_dir o)).

(** ** The buffer as a list of slots *)

(** What a slot holds: the reservation, named by its first frame, that will complete it;
    the sealed body; or nothing, once its writer has given up. *)
Inductive SlotState :=
| Pending (owner : Z)
| Filled (body : bytes)
| Abandoned.

Record Slot := mkSlot { sl_inode : Z; sl_extent : Z; sl_len : Z; sl_state : SlotState }.

Definition slot_key (s : Slot) : Z * Z * Z := (sl_inode s, sl_extent s, sl_len s).
Definition slot_body (s : Slot) : bytes :=
  match sl_state s with Filled b => b | _ => replicate (Z.to_nat (sl_len s)) 0 end.
Definition slot_bytes (s : Slot) : bytes := le_bytes 4 (sl_len s) ++ slot_body s.
Definition slot_wf (s : Slot) : Prop := 0 <= sl_len s /\ sl_len s + 4 <= U32_MAX /\ zlen (slot_body s) = sl_len s.

Definition lane_bytes (slots : list Slot) : bytes := concat (map slot_bytes slots).

Fixpoint slot_spans (offset : Z) (slots : list Slot) : list (Z * Z) :=
  match slots with
  | [] => []
  | s :: r => (offset, sl_len s) :: slot_spans (offset + (sl_len s + 4)) r
  end.
Fixpoint slot_dir (offset : Z) (slots : list Slot) : list DirEntry :=
  match slots with
  | [] => []
  | s :: r => mkDirEntry offset (sl_len s) (sl_inode s) (sl_extent s) :: slot_dir (offset + (sl_len s + 4)) r
  end.

Record lane_rep (o : OpenSegment) (slots : list Slot) : Prop := {
  lr_buf : os_buf o = lane_bytes slots;
  lr_dir : os_dir o = slot_dir 0 slots;
  lr_wf : Forall slot_wf slots;
  lr_len : zlen (os_buf o) <= U64_MAX;
  lr_count : zlen slots * 28 <= U32_MAX }.

(** ** Slots, spans and directories *)

Lemma lane_bytes_app p q : lane_bytes (p ++ q) = lane_bytes p ++ lane_bytes q.
Proof. unfold lane_bytes. by rewrite map_app, concat_app. Qed.
Lemma lane_bytes_cons s q : lane_bytes (s :: q) = slot_bytes s ++ lane_bytes q.
Proof. done. Qed.
Lemma zlen_slot_bytes s : slot_wf s -> zlen (slot_bytes s) = sl_len s + 4.
Proof.
  intros (? & ? & Hb). unfold slot_bytes. rewrite zlen_app, Hb. unfold zlen. rewrite length_le_bytes. lia.
Qed.

Lemma slot_spans_app o p q :
  Forall slot_wf p -> slot_spans o (p ++ q) = slot_spans o p ++ slot_spans (o + zlen (lane_bytes p)) q.
Proof.
  revert o. induction p as [|s p IH]; intros o Hp; cbn [app slot_spans].
  { unfold lane_bytes, zlen. cbn. by rewrite Z.add_0_r. }
  apply Forall_cons in Hp as [Hs Hp]. rewrite IH by done. rewrite lane_bytes_cons, zlen_app.
  rewrite zlen_slot_bytes by done. by rewrite !Z.add_assoc.
Qed.
Lemma slot_dir_app o p q :
  Forall slot_wf p -> slot_dir o (p ++ q) = slot_dir o p ++ slot_dir (o + zlen (lane_bytes p)) q.
Proof.
  revert o. induction p as [|s p IH]; intros o Hp; cbn [app slot_dir].
  { unfold lane_bytes, zlen. cbn. by rewrite Z.add_0_r. }
  apply Forall_cons in Hp as [Hs Hp]. rewrite IH by done. rewrite lane_bytes_cons, zlen_app.
  rewrite zlen_slot_bytes by done. by rewrite !Z.add_assoc.
Qed.
Lemma length_slot_dir o q : length (slot_dir o q) = length q.
Proof. revert o. induction q; intros; cbn; auto. Qed.
Lemma length_slot_spans o q : length (slot_spans o q) = length q.
Proof. revert o. induction q; intros; cbn; auto. Qed.

Lemma copy_at_mid (a b b' c : bytes) :
  length b = length b' -> copy_at (length a) b' (a ++ b ++ c) = a ++ b' ++ c.
Proof.
  intros Hl. unfold copy_at. rewrite take_app_length. do 2 f_equal.
  rewrite <- Hl, <- drop_drop, drop_app_length. apply drop_app_length.
Qed.

Lemma length_copy_at a (src buf : bytes) :
  (a + length src <= length buf)%nat -> length (copy_at a src buf) = length buf.
Proof. intros Hl. unfold copy_at. rewrite !length_app, length_take, length_drop. lia. Qed.

Lemma lookup_copy_at a (src buf : bytes) k :
  (a + length src <= length buf)%nat ->
  copy_at a src buf !! k =
    if decide (a <= k < a + length src)%nat then src !! (k - a)%nat else buf !! k.
Proof.
  intros Hl. unfold copy_at. destruct (decide (k < a)%nat) as [Hk|Hk].
  { rewrite lookup_app_l by (rewrite length_take; lia). rewrite lookup_take_lt by done.
    by rewrite decide_False by lia. }
  rewrite lookup_app_r; rewrite length_take; [|lia]. replace (Nat.min a (length buf)) with a by lia.
  destruct (decide _) as [Hd|Hd].
  - by rewrite lookup_app_l by lia.
  - rewrite lookup_app_r by lia. rewrite lookup_drop. f_equal. lia.
Qed.

(** ** A claim reserves slots *)

Definition reserved (inode owner : Z) (f : Z * Z) : Slot := mkSlot inode f.1 f.2 (Pending owner).

Lemma reserved_wf inode owner f : 0 <= f.2 -> f.2 + 4 <= U32_MAX -> slot_wf (reserved inode owner f).
Proof.
  intros. split_and!; cbn; try lia. unfold slot_body, zlen. cbn. rewrite length_replicate. lia.
Qed.

Lemma checked_frame_body_len_Ok v l x :
  checked_frame_body_len v l = Ok x -> x = v /\ v + 4 <= U32_MAX /\ v + 4 <= l.
Proof.
  unfold checked_frame_body_len. rewrite result_bind_Ok.
  intros (? & (-> & _ & _)%checked_wire_u32_Ok & E). change (Z.of_nat LEN_PREFIX) with 4 in E.
  cbv zeta in E. destruct (Z.ltb_spec U32_MAX (v + 4)); [done|].
  destruct (Z.ltb_spec l (v + 4)); [done|]. simplify_eq. lia.
Qed.

Lemma claim_layout_Ok inode owner limits frames : forall offset offsets lens entries final,
  Forall (fun f => 0 <= f.2) frames ->
  claim_layout inode offset limits frames = Ok (offsets, lens, entries, final) ->
  let q := map (reserved inode owner) frames in
  zip offsets lens = slot_spans offset q /\ entries = slot_dir offset q /\
  final = offset + zlen (lane_bytes q) /\ Forall slot_wf q /\ length offsets = length frames /\
  length lens = length frames /\ (frames <> [] -> final <= U64_MAX).
Proof.
  induction frames as [|[x n] frames IH]; intros offset offsets lens entries final Hn; cbn [claim_layout].
  { intros; simplify_eq. unfold lane_bytes, zlen. cbn. split_and!; try done. lia. }
  apply Forall_cons in Hn as [Hx Hn]. cbn in Hx. rewrite result_bind_Ok.
  intros (len & (-> & Hl & _)%checked_frame_body_len_Ok & E).
  apply result_bind_Ok in E as (st & [-> _]%ok_or_Ok%checked_add_u64_Some & E).
  apply result_bind_Ok in E as (nx & [-> Hnx]%ok_or_Ok%checked_add_u64_Some & E).
  apply result_bind_Ok in E as ([[[offs ls] es] fin] & E & HE). simplify_eq.
  change (Z.of_nat LEN_PREFIX) with 4 in *.
  destruct (IH _ _ _ _ _ Hn E) as (Hz & -> & Hf & Hw & Ho & Hls & Hfin). cbn [map].
  pose proof (reserved_wf inode owner (x, n) Hx Hl) as Hr.
  rewrite lane_bytes_cons, zlen_app, zlen_slot_bytes by done. cbn [sl_len reserved].
  replace (offset + (4 + n)) with (offset + (n + 4)) in * by lia. split_and!.
  - cbn [zip slot_spans]. cbn in Hz. by rewrite Hz.
  - done.
  - cbn in *. lia.
  - by constructor.
  - cbn. lia.
  - cbn. lia.
  - intros _. destruct frames as [|f frames]; [|by apply Hfin].
    cbn in *. simplify_eq. unfold lane_bytes, zlen. cbn. lia.
Qed.

Lemma write_prefixes_slots inode owner frames : forall (p : bytes),
  Forall slot_wf (map (reserved inode owner) frames) ->
  write_prefixes (slot_spans (zlen p) (map (reserved inode owner) frames))
    (p ++ replicate (length (lane_bytes (map (reserved inode owner) frames))) 0)
  = p ++ lane_bytes (map (reserved inode owner) frames).
Proof.
  induction frames as [|[x n] frames IH]; intros p Hw; [done|].
  cbn [map] in *. apply Forall_cons in Hw as [Hs Hw]. rewrite lane_bytes_cons in *.
  unfold write_prefixes. cbn [slot_spans foldl fst snd].
  set (s := reserved inode owner (x, n)) in *. set (q := map (reserved inode owner) frames) in *.
  assert (Hb : length (slot_bytes s) = (4 + Z.to_nat n)%nat).
  { unfold slot_bytes. rewrite length_app, length_le_bytes. cbn. by rewrite length_replicate. }
  rewrite length_app, Hb, !replicate_add. change LEN_PREFIX with 4%nat.
  replace (Z.to_nat (zlen p)) with (length p) by (unfold zlen; lia). rewrite <- !app_assoc.
  rewrite copy_at_mid by by rewrite length_replicate, length_le_bytes.
  specialize (IH (p ++ slot_bytes s) Hw). rewrite zlen_app, zlen_slot_bytes in IH by done.
  unfold write_prefixes in IH. rewrite <- !app_assoc in IH. exact IH.
Qed.

Lemma claim_Ok o inode frames limits slots r o' :
  lane_rep o slots -> limits <= U32_MAX -> Forall (fun f => 0 <= f.2) frames ->
  claim o inode frames limits = Ok (r, o') ->
  let q := map (reserved inode (zlen slots)) frames in
  lane_rep o' (slots ++ q) /\ os_segid o' = os_segid o /\ rs_segid r = os_segid o /\
  rs_first_frame r = zlen slots /\ length (rs_offsets r) = length frames /\
  zip (rs_offsets r) (rs_lens r) = slot_spans (zlen (lane_bytes slots)) q.
Proof.
  intros [Hb Hd Hw Hlen Hcnt] Hlim Hf. unfold claim, checked_frame_run_start, checked_directory_plaintext_len.
  assert (Hz : zlen (os_dir o) = zlen slots) by (rewrite Hd; unfold zlen; by rewrite length_slot_dir).
  rewrite Hz, result_bind_Ok. intros (? & [-> _]%ok_or_Ok%checked_add_u64_Some & E).
  apply result_bind_Ok in E as (ff & Hff & E).
  apply result_bind_Ok in Hff as (? & _ & (-> & _ & _)%checked_wire_u32_Ok).
  apply result_bind_Ok in E as (? & Hdl & E). apply result_bind_Ok in E as ([[[offs ls] es] fin] & Hcl & E).
  apply result_bind_Ok in E as (g & [-> _]%ok_or_Ok%checked_sub_Some & E). simplify_eq. cbn.
  destruct (claim_layout_Ok inode (zlen slots) limits frames _ _ _ _ _ Hf Hcl)
    as (Hsp & -> & -> & Hwq & Ho & _ & Hfin).
  set (q := map (reserved inode (zlen slots)) frames) in *.
  replace (Z.to_nat (zlen (os_buf o) + zlen (lane_bytes q) - zlen (os_buf o)))
    with (length (lane_bytes q)) by (unfold zlen; lia).
  pose proof (write_prefixes_slots inode (zlen slots) frames (os_buf o) Hwq) as Hwp. fold q in Hwp.
  rewrite Hsp, Hwp, <- Hb. split_and!; try done. split; cbn.
  - by rewrite lane_bytes_app, Hb.
  - by rewrite slot_dir_app, Hd, Hb.
  - by apply Forall_app.
  - rewrite zlen_app. destruct frames; [unfold lane_bytes, zlen; cbn; unfold zlen in Hlen; lia|by apply Hfin].
  - destruct (_ <? _) in Hdl; [done|].
    apply result_bind_Ok in Hdl as (? & (-> & ? & ?)%checked_wire_u32_Ok & _).
    change (Z.of_nat DIR_ENTRY_LEN) with 28 in *. rewrite zlen_app.
    replace (zlen q) with (zlen frames) by (unfold q, zlen; by rewrite length_map). lia.
Qed.

(** ** A fill completes the slots of its claim *)

Definition complete (q : list Slot) (sealed : list (Z * Z * bytes)) : list Slot :=
  zip_with (fun s f => mkSlot (sl_inode s) (sl_extent s) (sl_len s) (Filled f.2)) q sealed.

Fixpoint slot_locs (s : Segid) (index offset : Z) (q : list Slot) : list FrameLoc :=
  match q with
  | [] => []
  | sl :: r => mkFrameLoc s index offset (sl_len sl + 4)
                 :: slot_locs s (index + 1) (offset + (sl_len sl + 4)) r
  end.

Definition fits (sl : Slot) (f : Z * Z * bytes) : Prop := zlen f.2 = sl_len sl.

Lemma fill_from_Ok s first sealed : forall q p t i,
  Forall slot_wf p -> Forall slot_wf q -> Forall2 fits q sealed ->
  0 <= first -> 0 <= i -> first + i = zlen p -> zlen p + zlen q <= U32_MAX ->
  fill_from s first i (slot_spans (zlen (lane_bytes p)) q) sealed (lane_bytes (p ++ q ++ t))
  = (Ok (slot_locs s (zlen p) (zlen (lane_bytes p)) q), lane_bytes (p ++ complete q sealed ++ t)).
Proof.
  induction sealed as [|[[id x] body] sealed IH]; intros q p t i Hp Hq Hf H0 Hi Hpi Hn.
  { apply Forall2_nil_inv_r in Hf as ->. done. }
  apply Forall2_cons_inv_r in Hf as (sl & q' & Hfit & Hf & ->). apply Forall_cons in Hq as [Hs Hq].
  cbn [slot_spans fill_from]. rewrite zlen_cons in Hn. pose proof (zlen_nonneg q').
  assert (checked_frame_index first i WIRE = Ok (zlen p)) as ->
    by (apply checked_frame_index_Ok; unfold WIRE; lia).
  unfold fits in Hfit. cbn [snd] in Hfit. rewrite Hfit, Z.eqb_refl. cbn [negb].
  destruct Hs as (Hl0 & Hl & Hb). change (Z.of_nat LEN_PREFIX) with 4.
  assert (checked_stored_frame_len (4 + sl_len sl) WIRE = Ok (sl_len sl + 4)) as ->
    by (apply checked_wire_u32_Ok; unfold WIRE; lia).
  unfold mbind, stM_bind, getS, putS. change LEN_PREFIX with 4%nat.
  set (sl' := mkSlot (sl_inode sl) (sl_extent sl) (sl_len sl) (Filled body)).
  assert (Hs' : slot_wf sl') by (by split_and!).
  assert (Hcopy : copy_at (Z.to_nat (zlen (lane_bytes p)) + 4) body (lane_bytes (p ++ (sl :: q') ++ t))
                  = lane_bytes ((p ++ [sl']) ++ q' ++ t)).
  { rewrite <- app_assoc, !(lane_bytes_app p). cbn [app]. rewrite !lane_bytes_cons.
    unfold slot_bytes. rewrite <- !app_assoc, !(app_assoc (lane_bytes p)).
    replace (Z.to_nat (zlen (lane_bytes p)) + 4)%nat with (length (lane_bytes p ++ le_bytes 4 (sl_len sl)))
      by (rewrite length_app, length_le_bytes; unfold zlen; lia).
    apply (copy_at_mid _ (slot_body sl) body). unfold zlen in Hb, Hfit. lia. }
  rewrite Hcopy. specialize (IH q' (p ++ [sl']) t (i + 1)).
  rewrite zlen_app, lane_bytes_app, zlen_app in IH.
  assert (Hz1 : zlen (lane_bytes [sl']) = sl_len sl + 4).
  { rewrite lane_bytes_cons, zlen_app, zlen_slot_bytes by done. unfold lane_bytes, zlen. cbn. lia. }
  rewrite Hz1 in IH. change (zlen [sl']) with 1 in IH.
  rewrite IH; try done; try lia; [|by apply Forall_app; repeat constructor].
  cbn [complete zip_with slot_locs]. by rewrite <- app_assoc.
Qed.

Lemma length_complete q sealed : Forall2 fits q sealed -> length (complete q sealed) = length q.
Proof. intros H%Forall2_length. unfold complete. rewrite length_zip_with. lia. Qed.
Lemma complete_wf q sealed : Forall slot_wf q -> Forall2 fits q sealed -> Forall slot_wf (complete q sealed).
Proof.
  intros Hq Hf. induction Hf as [|s f q sealed Hs _ IH]; [constructor|].
  apply Forall_cons in Hq as [(?&?&_) Hq]. constructor; [by split_and!|by apply IH].
Qed.
Lemma spans_complete o q sealed : Forall2 fits q sealed -> slot_spans o (complete q sealed) = slot_spans o q.
Proof. intros Hf. revert o. induction Hf; intros o; [done|]. cbn. by f_equal. Qed.
Lemma dir_complete o q sealed : Forall2 fits q sealed -> slot_dir o (complete q sealed) = slot_dir o q.
Proof. intros Hf. revert o. induction Hf; intros o; [done|]. cbn. by f_equal. Qed.
Lemma zlen_complete q sealed :
  Forall slot_wf q -> Forall2 fits q sealed -> zlen (lane_bytes (complete q sealed)) = zlen (lane_bytes q).
Proof.
  intros Hq Hf. induction Hf as [|s f q sealed Hs Hf IH]; [done|].
  apply Forall_cons in Hq as [Hw Hq]. unfold complete in *. cbn [zip_with].
  rewrite !lane_bytes_cons, !zlen_app, IH by done.
  rewrite !zlen_slot_bytes; [done|done|]. destruct Hw as (?&?&_). by split_and!.
Qed.

Lemma fill_Ok r sealed o p q t :
  lane_rep o (p ++ q ++ t) -> os_segid o = rs_segid r -> rs_first_frame r = zlen p ->
  length (rs_offsets r) = length q ->
  zip (rs_offsets r) (rs_lens r) = slot_spans (zlen (lane_bytes p)) q -> Forall2 fits q sealed ->
  exists o', fill r sealed o = (Ok (slot_locs (rs_segid r) (zlen p) (zlen (lane_bytes p)) q), o') /\
    os_segid o' = os_segid o /\ lane_rep o' (p ++ complete q sealed ++ t).
Proof.
  intros [Hb Hd Hw Hlen Hcnt] Hs Hff Hlo Hz Hf. unfold fill.
  pose proof (Forall2_length _ _ _ Hf) as Hl.
  rewrite bool_decide_true, <- Hl, Hlo, Nat.eqb_refl by done. cbn [andb negb].
  rewrite !Forall_app in Hw. destruct Hw as (Hwp & Hwq & Hwt). rewrite !zlen_app in Hcnt.
  pose proof (zlen_nonneg p). pose proof (zlen_nonneg q). pose proof (zlen_nonneg t).
  rewrite Hb, Hff, Hz, fill_from_Ok by (done || lia).
  eexists. split; [done|]. split; [done|].
  assert (Hbl : zlen (lane_bytes (p ++ complete q sealed ++ t)) = zlen (os_buf o))
    by (rewrite Hb, !lane_bytes_app, !zlen_app, zlen_complete by done; done).
  split; cbn.
  - done.
  - rewrite Hd, !slot_dir_app, zlen_complete, dir_complete by auto using complete_wf. done.
  - rewrite !Forall_app. auto using complete_wf.
  - by rewrite Hbl.
  - unfold zlen in *. rewrite !length_app, length_complete by done. lia.
Qed.

(** ** Frames in a buffer *)

Section frames.
Context `{CodecPrimsLaws}.

(** The plaintext [d] of the logical block [(id, x)] is stored in [buf] at [loc]. *)
Definition frame_in (buf : bytes) (id x : Z) (loc : FrameLoc) (d : bytes) : Prop :=
  exists pre body post,
    buf = pre ++ frame_bytes body ++ post /\ zlen pre = fl_byte_offset loc /\
    fl_byte_len loc = zlen body + 4 /\ fl_byte_len loc <= U32_MAX /\ is_u32 (fl_frame_index loc) /\
    open_plain (fl_segid loc) body (fl_frame_index loc) id x = Ok d.

Lemma frame_in_app buf more id x loc d : frame_in buf id x loc d -> frame_in (buf ++ more) id x loc d.
Proof.
  intros (pre & body & post & -> & ?). exists pre, body, (post ++ more).
  by rewrite <- !app_assoc.
Qed.

Lemma frame_bytes_inj b b' (p p' : bytes) :
  zlen b + 4 <= U32_MAX -> zlen b' = zlen b -> frame_bytes b ++ p = frame_bytes b' ++ p' -> b = b' /\ p = p'.
Proof.
  intros Hl Hb E. apply app_inj_1 in E as [E ->]; [|rewrite !frame_bytes_length; unfold zlen in *; lia].
  split; [|done]. unfold frame_bytes in E. rewrite Hb in E. by apply app_inv_head in E.
Qed.

Lemma frame_in_fun buf id x loc d d' : frame_in buf id x loc d -> frame_in buf id x loc d' -> d = d'.
Proof.
  intros (pre & body & post & -> & Ho & Hl & Hu & _ & Hd) (pre' & body' & post' & E & Ho' & Hl' & _ & _ & Hd').
  apply app_inj_1 in E as [-> E]; [|unfold zlen in *; lia].
  apply frame_bytes_inj in E as [-> _]; [|lia..]. congruence.
Qed.

(** A frame is its own bytes: a buffer that agrees with [buf] there holds it too. *)
Lemma frame_in_slice buf buf' id x loc d :
  slice (Z.to_nat (fl_byte_offset loc)) (Z.to_nat (fl_byte_offset loc + fl_byte_len loc)) buf'
  = slice (Z.to_nat (fl_byte_offset loc)) (Z.to_nat (fl_byte_offset loc + fl_byte_len loc)) buf ->
  frame_in buf id x loc d -> frame_in buf' id x loc d.
Proof.
  intros E (pre & body & post & -> & Ho & Hl & Hrest). rewrite <- Ho in E. pose proof (zlen_frame_bytes body) as Hz.
  rewrite (slice_app_mid _ _ pre (frame_bytes body)) in E by (unfold zlen in *; lia).
  replace (Z.to_nat (zlen pre)) with (length pre) in E by (unfold zlen; lia). unfold slice in E.
  exists (take (length pre) buf'), body, (drop (length (frame_bytes body)) (drop (length pre) buf')).
  replace (Z.to_nat (zlen pre + fl_byte_len loc) - length pre)%nat
    with (length (frame_bytes body)) in E by (unfold zlen in *; lia).
  assert (Hle : (length pre <= length buf')%nat).
  { pose proof (f_equal length E) as El. rewrite length_take, length_drop, frame_bytes_length in El. lia. }
  split; [rewrite <- E at 1; by rewrite take_drop, take_drop|].
  split; [rewrite <- Ho; unfold zlen; rewrite length_take; lia|done].
Qed.

(** A run: consecutive frames of one segment. *)
Definition follows (l l' : FrameLoc) : Prop :=
  fl_segid l' = fl_segid l /\ fl_frame_index l' = fl_frame_index l + 1 /\
  fl_byte_offset l' = fl_byte_offset l + fl_byte_len l.
#[export] Instance follows_dec l l' : Decision (follows l l').
Proof. unfold follows. apply _. Defined.

Fixpoint is_run (l : FrameLoc) (ls : list FrameLoc) : Prop :=
  match ls with [] => True | l' :: r => follows l l' /\ is_run l' r end.

Definition locs_len (ls : list FrameLoc) : Z := fold_right (fun l acc => fl_byte_len l + acc) 0 ls.

(** An item of a run: the block, its location and its plaintext. *)
Record RunItem := mkItem { ri_slot : Z * Z; ri_loc : FrameLoc; ri_data : bytes }.
Definition item_in (buf : bytes) (it : RunItem) : Prop :=
  frame_in buf (ri_slot it).1 (ri_slot it).2 (ri_loc it) (ri_data it).

Lemma run_in_buffer buf : forall items l0 it0,
  ri_loc it0 = l0 -> is_run l0 (map ri_loc items) -> Forall (item_in buf) (it0 :: items) ->
  exists pre post (spans : list (bytes * Z * Z * bytes)),
    buf = pre ++ concat (map (fun s => frame_bytes (item_body s)) spans) ++ post /\
    zlen pre = fl_byte_offset l0 /\
    zlen (concat (map (fun s => frame_bytes (item_body s)) spans)) = locs_len (map ri_loc (it0 :: items)) /\
    map item_slot spans = map ri_slot (it0 :: items) /\ map item_out spans = map ri_data (it0 :: items) /\
    Forall (fun s => zlen (item_body s) <= U32_MAX) spans /\
    opens (open_plain (fl_segid l0)) (fl_frame_index l0) spans /\
    fl_frame_index l0 + zlen spans <= U32_MAX + 1 /\ 0 <= fl_frame_index l0.
Proof.
  induction items as [|it1 items IH]; intros l0 it0 Hl0 Hrun Hin.
  - apply Forall_cons in Hin as [(pre & body & post & -> & Ho & Hl & Hu & Hfi & Hd) _].
    exists pre, post, [(body, (ri_slot it0).1, (ri_slot it0).2, ri_data it0)]. subst l0.
    cbn [map concat item_body item_slot item_out fst snd locs_len fold_right].
    rewrite app_nil_r, zlen_frame_bytes, zlen_cons. change (zlen (@nil (bytes * Z * Z * bytes))) with 0.
    split_and!; try done; try (unfold is_u32 in *; lia).
    + by destruct (ri_slot it0).
    + repeat constructor. cbn. lia.
  - cbn [map is_run] in Hrun. destruct Hrun as [(Hsg & Hix & Hof) Hrun].
    apply Forall_cons in Hin as [Hin0 Hin].
    destruct (IH _ it1 eq_refl Hrun Hin) as (pre' & post & spans & Hbuf & Hpre & Hlen & Hsl & Hout & Hfit & Hop & Hcnt & Hge).
    destruct Hin0 as (pre & body & post0 & Hbuf0 & Ho & Hl & Hu & Hfi & Hd). subst l0.
    assert (pre' = pre ++ frame_bytes body) as ->.
    { rewrite Hbuf0, app_assoc in Hbuf. apply app_inj_1 in Hbuf as [-> _]; [done|].
      rewrite length_app. pose proof (zlen_frame_bytes body). unfold zlen in *. lia. }
    exists pre, post, ((body, (ri_slot it0).1, (ri_slot it0).2, ri_data it0) :: spans).
    cbn [map concat item_body item_slot item_out fst snd locs_len fold_right opens].
    rewrite zlen_app, zlen_frame_bytes, zlen_cons, Hlen, Hsl, Hout. rewrite Hsg, Hix in Hop.
    split_and!; try done; try (unfold is_u32 in *; lia).
    + by rewrite Hbuf, <- !app_assoc.
    + cbn. unfold locs_len. cbn. lia.
    + by destruct (ri_slot it0).
    + constructor; [cbn; lia|done].
Qed.

Lemma read_run_in_buffer buf l0 it0 items :
  ri_loc it0 = l0 -> is_run l0 (map ri_loc items) -> Forall (item_in buf) (it0 :: items) ->
  zlen buf <= U64_MAX ->
  fl_byte_offset l0 + locs_len (map ri_loc (it0 :: items)) <= zlen buf /\
  read_frames_from_region
    (slice (Z.to_nat (fl_byte_offset l0))
       (Z.to_nat (fl_byte_offset l0 + locs_len (map ri_loc (it0 :: items)))) buf)
    (fl_segid l0) (fl_frame_index l0) (map ri_slot (it0 :: items))
  = Ok (map ri_data (it0 :: items)).
Proof.
  intros Hl0 Hrun Hin Hz.
  destruct (run_in_buffer buf items l0 it0 Hl0 Hrun Hin)
    as (pre & post & spans & -> & <- & <- & <- & <- & Hfit & Hop & Hcnt & Hge).
  set (region := concat _) in *. rewrite !zlen_app in *.
  pose proof (zlen_nonneg pre). pose proof (zlen_nonneg post). pose proof (zlen_nonneg region).
  split; [lia|]. rewrite slice_app_mid by (unfold zlen; lia).
  pose proof (read_spans_run (open_plain (fl_segid l0)) (fl_frame_index l0) spans [] [] 0) as HR.
  cbv zeta in HR. rewrite app_nil_r in HR. cbn [app length] in HR. fold region in HR.
  rewrite Z.add_0_r in HR. apply HR; try done; lia.
Qed.

(** ** Interleaved writers of one lane *)

Record OutFrame := mkOut { of_extent : Z; of_plain : bytes; of_payload : Compressed; of_nonce : bytes }.

Record Batch := mkBatch { wb_inode : Z; wb_frames : list OutFrame }.

(** What a batch claims and what it seals. *)
Definition batch_claim (b : Batch) : list (Z * Z) :=
  map (fun f => (of_extent f, Z.of_nat (sealed_len (of_payload f)))) (wb_frames b).
Definition batch_frames (b : Batch) : list (Z * Z * Compressed * bytes) :=
  map (fun f => (wb_inode b, of_extent f, of_payload f, of_nonce f)) (wb_frames b).

(** Payloads are compressed plaintexts; the cipher draws nonces of its own length. *)
Definition out_ok (f : OutFrame) : Prop :=
  codec_decompress (payload (of_payload f)) = Ok (of_plain f) /\ length (of_nonce f) = NONCE_SIZE.

(** A lane: its open segment, the claims not filled yet under their first frame, the
    locations handed out with the blocks they were handed out for, and the log of every
    batch that claimed, in the order of the claims. *)
Record Lane := mkLane {
  ln_open : OpenSegment;
  ln_claims : gmap Z (FrameReservation * Batch);
  ln_done : list RunItem;
  ln_log : list Batch }.

(** The frames a log claimed: inode, extent and sealed length; and the directory of a
    segment in which they follow each other, each behind its length prefix. *)
Definition batch_slots (b : Batch) : list (Z * Z * Z) := map (fun f => (wb_inode b, f.1, f.2)) (batch_claim b).
Definition claimed (log : list Batch) : list (Z * Z * Z) := concat (map batch_slots log).
Fixpoint claimed_dir (offset : Z) (frames : list (Z * Z * Z)) : list DirEntry :=
  match frames with
  | [] => []
  | (inode, extent, len) :: r => mkDirEntry offset len inode extent :: claimed_dir (offset + (4 + len)) r
  end.

Definition done_items (b : Batch) (locs : list FrameLoc) : list RunItem :=
  zip_with (fun f l => mkItem (wb_inode b, of_extent f) l (of_plain f)) (wb_frames b) locs.

(** Steps of the writers: a claim (which may fail), the encryption and fill of a claim,
    or the encryption failing. *)
Inductive LaneStep : Lane -> Lane -> Prop :=
| lane_claim l b r o' :
    wb_frames b <> [] -> Forall out_ok (wb_frames b) ->
    claim (ln_open l) (wb_inode b) (batch_claim b) WIRE = Ok (r, o') ->
    LaneStep l (mkLane o' (<[rs_first_frame r := (r, b)]> (ln_claims l)) (ln_done l) (ln_log l ++ [b]))
| lane_fill l k r b sealed res o' :
    ln_claims l !! k = Some (r, b) ->
    seal_compressed_batch (rs_segid r) (rs_first_frame r) (batch_frames b) = Ok sealed ->
    fill r sealed (ln_open l) = (res, o') ->
    LaneStep l (mkLane o' (delete k (ln_claims l))
      (ln_done l ++ match res with Ok locs => done_items b locs | Err _ => [] end) (ln_log l))
| lane_abandon l k r b :
    ln_claims l !! k = Some (r, b) ->
    LaneStep l (mkLane (ln_open l) (delete k (ln_claims l)) (ln_done l) (ln_log l)).

(** The claim recorded under [k] still owns its slots. *)
Record claim_ok (s : Segid) (slots : list Slot) (k : Z) (r : FrameReservation) (b : Batch) : Prop := {
  co_key : rs_first_frame r = k;
  co_segid : rs_segid r = s;
  co_slots : forall i f, batch_claim b !! i = Some f ->
               slots !! (Z.to_nat k + i)%nat = Some (reserved (wb_inode b) k f);
  co_spans : zip (rs_offsets r) (rs_lens r) =
               take (length (wb_frames b)) (drop (Z.to_nat k) (slot_spans 0 slots));
  co_len : length (rs_offsets r) = length (wb_frames b);
  co_frames : wb_frames b <> [] /\ Forall out_ok (wb_frames b);
  co_range : 0 <= k }.

(** A handed-out location names a filled slot that opens to its plaintext. *)
Definition done_ok (s : Segid) (slots : list Slot) (it : RunItem) : Prop :=
  exists i body,
    slots !! i = Some (mkSlot (ri_slot it).1 (ri_slot it).2 (zlen body) (Filled body)) /\
    slot_spans 0 slots !! i = Some (fl_byte_offset (ri_loc it), zlen body) /\
    ri_loc it = mkFrameLoc s (Z.of_nat i) (fl_byte_offset (ri_loc it)) (zlen body + 4) /\
    open_plain s body (Z.of_nat i) (ri_slot it).1 (ri_slot it).2 = Ok (ri_data it).

Record LaneInv (l : Lane) (slots : list Slot) : Prop := {
  li_rep : lane_rep (ln_open l) slots;
  li_claims : forall k r b, ln_claims l !! k = Some (r, b) ->
                claim_ok (os_segid (ln_open l)) slots k r b;
  li_done : Forall (done_ok (os_segid (ln_open l)) slots) (ln_done l);
  li_log : map slot_key slots = claimed (ln_log l) }.

Lemma slot_dir_claimed q : forall o, slot_dir o q = claimed_dir o (map slot_key q).
Proof. induction q as [|s q IH]; intros o; cbn; [done|]. rewrite IH. by replace (4 + sl_len s) with (sl_len s + 4) by lia. Qed.
Lemma keys_complete q sealed : Forall2 fits q sealed -> map slot_key (complete q sealed) = map slot_key q.
Proof. induction 1 as [|s f q sealed _ _ IH]; cbn; [done|]. by f_equal. Qed.
Lemma keys_reserved inode owner frames : map slot_key (map (reserved inode owner) frames) = map (fun f => (inode, f.1, f.2)) frames.
Proof. rewrite map_map. by apply map_ext. Qed.

(** The directory entry of a handed-out location. *)
Lemma claimed_dir_at slots i s : Forall slot_wf slots -> slots !! i = Some s -> forall o n, slot_spans 0 slots !! i = Some (o, n) ->
  slot_dir 0 slots !! i = Some (mkDirEntry o (sl_len s) (sl_inode s) (sl_extent s)).
Proof.
  generalize 0 as base. intros base _. revert base i. induction slots as [|s' slots IH]; intros base [|i]; cbn; try done.
  - by intros [= ->] o n [= -> _].
  - intros Hi o n. by apply IH.
Qed.
Lemma done_entry s slots it : Forall slot_wf slots -> done_ok s slots it ->
  slot_dir 0 slots !! Z.to_nat (fl_frame_index (ri_loc it)) = Some (entry_of_loc (ri_slot it, ri_loc it)).
Proof.
  intros Hw (i & body & Hi & Hsp & Hloc & _). rewrite Hloc. cbn. rewrite Nat2Z.id, (claimed_dir_at _ _ _ Hw Hi _ _ Hsp).
  unfold entry_of_loc. cbn. do 2 f_equal. lia.
Qed.

(** Entries of a claimed directory are encodable when ids and extents are. *)
Definition slot_u64 (f : Z * Z * Z) : Prop := is_u64 f.1.1 /\ is_u64 f.1.2.
Lemma claimed_dir_wf slots : forall o, Forall slot_wf slots -> Forall slot_u64 (map slot_key slots) -> 0 <= o -> o + zlen (lane_bytes slots) <= U64_MAX ->
  Forall DirEntry_wf (slot_dir o slots).
Proof.
  induction slots as [|s slots IH]; intros o Hw Hu Ho Hz; [constructor|]. cbn in Hu. apply Forall_cons in Hw as [Hs Hw], Hu as [Hk Hu].
  rewrite lane_bytes_cons, zlen_app, zlen_slot_bytes in Hz by done. pose proof (zlen_nonneg (lane_bytes slots)).
  destruct Hs as (? & ? & _), Hk. cbn [slot_dir]. constructor; [unfold DirEntry_wf; cbn in *; ulia|]. apply IH; try done; lia.
Qed.

Lemma slot_span_at o slots i s :
  Forall slot_wf slots -> slots !! i = Some s ->
  slot_spans o slots !! i = Some (o + zlen (lane_bytes (take i slots)), sl_len s).
Proof.
  intros Hw Hi. rewrite <- (take_drop_middle slots i s Hi) at 1.
  assert (Ht : Forall slot_wf (take i slots)) by by apply Forall_take.
  rewrite slot_spans_app by done. pose proof (lookup_lt_Some _ _ _ Hi).
  rewrite lookup_app_r; rewrite length_slot_spans, length_take; [|lia].
  by replace (i - Nat.min i (length slots))%nat with 0%nat by lia.
Qed.

Lemma slot_locs_at s : forall q index offset i o n,
  slot_spans offset q !! i = Some (o, n) ->
  slot_locs s index offset q !! i = Some (mkFrameLoc s (index + Z.of_nat i) o (n + 4)).
Proof.
  induction q as [|sl q IH]; intros index offset [|i] o n; cbn; try done.
  - intros; simplify_eq. by rewrite Z.add_0_r.
  - intros Hi. rewrite (IH _ _ _ _ _ Hi). do 2 f_equal. lia.
Qed.
Lemma length_slot_locs s index offset q : length (slot_locs s index offset q) = length q.
Proof. revert index offset. induction q; intros; cbn; auto. Qed.

(** What sealing a batch gives: bodies of the reserved lengths that open, at their own
    index, to the payloads. *)
Lemma seal_batch_Ok s first frames : forall i sealed,
  nonces_ok frames -> seal_compressed_batch_from s first i frames = Ok sealed ->
  Forall2 (fun f g => zlen g.2 = Z.of_nat (sealed_len (frame_payload f))) frames sealed /\
  forall j f g, frames !! j = Some f -> sealed !! j = Some g ->
    open_payload s g.2 (first + i + Z.of_nat j) (frame_slot f).1 (frame_slot f).2 = Ok (frame_payload f).
Proof.
  induction frames as [|[[[inode extent] c] nonce] frames IH]; intros i sealed Hn; cbn.
  { intros; simplify_eq. split; [constructor|]. intros j f g Hj. by rewrite lookup_nil in Hj. }
  apply Forall_cons in Hn as [Hn Hns]. cbn in Hn.
  rewrite result_bind_Ok. intros (fi & (-> & _)%checked_frame_index_Ok & HR).
  apply result_bind_Ok in HR as (body & Hbody & HR).
  apply result_bind_Ok in HR as (rest & Hrest & HE). simplify_eq.
  apply IH in Hrest as [Hlen Hop]; [|done].
  unfold seal_compressed_frame, lift_codec in Hbody.
  destruct (seal_compressed _ _ _) as [b|] eqn:Es; [|done]. simplify_eq. split.
  - constructor; [|done]. unfold zlen. cbn. by rewrite (seal_compressed_length _ _ _ _ Hn Es).
  - intros [|j] f g Hf Hg; cbn in Hf, Hg; simplify_eq.
    + cbn. unfold open_payload, lift_codec. rewrite Z.add_0_r.
      by rewrite (open_seal_compressed _ _ _ _ Hn Es).
    + replace (first + i + Z.of_nat (S j)) with (first + (i + 1) + Z.of_nat j) by lia. by apply Hop.
Qed.

Lemma seal_batch_fits b owner first s sealed :
  Forall out_ok (wb_frames b) -> seal_compressed_batch s first (batch_frames b) = Ok sealed ->
  Forall2 fits (map (reserved (wb_inode b) owner) (batch_claim b)) sealed /\
  forall j f g, wb_frames b !! j = Some f -> sealed !! j = Some g ->
    open_plain s g.2 (first + Z.of_nat j) (wb_inode b) (of_extent f) = Ok (of_plain f).
Proof.
  intros Hok Hs. assert (Hn : nonces_ok (batch_frames b)).
  { unfold nonces_ok, batch_frames. rewrite Forall_fmap. eapply Forall_impl; [exact Hok|].
    by intros f [_ Hn]. }
  destruct (seal_batch_Ok _ _ _ _ _ Hn Hs) as [Hl Hop]. split.
  - unfold batch_frames in Hl. rewrite Forall2_fmap_l in Hl. unfold batch_claim.
    rewrite !Forall2_fmap_l. eapply Forall2_impl; [exact Hl|]. intros f g Hfg. by unfold fits.
  - intros j f g Hf Hg.
    assert (Hbf : batch_frames b !! j = Some (wb_inode b, of_extent f, of_payload f, of_nonce f))
      by (unfold batch_frames; by rewrite list_lookup_fmap, Hf).
    specialize (Hop j _ g Hbf Hg). cbn in Hop. rewrite Z.add_0_r in Hop.
    rewrite Forall_lookup in Hok. destruct (Hok j f Hf) as [Hd _].
    unfold open_plain, open_payload, codec_open, lift_codec in *.
    destruct (open_compressed _ _) as [c|] eqn:E; [|done]. simplify_eq. cbn. by rewrite Hd.
Qed.

(** The slots of a claim as a block of the lane. *)
Lemma block_split {A} (slots q : list A) k :
  q <> [] -> (forall i s, q !! i = Some s -> slots !! (k + i)%nat = Some s) ->
  slots = take k slots ++ q ++ drop (k + length q) slots /\ (k + length q <= length slots)%nat.
Proof.
  intros Hne Hq.
  assert (Hlen : (k + length q <= length slots)%nat).
  { destruct (lookup_lt_is_Some_2 q (length q - 1)) as [s Hs]; [destruct q; [done|cbn; lia]|].
    apply Hq, lookup_lt_Some in Hs. destruct q; [done|]. cbn in *. lia. }
  split; [|done]. apply list_eq. intros i. destruct (decide (i < k)%nat).
  { rewrite lookup_app_l by (rewrite length_take; lia). by rewrite lookup_take_lt. }
  rewrite lookup_app_r; rewrite length_take; [|lia]. replace (Nat.min k (length slots)) with k by lia.
  destruct (decide (i < k + length q)%nat).
  - rewrite lookup_app_l by lia. destruct (lookup_lt_is_Some_2 q (i - k)) as [s Hs]; [lia|].
    rewrite Hs. apply Hq in Hs. by replace (k + (i - k))%nat with i in Hs by lia.
  - rewrite lookup_app_r, lookup_drop by lia. f_equal. lia.
Qed.

Lemma lookup_block {A} (p q q' t : list A) i :
  length q' = length q -> (i < length p \/ length p + length q <= i)%nat ->
  (p ++ q' ++ t) !! i = (p ++ q ++ t) !! i.
Proof.
  intros Hl [Hi|Hi]; [by rewrite !lookup_app_l|].
  rewrite !(lookup_app_r p), !lookup_app_r by lia. by rewrite Hl.
Qed.

Lemma batch_claim_nonneg b : Forall (fun f : Z * Z => 0 <= f.2) (batch_claim b).
Proof. unfold batch_claim. rewrite Forall_fmap. apply Forall_true. intros. cbn. lia. Qed.

(** A claim changes no slot that exists already. *)
Lemma claim_step l slots b r o' :
  LaneInv l slots -> wb_frames b <> [] -> Forall out_ok (wb_frames b) ->
  claim (ln_open l) (wb_inode b) (batch_claim b) WIRE = Ok (r, o') ->
  LaneInv (mkLane o' (<[rs_first_frame r := (r, b)]> (ln_claims l)) (ln_done l) (ln_log l ++ [b]))
    (slots ++ map (reserved (wb_inode b) (zlen slots)) (batch_claim b)).
Proof.
  intros [Hrep Hcl Hdn Hlog] Hne Hok Hc.
  destruct (claim_Ok _ _ _ WIRE slots _ _ Hrep ltac:(unfold WIRE; lia) (batch_claim_nonneg b) Hc)
    as (Hrep' & Hs & Hrs & Hff & Hlo & Hz).
  set (q := map (reserved (wb_inode b) (zlen slots)) (batch_claim b)) in *. pose proof (lr_wf _ _ Hrep) as Hw.
  assert (Hsp : slot_spans 0 (slots ++ q) = slot_spans 0 slots ++ slot_spans (zlen (lane_bytes slots)) q)
    by by rewrite slot_spans_app.
  assert (Hlq : length q = length (wb_frames b)) by (unfold q, batch_claim; by rewrite !length_map).
  split; cbn.
  - done.
  - intros k r' b'. rewrite lookup_insert_Some. intros [[<- [= -> ->]]|[Hne' Hk]].
    + rewrite Hff. split; try done; try (unfold zlen; lia).
      * by rewrite Hs.
      * intros i f Hf. unfold zlen. rewrite Nat2Z.id, lookup_app_r, Nat.add_sub_swap, Nat.sub_diag by lia.
        cbn. unfold q. by rewrite list_lookup_fmap, Hf.
      * rewrite Hz, Hsp. unfold zlen at 2. rewrite Nat2Z.id.
        rewrite drop_app_exact by apply length_slot_spans.
        rewrite take_ge; [done|]. rewrite length_slot_spans. lia.
      * rewrite Hlo. unfold batch_claim. by rewrite length_map.
    + destruct (Hcl k r' b' Hk) as [Ck Cs Csl Csp Clen [Cne Cok] Cr].
      assert (Hbound : (Z.to_nat k + length (wb_frames b') <= length slots)%nat).
      { destruct (block_split slots (map (reserved (wb_inode b') k) (batch_claim b')) (Z.to_nat k))
          as [_ Hb]; [by destruct (wb_frames b') eqn:E; unfold batch_claim; rewrite E| |].
        - intros i s. rewrite list_lookup_fmap. intros (f & Hf & ->)%fmap_Some. by apply Csl.
        - unfold batch_claim in Hb. by rewrite !length_map in Hb. }
      split; try done.
      * by rewrite Hs.
      * intros i f Hf. rewrite lookup_app_l; [by apply Csl|]. by eapply lookup_lt_Some, Csl.
      * rewrite Hsp, Csp, drop_app_le by (rewrite length_slot_spans; lia).
        rewrite take_app_le; [done|]. rewrite length_drop, length_slot_spans. lia.
  - rewrite Hs. eapply Forall_impl; [exact Hdn|]. intros it (i & body & Hi & Hspi & Hrest).
    exists i, body. rewrite Hsp. split_and!; try apply Hrest; by apply lookup_app_l_Some.
  - unfold q, claimed. rewrite map_app, keys_reserved, map_app, concat_app, Hlog. cbn. rewrite app_nil_r. done.
Qed.

(** The locations a fill hands out name the slots it completed. *)
Lemma done_filled s p t b k sealed q :
  q = map (reserved (wb_inode b) k) (batch_claim b) -> k = zlen p ->
  Forall slot_wf p -> Forall slot_wf q -> Forall2 fits q sealed ->
  (forall j f g, wb_frames b !! j = Some f -> sealed !! j = Some g ->
     open_plain s g.2 (k + Z.of_nat j) (wb_inode b) (of_extent f) = Ok (of_plain f)) ->
  Forall (done_ok s (p ++ complete q sealed ++ t))
    (done_items b (slot_locs s (zlen p) (zlen (lane_bytes p)) q)).
Proof.
  intros Hq Hk Hwp Hwq Hfit Hop. apply Forall_lookup_2. intros i it Hit. unfold done_items in Hit.
  apply lookup_zip_with_Some in Hit as (f & loc & -> & Hf & Hloc).
  set (n := Z.of_nat (sealed_len (of_payload f))).
  assert (Hqi : q !! i = Some (reserved (wb_inode b) k (of_extent f, n)))
    by (rewrite Hq; unfold batch_claim; by rewrite !list_lookup_fmap, Hf).
  pose proof (lookup_lt_Some _ _ _ Hqi) as Hi.
  destruct (lookup_lt_is_Some_2 sealed i) as [g Hg]; [by rewrite <- (Forall2_length _ _ _ Hfit)|].
  pose proof (Forall2_lookup_lr _ _ _ _ _ _ Hfit Hqi Hg) as Hgl. unfold fits in Hgl. cbn in Hgl.
  pose proof (slot_span_at (zlen (lane_bytes p)) q i _ Hwq Hqi) as Hspi. cbn in Hspi.
  rewrite (slot_locs_at _ _ _ _ _ _ _ Hspi) in Hloc. injection Hloc as <-.
  assert (Hlc : length (complete q sealed) = length q) by by apply length_complete.
  exists (length p + i)%nat, g.2. cbn.
  replace (Z.of_nat (length p + i)) with (zlen p + Z.of_nat i) by (unfold zlen; lia).
  rewrite Hgl. split_and!; try done.
  - rewrite lookup_app_r, lookup_app_l by lia. replace (length p + i - length p)%nat with i by lia.
    unfold complete. by rewrite lookup_zip_with, Hqi, Hg.
  - rewrite slot_spans_app, slot_spans_app, spans_complete by auto using complete_wf.
    rewrite lookup_app_r; rewrite length_slot_spans; [|lia].
    replace (length p + i - length p)%nat with i by lia.
    rewrite lookup_app_l by (rewrite length_slot_spans; lia). exact Hspi.
  - specialize (Hop i f g Hf Hg). by rewrite Hk in Hop.
Qed.

Lemma fill_step l slots k r b sealed res o' :
  LaneInv l slots -> ln_claims l !! k = Some (r, b) ->
  seal_compressed_batch (rs_segid r) (rs_first_frame r) (batch_frames b) = Ok sealed ->
  fill r sealed (ln_open l) = (res, o') ->
  exists slots' locs, res = Ok locs /\ length locs = length (wb_frames b) /\
    LaneInv (mkLane o' (delete k (ln_claims l)) (ln_done l ++ done_items b locs) (ln_log l)) slots'.
Proof.
  intros [Hrep Hcl Hdn Hlog] Hk Hseal Hfill. pose proof (lr_wf _ _ Hrep) as Hw.
  destruct (Hcl k r b Hk) as [Ck Cs Csl Csp Clen [Cne Cok] Cr].
  set (q := map (reserved (wb_inode b) k) (batch_claim b)).
  assert (Hlq : length q = length (wb_frames b)) by (unfold q, batch_claim; by rewrite !length_map).
  destruct (block_split slots q (Z.to_nat k)) as [Hsplit Hbound].
  { unfold q, batch_claim. by destruct (wb_frames b). }
  { unfold q. intros i s. rewrite list_lookup_fmap. intros (f & Hf & ->)%fmap_Some. by apply Csl. }
  destruct (seal_batch_fits b k _ _ _ Cok Hseal) as [Hfit Hop]. fold q in Hfit.
  set (p := take (Z.to_nat k) slots) in *. set (t := drop (Z.to_nat k + length q) slots) in *.
  assert (Hlp : length p = Z.to_nat k) by (unfold p; rewrite length_take; lia).
  assert (Hwp : Forall slot_wf p) by (unfold p; by apply Forall_take).
  assert (Hwq : Forall slot_wf q) by (rewrite Hsplit, !Forall_app in Hw; tauto).
  assert (Hsp : zip (rs_offsets r) (rs_lens r) = slot_spans (zlen (lane_bytes p)) q).
  { rewrite Csp, Hsplit, !slot_spans_app, drop_app_exact by (done || (rewrite length_slot_spans; lia)).
    rewrite take_app_exact by (rewrite length_slot_spans; lia). done. }
  rewrite Hsplit in Hrep.
  destruct (fill_Ok r sealed (ln_open l) p q t Hrep) as (o1 & Hf1 & Hs1 & Hrep1); try done.
  { unfold zlen. lia. } { lia. }
  rewrite Hfill in Hf1. simplify_eq.
  exists (p ++ complete q sealed ++ t), (slot_locs (rs_segid r) (zlen p) (zlen (lane_bytes p)) q).
  split; [done|]. split; [by rewrite length_slot_locs|].
  assert (Hlc : length (complete q sealed) = length q) by by apply length_complete.
  assert (Hspans : slot_spans 0 (p ++ complete q sealed ++ t) = slot_spans 0 slots).
  { rewrite Hsplit, !slot_spans_app by auto using complete_wf. by rewrite spans_complete, zlen_complete. }
  assert (Hsame : forall i s, slots !! i = Some s -> (forall f, s <> reserved (wb_inode b) (rs_first_frame r) f) ->
            (p ++ complete q sealed ++ t) !! i = Some s).
  { intros i s Hi Hne. rewrite Hsplit in Hi. rewrite <- Hi. apply lookup_block; [done|].
    destruct (decide (length p <= i < length p + length q)%nat) as [Hr|]; [|lia].
    rewrite lookup_app_r, lookup_app_l in Hi by lia. unfold q in Hi.
    rewrite list_lookup_fmap in Hi. apply fmap_Some in Hi as (f & _ & ->). by destruct (Hne f). }
  split; cbn.
  - done.
  - intros k' r' b' [Hkne Hk']%lookup_delete_Some. rewrite Hs1.
    destruct (Hcl k' r' b' Hk') as [Dk Ds Dsl Dsp Dlen Dfr Dr]. split; try done.
    + intros i f Hf. apply Hsame; [by apply Dsl|]. intros f' E. unfold reserved in E. by simplify_eq.
    + by rewrite Hspans.
  - rewrite Hs1. apply Forall_app. split.
    + eapply Forall_impl; [exact Hdn|]. intros it (i & body & Hi & Hspi & Hrest). exists i, body.
      rewrite Hspans. split_and!; try apply Hrest; [|done]. by apply Hsame.
    + rewrite <- Cs. eapply done_filled; eauto. unfold zlen. lia.
  - rewrite <- Hlog, Hsplit at 1. by rewrite !map_app, keys_complete.
Qed.

Lemma done_frame_in o slots it :
  lane_rep o slots -> done_ok (os_segid o) slots it -> item_in (os_buf o) it.
Proof.
  intros [Hb _ Hw _ Hcnt] (i & body & Hi & Hsp & Hloc & Hop).
  pose proof (slot_span_at 0 slots i _ Hw Hi) as Hsp'. rewrite Hsp in Hsp'. cbn in Hsp'.
  injection Hsp' as Hoff. rewrite Forall_lookup in Hw. destruct (Hw i _ Hi) as (_ & Hfit & _). cbn in Hfit.
  unfold item_in. rewrite Hloc. cbn. exists (lane_bytes (take i slots)), body, (lane_bytes (drop (S i) slots)).
  cbn. split_and!; try done.
  - rewrite Hb, <- (take_drop_middle slots i _ Hi) at 1. rewrite lane_bytes_app, lane_bytes_cons. done.
  - apply lookup_lt_Some in Hi. unfold zlen in Hcnt. ulia.
Qed.

Lemma lane_steps_inv l0 l :
  rtc LaneStep l0 l -> (exists slots, LaneInv l0 slots) -> exists slots, LaneInv l slots.
Proof.
  induction 1 as [|l0 l1 l2 Hs _ IH]; [done|]. intros [slots Inv]. apply IH.
  destruct Hs as [l b r o'|l k r b sealed res o' Hk Hseal Hfill|l k r b Hk].
  - eexists. by eapply claim_step.
  - destruct (fill_step _ _ _ _ _ _ _ _ Inv Hk Hseal Hfill) as (slots' & locs & -> & _ & Inv'). eauto.
  - exists slots. destruct Inv as [Hr Hc Hd Hg]. split; try done. cbn.
    intros k' r' b' [_ Hk']%lookup_delete_Some. by apply Hc.
Qed.

Definition empty_lane (s : Segid) : Lane := mkLane (mkOpen s [] []) ∅ [] [].

Lemma empty_lane_inv s : LaneInv (empty_lane s) [].
Proof. split; [by split|done|constructor|done]. Qed.

(** A single frame read over the byte range of its location. *)
Definition reads_back (buf : bytes) (it : RunItem) : Prop :=
  let l := ri_loc it in
  fl_byte_offset l + fl_byte_len l <= zlen buf /\
  read_frames_from_region
    (slice (Z.to_nat (fl_byte_offset l)) (Z.to_nat (fl_byte_offset l + fl_byte_len l)) buf)
    (fl_segid l) (fl_frame_index l) [ri_slot it] = Ok [ri_data it].

Lemma item_reads_back buf it : zlen buf <= U64_MAX -> item_in buf it -> reads_back buf it.
Proof.
  intros Hz Hin. destruct (read_run_in_buffer buf (ri_loc it) it []) as [Hb Hr]; try done.
  { by repeat constructor. }
  unfold locs_len in *. cbn in Hb, Hr. rewrite Z.add_0_r in *. by split.
Qed.

(** The bytes a rotation produces start with the lane's buffer. *)
Lemma finalize_prefix `{Crc32c} k dn s buf dir seqno object :
  finalize_segment k dn s buf dir seqno = Ok object ->
  exists more, object = buf ++ more /\ zlen object <= U64_MAX.
Proof.
  unfold finalize_segment, assemble_segment, prepare_segment_assembly. rewrite result_bind_Ok.
  intros (sd & _ & HR). apply result_bind_Ok in HR as (p & Hp & HE). simplify_eq.
  apply result_bind_Ok in Hp as (? & _ & Hp). apply result_bind_Ok in Hp as (? & _ & Hp).
  apply result_bind_Ok in Hp as (? & [-> _]%ok_or_Ok%checked_add_u64_Some & Hp).
  apply result_bind_Ok in Hp as (? & [-> Ht]%ok_or_Ok%checked_add_u64_Some & Hp). simplify_eq.
  unfold assemble_prepared_segment. cbv zeta. rewrite <- !app_assoc. eexists. split; [done|].
  rewrite !zlen_app. unfold zlen in *. rewrite length_footer_head, !length_le_bytes.
  change (Z.of_nat FOOTER_LEN) with 64 in *. lia.
Qed.

Lemma lane_items s l : rtc LaneStep (empty_lane s) l -> Forall (item_in (os_buf (ln_open l))) (ln_done l).
Proof.
  intros Hr. destruct (lane_steps_inv _ _ Hr (ex_intro _ _ (empty_lane_inv s))) as [slots [Hrep _ Hdn _]].
  eapply Forall_impl; [exact Hdn|]. intros it. by eapply done_frame_in.
Qed.

(** C16: however the claims, fills and failures of a lane's writers interleave, every frame
    whose location was handed out reads back from the open buffer.  When the lane is rotated
    into an object, those frames read back from the object, and the object is a valid
    segment: its directory, found through the footer and opened, has exactly one entry per
    claimed frame, in the order of the claims, with the inode, the extent and the length
    that were claimed, and the entry at the index of a handed-out location is that of the
    location.  A fill whose encryption succeeded is never refused, so it hands out one
    location per frame. *)
Theorem lane_interleaving_safe `{Crc32cLaws} s l k dn object :
  rtc LaneStep (empty_lane s) l ->
  (forall it, it ∈ ln_done l -> reads_back (os_buf (ln_open l)) it) /\
  (finalize_segment k dn s (os_buf (ln_open l)) (os_dir (ln_open l)) (counter s) = Ok object ->
   (forall it, it ∈ ln_done l -> reads_back object it) /\
   (length dn = NONCE_SIZE -> Segid_wf s -> Forall slot_u64 (claimed (ln_log l)) ->
    let dir := claimed_dir 0 (claimed (ln_log l)) in
    read_directory object s = Ok dir /\
    (forall it, it ∈ ln_done l -> dir !! Z.to_nat (fl_frame_index (ri_loc it)) = Some (entry_of_loc (ri_slot it, ri_loc it))))) /\
  (forall i r b sealed, ln_claims l !! i = Some (r, b) ->
     seal_compressed_batch (rs_segid r) (rs_first_frame r) (batch_frames b) = Ok sealed ->
     exists locs, (fill r sealed (ln_open l)).1 = Ok locs /\ length locs = length (wb_frames b)).
Proof.
  intros Hr. destruct (lane_steps_inv _ _ Hr (ex_intro _ _ (empty_lane_inv s))) as [slots [Hrep Hcl Hdn Hlog]].
  pose proof (proj1 (Forall_forall _ _) (lane_items _ _ Hr)) as Hin.
  split_and!.
  - intros it Hit. apply item_reads_back; [apply Hrep|by apply Hin].
  - intros Hfin. split.
    + intros it Hit. destruct (finalize_prefix _ _ _ _ _ _ _ Hfin) as (more & -> & Hz).
      apply item_reads_back; [done|]. apply frame_in_app. by apply Hin.
    + intros Hn Hs Hu dir. pose proof Hrep as [Hb Hd Hw Hz _].
      assert (Hdir : os_dir (ln_open l) = dir) by (unfold dir; by rewrite Hd, slot_dir_claimed, Hlog). split.
      * rewrite <- Hdir. eapply finalize_Ok; [done|done|apply Hs| |exact Hfin]. rewrite Hd.
        apply claimed_dir_wf; [done|by rewrite Hlog|lia|]. rewrite <- Hb. lia.
      * intros it Hit. rewrite <- Hdir, Hd. eapply done_entry; [done|]. by eapply Forall_forall.
  - intros i r b sealed Hi Hs. destruct (fill r sealed (ln_open l)) as [res o'] eqn:E.
    destruct (fill_step l slots i r b sealed res o') as (? & locs & -> & Hl & _); eauto; by split.
Qed.
End frames.

(** ** A concrete interleaving

    Two writers claim, the second fills first, a third gives up. *)

Module TestLane.
Definition out (x : Z) (d : bytes) : OutFrame := mkOut x d (mkCompressed (TestPrims.stored d)) TestSegment.nonce.
Definition b1 : Batch := mkBatch 9 [out 0 [1; 2]; out 1 [3]].
Definition b2 : Batch := mkBatch 12 [out 7 [4; 5; 6]].
Definition b3 : Batch := mkBatch 9 [out 2 [7]].

Definition run_claim (b : Batch) (l : Lane) : Lane :=
  match claim (ln_open l) (wb_inode b) (batch_claim b) WIRE with
  | Ok (r, o') => mkLane o' (<[rs_first_frame r := (r, b)]> (ln_claims l)) (ln_done l) (ln_log l ++ [b])
  | Err _ => l
  end.
Definition run_fill (k : Z) (l : Lane) : Lane :=
  match ln_claims l !! k with
  | Some (r, b) =>
      match seal_compressed_batch (H := TestPrims.prims) (rs_segid r) (rs_first_frame r) (batch_frames b) with
      | Ok sealed =>
          let '(res, o') := fill r sealed (ln_open l) in
          mkLane o' (delete k (ln_claims l))
            (ln_done l ++ match res with Ok locs => done_items b locs | Err _ => [] end) (ln_log l)
      | Err _ => l
      end
  | None => l
  end.
Definition abandon (k : Z) (l : Lane) : Lane := mkLane (ln_open l) (delete k (ln_claims l)) (ln_done l) (ln_log l).

Definition lane : Lane :=
  abandon 3 (run_fill 0 (run_claim b3 (run_fill 2 (run_claim b2 (run_claim b1 (empty_lane (mkSegid 4 5))))))).
Definition object : bytes :=
  match finalize_segment (H := TestPrims.prims) (H0 := TestCrc.crc) Lz4 TestSegment.nonce (mkSegid 4 5)
          (os_buf (ln_open lane)) (os_dir (ln_open lane)) 5 with Ok o => o | Err _ => [] end.

Lemma claim_steps b l l' :
  wb_frames b <> [] -> Forall (out_ok (H := TestPrims.prims)) (wb_frames b) ->
  is_ok (claim (ln_open l) (wb_inode b) (batch_claim b) WIRE) = true ->
  rtc (LaneStep (H := TestPrims.prims)) (run_claim b l) l' -> rtc (LaneStep (H := TestPrims.prims)) l l'.
Proof.
  unfold run_claim. intros Hne Hok Hc. destruct (claim _ _ _ _) as [[r o']|] eqn:E; [|done].
  apply rtc_l. by apply lane_claim.
Qed.
Lemma fill_steps k l l' :
  is_ok (match ln_claims l !! k with
         | Some (r, b) => seal_compressed_batch (H := TestPrims.prims) (rs_segid r) (rs_first_frame r) (batch_frames b)
         | None => Err BadMagic end) = true ->
  rtc (LaneStep (H := TestPrims.prims)) (run_fill k l) l' -> rtc (LaneStep (H := TestPrims.prims)) l l'.
Proof.
  unfold run_fill. destruct (ln_claims l !! k) as [[r b]|] eqn:E; [|done].
  destruct (seal_compressed_batch _ _ _) as [sealed|] eqn:Es; [|done]. intros _.
  destruct (fill r sealed (ln_open l)) as [res o'] eqn:Ef. apply rtc_l. by eapply lane_fill.
Qed.
Lemma abandon_steps k l l' :
  is_Some (ln_claims l !! k) ->
  rtc (LaneStep (H := TestPrims.prims)) (abandon k l) l' -> rtc (LaneStep (H := TestPrims.prims)) l l'.
Proof. intros [[r b] Hk]. apply rtc_l. by eapply lane_abandon. Qed.
Lemma reached : rtc (LaneStep (H := TestPrims.prims)) (empty_lane (mkSegid 4 5)) lane.
Proof.
  apply (claim_steps b1); [done|by repeat constructor|vm_compute; reflexivity|].
  apply (claim_steps b2); [done|by repeat constructor|vm_compute; reflexivity|].
  apply (fill_steps 2); [vm_compute; reflexivity|].
  apply (claim_steps b3); [done|by repeat constructor|vm_compute; reflexivity|].
  apply (fill_steps 0); [vm_compute; reflexivity|].
  apply (abandon_steps 3); [by apply (bool_decide_unpack _); vm_compute|].
  apply rtc_refl.
Qed.
End TestLane.

Lemma lane_interleaving_safe_witness :
  length (ln_done TestLane.lane) = 3%nat /\
  (forall it, it ∈ ln_done TestLane.lane -> reads_back (H := TestPrims.prims) TestLane.object it) /\
  read_directory (H := TestPrims.prims) (H0 := TestCrc.crc) TestLane.object (mkSegid 4 5)
  = Ok [mkDirEntry 0 47 9 0; mkDirEntry 51 46 9 1; mkDirEntry 101 48 12 7; mkDirEntry 153 46 9 2].
Proof.
  split; [vm_compute; reflexivity|].
  destruct (lane_interleaving_safe (H := TestPrims.prims) (H0 := TestPrims.laws) (H1 := TestCrc.crc) (H2 := TestCrc.laws)
           (mkSegid 4 5) TestLane.lane Lz4 TestSegment.nonce TestLane.object TestLane.reached) as (_ & Hfin & _).
  destruct Hfin as [Hread Hdir]; [vm_compute; reflexivity|]. split; [exact Hread|].
  destruct Hdir as [Hd _]; [reflexivity|split; cbn; ulia|cbn; repeat constructor; cbn; ulia|].
  rewrite Hd. vm_compute. reflexivity.
Defined.
