(* ===== verification/FrameStore.v ===== *)
(** * The frame store interface

    What [fs/store/extent/{read,write}.rs] promise each other about stored frames: a batch
    of extents is appended and gets one location per extent; a run of consecutive
    locations reads back, from memory or from the object store, whatever else was
    appended, sealed or uploaded since.  The data plane ([Extent]) is proved against this
    interface; [Frames] implements it with append lanes, sealing generations and segment
    objects. *)

From S2P Require Import Prelude Errors FrameCodec Segment Lanes.

Inductive SegmentStoreError :=
| ObjectStoreError
| SegmentNotFound
| SegmentFailed (e : SegmentError).

(** [Hint] is what the environment decides about one append: the lane that was free, the
    nonces drawn, whether a rotation got its residency permit. *)
Class FrameStore (S Hint : Type) := {
  (** The append of [stage_edits]: compress, claim, seal, fill, rotate when full. *)
  fs_append : Hint -> Z -> list (Z * bytes) -> S -> result FsError (list FrameLoc) * S;
  (** [read_frames_in_ram] and [SegmentStore::read_run]: segment, byte offset, byte length,
      first frame, slots. *)
  fs_in_ram : S -> Segid -> Z -> Z -> Z -> list (Z * Z) -> result FsError (option (list bytes));
  fs_read_run : S -> Segid -> Z -> Z -> Z -> list (Z * Z) -> result SegmentStoreError (list bytes) }.

(** An extent to append: its index and plaintext. *)
Definition payload_ok (p : Z * bytes) : Prop := is_u64 p.1 /\ zlen p.2 <= U32_MAX.

(** [fs_held s id x loc d]: the frame written at [loc] was the plaintext [d] of extent [x] of
    inode [id].  [fs_dead s segid]: the segment was deleted; its identity is never used
    again, and nothing is read from it any more.  [fs_closed s segid]: it gets no more frames
    from appends.  [fs_stable s id x loc d]: the objects alone hold the frame.  [fs_ready h id s]: the environment's choices
    [h] are possible for an append to inode [id]. *)
Class FrameStoreLaws (S Hint : Type) `{FrameStore S Hint} := {
  fs_inv : S -> Prop;
  fs_ready : Hint -> Z -> S -> Prop;
  fs_held : S -> Z -> Z -> FrameLoc -> bytes -> Prop;
  fs_dead : S -> Segid -> Prop;
  fs_closed : S -> Segid -> Prop;
  fs_stable : S -> Z -> Z -> FrameLoc -> bytes -> Prop;
  fs_dead_dec :: forall s g, Decision (fs_dead s g);
  fs_held_fun s id x loc d d' : fs_held s id x loc d -> fs_held s id x loc d' -> d = d';
  fs_held_len s id x loc d : fs_held s id x loc d -> 0 < fl_byte_len loc <= U32_MAX;
  fs_append_spec h id ps s :
    fs_inv s -> fs_ready h id s -> Forall payload_ok ps ->
    fs_inv (fs_append h id ps s).2 /\
    (forall i x loc d, fs_held s i x loc d -> fs_held (fs_append h id ps s).2 i x loc d) /\
    (forall g, fs_dead (fs_append h id ps s).2 g <-> fs_dead s g) /\
    (forall g, fs_closed s g -> fs_closed (fs_append h id ps s).2 g) /\
    (forall i x loc d, fs_stable s i x loc d -> fs_stable (fs_append h id ps s).2 i x loc d) /\
    (forall locs, (fs_append h id ps s).1 = Ok locs ->
       Forall2 (fun p loc => fs_held (fs_append h id ps s).2 id p.1 loc p.2 /\ ~ fs_dead s (fl_segid loc) /\
         ~ fs_closed s (fl_segid loc)) ps locs);
  fs_read_spec s l0 it0 items :
    fs_inv s -> ~ fs_dead s (fl_segid l0) -> ri_loc it0 = l0 -> is_run l0 (map ri_loc items) ->
    Forall (fun it => fs_held s (ri_slot it).1 (ri_slot it).2 (ri_loc it) (ri_data it)) (it0 :: items) ->
    locs_len (map ri_loc (it0 :: items)) <= U32_MAX ->
    let total := locs_len (map ri_loc (it0 :: items)) in
    let slots := map ri_slot (it0 :: items) in
    let read := fs_in_ram s (fl_segid l0) (fl_byte_offset l0) total (fl_frame_index l0) slots in
    read = Ok (Some (map ri_data (it0 :: items))) \/
    read = Ok None /\
    fs_read_run s (fl_segid l0) (fl_byte_offset l0) total (fl_frame_index l0) slots
      = Ok (map ri_data (it0 :: items));
  fs_dead_gone s g o n i slots :
    fs_inv s -> fs_dead s g ->
    fs_in_ram s g o n i slots = Ok None /\ is_ok (fs_read_run s g o n i slots) = false }.

Definition fs_holds {S Hint : Type} `{FrameStoreLaws S Hint} (s : S) (id x : Z) (loc : FrameLoc) (d : bytes) : Prop :=
  fs_held s id x loc d /\ ~ fs_dead s (fl_segid loc).
