(* ===== verification/SegmentStore.v ===== *)
(** * The segment store

    [segment_store.rs]: segment objects are created once, never overwritten, read by byte
    range and deleted by garbage collection.  The object store is a map; what the network
    does to a request is an argument.  A create whose reply is lost is reconciled by
    reading the object back.  On takeover of a failed leader, a standby rebuilds the
    segments that were not uploaded yet from the frames shipped to it. *)

From stdpp Require Import sorting.
From S2P Require Import Prelude Errors FrameCodec Segment Lanes FrameStore.

(** Live objects under their segment identity, which [Segid::object_key] encodes.
    [ob_deleted] keeps the contents of deleted objects; no operation reads it. *)
Record ObjectStore := mkObjects {
  ob_live : gmap Segid bytes;
  ob_deleted : gmap Segid bytes }.

Definition SEAL_PART_SIZE : Z := 64 * 1024 * 1024.

(** What the network and the backend do to a create: whether it reached the store, whether
    its reply was delivered, lost, or came from a retry of a lower layer; and whether a
    later readback gets through. *)
Inductive CreateReply := Delivered | Lost | Retried.
Record CreateFate := mkCreateFate { cf_landed : bool; cf_reply : CreateReply; cf_readback : bool }.

(** What a backend answers to a conditional multipart upload. *)
Inductive UploadFate :=
| UploadNotSupported
| UploadRefused
| UploadIgnored (abort_ok : bool)
| UploadAccepted (parts_ok : bool).
Record PutFate := mkPutFate { pf_create : CreateFate; pf_upload : UploadFate }.

Inductive CreateError := AlreadyExists | TransportError.

(** [put_opts] with [PutMode::Create]. *)
Definition create_object (fate : CreateFate) (s : Segid) (b : bytes) (st : ObjectStore)
    : result CreateError unit * ObjectStore :=
  match ob_live st !! s with
  | Some _ => (Err (if cf_reply fate is Lost then TransportError else AlreadyExists), st)
  | None =>
      if cf_landed fate then
        (match cf_reply fate with
         | Delivered => Ok tt
         | Lost => Err TransportError
         | Retried => Err AlreadyExists
         end, mkObjects (<[s := b]> (ob_live st)) (ob_deleted st))
      else (Err TransportError, st)
  end.

(** A ranged GET; a range that starts beyond the object is an error. *)
Definition get_object_range (st : ObjectStore) (s : Segid) (start stop : Z)
    : result SegmentStoreError bytes :=
  match ob_live st !! s with
  | None => Err ObjectStoreError
  | Some b => if zlen b <=? start then Err ObjectStoreError
              else Ok (slice (Z.to_nat start) (Z.to_nat stop) b)
  end.

Definition verify_existing_segment_bytes (fate : CreateFate) (s : Segid) (b : bytes) (st : ObjectStore)
    : result SegmentStoreError unit :=
  if cf_readback fate then
    match ob_live st !! s with
    | None => Err ObjectStoreError
    | Some existing =>
        if negb (zlen existing =? zlen b) then Err ObjectStoreError
        else if negb (bool_decide (slice 0 (length b) existing = b)) then Err ObjectStoreError
        else Ok tt
    end
  else Err ObjectStoreError.

Definition put_segment_create (fate : CreateFate) (s : Segid) (b : bytes) (st : ObjectStore)
    : result SegmentStoreError unit * ObjectStore :=
  let '(r, st) := create_object fate s b st in
  match r with
  | Ok _ => (Ok tt, st)
  | Err error =>
      match verify_existing_segment_bytes fate s b st with
      | Ok _ => (Ok tt, st)
      | Err conflict =>
          (Err (match error with AlreadyExists => conflict | TransportError => ObjectStoreError end), st)
      end
  end.

(** [rest.split_to(rest.len().min(SEAL_PART_SIZE))] until nothing is left. *)
Fixpoint upload_parts (fuel : nat) (rest : bytes) : list bytes :=
  match fuel, rest with
  | O, _ | _, [] => []
  | S fuel, _ =>
      let n := Nat.min (length rest) (Z.to_nat SEAL_PART_SIZE) in
      take n rest :: upload_parts fuel (drop n rest)
  end.

(** Completion publishes the parts as one object, with the semantics of a create. *)
Definition complete_segment_upload (fate : CreateFate) (parts_ok : bool) (s : Segid) (b : bytes)
    (st : ObjectStore) : result SegmentStoreError unit * ObjectStore :=
  let parts := upload_parts (length b) b in
  if negb parts_ok then (Err ObjectStoreError, st)
  else
    let '(r, st) := create_object fate s (concat parts) st in
    match r with
    | Ok _ => (Ok tt, st)
    | Err e =>
        match verify_existing_segment_bytes fate s b st, e with
        | Ok _, _ => (Ok tt, st)
        | Err conflict, AlreadyExists => (Err conflict, st)
        | Err _, TransportError => (Err ObjectStoreError, st)
        end
    end.

Definition put_segment_multipart (fate : PutFate) (s : Segid) (b : bytes) (st : ObjectStore)
    : result SegmentStoreError unit * ObjectStore :=
  match pf_upload fate with
  | UploadNotSupported => put_segment_create (pf_create fate) s b st
  | UploadRefused => (Err ObjectStoreError, st)
  | UploadAccepted parts_ok => complete_segment_upload (pf_create fate) parts_ok s b st
  | UploadIgnored abort_ok =>
      if abort_ok then put_segment_create (pf_create fate) s b st else (Err ObjectStoreError, st)
  end.

Definition put_segment (fate : PutFate) (s : Segid) (b : bytes) (st : ObjectStore)
    : result SegmentStoreError unit * ObjectStore :=
  if zlen b <? SEAL_PART_SIZE then put_segment_create (pf_create fate) s b st
  else put_segment_multipart fate s b st.

(** A deleted object's contents are remembered; deleting what is not there succeeds. *)
Definition delete_segment (reply : bool) (landed : bool) (s : Segid) (st : ObjectStore)
    : result SegmentStoreError unit * ObjectStore :=
  (if reply && landed then Ok tt else Err ObjectStoreError,
   if landed then
     match ob_live st !! s with
     | Some b => mkObjects (delete s (ob_live st)) (<[s := b]> (ob_deleted st))
     | None => st
     end
   else st).

Section store.
Context `{CodecPrims, Crc32c} (compression : CompressionConfig).

(** [read_run]: one ranged GET, then frame by frame. *)
Definition store_read_run (st : ObjectStore) (s : Segid) (byte_offset byte_len first_frame : Z)
    (slots : list (Z * Z)) : result SegmentStoreError (list bytes) :=
  region ← get_object_range st s byte_offset (byte_offset + byte_len);
  match read_frames_from_region region s first_frame slots with
  | Ok frames => Ok frames
  | Err e => Err (SegmentFailed e)
  end.

(** [read_compressed_run]: verified, still compressed. *)
Definition store_read_compressed_run (st : ObjectStore) (s : Segid) (byte_offset byte_len first_frame : Z)
    (slots : list (Z * Z)) : result SegmentStoreError (list Compressed) :=
  region ← get_object_range st s byte_offset (byte_offset + byte_len);
  match read_compressed_frames_from_region region s first_frame slots with
  | Ok frames => Ok frames
  | Err e => Err (SegmentFailed e)
  end.

(** [SegmentStore::read_directory] with [fetch_footer_and_dir_bytes]. *)
Definition store_read_directory (st : ObjectStore) (s : Segid) : result SegmentStoreError (list DirEntry) :=
  match ob_live st !! s with
  | None => Err SegmentNotFound
  | Some object =>
      match read_directory object s with
      | Ok dir => Ok dir
      | Err e => Err (SegmentFailed e)
      end
  end.

(** ** Takeover *)

Record ReconFrame := mkRecon {
  rc_frame_index : Z; rc_byte_offset : Z; rc_byte_len : Z;
  rc_inode : Z; rc_extent : Z; rc_bytes : bytes }.

(** The end of the shipped frames. *)
Fixpoint recon_end (stop : Z) (frames : list ReconFrame) : result SegmentStoreError Z :=
  match frames with
  | [] => Ok stop
  | f :: rest =>
      frame_end ← ok_or ObjectStoreError (checked_add_u64 (rc_byte_offset f) (rc_byte_len f));
      recon_end (Z.max stop frame_end) rest
  end.

(** Put every frame's bytes back at its offset. *)
Fixpoint recon_fill (buf : bytes) (frames : list ReconFrame) : result SegmentStoreError bytes :=
  match frames with
  | [] => Ok buf
  | f :: rest =>
      let start := rc_byte_offset f in
      let stop := start + rc_byte_len f in
      if (rc_byte_len f <? Z.of_nat LEN_PREFIX) || (zlen buf <? stop)
         || negb (zlen (rc_bytes f) =? rc_byte_len f)
      then Err ObjectStoreError
      else recon_fill (copy_at (Z.to_nat start) (rc_bytes f) buf) rest
  end.

Definition recon_entry (f : ReconFrame) : DirEntry :=
  mkDirEntry (rc_byte_offset f) (rc_byte_len f - Z.of_nat LEN_PREFIX) (rc_inode f) (rc_extent f).
Definition index_le (f g : ReconFrame) : Prop := rc_frame_index f <= rc_frame_index g.
#[export] Instance index_le_dec f g : Decision (index_le f g).
Proof. unfold index_le. apply _. Defined.

(** The object that won the create must hold every shipped frame. *)
Fixpoint check_recon_dir (dir : list DirEntry) (frames : list ReconFrame)
    : result SegmentStoreError unit :=
  match frames with
  | [] => Ok tt
  | f :: rest =>
      _ ← ok_or ObjectStoreError (checked_sub (rc_byte_len f) (Z.of_nat LEN_PREFIX));
      _ ← ensure (bool_decide (recon_entry f ∈ dir)) ObjectStoreError;
      check_recon_dir dir rest
  end.
Fixpoint check_recon_bytes (st : ObjectStore) (s : Segid) (frames : list ReconFrame)
    : result SegmentStoreError unit :=
  match frames with
  | [] => Ok tt
  | f :: rest =>
      stop ← ok_or ObjectStoreError (checked_add_u64 (rc_byte_offset f) (rc_byte_len f));
      existing ← get_object_range st s (rc_byte_offset f) stop;
      _ ← ensure (bool_decide (existing = rc_bytes f)) ObjectStoreError;
      check_recon_bytes st s rest
  end.
Definition verify_existing_recon_segment (st : ObjectStore) (s : Segid) (frames : list ReconFrame)
    : result SegmentStoreError unit :=
  dir ← store_read_directory st s;
  _ ← check_recon_dir dir frames;
  check_recon_bytes st s frames.

Definition materialize_segment_if_absent (fate : CreateFate) (dir_nonce : bytes) (s : Segid)
    (frames : list ReconFrame) (st : ObjectStore) : result SegmentStoreError bool * ObjectStore :=
  if bool_decide (frames = []) then (Ok false, st)
  else
    let object :=
      stop ← recon_end 0 frames;
      buf ← recon_fill (replicate (Z.to_nat stop) 0) frames;
      match finalize_segment compression dir_nonce s buf
              (map recon_entry (merge_sort index_le frames)) (counter s) with
      | Ok object => Ok object
      | Err e => Err (SegmentFailed e)
      end in
    match object with
    | Err e => (Err e, st)
    | Ok object =>
        let '(r, st) := create_object fate s object st in
        match r with
        | Ok _ => (Ok true, st)
        | Err AlreadyExists =>
            (match verify_existing_recon_segment st s frames with
             | Ok _ => Ok false
             | Err e => Err e
             end, st)
        | Err TransportError => (Err ObjectStoreError, st)
        end
    end.
End store.

(** ** Creates *)

Lemma concat_upload_parts fuel : forall b, (length b <= fuel)%nat -> concat (upload_parts fuel b) = b.
Proof.
  induction fuel as [|fuel IH]; intros [|z b] Hl; cbn [upload_parts]; try done; [cbn in Hl; lia|].
  cbn [concat]. rewrite IH; [apply take_drop|]. rewrite length_drop. cbn [length] in *.
  assert (0 < Z.to_nat SEAL_PART_SIZE)%nat by (unfold SEAL_PART_SIZE; lia). lia.
Qed.

(** The object [s] is absent and becomes [b], or nothing changes. *)
Definition created (s : Segid) (b : bytes) (st st' : ObjectStore) : Prop :=
  st' = st \/ ob_live st !! s = None /\ st' = mkObjects (<[s := b]> (ob_live st)) (ob_deleted st).

Lemma create_object_spec fate s b st r st' :
  create_object fate s b st = (r, st') ->
  created s b st st' /\ (is_ok r = true -> ob_live st' !! s = Some b).
Proof.
  unfold create_object, created. destruct (ob_live st !! s) eqn:E.
  { intros [= <- <-]. split; [by left|done]. }
  destruct (cf_landed fate); intros [= <- <-]; [|split; [by left|done]]. split; [by right|]. intros _. apply lookup_insert_eq.
Qed.

Lemma verify_existing_Ok fate s b st :
  is_ok (verify_existing_segment_bytes fate s b st) = true -> ob_live st !! s = Some b.
Proof.
  unfold verify_existing_segment_bytes. destruct (cf_readback fate); [|done].
  destruct (ob_live st !! s) as [e|]; [|done]. destruct (Z.eqb_spec (zlen e) (zlen b)) as [Hl|]; [|done].
  cbn [negb]. case_bool_decide as E; [|done]. intros _. rewrite <- E. f_equal. symmetry. apply slice_all.
  unfold zlen in Hl. lia.
Qed.

(** A create with its reconciliation, for both ways to publish. *)
Lemma reconciled {A} fate s b st r0 st0 (r : result SegmentStoreError A) :
  create_object fate s b st = (r0, st0) ->
  (is_ok r = true -> is_ok r0 = true \/ is_ok (verify_existing_segment_bytes fate s b st0) = true) ->
  created s b st st0 /\ (is_ok r = true -> ob_live st0 !! s = Some b).
Proof.
  intros [Hc Hl]%create_object_spec Hr. split; [done|].
  intros [?|?]%Hr; [auto|by eapply verify_existing_Ok].
Qed.

(** A put never changes an object that exists, and one that succeeds has stored exactly
    its bytes, whatever was lost on the way. *)
Lemma put_segment_create_spec fate s b st :
  created s b st (put_segment_create fate s b st).2 /\
  (is_ok (put_segment_create fate s b st).1 = true -> ob_live (put_segment_create fate s b st).2 !! s = Some b).
Proof.
  unfold put_segment_create. destruct (create_object _ _ _ _) as [r0 st0] eqn:E.
  destruct r0 as [u|err]; [|destruct (verify_existing_segment_bytes _ _ _ _) eqn:Ev];
    eapply reconciled; try exact E; cbn; rewrite ?Ev; auto.
Qed.
Lemma put_segment_spec fate s b st :
  created s b st (put_segment fate s b st).2 /\
  (is_ok (put_segment fate s b st).1 = true -> ob_live (put_segment fate s b st).2 !! s = Some b).
Proof.
  unfold put_segment, put_segment_multipart. destruct (_ <? _); [apply put_segment_create_spec|].
  assert (Hstop : created s b st st /\ (is_ok (@Err _ unit ObjectStoreError) = true -> ob_live st !! s = Some b))
    by (split; [by left|done]).
  destruct (pf_upload fate) as [| |[]|[]]; try apply put_segment_create_spec; try exact Hstop.
  unfold complete_segment_upload. rewrite concat_upload_parts by done. cbn [negb].
  destruct (create_object _ _ _ _) as [r0 st0] eqn:E.
  destruct r0 as [u|err]; [|destruct (verify_existing_segment_bytes _ _ _ _) eqn:Ev; [|destruct err]];
    eapply reconciled; try exact E; cbn; rewrite ?Ev; auto.
Qed.

(** A fate that loses nothing. *)
Definition delivers (fate : PutFate) : bool :=
  cf_landed (pf_create fate) && (if cf_reply (pf_create fate) is Delivered then true else false)
  && cf_readback (pf_create fate)
  && match pf_upload fate with
     | UploadNotSupported => true | UploadRefused => false | UploadIgnored a => a | UploadAccepted p => p
     end.

Lemma put_segment_delivers fate s b st :
  delivers fate = true -> (forall b', ob_live st !! s = Some b' -> b' = b) ->
  is_ok (put_segment fate s b st).1 = true.
Proof.
  unfold delivers. rewrite !andb_true_iff. intros [[[Hl Hr] Hb] Hu] Hst.
  assert (Hc : match create_object (pf_create fate) s b st with
               | (Ok _, _) => True
               | (Err _, st') => is_ok (verify_existing_segment_bytes (pf_create fate) s b st') = true end).
  { unfold create_object. destruct (ob_live st !! s) as [b'|] eqn:E.
    - rewrite (Hst b' eq_refl) in E. unfold verify_existing_segment_bytes. rewrite Hb, E, Z.eqb_refl. cbn [negb].
      by rewrite bool_decide_true by (by apply slice_all).
    - rewrite Hl. by destruct (cf_reply (pf_create fate)). }
  assert (Hcr : is_ok (put_segment_create (pf_create fate) s b st).1 = true).
  { unfold put_segment_create. destruct (create_object _ _ _ _) as [[u|err] st']; [done|].
    by destruct (verify_existing_segment_bytes _ _ _ _). }
  unfold put_segment, put_segment_multipart. destruct (_ <? _); [done|].
  destruct (pf_upload fate) as [| |[]|[]]; try done. unfold complete_segment_upload.
  rewrite concat_upload_parts by done. cbn [negb]. destruct (create_object _ _ _ _) as [[u|err] st']; [done|].
  by destruct (verify_existing_segment_bytes _ _ _ _).
Qed.

(** ** Takeover *)

Section takeover.
Context `{CodecPrimsLaws, Crc32cLaws} (compression : CompressionConfig).

(** The frame of an item as the old leader ships it out of its buffer. *)
Definition ship (buf : bytes) (it : RunItem) : ReconFrame :=
  let l := ri_loc it in
  mkRecon (fl_frame_index l) (fl_byte_offset l) (fl_byte_len l) (ri_slot it).1 (ri_slot it).2
    (slice (Z.to_nat (fl_byte_offset l)) (Z.to_nat (fl_byte_offset l + fl_byte_len l)) buf).

Definition shipped (buf : bytes) (f : ReconFrame) : Prop :=
  0 <= rc_byte_offset f /\ 0 <= rc_byte_len f /\ rc_byte_offset f + rc_byte_len f <= zlen buf /\
  rc_bytes f = slice (Z.to_nat (rc_byte_offset f)) (Z.to_nat (rc_byte_offset f + rc_byte_len f)) buf.

Lemma ship_shipped buf it : item_in buf it -> shipped buf (ship buf it).
Proof.
  intros (pre & body & post & -> & Ho & Hl & _). pose proof (zlen_frame_bytes body).
  pose proof (zlen_nonneg pre). pose proof (zlen_nonneg body). pose proof (zlen_nonneg post).
  split_and!; cbn; [lia|lia| |done]. rewrite !zlen_app. lia.
Qed.

Definition agree_on (buf buf' : bytes) (a b : Z) : Prop :=
  forall j, (Z.to_nat a <= j < Z.to_nat b)%nat -> buf' !! j = buf !! j.

Lemma agree_slice buf buf' a b :
  agree_on buf buf' a b -> slice (Z.to_nat a) (Z.to_nat b) buf' = slice (Z.to_nat a) (Z.to_nat b) buf.
Proof.
  intros Ha. apply list_eq. intros k. unfold slice. destruct (decide (k < Z.to_nat b - Z.to_nat a)%nat).
  - rewrite !lookup_take_lt, !lookup_drop by done. apply Ha. lia.
  - by rewrite !lookup_take_ge by lia.
Qed.

Lemma agree_app buf b more a c : c <= zlen buf -> agree_on buf b a c -> agree_on buf (b ++ more) a c.
Proof.
  intros Hc Ha j Hj. destruct (lookup_lt_is_Some_2 buf j) as [v Hv]; [unfold zlen in Hc; lia|].
  rewrite Hv. apply lookup_app_l_Some. by rewrite Ha.
Qed.

(** Frames of one buffer, put back at their offsets in any order, leave that buffer's bytes
    wherever one of them lies. *)
Lemma recon_fill_agree buf frames : forall b r,
  Forall (shipped buf) frames -> recon_fill b frames = Ok r ->
  (forall j, b !! j = buf !! j -> r !! j = buf !! j) /\
  Forall (fun f => agree_on buf r (rc_byte_offset f) (rc_byte_offset f + rc_byte_len f)) frames.
Proof.
  induction frames as [|f frames IH]; intros b r Hs; cbn [recon_fill]; [intros; simplify_eq; by split|].
  apply Forall_cons in Hs as [(Ho & Hn & Hz & Hb) Hs].
  destruct (rc_byte_len f <? _); [done|]. destruct (Z.ltb_spec (zlen b) (rc_byte_offset f + rc_byte_len f)); [done|].
  destruct (Z.eqb_spec (zlen (rc_bytes f)) (rc_byte_len f)) as [Hl|]; [|done]. cbn [orb negb].
  intros Hr. destruct (IH _ _ Hs Hr) as [Hk Hf].
  assert (Hcopy : forall j, b !! j = buf !! j \/
      (Z.to_nat (rc_byte_offset f) <= j < Z.to_nat (rc_byte_offset f + rc_byte_len f))%nat ->
      copy_at (Z.to_nat (rc_byte_offset f)) (rc_bytes f) b !! j = buf !! j).
  { intros j Hj. unfold zlen in *. rewrite lookup_copy_at by lia. destruct (decide _) as [Hd|Hd].
    - rewrite Hb, lookup_slice by lia. f_equal. lia.
    - destruct Hj; [done|lia]. }
  split; [intros j Hj; apply Hk, Hcopy; by left|]. constructor; [|done].
  intros j Hj. apply Hk, Hcopy. by right.
Qed.

Lemma check_recon_bytes_Ok st s object frames u :
  ob_live st !! s = Some object -> check_recon_bytes st s frames = Ok u ->
  Forall (fun f => slice (Z.to_nat (rc_byte_offset f)) (Z.to_nat (rc_byte_offset f + rc_byte_len f)) object
                   = rc_bytes f) frames.
Proof.
  intros Ho. induction frames as [|f frames IH]; cbn [check_recon_bytes]; [constructor|].
  rewrite result_bind_Ok. intros (stop & [-> _]%ok_or_Ok%checked_add_u64_Some & HR).
  apply result_bind_Ok in HR as (b & Hb & HR). apply result_bind_Ok in HR as (? & He & HR).
  apply ensure_Ok, bool_decide_eq_true in He as ->.
  unfold get_object_range in Hb. rewrite Ho in Hb. destruct (_ <=? _) in Hb; [done|]. simplify_eq.
  constructor; [done|by apply IH].
Qed.
Lemma check_recon_dir_Ok dir frames u :
  check_recon_dir dir frames = Ok u -> Forall (fun f => recon_entry f ∈ dir) frames.
Proof.
  induction frames as [|f frames IH]; cbn [check_recon_dir]; [constructor|].
  rewrite result_bind_Ok. intros (? & _ & HR). apply result_bind_Ok in HR as (? & He & HR).
  apply ensure_Ok, bool_decide_eq_true in He. constructor; [done|by apply IH].
Qed.

(** An object serves an item: it lists the frame and the frame reads back. *)
Definition serves (st : ObjectStore) (it : RunItem) : Prop :=
  exists object dir, ob_live st !! fl_segid (ri_loc it) = Some object /\
    store_read_directory st (fl_segid (ri_loc it)) = Ok dir /\
    mkDirEntry (fl_byte_offset (ri_loc it)) (fl_byte_len (ri_loc it) - 4) (ri_slot it).1 (ri_slot it).2 ∈ dir /\
    reads_back object it.

Lemma item_entry_wf buf it :
  zlen buf <= U64_MAX -> item_in buf it -> is_u64 (ri_slot it).1 -> is_u64 (ri_slot it).2 ->
  DirEntry_wf (recon_entry (ship buf it)).
Proof.
  intros Hz Hin Hi Hx. destruct (ship_shipped _ _ Hin) as (Ho & _ & Hs & _).
  destruct Hin as (pre & body & post & _ & _ & Hl & Hu & _). pose proof (zlen_nonneg body).
  cbn in Ho, Hs. unfold DirEntry_wf, recon_entry. cbn. change (Z.of_nat LEN_PREFIX) with 4. ulia.
Qed.

(** Both ways to end up with the object. *)
Lemma serves_intro buf st s object dir items :
  ob_live st !! s = Some object -> zlen object <= U64_MAX -> store_read_directory st s = Ok dir ->
  Forall (item_in buf) items -> Forall (fun it => fl_segid (ri_loc it) = s) items ->
  Forall (fun f => recon_entry f ∈ dir) (map (ship buf) items) ->
  Forall (fun f => slice (Z.to_nat (rc_byte_offset f)) (Z.to_nat (rc_byte_offset f + rc_byte_len f)) object
                   = rc_bytes f) (map (ship buf) items) ->
  Forall (serves st) items.
Proof.
  intros Ho Hz Hd Hin Hs He Hb. rewrite Forall_fmap in He, Hb. rewrite !Forall_forall in *. intros it Hit.
  exists object, dir. rewrite (Hs it Hit). split; [done|]. split; [done|]. split; [apply (He it Hit)|].
  apply item_reads_back; [done|]. eapply frame_in_slice; [apply (Hb it Hit)|by apply Hin].
Qed.

Lemma materialized_serves fate dn s buf items st st' b object u :
  zlen buf <= U64_MAX -> length dn = NONCE_SIZE -> Segid_wf s -> Forall (item_in buf) items ->
  Forall (fun it => fl_segid (ri_loc it) = s /\ is_u64 (ri_slot it).1 /\ is_u64 (ri_slot it).2) items ->
  (exists z, recon_fill z (map (ship buf) items) = Ok b) ->
  finalize_segment compression dn s b (map recon_entry (merge_sort index_le (map (ship buf) items))) (counter s)
    = Ok object ->
  create_object fate s object st = (Ok u, st') -> Forall (serves st') items.
Proof.
  intros Hz Hn Hwf Hin Hit [z Hfill] Hfin Hc.
  assert (Hdir : Forall DirEntry_wf (map recon_entry (merge_sort index_le (map (ship buf) items)))).
  { rewrite merge_sort_Permutation, !Forall_fmap. rewrite Forall_forall in *. intros it Hi.
    destruct (Hit it Hi) as (_ & ? & ?). by apply item_entry_wf; [|apply Hin|..]. }
  destruct (finalize_Ok _ _ _ _ _ _ _ Hn Hwf (proj2 Hwf) Hdir Hfin) as ([more ->] & Hzo & Hrd).
  destruct (create_object_spec _ _ _ _ _ _ Hc) as [_ Hl].
  assert (Hsh : Forall (shipped buf) (map (ship buf) items)).
  { rewrite Forall_fmap. eapply Forall_impl; [exact Hin|]. apply ship_shipped. }
  destruct (recon_fill_agree buf _ _ _ Hsh Hfill) as [_ Ha].
  eapply (serves_intro buf); [by apply Hl|done| |done| | |].
  - unfold store_read_directory. rewrite (Hl eq_refl), Hrd. done.
  - eapply Forall_impl; [exact Hit|]. by intros it [? _].
  - apply Forall_forall. intros f Hf. apply list_elem_of_fmap. exists f. split; [done|].
    by rewrite merge_sort_Permutation.
  - apply Forall_forall. intros f Hf. rewrite Forall_forall in Hsh, Ha. destruct (Hsh f Hf) as (Ho & Hp & Hle & ->).
    apply agree_slice, agree_app; [done|by apply Ha].
Qed.

(** C17: a standby that takes over serves every extent the old leader had shipped to it but
    not uploaded: a successful materialization leaves an object that lists each shipped
    frame and reads it back, whether it was rebuilt here, in whatever order the frames
    came, or the old leader's own upload won; and no existing object is touched. *)
Theorem takeover_serves fate dn s buf items st :
  zlen buf <= U64_MAX -> length dn = NONCE_SIZE -> Segid_wf s -> Forall (item_in buf) items ->
  Forall (fun it => fl_segid (ri_loc it) = s /\ is_u64 (ri_slot it).1 /\ is_u64 (ri_slot it).2) items ->
  (forall b, ob_live st !! s = Some b -> zlen b <= U64_MAX) ->
  let m := materialize_segment_if_absent compression fate dn s (map (ship buf) items) st in
  (is_ok m.1 = true -> Forall (serves m.2) items) /\
  (forall s' b, ob_live st !! s' = Some b -> ob_live m.2 !! s' = Some b).
Proof.
  intros Hz Hn Hwf Hin Hit Hst m. subst m. unfold materialize_segment_if_absent. case_bool_decide as Hnil.
  { apply map_eq_nil in Hnil as ->. split; [constructor|done]. }
  destruct (_ ≫= _) as [object|e] eqn:Eo; [|by split].
  apply result_bind_Ok in Eo as (stop & _ & Eo). apply result_bind_Ok in Eo as (b & Hfill & Eo).
  destruct (finalize_segment _ _ _ _ _ _) as [o|] eqn:Hfin; [|done]. simplify_eq.
  destruct (create_object fate s object st) as [r st'] eqn:Hc.
  destruct (create_object_spec _ _ _ _ _ _ Hc) as [Hcr _].
  assert (Hkeep : forall s' b', ob_live st !! s' = Some b' -> ob_live st' !! s' = Some b').
  { intros s' b' Hs'. destruct Hcr as [->|[Hno ->]]; [done|]. cbn. rewrite lookup_insert_ne; congruence. }
  destruct r as [u|[]]; [split; [intros _; by eapply materialized_serves; eauto|done]| |by split].
  split; [|done]. destruct (verify_existing_recon_segment _ _ _) as [u|] eqn:Hv; [|done]. intros _.
  apply result_bind_Ok in Hv as (dir & Hdir & Hv). apply result_bind_Ok in Hv as (? & Hcd & Hcb).
  assert (exists o, ob_live st' !! s = Some o) as [o Ho].
  { unfold store_read_directory in Hdir. destruct (ob_live st' !! s); [eauto|done]. }
  assert (Hzo : zlen o <= U64_MAX).
  { destruct Hcr as [->|[_ ->]]; [by apply Hst|]. cbn in Ho. rewrite lookup_insert_eq in Ho. simplify_eq.
    by destruct (finalize_prefix _ _ _ _ _ _ _ Hfin) as (? & _ & ?). }
  eapply (serves_intro buf); eauto using check_recon_dir_Ok, check_recon_bytes_Ok.
  eapply Forall_impl; [exact Hit|]. by intros it [? _].
Qed.
End takeover.

(** A standby rebuilds a segment of three frames it received out of order. *)
Module TestTakeover.
Definition buf : bytes := os_buf (ln_open TestLane.lane).
Definition items : list RunItem := ln_done TestLane.lane.
Definition fate : CreateFate := mkCreateFate true Delivered true.
Definition run : result SegmentStoreError bool * ObjectStore :=
  materialize_segment_if_absent (H := TestPrims.prims) (H0 := TestCrc.crc) Lz4 fate TestSegment.nonce (mkSegid 4 5)
    (map (ship buf) items) (mkObjects ∅ ∅).
End TestTakeover.

Lemma takeover_serves_witness :
  is_ok TestTakeover.run.1 = true /\
  Forall (serves (H := TestPrims.prims) (H1 := TestCrc.crc) TestTakeover.run.2) TestTakeover.items.
Proof.
  split; [vm_compute; reflexivity|].
  apply (takeover_serves (H := TestPrims.prims) (H0 := TestPrims.laws) (H1 := TestCrc.crc) (H2 := TestCrc.laws)
    Lz4 TestTakeover.fate TestSegment.nonce (mkSegid 4 5) TestTakeover.buf TestTakeover.items (mkObjects ∅ ∅)).
  - vm_compute. discriminate.
  - reflexivity.
  - by split.
  - unfold TestTakeover.buf, TestTakeover.items.
    exact (lane_items (H := TestPrims.prims) (H0 := TestPrims.laws) _ _ TestLane.reached).
  - by apply (bool_decide_unpack _); vm_compute.
  - done.
  - vm_compute. reflexivity.
Defined.
