(* ===== verification/Frames.v ===== *)
(** * Lanes, sealing generations and segment objects

    The frame store behind the data plane: [append] puts a batch of extents into an open
    lane ([stage_edits] of [fs/store/extent/write.rs]), a full lane is finalized and
    uploaded in the background ([spawn_seal]), [seal_open] is the durability barrier of a
    flush, and frames are read from memory ([read_frames_in_ram] of [read.rs]) or from the
    object store.  The laws of [FrameStore] are proved of it, and that a flush makes every
    stored file survive a crash. *)

From S2P Require Import Prelude Errors FrameCodec Segment Lanes FrameStore SegmentStore.

Definition OPEN_SEGMENT_LANES : nat := 4.

(** The parts of [ExtentStore] and [SegmentStore] that hold frames. *)
Record Frames := mkFrames {
  fr_lanes : list OpenSegment;
  fr_sealing : gmap Segid bytes;
  fr_objects : ObjectStore;
  fr_epoch : Z;
  fr_counter : Z }.

Definition set_lanes (l : list OpenSegment) (f : Frames) : Frames :=
  mkFrames l (fr_sealing f) (fr_objects f) (fr_epoch f) (fr_counter f).
Definition set_sealing (s : gmap Segid bytes) (f : Frames) : Frames :=
  mkFrames (fr_lanes f) s (fr_objects f) (fr_epoch f) (fr_counter f).
Definition set_objects (o : ObjectStore) (f : Frames) : Frames :=
  mkFrames (fr_lanes f) (fr_sealing f) o (fr_epoch f) (fr_counter f).

Definition next_segid (f : Frames) : Segid * Frames :=
  (mkSegid (fr_epoch f) (fr_counter f),
   mkFrames (fr_lanes f) (fr_sealing f) (fr_objects f) (fr_epoch f) (u64_wrap (fr_counter f + 1))).

(** The stores of [ExtentStore::new] and [SegmentStore::new] over existing objects. *)
Definition new_frames (epoch : Z) (objects : ObjectStore) : Frames :=
  mkFrames (map (fun i => mkOpen (mkSegid epoch (Z.of_nat i)) [] []) (seq 0 OPEN_SEGMENT_LANES))
    ∅ objects epoch (Z.of_nat OPEN_SEGMENT_LANES).

(** The lane an inode prefers, and the one a writer gets when some gates are held. *)
Definition open_lane (id : Z) : nat :=
  Z.to_nat (Z.land (Z.lxor id (Z.shiftr id 32)) (Z.of_nat OPEN_SEGMENT_LANES - 1)).
Definition lock_append_lane (busy : nat -> bool) (id : Z) : nat :=
  let preferred := open_lane id in
  if negb (busy preferred) then preferred
  else default preferred (List.find (fun i => negb (busy i)) (seq 0 OPEN_SEGMENT_LANES)).

(** The open segment with an identity, as the read paths look for it. *)
Definition find_lane (lanes : list OpenSegment) (s : Segid) : option OpenSegment :=
  List.find (fun o => bool_decide (os_segid o = s)) lanes.

(** What the environment decides about an append: the gates held by others, the nonces the
    cipher draws, and the background uploads that finish while a rotation waits. *)
Record AppendHint := mkAppendHint {
  ah_busy : nat -> bool;
  ah_nonce : nat -> bytes;
  ah_dir_nonce : bytes;
  ah_uploads : list (Segid * PutFate) }.

(** What it decides about a flush: the fate of the uploads by attempt, the nonces of the
    directories, and which upload finishes first. *)
Record FlushEnv := mkFlushEnv {
  fe_fate : nat -> Segid -> PutFate;
  fe_nonce : nat -> bytes;
  fe_pick : nat -> nat }.

(** The upload of one sealing generation: on success it leaves memory. *)
Definition publish (fate : PutFate) (s : Segid) (b : bytes) (f : Frames) : bool * Frames :=
  let '(r, objects) := put_segment fate s b (fr_objects f) in
  let f := set_objects objects f in
  match r with
  | Ok _ => (true, set_sealing (delete s (fr_sealing f)) f)
  | Err _ => (false, f)
  end.

(** The background task of [spawn_seal]; a generation a flush published meanwhile is skipped. *)
Definition background_seal (s : Segid) (fate : PutFate) (f : Frames) : Frames :=
  match fr_sealing f !! s with
  | Some b => (publish fate s b f).2
  | None => f
  end.

Definition publish_pending_seals (fate : Segid -> PutFate) (f : Frames) : bool * Frames :=
  foldl (fun '(failed, f) '(s, b) =>
           let '(ok, f) := publish (fate s) s b f in (failed || negb ok, f))
        (false, f) (map_to_list (fr_sealing f)).

Section frames.
Context `{CodecPrims, Crc32c} (compression : CompressionConfig) (seal_threshold max_inflight_seals : Z).

(** A residency permit is available as long as few generations are in memory. *)
Definition has_residency (f : Frames) : bool := Z.of_nat (size (fr_sealing f)) <? max_inflight_seals.

Definition rotate_sealing_generation (nonce : bytes) (i : nat) (f : Frames)
    : result FsError (option (Segid * bytes)) * Frames :=
  match fr_lanes f !! i with
  | None => (Err IoError, f)
  | Some o =>
      if bool_decide (os_dir o = []) then (Ok None, f)
      else
        let s := os_segid o in
        let object :=
          _ ← checked_frame_count 0 (zlen (os_dir o)) WIRE;
          sealed_dir ← seal_directory compression nonce s (os_dir o);
          prepared ← prepare_segment_assembly (os_buf o) (zlen (os_dir o)) sealed_dir WIRE;
          Ok (assemble_prepared_segment s (os_buf o) sealed_dir (counter s) prepared) in
        match object with
        | Err _ => (Err IoError, f)
        | Ok b =>
            let '(s', f) := next_segid f in
            let f := set_lanes (<[i := mkOpen s' [] []]> (fr_lanes f)) f in
            (Ok (Some (s, b)), set_sealing (<[s := b]> (fr_sealing f)) f)
        end
  end.

(** The part of [spawn_seal] in the writer: wait for residency, then rotate. *)
Definition spawn_seal (h : AppendHint) (i : nat) (f : Frames) : Frames :=
  let f := foldl (fun f sf => background_seal sf.1 sf.2 f) f (ah_uploads h) in
  if has_residency f then (rotate_sealing_generation (ah_dir_nonce h) i f).2 else f.

Fixpoint compress_all (ps : list (Z * bytes)) : result CodecError (list Compressed) :=
  match ps with
  | [] => Ok []
  | p :: r => c ← codec_compress compression p.2; cs ← compress_all r; Ok (c :: cs)
  end.

Definition batch_of (h : AppendHint) (id : Z) (ps : list (Z * bytes)) (cs : list Compressed) : Batch :=
  mkBatch id (imap (fun i pc => mkOut pc.1.1 pc.1.2 pc.2 (ah_nonce h i)) (zip ps cs)).

(** The frames of [stage_edits]: compress, claim a lane, seal, fill, rotate when full. *)
Definition append_batch (h : AppendHint) (id : Z) (ps : list (Z * bytes)) (f : Frames)
    : result FsError (list FrameLoc) * Frames :=
  match compress_all ps with
  | Err _ => (Err IoError, f)
  | Ok [] => (Ok [], f)
  | Ok compressed =>
      let i := lock_append_lane (ah_busy h) id in
      let b := batch_of h id ps compressed in
      match fr_lanes f !! i with
      | None => (Err IoError, f)
      | Some o =>
          match claim o id (batch_claim b) WIRE with
          | Err _ => (Err IoError, f)
          | Ok (r, o) =>
              let f := set_lanes (<[i := o]> (fr_lanes f)) f in
              match seal_compressed_batch (rs_segid r) (rs_first_frame r) (batch_frames b) with
              | Err _ => (Err IoError, f)
              | Ok sealed =>
                  let '(res, o') := fill r sealed o in
                  let f := set_lanes (<[i := o']> (fr_lanes f)) f in
                  match res with
                  | Err e => (Err e, f)
                  | Ok locs => (Ok locs, if seal_threshold <=? zlen (os_buf o) then spawn_seal h i f else f)
                  end
              end
          end
      end
  end.

(** The range check of the in-memory reads. *)
Definition ram_bounds (buf : bytes) (byte_offset byte_len : Z) : result FsError bytes :=
  stop ← ok_or IoError (checked_add_u64 byte_offset byte_len);
  if stop <=? zlen buf then Ok (slice (Z.to_nat byte_offset) (Z.to_nat stop) buf) else Err IoError.

Definition read_frames_in_ram (f : Frames) (s : Segid) (byte_offset byte_len first_frame : Z)
    (slots : list (Z * Z)) : result FsError (option (list bytes)) :=
  encoded ← match find_lane (fr_lanes f) s with
            | Some o => region ← ram_bounds (os_buf o) byte_offset byte_len; Ok (Some region)
            | None =>
                match fr_sealing f !! s with
                | Some b => region ← ram_bounds b byte_offset byte_len; Ok (Some region)
                | None => Ok None
                end
            end;
  match encoded with
  | None => Ok None
  | Some region =>
      match read_frames_from_region region s first_frame slots with
      | Ok frames => Ok (Some frames)
      | Err _ => Err IoError
      end
  end.

Definition read_frame_for_ship (f : Frames) (s : Segid) (byte_offset byte_len : Z) : option bytes :=
  stop ← checked_add_u64 byte_offset byte_len;
  buf ← match find_lane (fr_lanes f) s with
        | Some o => Some (os_buf o)
        | None => fr_sealing f !! s
        end;
  if stop <=? zlen buf then Some (slice (Z.to_nat byte_offset) (Z.to_nat stop) buf) else None.

(** ** The durability barrier *)

(** Republishing before each lane's gate is taken, and once more after the last. *)
Fixpoint publish_rounds (env : FlushEnv) (n : nat) (f : Frames) : bool * Frames :=
  match n with
  | O => (false, f)
  | S n =>
      let '(failed, f) := publish_pending_seals (fe_fate env n) f in
      if failed then (true, f) else publish_rounds env n f
  end.

Definition dirty_lanes (f : Frames) : list nat :=
  List.filter (fun i => match fr_lanes f !! i with
                        | Some o => negb (bool_decide (os_dir o = []))
                        | None => false
                        end) (seq 0 OPEN_SEGMENT_LANES).

(** Rotate dirty lanes while there is residency. *)
Fixpoint rotate_dirty (env : FlushEnv) (dirty : list nat) (uploads : list (Segid * bytes)) (failed : bool)
    (f : Frames) : list nat * list (Segid * bytes) * bool * Frames :=
  match dirty with
  | [] => ([], uploads, failed, f)
  | i :: rest =>
      if has_residency f then
        match rotate_sealing_generation (fe_nonce env i) i f with
        | (Ok (Some g), f) => rotate_dirty env rest (uploads ++ [g]) failed f
        | (Ok None, f) => rotate_dirty env rest uploads failed f
        | (Err _, f) => rotate_dirty env rest uploads true f
        end
      else (i :: rest, uploads, failed, f)
  end.

(** The upload that finishes next. *)
Definition next_upload (k : nat) (uploads : list (Segid * bytes))
    : option ((Segid * bytes) * list (Segid * bytes)) :=
  let i := (k mod Nat.max 1 (length uploads))%nat in
  match uploads !! i with
  | Some u => Some (u, delete i uploads)
  | None => None
  end.

(** The loop of [seal_open]; [None] is running out of fuel. *)
Fixpoint seal_loop (env : FlushEnv) (fuel : nat) (dirty : list nat) (uploads : list (Segid * bytes))
    (failed : bool) (f : Frames) : option (result FsError unit) * Frames :=
  match fuel with
  | O => (None, f)
  | S fuel =>
      let '(dirty, uploads, failed, f) := rotate_dirty env dirty uploads failed f in
      match next_upload (fe_pick env fuel) uploads with
      | None =>
          (Some (if failed || negb (bool_decide (dirty = [])) then Err IoError else Ok tt), f)
      | Some ((s, b), uploads) =>
          let '(ok, f) := publish (fe_fate env (OPEN_SEGMENT_LANES + 1 + fuel)%nat s) s b f in
          seal_loop env fuel dirty uploads (failed || negb ok) f
      end
  end.

Definition seal_open (env : FlushEnv) (f : Frames) : option (result FsError unit) * Frames :=
  let '(failed, f) := publish_rounds env (OPEN_SEGMENT_LANES + 1) f in
  if failed then (Some (Err IoError), f)
  else
    let dirty := dirty_lanes f in
    if bool_decide (dirty = []) then (Some (Ok tt), f)
    else seal_loop env (S (length dirty)) dirty [] false f.

#[export] Instance frames_store : FrameStore Frames AppendHint := {
  fs_append := append_batch;
  fs_in_ram := read_frames_in_ram;
  fs_read_run f := store_read_run (fr_objects f) }.
End frames.

(** ** One lane *)

Lemma slot_dir_at o slots i s off n :
  slots !! i = Some s -> slot_spans o slots !! i = Some (off, n) ->
  slot_dir o slots !! i = Some (mkDirEntry off n (sl_inode s) (sl_extent s)).
Proof.
  revert o i. induction slots as [|t slots IH]; intros o [|i]; cbn; try done.
  - intros; by simplify_eq.
  - apply IH.
Qed.

Definition slot_u64 (s : Slot) : Prop := is_u64 (sl_inode s) /\ is_u64 (sl_extent s).

Lemma slot_dir_wf slots : forall o,
  0 <= o -> Forall slot_wf slots -> Forall slot_u64 slots -> o + zlen (lane_bytes slots) <= U64_MAX ->
  Forall DirEntry_wf (slot_dir o slots).
Proof.
  induction slots as [|s slots IH]; intros o Ho Hw Hu Hl; [constructor|]. cbn [slot_dir].
  apply Forall_cons in Hw as [Hs Hw]. apply Forall_cons in Hu as [[? ?] Hu].
  rewrite lane_bytes_cons, zlen_app, zlen_slot_bytes in Hl by done.
  destruct Hs as (? & ? & _). pose proof (zlen_nonneg (lane_bytes slots)). constructor.
  - unfold DirEntry_wf. cbn. ulia.
  - apply IH; try done; lia.
Qed.

Definition lane_wf (o : OpenSegment) : Prop := exists slots, lane_rep o slots /\ Forall slot_u64 slots.

Lemma lane_wf_dir o : lane_wf o -> Forall DirEntry_wf (os_dir o) /\ zlen (os_buf o) <= U64_MAX.
Proof.
  intros (slots & [Hb Hd Hw Hl _] & Hu). rewrite Hd. split; [|done].
  apply slot_dir_wf; try done. by rewrite <- Hb.
Qed.
Lemma empty_lane_wf s : lane_wf (mkOpen s [] []).
Proof. exists []. split; [by split|constructor]. Qed.

(** A lane after an append: what was there is still there. *)
Record grows (o o' : OpenSegment) : Prop := {
  gr_segid : os_segid o' = os_segid o;
  gr_buf : exists more, os_buf o' = os_buf o ++ more;
  gr_dir : exists more, os_dir o' = os_dir o ++ more }.

Lemma grows_rep o o' p q :
  lane_rep o p -> lane_rep o' (p ++ q) -> os_segid o' = os_segid o -> grows o o'.
Proof.
  intros [Hb Hd Hw _ _] [Hb' Hd' _ _ _] Hs. split; [done|exists (lane_bytes q)|].
  - by rewrite Hb', Hb, lane_bytes_app.
  - rewrite Hd', Hd, slot_dir_app by done. eauto.
Qed.

Section lane.
Context `{CodecPrimsLaws}.

(** The frame is stored in the buffer and listed in the directory. *)
Definition stored_in (buf : bytes) (dir : list DirEntry) (id x : Z) (loc : FrameLoc) (d : bytes) : Prop :=
  frame_in buf id x loc d /\ entry_of_loc (id, x, loc) ∈ dir /\ is_u64 id /\ is_u64 x.

Lemma stored_in_grow buf dir more more' id x loc d :
  stored_in buf dir id x loc d -> stored_in (buf ++ more) (dir ++ more') id x loc d.
Proof. intros (Hf & He & Hu). split; [by apply frame_in_app|]. split; [|done]. apply elem_of_app. by left. Qed.

Lemma done_stored o slots it :
  lane_rep o slots -> Forall slot_u64 slots -> done_ok (os_segid o) slots it ->
  stored_in (os_buf o) (os_dir o) (ri_slot it).1 (ri_slot it).2 (ri_loc it) (ri_data it).
Proof.
  intros Hrep Hu Hd. split; [by eapply done_frame_in|]. destruct Hd as (i & body & Hi & Hsp & Hloc & _).
  split; [|by apply (proj1 (Forall_lookup _ _) Hu i _ Hi)].
  apply (list_elem_of_lookup_2 _ i). rewrite (lr_dir _ _ Hrep).
  rewrite (slot_dir_at _ _ _ _ _ _ Hi Hsp). unfold entry_of_loc. rewrite Hloc. cbn. do 2 f_equal. lia.
Qed.

Lemma batch_claim_u64 id owner b :
  is_u64 id -> Forall (fun f => is_u64 (of_extent f)) (wb_frames b) ->
  Forall slot_u64 (map (reserved id owner) (batch_claim b)).
Proof.
  intros Hi Hx. unfold batch_claim. rewrite !Forall_fmap. eapply Forall_impl; [exact Hx|]. by split.
Qed.

(** A batch appended to a lane, up to the point where it may fail. *)
Lemma append_lane b o r o1 :
  lane_wf o -> is_u64 (wb_inode b) -> Forall out_ok (wb_frames b) ->
  Forall (fun f => is_u64 (of_extent f)) (wb_frames b) ->
  claim o (wb_inode b) (batch_claim b) WIRE = Ok (r, o1) ->
  (lane_wf o1 /\ grows o o1) /\
  forall sealed, seal_compressed_batch (rs_segid r) (rs_first_frame r) (batch_frames b) = Ok sealed ->
    exists locs o2, fill r sealed o1 = (Ok locs, o2) /\ lane_wf o2 /\ grows o o2 /\
      Forall2 (fun f loc => fl_segid loc = os_segid o /\
        stored_in (os_buf o2) (os_dir o2) (wb_inode b) (of_extent f) loc (of_plain f)) (wb_frames b) locs.
Proof.
  intros (slots & Hrep & Hu) Hid Hok Hx Hc.
  destruct (claim_Ok _ _ _ WIRE slots _ _ Hrep ltac:(unfold WIRE; lia) (batch_claim_nonneg b) Hc)
    as (Hrep1 & Hs1 & Hrs & Hff & Hlo & Hz).
  pose proof (batch_claim_u64 (wb_inode b) (zlen slots) b Hid Hx) as Hqu.
  set (q := map (reserved (wb_inode b) (zlen slots)) (batch_claim b)) in *.
  split. { split; [|by eapply grows_rep]. exists (slots ++ q). split; [done|]. by apply Forall_app. }
  intros sealed Hseal. destruct (seal_batch_fits b (zlen slots) _ _ _ Hok Hseal) as [Hfit Hop]. fold q in Hfit.
  destruct (fill_Ok r sealed o1 slots q []) as (o2 & Hfill & Hs2 & Hrep2);
    [by rewrite app_nil_r|congruence|done|by rewrite Hlo; unfold q; rewrite length_map|done|done|].
  rewrite app_nil_r in Hrep2. eexists _, o2. split; [exact Hfill|].
  assert (Hcu : Forall slot_u64 (complete q sealed)).
  { clear -Hqu Hfit. induction Hfit; [constructor|]. apply Forall_cons in Hqu as [? ?]. constructor; auto. }
  split; [exists (slots ++ complete q sealed); split; [done|by apply Forall_app]|].
  assert (Hs : os_segid o2 = os_segid o) by congruence.
  split; [by eapply grows_rep|].
  rewrite Hff in Hop. rewrite Hrs in *.
  pose proof (done_filled (os_segid o) slots [] b (zlen slots) sealed q eq_refl eq_refl (lr_wf _ _ Hrep)
    (proj2 (proj1 (Forall_app _ _ _) (lr_wf _ _ Hrep1))) Hfit Hop) as Hd.
  rewrite app_nil_r in Hd.
  apply Forall2_same_length_lookup_2.
  { rewrite length_slot_locs. unfold q, batch_claim. by rewrite !length_map. }
  intros i f loc Hf Hl.
  assert (Hit : done_items b (slot_locs (os_segid o) (zlen slots) (zlen (lane_bytes slots)) q) !! i
                = Some (mkItem (wb_inode b, of_extent f) loc (of_plain f)))
    by (unfold done_items; by rewrite lookup_zip_with, Hf, Hl).
  apply (proj1 (Forall_lookup _ _) Hd) in Hit. split; [destruct Hit as (? & ? & _ & _ & Hlo' & _); cbn in Hlo'; by rewrite Hlo'|].
  rewrite <- Hs in Hit. apply (done_stored _ _ _ Hrep2) in Hit; [done|]. by apply Forall_app.
Qed.
End lane.

(** ** The store's invariant *)

Section laws.
Context `{CodecPrimsLaws, Crc32cLaws} (compression : CompressionConfig) (seal_threshold max_inflight_seals : Z).
Implicit Types f : Frames.

Definition object_dir (s : Segid) (b : bytes) : list DirEntry :=
  match read_directory b s with Ok dir => dir | Err _ => [] end.

(** The bytes and the directory of a segment, wherever it is, deleted ones included. *)
Definition object_data (f : Frames) (s : Segid) : option bytes :=
  match ob_live (fr_objects f) !! s with
  | Some b => Some b
  | None => ob_deleted (fr_objects f) !! s
  end.
Definition seg_data (f : Frames) (s : Segid) : option (bytes * list DirEntry) :=
  match find_lane (fr_lanes f) s with
  | Some o => Some (os_buf o, os_dir o)
  | None =>
      match fr_sealing f !! s with
      | Some b => Some (b, object_dir s b)
      | None => (fun b => (b, object_dir s b)) <$> object_data f s
      end
  end.

Definition frame_held (f : Frames) (id x : Z) (loc : FrameLoc) (d : bytes) : Prop :=
  exists buf dir, seg_data f (fl_segid loc) = Some (buf, dir) /\ stored_in buf dir id x loc d.
Definition seg_dead (f : Frames) (s : Segid) : Prop := is_Some (ob_deleted (fr_objects f) !! s).
(** The object of the segment holds the frame. *)
Definition object_held (f : Frames) (id x : Z) (loc : FrameLoc) (d : bytes) : Prop :=
  exists b, ob_live (fr_objects f) !! fl_segid loc = Some b /\ stored_in b (object_dir (fl_segid loc) b) id x loc d.

(** Identities of this epoch are below the counter. *)
Definition below_counter (f : Frames) (s : Segid) : Prop := epoch s = fr_epoch f -> counter s < fr_counter f.
Definition issued (f : Frames) (s : Segid) : Prop := Segid_wf s /\ below_counter f s.

Record lane_inv (f : Frames) (o : OpenSegment) : Prop := {
  lv_wf : lane_wf o;
  lv_issued : issued f (os_segid o);
  lv_sealing : fr_sealing f !! os_segid o = None;
  lv_live : ob_live (fr_objects f) !! os_segid o = None;
  lv_deleted : ob_deleted (fr_objects f) !! os_segid o = None }.

(** The bytes of a sealed segment: not too long, and its directory, if it can be read, has
    entries within the wire widths. *)
Definition object_wf (s : Segid) (b : bytes) : Prop := zlen b <= U64_MAX /\ Forall DirEntry_wf (object_dir s b).

Record FramesInv (f : Frames) : Prop := {
  fi_lanes : Forall (lane_inv f) (fr_lanes f);
  fi_count : length (fr_lanes f) = OPEN_SEGMENT_LANES;
  fi_distinct : NoDup (os_segid <$> fr_lanes f);
  fi_sealing : forall s b, fr_sealing f !! s = Some b ->
    issued f s /\ object_wf s b /\ ob_deleted (fr_objects f) !! s = None /\
    forall b', ob_live (fr_objects f) !! s = Some b' -> b' = b;
  fi_live : forall s b, ob_live (fr_objects f) !! s = Some b ->
    issued f s /\ object_wf s b /\ ob_deleted (fr_objects f) !! s = None;
  fi_deleted : forall s, is_Some (ob_deleted (fr_objects f) !! s) -> issued f s;
  fi_range : is_u64 (fr_epoch f) /\ is_u64 (fr_counter f);
  fi_epoch : Forall (fun o => epoch (os_segid o) = fr_epoch f) (fr_lanes f) }.

Lemma find_lane_Some lanes s o :
  NoDup (os_segid <$> lanes) -> find_lane lanes s = Some o <-> o ∈ lanes /\ os_segid o = s.
Proof.
  intros Hnd. unfold find_lane. split.
  - intros [Ho Hs%bool_decide_eq_true]%List.find_some. split; [by apply list_elem_of_In|done].
  - induction lanes as [|o' lanes IH]; [by intros [?%not_elem_of_nil _]|]. cbn.
    apply NoDup_cons in Hnd as [Hn Hnd]. intros [[->|Hi]%elem_of_cons <-]; [by rewrite bool_decide_true|].
    rewrite bool_decide_false; [by apply IH|]. intros Hs. apply Hn. rewrite Hs. apply list_elem_of_fmap. by exists o.
Qed.
Lemma find_lane_None lanes s : find_lane lanes s = None <-> forall o, o ∈ lanes -> os_segid o <> s.
Proof.
  unfold find_lane. split.
  - intros Hn o Ho%list_elem_of_In Hs. pose proof (List.find_none _ _ Hn o Ho) as Hf. cbn in Hf.
    by rewrite bool_decide_true in Hf.
  - intros Hn. induction lanes as [|o lanes IH]; [done|]. cbn.
    rewrite bool_decide_false by (apply Hn; left). apply IH. intros o' Ho'. apply Hn. by right.
Qed.

Lemma lane_at f i o : FramesInv f -> fr_lanes f !! i = Some o -> lane_inv f o /\ find_lane (fr_lanes f) (os_segid o) = Some o.
Proof.
  intros Inv Hi. split; [by apply (proj1 (Forall_lookup _ _) (fi_lanes _ Inv) i)|].
  apply find_lane_Some; [apply Inv|]. split; [by eapply list_elem_of_lookup_2|done].
Qed.

(** ** Moves of the store

    [keeps f f']: every frame is still where its location says, and the same segments are
    deleted; a segment that was finished and uploaded gets no more frames. *)

Definition seg_closed (f : Frames) (s : Segid) : Prop :=
  below_counter f s /\ find_lane (fr_lanes f) s = None /\ fr_sealing f !! s = None.

Record keeps (f f' : Frames) : Prop := {
  kp_inv : FramesInv f';
  kp_held : forall id x loc d, frame_held f id x loc d -> frame_held f' id x loc d;
  kp_dead : forall s, seg_dead f' s <-> seg_dead f s;
  kp_closed : forall s, seg_closed f s -> seg_closed f' s;
  kp_epoch : fr_epoch f' = fr_epoch f;
  kp_live : forall s b, ob_live (fr_objects f) !! s = Some b -> ob_live (fr_objects f') !! s = Some b }.

Lemma keeps_refl f : FramesInv f -> keeps f f.
Proof. by split. Qed.
Lemma keeps_trans f1 f2 f3 : keeps f1 f2 -> keeps f2 f3 -> keeps f1 f3.
Proof.
  intros [_ K1 D1 C1 E1 L1] [I2 K2 D2 C2 E2 L2]. split; [done|auto| |auto|congruence|auto]. intros s. by rewrite D2, D1.
Qed.

Lemma keeps_data f f' :
  FramesInv f' ->
  (forall s buf dir, seg_data f s = Some (buf, dir) ->
     exists more more', seg_data f' s = Some (buf ++ more, dir ++ more')) ->
  ob_deleted (fr_objects f') = ob_deleted (fr_objects f) ->
  fr_counter f <= fr_counter f' -> fr_epoch f' = fr_epoch f ->
  (forall o, o ∈ fr_lanes f' -> below_counter f (os_segid o) -> os_segid o ∈ os_segid <$> fr_lanes f) ->
  (forall s, is_Some (fr_sealing f' !! s) -> is_Some (fr_sealing f !! s) \/ s ∈ os_segid <$> fr_lanes f) ->
  (forall s b, ob_live (fr_objects f) !! s = Some b -> ob_live (fr_objects f') !! s = Some b) -> keeps f f'.
Proof.
  intros Hi Hd Hdel Hcn Hep Hln Hsl Hlv. split; [done| |intros s; unfold seg_dead; by rewrite Hdel| |done|done].
  2:{ intros s (Hs & Hn & Hse). rewrite find_lane_None in Hn.
      assert (Hnl : s ∉ os_segid <$> fr_lanes f) by (intros (o & -> & Ho)%list_elem_of_fmap; by apply (Hn o)).
      split; [|split].
      - intros E. rewrite Hep in E. specialize (Hs E). lia.
      - apply find_lane_None. intros o Ho <-. by apply Hnl, Hln.
      - apply eq_None_not_Some. intros [He|?]%Hsl; [|done]. rewrite Hse in He. by destruct He. }
  intros id x loc d (buf & dir & Hs & Hst). destruct (Hd _ _ _ Hs) as (more & more' & Hs').
  exists (buf ++ more), (dir ++ more'). split; [done|by apply stored_in_grow].
Qed.

(** A lane replaced by one that grew. *)
Lemma set_lane_inv f i o o' :
  FramesInv f -> fr_lanes f !! i = Some o -> grows o o' -> lane_wf o' ->
  keeps f (set_lanes (<[i := o']> (fr_lanes f)) f).
Proof.
  intros Inv Hi Hg Hw. destruct (lane_at f i o Inv Hi) as [Hl Hfind]. destruct Hg as [Hs [mb Hb] [md Hd]].
  assert (Hids : os_segid <$> <[i := o']> (fr_lanes f) = os_segid <$> fr_lanes f).
  { rewrite list_fmap_insert, Hs. apply list_insert_id. by rewrite list_lookup_fmap, Hi. }
  assert (Inv' : FramesInv (set_lanes (<[i := o']> (fr_lanes f)) f)).
  { destruct Inv. split; try done; cbn.
    - apply Forall_insert; [eapply Forall_impl; [exact fi_lanes0|]; by intros ? []|]. destruct Hl. split; cbn; rewrite ?Hs; done.
    - by rewrite length_insert.
    - by rewrite Hids.
    - apply Forall_insert; [done|]. rewrite Hs. by apply (proj1 (Forall_lookup _ _) fi_epoch0 i). }
  apply keeps_data; [done| |done|done|done| |by left|done].
  2:{ intros o1 Ho1 _. rewrite <- Hids. by apply list_elem_of_fmap_2. }
  intros s buf dir. unfold seg_data. cbn [set_lanes fr_lanes fr_sealing].
  destruct (find_lane (fr_lanes f) s) as [o0|] eqn:E.
  - apply find_lane_Some in E as [Ho0 <-]; [|apply Inv]. intros [= <- <-].
    destruct (decide (os_segid o0 = os_segid o)) as [Heq|Hne].
    + assert (Ho : find_lane (fr_lanes f) (os_segid o) = Some o0)
        by (apply find_lane_Some; [apply Inv|by split]).
      assert (o0 = o) as -> by congruence. clear Ho Heq Ho0.
      assert (find_lane (<[i := o']> (fr_lanes f)) (os_segid o) = Some o') as ->.
      { apply find_lane_Some; [apply Inv'|]. split; [|done].
        eapply list_elem_of_lookup_2, list_lookup_insert_eq. by eapply lookup_lt_Some. }
      rewrite Hb, Hd. eauto.
    + assert (find_lane (<[i := o']> (fr_lanes f)) (os_segid o0) = Some o0) as ->.
      { apply find_lane_Some; [apply Inv'|]. split; [|done].
        apply list_elem_of_lookup_1 in Ho0 as [j Hj]. apply (list_elem_of_lookup_2 _ j).
        rewrite list_lookup_insert_ne; [done|]. intros ->. congruence. }
      exists [], []. by rewrite !app_nil_r.
  - assert (find_lane (<[i := o']> (fr_lanes f)) s = None) as ->.
    { rewrite find_lane_None in *. intros o0 Ho0 Hs0.
      assert (Hin : os_segid o0 ∈ os_segid <$> <[i := o']> (fr_lanes f)) by (apply list_elem_of_fmap; by exists o0).
      rewrite Hids in Hin. apply list_elem_of_fmap in Hin as (o1 & E1 & Ho1). apply (E o1 Ho1). congruence. }
    intros Hx. exists [], []. by rewrite !app_nil_r.
Qed.

Lemma sealing_no_lane f s b : FramesInv f -> fr_sealing f !! s = Some b -> find_lane (fr_lanes f) s = None.
Proof.
  intros Inv Hs. apply find_lane_None. intros o Ho <-.
  pose proof (lv_sealing _ _ (proj1 (Forall_forall _ _) (fi_lanes _ Inv) o Ho)). congruence.
Qed.

(** The upload of a sealing generation. *)
Lemma publish_keeps fate s b f :
  FramesInv f -> fr_sealing f !! s = Some b ->
  let p := publish fate s b f in
  keeps f p.2 /\ fr_lanes p.2 = fr_lanes f /\ fr_counter p.2 = fr_counter f /\
  fr_sealing p.2 = (if p.1 then delete s (fr_sealing f) else fr_sealing f).
Proof.
  intros Inv Hs p. subst p. unfold publish.
  destruct (put_segment_spec fate s b (fr_objects f)) as [Hc Hok].
  destruct (put_segment fate s b (fr_objects f)) as [r ob] eqn:E. cbn [fst snd] in *.
  destruct (fi_sealing _ Inv s b Hs) as (Hiss & Hz & Hdel & Heq).
  pose proof (sealing_no_lane f s b Inv Hs) as Hnl.
  assert (Hdeleted : ob_deleted ob = ob_deleted (fr_objects f)) by (destruct Hc as [->|[_ ->]]; done).
  assert (Hlive : forall s', s' <> s -> ob_live ob !! s' = ob_live (fr_objects f) !! s').
  { intros s' Hne. destruct Hc as [->|[_ ->]]; [done|]. cbn. by rewrite lookup_insert_ne. }
  assert (Hlive_s : forall b', ob_live ob !! s = Some b' -> b' = b).
  { destruct Hc as [->|[_ ->]]; [done|]. cbn. rewrite lookup_insert_eq. congruence. }
  assert (Hlanes : forall o, o ∈ fr_lanes f -> os_segid o <> s).
  { by apply find_lane_None. }
  set (sealing' := if is_ok r then delete s (fr_sealing f) else fr_sealing f).
  assert (Hsl : forall s' b', sealing' !! s' = Some b' -> fr_sealing f !! s' = Some b').
  { intros s' b'. unfold sealing'. destruct r; [|done]. cbn. by intros [_ ?]%lookup_delete_Some. }
  set (f' := mkFrames (fr_lanes f) sealing' ob (fr_epoch f) (fr_counter f)).
  assert (Hf' : match r with Ok _ => (true, set_sealing (delete s (fr_sealing (set_objects ob f))) (set_objects ob f))
                | Err _ => (false, set_objects ob f) end = (is_ok r, f')) by (by destruct r).
  rewrite Hf'. cbn [fst snd]. split; [|by destruct r].
  assert (Inv' : FramesInv f').
  { destruct Inv as [L C D S V X R P]. split; try done; cbn.
    - apply Forall_forall. intros o Ho. destruct (proj1 (Forall_forall _ _) L o Ho) as [? ? ? ? ?].
      split; try done; cbn; [|by rewrite Hlive by auto|by rewrite Hdeleted].
      destruct (sealing' !! os_segid o) eqn:Es; [|done]. apply Hsl in Es. congruence.
    - intros s' b' Hs'. pose proof (Hsl _ _ Hs') as Hs0. destruct (S s' b' Hs0) as (? & ? & ? & Hb').
      rewrite Hdeleted. split_and!; try done. destruct (decide (s' = s)) as [->|Hne].
      + intros b0 Hb0. rewrite Hs in Hs0. injection Hs0 as <-. by apply Hlive_s.
      + by rewrite Hlive.
    - intros s' b' Hl. rewrite Hdeleted. destruct (decide (s' = s)) as [->|Hne].
      + apply Hlive_s in Hl as ->. by split_and!.
      + rewrite Hlive in Hl by done. by apply V.
    - intros s'. rewrite Hdeleted. apply X. }
  apply keeps_data; [done| |done|done|done|intros o Ho _; by apply list_elem_of_fmap_2| |].
  2:{ intros s' [b' Hb']. left. exists b'. by apply Hsl. }
  2:{ intros s' b' Hb'. destruct Hc as [->|[Hn ->]]; [done|]. cbn. rewrite lookup_insert_ne; [done|]. intros ->. congruence. }
  intros s' buf dir. unfold seg_data, object_data. cbn [f' fr_lanes fr_sealing fr_objects].
  intros Hd. exists [], []. rewrite !app_nil_r. rewrite Hdeleted.
  destruct (decide (s' = s)) as [->|Hne].
  - rewrite Hnl, Hs in Hd. rewrite Hnl. unfold sealing'. destruct r; cbn [is_ok]; [|by rewrite Hs].
    rewrite lookup_delete_eq. by rewrite Hok.
  - rewrite Hlive by done. unfold sealing'. destruct r; cbn [is_ok]; [|done]. by rewrite lookup_delete_ne.
Qed.

(** The rotation of a lane. *)
Definition rotated (i : nat) (o : OpenSegment) (b : bytes) (f : Frames) : Frames :=
  mkFrames (<[i := mkOpen (mkSegid (fr_epoch f) (fr_counter f)) [] []]> (fr_lanes f))
    (<[os_segid o := b]> (fr_sealing f)) (fr_objects f) (fr_epoch f) (fr_counter f + 1).

Lemma issued_next f s : issued f s -> issued (mkFrames (fr_lanes f) (fr_sealing f) (fr_objects f) (fr_epoch f) (fr_counter f + 1)) s.
Proof. intros [Hw Hc]. split; [done|]. intros He. specialize (Hc He). cbn. lia. Qed.

(** The early frame-count check of a rotation rejects nothing that sealing would accept. *)
Lemma checked_finalize o nonce :
  match (_ ← checked_frame_count 0 (zlen (os_dir o)) WIRE;
         sealed_dir ← seal_directory compression nonce (os_segid o) (os_dir o);
         prepared ← prepare_segment_assembly (os_buf o) (zlen (os_dir o)) sealed_dir WIRE;
         Ok (assemble_prepared_segment (os_segid o) (os_buf o) sealed_dir (counter (os_segid o)) prepared))
  with Ok b => Some b | Err _ => None end
  = match finalize_segment compression nonce (os_segid o) (os_buf o) (os_dir o) (counter (os_segid o))
    with Ok b => Some b | Err _ => None end.
Proof.
  unfold finalize_segment, assemble_segment.
  destruct (checked_frame_count 0 (zlen (os_dir o)) WIRE) as [k|e] eqn:E; [done|]. cbn [mbind result_bind].
  destruct (seal_directory _ _ _ _) as [sd|] eqn:Es; [|done].
  unfold seal_directory in Es. apply result_bind_Ok in Es as (k & Hk & _).
  assert (Hc : checked_frame_count 0 (zlen (os_dir o)) WIRE = Ok k); [|congruence].
  apply checked_wire_u32_Ok in Hk as (-> & Hu & Hw). unfold checked_frame_count.
  assert (checked_add_u64 0 (zlen (os_dir o)) = Some (zlen (os_dir o))) as ->
    by (apply checked_add_u64_Some; split; [done|ulia]).
  cbn [ok_or mbind result_bind]. by apply checked_wire_u32_Ok.
Qed.

Lemma rotate_cases nonce i f :
  FramesInv f -> (i < OPEN_SEGMENT_LANES)%nat -> length nonce = NONCE_SIZE -> fr_counter f < U64_MAX ->
  exists o, fr_lanes f !! i = Some o /\
    ((rotate_sealing_generation compression nonce i f = (Ok None, f) /\ os_dir o = []) \/
     (rotate_sealing_generation compression nonce i f = (Err IoError, f) /\ os_dir o <> [] /\
      is_ok (finalize_segment compression nonce (os_segid o) (os_buf o) (os_dir o) (counter (os_segid o))) = false) \/
     exists b more, rotate_sealing_generation compression nonce i f = (Ok (Some (os_segid o, b)), rotated i o b f) /\
       b = os_buf o ++ more /\ object_wf (os_segid o) b /\ read_directory b (os_segid o) = Ok (os_dir o)).
Proof.
  intros Inv Hi Hn Hc. rewrite <- (fi_count _ Inv) in Hi. destruct (lookup_lt_is_Some_2 _ _ Hi) as [o Ho].
  exists o. split; [done|]. unfold rotate_sealing_generation. rewrite Ho. case_bool_decide as Hd; [by left|]. right.
  pose proof (checked_finalize o nonce) as Hcf. cbv zeta.
  destruct (checked_frame_count 0 (zlen (os_dir o)) WIRE ≫= _) as [b|e];
    destruct (finalize_segment _ _ _ _ _ _) as [b'|] eqn:Hfin; simplify_eq; [right|by left].
  destruct (lane_at f i o Inv Ho) as [[Hw [Hwf _] _ _ _] _]. destruct (lane_wf_dir _ Hw) as [Hdw _].
  destruct (finalize_Ok _ _ _ _ _ _ _ Hn Hwf (proj2 Hwf) Hdw Hfin) as ([more ->] & Hz & Hrd).
  exists (os_buf o ++ more), more. split.
  2:{ split; [done|]. split; [|done]. split; [done|]. unfold object_dir. by rewrite Hrd. }
  unfold next_segid, rotated. cbn.
  rewrite u64_wrap_id; [done|]. destruct (fi_range _ Inv) as [_ ?]. ulia.
Qed.

(** The next identity is unused. *)
Definition next_id (f : Frames) : Segid := mkSegid (fr_epoch f) (fr_counter f).

Lemma next_id_fresh f s : issued f s -> s <> next_id f.
Proof. intros [_ Hlt] ->. specialize (Hlt eq_refl). cbn in Hlt. lia. Qed.
Lemma next_id_unused f :
  FramesInv f -> fr_sealing f !! next_id f = None /\ ob_live (fr_objects f) !! next_id f = None /\
  ob_deleted (fr_objects f) !! next_id f = None.
Proof.
  intros Inv. split_and!; apply eq_None_not_Some.
  - intros [b Hb]. by apply (fi_sealing _ Inv) in Hb as [?%next_id_fresh _].
  - intros [b Hb]. by apply (fi_live _ Inv) in Hb as [?%next_id_fresh _].
  - intros Hd%(fi_deleted _ Inv)%next_id_fresh. done.
Qed.

(** The lanes after a rotation: the new one and the others. *)
Lemma rotated_lane f i o j o' :
  FramesInv f -> fr_lanes f !! i = Some o ->
  <[i := mkOpen (next_id f) [] []]> (fr_lanes f) !! j = Some o' ->
  j = i /\ o' = mkOpen (next_id f) [] [] \/ j <> i /\ fr_lanes f !! j = Some o' /\ os_segid o' <> os_segid o.
Proof.
  intros Inv Hi. destruct (decide (j = i)) as [->|Hne].
  - rewrite list_lookup_insert_eq by (by eapply lookup_lt_Some). intros [= <-]. by left.
  - rewrite list_lookup_insert_ne by done. intros Hj. right. split_and!; try done. intros E. apply Hne.
    eapply (NoDup_lookup _ _ _ _ (fi_distinct _ Inv)); [by rewrite list_lookup_fmap, Hj|].
    rewrite list_lookup_fmap, Hi. cbn. by rewrite E.
Qed.

Lemma lane_issued f i o : FramesInv f -> fr_lanes f !! i = Some o -> issued f (os_segid o).
Proof. intros Inv Hi. by destruct (lane_at f i o Inv Hi) as [[] _]. Qed.

Lemma rotated_inv i o b f :
  FramesInv f -> fr_lanes f !! i = Some o -> fr_counter f < U64_MAX -> object_wf (os_segid o) b ->
  FramesInv (rotated i o b f).
Proof.
  intros Inv Hi Hc Hz. pose proof (lane_issued f i o Inv Hi) as Hio.
  destruct (lane_at f i o Inv Hi) as [Hl _]. destruct (next_id_unused f Inv) as (Ns & Nl & Nd).
  pose proof (rotated_lane f i o) as Hrl. destruct Inv as [L C D Se V X [Re Rc] P] eqn:EI.
  split; cbn [rotated fr_lanes fr_sealing fr_objects fr_epoch fr_counter].
  - apply Forall_lookup_2. intros j o' Hj. destruct (Hrl j o' Inv Hi Hj) as [[-> ->]|(Hne & Hj' & Hs)].
    + split; cbn; try done; [apply empty_lane_wf|split; [split; cbn; ulia|intros _; cbn; lia]|].
      rewrite lookup_insert_ne by (by apply next_id_fresh). done.
    + destruct (proj1 (Forall_lookup _ _) L j o' Hj') as [? ? ? ? ?].
      split; cbn; try done; [by apply issued_next|by rewrite lookup_insert_ne].
  - by rewrite length_insert.
  - apply NoDup_alt. intros j k s Hj Hk. rewrite list_lookup_fmap in Hj, Hk.
    apply fmap_Some in Hj as (oj & Hj & ->), Hk as (ok & Hk & Ek).
    destruct (Hrl j oj Inv Hi Hj) as [[-> ->]|(_ & Hj' & _)], (Hrl k ok Inv Hi Hk) as [[-> ->]|(_ & Hk' & _)]; try done.
    + destruct (next_id_fresh f (os_segid ok)); [by eapply lane_issued|done].
    + destruct (next_id_fresh f (os_segid oj)); [by eapply lane_issued|done].
    + eapply (NoDup_lookup _ _ _ _ D); rewrite list_lookup_fmap; [by rewrite Hj'|]. rewrite Hk'. cbn. by rewrite Ek.
  - intros s b'. rewrite lookup_insert_Some. intros [[<- <-]|[Hne Hs]].
    + split_and!; try done; [by apply issued_next|apply Hl|]. intros b'. by rewrite (lv_live _ _ Hl).
    + destruct (Se s b' Hs) as (? & ?). split; [by apply issued_next|done].
  - intros s b' Hs. destruct (V s b' Hs) as [? ?]. split; [by apply issued_next|done].
  - intros s Hs. by apply issued_next, X.
  - ulia.
  - by apply Forall_insert.
Qed.

Lemma rotated_keeps i o b more f :
  FramesInv f -> fr_lanes f !! i = Some o -> fr_counter f < U64_MAX ->
  b = os_buf o ++ more -> object_wf (os_segid o) b -> read_directory b (os_segid o) = Ok (os_dir o) ->
  keeps f (rotated i o b f).
Proof.
  intros Inv Hi Hc Hb Hz Hrd. destruct (lane_at f i o Inv Hi) as [Hl Hfind].
  pose proof (rotated_inv i o b f Inv Hi Hc Hz) as Inv'. destruct (next_id_unused f Inv) as (Ns & Nl & Nd).
  apply keeps_data; [done| |done|cbn; lia|done| | |done].
  3:{ intros s. cbn. rewrite lookup_insert_is_Some. intros [<-|[_ ?]]; [right|by left]. apply list_elem_of_fmap_2. by eapply list_elem_of_lookup_2. }
  2:{ intros o' [j Hj]%list_elem_of_lookup_1. destruct (rotated_lane f i o j o' Inv Hi Hj) as [[_ ->]|(_ & Hj' & _)].
      - intros Hbel. specialize (Hbel eq_refl). cbn in Hbel. lia.
      - intros _. apply list_elem_of_fmap_2. by eapply list_elem_of_lookup_2. }
  intros s buf dir. unfold seg_data, object_data.
  cbn [rotated fr_lanes fr_sealing fr_objects]. fold (next_id f).
  set (lanes' := <[i := mkOpen (next_id f) [] []]> (fr_lanes f)).
  assert (Hin : forall o', o' ∈ lanes' -> o' = mkOpen (next_id f) [] [] \/ o' ∈ fr_lanes f /\ os_segid o' <> os_segid o).
  { intros o' [j Hj]%list_elem_of_lookup_1. destruct (rotated_lane f i o j o' Inv Hi Hj) as [[_ ->]|(_ & Hj' & ?)]; [by left|].
    right. split; [by eapply list_elem_of_lookup_2|done]. }
  destruct (decide (s = os_segid o)) as [->|Hs].
  - rewrite Hfind. intros [= <- <-].
    assert (find_lane lanes' (os_segid o) = None) as ->.
    { apply find_lane_None. intros o' [->|[_ ?]]%Hin; [|done]. cbn. intros E.
      by apply (next_id_fresh f (os_segid o)); [eapply lane_issued|]. }
    rewrite lookup_insert_eq. unfold object_dir. rewrite Hrd, Hb. exists more, []. by rewrite app_nil_r.
  - rewrite lookup_insert_ne by done. intros Hd. exists [], []. rewrite !app_nil_r, <- Hd.
    destruct (find_lane (fr_lanes f) s) as [o'|] eqn:E.
    + apply find_lane_Some in E as [Ho' E]; [|apply Inv].
      assert (find_lane lanes' s = Some o') as ->; [|done]. apply find_lane_Some; [apply Inv'|]. split; [|done].
      apply list_elem_of_lookup_1 in Ho' as [j Hj]. apply (list_elem_of_lookup_2 _ j). unfold lanes'.
      rewrite list_lookup_insert_ne; [done|]. intros ->. congruence.
    + assert (find_lane lanes' s = None) as ->; [|done]. apply find_lane_None. intros o' Ho'.
      destruct (Hin o' Ho') as [->|[? _]]; [|by eapply find_lane_None in E].
      cbn. intros <-. by rewrite Ns, Nl, Nd in Hd.
Qed.

(** The rotation of a lane, whatever becomes of it. *)
Lemma rotate_keeps nonce i f :
  FramesInv f -> (i < OPEN_SEGMENT_LANES)%nat -> length nonce = NONCE_SIZE -> fr_counter f < U64_MAX ->
  keeps f (rotate_sealing_generation compression nonce i f).2.
Proof.
  intros Inv Hi Hn Hc.
  destruct (rotate_cases nonce i f Inv Hi Hn Hc) as (o & Ho & [[-> _]|[[-> _]|(b & more & -> & Hb & Hz & Hrd)]]);
    [by apply keeps_refl..|]. by eapply rotated_keeps.
Qed.

Lemma background_keeps s fate f :
  FramesInv f -> keeps f (background_seal s fate f) /\ fr_counter (background_seal s fate f) = fr_counter f.
Proof.
  intros Inv. unfold background_seal. destruct (fr_sealing f !! s) as [b|] eqn:E; [|by split; [apply keeps_refl|]].
  destruct (publish_keeps fate s b f Inv E) as (Hk & _ & Hc & _). by split.
Qed.

(** What the environment may choose for an append. *)
Definition frames_ready (h : AppendHint) (id : Z) (f : Frames) : Prop :=
  is_u64 id /\ (forall i, length (ah_nonce h i) = NONCE_SIZE) /\ length (ah_dir_nonce h) = NONCE_SIZE /\
  fr_counter f < U64_MAX.

Lemma spawn_seal_keeps h i f :
  FramesInv f -> (i < OPEN_SEGMENT_LANES)%nat -> length (ah_dir_nonce h) = NONCE_SIZE -> fr_counter f < U64_MAX ->
  keeps f (spawn_seal compression max_inflight_seals h i f).
Proof.
  intros Inv Hi Hn Hc. unfold spawn_seal.
  assert (Hb : forall us f, FramesInv f ->
    keeps f (foldl (fun f (sf : Segid * PutFate) => background_seal sf.1 sf.2 f) f us) /\
    fr_counter (foldl (fun f (sf : Segid * PutFate) => background_seal sf.1 sf.2 f) f us) = fr_counter f).
  { clear. induction us as [|u us IH]; intros f Inv; [by split; [apply keeps_refl|]|]. cbn [foldl].
    destruct (background_keeps u.1 u.2 f Inv) as [Hk Hc]. destruct (IH _ (kp_inv _ _ Hk)) as [Hk' Hc'].
    split; [by eapply keeps_trans|congruence]. }
  destruct (Hb (ah_uploads h) f Inv) as [Hk Hcnt]. destruct (has_residency _ _); [|done].
  eapply keeps_trans; [exact Hk|]. apply rotate_keeps; [apply Hk|done|done|by rewrite Hcnt].
Qed.

Lemma lock_append_lane_lt busy id : (lock_append_lane busy id < OPEN_SEGMENT_LANES)%nat.
Proof.
  assert (Hp : (open_lane id < OPEN_SEGMENT_LANES)%nat).
  { unfold open_lane. change (Z.of_nat OPEN_SEGMENT_LANES - 1) with (Z.ones 2). rewrite Z.land_ones by lia.
    pose proof (Z.mod_pos_bound (Z.lxor id (Z.shiftr id 32)) (2 ^ 2) ltac:(lia)). unfold OPEN_SEGMENT_LANES. lia. }
  unfold lock_append_lane. destruct (negb (busy (open_lane id))); [done|].
  destruct (List.find _ _) as [i|] eqn:E; [|done]. apply List.find_some in E as [Hi%List.in_seq _]. cbn. lia.
Qed.

Lemma compress_all_Ok ps cs :
  Forall payload_ok ps -> compress_all compression ps = Ok cs ->
  Forall2 (fun p c => codec_decompress (payload c) = Ok p.2) ps cs.
Proof.
  revert cs. induction ps as [|p ps IH]; intros cs Hp; cbn [compress_all]; [intros; by simplify_eq|].
  apply Forall_cons in Hp as [[_ Hl] Hp]. rewrite result_bind_Ok. intros (c & Hc & HR).
  apply result_bind_Ok in HR as (cs' & Hcs & [= <-]). constructor; [|by apply IH].
  by apply (decompress_compress compression).
Qed.

Lemma batch_of_frames h id ps cs i out :
  wb_frames (batch_of h id ps cs) !! i = Some out <->
  exists p c, ps !! i = Some p /\ cs !! i = Some c /\ out = mkOut p.1 p.2 c (ah_nonce h i).
Proof.
  cbn. rewrite list_lookup_imap, fmap_Some. split.
  - intros (pc & (p & c & -> & Hp & Hc)%lookup_zip_with_Some & ->). by exists p, c.
  - intros (p & c & Hp & Hc & ->). exists (p, c). split; [|done]. apply lookup_zip_with_Some. by exists p, c.
Qed.
Lemma batch_of_ok h id ps cs f0 :
  frames_ready h id f0 -> Forall payload_ok ps ->
  Forall2 (fun p c => codec_decompress (payload c) = Ok p.2) ps cs ->
  Forall out_ok (wb_frames (batch_of h id ps cs)) /\
  Forall (fun out => is_u64 (of_extent out)) (wb_frames (batch_of h id ps cs)).
Proof.
  intros (_ & Hn & _) Hp Hc. rewrite !Forall_lookup. rewrite Forall_lookup in Hp.
  split; intros i out (p & c & Hpi & Hci & ->)%batch_of_frames.
  - split; [|apply Hn]. by apply (Forall2_lookup_lr _ _ _ _ _ _ Hc Hpi Hci).
  - by apply (Hp i p Hpi).
Qed.

(** Frames of the lane just filled. *)
Lemma held_in_lane f i o id x loc d :
  FramesInv f -> fr_lanes f !! i = Some o -> fl_segid loc = os_segid o ->
  stored_in (os_buf o) (os_dir o) id x loc d -> frame_held f id x loc d.
Proof.
  intros Inv Hi Hs Hst. destruct (lane_at f i o Inv Hi) as [_ Hf]. exists (os_buf o), (os_dir o).
  split; [|done]. unfold seg_data. by rewrite Hs, Hf.
Qed.

Lemma append_batch_spec h id ps f :
  FramesInv f -> frames_ready h id f -> Forall payload_ok ps ->
  let r := append_batch compression seal_threshold max_inflight_seals h id ps f in
  keeps f r.2 /\
  (forall locs, r.1 = Ok locs ->
     Forall2 (fun p loc => frame_held r.2 id p.1 loc p.2 /\ ~ seg_dead f (fl_segid loc) /\ ~ seg_closed f (fl_segid loc)) ps locs).
Proof.
  intros Inv Hr Hp r. subst r. unfold append_batch. pose proof (keeps_refl f Inv) as Hrefl.
  destruct (compress_all compression ps) as [cs|] eqn:Hcs; [|by split].
  pose proof (compress_all_Ok ps cs Hp Hcs) as Hdec.
  destruct cs as [|c cs]; [apply Forall2_nil_inv_r in Hdec as ->; split; [done|intros ? [= <-]; constructor]|].
  set (cs' := c :: cs) in *. clearbody cs'. clear c cs. set (i := lock_append_lane (ah_busy h) id).
  assert (Hi : (i < OPEN_SEGMENT_LANES)%nat) by apply lock_append_lane_lt.
  destruct (fr_lanes f !! i) as [o|] eqn:Ho; [|by split].
  set (b := batch_of h id ps cs'). destruct (batch_of_ok h id ps cs' f Hr Hp Hdec) as [Hok Hx]. fold b in Hok, Hx.
  destruct (claim o id (batch_claim b) WIRE) as [[rs o1]|] eqn:Hcl; [|by split].
  destruct (lane_at f i o Inv Ho) as [Hl _].
  destruct (append_lane b o rs o1 (lv_wf _ _ Hl) (proj1 Hr) Hok Hx Hcl) as [[Hw1 Hg1] Hseal].
  assert (Hk1 : keeps f (set_lanes (<[i := o1]> (fr_lanes f)) f)) by by eapply set_lane_inv.
  destruct (seal_compressed_batch _ _ _) as [sealed|] eqn:Es; [|by split].
  destruct (Hseal sealed eq_refl) as (locs & o2 & -> & Hw2 & Hg2 & Hlocs). clear Hseal.
  cbn [set_lanes fr_lanes fr_sealing fr_objects fr_epoch fr_counter]. rewrite list_insert_insert_eq.
  set (f2 := mkFrames (<[i := o2]> (fr_lanes f)) (fr_sealing f) (fr_objects f) (fr_epoch f) (fr_counter f)).
  assert (Hk2 : keeps f f2) by (by eapply (set_lane_inv f i o o2)).
  set (f3 := if seal_threshold <=? zlen (os_buf o1) then spawn_seal compression max_inflight_seals h i f2 else f2).
  assert (Hk3 : keeps f2 f3).
  { unfold f3. destruct (_ <=? _); [|apply keeps_refl, Hk2].
    apply spawn_seal_keeps; [apply Hk2|done|apply Hr|apply Hr]. }
  split; [by eapply keeps_trans|]. cbn [fst snd]. intros ? [= <-].
  apply Forall2_same_length_lookup_2.
  { rewrite <- (Forall2_length _ _ _ Hlocs). unfold b. cbn. rewrite length_imap, length_zip_with.
    pose proof (Forall2_length _ _ _ Hdec). lia. }
  intros j p loc Hpj Hlj. destruct (Forall2_lookup_l _ _ _ _ _ Hdec Hpj) as (c & Hcj & _).
  assert (Hb : wb_frames b !! j = Some (mkOut p.1 p.2 c (ah_nonce h j))) by (apply batch_of_frames; by exists p, c).
  destruct (Forall2_lookup_lr _ _ _ _ _ _ Hlocs Hb Hlj) as [Hs Hst]. split; [|split].
  - apply (kp_held _ _ Hk3). eapply (held_in_lane f2 i o2); [apply Hk2| | |done].
    + apply list_lookup_insert_eq. by eapply lookup_lt_Some.
    + by rewrite Hs, (gr_segid _ _ Hg2).
  - unfold seg_dead. rewrite Hs, (lv_deleted _ _ Hl). by intros [].
  - intros (_ & Hn & _). rewrite Hs, (proj2 (lane_at f i o Inv Ho)) in Hn. done.
Qed.

(** ** Reads *)

Lemma run_segid l0 ls : is_run l0 ls -> Forall (fun l => fl_segid l = fl_segid l0) ls.
Proof.
  revert l0. induction ls as [|l ls IH]; intros l0; [constructor|]. cbn. intros [(Hs & _ & _) Hr]. constructor; [done|].
  eapply Forall_impl; [by apply IH|]. cbn. congruence.
Qed.

(** All the frames of a run are in the buffer of its segment. *)
Lemma run_stored f l0 it0 items buf dir :
  seg_data f (fl_segid l0) = Some (buf, dir) -> ri_loc it0 = l0 -> is_run l0 (map ri_loc items) ->
  Forall (fun it => frame_held f (ri_slot it).1 (ri_slot it).2 (ri_loc it) (ri_data it)) (it0 :: items) ->
  Forall (item_in buf) (it0 :: items).
Proof.
  intros Hd H0' Hr Hh. pose proof (run_segid _ _ Hr) as Hs. rewrite Forall_fmap in Hs.
  assert (Hall : Forall (fun it => fl_segid (ri_loc it) = fl_segid l0) (it0 :: items)) by (constructor; [by rewrite H0'|done]).
  rewrite !Forall_forall in *. intros it Hit. destruct (Hh it Hit) as (b & dr & Hb & Hin & _).
  rewrite (Hall it Hit), Hd in Hb. by simplify_eq.
Qed.

Lemma seg_data_cases f s buf dir :
  FramesInv f -> ~ seg_dead f s -> seg_data f s = Some (buf, dir) ->
  zlen buf <= U64_MAX /\
  ((exists o, find_lane (fr_lanes f) s = Some o /\ os_buf o = buf) \/
   find_lane (fr_lanes f) s = None /\ fr_sealing f !! s = Some buf \/
   find_lane (fr_lanes f) s = None /\ fr_sealing f !! s = None /\ ob_live (fr_objects f) !! s = Some buf).
Proof.
  intros Inv Hnd. unfold seg_data, object_data. destruct (find_lane (fr_lanes f) s) as [o|] eqn:E.
  - intros [= <- <-]. apply find_lane_Some in E as [Ho _]; [|apply Inv].
    destruct (proj1 (Forall_forall _ _) (fi_lanes _ Inv) o Ho) as [Hw _ _ _ _].
    split; [by apply lane_wf_dir|]. left. by exists o.
  - destruct (fr_sealing f !! s) as [b|] eqn:Es.
    + intros [= <- <-]. split; [by apply (fi_sealing _ Inv s b Es)|auto].
    + destruct (ob_live (fr_objects f) !! s) as [b|] eqn:El.
      * intros [= <- <-]. split; [by apply (fi_live _ Inv s b El)|auto].
      * destruct (ob_deleted (fr_objects f) !! s) eqn:Ed; [|done]. destruct Hnd. unfold seg_dead. by rewrite Ed.
Qed.

Lemma frames_read f l0 it0 items :
  FramesInv f -> ~ seg_dead f (fl_segid l0) -> ri_loc it0 = l0 -> is_run l0 (map ri_loc items) ->
  Forall (fun it => frame_held f (ri_slot it).1 (ri_slot it).2 (ri_loc it) (ri_data it)) (it0 :: items) ->
  let total := locs_len (map ri_loc (it0 :: items)) in
  let slots := map ri_slot (it0 :: items) in
  let read := read_frames_in_ram f (fl_segid l0) (fl_byte_offset l0) total (fl_frame_index l0) slots in
  read = Ok (Some (map ri_data (it0 :: items))) \/
  read = Ok None /\
  store_read_run (fr_objects f) (fl_segid l0) (fl_byte_offset l0) total (fl_frame_index l0) slots
    = Ok (map ri_data (it0 :: items)).
Proof.
  intros Inv Hnd Hl0 Hr Hh total slots read.
  assert (exists buf dir, seg_data f (fl_segid l0) = Some (buf, dir)) as (buf & dir & Hd).
  { apply Forall_cons in Hh as [(b & d & Hb & _) _]. rewrite Hl0 in Hb. eauto. }
  pose proof (run_stored f l0 it0 items buf dir Hd Hl0 Hr Hh) as Hin.
  destruct (seg_data_cases f _ buf dir Inv Hnd Hd) as [Hz Hcases].
  destruct (read_run_in_buffer buf l0 it0 items Hl0 Hr Hin Hz) as [Hlen Hread]. change (locs_len _) with total in Hlen at 1. fold total slots in Hread.
  assert (Hb : ram_bounds buf (fl_byte_offset l0) total
               = Ok (slice (Z.to_nat (fl_byte_offset l0)) (Z.to_nat (fl_byte_offset l0 + total)) buf)).
  { unfold ram_bounds.
    assert (checked_add_u64 (fl_byte_offset l0) total = Some (fl_byte_offset l0 + total)) as ->
      by (apply checked_add_u64_Some; split; [done|lia]).
    cbn [ok_or mbind result_bind]. by rewrite (proj2 (Z.leb_le _ _)) by lia. }
  subst read. unfold read_frames_in_ram.
  destruct Hcases as [(o & -> & ->)|[[-> ->]|(-> & -> & Hlive)]];
    [left; rewrite Hb; cbn [mbind result_bind]; by rewrite Hread..|right]. split; [done|].
  assert (Hpos : 0 < total /\ 0 <= fl_byte_offset l0).
  { destruct (run_in_buffer buf items l0 it0 Hl0 Hr Hin) as (pre & _ & spans & _ & Hpre & Htl & Hsl & _).
    rewrite <- Hpre. unfold total. rewrite <- Htl. split; [|apply zlen_nonneg]. destruct spans as [|sp spans]; [done|]. cbn [map concat]. rewrite zlen_app, zlen_frame_bytes.
    pose proof (zlen_nonneg (item_body sp)). pose proof (zlen_nonneg (concat (map (fun s => frame_bytes (item_body s)) spans))). lia. }
  unfold store_read_run, get_object_range. rewrite Hlive, (proj2 (Z.leb_gt _ _)) by lia. cbn [mbind result_bind]. by rewrite Hread.
Qed.

Lemma frames_dead f s o n i slots :
  FramesInv f -> seg_dead f s ->
  read_frames_in_ram f s o n i slots = Ok None /\ is_ok (store_read_run (fr_objects f) s o n i slots) = false.
Proof.
  intros Inv Hd. assert (Hl : find_lane (fr_lanes f) s = None).
  { apply find_lane_None. intros o' Ho' <-. destruct Hd as [b Hb].
    by rewrite (lv_deleted _ _ (proj1 (Forall_forall _ _) (fi_lanes _ Inv) o' Ho')) in Hb. }
  assert (Hs : fr_sealing f !! s = None).
  { apply eq_None_not_Some. intros [b Hb]. destruct (fi_sealing _ Inv s b Hb) as (_ & _ & Hn & _).
    destruct Hd. congruence. }
  assert (Hv : ob_live (fr_objects f) !! s = None).
  { apply eq_None_not_Some. intros [b Hb]. destruct (fi_live _ Inv s b Hb) as (_ & _ & Hn). destruct Hd. congruence. }
  unfold read_frames_in_ram, store_read_run, get_object_range. by rewrite Hl, Hs, Hv.
Qed.

#[export] Instance seg_dead_dec f s : Decision (seg_dead f s).
Proof. unfold seg_dead. apply _. Defined.

#[export, refine] Instance frames_laws :
  @FrameStoreLaws Frames AppendHint (frames_store compression seal_threshold max_inflight_seals) := {
  fs_inv := FramesInv; fs_ready := frames_ready; fs_held := frame_held; fs_dead := seg_dead;
  fs_closed := seg_closed; fs_stable := object_held }.
Proof.
  - intros f id x loc d d' (b & dr & Hb & Hf & _) (b' & dr' & Hb' & Hf' & _). rewrite Hb in Hb'. simplify_eq.
    by eapply frame_in_fun.
  - intros f id x loc d (b & dr & _ & (pre & body & post & _ & _ & Hl & Hu & _) & _). pose proof (zlen_nonneg body). lia.
  - intros h id ps f Inv Hr Hp. destruct (append_batch_spec h id ps f Inv Hr Hp) as [[Ki Kh Kd Kc _ Kl] Hl].
    split_and!; [exact Ki|exact Kh|exact Kd|exact Kc| |exact Hl].
    intros i x loc d (b & Hb & Hs). exists b. split; [by apply Kl|done].
  - intros f l0 it0 items Inv Hd Hl0 Hr Hh _. by apply frames_read.
  - intros f s o n i slots Inv Hd. by apply frames_dead.
Defined.

(** ** The durability barrier *)

(** A step of the barrier that leaves the lanes alone. *)
Record uploads_only (f f' : Frames) : Prop := {
  uo_keeps : keeps f f';
  uo_lanes : fr_lanes f' = fr_lanes f;
  uo_counter : fr_counter f' = fr_counter f }.

Lemma uploads_only_refl f : FramesInv f -> uploads_only f f.
Proof. intros. split; [by apply keeps_refl|done|done]. Qed.
Lemma uploads_only_trans f1 f2 f3 : uploads_only f1 f2 -> uploads_only f2 f3 -> uploads_only f1 f3.
Proof. intros [K1 L1 C1] [K2 L2 C2]. split; [by eapply keeps_trans|congruence|congruence]. Qed.

Lemma publish_step fate s b f :
  FramesInv f -> fr_sealing f !! s = Some b -> uploads_only f (publish fate s b f).2 /\
  fr_sealing (publish fate s b f).2 = (if (publish fate s b f).1 then delete s (fr_sealing f) else fr_sealing f).
Proof. intros Inv Hs. destruct (publish_keeps fate s b f Inv Hs) as (? & ? & ? & ?). by split. Qed.

Lemma publish_all fate l : forall failed f,
  FramesInv f -> NoDup l.*1 -> (forall s b, (s, b) ∈ l -> fr_sealing f !! s = Some b) ->
  let p := foldl (fun '(failed, f) '(s, b) =>
             let '(ok, f) := publish (fate s) s b f in (failed || negb ok, f)) (failed, f) l in
  uploads_only f p.2 /\
  (p.1 = false -> failed = false /\ forall s b, fr_sealing p.2 !! s = Some b -> fr_sealing f !! s = Some b /\ s ∉ l.*1).
Proof.
  induction l as [|[s b] l IH]; intros failed f Inv Hnd Hl p; subst p; cbn [foldl].
  { cbn [fst snd]. split; [by apply uploads_only_refl|]. intros ->. split; [done|]. intros s b Hs. split; [done|apply not_elem_of_nil]. }
  cbn in Hnd. apply NoDup_cons in Hnd as [Hn Hnd].
  assert (Hs : fr_sealing f !! s = Some b) by (apply Hl; left).
  destruct (publish_step (fate s) s b f Inv Hs) as [Hu Hse].
  destruct (publish (fate s) s b f) as [ok f1]. cbn [fst snd] in Hu, Hse.
  destruct (IH (failed || negb ok) f1) as [Hu' Hres]; [apply Hu|done| |].
  { intros s' b' Hi. assert (s' <> s) by (intros ->; apply Hn, list_elem_of_fmap; by exists (s, b')).
    rewrite Hse. assert (fr_sealing f !! s' = Some b') by (apply Hl; by right).
    destruct ok; [by rewrite lookup_delete_ne|done]. }
  split; [by eapply uploads_only_trans|]. intros Hf. destruct (Hres Hf) as [Hfo Hsub].
  apply orb_false_iff in Hfo as [-> Hok]. apply negb_false_iff in Hok as ->. split; [done|].
  intros s' b' Hs'. destruct (Hsub s' b' Hs') as [Hs1 Hni]. rewrite Hse in Hs1.
  apply lookup_delete_Some in Hs1 as [Hne Hs1]. split; [done|]. cbn. rewrite elem_of_cons. naive_solver.
Qed.

Lemma publish_pending_spec fate f :
  FramesInv f -> uploads_only f (publish_pending_seals fate f).2 /\
  ((publish_pending_seals fate f).1 = false -> fr_sealing (publish_pending_seals fate f).2 = ∅).
Proof.
  intros Inv. destruct (publish_all fate (map_to_list (fr_sealing f)) false f) as [Hu Hres]; [done| | |].
  - apply NoDup_fst_map_to_list.
  - intros s b. by rewrite elem_of_map_to_list.
  - split; [done|]. intros Hf. apply map_empty. intros s. apply eq_None_not_Some. intros [b Hb].
    destruct (proj2 (Hres Hf) s b Hb) as [Hs Hn]. apply Hn, list_elem_of_fmap. exists (s, b).
    split; [done|]. by apply elem_of_map_to_list.
Qed.

Lemma publish_rounds_spec env n : forall f,
  FramesInv f -> uploads_only f (publish_rounds env (S n) f).2 /\
  ((publish_rounds env (S n) f).1 = false -> fr_sealing (publish_rounds env (S n) f).2 = ∅).
Proof.
  induction n as [|n IH]; intros f Inv.
  - destruct (publish_pending_spec (fe_fate env 0%nat) f Inv) as [Hu He]. cbn [publish_rounds].
    destruct (publish_pending_seals _ f) as [[] f1]; cbn [fst snd] in *; split; auto.
  - remember (S n) as m. cbn [publish_rounds].
    destruct (publish_pending_spec (fe_fate env m) f Inv) as [Hu He].
    destruct (publish_pending_seals _ f) as [[] f1]; cbn [fst snd] in *; [by split|].
    destruct (IH f1) as [Hu' He']; [apply Hu|]. split; [by eapply uploads_only_trans|done].
Qed.

Record LoopInv (dirty : list nat) (uploads : list (Segid * bytes)) (failed : bool) (f : Frames) : Prop := {
  lo_inv : FramesInv f;
  lo_room : fr_counter f + zlen dirty <= U64_MAX;
  lo_dirty : Forall (fun i => i < OPEN_SEGMENT_LANES)%nat dirty;
  lo_uploads : forall s b, (s, b) ∈ uploads -> fr_sealing f !! s = Some b;
  lo_nodup : NoDup uploads.*1;
  lo_clean : failed = false -> forall i o, fr_lanes f !! i = Some o -> os_dir o <> [] -> i ∈ dirty;
  lo_pending : failed = false -> forall s b, fr_sealing f !! s = Some b -> (s, b) ∈ uploads }.

(** One lane of the loop: rotated, empty, or failed to seal. *)
Lemma loop_rotated i o b f dirty uploads failed :
  LoopInv (i :: dirty) uploads failed f -> fr_lanes f !! i = Some o -> object_wf (os_segid o) b ->
  LoopInv dirty (uploads ++ [(os_segid o, b)]) failed (rotated i o b f).
Proof.
  intros [Inv Hroom Hd Hu Hnd Hcl Hp] Ho Hz. rewrite zlen_cons in Hroom. pose proof (zlen_nonneg dirty).
  apply Forall_cons in Hd as [_ Hd].
  assert (Hns : fr_sealing f !! os_segid o = None) by (destruct (lane_at f i o Inv Ho) as [[] _]; done).
  assert (Hup : forall s, s ∈ uploads.*1 -> s <> os_segid o).
  { intros s (u & -> & Hin)%list_elem_of_fmap E. destruct u as [s b']. cbn in E. subst s.
    apply Hu in Hin. congruence. }
  split.
  - apply rotated_inv; try done. lia.
  - cbn. lia.
  - done.
  - intros s b' [Hin|Hin%list_elem_of_singleton]%elem_of_app; cbn [rotated fr_sealing].
    + rewrite lookup_insert_ne; [by apply Hu|]. apply not_eq_sym, Hup, list_elem_of_fmap. by exists (s, b').
    + simplify_eq. apply lookup_insert_eq.
  - rewrite fmap_app. apply NoDup_app. split_and!; [done| |apply NoDup_singleton].
    intros s Hs ->%list_elem_of_singleton. by apply (Hup _ Hs).
  - intros Hf j o' Hj Hne. destruct (rotated_lane f i o j o' Inv Ho Hj) as [[-> ->]|(Hji & Hj' & _)]; [done|].
    pose proof (Hcl Hf j o' Hj' Hne) as Hin. apply elem_of_cons in Hin as [->|?]; done.
  - intros Hf s b'. cbn [rotated fr_sealing]. rewrite lookup_insert_Some. rewrite elem_of_app, list_elem_of_singleton.
    intros [[<- <-]|[Hne Hs]]; [by right|left]. by apply Hp.
Qed.

Lemma loop_clean i f dirty uploads failed failed' :
  LoopInv (i :: dirty) uploads failed f -> (failed' = false -> failed = false) ->
  (failed' = false -> forall o, fr_lanes f !! i = Some o -> os_dir o = []) ->
  LoopInv dirty uploads failed' f.
Proof.
  intros [Inv Hroom Hd Hu Hnd Hcl Hp] Hf He. rewrite zlen_cons in Hroom. apply Forall_cons in Hd as [_ Hd].
  split; try done; [lia| |intros Hf'; by apply Hp, Hf].
  intros Hf' j o Hj Hne. pose proof (Hcl (Hf Hf') j o Hj Hne) as Hin.
  apply elem_of_cons in Hin as [->|?]; [|done].
  destruct Hne. by apply (He Hf').
Qed.

Definition env_ok (env : FlushEnv) : Prop := forall i, length (fe_nonce env i) = NONCE_SIZE.

Lemma rotate_dirty_spec env dirty : forall uploads failed f dirty' uploads' failed' f',
  env_ok env -> LoopInv dirty uploads failed f ->
  rotate_dirty compression max_inflight_seals env dirty uploads failed f = (dirty', uploads', failed', f') ->
  LoopInv dirty' uploads' failed' f' /\ keeps f f' /\
  (length dirty' + length uploads' <= length dirty + length uploads)%nat.
Proof.
  induction dirty as [|i dirty IH]; intros uploads failed f dirty' uploads' failed' f' Henv HL; cbn [rotate_dirty].
  { intros [= <- <- <- <-]. split; [done|]. split; [apply keeps_refl, HL|lia]. }
  destruct (has_residency max_inflight_seals f).
  2:{ intros [= <- <- <- <-]. split; [done|]. split; [apply keeps_refl, HL|lia]. }
  pose proof (lo_inv _ _ _ _ HL) as Inv. pose proof (lo_dirty _ _ _ _ HL) as Hd. apply Forall_cons in Hd as [Hi _].
  pose proof (lo_room _ _ _ _ HL) as Hroom. rewrite zlen_cons in Hroom. pose proof (zlen_nonneg dirty).
  assert (Hc : fr_counter f < U64_MAX) by lia.
  destruct (rotate_cases (fe_nonce env i) i f Inv Hi (Henv i) Hc)
    as (o & Ho & [[-> He]|[[-> _]|(b & more & -> & Hb & Hz & Hrd)]]); intros HR.
  - destruct (IH _ _ _ _ _ _ _ Henv (loop_clean _ _ _ _ _ failed HL id ltac:(intros _ o' Ho'; by simplify_eq)) HR)
      as (? & ? & ?). split_and!; try done. cbn. lia.
  - destruct (IH _ _ _ _ _ _ _ Henv (loop_clean _ _ _ _ _ true HL ltac:(done) ltac:(done)) HR)
      as (? & ? & ?). split_and!; try done. cbn. lia.
  - destruct (IH _ _ _ _ _ _ _ Henv (loop_rotated _ _ _ _ _ _ _ HL Ho Hz) HR) as (? & Hk & Hlen).
    split; [done|]. split; [eapply keeps_trans; [by eapply rotated_keeps|done]|].
    rewrite length_app in Hlen. cbn in *. lia.
Qed.

(** Nothing is left in memory. *)
Definition settled (f : Frames) : Prop :=
  fr_sealing f = ∅ /\ Forall (fun o => os_dir o = []) (fr_lanes f).

Lemma next_upload_cases k uploads :
  match next_upload k uploads with
  | None => uploads = []
  | Some (u, rest) => exists i, uploads !! i = Some u /\ rest = delete i uploads
  end.
Proof.
  unfold next_upload. destruct (uploads !! _) as [u|] eqn:E; [eauto|]. destruct uploads as [|u us]; [done|].
  apply lookup_ge_None in E. pose proof (Nat.mod_upper_bound k (Nat.max 1 (length (u :: us))) ltac:(lia)). cbn in *. lia.
Qed.

Lemma loop_published fate s b dirty uploads rest failed f :
  LoopInv dirty uploads failed f -> uploads ≡ₚ (s, b) :: rest ->
  let p := publish fate s b f in
  LoopInv dirty rest (failed || negb p.1) p.2 /\ keeps f p.2.
Proof.
  intros [Inv Hroom Hd Hu Hnd Hcl Hp] Hperm p.
  assert (Hs : fr_sealing f !! s = Some b) by (apply Hu; rewrite Hperm; left).
  rewrite Hperm in Hnd. cbn in Hnd. apply NoDup_cons in Hnd as [Hn Hnd].
  destruct (publish_step fate s b f Inv Hs) as [[Hk Hl Hc] Hse]. subst p.
  destruct (publish fate s b f) as [ok f1]. cbn [fst snd] in *. split; [|done].
  split; try done.
  - apply Hk.
  - by rewrite Hc.
  - intros s' b' Hin. assert (s' <> s) by (intros ->; apply Hn, list_elem_of_fmap; by exists (s, b')).
    assert (fr_sealing f !! s' = Some b') by (apply Hu; rewrite Hperm; by right).
    rewrite Hse. destruct ok; [by rewrite lookup_delete_ne|done].
  - rewrite Hl. intros [Hf _]%orb_false_iff. by apply Hcl.
  - intros [Hf Hok]%orb_false_iff s' b'. apply negb_false_iff in Hok as ->. rewrite Hse.
    intros [Hne Hs']%lookup_delete_Some. apply (Hp Hf) in Hs'. rewrite Hperm in Hs'.
    apply elem_of_cons in Hs' as [[= -> ->]|?]; done.
Qed.

Lemma seal_loop_spec env fuel : forall dirty uploads failed f,
  env_ok env -> LoopInv dirty uploads failed f -> (length dirty + length uploads < fuel)%nat ->
  exists r f', seal_loop compression max_inflight_seals env fuel dirty uploads failed f = (Some r, f') /\
    keeps f f' /\ (r = Ok tt -> settled f').
Proof.
  induction fuel as [|fuel IH]; intros dirty uploads failed f Henv HL Hlen; [lia|]. cbn [seal_loop].
  destruct (rotate_dirty _ _ _ _ _ _ _) as [[[dirty1 uploads1] failed1] f1] eqn:Er.
  destruct (rotate_dirty_spec _ _ _ _ _ _ _ _ _ Henv HL Er) as (HL1 & Hk1 & Hlen1).
  pose proof (next_upload_cases (fe_pick env fuel) uploads1) as Hn.
  destruct (next_upload _ uploads1) as [[[s b] rest]|].
  - destruct Hn as (i & Hi & ->). pose proof (delete_Permutation _ _ _ Hi) as Hperm.
    destruct (loop_published (fe_fate env (OPEN_SEGMENT_LANES + 1 + fuel)%nat s) s b dirty1 uploads1 _ failed1 f1 HL1 Hperm)
      as [HL2 Hk2].
    destruct (publish _ s b f1) as [ok f2]. cbn [fst snd] in *.
    destruct (IH dirty1 (delete i uploads1) (failed1 || negb ok) f2) as (r & f' & -> & Hk3 & Hr); [done|done| |].
    { apply Permutation_length in Hperm. cbn in Hperm. lia. }
    exists r, f'. split; [done|]. split; [|done]. eapply keeps_trans; [done|]. by eapply keeps_trans.
  - subst uploads1. eexists _, f1. split; [done|]. split; [done|].
    destruct failed1; [done|]. case_bool_decide as Hd; [|done]. cbn. intros _. subst dirty1. split.
    + apply map_empty. intros s. apply eq_None_not_Some. intros [b Hb].
      by apply (lo_pending _ _ _ _ HL1 eq_refl), not_elem_of_nil in Hb.
    + apply Forall_lookup_2. intros i o Ho. destruct (decide (os_dir o = [])) as [|Hne]; [done|].
      by apply (lo_clean _ _ _ _ HL1 eq_refl i o Ho), not_elem_of_nil in Hne.
Qed.

Lemma dirty_lanes_spec f i : FramesInv f ->
  i ∈ dirty_lanes f <-> exists o, fr_lanes f !! i = Some o /\ os_dir o <> [].
Proof.
  intros Inv. unfold dirty_lanes. rewrite list_elem_of_In, List.filter_In, List.in_seq. split.
  - intros [_ Hb]. destruct (fr_lanes f !! i) as [o|]; [|done]. exists o. split; [done|]. by case_bool_decide.
  - intros (o & Ho & Hne). apply lookup_lt_Some in Ho as Hlt. rewrite (fi_count _ Inv) in Hlt. split; [lia|].
    by rewrite Ho, bool_decide_false.
Qed.

Lemma loop_start f :
  FramesInv f -> fr_counter f + Z.of_nat OPEN_SEGMENT_LANES <= U64_MAX -> fr_sealing f = ∅ ->
  LoopInv (dirty_lanes f) [] false f.
Proof.
  intros Inv Hroom He.
  assert (Hlen : (length (dirty_lanes f) <= OPEN_SEGMENT_LANES)%nat).
  { unfold dirty_lanes. etrans; [apply List.filter_length_le|]. by rewrite length_seq. }
  split; try done.
  - unfold zlen. lia.
  - apply Forall_forall. intros i Hi. unfold dirty_lanes in Hi.
    rewrite list_elem_of_In, List.filter_In, List.in_seq in Hi. lia.
  - intros s b ?%not_elem_of_nil. done.
  - constructor.
  - intros _ i o Ho Hne. apply dirty_lanes_spec; [done|]. by exists o.
  - intros _ s b. by rewrite He.
Qed.

(** The barrier returns, keeps every frame, and on success leaves nothing in memory. *)
Lemma seal_open_spec env f :
  FramesInv f -> env_ok env -> fr_counter f + Z.of_nat OPEN_SEGMENT_LANES <= U64_MAX ->
  exists r f', seal_open compression max_inflight_seals env f = (Some r, f') /\ keeps f f' /\
    (r = Ok tt -> settled f').
Proof.
  intros Inv Henv Hroom. unfold seal_open.
  destruct (publish_rounds_spec env OPEN_SEGMENT_LANES f Inv) as [[Hk Hl Hc] He].
  change (OPEN_SEGMENT_LANES + 1)%nat with (S OPEN_SEGMENT_LANES).
  destruct (publish_rounds env (S OPEN_SEGMENT_LANES) f) as [failed f1]. cbn [fst snd] in *.
  destruct failed; [by exists (Err IoError), f1|]. specialize (He eq_refl).
  pose proof (kp_inv _ _ Hk) as Inv1. case_bool_decide as Hd.
  - exists (Ok tt), f1. split_and!; try done. intros _. split; [done|]. apply Forall_lookup_2. intros i o Ho.
    destruct (decide (os_dir o = [])) as [|Hne]; [done|]. exfalso. apply (not_elem_of_nil i). rewrite <- Hd.
    apply dirty_lanes_spec; [done|]. by exists o.
  - destruct (seal_loop_spec env (S (length (dirty_lanes f1))) (dirty_lanes f1) [] false f1) as (r & f' & E & Hk' & Hr).
    + done.
    + apply loop_start; [done|by rewrite Hc|done].
    + cbn. lia.
    + exists r, f'. split; [done|]. split; [by eapply keeps_trans|done].
Qed.

(** *** Success when nothing is lost *)

(** Every upload is delivered, and the open lanes can be sealed. *)
Definition env_delivers (env : FlushEnv) : Prop := forall n s, delivers (fe_fate env n s) = true.
Definition sealable (env : FlushEnv) (f : Frames) : Prop :=
  forall i o, fr_lanes f !! i = Some o -> os_dir o <> [] ->
    is_ok (finalize_segment compression (fe_nonce env i) (os_segid o) (os_buf o) (os_dir o) (counter (os_segid o))) = true.

Lemma publish_delivers fate s b f :
  FramesInv f -> fr_sealing f !! s = Some b -> delivers fate = true -> (publish fate s b f).1 = true.
Proof.
  intros Inv Hs Hd. unfold publish.
  pose proof (put_segment_delivers fate s b (fr_objects f) Hd) as Hp.
  destruct (put_segment fate s b (fr_objects f)) as [[u|] ob]; [done|].
  discriminate Hp. by apply (fi_sealing _ Inv).
Qed.

Lemma publish_rounds_delivers env n : forall f,
  env_delivers env -> FramesInv f -> (publish_rounds env n f).1 = false.
Proof.
  induction n as [|n IH]; intros f Henv Inv; [done|]. cbn [publish_rounds].
  assert (Hok : (publish_pending_seals (fe_fate env n) f).1 = false).
  { unfold publish_pending_seals.
    assert (Hall : forall l f, FramesInv f -> NoDup l.*1 -> (forall s b, (s, b) ∈ l -> fr_sealing f !! s = Some b) ->
      (foldl (fun '(failed, f) '(s, b) =>
         let '(ok, f) := publish (fe_fate env n s) s b f in (failed || negb ok, f)) (false, f) l).1 = false).
    { clear f Inv. induction l as [|[s b] l IHl]; intros f Inv Hnd Hl; [done|]. cbn [foldl].
      cbn in Hnd. apply NoDup_cons in Hnd as [Hn Hnd].
      assert (Hs : fr_sealing f !! s = Some b) by (apply Hl; left).
      pose proof (publish_delivers _ s b f Inv Hs (Henv n s)) as Hd.
      destruct (publish_step (fe_fate env n s) s b f Inv Hs) as [Hu Hse].
      destruct (publish _ s b f) as [ok f1]. cbn [fst snd] in *. subst ok. cbn [negb orb].
      apply IHl; [apply Hu|done|]. intros s' b' Hi.
      assert (s' <> s) by (intros ->; apply Hn, list_elem_of_fmap; by exists (s, b')).
      rewrite Hse, lookup_delete_ne by done. apply Hl. by right. }
    apply Hall; [done|apply NoDup_fst_map_to_list|]. intros s b. by rewrite elem_of_map_to_list. }
  destruct (publish_pending_spec (fe_fate env n) f Inv) as [Hu _].
  destruct (publish_pending_seals _ f) as [failed f1]. cbn [fst snd] in *. subst failed. by apply IH; [|apply Hu].
Qed.

Lemma rotate_dirty_success env dirty : forall uploads f dirty' uploads' failed' f',
  env_ok env -> LoopInv dirty uploads false f -> sealable env f ->
  rotate_dirty compression max_inflight_seals env dirty uploads false f = (dirty', uploads', failed', f') ->
  failed' = false /\ sealable env f' /\ (dirty' <> [] -> has_residency max_inflight_seals f' = false).
Proof.
  induction dirty as [|i dirty IH]; intros uploads f dirty' uploads' failed' f' Henv HL Hse; cbn [rotate_dirty].
  { by intros [= <- <- <- <-]. }
  destruct (has_residency max_inflight_seals f) eqn:Er; [|by intros [= <- <- <- <-]].
  pose proof (lo_inv _ _ _ _ HL) as Inv. pose proof (lo_dirty _ _ _ _ HL) as Hd. apply Forall_cons in Hd as [Hi _].
  pose proof (lo_room _ _ _ _ HL) as Hroom. rewrite zlen_cons in Hroom. pose proof (zlen_nonneg dirty).
  assert (Hc : fr_counter f < U64_MAX) by lia.
  destruct (rotate_cases (fe_nonce env i) i f Inv Hi (Henv i) Hc)
    as (o & Ho & [[-> He]|[(_ & Hne & Hno)|(b & more & -> & Hb & Hz & Hrd)]]); intros HR.
  - by eapply IH; [done|eapply (loop_clean _ _ _ _ _ false HL); [done|intros _ o' Ho'; by simplify_eq]|done|exact HR].
  - specialize (Hse i o Ho Hne). congruence.
  - eapply IH; [done|by eapply loop_rotated|  |exact HR].
    intros j o' Hj Hne. destruct (rotated_lane f i o j o' Inv Ho Hj) as [[-> ->]|(_ & Hj' & _)]; [done|by apply Hse].
Qed.

Lemma seal_loop_success env fuel : forall dirty uploads f,
  env_ok env -> env_delivers env -> 0 < max_inflight_seals -> LoopInv dirty uploads false f -> sealable env f ->
  (length dirty + length uploads < fuel)%nat ->
  (seal_loop compression max_inflight_seals env fuel dirty uploads false f).1 = Some (Ok tt).
Proof.
  induction fuel as [|fuel IH]; intros dirty uploads f Henv Hdel Hmax HL Hse Hlen; [lia|]. cbn [seal_loop].
  destruct (rotate_dirty _ _ _ _ _ _ _) as [[[dirty1 uploads1] failed1] f1] eqn:Er.
  destruct (rotate_dirty_spec _ _ _ _ _ _ _ _ _ Henv HL Er) as (HL1 & _ & Hlen1).
  destruct (rotate_dirty_success _ _ _ _ _ _ _ _ Henv HL Hse Er) as (-> & Hse1 & Hres).
  pose proof (next_upload_cases (fe_pick env fuel) uploads1) as Hn.
  destruct (next_upload _ uploads1) as [[[s b] rest]|].
  - destruct Hn as (i & Hi & ->). pose proof (delete_Permutation _ _ _ Hi) as Hperm.
    assert (Hsb : fr_sealing f1 !! s = Some b) by (apply (lo_uploads _ _ _ _ HL1); rewrite Hperm; left).
    set (fate := fe_fate env (OPEN_SEGMENT_LANES + 1 + fuel)%nat s).
    pose proof (publish_delivers fate s b f1 (lo_inv _ _ _ _ HL1) Hsb (Hdel _ _)) as Hp.
    destruct (publish_step fate s b f1 (lo_inv _ _ _ _ HL1) Hsb) as [[_ Hl _] _].
    destruct (loop_published fate s b dirty1 uploads1 _ false f1 HL1 Hperm) as [HL2 _].
    destruct (publish fate s b f1) as [ok f2]. cbn [fst snd] in *. subst ok. apply IH; try done.
    + unfold sealable. by rewrite Hl.
    + apply Permutation_length in Hperm. cbn in Hperm. lia.
  - subst uploads1. cbn. rewrite bool_decide_true; [done|]. destruct (decide (dirty1 = [])) as [|Hd]; [done|].
    specialize (Hres Hd). unfold has_residency in Hres.
    assert (Hempty : fr_sealing f1 = ∅).
    { apply map_empty. intros s. apply eq_None_not_Some. intros [b Hb].
      by apply (lo_pending _ _ _ _ HL1 eq_refl), not_elem_of_nil in Hb. }
    rewrite Hempty, map_size_empty in Hres. cbn in Hres. apply Z.ltb_ge in Hres. lia.
Qed.

Lemma seal_open_success env f :
  FramesInv f -> env_ok env -> env_delivers env -> 0 < max_inflight_seals -> sealable env f ->
  fr_counter f + Z.of_nat OPEN_SEGMENT_LANES <= U64_MAX ->
  (seal_open compression max_inflight_seals env f).1 = Some (Ok tt).
Proof.
  intros Inv Henv Hdel Hmax Hse Hroom. unfold seal_open. change (OPEN_SEGMENT_LANES + 1)%nat with (S OPEN_SEGMENT_LANES).
  pose proof (publish_rounds_delivers env (S OPEN_SEGMENT_LANES) f Hdel Inv) as Hf.
  destruct (publish_rounds_spec env OPEN_SEGMENT_LANES f Inv) as [[Hk Hl Hc] He].
  destruct (publish_rounds env (S OPEN_SEGMENT_LANES) f) as [failed f1]. cbn [fst snd] in *. subst failed.
  case_bool_decide as Hd; [done|]. apply seal_loop_success; try done.
  - apply loop_start; [apply Hk|by rewrite Hc|by apply He].
  - unfold sealable. by rewrite Hl.
  - cbn. lia.
Qed.

(** ** Reopening after a crash *)

Lemma settled_on_store f id x loc d :
  FramesInv f -> settled f -> frame_held f id x loc d -> ~ seg_dead f (fl_segid loc) ->
  object_held f id x loc d.
Proof.
  intros Inv [Hs Hl] (buf & dir & Hd & Hst) Hnd. unfold seg_data, object_data in Hd.
  destruct (find_lane (fr_lanes f) (fl_segid loc)) as [o|] eqn:E.
  - apply find_lane_Some in E as [Ho _]; [|apply Inv]. injection Hd as <- <-.
    rewrite (proj1 (Forall_forall _ _) Hl o Ho) in Hst. by destruct Hst as (_ & ?%not_elem_of_nil & _).
  - rewrite Hs, lookup_empty in Hd. destruct (ob_live (fr_objects f) !! fl_segid loc) as [b|] eqn:El; [injection Hd as <- <-; by exists b|].
    destruct (ob_deleted (fr_objects f) !! fl_segid loc) eqn:Ed; [|done]. destruct Hnd. unfold seg_dead. by rewrite Ed.
Qed.

(** The epoch of a new writer is above every epoch in use. *)
Definition epoch_above (e : Z) (ob : ObjectStore) : Prop :=
  is_u64 e /\
  forall s, is_Some (ob_live ob !! s) \/ is_Some (ob_deleted ob !! s) -> epoch s < e.

Definition objects_wf (ob : ObjectStore) : Prop :=
  (forall s b, ob_live ob !! s = Some b -> Segid_wf s /\ object_wf s b /\ ob_deleted ob !! s = None) /\
  (forall s, is_Some (ob_deleted ob !! s) -> Segid_wf s).
Lemma frames_objects_wf f : FramesInv f -> objects_wf (fr_objects f).
Proof.
  intros Inv. split.
  - intros s b Hb. by destruct (fi_live _ Inv s b Hb) as ([? _] & ? & ?).
  - intros s Hs. by destruct (fi_deleted _ Inv s Hs).
Qed.

Lemma new_frames_inv e ob : objects_wf ob -> epoch_above e ob -> FramesInv (new_frames e ob).
Proof.
  intros [Hlw Hdw] [He Hab].
  assert (Hiss : forall s, is_Some (ob_live ob !! s) \/ is_Some (ob_deleted ob !! s) -> issued (new_frames e ob) s).
  { intros s Hs. split; [|intros E; specialize (Hab s Hs); cbn in E; lia].
    destruct Hs as [[b Hb]|Hb]; [by destruct (Hlw s b Hb)|by apply Hdw]. }
  split.
  - apply Forall_lookup_2. cbn [new_frames fr_lanes]. intros i o Ho. rewrite list_lookup_fmap in Ho.
    apply fmap_Some in Ho as (k & Hk & ->). apply lookup_seq in Hk as [-> Hk].
    assert (Hnone : forall m : gmap Segid bytes, (forall s, is_Some (m !! s) -> epoch s < e) -> m !! mkSegid e (Z.of_nat (0 + i)) = None).
    { intros m Hm. apply eq_None_not_Some. intros Hs%Hm. cbn in Hs. lia. }
    split; cbn [os_segid new_frames fr_sealing fr_objects].
    + apply empty_lane_wf.
    + unfold OPEN_SEGMENT_LANES in Hk. split; [split; cbn; ulia|]. intros _. cbn. unfold OPEN_SEGMENT_LANES. lia.
    + apply lookup_empty.
    + apply Hnone. intros s Hs. apply Hab. by left.
    + apply Hnone. intros s Hs. apply Hab. by right.
  - done.
  - cbn. repeat constructor; set_solver.
  - intros s b. cbn. by rewrite lookup_empty.
  - intros s b Hb. cbn in Hb. destruct (Hlw s b Hb) as (_ & ? & ?). split; [apply Hiss; left; by rewrite Hb|done].
  - intros s Hs. apply Hiss. by right.
  - cbn. unfold OPEN_SEGMENT_LANES. split; [done|ulia].
  - cbn. by repeat constructor.
Qed.

(** What was on the store is held by the store opened over it. *)
Lemma reopened_object f e id x loc d :
  FramesInv f -> epoch_above e (fr_objects f) -> object_held f id x loc d ->
  frame_held (new_frames e (fr_objects f)) id x loc d /\ ~ seg_dead (new_frames e (fr_objects f)) (fl_segid loc).
Proof.
  intros Inv Hab (b & Hb & Hst). split.
  2:{ unfold seg_dead. cbn. destruct (fi_live _ Inv _ _ Hb) as (_ & _ & ->). by intros []. }
  exists b, (object_dir (fl_segid loc) b). split; [|done]. unfold seg_data, object_data.
  assert (find_lane (fr_lanes (new_frames e (fr_objects f))) (fl_segid loc) = None) as ->.
  { apply find_lane_None. intros o Ho E. apply list_elem_of_fmap in Ho as (k & -> & _). cbn in E.
    assert (epoch (fl_segid loc) < e) by (apply Hab; left; by rewrite Hb). rewrite <- E in *. cbn in *. lia. }
  cbn [new_frames fr_sealing fr_objects]. by rewrite lookup_empty, Hb.
Qed.
End laws.
