(* ===== verification/Extent.v ===== *)
(** * The data plane

    File contents as extents of [EXTENT_SIZE] bytes: [fs/store/extent/read.rs] and
    [fs/store/extent/write.rs] over the frame store interface, with the tail cache and the
    cache of decoded frames.  Reads and the read-modify-write paths of writes are
    sequential here; the code runs them concurrently and collects the results.  The
    location cache holds what the database holds, so locations are read from the
    database. *)

From S2P Require Import Prelude Errors FrameCodec Segment Lanes FrameStore Inode Dedup Store.

(** A request fails with an error, or panics (an index out of range). *)
Inductive Fault := Fs (e : FsError) | Panic.

Definition ES : nat := Z.to_nat EXTENT_SIZE.
Definition ZERO_EXTENT : bytes := replicate ES 0.
Definition OLD_DEBIT_POINT_LOOKUPS_MAX : Z := 32.

Inductive TailUpdate := TailKeep | TailSet (extent_idx : Z) (data : bytes) | TailClear.

(** [&data[a..b]] and [buf[a..b].copy_from_slice(src)], which panic out of range. *)
Definition slice_checked (a b : Z) (data : bytes) : option bytes :=
  if (0 <=? a) && (a <=? b) && (b <=? zlen data)
  then Some (slice (Z.to_nat a) (Z.to_nat b) data) else None.
Definition copy_checked (a b : Z) (src buf : bytes) : option bytes :=
  if (0 <=? a) && (a <=? b) && (b <=? zlen buf) && (zlen src =? b - a)
  then Some (copy_at (Z.to_nat a) src buf) else None.

Section extent.
Context {S Hint : Type} `{FrameStore S Hint}.

Record ExtentStore := mkES {
  es_frames : S;
  es_tail : gmap Z (Z * bytes);               (* tail_cache *)
  es_decoded : gmap (Z * Z * FrameLoc) bytes  (* decoded frames by identity *) }.

Abbreviation E := (stM ExtentStore Fault).

Definition set_frames (s : S) (e : ExtentStore) : ExtentStore := mkES s (es_tail e) (es_decoded e).
Definition tail_get (e : ExtentStore) (id : Z) : option (Z * bytes) := es_tail e !! id.
Definition tail_set (id x : Z) (d : bytes) (e : ExtentStore) : ExtentStore :=
  mkES (es_frames e) (<[id := (x, d)]> (es_tail e)) (es_decoded e).
Definition tail_invalidate (id : Z) (e : ExtentStore) : ExtentStore :=
  mkES (es_frames e) (delete id (es_tail e)) (es_decoded e).
Definition decoded_insert (id x : Z) (loc : FrameLoc) (d : bytes) (e : ExtentStore) : ExtentStore :=
  mkES (es_frames e) (es_tail e) (<[(id, x, loc) := d]> (es_decoded e)).

Definition modify (g : ExtentStore -> ExtentStore) : E unit := fun e => (Ok tt, g e).
Definition liftE {A} (r : result FsError A) : E A :=
  fun e => (match r with Ok a => Ok a | Err x => Err (Fs x) end, e).
Definition orPanic {A} (o : option A) : E A := fun e => (ok_or Panic o, e).

Definition extent_span (offset len : Z) : option (Z * Z) :=
  match checked_add_u64 offset len with
  | None => None
  | Some end_offset =>
      if len =? 0 then None else Some (offset / EXTENT_SIZE, (end_offset - 1) / EXTENT_SIZE)
  end.

Definition apply_tail_update (id : Z) (u : TailUpdate) (e : ExtentStore) : ExtentStore :=
  match u with
  | TailSet x d => tail_set id x d e
  | TailClear => tail_invalidate id e
  | TailKeep => e
  end.

(** ** Reading *)

Definition validate_extent_frame (data : bytes) : result FsError unit :=
  if negb (length data =? ES)%nat then Err IoError else Ok tt.

(** The frame of one location; an object read that failed is handed back. *)
Definition fetch_frame (id x : Z) (loc : FrameLoc) : E (result SegmentStoreError bytes) :=
  e ← getS;
  r ← liftE (fs_in_ram (es_frames e) (fl_segid loc) (fl_byte_offset loc) (fl_byte_len loc)
               (fl_frame_index loc) [(id, x)]);
  match r with
  | Some frames =>
      frame ← orPanic (last frames);
      _ ← liftE (validate_extent_frame frame);
      _ ← modify (decoded_insert id x loc frame);
      mret (Ok frame)
  | None =>
      match fs_read_run (es_frames e) (fl_segid loc) (fl_byte_offset loc) (fl_byte_len loc)
              (fl_frame_index loc) [(id, x)] with
      | Ok frames =>
          frame ← orPanic (last frames);
          _ ← liftE (validate_extent_frame frame);
          _ ← modify (decoded_insert id x loc frame);
          mret (Ok frame)
      | Err err => mret (Err err)
      end
  end.

(** [get]: the location is resolved in [db]; a frame that cannot be read any more is
    resolved again, in [redb], because garbage collection may have moved it. *)
Definition extent_get (db redb : Db) (id x : Z) : E (option bytes) :=
  match extents db !! (id, x) with
  | None => mret None
  | Some loc =>
      e ← getS;
      match es_decoded e !! (id, x, loc) with
      | Some frame => mret (Some frame)
      | None =>
          r ← fetch_frame id x loc;
          match r with
          | Ok b => mret (Some b)
          | Err _ =>
              match extents redb !! (id, x) with
              | None => mret None
              | Some new_loc =>
                  if bool_decide (fl_segid new_loc <> fl_segid loc) then
                    r' ← fetch_frame id x new_loc;
                    match r' with Ok b => mret (Some b) | Err _ => throwS (Fs IoError) end
                  else throwS (Fs IoError)
              end
          end
      end
  end.

(** ** Run-coalesced range reads *)

Inductive PlannedPiece :=
| PBytes (b : bytes)
| PReady (start_extent : Z) (frames : list bytes)
| POnStore (start_extent : Z) (first : FrameLoc) (total_len : Z) (slots : list (Z * Z)).

(** The inner loop: the frames that continue the run ending at [prev]. *)
Fixpoint run_members (prev : FrameLoc) (rest : list (Z * option FrameLoc)) : list (Z * FrameLoc) :=
  match rest with
  | (x, Some loc) :: rest' =>
      if bool_decide (follows prev loc) then (x, loc) :: run_members loc rest' else []
  | _ => []
  end.

(** The byte range of an extent that the read asks for. *)
Definition read_slice (start_extent end_extent start_offset stop x : Z) : Z * Z :=
  (if x =? start_extent then start_offset else 0,
   if x =? end_extent then (stop - 1) mod EXTENT_SIZE + 1 else EXTENT_SIZE).

Definition decoded_run (e : ExtentStore) (id : Z) (run : list (Z * FrameLoc)) : option (list bytes) :=
  mapM (fun p => es_decoded e !! (id, p.1, p.2)) run.

(** The outer loop, over the extents with their locations. *)
Fixpoint plan_pieces (fuel : nat) (id : Z) (slice_of : Z -> Z * Z) (locs : list (Z * option FrameLoc))
    : E (list PlannedPiece) :=
  match fuel, locs with
  | O, _ | _, [] => mret []
  | Datatypes.S fuel, (x, None) :: rest =>
      b ← orPanic (slice_checked (slice_of x).1 (slice_of x).2 ZERO_EXTENT);
      ps ← plan_pieces fuel id slice_of rest;
      mret (PBytes b :: ps)
  | Datatypes.S fuel, (x, Some first) :: rest =>
      let more := run_members first rest in
      let total_len := u32_wrap (locs_len (first :: map snd more)) in
      let slots := map (fun p => (id, p.1)) ((x, first) :: more) in
      e ← getS;
      piece ← match decoded_run e id ((x, first) :: more) with
              | Some frames => mret (PReady x frames)
              | None =>
                  r ← liftE (fs_in_ram (es_frames e) (fl_segid first) (fl_byte_offset first) total_len
                               (fl_frame_index first) slots);
                  match r with
                  | Some frames => mret (PReady x frames)
                  | None => mret (POnStore x first total_len slots)
                  end
              end;
      ps ← plan_pieces fuel id slice_of (drop (length more) rest);
      mret (piece :: ps)
  end.

Fixpoint get_slots (db redb : Db) (slots : list (Z * Z)) : E (list bytes) :=
  match slots with
  | [] => mret []
  | (fid, fext) :: rest =>
      d ← extent_get db redb fid fext;
      ds ← get_slots db redb rest;
      mret (default ZERO_EXTENT d :: ds)
  end.

Definition fetch_on_store_run (db redb : Db) (first : FrameLoc) (total_len : Z) (slots : list (Z * Z))
    : E (list bytes) :=
  e ← getS;
  match fs_read_run (es_frames e) (fl_segid first) (fl_byte_offset first) total_len
          (fl_frame_index first) slots with
  | Ok frames => mret frames
  | Err _ => get_slots db redb slots
  end.

(** The frames of a piece, fetched when it is on the object store. *)
Definition piece_frames (db redb : Db) (p : PlannedPiece) : E (bytes + Z * list bytes) :=
  match p with
  | PBytes b => mret (inl b)
  | PReady x frames => mret (inr (x, frames))
  | POnStore x first total_len slots =>
      frames ← fetch_on_store_run db redb first total_len slots; mret (inr (x, frames))
  end.
Fixpoint fetch_pieces (db redb : Db) (ps : list PlannedPiece) : E (list (bytes + Z * list bytes)) :=
  match ps with
  | [] => mret []
  | p :: ps => f ← piece_frames db redb p; fs ← fetch_pieces db redb ps; mret (f :: fs)
  end.

Fixpoint emit_frames (loc_of : Z -> option FrameLoc) (id : Z) (slice_of : Z -> Z * Z) (x : Z)
    (frames : list bytes) : E bytes :=
  match frames with
  | [] => mret []
  | frame :: rest =>
      _ ← liftE (validate_extent_frame frame);
      loc ← orPanic (loc_of x);
      _ ← modify (decoded_insert id x loc frame);
      b ← orPanic (slice_checked (slice_of x).1 (slice_of x).2 frame);
      bs ← emit_frames loc_of id slice_of (x + 1) rest;
      mret (b ++ bs)
  end.
Fixpoint emit_pieces (loc_of : Z -> option FrameLoc) (id : Z) (slice_of : Z -> Z * Z)
    (ps : list (bytes + Z * list bytes)) : E bytes :=
  match ps with
  | [] => mret []
  | inl b :: ps => bs ← emit_pieces loc_of id slice_of ps; mret (b ++ bs)
  | inr (x, frames) :: ps =>
      b ← emit_frames loc_of id slice_of x frames;
      bs ← emit_pieces loc_of id slice_of ps;
      mret (b ++ bs)
  end.

(** [read_range]: locations resolved in [db], resolved again in [redb] after a failed
    object read. *)
Definition read_range (db redb : Db) (id offset length : Z) : E bytes :=
  if length =? 0 then mret []
  else
    let stop := u64_wrap (offset + length) in
    let start_extent := offset / EXTENT_SIZE in
    let end_extent := (stop - 1) / EXTENT_SIZE in
    let start_offset := offset mod EXTENT_SIZE in
    if start_extent =? end_extent then
      let extent_end := start_offset + length in
      d ← extent_get db redb id start_extent;
      orPanic (slice_checked start_offset extent_end (default ZERO_EXTENT d))
    else
      let xs := seqZ start_extent (end_extent - start_extent + 1) in
      let loc_of := fun x => extents db !! (id, x) in
      let slice_of := read_slice start_extent end_extent start_offset stop in
      pieces ← plan_pieces (List.length xs) id slice_of (map (fun x => (x, loc_of x)) xs);
      fetched ← fetch_pieces redb redb pieces;
      emit_pieces loc_of id slice_of fetched.

(** ** Staging edits *)

Definition list_min (l : list Z) : option Z :=
  match l with [] => None | x :: r => Some (foldl Z.min x r) end.
Definition list_max (l : list Z) : option Z :=
  match l with [] => None | x :: r => Some (foldl Z.max x r) end.

(** The superseded frames that the edits debit: point lookups for few candidates, one
    range scan for many. *)
Definition point_debits (db : Db) (id : Z) (edited : list Z) : list FrameLoc :=
  omap (fun x => extents db !! (id, x)) edited.
Definition scan_debits (db : Db) (id mn scan_end : Z) (edited : list Z) : list FrameLoc :=
  omap (fun kv : Z * Z * FrameLoc => if decide (kv.1.2 ∈ edited) then Some kv.2 else None)
    (scan_extents db id mn scan_end).
Definition old_debits (db : Db) (id : Z) (edits : list (Z * option bytes)) (old_extent_end : Z)
    : list FrameLoc :=
  match list_min (map fst edits), list_max (map fst edits) with
  | Some mn, Some mx =>
      if mn <? old_extent_end then
        let scan_end := Z.min (sat_add_u64 mx 1) old_extent_end in
        let edited := filter (fun x => x < scan_end) (map fst edits) in
        if zlen edited <=? OLD_DEBIT_POINT_LOOKUPS_MAX then point_debits db id edited
        else scan_debits db id mn scan_end edited
      else []
  | _, _ => []
  end.

Definition payloads (edits : list (Z * option bytes)) : list (Z * bytes) :=
  omap (fun e : Z * option bytes => d ← e.2; Some (e.1, d)) edits.

Definition append (h : Hint) (id : Z) (ps : list (Z * bytes)) : E (list FrameLoc) :=
  match ps with
  | [] => mret []
  | _ =>
      fun e =>
        let '(r, s) := fs_append h id ps (es_frames e) in
        (match r with Ok locs => Ok locs | Err x => Err (Fs x) end, set_frames s e)
  end.

(** The loop that stages pointers and credits, or deletes. *)
Fixpoint stage_extents (id : Z) (edits : list (Z * option bytes)) (locs : list FrameLoc)
    (t : Transaction) : E Transaction :=
  match edits with
  | [] => mret t
  | (x, Some data) :: rest =>
      match locs with
      | [] => throwS Panic
      | loc :: locs =>
          _ ← modify (decoded_insert id x loc data);
          stage_extents id rest locs
            (add_seg_delta (fl_segid loc) (fl_byte_len loc) (fl_byte_len loc) (push (PutExtent id x loc) t))
      end
  | (x, None) :: rest => stage_extents id rest locs (extent_delete id x t)
  end.

Definition stage_debits (debits : list FrameLoc) (t : Transaction) : Transaction :=
  foldl (fun t loc => add_seg_delta (fl_segid loc) (- fl_byte_len loc) 0 t) t debits.

Definition stage_edits (h : Hint) (db : Db) (id : Z) (edits : list (Z * option bytes))
    (old_extent_end : Z) (t : Transaction) : E Transaction :=
  let debits := old_debits db id edits old_extent_end in
  locs ← append h id (payloads edits);
  t' ← stage_extents id edits locs t;
  mret (stage_debits debits t').

Definition delete_rangeE (db : Db) (id start stop : Z) (t : Transaction) : E Transaction :=
  _ ← modify (tail_invalidate id); mret (delete_range db id start stop t).

(** ** Writing *)

(** The existing content of an extent that is only partly overwritten. *)
Definition existing_extent (db : Db) (id offset end_offset old_size : Z) (cached : option (Z * bytes))
    (x : Z) : E bytes :=
  let extent_start := u64_wrap (x * EXTENT_SIZE) in
  let extent_end := u64_wrap (extent_start + EXTENT_SIZE) in
  let will_overwrite_fully := (offset <=? extent_start) && (extent_end <=? end_offset) in
  let beyond_eof := old_size <=? extent_start in
  if will_overwrite_fully || beyond_eof then mret ZERO_EXTENT
  else
    match (c ← cached; if (c.1 =? x)%Z then Some c.2 else None) with
    | Some bytes => mret bytes
    | None => d ← extent_get db db id x; mret (default ZERO_EXTENT d)
    end.
Fixpoint existing_extents (db : Db) (id offset end_offset old_size : Z) (cached : option (Z * bytes))
    (xs : list Z) : E (list (Z * bytes)) :=
  match xs with
  | [] => mret []
  | x :: xs =>
      d ← existing_extent db id offset end_offset old_size cached x;
      r ← existing_extents db id offset end_offset old_size cached xs;
      mret ((x, d) :: r)
  end.

Definition hole_if_zero (d : bytes) : option bytes := if bool_decide (d = ZERO_EXTENT) then None else Some d.

(** The loop that splits the data over the extents. *)
Fixpoint write_edits (offset end_offset : Z) (data : bytes) (data_offset : Z)
    (existing : list (Z * bytes)) : option (list (Z * option bytes)) :=
  match existing with
  | [] => Some []
  | (x, old) :: rest =>
      let extent_start := u64_wrap (x * EXTENT_SIZE) in
      let extent_end := u64_wrap (extent_start + EXTENT_SIZE) in
      let write_start := if extent_start <? offset then offset - extent_start else 0 in
      let write_end := if end_offset <? extent_end then end_offset - extent_start else EXTENT_SIZE in
      let write_len := write_end - write_start in
      piece ← slice_checked data_offset (data_offset + write_len) data;
      extent ← (if (write_start =? 0) && (write_end =? EXTENT_SIZE) then Some piece
                else copy_checked write_start write_end piece old);
      r ← write_edits offset end_offset data (data_offset + write_len) rest;
      Some ((x, hole_if_zero extent) :: r)
  end.

Definition write_tail (cache_tail : bool) (end_extent : Z) (edits : list (Z * option bytes)) : TailUpdate :=
  match (if cache_tail then e ← last edits; e.2 else None) with
  | Some d => TailSet end_extent d
  | None => TailClear
  end.

Definition extent_write (h : Hint) (db : Db) (id offset : Z) (data : bytes) (old_size : Z)
    (t : Transaction) : E (TailUpdate * Transaction) :=
  if bool_decide (data = []) then mret (TailKeep, t)
  else
    end_offset ← liftE (ok_or InvalidArgument (checked_add_u64 offset (zlen data)));
    let start_extent := offset / EXTENT_SIZE in
    let end_extent := (end_offset - 1) / EXTENT_SIZE in
    e ← getS;
    let cached := tail_get e id in
    existing ← existing_extents db id offset end_offset old_size cached
                 (seqZ start_extent (end_extent - start_extent + 1));
    let cache_tail := (old_size <=? end_offset) && negb (end_offset mod EXTENT_SIZE =? 0) in
    edits ← orPanic (write_edits offset end_offset data 0 existing);
    t' ← stage_edits h db id edits (div_ceil old_size EXTENT_SIZE) t;
    mret (write_tail cache_tail end_extent edits, t').

Definition zero_from (a b : Z) (d : bytes) : option bytes :=
  copy_checked a b (replicate (Z.to_nat (b - a)) 0) d.

Definition truncate (h : Hint) (db : Db) (id old_size new_size : Z) (t : Transaction) : E Transaction :=
  if old_size <=? new_size then mret t
  else
    let old_extents := div_ceil old_size EXTENT_SIZE in
    let new_extents := div_ceil new_size EXTENT_SIZE in
    t ← delete_rangeE db id new_extents old_extents t;
    let clear_from := new_size mod EXTENT_SIZE in
    if (0 <? new_size) && (0 <? clear_from) then
      let last_extent_idx := new_extents - 1 in
      existing ← extent_get db db id last_extent_idx;
      extent ← orPanic (zero_from clear_from EXTENT_SIZE (default ZERO_EXTENT existing));
      stage_edits h db id [(last_extent_idx, hole_if_zero extent)] (div_ceil old_size EXTENT_SIZE) t
    else mret t.

(** The edits of [zero_range]. *)
Fixpoint zero_edits (db : Db) (id offset end_offset file_size : Z) (xs : list Z)
    : E (list (Z * option bytes)) :=
  match xs with
  | [] => mret []
  | x :: xs =>
      let extent_start := u64_wrap (x * EXTENT_SIZE) in
      let extent_end := u64_wrap (extent_start + EXTENT_SIZE) in
      if file_size <=? extent_start then zero_edits db id offset end_offset file_size xs
      else if (offset <=? extent_start) && (extent_end <=? end_offset) then
        r ← zero_edits db id offset end_offset file_size xs; mret ((x, None) :: r)
      else
        existing ← extent_get db db id x;
        match existing with
        | None => zero_edits db id offset end_offset file_size xs
        | Some d =>
            let zero_start := if extent_start <? offset then offset - extent_start else 0 in
            let zero_end := if end_offset <? extent_end then end_offset - extent_start else EXTENT_SIZE in
            extent ← orPanic (zero_from zero_start zero_end d);
            r ← zero_edits db id offset end_offset file_size xs;
            mret ((x, hole_if_zero extent) :: r)
        end
  end.

Definition zero_range (h : Hint) (db : Db) (id offset length file_size : Z) (t : Transaction)
    : E Transaction :=
  if length =? 0 then mret t
  else
    end_offset ← liftE (ok_or InvalidArgument (checked_add_u64 offset length));
    _ ← modify (tail_invalidate id);
    let start_extent := offset / EXTENT_SIZE in
    let end_extent := (end_offset - 1) / EXTENT_SIZE in
    edits ← zero_edits db id offset end_offset file_size
              (seqZ start_extent (end_extent - start_extent + 1));
    stage_edits h db id edits (div_ceil file_size EXTENT_SIZE) t.
End extent.

Arguments ExtentStore : clear implicits.
