(* ===== verification/ExtentSpec.v ===== *)
(** * Files as byte sequences

    The abstract file (a size and a byte per offset), the relation between it and the
    extents of an inode, and the proof that the data plane of [Extent] implements reads,
    writes, truncation and hole punching of abstract files over any frame store that obeys
    its laws. *)

From S2P Require Import Prelude Errors FrameCodec Segment Lanes FrameStore Inode Dedup Store Extent.

Record VFile := mkVFile { vf_size : Z; vf_byte : Z -> Z }.

Definition extent_data (f : VFile) (x : Z) : bytes :=
  (fun k => vf_byte f (x * EXTENT_SIZE + k)) <$> seqZ 0 EXTENT_SIZE.

(** ** What the operations mean *)

Definition vf_write (f : VFile) (offset : Z) (data : bytes) : VFile :=
  if bool_decide (data = []) then f
  else mkVFile (Z.max (vf_size f) (offset + zlen data))
         (fun o => if (offset <=? o) && (o <? offset + zlen data)
                   then data !!! Z.to_nat (o - offset) else vf_byte f o).
Definition vf_truncate (f : VFile) (new_size : Z) : VFile :=
  mkVFile new_size (fun o => if o <? new_size then vf_byte f o else 0).
Definition vf_zero (f : VFile) (offset length : Z) : VFile :=
  mkVFile (vf_size f) (fun o => if (offset <=? o) && (o <? offset + length) then 0 else vf_byte f o).
Definition vf_read (f : VFile) (offset length : Z) : bytes := vf_byte f <$> seqZ offset length.

(** ** Lists of one extent *)

Lemma ES_val : Z.of_nat ES = EXTENT_SIZE.
Proof. apply Z2Nat.id. done. Qed.
Lemma length_extent_data f x : length (extent_data f x) = ES.
Proof. unfold extent_data. rewrite length_fmap, length_seqZ. reflexivity. Qed.
#[global] Opaque ES.

Lemma length_ZERO : length ZERO_EXTENT = ES.
Proof. apply length_replicate. Qed.
Lemma zlen_extent_data f x : zlen (extent_data f x) = EXTENT_SIZE.
Proof. unfold zlen. by rewrite length_extent_data, ES_val. Qed.
Lemma zlen_ZERO : zlen ZERO_EXTENT = EXTENT_SIZE.
Proof. unfold zlen. by rewrite length_ZERO, ES_val. Qed.

Lemma lookup_extent_data f x (k : nat) :
  Z.of_nat k < EXTENT_SIZE -> extent_data f x !! k = Some (vf_byte f (x * EXTENT_SIZE + Z.of_nat k)).
Proof.
  intros Hk. unfold extent_data. rewrite list_lookup_fmap, lookup_seqZ_lt by lia.
  cbn [fmap option_fmap option_map]. by rewrite Z.add_0_l.
Qed.

(** An extent-sized list is the content it agrees with. *)
Lemma extent_data_eq f x d :
  length d = ES ->
  (forall k : nat, Z.of_nat k < EXTENT_SIZE -> d !! k = Some (vf_byte f (x * EXTENT_SIZE + Z.of_nat k))) ->
  d = extent_data f x.
Proof.
  intros Hl Hd. apply list_eq. intros k. destruct (decide (Z.of_nat k < EXTENT_SIZE)) as [Hk|Hk].
  - by rewrite Hd, lookup_extent_data.
  - pose proof ES_val. rewrite !lookup_ge_None_2; [done|rewrite length_extent_data; lia|lia].
Qed.

Lemma extent_data_ext f g x :
  (forall o, x * EXTENT_SIZE <= o < (x + 1) * EXTENT_SIZE -> vf_byte f o = vf_byte g o) ->
  extent_data f x = extent_data g x.
Proof.
  intros Ho. apply extent_data_eq; [apply length_extent_data|]. intros k Hk.
  rewrite lookup_extent_data by done. f_equal. apply Ho. lia.
Qed.

Lemma extent_data_zero f x :
  (forall o, x * EXTENT_SIZE <= o < (x + 1) * EXTENT_SIZE -> vf_byte f o = 0) ->
  extent_data f x = ZERO_EXTENT.
Proof.
  intros Ho. symmetry. apply extent_data_eq; [apply length_ZERO|]. intros k Hk.
  unfold ZERO_EXTENT. pose proof ES_val. rewrite lookup_replicate_2 by lia. f_equal. symmetry. apply Ho. lia.
Qed.

Lemma lookup_ZERO k v : ZERO_EXTENT !! k = Some v -> v = 0.
Proof. unfold ZERO_EXTENT. by intros [-> _]%lookup_replicate_1. Qed.
#[global] Opaque ZERO_EXTENT extent_data.

(** ** Representation *)

Section spec.
Context {S Hint : Type} `{FrameStoreLaws S Hint}.
Implicit Types (e : ExtentStore S) (m : gmap (Z * Z) FrameLoc) (f g : VFile).

(** Decoded frames are what was written at their location. *)
Definition cache_ok e : Prop :=
  forall id x loc d, es_decoded e !! (id, x, loc) = Some d ->
    fs_held (es_frames e) id x loc d.
Definition es_ok e : Prop := fs_inv (es_frames e) /\ cache_ok e.

(** The extents of inode [id] in [m] represent the file [f]: every extent key names a
    frame with that part of the content, what has no key is zero, and nothing lies at or
    beyond the end of the file. *)
Record FileRep (s : S) m (id : Z) f : Prop := {
  fr_size : 0 <= vf_size f;
  fr_extent : forall x loc, m !! (id, x) = Some loc ->
                fs_holds s id x loc (extent_data f x) /\ 0 <= x < div_ceil (vf_size f) EXTENT_SIZE;
  fr_hole : forall x, 0 <= x -> m !! (id, x) = None -> extent_data f x = ZERO_EXTENT;
  fr_zero : forall o, vf_size f <= o -> vf_byte f o = 0 }.

Definition TailRep e (id : Z) f : Prop := forall x d, es_tail e !! id = Some (x, d) -> d = extent_data f x.

(** Locations resolved a while ago: the segment may have been deleted since. *)
Definition StaleRep (s : S) m (id : Z) f : Prop :=
  forall x, 0 <= x ->
    match m !! (id, x) with
    | Some loc => fs_held s id x loc (extent_data f x)
    | None => extent_data f x = ZERO_EXTENT
    end.

Lemma FileRep_stale s m id f : FileRep s m id f -> StaleRep s m id f.
Proof.
  intros [_ Hx Hh _] x Hge. destruct (m !! (id, x)) as [loc|] eqn:E; [|by apply Hh].
  by apply Hx.
Qed.

(** Only caches differ. *)
Record quiet e e' : Prop := {
  qt_frames : es_frames e' = es_frames e;
  qt_tail : es_tail e' = es_tail e;
  qt_cache : cache_ok e' }.

Lemma quiet_refl e : es_ok e -> quiet e e.
Proof. intros [_ Hc]. by split. Qed.
Lemma quiet_trans e1 e2 e3 : quiet e1 e2 -> quiet e2 e3 -> quiet e1 e3.
Proof. intros [F1 T1 _] [F2 T2 C2]. split; [congruence|congruence|done]. Qed.
Lemma quiet_ok e e' : es_ok e -> quiet e e' -> es_ok e'.
Proof. intros [Hi _] [Hf _ Hc]. split; [by rewrite Hf|done]. Qed.

Lemma bind_run {A B} (m : stM (ExtentStore S) Fault A) (k : A -> stM (ExtentStore S) Fault B) e e1 a :
  m e = (Ok a, e1) -> (m ≫= k) e = k a e1.
Proof. unfold mbind, stM_bind. by intros ->. Qed.

(** ** Frames *)

Lemma decoded_insert_quiet e id x loc d :
  es_ok e -> fs_held (es_frames e) id x loc d -> quiet e (decoded_insert id x loc d e).
Proof.
  intros [_ Hc] Hd. split; [done|done|]. intros id' x' loc' d'. cbn.
  rewrite lookup_insert_Some. intros [[[= <- <- <-] <-]|[_ Hl]]; [done|by apply Hc].
Qed.

Lemma validate_ok d : length d = ES -> validate_extent_frame d = Ok tt.
Proof. unfold validate_extent_frame. intros ->. by rewrite Nat.eqb_refl. Qed.

(** A frame is fetched unless its segment was deleted. *)
Lemma fetch_frame_live e id x loc d :
  es_ok e -> fs_holds (es_frames e) id x loc d -> length d = ES ->
  exists e', fetch_frame id x loc e = (Ok (Ok d), e') /\ quiet e e'.
Proof.
  intros Hok [Hh Halive] Hl.
  pose proof (fs_read_spec (es_frames e) loc (mkItem (id, x) loc d) []) as HR.
  cbn [ri_loc ri_slot ri_data map is_run locs_len fold_right] in HR. rewrite Z.add_0_r in HR.
  destruct (fs_held_len _ _ _ _ _ Hh) as [_ Hlen].
  specialize (HR (proj1 Hok) Halive eq_refl I ltac:(by repeat constructor) Hlen). cbv zeta in HR.
  exists (decoded_insert id x loc d e). split; [|by apply decoded_insert_quiet].
  unfold fetch_frame, mbind, stM_bind, getS, liftE, orPanic, modify.
  destruct HR as [HR|[HR HS]]; rewrite HR, ?HS; cbn -[validate_extent_frame]; by rewrite validate_ok.
Qed.

Lemma fetch_frame_dead e id x loc :
  es_ok e -> fs_dead (es_frames e) (fl_segid loc) ->
  exists err, fetch_frame id x loc e = (Ok (Err err), e).
Proof.
  intros [Hi _] Hd.
  destruct (fs_dead_gone _ _ (fl_byte_offset loc) (fl_byte_len loc) (fl_frame_index loc) [(id, x)] Hi Hd)
    as [HR HS].
  unfold fetch_frame, mbind, stM_bind, getS, liftE. rewrite HR.
  destruct (fs_read_run _ _ _ _ _ _) as [?|err]; [done|]. by exists err.
Qed.

(** Resolving an extent returns its content, also when the location was resolved before a
    garbage collection moved the frame. *)
Lemma extent_get_spec db redb id f x e :
  es_ok e -> StaleRep (es_frames e) (extents db) id f ->
  FileRep (es_frames e) (extents redb) id f -> 0 <= x ->
  exists o e', extent_get db redb id x e = (Ok o, e') /\ quiet e e' /\
    default ZERO_EXTENT o = extent_data f x.
Proof.
  intros Hok Hst Hrep Hx. specialize (Hst x Hx). unfold extent_get.
  destruct (extents db !! (id, x)) as [loc|] eqn:El.
  2:{ exists None, e. split; [done|]. split; [by apply quiet_refl|done]. }
  unfold mbind at 1, stM_bind at 1, getS at 1. cbv beta iota.
  destruct (es_decoded e !! (id, x, loc)) as [d|] eqn:Ed.
  { exists (Some d), e. split; [done|]. split; [by apply quiet_refl|]. cbn.
    eapply fs_held_fun; [|exact Hst]. by apply (proj2 Hok). }
  destruct (decide (fs_dead (es_frames e) (fl_segid loc))) as [Hdead|Halive].
  - destruct (fetch_frame_dead e id x loc Hok Hdead) as [err Hf]. rewrite (bind_run _ _ _ _ _ Hf).
    destruct (extents redb !! (id, x)) as [loc'|] eqn:Er.
    + destruct (fr_extent _ _ _ _ Hrep _ _ Er) as [[Hh' Ha'] _].
      rewrite bool_decide_true by congruence.
      destruct (fetch_frame_live e id x loc' (extent_data f x)) as (e' & Hf' & Hq);
        [done|done|apply length_extent_data|].
      rewrite (bind_run _ _ _ _ _ Hf'). by exists (Some (extent_data f x)), e'.
    + exists None, e. split; [done|]. split; [by apply quiet_refl|]. cbn. symmetry. by apply Hrep.
  - destruct (fetch_frame_live e id x loc (extent_data f x)) as (e' & Hf & Hq);
      [done|done|apply length_extent_data|].
    rewrite (bind_run _ _ _ _ _ Hf). by exists (Some (extent_data f x)), e'.
Qed.

(** ** Range reads *)

Section range.
Context (db : Db) (id : Z) (f : VFile) (slice_of : Z -> Z * Z).
Abbreviation loc_of := (fun x => extents db !! (id, x)).

Definition sliced (x : Z) : bytes :=
  slice (Z.to_nat (slice_of x).1) (Z.to_nat (slice_of x).2) (extent_data f x).
Definition slice_ok (x : Z) : Prop := 0 <= (slice_of x).1 <= (slice_of x).2 /\ (slice_of x).2 <= EXTENT_SIZE.

Lemma sliced_checked x d :
  slice_ok x -> d = extent_data f x -> slice_checked (slice_of x).1 (slice_of x).2 d = Some (sliced x).
Proof.
  intros [[H1 H2] H3] ->. unfold slice_checked. rewrite zlen_extent_data.
  by rewrite !(proj2 (Z.leb_le _ _)) by done.
Qed.

(** A run of located sxtents. *)
Definition located (s : S) (y : Z) : Prop :=
  exists loc, loc_of y = Some loc /\ fs_held s id y loc (extent_data f y).

(** The pieces in order cover [n] extents from [x] on. *)
Inductive covers (s : S) : list PlannedPiece -> Z -> nat -> Prop :=
| covers_nil x : covers s [] x 0
| covers_bytes x n ps : covers s ps (x + 1) n -> covers s (PBytes (sliced x) :: ps) x (1 + n)
| covers_ready x k n ps :
    Forall (located s) (seqZ x (Z.of_nat k)) -> covers s ps (x + Z.of_nat k) n ->
    covers s (PReady x (extent_data f <$> seqZ x (Z.of_nat k)) :: ps) x (k + n)
| covers_on_store x k n first total ps :
    Forall (located s) (seqZ x (Z.of_nat k)) -> covers s ps (x + Z.of_nat k) n ->
    (~ fs_dead s (fl_segid first) ->
     fs_read_run s (fl_segid first) (fl_byte_offset first) total (fl_frame_index first)
       (pair id <$> seqZ x (Z.of_nat k)) = Ok (extent_data f <$> seqZ x (Z.of_nat k))) ->
    (fs_dead s (fl_segid first) ->
     is_ok (fs_read_run s (fl_segid first) (fl_byte_offset first) total (fl_frame_index first)
       (pair id <$> seqZ x (Z.of_nat k))) = false) ->
    covers s (POnStore x first total (pair id <$> seqZ x (Z.of_nat k)) :: ps) x (k + n).

Definition with_loc (y : Z) : Z * option FrameLoc := (y, loc_of y).

Lemma run_members_spec : forall n x prev,
  let more := run_members prev (with_loc <$> seqZ x (Z.of_nat n)) in
  (length more <= n)%nat /\ more.*1 = seqZ x (Z.of_nat (length more)) /\
  Forall (fun p => loc_of p.1 = Some p.2) more /\ is_run prev (map snd more).
Proof.
  induction n as [|n IH]; intros x prev; cbv zeta; [cbn; split_and!; try done; lia|].
  rewrite seqZ_cons by lia. replace (Z.pred (Z.of_nat (Datatypes.S n))) with (Z.of_nat n) by lia.
  rewrite fmap_cons. change (with_loc x) with (x, extents db !! (id, x)). cbn [run_members].
  destruct (extents db !! (id, x)) as [loc|] eqn:El;
    [|cbn; split_and!; try done; lia].
  case_bool_decide as Hf; [|cbn; split_and!; try done; lia].
  destruct (IH (Z.succ x) loc) as (Hl & Hx & Hloc & Hrun).
  set (more := run_members loc _) in *. rewrite fmap_cons.
  cbn [length map fst snd is_run]. split_and!; try done.
  - lia.
  - rewrite seqZ_cons, Hx by lia. do 2 f_equal. lia.
  - by constructor.
Qed.

Lemma locs_len_app a b : locs_len (a ++ b) = locs_len a + locs_len b.
Proof. induction a as [|l a IH]; [done|]. cbn. unfold locs_len in *. lia. Qed.

Lemma omap_run (ps : list (Z * FrameLoc)) :
  Forall (fun p => loc_of p.1 = Some p.2) ps -> omap loc_of (ps.*1) = ps.*2.
Proof. induction 1 as [|[y l] ps Hy _ IH]; [done|]. cbn in *. rewrite Hy. cbn. by rewrite IH. Qed.

Lemma stored_nonneg (e : ExtentStore S) xs :
  (forall y loc, y ∈ xs -> loc_of y = Some loc -> 0 < fl_byte_len loc) -> 0 <= locs_len (omap loc_of xs).
Proof.
  induction xs as [|y xs IH]; intros Hp; cbn; [done|].
  specialize (IH ltac:(intros; eapply Hp; [by right|done])).
  destruct (extents db !! (id, y)) as [loc|] eqn:E; [|done]. cbn. unfold locs_len in *.
  specialize (Hp y loc ltac:(left) E). lia.
Qed.

(** The frames of a run as items of the store's read law. *)
Definition run_item (p : Z * FrameLoc) : RunItem := mkItem (id, p.1) p.2 (extent_data f p.1).

Lemma run_items_maps (run : list (Z * FrameLoc)) x k :
  run.*1 = seqZ x k ->
  map ri_loc (map run_item run) = map snd run /\
  map ri_slot (map run_item run) = pair id <$> seqZ x k /\
  map ri_data (map run_item run) = extent_data f <$> seqZ x k.
Proof.
  intros <-. induction run as [|p run (I1 & I2 & I3)]; [done|]. cbn. split_and!; by f_equal.
Qed.

Lemma run_held e (run : list (Z * FrameLoc)) :
  StaleRep (es_frames e) (extents db) id f -> Forall (fun y => 0 <= y) run.*1 ->
  Forall (fun p => loc_of p.1 = Some p.2) run ->
  Forall (fun p => fs_held (es_frames e) id p.1 p.2 (extent_data f p.1)) run.
Proof.
  intros Hst Hge Hloc. apply Forall_forall. intros p Hp. rewrite Forall_forall in Hloc.
  specialize (Hloc p Hp). rewrite Forall_fmap, Forall_forall in Hge. specialize (Hge p Hp). cbn in Hge.
  specialize (Hst p.1 Hge). by rewrite Hloc in Hst.
Qed.

Lemma decoded_run_spec e (run : list (Z * FrameLoc)) frames :
  es_ok e -> Forall (fun p => fs_held (es_frames e) id p.1 p.2 (extent_data f p.1)) run ->
  decoded_run e id run = Some frames -> frames = extent_data f <$> run.*1.
Proof.
  intros [_ Hc] Hh Hd. apply mapM_Some in Hd. revert Hh.
  induction Hd as [|p d run frames Hp Hd IH]; intros Hh; [done|].
  apply Forall_cons in Hh as [Hh1 Hh]. cbn. rewrite <- IH by done. f_equal.
  eapply fs_held_fun; [|exact Hh1]. by apply Hc.
Qed.

Lemma run_located e run :
  Forall (fun p => loc_of p.1 = Some p.2) run ->
  Forall (fun p : Z * FrameLoc => fs_held (es_frames e) id p.1 p.2 (extent_data f p.1)) run ->
  Forall (located (es_frames e)) run.*1.
Proof.
  intros Hl Hh. rewrite Forall_fmap. apply Forall_forall. intros p Hp.
  rewrite Forall_forall in Hl, Hh. exists p.2. auto.
Qed.

(** One run of the plan. *)
Lemma plan_run e (x k : Z) first more ps n :
  es_ok e -> StaleRep (es_frames e) (extents db) id f -> 0 <= x ->
  ((x, first) :: more).*1 = seqZ x k -> Forall (fun p => loc_of p.1 = Some p.2) ((x, first) :: more) ->
  is_run first (map snd more) -> locs_len (first :: map snd more) <= U32_MAX ->
  covers (es_frames e) ps (x + k) n -> 0 <= k ->
  exists piece,
    (match decoded_run e id ((x, first) :: more) with
     | Some frames => mret (PReady x frames)
     | None =>
         r ← liftE (fs_in_ram (es_frames e) (fl_segid first) (fl_byte_offset first)
                      (u32_wrap (locs_len (first :: map snd more))) (fl_frame_index first)
                      (map (fun p => (id, p.1)) ((x, first) :: more)));
         match r with
         | Some frames => mret (PReady x frames)
         | None => mret (POnStore x first (u32_wrap (locs_len (first :: map snd more)))
                           (map (fun p => (id, p.1)) ((x, first) :: more)))
         end
     end : stM (ExtentStore S) Fault PlannedPiece) e = (Ok piece, e) /\
    covers (es_frames e) (piece :: ps) x (Z.to_nat k + n).
Proof.
  intros Hok Hst Hx Hrun1 Hloc Hrun Hlen Hcov Hk.
  assert (Hheld : Forall (fun p => fs_held (es_frames e) id p.1 p.2 (extent_data f p.1)) ((x, first) :: more)).
  { apply run_held; [done| |done]. rewrite Hrun1. apply Forall_forall. intros y Hy%elem_of_seqZ. lia. }
  pose proof (run_located e _ Hloc Hheld) as Hlocd. rewrite Hrun1 in Hlocd.
  assert (Hpos : 0 <= locs_len (first :: map snd more)).
  { change (first :: map snd more) with (map snd ((x, first) :: more)). clear -Hheld.
    induction Hheld as [|p ps Hp _ IH]; [done|]. cbn. unfold locs_len in *.
    destruct (fs_held_len _ _ _ _ _ Hp). lia. }
  rewrite u32_wrap_id by (split; done).
  destruct (run_items_maps _ _ _ Hrun1) as (Hm1 & Hm2 & Hm3).
  assert (Hslots : map (fun p : Z * FrameLoc => (id, p.1)) ((x, first) :: more) = pair id <$> seqZ x k)
    by (rewrite <- Hrun1; by rewrite <- list_fmap_compose).
  rewrite Hslots. replace k with (Z.of_nat (Z.to_nat k)) in * by lia.
  destruct (decoded_run e id _) as [frames|] eqn:Ed.
  { apply decoded_run_spec in Ed as ->; [|done|done]. rewrite Hrun1. eexists. split; [done|].
    rewrite Nat2Z.id. by apply covers_ready. }
  destruct (decide (fs_dead (es_frames e) (fl_segid first))) as [Hdead|Halive].
  - destruct (fs_dead_gone (es_frames e) _ (fl_byte_offset first) (locs_len (first :: map snd more))
      (fl_frame_index first) (pair id <$> seqZ x (Z.of_nat (Z.to_nat k))) (proj1 Hok) Hdead) as [HR HS].
    rewrite HR. eexists. split; [done|]. rewrite Nat2Z.id. by apply covers_on_store.
  - pose proof (fs_read_spec (es_frames e) first (run_item (x, first)) (map run_item more)) as HR.
    change (run_item (x, first) :: map run_item more) with (map run_item ((x, first) :: more)) in HR.
    rewrite Hm1, Hm2, Hm3, map_map in HR.
    specialize (HR (proj1 Hok) Halive eq_refl Hrun ltac:(by rewrite Forall_fmap) Hlen). cbv zeta in HR.
    change (map snd ((x, first) :: more)) with (first :: map snd more) in HR.
    unfold mbind, stM_bind, liftE. destruct HR as [HR|[HR HS]]; rewrite HR; eexists; (split; [done|]);
      rewrite Nat2Z.id; [by apply covers_ready|by apply covers_on_store].
Qed.

Lemma drop_with_loc x n k :
  (k <= n)%nat -> drop k (with_loc <$> seqZ x (Z.of_nat n)) = with_loc <$> seqZ (x + Z.of_nat k) (Z.of_nat (n - k)).
Proof.
  intros Hk. rewrite <- fmap_drop. f_equal. replace (Z.of_nat n) with (Z.of_nat k + Z.of_nat (n - k)) by lia.
  rewrite seqZ_app by lia. apply drop_app_exact. rewrite length_seqZ. lia.
Qed.

Lemma omap_seqZ_split x (k n : nat) :
  (k <= n)%nat ->
  locs_len (omap loc_of (seqZ x (Z.of_nat n))) =
  locs_len (omap loc_of (seqZ x (Z.of_nat k))) + locs_len (omap loc_of (seqZ (x + Z.of_nat k) (Z.of_nat (n - k)))).
Proof.
  intros Hk. replace (Z.of_nat n) with (Z.of_nat k + Z.of_nat (n - k)) by lia.
  by rewrite seqZ_app, omap_app, locs_len_app by lia.
Qed.

Lemma stale_pos e y loc :
  StaleRep (es_frames e) (extents db) id f -> 0 <= y -> loc_of y = Some loc -> 0 < fl_byte_len loc.
Proof. intros Hst Hy El. specialize (Hst y Hy). rewrite El in Hst. by apply fs_held_len in Hst as []. Qed.

Lemma plan_pieces_spec e :
  es_ok e -> StaleRep (es_frames e) (extents db) id f ->
  forall fuel n x, (n <= fuel)%nat -> 0 <= x ->
    (forall y, x <= y < x + Z.of_nat n -> slice_ok y) ->
    locs_len (omap loc_of (seqZ x (Z.of_nat n))) <= U32_MAX ->
    exists ps, plan_pieces fuel id slice_of (with_loc <$> seqZ x (Z.of_nat n)) e = (Ok ps, e) /\ covers (es_frames e) ps x n.
Proof.
  intros Hok Hst. induction fuel as [|fuel IH]; intros n x Hn Hx Hsl Hlen.
  { replace n with 0%nat by lia. exists []. split; [done|constructor]. }
  destruct n as [|n]; [exists []; split; [done|constructor]|].
  assert (Hpos : forall (k : nat) (c : Z), 0 <= locs_len (omap loc_of (seqZ (x + Z.of_nat k) c))).
  { intros k c. apply (stored_nonneg e). intros y loc Hy%elem_of_seqZ. apply (stale_pos e); [done|lia]. }
  pose proof (omap_seqZ_split x 1 (Datatypes.S n) ltac:(lia)) as Hsplit. cbn [Nat.sub] in Hsplit.
  rewrite Nat.sub_0_r in Hsplit.
  rewrite seqZ_cons by lia. replace (Z.pred (Z.of_nat (Datatypes.S n))) with (Z.of_nat n) by lia.
  rewrite fmap_cons. change (with_loc x) with (x, extents db !! (id, x)).
  destruct (extents db !! (id, x)) as [first|] eqn:El; cbn [plan_pieces].
  - destruct (run_members_spec n (Z.succ x) first) as (Hml & Hmx & Hmloc & Hmrun).
    set (more := run_members first _) in *. set (k := length more) in *.
    assert (Hrun1 : ((x, first) :: more).*1 = seqZ x (1 + Z.of_nat k)).
    { rewrite fmap_cons, Hmx, (seqZ_cons x) by lia. do 2 f_equal. lia. }
    assert (Hloc : Forall (fun p => loc_of p.1 = Some p.2) ((x, first) :: more)) by by constructor.
    assert (Hll : locs_len (first :: map snd more) <= U32_MAX).
    { pose proof (omap_run _ Hloc) as Ho. rewrite Hrun1 in Ho.
      pose proof (omap_seqZ_split x (1 + k) (Datatypes.S n) ltac:(lia)) as Hs2.
      replace (Z.of_nat (1 + k)) with (1 + Z.of_nat k) in Hs2 by lia. rewrite Ho in Hs2.
      specialize (Hpos (1 + k)%nat (Z.of_nat (Datatypes.S n - (1 + k)))).
      replace (Z.of_nat (1 + k)) with (1 + Z.of_nat k) in Hpos by lia.
      change ((x, first) :: more).*2 with (first :: map snd more) in Hs2. lia. }
    destruct (IH (n - k)%nat (x + (1 + Z.of_nat k))) as (ps & Hps & Hcov); [lia|lia| | |].
    { intros y Hy. apply Hsl. lia. }
    { pose proof (omap_seqZ_split x (1 + k) (Datatypes.S n) ltac:(lia)) as Hs2.
      specialize (Hpos 0%nat (Z.of_nat (1 + k))). rewrite Z.add_0_r in Hpos.
      replace (x + Z.of_nat (1 + k)) with (x + (1 + Z.of_nat k)) in Hs2 by lia.
      replace (Datatypes.S n - (1 + k))%nat with (n - k)%nat in Hs2 by lia. lia. }
    destruct (plan_run e x (1 + Z.of_nat k) first more ps (n - k) Hok Hst Hx Hrun1 Hloc Hmrun Hll Hcov ltac:(lia))
      as (piece & Hpiece & Hcov').
    exists (piece :: ps). split.
    + unfold mbind at 1, stM_bind at 1, getS at 1. cbv beta iota zeta.
      rewrite (bind_run _ _ _ _ _ Hpiece), drop_with_loc by lia.
      replace (Z.succ x + Z.of_nat k) with (x + (1 + Z.of_nat k)) by lia.
      by rewrite (bind_run _ _ _ _ _ Hps).
    + by replace (Z.to_nat (1 + Z.of_nat k) + (n - k))%nat with (Datatypes.S n) in Hcov' by lia.
  - destruct (IH n (Z.succ x)) as (ps & Hps & Hcov); [lia|lia| | |].
    { intros y Hy. apply Hsl. lia. }
    { specialize (Hpos 0%nat 1). rewrite Z.add_0_r in Hpos.
      replace (Z.succ x) with (x + Z.of_nat 1) by lia. change (Z.of_nat 1) with 1 in *. lia. }
    exists (PBytes (sliced x) :: ps). specialize (Hst x Hx). rewrite El in Hst.
    unfold mbind, stM_bind, orPanic. rewrite (sliced_checked x ZERO_EXTENT ltac:(apply Hsl; lia) (eq_sym Hst)).
    cbn [ok_or]. rewrite Hps. split; [done|]. apply (covers_bytes _ x n). by rewrite Z.add_1_r.
Qed.

(** The fetched pieces in order cover [n] extents from [x] on. *)
Inductive fcovers (s : S) : list (bytes + Z * list bytes) -> Z -> nat -> Prop :=
| fcovers_nil x : fcovers s [] x 0
| fcovers_bytes x n ps : fcovers s ps (x + 1) n -> fcovers s (inl (sliced x) :: ps) x (1 + n)
| fcovers_frames x k n ps :
    Forall (located s) (seqZ x (Z.of_nat k)) -> fcovers s ps (x + Z.of_nat k) n ->
    fcovers s (inr (x, extent_data f <$> seqZ x (Z.of_nat k)) :: ps) x (k + n).

Lemma get_slots_spec redb e xs :
  es_ok e -> FileRep (es_frames e) (extents redb) id f -> Forall (fun x => 0 <= x) xs ->
  exists e', get_slots redb redb (pair id <$> xs) e = (Ok (extent_data f <$> xs), e') /\ quiet e e'.
Proof.
  intros Hok Hrep Hxs. revert e Hok Hrep. induction Hxs as [|x xs Hx _ IH]; intros e Hok Hrep.
  { exists e. split; [done|by apply quiet_refl]. }
  destruct (extent_get_spec redb redb id f x e) as (o & e1 & Hg & Hq & Hd);
    [done|by apply FileRep_stale|done|done|].
  destruct (IH e1) as (e2 & Hg2 & Hq2); [by eapply quiet_ok|by rewrite (qt_frames _ _ Hq)|].
  exists e2. split; [|by eapply quiet_trans]. rewrite fmap_cons. cbn [get_slots].
  rewrite (bind_run _ _ _ _ _ Hg), (bind_run _ _ _ _ _ Hg2). by rewrite Hd.
Qed.

Lemma fetch_pieces_spec redb ps x n : forall e,
  es_ok e -> FileRep (es_frames e) (extents redb) id f -> 0 <= x -> covers (es_frames e) ps x n ->
  exists fs e', fetch_pieces redb redb ps e = (Ok fs, e') /\ quiet e e' /\ fcovers (es_frames e) fs x n.
Proof.
  intros e Hok Hrep Hx Hc. remember (es_frames e) as s eqn:Es. revert e Es Hok Hrep.
  induction Hc as [x|x n ps Hc IH|x k n ps Hl Hc IH|x k n first total ps Hl Hc IH Halive Hdead];
    intros e -> Hok Hrep; cbn [fetch_pieces piece_frames].
  - exists [], e. split; [done|]. split; [by apply quiet_refl|constructor].
  - destruct (IH ltac:(lia) e) as (fs & e' & Hf & Hq & Hfc); try done.
    exists (inl (sliced x) :: fs), e'. split; [|split; [done|by constructor]].
    unfold mbind, stM_bind, mret, stM_ret in *. by rewrite Hf.
  - destruct (IH ltac:(lia) e) as (fs & e' & Hf & Hq & Hfc); try done.
    exists (inr (x, extent_data f <$> seqZ x (Z.of_nat k)) :: fs), e'.
    split; [|split; [done|by constructor]]. unfold mbind, stM_bind, mret, stM_ret in *. by rewrite Hf.
  - assert (Hrun : exists e1, fetch_on_store_run redb redb first total (pair id <$> seqZ x (Z.of_nat k)) e
              = (Ok (extent_data f <$> seqZ x (Z.of_nat k)), e1) /\ quiet e e1).
    { unfold fetch_on_store_run. unfold mbind, stM_bind, getS.
      destruct (decide (fs_dead (es_frames e) (fl_segid first))) as [Hd|Ha].
      - specialize (Hdead Hd). destruct (fs_read_run _ _ _ _ _ _) as [|err]; [done|].
        apply get_slots_spec; [done|done|]. apply Forall_forall. intros y Hy%elem_of_seqZ. lia.
      - rewrite (Halive Ha). exists e. split; [done|by apply quiet_refl]. }
    destruct Hrun as (e1 & Hrun & Hq1).
    destruct (IH ltac:(lia) e1) as (fs & e' & Hf & Hq & Hfc);
      [by rewrite (qt_frames _ _ Hq1)|by eapply quiet_ok|done|].
    exists (inr (x, extent_data f <$> seqZ x (Z.of_nat k)) :: fs), e'.
    split; [|split; [by eapply quiet_trans|by constructor]].
    unfold mbind, stM_bind, mret, stM_ret in *. rewrite Hrun. by rewrite Hf.
Qed.

Lemma emit_frames_spec k : forall x e,
  es_ok e -> Forall (located (es_frames e)) (seqZ x (Z.of_nat k)) ->
  (forall y, x <= y < x + Z.of_nat k -> slice_ok y) ->
  exists e', emit_frames loc_of id slice_of x (extent_data f <$> seqZ x (Z.of_nat k)) e
    = (Ok (concat (sliced <$> seqZ x (Z.of_nat k))), e') /\ quiet e e'.
Proof.
  induction k as [|k IH]; intros x e Hok Hl Hsl.
  { exists e. split; [done|by apply quiet_refl]. }
  rewrite seqZ_cons in * by lia. replace (Z.pred (Z.of_nat (Datatypes.S k))) with (Z.of_nat k) in * by lia.
  apply Forall_cons in Hl as [(loc & Hloc & Hheld) Hl]. rewrite !fmap_cons. cbn [emit_frames concat].
  pose proof (decoded_insert_quiet e id x loc (extent_data f x) Hok Hheld) as Hq1.
  destruct (IH (Z.succ x) (decoded_insert id x loc (extent_data f x) e)) as (e' & He & Hq);
    [by eapply quiet_ok|done| |].
  { intros y Hy. apply Hsl. lia. }
  exists e'. split; [|by eapply quiet_trans].
  unfold mbind, stM_bind, liftE, orPanic, modify in *. rewrite validate_ok by apply length_extent_data.
  rewrite Hloc. cbn [ok_or]. rewrite (sliced_checked x _ ltac:(apply Hsl; lia) eq_refl). cbn [ok_or].
  replace (x + 1) with (Z.succ x) by lia. by rewrite He.
Qed.

Lemma emit_pieces_spec ps x n : forall e,
  es_ok e -> fcovers (es_frames e) ps x n -> (forall y, x <= y < x + Z.of_nat n -> slice_ok y) ->
  exists e', emit_pieces loc_of id slice_of ps e = (Ok (concat (sliced <$> seqZ x (Z.of_nat n))), e') /\ quiet e e'.
Proof.
  intros e Hok Hc. remember (es_frames e) as s eqn:Es. revert e Es Hok.
  induction Hc as [x|x n ps Hc IH|x k n ps Hl Hc IH]; intros e -> Hok Hsl; cbn [emit_pieces].
  - exists e. split; [done|by apply quiet_refl].
  - destruct (IH e eq_refl Hok) as (e' & He & Hq); [intros; apply Hsl; lia|].
    exists e'. split; [|done]. unfold mbind, stM_bind in *. rewrite He.
    rewrite (seqZ_cons x) by lia. rewrite fmap_cons. cbn [concat].
    replace (Z.pred (Z.of_nat (1 + n))) with (Z.of_nat n) by lia. by rewrite Z.add_1_r.
  - destruct (emit_frames_spec k x e Hok Hl) as (e1 & He1 & Hq1); [intros; apply Hsl; lia|].
    destruct (IH e1) as (e' & He & Hq); [by rewrite (qt_frames _ _ Hq1)|by eapply quiet_ok|intros; apply Hsl; lia|].
    exists e'. split; [|by eapply quiet_trans]. unfold mbind, stM_bind in *. rewrite He1, He.
    rewrite Nat2Z.inj_add, seqZ_app, fmap_app, concat_app by lia. done.
Qed.
End range.

Lemma slice_extent_data f x a b :
  0 <= a <= b -> b <= EXTENT_SIZE ->
  slice (Z.to_nat a) (Z.to_nat b) (extent_data f x) = vf_read f (x * EXTENT_SIZE + a) (b - a).
Proof.
  intros Ha Hb. pose proof ES_val. unfold vf_read. apply list_eq. intros k.
  destruct (decide (Z.of_nat k < b - a)) as [Hk|Hk].
  - rewrite lookup_slice, lookup_extent_data by lia. rewrite list_lookup_fmap, lookup_seqZ_lt by lia.
    cbn. do 2 f_equal. lia.
  - rewrite !lookup_ge_None_2; [done| |].
    + rewrite length_fmap, length_seqZ. lia.
    + rewrite length_slice by (rewrite length_extent_data; lia). lia.
Qed.

Lemma vf_read_app f o n k : 0 <= n -> 0 <= k -> vf_read f o (n + k) = vf_read f o n ++ vf_read f (o + n) k.
Proof. intros. unfold vf_read. by rewrite seqZ_app, fmap_app by lia. Qed.

(** The slices of a range read in order are the range. *)
Lemma concat_sliced f offset stop n : forall x,
  let lo := fun y => Z.max offset (y * EXTENT_SIZE) in
  offset / EXTENT_SIZE <= x -> x + Z.of_nat n = (stop - 1) / EXTENT_SIZE -> 0 <= offset < stop ->
  let sl := read_slice (offset / EXTENT_SIZE) ((stop - 1) / EXTENT_SIZE) (offset mod EXTENT_SIZE) stop in
  concat (sliced f sl <$> seqZ x (1 + Z.of_nat n)) = vf_read f (lo x) (stop - lo x) /\
  (forall y, x <= y < x + (1 + Z.of_nat n) -> slice_ok sl y).
Proof.
  intros x lo Hx Hn Ho sl. subst lo. cbv beta.
  assert (Hsl : forall y, x <= y <= (stop - 1) / EXTENT_SIZE ->
    slice_ok sl y /\ sliced f sl y = vf_read f (Z.max offset (y * EXTENT_SIZE))
      (Z.min stop ((y + 1) * EXTENT_SIZE) - Z.max offset (y * EXTENT_SIZE))).
  { intros y Hy. subst sl. unfold slice_ok, sliced, read_slice. cbn [fst snd]. unfold EXTENT_SIZE in *.
    pose proof (Z.div_mod offset 32768). pose proof (Z.mod_pos_bound offset 32768).
    pose proof (Z.div_mod (stop - 1) 32768). pose proof (Z.mod_pos_bound (stop - 1) 32768).
    destruct (Z.eqb_spec y (offset / 32768)), (Z.eqb_spec y ((stop - 1) / 32768));
      (split; [lia|]); rewrite slice_extent_data by (unfold EXTENT_SIZE; lia);
      unfold EXTENT_SIZE; f_equal; lia. }
  split; [|intros y Hy; apply Hsl; lia].
  revert x Hx Hn Hsl. induction n as [|n IH]; intros x Hx Hn Hsl.
  - rewrite seqZ_cons by lia. cbn. rewrite app_nil_r. destruct (Hsl x) as [_ ->]; [lia|]. f_equal.
    unfold EXTENT_SIZE in *. pose proof (Z.div_mod (stop - 1) 32768). pose proof (Z.mod_pos_bound (stop - 1) 32768). lia.
  - rewrite seqZ_cons by lia. rewrite fmap_cons. cbn [concat].
    replace (Z.pred (1 + Z.of_nat (Datatypes.S n))) with (1 + Z.of_nat n) by lia.
    rewrite IH; [|lia|lia|intros; apply Hsl; lia]. destruct (Hsl x) as [_ ->]; [lia|].
    assert ((x + 1) * EXTENT_SIZE <= stop - 1 /\ offset < (x + 1) * EXTENT_SIZE).
    { unfold EXTENT_SIZE in *. pose proof (Z.div_mod (stop - 1) 32768). pose proof (Z.mod_pos_bound (stop - 1) 32768).
      pose proof (Z.div_mod offset 32768). pose proof (Z.mod_pos_bound offset 32768). lia. }
    replace (stop - Z.max offset (x * EXTENT_SIZE)) with
      ((Z.min stop ((x + 1) * EXTENT_SIZE) - Z.max offset (x * EXTENT_SIZE)) +
       (stop - Z.max offset (Z.succ x * EXTENT_SIZE))) by lia.
    rewrite vf_read_app by (unfold EXTENT_SIZE in *; lia). do 2 f_equal. lia.
Qed.

(** The stored length of the frames a read touches. *)
Definition stored_len (db : Db) (id offset length : Z) : Z :=
  let start_extent := offset / EXTENT_SIZE in
  let end_extent := (offset + length - 1) / EXTENT_SIZE in
  locs_len (omap (fun x => extents db !! (id, x)) (seqZ start_extent (end_extent - start_extent + 1))).

Lemma read_range_spec db redb id f offset length e :
  es_ok e -> StaleRep (es_frames e) (extents db) id f -> FileRep (es_frames e) (extents redb) id f ->
  0 <= offset -> 0 <= length -> offset + length <= U64_MAX ->
  stored_len db id offset length <= U32_MAX ->
  exists e', read_range db redb id offset length e = (Ok (vf_read f offset length), e') /\ quiet e e'.
Proof.
  intros Hok Hst Hrep Ho Hl Hmax Hlen. unfold read_range, stored_len in *.
  destruct (Z.eqb_spec length 0) as [->|Hne]; [exists e; split; [done|by apply quiet_refl]|].
  rewrite u64_wrap_id by ulia. set (start := offset / EXTENT_SIZE) in *.
  set (stop := (offset + length - 1) / EXTENT_SIZE) in *.
  assert (Hle : start <= stop) by (apply Z.div_le_mono; unfold EXTENT_SIZE; lia).
  assert (Hge : 0 <= start) by (apply Z.div_pos; unfold EXTENT_SIZE; lia).
  destruct (Z.eqb_spec start stop) as [Heq|Hneq].
  - destruct (extent_get_spec db redb id f start e) as (o & e' & Hg & Hq & Hd); try done.
    exists e'. split; [|done]. rewrite (bind_run _ _ _ _ _ Hg), Hd. unfold orPanic.
    assert (Hb : offset mod EXTENT_SIZE + length <= EXTENT_SIZE).
    { unfold start, stop, EXTENT_SIZE in *.
      pose proof (Z.div_mod offset 32768). pose proof (Z.mod_pos_bound offset 32768).
      pose proof (Z.div_mod (offset + length - 1) 32768).
      pose proof (Z.mod_pos_bound (offset + length - 1) 32768). lia. }
    pose proof (Z.mod_pos_bound offset EXTENT_SIZE ltac:(done)).
    unfold slice_checked. rewrite zlen_extent_data, !(proj2 (Z.leb_le _ _)) by lia. cbn [andb ok_or].
    rewrite slice_extent_data by lia. do 3 f_equal; [|lia]. unfold start.
    pose proof (Z.div_mod offset EXTENT_SIZE ltac:(done)). lia.
  - destruct (concat_sliced f offset (offset + length) (Z.to_nat (stop - start)) start) as [Hcat Hsl];
      [done|fold stop; lia|lia|]. fold start stop in Hcat, Hsl.
    replace (1 + Z.of_nat (Z.to_nat (stop - start))) with (Z.of_nat (Z.to_nat (stop - start + 1))) in * by lia.
    set (n := Z.to_nat (stop - start + 1)) in *. replace (stop - start + 1) with (Z.of_nat n) in * by lia.
    set (sl := read_slice start stop (offset mod EXTENT_SIZE) (offset + length)) in *.
    destruct (plan_pieces_spec db id f sl e Hok Hst (List.length (seqZ start (Z.of_nat n))) n start)
      as (ps & Hps & Hcov); [rewrite length_seqZ; lia|done|done|done|].
    destruct (fetch_pieces_spec db id f sl redb ps start n e) as (fs & e1 & Hf & Hq1 & Hfc); try done.
    destruct (emit_pieces_spec db id f sl fs start n e1) as (e' & He & Hq);
      [by eapply quiet_ok|by rewrite (qt_frames _ _ Hq1)|done|].
    exists e'. split; [|by eapply quiet_trans]. unfold with_loc in Hps.
    rewrite (bind_run _ _ _ _ _ Hps), (bind_run _ _ _ _ _ Hf), He, Hcat. do 3 f_equal; unfold start;
      pose proof (Z.div_mod offset EXTENT_SIZE ltac:(done)); pose proof (Z.mod_pos_bound offset EXTENT_SIZE ltac:(done)); lia.
Qed.

(** A tail update that holds one of the extents [xs] of the file [g], or clears the cache. *)
Definition tail_of (u : TailUpdate) (xs : list Z) g : Prop :=
  match u with
  | TailKeep => False
  | TailSet x d => x ∈ xs /\ d = extent_data g x
  | TailClear => True
  end.
Lemma tail_of_rep u xs g e (id : Z) : tail_of u xs g -> TailRep (apply_tail_update id u e) id g.
Proof.
  destruct u as [|x d|]; cbn; [done| |].
  - intros [_ ->] y d'. cbn. rewrite lookup_insert_eq. by intros [= <- <-].
  - intros _ y d'. cbn. by rewrite lookup_delete_eq.
Qed.

(** ** Staging edits *)

(** What an append leaves: more frames, the same deleted segments. *)
Record evolved e e' : Prop := {
  ev_ok : es_ok e';
  ev_tail : es_tail e' = es_tail e;
  ev_held : forall id x loc d, fs_held (es_frames e) id x loc d -> fs_held (es_frames e') id x loc d;
  ev_dead : forall sg, fs_dead (es_frames e') sg <-> fs_dead (es_frames e) sg;
  ev_closed : forall sg, fs_closed (es_frames e) sg -> fs_closed (es_frames e') sg;
  ev_stable : forall id x loc d, fs_stable (es_frames e) id x loc d -> fs_stable (es_frames e') id x loc d }.

Lemma quiet_evolved e e' : es_ok e -> quiet e e' -> evolved e e'.
Proof.
  intros Hok Hq. pose proof (quiet_ok _ _ Hok Hq). destruct Hq as [Hf Ht _]. split; try done; by rewrite Hf.
Qed.
Lemma evolved_refl e : es_ok e -> evolved e e.
Proof. intros. by split. Qed.
Lemma evolved_trans e1 e2 e3 : evolved e1 e2 -> evolved e2 e3 -> evolved e1 e3.
Proof.
  intros [O1 T1 H1 D1 C1 L1] [O2 T2 H2 D2 C2 L2]. split; [done|congruence|auto| |auto|auto]. intros g. by rewrite D2, D1.
Qed.
Lemma evolved_holds e e' id x loc d :
  evolved e e' -> fs_holds (es_frames e) id x loc d -> fs_holds (es_frames e') id x loc d.
Proof. intros [_ _ Hh Hd _ _] [? ?]. split; [by apply Hh|]. by rewrite Hd. Qed.
Lemma FileRep_evolved e e' m id f :
  evolved e e' -> FileRep (es_frames e) m id f -> FileRep (es_frames e') m id f.
Proof.
  intros He [Hs Hx Hh Hz]. split; [done| |done|done]. intros x loc Hl. destruct (Hx x loc Hl).
  split; [by eapply evolved_holds|done].
Qed.

(** Frames that were put into segments that still took frames. *)
Definition fresh_locs e (locs : list FrameLoc) : Prop := Forall (fun l => ~ fs_closed (es_frames e) (fl_segid l)) locs.

Lemma fresh_before e e' locs : evolved e e' -> fresh_locs e' locs -> fresh_locs e locs.
Proof. intros [_ _ _ _ Hc _] Hl. eapply Forall_impl; [exact Hl|]. intros l Hn Hcl. by apply Hn, Hc. Qed.

(** The frames after at most one append with the hint [h]. *)
Definition one_append (h : Hint) (s s' : S) : Prop := s' = s \/ exists id ps, s' = (fs_append h id ps s).2.

Fixpoint apply_edits (id : Z) (edits : list (Z * option bytes)) (locs : list FrameLoc) m
    : gmap (Z * Z) FrameLoc :=
  match edits, locs with
  | [], _ => m
  | (x, None) :: r, _ => apply_edits id r locs (delete (id, x) m)
  | (x, Some _) :: r, loc :: locs => apply_edits id r locs (<[(id, x) := loc]> m)
  | (x, Some _) :: r, [] => m
  end.
Fixpoint stage_txn (id : Z) (edits : list (Z * option bytes)) (locs : list FrameLoc) (t : Transaction)
    : Transaction :=
  match edits, locs with
  | [], _ => t
  | (x, None) :: r, _ => stage_txn id r locs (extent_delete id x t)
  | (x, Some _) :: r, loc :: locs =>
      stage_txn id r locs
        (add_seg_delta (fl_segid loc) (fl_byte_len loc) (fl_byte_len loc) (push (PutExtent id x loc) t))
  | (x, Some _) :: r, [] => t
  end.

Lemma stage_txn_db d id edits : forall locs t,
  tx_db d (stage_txn id edits locs t) = with_extents (apply_edits id edits locs) (tx_db d t).
Proof.
  induction edits as [|[x [data|]] edits IH]; intros locs t; cbn [stage_txn].
  - by destruct (tx_db d t).
  - destruct locs as [|loc locs]; [by destruct (tx_db d t)|]. rewrite IH. by autorewrite with txn.
  - rewrite IH. unfold extent_delete. by autorewrite with txn.
Qed.

Lemma stage_debits_db d debits t : tx_db d (stage_debits debits t) = tx_db d t.
Proof.
  unfold stage_debits. revert t. induction debits as [|l debits IH]; intros t; [done|]. cbn.
  rewrite IH. by autorewrite with txn.
Qed.

Definition written (s : S) (id : Z) (p : Z * bytes) (loc : FrameLoc) : Prop := fs_holds s id p.1 loc p.2.

Lemma stage_extents_spec id edits : forall locs t e,
  es_ok e -> Forall2 (written (es_frames e) id) (payloads edits) locs ->
  exists e', stage_extents id edits locs t e = (Ok (stage_txn id edits locs t), e') /\ quiet e e'.
Proof.
  induction edits as [|[x [data|]] edits IH]; intros locs t e Hok Hw; cbn [stage_extents stage_txn].
  - exists e. split; [done|by apply quiet_refl].
  - unfold payloads in Hw. cbn in Hw. apply Forall2_cons_inv_l in Hw as (loc & locs' & [Hl _] & Hw & ->).
    pose proof (decoded_insert_quiet e id x loc data Hok Hl) as Hq.
    destruct (IH locs' (add_seg_delta (fl_segid loc) (fl_byte_len loc) (fl_byte_len loc)
      (push (PutExtent id x loc) t)) (decoded_insert id x loc data e)) as (e' & He & Hq');
      [by eapply quiet_ok|done|].
    exists e'. split; [|by eapply quiet_trans]. unfold mbind, stM_bind, modify. by rewrite He.
  - by apply IH.
Qed.

Lemma append_spec h id ps e :
  es_ok e -> fs_ready h id (es_frames e) -> Forall payload_ok ps ->
  exists r e', append h id ps e = (r, e') /\ evolved e e' /\ one_append h (es_frames e) (es_frames e') /\
    match r with
    | Ok locs => Forall2 (written (es_frames e') id) ps locs /\ fresh_locs e locs
    | Err x => exists err, x = Fs err /\ (fs_append h id ps (es_frames e)).1 = Err err
    end.
Proof.
  intros Hok Hr Hl. destruct ps as [|p ps]; cbn [append].
  { exists (Ok []), e. split; [done|]. split; [by apply evolved_refl|]. split; [by left|]. split; constructor. }
  destruct (fs_append_spec h id (p :: ps) (es_frames e) (proj1 Hok) Hr Hl) as (Hi & Hk & Hd & Hc & Hst & Hn).
  destruct (fs_append h id (p :: ps) (es_frames e)) as [r s'] eqn:Ea. cbn [fst snd] in *.
  assert (Hev : evolved e (set_frames s' e)).
  { split; [|done|exact Hk|exact Hd|exact Hc|exact Hst]. split; [done|]. intros i x loc d Hdc. cbn.
    by apply Hk, (proj2 Hok). }
  assert (Hone : one_append h (es_frames e) (es_frames (set_frames s' e))).
  { right. exists id, (p :: ps). by rewrite Ea. }
  destruct r as [locs|err].
  - exists (Ok locs), (set_frames s' e). split; [done|]. split; [done|]. split; [done|]. split.
    + eapply Forall2_impl; [by apply Hn|]. intros q loc (Hh & Ha & _). split; [done|]. cbn. by rewrite Hd.
    + eapply Forall2_Forall_r; [by apply Hn|]. apply Forall_true. intros q loc (_ & _ & Hf). exact Hf.
  - eexists (Err (Fs err)), (set_frames s' e). split; [done|]. split; [done|]. split; [done|]. by exists err.
Qed.

(** Staging either fails with the error of the append, or stages the edits. *)
Lemma stage_edits_spec h db id edits old_end t e :
  es_ok e -> fs_ready h id (es_frames e) -> Forall payload_ok (payloads edits) ->
  exists r e', stage_edits h db id edits old_end t e = (r, e') /\ evolved e e' /\ one_append h (es_frames e) (es_frames e') /\
    match r with
    | Ok t' => exists locs, Forall2 (written (es_frames e') id) (payloads edits) locs /\ fresh_locs e locs /\
        t' = stage_debits (old_debits db id edits old_end) (stage_txn id edits locs t)
    | Err x => exists err, x = Fs err /\ (fs_append h id (payloads edits) (es_frames e)).1 = Err err
    end.
Proof.
  intros Hok Hr Hl. destruct (append_spec h id (payloads edits) e Hok Hr Hl) as (r & e1 & Ha & Hev & Hone & Hres).
  unfold stage_edits. destruct r as [locs|x].
  - destruct Hres as [Hres Hfresh]. destruct (stage_extents_spec id edits locs t e1) as (e' & He & Hq); [apply Hev|done|].
    eexists _, e'. rewrite (bind_run _ _ _ _ _ Ha), (bind_run _ _ _ _ _ He). split; [done|].
    split; [eapply evolved_trans; [done|]; apply quiet_evolved; [apply Hev|done]|].
    split; [by rewrite (qt_frames _ _ Hq)|]. exists locs. split; [by rewrite (qt_frames _ _ Hq)|done].
  - exists (Err x), e1. unfold mbind, stM_bind. by rewrite Ha.
Qed.

(** The extents after the edits. *)
Lemma apply_edits_other id edits : forall locs m k,
  (forall x, x ∈ edits.*1 -> k <> (id, x)) -> apply_edits id edits locs m !! k = m !! k.
Proof.
  induction edits as [|[x [data|]] edits IH]; intros locs m k Hk; cbn; [done| |].
  - destruct locs as [|loc locs]; [done|]. rewrite IH by (intros; apply Hk; by right).
    apply lookup_insert_ne. intros <-. by apply (Hk x); [left|].
  - rewrite IH by (intros; apply Hk; by right). apply lookup_delete_ne. intros <-. by apply (Hk x); [left|].
Qed.

Lemma apply_edits_in s id edits : forall locs m x o,
  NoDup edits.*1 -> Forall2 (written s id) (payloads edits) locs -> (x, o) ∈ edits ->
  match o with
  | Some d => exists loc, apply_edits id edits locs m !! (id, x) = Some loc /\ fs_holds s id x loc d
  | None => apply_edits id edits locs m !! (id, x) = None
  end.
Proof.
  induction edits as [|[y o'] edits IH]; intros locs m x o Hnd Hw Hin; [by apply not_elem_of_nil in Hin|].
  rewrite fmap_cons in Hnd. apply NoDup_cons in Hnd as [Hy Hnd]. cbn in Hy.
  assert (Hne : forall z, z ∈ edits.*1 -> (id, y) <> (id, z)) by (intros z Hz [= ->]; done).
  destruct o' as [data|]; cbn in Hw |- *.
  - apply Forall2_cons_inv_l in Hw as (loc & locs' & Hl & Hw & ->).
    apply elem_of_cons in Hin as [[= -> ->]|Hin]; [|by apply IH].
    exists loc. split; [|done]. rewrite apply_edits_other by done. by rewrite lookup_insert_eq.
  - apply elem_of_cons in Hin as [[= -> ->]|Hin]; [|by apply IH].
    rewrite apply_edits_other by done. by rewrite lookup_delete_eq.
Qed.

(** ** From edits to files *)

Lemma edits_rep s s' m id f g edits locs :
  FileRep s m id f ->
  (forall x loc d, fs_holds s id x loc d -> fs_holds s' id x loc d) ->
  NoDup edits.*1 -> Forall2 (written s' id) (payloads edits) locs ->
  (forall x o, (x, o) ∈ edits -> default ZERO_EXTENT o = extent_data g x /\
     0 <= x < div_ceil (vf_size g) EXTENT_SIZE) ->
  (forall x, 0 <= x -> x ∉ edits.*1 -> extent_data g x = extent_data f x) ->
  (forall x loc, x ∉ edits.*1 -> m !! (id, x) = Some loc -> x < div_ceil (vf_size g) EXTENT_SIZE) ->
  0 <= vf_size g -> (forall o, vf_size g <= o -> vf_byte g o = 0) ->
  FileRep s' (apply_edits id edits locs m) id g.
Proof.
  intros [_ Hx Hh _] Hkeep Hnd Hw Hin Hout Hsz Hg Hz. split; [done| | |done].
  - intros x loc Hl. destruct (decide (x ∈ edits.*1)) as [Hi|Hi].
    + apply list_elem_of_fmap in Hi as ([y o] & -> & Hi). cbn in *.
      pose proof (apply_edits_in s' id edits locs m y o Hnd Hw Hi) as Ha.
      destruct (Hin y o Hi) as [Hd Hb]. destruct o as [d|]; [|congruence].
      destruct Ha as (loc' & Ha & Hd'). cbn in Hd. subst d. by simplify_eq.
    + rewrite apply_edits_other in Hl by (intros y Hy [= ->]; done).
      destruct (Hx x loc Hl) as [Hd [Hx0 _]]. rewrite Hout by done. split; [by apply Hkeep|].
      split; [done|by eapply Hsz].
  - intros x Hx0 Hl. destruct (decide (x ∈ edits.*1)) as [Hi|Hi].
    + apply list_elem_of_fmap in Hi as ([y o] & -> & Hi). cbn in *.
      pose proof (apply_edits_in s' id edits locs m y o Hnd Hw Hi) as Ha.
      destruct (Hin y o Hi) as [Hd _]. destruct o as [d|]; [|done].
      destruct Ha as (loc' & Ha & _). congruence.
    + rewrite apply_edits_other in Hl by (intros y Hy [= ->]; done). rewrite Hout by done. by apply Hh.
Qed.

Lemma lt_div_ceil x n : x * EXTENT_SIZE < n -> x < div_ceil n EXTENT_SIZE.
Proof.
  intros. enough (x + 1 <= div_ceil n EXTENT_SIZE) by lia. unfold div_ceil.
  apply Z.div_le_lower_bound; unfold EXTENT_SIZE in *; lia.
Qed.
Lemma div_ceil_lt x n : x < div_ceil n EXTENT_SIZE -> x * EXTENT_SIZE < n.
Proof.
  unfold div_ceil, EXTENT_SIZE. intros. pose proof (Z.div_mod (n + 32768 - 1) 32768).
  pose proof (Z.mod_pos_bound (n + 32768 - 1) 32768). lia.
Qed.

Lemma hole_if_zero_default d : default ZERO_EXTENT (hole_if_zero d) = d.
Proof. unfold hole_if_zero. by case_bool_decide as E. Qed.

Lemma span_u64 offset stop x :
  0 <= offset -> stop <= U64_MAX -> x ∈ seqZ (offset / EXTENT_SIZE) ((stop - 1) / EXTENT_SIZE - offset / EXTENT_SIZE + 1) ->
  is_u64 x.
Proof.
  intros Ho Hs Hx%elem_of_seqZ. unfold EXTENT_SIZE in *. pose proof (Z.div_pos offset 32768 Ho ltac:(lia)).
  pose proof (Z.div_le_mono (stop - 1) U64_MAX 32768 ltac:(lia) ltac:(lia)). change (U64_MAX / 32768) with 562949953421311 in *. ulia.
Qed.

Lemma payloads_len (edits : list (Z * option bytes)) :
  (forall x d, (x, Some d) ∈ edits -> is_u64 x /\ length d = ES) -> Forall payload_ok (payloads edits).
Proof.
  intros Hl. apply Forall_forall. intros [x d] Hp. apply list_elem_of_omap in Hp as ([y [d'|]] & Hy & E); [|done].
  cbn in E. simplify_eq. destruct (Hl _ _ Hy) as [Hx Hd]. split; [exact Hx|].
  cbn. unfold zlen. rewrite Hd, ES_val. unfold EXTENT_SIZE. ulia.
Qed.

(** ** Writes *)

Section write.
Context (id offset : Z) (data : bytes) (f : VFile).
Hypothesis Hne : data <> [].
Hypothesis Hoff : 0 <= offset.
Hypothesis Hmax : offset + zlen data <= U64_MAX + 1 - EXTENT_SIZE.
Abbreviation end_offset := (offset + zlen data).
Abbreviation g := (vf_write f offset data).

Lemma data_pos : 0 < zlen data.
Proof. destruct data; [done|]. rewrite zlen_cons. pose proof (zlen_nonneg l). lia. Qed.

Lemma vf_write_byte o :
  vf_byte g o = if decide (offset <= o < end_offset) then data !!! Z.to_nat (o - offset) else vf_byte f o.
Proof.
  unfold vf_write. rewrite bool_decide_false by done. cbn.
  destruct (decide _) as [Hd|Hd]; [by rewrite (proj2 (Z.leb_le _ _)), (proj2 (Z.ltb_lt _ _)) by lia|].
  destruct (Z.leb_spec offset o), (Z.ltb_spec o end_offset); cbn; (done || lia).
Qed.

Lemma vf_write_outside x :
  (x + 1) * EXTENT_SIZE <= offset \/ end_offset <= x * EXTENT_SIZE -> extent_data g x = extent_data f x.
Proof.
  intros Hd. apply extent_data_ext. intros o Ho. rewrite vf_write_byte. rewrite decide_False; [done|lia].
Qed.

Definition covered (x : Z) : Prop := offset <= x * EXTENT_SIZE /\ (x + 1) * EXTENT_SIZE <= end_offset.
Definition existing_ok (p : Z * bytes) : Prop :=
  length p.2 = ES /\ (covered p.1 \/ p.2 = extent_data f p.1).

Lemma extent_bounds x :
  0 <= x -> x <= (end_offset - 1) / EXTENT_SIZE ->
  u64_wrap (x * EXTENT_SIZE) = x * EXTENT_SIZE /\
  u64_wrap (x * EXTENT_SIZE + EXTENT_SIZE) = (x + 1) * EXTENT_SIZE /\ x * EXTENT_SIZE < end_offset.
Proof.
  intros Hx Hle. unfold EXTENT_SIZE in *.
  pose proof (Z.div_mod (end_offset - 1) 32768). pose proof (Z.mod_pos_bound (end_offset - 1) 32768).
  rewrite !u64_wrap_id by ulia. lia.
Qed.

(** One extent of the write. *)
Lemma write_one x old :
  offset / EXTENT_SIZE <= x -> 0 <= x -> x <= (end_offset - 1) / EXTENT_SIZE -> existing_ok (x, old) ->
  let ws := Z.max 0 (offset - x * EXTENT_SIZE) in
  let we := Z.min EXTENT_SIZE (end_offset - x * EXTENT_SIZE) in
  let d0 := Z.max offset (x * EXTENT_SIZE) - offset in
  exists piece, slice_checked d0 (d0 + (we - ws)) data = Some piece /\
    (if (ws =? 0) && (we =? EXTENT_SIZE) then Some piece else copy_checked ws we piece old)
    = Some (extent_data g x).
Proof.
  intros Hs Hx He [Hl Hold] ws we d0. cbn [fst snd] in *.
  destruct (extent_bounds x Hx He) as (_ & _ & Hlt). pose proof data_pos as Hpos.
  assert (Hsx : offset < (x + 1) * EXTENT_SIZE).
  { unfold EXTENT_SIZE in *. pose proof (Z.div_mod offset 32768). pose proof (Z.mod_pos_bound offset 32768). lia. }
  assert (Hr : 0 <= d0 /\ 0 <= ws < we /\ we <= EXTENT_SIZE /\ d0 + (we - ws) <= zlen data)
    by (subst ws we d0; unfold EXTENT_SIZE in *; lia).
  assert (Hws : ws = Z.max 0 (offset - x * EXTENT_SIZE)) by done.
  assert (Hwe : we = Z.min EXTENT_SIZE (end_offset - x * EXTENT_SIZE)) by done.
  assert (Hd0 : d0 = Z.max offset (x * EXTENT_SIZE) - offset) by done. clearbody ws we d0.
  unfold slice_checked. rewrite !(proj2 (Z.leb_le _ _)) by lia. cbn [andb]. eexists. split; [done|].
  set (piece := slice _ _ _).
  assert (Hpl : length piece = Z.to_nat (we - ws)).
  { subst piece. rewrite length_slice by (unfold zlen in *; lia). lia. }
  assert (Hpk : forall k : nat, Z.of_nat k < we - ws ->
            piece !! k = Some (vf_byte g (x * EXTENT_SIZE + (ws + Z.of_nat k)))).
  { intros k Hk. subst piece. rewrite lookup_slice by lia. rewrite vf_write_byte, decide_True by lia.
    rewrite list_lookup_lookup_total_lt by (unfold zlen in *; lia). do 2 f_equal. lia. }
  pose proof ES_val as HES. assert (Hpz : zlen piece = we - ws) by (unfold zlen; lia).
  destruct (Z.eqb_spec ws 0) as [Hw0|Hw0], (Z.eqb_spec we EXTENT_SIZE) as [Hw1|Hw1]; cbn [andb].
  { f_equal. apply extent_data_eq; [lia|]. intros k Hk. rewrite Hpk by lia. do 2 f_equal. lia. }
  all: unfold copy_checked; rewrite Hpz, Z.eqb_refl;
    replace (zlen old) with EXTENT_SIZE by (unfold zlen; lia);
    rewrite !(proj2 (Z.leb_le _ _)) by lia; cbn [andb]; f_equal;
    destruct Hold as [Hc|Hold]; [unfold covered in Hc; lia|];
    (apply extent_data_eq; [rewrite length_copy_at; lia|]); intros k Hk;
    rewrite lookup_copy_at by lia; destruct (decide _) as [Hd|Hd];
    [rewrite Hpk by lia; do 2 f_equal; lia
    |rewrite Hold, lookup_extent_data, vf_write_byte, decide_False by lia; done].
Qed.

Definition write_edit (x : Z) : Z * option bytes := (x, hole_if_zero (extent_data g x)).

Lemma write_edits_spec existing : forall n x,
  existing.*1 = seqZ x (1 + Z.of_nat n) -> x + Z.of_nat n = (end_offset - 1) / EXTENT_SIZE ->
  offset / EXTENT_SIZE <= x -> Forall existing_ok existing ->
  write_edits offset end_offset data (Z.max offset (x * EXTENT_SIZE) - offset) existing
  = Some (write_edit <$> seqZ x (1 + Z.of_nat n)).
Proof.
  assert (Hdiv : 0 <= offset / EXTENT_SIZE) by (apply Z.div_pos; [done|unfold EXTENT_SIZE; lia]).
  induction existing as [|[y old] existing IH]; intros n x Hfst Hend Hstart Hok.
  { rewrite seqZ_cons in Hfst by lia. done. }
  rewrite seqZ_cons in Hfst |- * by lia. rewrite fmap_cons in Hfst. injection Hfst as -> Hfst. cbn [fst] in *.
  apply Forall_cons in Hok as [Ho Hok].
  destruct (extent_bounds x ltac:(lia) ltac:(lia)) as (Hb1 & Hb2 & Hlt).
  destruct (write_one x old Hstart ltac:(lia) ltac:(lia) Ho) as (piece & Hpiece & Hextent).
  cbn [write_edits]. rewrite Hb1, Hb2.
  assert (Hws : (if x * EXTENT_SIZE <? offset then offset - x * EXTENT_SIZE else 0)
                = Z.max 0 (offset - x * EXTENT_SIZE)) by (destruct (Z.ltb_spec (x * EXTENT_SIZE) offset); lia).
  assert (Hwe : (if end_offset <? (x + 1) * EXTENT_SIZE then end_offset - x * EXTENT_SIZE else EXTENT_SIZE)
                = Z.min EXTENT_SIZE (end_offset - x * EXTENT_SIZE))
    by (destruct (Z.ltb_spec end_offset ((x + 1) * EXTENT_SIZE)); lia).
  rewrite Hws, Hwe, Hpiece. cbn [mbind option_bind]. rewrite Hextent. cbn [mbind option_bind].
  rewrite fmap_cons. replace (Z.pred (1 + Z.of_nat n)) with (Z.of_nat n) in * by lia.
  destruct n as [|n].
  { destruct existing; [done|]. done. }
  replace (Z.of_nat (Datatypes.S n)) with (1 + Z.of_nat n) in * by lia.
  specialize (IH n (Z.succ x) Hfst ltac:(lia) ltac:(lia) Hok).
  assert (Hnext : Z.max offset (x * EXTENT_SIZE) - offset +
      (Z.min EXTENT_SIZE (end_offset - x * EXTENT_SIZE) - Z.max 0 (offset - x * EXTENT_SIZE))
      = Z.max offset (Z.succ x * EXTENT_SIZE) - offset).
  { unfold EXTENT_SIZE in *. pose proof (Z.div_mod (end_offset - 1) 32768).
    pose proof (Z.mod_pos_bound (end_offset - 1) 32768). pose proof (Z.div_mod offset 32768).
    pose proof (Z.mod_pos_bound offset 32768). lia. }
  rewrite Hnext, IH. done.
Qed.

Lemma existing_extent_spec db cached x e :
  es_ok e -> FileRep (es_frames e) (extents db) id f ->
  (forall y d, cached = Some (y, d) -> d = extent_data f y) ->
  0 <= x -> x <= (end_offset - 1) / EXTENT_SIZE ->
  exists d e1, existing_extent db id offset end_offset (vf_size f) cached x e = (Ok d, e1) /\
    quiet e e1 /\ existing_ok (x, d).
Proof.
  intros Hok Hrep Hc Hx0 Hx. destruct (extent_bounds x Hx0 Hx) as (Hb1 & Hb2 & _).
  unfold existing_extent. rewrite Hb1, Hb2. unfold existing_ok, covered. cbn [fst snd].
  destruct (Z.leb_spec offset (x * EXTENT_SIZE)), (Z.leb_spec ((x + 1) * EXTENT_SIZE) end_offset);
    cbn [andb orb];
    [exists ZERO_EXTENT, e; split; [done|]; split; [by apply quiet_refl|]; split; [apply length_ZERO|lia]|..];
    (destruct (Z.leb_spec (vf_size f) (x * EXTENT_SIZE));
     [exists ZERO_EXTENT, e; split; [done|]; split; [by apply quiet_refl|]; split; [apply length_ZERO|];
      right; symmetry; apply extent_data_zero; intros o Ho; apply (fr_zero _ _ _ _ Hrep); lia|]);
    (destruct (c ← cached; if c.1 =? x then Some c.2 else None) as [d|] eqn:Ec;
     [exists d, e; split; [done|]; split; [by apply quiet_refl|];
      apply bind_Some in Ec as ([y d'] & Hy & Ec); cbn in Ec; destruct (Z.eqb_spec y x) as [->|]; [|done];
      simplify_eq; rewrite (Hc _ _ eq_refl); split; [apply length_extent_data|by right]|]);
    (destruct (extent_get_spec db db id f x e) as (o & e1 & Hg & Hq & Hd);
     [done|by apply FileRep_stale|done|done|]);
    exists (default ZERO_EXTENT o), e1; (split; [by rewrite (bind_run _ _ _ _ _ Hg)|]); (split; [done|]);
    rewrite Hd; (split; [apply length_extent_data|by right]).
Qed.

Lemma existing_extents_spec db xs : forall e,
  es_ok e -> FileRep (es_frames e) (extents db) id f -> TailRep e id f ->
  Forall (fun x => 0 <= x <= (end_offset - 1) / EXTENT_SIZE) xs ->
  exists existing e', existing_extents db id offset end_offset (vf_size f) (tail_get e id) xs e
    = (Ok existing, e') /\ quiet e e' /\ existing.*1 = xs /\ Forall existing_ok existing.
Proof.
  intros e. set (cached := tail_get e id). intros Hok Hrep Htail Hxs.
  assert (Hc : forall x d, cached = Some (x, d) -> d = extent_data f x) by exact Htail.
  clearbody cached. clear Htail. revert e Hok Hrep.
  induction Hxs as [|x xs [Hx0 Hx] _ IH]; intros e Hok Hrep.
  { exists [], e. split; [done|]. split; [by apply quiet_refl|]. by split. }
  destruct (existing_extent_spec db cached x e Hok Hrep Hc Hx0 Hx) as (d & e1 & He1 & Hq1 & Hd).
  destruct (IH e1) as (existing & e2 & He2 & Hq2 & Hf & Hex); [by eapply quiet_ok|by rewrite (qt_frames _ _ Hq1)|].
  exists ((x, d) :: existing), e2. cbn [existing_extents].
  rewrite (bind_run _ _ _ _ _ He1), (bind_run _ _ _ _ _ He2). split; [done|].
  split; [by eapply quiet_trans|]. rewrite fmap_cons, Hf. split; [done|by constructor].
Qed.

Lemma last_write_edits x n :
  last (write_edit <$> seqZ x (1 + Z.of_nat n)) = Some (write_edit (x + Z.of_nat n)).
Proof.
  replace (1 + Z.of_nat n) with (Z.of_nat n + 1) by lia. rewrite seqZ_app, fmap_app by lia.
  rewrite last_app. done.
Qed.

Lemma write_tail_of cache x n :
  tail_of (write_tail cache (x + Z.of_nat n) (write_edit <$> seqZ x (1 + Z.of_nat n))) (seqZ x (1 + Z.of_nat n)) g.
Proof.
  unfold write_tail. rewrite last_write_edits. cbn [mbind option_bind write_edit snd].
  destruct cache; [|done]. unfold hole_if_zero. case_bool_decide; [done|].
  split; [apply elem_of_seqZ; lia|done].
Qed.

Definition all_edits : list (Z * option bytes) :=
  write_edit <$> seqZ (offset / EXTENT_SIZE) ((end_offset - 1) / EXTENT_SIZE - offset / EXTENT_SIZE + 1).

Lemma all_edits_fst :
  all_edits.*1 = seqZ (offset / EXTENT_SIZE) ((end_offset - 1) / EXTENT_SIZE - offset / EXTENT_SIZE + 1).
Proof. unfold all_edits. rewrite <- list_fmap_compose. rewrite <- list_fmap_id. by apply list_fmap_ext. Qed.

Lemma all_edits_rep s s' m locs :
  FileRep s m id f -> (forall x loc d, fs_holds s id x loc d -> fs_holds s' id x loc d) ->
  Forall2 (written s' id) (payloads all_edits) locs ->
  FileRep s' (apply_edits id all_edits locs m) id g.
Proof.
  intros Hrep Hkeep Hw. pose proof data_pos as Hpos.
  assert (Hsize : vf_size g = Z.max (vf_size f) end_offset) by (unfold vf_write; by rewrite bool_decide_false).
  pose proof (fr_size _ _ _ _ Hrep). unfold EXTENT_SIZE in *.
  assert (Hdiv : 0 <= offset / 32768) by (apply Z.div_pos; lia).
  pose proof (Z.div_mod offset 32768). pose proof (Z.mod_pos_bound offset 32768).
  pose proof (Z.div_mod (end_offset - 1) 32768). pose proof (Z.mod_pos_bound (end_offset - 1) 32768).
  eapply edits_rep; [exact Hrep|exact Hkeep| |exact Hw|..].
  - rewrite all_edits_fst. apply NoDup_seqZ.
  - intros x o (y & [= -> ->] & Hy%elem_of_seqZ)%list_elem_of_fmap. rewrite hole_if_zero_default.
    unfold EXTENT_SIZE in Hy. split; [done|]. split; [lia|]. rewrite Hsize. apply lt_div_ceil. unfold EXTENT_SIZE in *. lia.
  - intros x Hx. rewrite all_edits_fst, elem_of_seqZ. unfold EXTENT_SIZE. intros Ho.
    apply vf_write_outside. unfold EXTENT_SIZE. lia.
  - intros x loc _ Hl. destruct (fr_extent _ _ _ _ Hrep x loc Hl) as [_ [_ Hlt]].
    eapply Z.lt_le_trans; [exact Hlt|]. rewrite Hsize. apply Z.div_le_mono; unfold EXTENT_SIZE; lia.
  - rewrite Hsize. lia.
  - intros o Ho. rewrite vf_write_byte, decide_False by lia. apply (fr_zero _ _ _ _ Hrep). lia.
Qed.

Lemma extent_write_spec h db t e :
  es_ok e -> fs_ready h id (es_frames e) -> FileRep (es_frames e) (extents db) id f -> TailRep e id f ->
  exists r e', extent_write h db id offset data (vf_size f) t e = (r, e') /\ evolved e e' /\
    one_append h (es_frames e) (es_frames e') /\
    match r with
    | Ok (u, t') => exists locs, Forall2 (written (es_frames e') id) (payloads all_edits) locs /\ fresh_locs e locs /\
        t' = stage_debits (old_debits db id all_edits (div_ceil (vf_size f) EXTENT_SIZE))
               (stage_txn id all_edits locs t) /\
        tail_of u all_edits.*1 g
    | Err x => exists err, x = Fs err /\ exists e1, quiet e e1 /\
        (fs_append h id (payloads all_edits) (es_frames e1)).1 = Err err
    end.
Proof.
  intros Hok Hr Hrep Htail. unfold extent_write. rewrite bool_decide_false by done. pose proof data_pos as Hpos.
  assert (Hend : end_offset <= U64_MAX) by (unfold EXTENT_SIZE in *; lia).
  set (first := offset / EXTENT_SIZE). set (lst := (end_offset - 1) / EXTENT_SIZE).
  assert (Hfl : 0 <= first <= lst).
  { subst first lst. split; [apply Z.div_pos|apply Z.div_le_mono]; unfold EXTENT_SIZE; lia. }
  assert (Hce : checked_add_u64 offset (zlen data) = Some end_offset) by by apply checked_add_u64_Some.
  unfold mbind at 1, stM_bind at 1, liftE at 1. rewrite Hce. cbn [ok_or].
  unfold mbind at 1, stM_bind at 1, getS at 1. cbv beta iota. fold first lst.
  destruct (existing_extents_spec db (seqZ first (lst - first + 1)) e) as (existing & e1 & He1 & Hq1 & Hfst & Hex); try done.
  { apply Forall_forall. intros x Hx%elem_of_seqZ. fold lst. lia. }
  rewrite (bind_run _ _ _ _ _ He1).
  pose proof (write_edits_spec existing (Z.to_nat (lst - first)) first) as Hwe.
  replace (1 + Z.of_nat (Z.to_nat (lst - first))) with (lst - first + 1) in Hwe by lia.
  specialize (Hwe Hfst ltac:(fold lst; lia) ltac:(fold first; lia) Hex).
  replace (Z.max offset (first * EXTENT_SIZE) - offset) with 0 in Hwe.
  2:{ subst first. pose proof (Z.div_mod offset EXTENT_SIZE ltac:(done)).
      pose proof (Z.mod_pos_bound offset EXTENT_SIZE ltac:(done)). lia. }
  change (write_edit <$> seqZ first (lst - first + 1)) with all_edits in Hwe.
  unfold mbind at 1, stM_bind at 1, orPanic at 1. rewrite Hwe. cbn [ok_or].
  assert (Hok1 : es_ok e1) by by eapply quiet_ok.
  destruct (stage_edits_spec h db id all_edits (div_ceil (vf_size f) EXTENT_SIZE) t e1)
    as (r & e2 & Hs & Hev & Hone & Hres); [done|by rewrite (qt_frames _ _ Hq1)| |].
  { apply payloads_len. intros x d (y & [= -> Hd] & Hy)%list_elem_of_fmap. unfold hole_if_zero in Hd.
    split; [by apply (span_u64 offset end_offset)|].
    destruct (bool_decide _); [discriminate|]. injection Hd as ->. apply length_extent_data. }
  assert (Hev' : evolved e e2) by (eapply evolved_trans; [by apply quiet_evolved|done]).
  rewrite (qt_frames _ _ Hq1) in Hone. destruct r as [t'|x].
  - rewrite (bind_run _ _ _ _ _ Hs). destruct Hres as (locs & Hw & Hfr & ->). eexists (Ok _), e2.
    split; [done|]. split; [done|]. split; [done|]. exists locs. split; [done|].
    split; [by unfold fresh_locs in *; rewrite (qt_frames _ _ Hq1) in Hfr|]. split; [done|].
    rewrite all_edits_fst. unfold all_edits. fold first lst.
    replace lst with (first + Z.of_nat (Z.to_nat (lst - first))) at 1 by lia.
    replace (lst - first + 1) with (1 + Z.of_nat (Z.to_nat (lst - first))) by lia. apply write_tail_of.
  - unfold mbind, stM_bind. rewrite Hs. destruct Hres as (err & -> & Ha). eexists _, e2.
    split; [done|]. split; [done|]. split; [done|]. exists err. split; [done|]. by exists e1.
Qed.
End write.

(** ** Truncation *)

Lemma FileRep_agree s m m' id f :
  (forall x, m' !! (id, x) = m !! (id, x)) -> FileRep s m id f -> FileRep s m' id f.
Proof.
  intros Hm [Hs Hx Hh Hz]. split; [exact Hs| | |exact Hz]; intros x; rewrite Hm; [apply Hx|apply Hh].
Qed.

Lemma zero_from_spec f g x a b d :
  0 <= a <= b -> b <= EXTENT_SIZE -> d = extent_data f x ->
  (forall o, x * EXTENT_SIZE <= o < (x + 1) * EXTENT_SIZE ->
     vf_byte g o = if decide (x * EXTENT_SIZE + a <= o < x * EXTENT_SIZE + b) then 0 else vf_byte f o) ->
  zero_from a b d = Some (extent_data g x).
Proof.
  intros Ha Hb -> Hg. unfold zero_from, copy_checked. rewrite zlen_extent_data. pose proof ES_val as HES.
  assert (Hr : zlen (replicate (Z.to_nat (b - a)) 0) = b - a) by (unfold zlen; rewrite length_replicate; lia).
  rewrite Hr, Z.eqb_refl, !(proj2 (Z.leb_le _ _)) by lia. cbn [andb]. f_equal. unfold zlen in Hr.
  apply extent_data_eq.
  { rewrite length_copy_at; rewrite length_extent_data; [done|lia]. }
  intros k Hk. rewrite lookup_copy_at by (rewrite length_extent_data; lia). rewrite Hg by lia.
  destruct (decide _) as [Hd|Hd].
  - rewrite decide_True by lia. apply lookup_replicate_2. lia.
  - rewrite decide_False by lia. by apply lookup_extent_data.
Qed.

Lemma clear_rep s m id f n :
  FileRep s m id f -> 0 <= n ->
  FileRep s (clear_range id n (div_ceil (vf_size f) EXTENT_SIZE) m) id (vf_truncate f (n * EXTENT_SIZE)).
Proof.
  intros [Hs Hx Hh Hz] Hn.
  assert (Hlow : forall x, x < n -> extent_data (vf_truncate f (n * EXTENT_SIZE)) x = extent_data f x).
  { intros x Hlt. apply extent_data_ext. intros o Ho. cbn.
    rewrite (proj2 (Z.ltb_lt _ _)); [done|]. unfold EXTENT_SIZE in *. lia. }
  split; cbn.
  - unfold EXTENT_SIZE. lia.
  - intros x loc. rewrite lookup_clear_range. cbn. case_decide as Hd; [done|]. intros Hl.
    destruct (Hx x loc Hl) as [Hh' [H1 H2]]. assert (x < n) by lia. rewrite Hlow by done.
    split; [done|]. split; [done|]. apply lt_div_ceil. unfold EXTENT_SIZE. lia.
  - intros x Hx0. rewrite lookup_clear_range. cbn. case_decide as Hd; intros Hl.
    + apply extent_data_zero. intros o Ho. cbn. rewrite (proj2 (Z.ltb_ge _ _)); [done|].
      unfold EXTENT_SIZE in *. lia.
    + destruct (decide (x < n)); [rewrite Hlow by done; by apply Hh|].
      apply extent_data_zero. intros o Ho. cbn. rewrite (proj2 (Z.ltb_ge _ _)); [done|].
      unfold EXTENT_SIZE in *. lia.
  - intros o Ho. by rewrite (proj2 (Z.ltb_ge _ _)).
Qed.

Lemma delete_rangeE_run db id a b t e :
  delete_rangeE db id a b t e = (Ok (delete_range db id a b t), tail_invalidate id e).
Proof. done. Qed.

Section truncate.
Context (id new_size : Z) (f : VFile).
Hypothesis Hnew : 0 <= new_size < vf_size f.
Hypothesis Hmax : new_size <= U64_MAX.
Abbreviation g := (vf_truncate f new_size).
Abbreviation new_extents := (div_ceil new_size EXTENT_SIZE).

Definition truncate_edits : list (Z * option bytes) :=
  if 0 <? new_size mod EXTENT_SIZE
  then [(new_extents - 1, hole_if_zero (extent_data g (new_extents - 1)))] else [].

Lemma new_extents_bounds :
  0 <= new_extents /\
  (if 0 <? new_size mod EXTENT_SIZE
   then new_size = (new_extents - 1) * EXTENT_SIZE + new_size mod EXTENT_SIZE /\ 0 < new_extents
   else new_size = new_extents * EXTENT_SIZE).
Proof.
  unfold div_ceil, EXTENT_SIZE. pose proof (Z.div_mod new_size 32768). pose proof (Z.mod_pos_bound new_size 32768).
  pose proof (Z.div_mod (new_size + 32768 - 1) 32768).
  pose proof (Z.mod_pos_bound (new_size + 32768 - 1) 32768).
  destruct (Z.ltb_spec 0 (new_size mod 32768)); lia.
Qed.

Lemma truncate_rep s s' m locs :
  FileRep s m id f -> (forall x loc d, fs_holds s id x loc d -> fs_holds s' id x loc d) ->
  Forall2 (written s' id) (payloads truncate_edits) locs ->
  FileRep s' (apply_edits id truncate_edits locs
                (clear_range id new_extents (div_ceil (vf_size f) EXTENT_SIZE) m)) id g.
Proof.
  intros Hrep Hkeep Hw. destruct new_extents_bounds as [Hn0 Hn].
  pose proof (clear_rep s m id f new_extents Hrep Hn0) as Hclr. unfold truncate_edits in *.
  eapply edits_rep; [exact Hclr|exact Hkeep| |exact Hw|..].
  - destruct (0 <? _); [apply NoDup_singleton|constructor].
  - destruct (0 <? _); [|by intros x o ?%not_elem_of_nil]. intros x o Hi.
    apply list_elem_of_singleton in Hi. injection Hi as -> ->.
    rewrite hole_if_zero_default. split; [done|]. cbn [vf_size vf_truncate]. lia.
  - intros x Hx0 Hx. apply extent_data_ext. intros o Ho. cbn.
    destruct (0 <? new_size mod EXTENT_SIZE).
    + assert (x <> new_extents - 1) by (intros ->; apply Hx; by left).
      destruct Hn as [Hn Hpos]. pose proof (Z.mod_pos_bound new_size EXTENT_SIZE ltac:(done)).
      destruct (Z.ltb_spec o new_size), (Z.ltb_spec o (new_extents * EXTENT_SIZE)); try done;
        unfold EXTENT_SIZE in *; exfalso; nia.
    + by rewrite <- Hn.
  - intros x loc _ Hl. destruct (fr_extent _ _ _ _ Hclr x loc Hl) as [_ [_ Hlt]].
    apply div_ceil_lt in Hlt. cbn in *. unfold EXTENT_SIZE in *. lia.
  - cbn. lia.
  - intros o Ho. cbn. by rewrite (proj2 (Z.ltb_ge _ _)).
Qed.

Lemma truncate_spec h db t e :
  es_ok e -> fs_ready h id (es_frames e) -> FileRep (es_frames e) (extents db) id f ->
  exists r e', truncate h db id (vf_size f) new_size t e = (r, e') /\
    evolved (tail_invalidate id e) e' /\
    match r with
    | Ok t' => exists locs, Forall2 (written (es_frames e') id) (payloads truncate_edits) locs /\ fresh_locs e locs /\
        t' = stage_debits (old_debits db id truncate_edits (div_ceil (vf_size f) EXTENT_SIZE))
               (stage_txn id truncate_edits locs
                  (delete_range db id new_extents (div_ceil (vf_size f) EXTENT_SIZE) t))
    | Err x => exists err, x = Fs err /\ exists e1, quiet (tail_invalidate id e) e1 /\
        (fs_append h id (payloads truncate_edits) (es_frames e1)).1 = Err err
    end.
Proof.
  intros Hok Hr Hrep. unfold truncate. rewrite (proj2 (Z.leb_gt _ _)) by lia.
  assert (Hok0 : es_ok (tail_invalidate id e)) by (destruct Hok; by split).
  rewrite (bind_run _ _ _ _ _ (delete_rangeE_run _ _ _ _ _ _)).
  destruct new_extents_bounds as [Hn0 Hn]. unfold truncate_edits.
  pose proof (Z.mod_pos_bound new_size EXTENT_SIZE ltac:(done)) as Hm.
  destruct (Z.ltb_spec 0 (new_size mod EXTENT_SIZE)) as [Hc|Hc].
  2:{ rewrite andb_false_r. eexists (Ok _), (tail_invalidate id e). split; [done|].
      split; [by apply evolved_refl|]. exists []. split_and!; [constructor|constructor|done]. }
  rewrite (proj2 (Z.ltb_lt _ _)) by (unfold EXTENT_SIZE in *; lia). cbn [andb].
  destruct (extent_get_spec db db id f (new_extents - 1) (tail_invalidate id e)) as (o & e1 & Hg & Hq & Hd);
    [done|by apply FileRep_stale|done|lia|].
  rewrite (bind_run _ _ _ _ _ Hg), Hd.
  assert (Hzf : zero_from (new_size mod EXTENT_SIZE) EXTENT_SIZE (extent_data f (new_extents - 1))
                = Some (extent_data g (new_extents - 1))).
  { apply (zero_from_spec f g); [lia|lia|reflexivity|]. intros o' Ho. cbn.
    destruct (Z.ltb_spec o' new_size); [by rewrite decide_False by lia|by rewrite decide_True by lia]. }
  unfold mbind at 1, stM_bind at 1, orPanic at 1. rewrite Hzf. cbn [ok_or].
  destruct (stage_edits_spec h db id [(new_extents - 1, hole_if_zero (extent_data g (new_extents - 1)))]
    (div_ceil (vf_size f) EXTENT_SIZE)
    (delete_range db id new_extents (div_ceil (vf_size f) EXTENT_SIZE) t) e1) as (r & e2 & Hs & Hev & _ & Hres).
  { by eapply quiet_ok. } { by rewrite (qt_frames _ _ Hq). }
  { apply payloads_len. intros x d Hi. apply list_elem_of_singleton in Hi. injection Hi as -> Hd'.
    unfold hole_if_zero in Hd'. destruct (bool_decide _); [discriminate|]. injection Hd' as ->.
    split; [|apply length_extent_data]. clear Hzf Hg. unfold EXTENT_SIZE in *. ulia. }
  rewrite Hs. exists r, e2. split; [done|]. split; [eapply evolved_trans; [by apply quiet_evolved|done]|].
  destruct r as [t'|x]; [destruct Hres as (locs & Hw & Hfr & ->); exists locs; unfold fresh_locs in *; rewrite (qt_frames _ _ Hq) in Hfr; done|].
  destruct Hres as (err & -> & Ha). exists err. split; [done|]. by exists e1.
Qed.
End truncate.

(** ** Hole punching *)

Section zero.
Context (id offset len : Z) (f : VFile).
Hypothesis Hoff : 0 <= offset.
Hypothesis Hlen : 0 < len.
Hypothesis Hmax : offset + len <= U64_MAX + 1 - EXTENT_SIZE.
Abbreviation end_offset := (offset + len).
Abbreviation g := (vf_zero f offset len).

Lemma vf_zero_byte o : vf_byte g o = if decide (offset <= o < end_offset) then 0 else vf_byte f o.
Proof.
  cbn. destruct (decide _) as [Hd|Hd]; [by rewrite (proj2 (Z.leb_le _ _)), (proj2 (Z.ltb_lt _ _)) by lia|].
  destruct (Z.leb_spec offset o), (Z.ltb_spec o end_offset); cbn; (done || lia).
Qed.

Lemma zero_of_zero x : extent_data f x = ZERO_EXTENT -> extent_data g x = ZERO_EXTENT.
Proof.
  intros Hz. apply extent_data_zero. intros o Ho. rewrite vf_zero_byte. destruct (decide _); [done|].
  pose proof (lookup_extent_data f x (Z.to_nat (o - x * EXTENT_SIZE)) ltac:(lia)) as Hl.
  rewrite Hz in Hl. apply lookup_ZERO in Hl. rewrite <- Hl. f_equal. lia.
Qed.

(** What the edits of a list of extents are. *)
Record zero_edits_ok (xs : list Z) (edits : list (Z * option bytes)) : Prop := {
  ze_sub : edits.*1 `sublist_of` xs;
  ze_in : forall x o, (x, o) ∈ edits -> default ZERO_EXTENT o = extent_data g x /\
            x * EXTENT_SIZE < vf_size f /\ (forall d, o = Some d -> length d = ES);
  ze_out : forall x, x ∈ xs -> x ∉ edits.*1 -> extent_data g x = extent_data f x }.

Lemma zero_edits_skip x xs edits :
  extent_data g x = extent_data f x -> zero_edits_ok xs edits -> zero_edits_ok (x :: xs) edits.
Proof.
  intros Hx [Hs Hi Ho]. split; [by constructor|done|].
  intros y [->|Hy]%elem_of_cons Hn; [done|by apply Ho].
Qed.
Lemma zero_edits_add x o xs edits :
  default ZERO_EXTENT o = extent_data g x -> x * EXTENT_SIZE < vf_size f ->
  (forall d, o = Some d -> length d = ES) ->
  zero_edits_ok xs edits -> zero_edits_ok (x :: xs) ((x, o) :: edits).
Proof.
  intros Hd Hx Hl [Hs Hi Ho]. split.
  - rewrite fmap_cons. by constructor.
  - intros y o' [[= -> ->]|Hy]%elem_of_cons; [done|by apply Hi].
  - intros y [->|Hy]%elem_of_cons Hn; [by destruct Hn; left|]. apply Ho; [done|].
    intros Hc. apply Hn. rewrite fmap_cons. by right.
Qed.

Lemma hole_if_zero_len x o d : hole_if_zero (extent_data g x) = o -> o = Some d -> length d = ES.
Proof.
  intros <-. unfold hole_if_zero. destruct (bool_decide _); [discriminate|]. intros [= <-]. apply length_extent_data.
Qed.

Lemma zero_edits_spec db xs : forall e,
  es_ok e -> FileRep (es_frames e) (extents db) id f ->
  Forall (fun x => 0 <= x /\ offset / EXTENT_SIZE <= x <= (end_offset - 1) / EXTENT_SIZE) xs ->
  exists edits e', zero_edits db id offset end_offset (vf_size f) xs e = (Ok edits, e') /\ quiet e e' /\
    zero_edits_ok xs edits.
Proof.
  induction xs as [|x xs IH]; intros e Hok Hrep Hxs.
  { exists [], e. split; [done|]. split; [by apply quiet_refl|]. split; [done|by intros x o ?%not_elem_of_nil|].
    by intros x ?%not_elem_of_nil. }
  apply Forall_cons in Hxs as [(Hx0 & Hxs1 & Hxs2) Hxs].
  assert (Hb : u64_wrap (x * EXTENT_SIZE) = x * EXTENT_SIZE /\
    u64_wrap (x * EXTENT_SIZE + EXTENT_SIZE) = (x + 1) * EXTENT_SIZE /\
    x * EXTENT_SIZE < end_offset /\ offset < (x + 1) * EXTENT_SIZE).
  { unfold EXTENT_SIZE in *. pose proof (Z.div_mod (end_offset - 1) 32768).
    pose proof (Z.mod_pos_bound (end_offset - 1) 32768). pose proof (Z.div_mod offset 32768).
    pose proof (Z.mod_pos_bound offset 32768). rewrite !u64_wrap_id by ulia. lia. }
  destruct Hb as (Hb1 & Hb2 & Hlt1 & Hlt2). cbn [zero_edits]. rewrite Hb1, Hb2.
  destruct (Z.leb_spec (vf_size f) (x * EXTENT_SIZE)) as [Heof|Heof].
  { destruct (IH e Hok Hrep Hxs) as (edits & e' & He & Hq & Hz). exists edits, e'. split; [done|]. split; [done|].
    apply zero_edits_skip; [|done]. apply extent_data_ext. intros o Ho. rewrite vf_zero_byte.
    destruct (decide _); [|done]. symmetry. apply (fr_zero _ _ _ _ Hrep). lia. }
  destruct ((offset <=? x * EXTENT_SIZE) && ((x + 1) * EXTENT_SIZE <=? end_offset)) eqn:Hc.
  { apply andb_true_iff in Hc as [Hc1%Z.leb_le Hc2%Z.leb_le].
    destruct (IH e Hok Hrep Hxs) as (edits & e' & He & Hq & Hz). exists ((x, None) :: edits), e'.
    rewrite (bind_run _ _ _ _ _ He). split; [done|]. split; [done|].
    apply zero_edits_add; [|done|done|done]. cbn [default]. symmetry. apply extent_data_zero. intros o Ho.
    rewrite vf_zero_byte. by rewrite decide_True by lia. }
  destruct (extent_get_spec db db id f x e) as (o & e1 & Hg & Hq1 & Hd);
    [done|by apply FileRep_stale|done|done|].
  rewrite (bind_run _ _ _ _ _ Hg). clear Hc.
  destruct (IH e1 ltac:(by eapply quiet_ok) ltac:(by rewrite (qt_frames _ _ Hq1)) Hxs) as (edits & e' & He & Hq & Hz).
  destruct o as [d|]; cbn [default] in Hd.
  - assert (Hzf : zero_from (if x * EXTENT_SIZE <? offset then offset - x * EXTENT_SIZE else 0)
       (if end_offset <? (x + 1) * EXTENT_SIZE then end_offset - x * EXTENT_SIZE else EXTENT_SIZE) d
       = Some (extent_data g x)).
    { apply (zero_from_spec f g); [| |exact Hd|];
        destruct (Z.ltb_spec (x * EXTENT_SIZE) offset), (Z.ltb_spec end_offset ((x + 1) * EXTENT_SIZE));
        try (unfold EXTENT_SIZE in *; lia); intros o Ho; rewrite vf_zero_byte; destruct (decide _), (decide _);
        try done; lia. }
    exists ((x, hole_if_zero (extent_data g x)) :: edits), e'.
    unfold mbind at 1, stM_bind at 1, orPanic at 1. rewrite Hzf. cbn [ok_or].
    rewrite (bind_run _ _ _ _ _ He). split; [done|]. split; [by eapply quiet_trans|].
    apply zero_edits_add; [apply hole_if_zero_default|done|intros d'; by eapply hole_if_zero_len|done].
  - exists edits, e'. rewrite He. split; [done|]. split; [by eapply quiet_trans|].
    apply zero_edits_skip; [|done]. rewrite <- Hd. by apply zero_of_zero.
Qed.

Lemma zero_rep s s' m edits locs :
  FileRep s m id f -> (forall x loc d, fs_holds s id x loc d -> fs_holds s' id x loc d) ->
  zero_edits_ok (seqZ (offset / EXTENT_SIZE) ((end_offset - 1) / EXTENT_SIZE - offset / EXTENT_SIZE + 1)) edits ->
  Forall2 (written s' id) (payloads edits) locs ->
  NoDup edits.*1 /\ FileRep s' (apply_edits id edits locs m) id g.
Proof.
  intros Hrep Hkeep [Hs Hi Ho] Hw.
  assert (Hnd : NoDup edits.*1) by (eapply sublist_NoDup; [apply NoDup_seqZ|exact Hs]).
  assert (Hdiv : 0 <= offset / EXTENT_SIZE) by (apply Z.div_pos; [done|unfold EXTENT_SIZE; lia]).
  split; [done|]. eapply edits_rep; [exact Hrep|exact Hkeep|exact Hnd|exact Hw|..].
  - intros x o Hxo. destruct (Hi x o Hxo) as (Hd & Hx & _). split; [done|]. split.
    + assert (Hin : x ∈ edits.*1) by (apply list_elem_of_fmap; by exists (x, o)).
      eapply sublist_subseteq in Hin; [|exact Hs]. apply elem_of_seqZ in Hin. lia.
    + by apply lt_div_ceil.
  - intros x Hx0 Hx. destruct (decide (x ∈ seqZ (offset / EXTENT_SIZE)
      ((end_offset - 1) / EXTENT_SIZE - offset / EXTENT_SIZE + 1))) as [Hin|Hin]; [by apply Ho|].
    apply extent_data_ext. intros o Hox. rewrite vf_zero_byte, decide_False; [done|].
    rewrite elem_of_seqZ in Hin. unfold EXTENT_SIZE in *. pose proof (Z.div_mod (end_offset - 1) 32768).
    pose proof (Z.mod_pos_bound (end_offset - 1) 32768). pose proof (Z.div_mod offset 32768).
    pose proof (Z.mod_pos_bound offset 32768). lia.
  - intros x loc _ Hl. by apply (fr_extent _ _ _ _ Hrep x loc Hl).
  - apply (fr_size _ _ _ _ Hrep).
  - intros o Hox. rewrite vf_zero_byte. destruct (decide _); [done|]. by apply (fr_zero _ _ _ _ Hrep).
Qed.

Lemma zero_range_spec h db t e :
  es_ok e -> fs_ready h id (es_frames e) -> FileRep (es_frames e) (extents db) id f ->
  exists r e', zero_range h db id offset len (vf_size f) t e = (r, e') /\
    evolved (tail_invalidate id e) e' /\
    exists edits,
      zero_edits_ok (seqZ (offset / EXTENT_SIZE) ((end_offset - 1) / EXTENT_SIZE - offset / EXTENT_SIZE + 1)) edits /\
    match r with
    | Ok t' => exists locs, Forall2 (written (es_frames e') id) (payloads edits) locs /\ fresh_locs e locs /\
        t' = stage_debits (old_debits db id edits (div_ceil (vf_size f) EXTENT_SIZE)) (stage_txn id edits locs t)
    | Err x => exists err, x = Fs err /\ exists e1, quiet (tail_invalidate id e) e1 /\
        (fs_append h id (payloads edits) (es_frames e1)).1 = Err err
    end.
Proof.
  intros Hok Hr Hrep. unfold zero_range. rewrite (proj2 (Z.eqb_neq _ _)) by lia.
  assert (Hok0 : es_ok (tail_invalidate id e)) by (destruct Hok; by split).
  assert (Hce : checked_add_u64 offset len = Some end_offset)
    by (apply checked_add_u64_Some; unfold EXTENT_SIZE in *; lia).
  unfold mbind at 1, stM_bind at 1, liftE at 1. rewrite Hce. cbn [ok_or].
  unfold mbind at 1, stM_bind at 1, modify at 1. cbv beta iota.
  destruct (zero_edits_spec db (seqZ (offset / EXTENT_SIZE)
    ((end_offset - 1) / EXTENT_SIZE - offset / EXTENT_SIZE + 1)) (tail_invalidate id e)) as (edits & e1 & He & Hq & Hz);
    [done|done| |].
  { apply Forall_forall. intros x Hx%elem_of_seqZ.
    assert (0 <= offset / EXTENT_SIZE) by (apply Z.div_pos; [done|unfold EXTENT_SIZE; lia]). lia. }
  rewrite (bind_run _ _ _ _ _ He).
  destruct (stage_edits_spec h db id edits (div_ceil (vf_size f) EXTENT_SIZE) t e1) as (r & e2 & Hs & Hev & _ & Hres).
  { by eapply quiet_ok. } { by rewrite (qt_frames _ _ Hq). }
  { apply payloads_len. intros x d Hi. split; [|by eapply (ze_in _ _ Hz x (Some d) Hi)].
    apply (span_u64 offset end_offset); [done|unfold EXTENT_SIZE in *; lia|].
    eapply sublist_subseteq; [exact (ze_sub _ _ Hz)|]. apply list_elem_of_fmap. by exists (x, Some d). }
  exists r, e2. split; [done|]. split; [eapply evolved_trans; [by apply quiet_evolved|done]|].
  exists edits. split; [done|]. destruct r as [t'|x]; [destruct Hres as (locs & Hw & Hfr & ->); exists locs; unfold fresh_locs in *; rewrite (qt_frames _ _ Hq) in Hfr; done|].
  destruct Hres as (err & -> & Ha). exists err. split; [done|]. by exists e1.
Qed.
End zero.

(** ** Refinement of abstract files *)

(** A file as it is stored, caches included. *)
Definition Stored e m (id : Z) f : Prop := FileRep (es_frames e) m id f /\ TailRep e id f.

(** From [(e, m)] to [(e', m')], the file [id] became [g] and no other file changed. *)
Record becomes e m e' m' (id : Z) g : Prop := {
  bc_ok : es_ok e';
  bc_file : Stored e' m' id g;
  bc_others : forall id' f', id' <> id -> Stored e m id' f' -> Stored e' m' id' f' }.

(** The txn has not touched the extents of [id] yet. *)
Definition untouched (db : Db) (t : Transaction) (id : Z) : Prop :=
  forall x, extents (tx_db db t) !! (id, x) = extents db !! (id, x).

(** From the pieces the operations provide: [e1] is [e] with at most the tail of [id] dropped. *)
Lemma becomes_intro e e1 e' m m' (id : Z) g u :
  es_frames e1 = es_frames e -> (forall id', id' <> id -> es_tail e1 !! id' = es_tail e !! id') ->
  evolved e1 e' -> (forall id' x, id' <> id -> m' !! (id', x) = m !! (id', x)) ->
  FileRep (es_frames e') m' id g -> TailRep (apply_tail_update id u e') id g ->
  becomes e m (apply_tail_update id u e') m' id g.
Proof.
  intros Hf Ht Hev Hm Hrep Htail. split.
  - destruct u; apply Hev.
  - split; [destruct u; exact Hrep|done].
  - intros id' f' Hne [Hr' Ht']. split.
    + replace (es_frames (apply_tail_update id u e')) with (es_frames e') by (by destruct u).
      eapply FileRep_agree; [intros x; by apply Hm|]. eapply FileRep_evolved; [exact Hev|]. by rewrite Hf.
    + assert (He : es_tail (apply_tail_update id u e') !! id' = es_tail e !! id').
      { rewrite <- (Ht id' Hne), <- (ev_tail _ _ Hev). destruct u; cbn; by simplify_map_eq. }
      intros x d. rewrite He. apply Ht'.
Qed.

Lemma tail_evolved e e' (id : Z) f : evolved e e' -> TailRep e id f -> TailRep e' id f.
Proof. intros Hev Ht x d. rewrite (ev_tail _ _ Hev). apply Ht. Qed.
Lemma tail_invalidated e e' (id : Z) f : evolved (tail_invalidate id e) e' -> TailRep e' id f.
Proof. intros Hev. apply (tail_evolved _ _ _ _ Hev). intros x d. cbn. by rewrite lookup_delete_eq. Qed.
Lemma invalidate_other e (id id' : Z) : id' <> id -> es_tail (tail_invalidate id e) !! id' = es_tail e !! id'.
Proof. intros Hne. cbn. by rewrite lookup_delete_ne. Qed.

Lemma apply_edits_ids (id id' x : Z) edits locs m :
  id' <> id -> apply_edits id edits locs m !! (id', x) = m !! (id', x).
Proof. intros Hne. apply apply_edits_other. intros y _ [= -> _]. done. Qed.

(** A failed operation has only appended frames nobody refers to. *)
Definition failed h e e' (id : Z) (err : FsError) : Prop :=
  es_ok e' /\ (forall id' m f, Stored e m id' f -> Stored e' m id' f) /\
  exists ps, (fs_append h id ps (es_frames e)).1 = Err err.

Lemma failed_intro h e e1 e2 e' (id : Z) ps err :
  es_frames e1 = es_frames e ->
  (forall id', es_tail e1 !! id' = es_tail e !! id' \/ es_tail e1 !! id' = None) ->
  evolved e1 e' -> quiet e1 e2 -> (fs_append h id ps (es_frames e2)).1 = Err err ->
  failed h e e' id err.
Proof.
  intros Hf Ht Hev Hq Herr. split; [apply Hev|]. split.
  - intros id' m f [Hr Htl]. split; [eapply FileRep_evolved; [exact Hev|by rewrite Hf]|].
    intros x d. rewrite (ev_tail _ _ Hev). destruct (Ht id') as [->| ->]; [apply Htl|done].
  - exists ps. rewrite <- Hf, <- (qt_frames _ _ Hq). done.
Qed.
Lemma invalidate_or e (id id' : Z) :
  es_tail (tail_invalidate id e) !! id' = es_tail e !! id' \/ es_tail (tail_invalidate id e) !! id' = None.
Proof.
  destruct (decide (id' = id)) as [->|]; [right; cbn; apply lookup_delete_eq|left; by apply invalidate_other].
Qed.

Lemma Stored_ext e m (id : Z) f g :
  vf_size g = vf_size f -> (forall o, vf_byte g o = vf_byte f o) -> Stored e m id f -> Stored e m id g.
Proof.
  intros Hs Hb [[Hp He Hh Hz] Ht].
  assert (Hx : forall x, extent_data g x = extent_data f x) by (intros x; by apply extent_data_ext).
  split; [split|].
  - by rewrite Hs.
  - intros x loc. rewrite Hx, Hs. apply He.
  - intros x. rewrite Hx. apply Hh.
  - intros o. rewrite Hs, Hb. apply Hz.
  - intros x d. rewrite Hx. apply Ht.
Qed.

Lemma FileRep_resize s m (id : Z) f n :
  FileRep s m id f -> vf_size f <= n -> FileRep s m id (vf_truncate f n).
Proof.
  intros [Hs He Hh Hz] Hn.
  assert (Hb : forall o, vf_byte (vf_truncate f n) o = vf_byte f o).
  { intros o. cbn. destruct (Z.ltb_spec o n); [done|]. symmetry. apply Hz. lia. }
  assert (Hx : forall x, extent_data (vf_truncate f n) x = extent_data f x).
  { intros x. apply extent_data_ext. intros o _. apply Hb. }
  split; [cbn; lia| | |].
  - intros x loc Hl. rewrite Hx. destruct (He x loc Hl) as [? [? Hlt]]. split; [done|]. split; [done|].
    apply div_ceil_lt in Hlt. apply lt_div_ceil. cbn. lia.
  - intros x. rewrite Hx. apply Hh.
  - intros o. rewrite Hb. cbn. intros. apply Hz. lia.
Qed.
Lemma TailRep_resize e (id : Z) f n :
  (forall o, vf_size f <= o -> vf_byte f o = 0) -> vf_size f <= n ->
  TailRep e id f -> TailRep e id (vf_truncate f n).
Proof.
  intros Hz Hn Ht x d Hl. rewrite (Ht x d Hl). apply extent_data_ext. intros o _. cbn.
  destruct (Z.ltb_spec o n); [done|]. apply Hz. lia.
Qed.

(** C7: a range read returns exactly the bytes of the file, and changes only caches.  The
    locations may have been resolved before garbage collection moved frames and deleted
    segments: runs whose segment is gone are resolved again. *)
Theorem read_range_refines db redb id f offset length e :
  es_ok e -> StaleRep (es_frames e) (extents db) id f -> FileRep (es_frames e) (extents redb) id f ->
  0 <= offset -> 0 <= length -> offset + length <= U64_MAX ->
  stored_len db id offset length <= U32_MAX ->
  exists e', read_range db redb id offset length e = (Ok (vf_read f offset length), e') /\ quiet e e'.
Proof. apply read_range_spec. Qed.

Lemma extent_write_becomes h db id offset data f t e :
  es_ok e -> fs_ready h id (es_frames e) -> Stored e (extents db) id f -> untouched db t id ->
  0 <= offset -> offset + zlen data <= U64_MAX + 1 - EXTENT_SIZE ->
  match extent_write h db id offset data (vf_size f) t e with
  | (Ok (u, t'), e') =>
      becomes e (extents (tx_db db t)) (apply_tail_update id u e') (extents (tx_db db t')) id
        (vf_write f offset data)
  | (Err (Fs err), e') => failed h e e' id err
  | (Err Panic, _) => False
  end.
Proof.
  intros Hok Hr [Hrep Htail] Hun Hoff Hmax.
  destruct (decide (data = [])) as [->|Hne].
  { unfold extent_write, vf_write. rewrite !bool_decide_true by done. cbn.
    split; [done| |done]. split; [|done]. by eapply FileRep_agree. }
  destruct (extent_write_spec id offset data f Hne Hoff Hmax h db t e Hok Hr Hrep Htail)
    as (r & e' & -> & Hev & _ & Hres).
  destruct r as [[u t']|x].
  - destruct Hres as (locs & Hw & _ & -> & Ht). rewrite stage_debits_db, stage_txn_db.
    apply (becomes_intro e e); [done|done|done|intros; by apply apply_edits_ids| |by eapply tail_of_rep].
    apply (all_edits_rep id offset data f Hne Hoff Hmax (es_frames e));
      [by eapply FileRep_agree|intros x loc d; by apply evolved_holds|done].
  - destruct Hres as (err & -> & e1 & Hq & Herr). eapply (failed_intro h e e e1); eauto.
Qed.

Lemma truncate_becomes h db id f new_size t e :
  es_ok e -> fs_ready h id (es_frames e) -> Stored e (extents db) id f ->
  extents (tx_db db t) = extents db -> 0 <= new_size <= U64_MAX ->
  match truncate h db id (vf_size f) new_size t e with
  | (Ok t', e') =>
      becomes e (extents (tx_db db t)) e' (extents (tx_db db t')) id (vf_truncate f new_size)
  | (Err (Fs err), e') => failed h e e' id err
  | (Err Panic, _) => False
  end.
Proof.
  intros Hok Hr [Hrep Htail] Hun [Hnew Hmax]. destruct (Z.le_gt_cases (vf_size f) new_size) as [Hle|Hlt].
  { unfold truncate. rewrite (proj2 (Z.leb_le _ _)) by done. cbn. rewrite Hun.
    split; [done| |done]. split; [by apply FileRep_resize|]. apply TailRep_resize; [apply Hrep|done|done]. }
  assert (Hn : 0 <= new_size < vf_size f) by lia.
  destruct (truncate_spec id new_size f Hn Hmax h db t e Hok Hr Hrep) as (r & e' & -> & Hev & Hres).
  destruct r as [t'|x].
  - destruct Hres as (locs & Hw & _ & ->). rewrite stage_debits_db, stage_txn_db, tx_db_delete_range by done.
    cbn [extents with_extents]. rewrite Hun.
    apply (becomes_intro e (tail_invalidate id e) e' _ _ id _ TailKeep);
      [done|apply invalidate_other|done| |
       apply (truncate_rep id new_size f Hn (es_frames e)); [done|intros x loc d; by apply (evolved_holds _ _ id x loc d Hev)|done]|
       by eapply tail_invalidated].
    intros id' x Hne. rewrite apply_edits_ids by done. rewrite lookup_clear_range, decide_False; [done|].
    intros [? _]. done.
  - destruct Hres as (err & -> & e1 & Hq & Herr).
    eapply (failed_intro h e (tail_invalidate id e) e1); [done|apply invalidate_or|done|done|done].
Qed.

Lemma zero_range_becomes h db id offset len f t e :
  es_ok e -> fs_ready h id (es_frames e) -> Stored e (extents db) id f -> untouched db t id ->
  0 <= offset -> 0 <= len -> offset + len <= U64_MAX + 1 - EXTENT_SIZE ->
  match zero_range h db id offset len (vf_size f) t e with
  | (Ok t', e') =>
      becomes e (extents (tx_db db t)) e' (extents (tx_db db t')) id (vf_zero f offset len)
  | (Err (Fs err), e') => failed h e e' id err
  | (Err Panic, _) => False
  end.
Proof.
  intros Hok Hr [Hrep Htail] Hun Hoff Hlen Hmax. destruct (decide (len = 0)) as [->|Hne].
  { unfold zero_range. cbn. split; [done| |done]. apply (Stored_ext _ _ _ f); [done| |].
    - intros o. cbn. destruct (Z.leb_spec offset o); [|done]. by rewrite (proj2 (Z.ltb_ge _ _)) by lia.
    - split; [by eapply FileRep_agree|done]. }
  assert (Hpos : 0 < len) by lia.
  destruct (zero_range_spec id offset len f Hoff Hpos Hmax h db t e Hok Hr Hrep)
    as (r & e' & -> & Hev & edits & Hed & Hres).
  destruct r as [t'|x].
  - destruct Hres as (locs & Hw & _ & ->). rewrite stage_debits_db, stage_txn_db. cbn [extents with_extents].
    apply (becomes_intro e (tail_invalidate id e) e' _ _ id _ TailKeep);
      [done|apply invalidate_other|done|intros; by apply apply_edits_ids| |by eapply tail_invalidated].
    eapply (zero_rep id offset len f Hoff (es_frames e)); [by eapply FileRep_agree| |done|done].
    intros x loc d. by apply (evolved_holds _ _ id x loc d Hev).
  - destruct Hres as (err & -> & e1 & Hq & Herr).
    eapply (failed_intro h e (tail_invalidate id e) e1); [done|apply invalidate_or|done|done|done].
Qed.

(** The operations of the data plane on one file, and what each means for it. *)
Inductive DataOp :=
| OpWrite (offset : Z) (data : bytes)
| OpTruncate (new_size : Z)
| OpZero (offset len : Z).

Definition run_op (h : Hint) (db : Db) (id size : Z) (op : DataOp) (t : Transaction)
    : stM (ExtentStore S) Fault (TailUpdate * Transaction) :=
  match op with
  | OpWrite offset data => extent_write h db id offset data size t
  | OpTruncate new_size => t ← truncate h db id size new_size t; mret (TailKeep, t)
  | OpZero offset len => t ← zero_range h db id offset len size t; mret (TailKeep, t)
  end.
Definition op_file (op : DataOp) f : VFile :=
  match op with
  | OpWrite offset data => vf_write f offset data
  | OpTruncate new_size => vf_truncate f new_size
  | OpZero offset len => vf_zero f offset len
  end.
Definition op_fits (op : DataOp) : Prop :=
  match op with
  | OpWrite offset data => 0 <= offset /\ offset + zlen data <= U64_MAX + 1 - EXTENT_SIZE
  | OpTruncate new_size => 0 <= new_size <= U64_MAX
  | OpZero offset len => 0 <= offset /\ 0 <= len /\ offset + len <= U64_MAX + 1 - EXTENT_SIZE
  end.

(** C6: once its transaction is applied and its tail update published, a write has
    replaced exactly the written bytes and extended the file if it ends beyond it; a
    truncation has kept exactly the bytes below the new size, and what it cut off reads as
    zero when the file grows again; a punched hole reads as zero.  This holds for every
    alignment against extents, holes, the end of the file and the cached tail, and no
    other file changes.  An operation only fails because frames could not be appended,
    and then every file is as it was. *)
Theorem data_ops_refine h db id op f t e :
  es_ok e -> fs_ready h id (es_frames e) -> Stored e (extents db) id f ->
  extents (tx_db db t) = extents db -> op_fits op ->
  match run_op h db id (vf_size f) op t e with
  | (Ok (u, t'), e') =>
      becomes e (extents db) (apply_tail_update id u e') (extents (tx_db db t')) id (op_file op f)
  | (Err (Fs err), e') => failed h e e' id err
  | (Err Panic, _) => False
  end.
Proof.
  intros Hok Hr Hst Hun Hfit. assert (Hunt : untouched db t id) by (intros x; by rewrite Hun).
  destruct op as [offset data|new_size|offset len]; cbn [run_op op_file].
  - destruct Hfit. pose proof (extent_write_becomes h db id offset data f t e) as H'. rewrite Hun in H'. by apply H'.
  - pose proof (truncate_becomes h db id f new_size t e Hok Hr Hst Hun Hfit) as H'. rewrite Hun in H'.
    unfold mbind, stM_bind. by destruct (truncate _ _ _ _ _ _ _) as [[t'|[]] e'].
  - destruct Hfit as (? & ? & ?).
    pose proof (zero_range_becomes h db id offset len f t e) as H'. rewrite Hun in H'.
    unfold mbind, stM_bind. destruct (zero_range _ _ _ _ _ _ _ _) as [[t'|[]] e']; by apply H'.
Qed.
End spec.
