(* ===== verification/SegCounts.v ===== *)
(** * Segment live-byte counters

    Every transaction of the data plane stages, beside its extent pointers, adjustments of
    the per-segment counters ([seg_delta], [stage_edits], [delete_range] of
    [fs/store/extent/write.rs]), which the commit worker folds into absolute values.  The
    adjustments of every operation sum to the change of the bytes referenced in each
    segment, so the committed counters equal the bytes that extents refer to, and a
    segment whose counter is zero is referenced by none. *)

From S2P Require Import Prelude Errors FrameCodec Segment Quota Dedup Inode Store Commit Usage Boot Lanes FrameStore Extent ExtentSpec.

(** ** Referenced bytes *)

Definition seg_bytes (s : Segid) (loc : FrameLoc) : Z := if decide (fl_segid loc = s) then fl_byte_len loc else 0.
Definition opt_bytes (s : Segid) (o : option FrameLoc) : Z := default 0 (seg_bytes s <$> o).
Definition live_of (m : gmap (Z * Z) FrameLoc) (s : Segid) : Z := msum (fun _ loc => seg_bytes s loc) m.
Definition locs_bytes (s : Segid) (ls : list FrameLoc) : Z := foldr (fun l acc => seg_bytes s l + acc) 0 ls.

Lemma live_of_insert m k loc s :
  live_of (<[k := loc]> m) s = live_of m s + seg_bytes s loc - opt_bytes s (m !! k).
Proof.
  unfold live_of, opt_bytes. destruct (m !! k) as [l|] eqn:E; cbn.
  - rewrite (msum_insert_upd _ _ _ _ _ E). lia.
  - rewrite msum_insert_new by done. lia.
Qed.
Lemma live_of_delete m k s : live_of (delete k m) s = live_of m s - opt_bytes s (m !! k).
Proof.
  unfold live_of, opt_bytes. destruct (m !! k) as [l|] eqn:E; cbn.
  - rewrite (msum_delete _ _ _ _ E). lia.
  - rewrite msum_delete_none by done. lia.
Qed.
Lemma locs_bytes_cons s l ls : locs_bytes s (l :: ls) = seg_bytes s l + locs_bytes s ls.
Proof. done. Qed.
Lemma locs_bytes_app s a b : locs_bytes s (a ++ b) = locs_bytes s a + locs_bytes s b.
Proof. unfold locs_bytes. induction a as [|l a IH]; cbn; [done|]. rewrite IH. lia. Qed.

(** The adjustments a transaction stages for a segment. *)
Definition live_delta (t : Transaction) (s : Segid) : Z := ksum fst s (tx_segs t).

Lemma live_delta_push op t s : live_delta (push op t) s = live_delta t s.
Proof. done. Qed.
Lemma live_delta_add s' l n t s :
  live_delta (add_seg_delta s' l n t) s = live_delta t s + if decide (s' = s) then l else 0.
Proof.
  unfold live_delta, add_seg_delta. destruct (_ && _) eqn:E.
  - apply andb_true_iff in E as [->%Z.eqb_eq _]. case_decide; lia.
  - cbn [tx_segs]. rewrite ksum_app. unfold ksum at 2. cbn. case_decide; cbn; lia.
Qed.

(** What a step of a transaction adds is the change of the referenced bytes. *)
Definition balanced (db : Db) (t t' : Transaction) : Prop :=
  forall s, live_delta t' s - live_delta t s = live_of (extents (tx_db db t')) s - live_of (extents (tx_db db t)) s.

Lemma balanced_refl db t : balanced db t t.
Proof. intros s. lia. Qed.
Lemma balanced_trans db t1 t2 t3 : balanced db t1 t2 -> balanced db t2 t3 -> balanced db t1 t3.
Proof. intros B1 B2 s. specialize (B1 s). specialize (B2 s). lia. Qed.

(** ** Deleted ranges *)

Lemma delete_steps_balanced db id l : forall t,
  NoDup l.*1 -> (forall k loc, (k, loc) ∈ l -> k.1 = id /\ extents (tx_db db t) !! k = Some loc) ->
  balanced db t (foldl (delete_range_step id) t l).
Proof.
  induction l as [|[[i x] loc] l IH]; intros t Hnd Hl; cbn [foldl]; [apply balanced_refl|].
  apply NoDup_cons in Hnd as [Hn Hnd]. destruct (Hl (i, x) loc) as [Hi Hx]; [left|]. cbn in Hi. subst i.
  assert (Hdb : extents (tx_db db (delete_range_step id t (id, x, loc))) = delete (id, x) (extents (tx_db db t))).
  { unfold delete_range_step, extent_delete. by autorewrite with txn. }
  eapply balanced_trans; [|apply IH; [done|]].
  - intros s. rewrite Hdb, live_of_delete, Hx. unfold delete_range_step, extent_delete.
    rewrite live_delta_push, live_delta_add. cbn. unfold seg_bytes. case_decide; lia.
  - intros k l' Hk. destruct (Hl k l') as [Hki Hkl]; [by right|]. split; [done|].
    rewrite Hdb, lookup_delete_ne; [done|]. intros <-. apply Hn, list_elem_of_fmap. by exists (id, x, l').
Qed.

Lemma delete_range_balanced db id start stop t :
  extents (tx_db db t) = extents db -> balanced db t (delete_range db id start stop t).
Proof.
  intros Hun. unfold delete_range. case_match; [apply balanced_refl|]. apply delete_steps_balanced.
  - apply NoDup_fst_map_to_list.
  - intros k loc Hk. apply elem_of_map_to_list, map_lookup_filter_Some in Hk as [Hl [Hk _]]. by rewrite Hun.
Qed.

(** ** Staged edits *)

Lemma live_delta_debits debits s : forall t, live_delta (stage_debits debits t) s = live_delta t s - locs_bytes s debits.
Proof.
  unfold stage_debits. induction debits as [|l debits IH]; intros t; cbn [foldl]; [cbn; lia|].
  rewrite IH, live_delta_add, locs_bytes_cons. unfold seg_bytes. case_decide; lia.
Qed.

Lemma live_delta_stage id edits s : forall locs t,
  length (payloads edits) = length locs ->
  live_delta (stage_txn id edits locs t) s = live_delta t s + locs_bytes s locs.
Proof.
  induction edits as [|[x [d|]] edits IH]; intros locs t Hl; cbn [stage_txn].
  - destruct locs; [cbn; lia|done].
  - destruct locs as [|loc locs]; [done|]. injection Hl as Hl. rewrite IH by exact Hl.
    rewrite live_delta_add, live_delta_push, locs_bytes_cons. unfold seg_bytes. case_decide; lia.
  - rewrite IH by done. unfold extent_delete. by rewrite live_delta_push.
Qed.

(** The bytes the edited keys referred to before. *)
Definition old_bytes (s : Segid) (id : Z) (m : gmap (Z * Z) FrameLoc) (xs : list Z) : Z :=
  foldr (fun x acc => opt_bytes s (m !! (id, x)) + acc) 0 xs.

Lemma old_bytes_cons s id m x xs : old_bytes s id m (x :: xs) = opt_bytes s (m !! (id, x)) + old_bytes s id m xs.
Proof. done. Qed.
Lemma old_bytes_ext s id m m' xs :
  (forall x, x ∈ xs -> m' !! (id, x) = m !! (id, x)) -> old_bytes s id m' xs = old_bytes s id m xs.
Proof.
  unfold old_bytes. induction xs as [|x xs IH]; intros Hx; [done|]. cbn. rewrite (Hx x) by left.
  rewrite IH; [done|]. intros y Hy. apply Hx. by right.
Qed.

Lemma apply_edits_live id edits s : forall locs m,
  NoDup edits.*1 -> length (payloads edits) = length locs ->
  live_of (apply_edits id edits locs m) s = live_of m s + locs_bytes s locs - old_bytes s id m edits.*1.
Proof.
  induction edits as [|[x [d|]] edits IH]; intros locs m Hnd Hl; cbn [apply_edits].
  - destruct locs; [cbn; lia|done].
  - destruct locs as [|loc locs]; [done|]. injection Hl as Hl. apply NoDup_cons in Hnd as [Hn Hnd].
    rewrite IH by (exact Hnd || exact Hl). rewrite live_of_insert, locs_bytes_cons.
    change (((x, Some d) :: edits).*1) with (x :: edits.*1). rewrite old_bytes_cons.
    rewrite (old_bytes_ext s id m); [lia|].
    intros y Hy. rewrite lookup_insert_ne; [done|]. intros [= <-]. done.
  - apply NoDup_cons in Hnd as [Hn Hnd]. rewrite IH by done. rewrite live_of_delete.
    change (((x, None) :: edits).*1) with (x :: edits.*1). rewrite old_bytes_cons.
    rewrite (old_bytes_ext s id m); [lia|].
    intros y Hy. rewrite lookup_delete_ne; [done|]. intros [= <-]. done.
Qed.

(** *** The superseded frames *)

Lemma msum_point {K A} `{Countable K} (h : A -> Z) (k0 : K) (m : gmap K A) :
  msum (fun k v => if decide (k = k0) then h v else 0) m = default 0 (h <$> m !! k0).
Proof.
  destruct (m !! k0) as [v|] eqn:E; cbn.
  - rewrite <- (insert_delete_id m k0 v E), msum_insert_new by apply lookup_delete_eq.
    rewrite decide_True, msum_zero by done || (intros k w [Hk _]%lookup_delete_Some; by rewrite decide_False). lia.
  - apply msum_zero. intros k v Hk. rewrite decide_False; [done|]. congruence.
Qed.

Lemma point_debits_bytes db id xs s : locs_bytes s (point_debits db id xs) = old_bytes s id (extents db) xs.
Proof.
  unfold point_debits. induction xs as [|x xs IH]; [done|]. rewrite old_bytes_cons, <- IH. cbn [omap list_omap].
  by destruct (extents db !! (id, x)).
Qed.

Lemma scan_bytes s (xs : list Z) (l : list (Z * Z * FrameLoc)) :
  locs_bytes s (omap (fun kv : Z * Z * FrameLoc => if decide (kv.1.2 ∈ xs) then Some kv.2 else None) l)
  = foldr (fun e acc => (if decide (e.1.2 ∈ xs) then seg_bytes s e.2 else 0) + acc) 0 l.
Proof.
  induction l as [|kv l IH]; [done|]. cbn [omap list_omap foldr]. rewrite <- IH. by destruct (decide (kv.1.2 ∈ xs)).
Qed.

Lemma scan_debits_bytes db id mn stop xs s :
  NoDup xs -> (forall x, x ∈ xs -> mn <= x < stop) ->
  locs_bytes s (scan_debits db id mn stop xs) = old_bytes s id (extents db) xs.
Proof.
  intros Hnd Hr. unfold scan_debits. rewrite scan_bytes. unfold scan_extents.
  set (M := filter (fun kv : Z * Z * FrameLoc => kv.1.1 = id /\ mn <= kv.1.2 < stop) (extents db)).
  trans (msum (fun k v => if decide (k.2 ∈ xs) then seg_bytes s v else 0) M); 
    [rewrite msum_foldr; apply foldr_ext; [|done..]; intros; by repeat case_decide|].
  induction xs as [|x xs IH].
  { apply msum_zero. intros k v _. rewrite decide_False; [done|]. apply not_elem_of_nil. }
  apply NoDup_cons in Hnd as [Hn Hnd]. rewrite old_bytes_cons, <- IH by (done || (intros y Hy; apply Hr; by right)).
  assert (Hx : M !! (id, x) = extents db !! (id, x)).
  { unfold M. destruct (extents db !! (id, x)) as [l|] eqn:E.
    - apply map_lookup_filter_Some. split; [done|]. split; [done|]. cbn. apply Hr. left.
    - apply map_lookup_filter_None. by left. }
  rewrite <- Hx. unfold opt_bytes. rewrite <- (msum_point (seg_bytes s) (id, x) M), <- msum_add.
  apply msum_ext. intros k v Hk. apply map_lookup_filter_Some in Hk as [_ [Hk _]]. destruct k as [i y]. cbn in *. subst i.
  destruct (decide (y = x)) as [->|Hne].
  - rewrite decide_True by left. rewrite decide_True by done. rewrite decide_False by done. lia.
  - rewrite (decide_False (P := (id, y) = (id, x))) by congruence.
    destruct (decide (y ∈ xs)); [rewrite decide_True by by right|rewrite decide_False; [|rewrite elem_of_cons; tauto]]; lia.
Qed.

Lemma old_bytes_filter s id m (P : Z -> Prop) `{forall x, Decision (P x)} xs :
  (forall x, x ∈ xs -> ~ P x -> m !! (id, x) = None) -> old_bytes s id m (filter P xs) = old_bytes s id m xs.
Proof.
  induction xs as [|x xs IH]; intros Hx; [done|]. rewrite filter_cons, old_bytes_cons.
  assert (Hxs : forall y, y ∈ xs -> ~ P y -> m !! (id, y) = None) by (intros y Hy; apply Hx; by right).
  destruct (decide (P x)); [by rewrite old_bytes_cons, IH|]. rewrite IH by done. rewrite Hx by (done || left). done.
Qed.

Lemma old_bytes_none s id m xs : (forall x, x ∈ xs -> m !! (id, x) = None) -> old_bytes s id m xs = 0.
Proof.
  induction xs as [|x xs IH]; intros Hx; [done|]. rewrite old_bytes_cons, (Hx x), IH by (left || (intros y Hy; apply Hx; by right)).
  done.
Qed.

Lemma list_min_le l mn x : list_min l = Some mn -> x ∈ l -> mn <= x.
Proof.
  destruct l as [|y l]; [done|]. cbn. intros [= <-].
  assert (Hf : forall l a, foldl Z.min a l <= a /\ forall z, z ∈ l -> foldl Z.min a l <= z).
  { clear. induction l as [|w l IH]; intros a; cbn; [split; [lia|intros z ?%not_elem_of_nil; done]|].
    destruct (IH (Z.min a w)) as [Ha Hl]. split; [lia|]. intros z [->|Hz]%elem_of_cons; [lia|by apply Hl]. }
  destruct (Hf l y) as [Ha Hl]. intros [->|Hx]%elem_of_cons; [done|by apply Hl].
Qed.
Lemma list_max_ge l mx x : list_max l = Some mx -> x ∈ l -> x <= mx.
Proof.
  destruct l as [|y l]; [done|]. cbn. intros [= <-].
  assert (Hf : forall l a, a <= foldl Z.max a l /\ forall z, z ∈ l -> z <= foldl Z.max a l).
  { clear. induction l as [|w l IH]; intros a; cbn; [split; [lia|intros z ?%not_elem_of_nil; done]|].
    destruct (IH (Z.max a w)) as [Ha Hl]. split; [lia|]. intros z [->|Hz]%elem_of_cons; [lia|by apply Hl]. }
  destruct (Hf l y) as [Ha Hl]. intros [->|Hx]%elem_of_cons; [done|by apply Hl].
Qed.

(** Both ways to find the superseded frames debit each of them once, and nothing else. *)
Lemma old_debits_bytes db id edits old_end s :
  NoDup edits.*1 -> (forall x loc, extents db !! (id, x) = Some loc -> x < old_end) -> old_end <= U64_MAX ->
  locs_bytes s (old_debits db id edits old_end) = old_bytes s id (extents db) edits.*1.
Proof.
  intros Hnd Hend Hu. unfold old_debits. change (map fst edits) with edits.*1.
  assert (Hnone : forall x, old_end <= x -> extents db !! (id, x) = None).
  { intros x Hx. destruct (extents db !! (id, x)) as [l|] eqn:E; [|done]. apply Hend in E. lia. }
  destruct (list_min edits.*1) as [mn|] eqn:Emn; [|by destruct (edits.*1)].
  destruct (list_max edits.*1) as [mx|] eqn:Emx; [|by destruct (edits.*1)].
  destruct (Z.ltb_spec mn old_end) as [Hlt|Hge].
  - set (stop := Z.min (sat_add_u64 mx 1) old_end).
    assert (Hf : old_bytes s id (extents db) (filter (fun x => x < stop) edits.*1) = old_bytes s id (extents db) edits.*1).
    { apply old_bytes_filter. intros x Hx Hns. apply Hnone. pose proof (list_max_ge _ _ _ Emx Hx). unfold stop in Hns.
      unfold sat_add_u64 in Hns. lia. }
    case_match; [by rewrite point_debits_bytes|]. rewrite scan_debits_bytes; [done|by apply NoDup_filter|].
    intros x [Hs Hx]%list_elem_of_filter. split; [by eapply list_min_le|done].
  - symmetry. apply old_bytes_none. intros x Hx. apply Hnone. pose proof (list_min_le _ _ _ Emn Hx). lia.
Qed.

(** ** The extents a transaction writes *)

Definition op_extent (op : TxOp) : option (Z * Z) :=
  match op with PutExtent id x _ | DelExtent id x => Some (id, x) | _ => None end.
Definition touches (t : Transaction) : list (Z * Z) := omap op_extent (tx_ops t).
Definition only_touches (id : Z) (P : Z -> Prop) (t t' : Transaction) : Prop :=
  forall k, k ∈ touches t' -> k ∈ touches t \/ (k.1 = id /\ P k.2).

Section touches.
Context (id : Z) (P : Z -> Prop).

Lemma only_touches_refl t : only_touches id P t t.
Proof. intros k Hk. by left. Qed.
Lemma only_touches_trans t1 t2 t3 : only_touches id P t1 t2 -> only_touches id P t2 t3 -> only_touches id P t1 t3.
Proof. intros Ht1 Ht2 k Hk. destruct (Ht2 k Hk) as [?|]; auto. Qed.
Lemma only_touches_add s l n t : only_touches id P t (add_seg_delta s l n t).
Proof. intros i. unfold add_seg_delta. case_match; by left. Qed.
Lemma only_touches_push op x t : op_extent op = Some (id, x) -> P x -> only_touches id P t (push op t).
Proof.
  intros Hop Hx k. unfold touches, push. cbn [tx_ops]. rewrite omap_app, elem_of_app. intros [?|Hk]; [by left|right].
  cbn in Hk. rewrite Hop in Hk. by apply list_elem_of_singleton in Hk as ->.
Qed.
Lemma only_touches_fold {A} (step : Transaction -> A -> Transaction) l :
  (forall t a, a ∈ l -> only_touches id P t (step t a)) -> forall t, only_touches id P t (foldl step t l).
Proof.
  induction l as [|a l IH]; intros Hs t; cbn; [apply only_touches_refl|].
  eapply only_touches_trans; [apply Hs; left|apply IH]. intros t' a' Ha. apply Hs. by right.
Qed.

Lemma delete_range_touches db start stop t :
  (forall x, start <= x < stop -> P x) -> only_touches id P t (delete_range db id start stop t).
Proof.
  intros HP. unfold delete_range. case_match; [apply only_touches_refl|]. apply only_touches_fold. intros t' kv Hkv.
  destruct kv as [[i x] loc]. apply elem_of_map_to_list, map_lookup_filter_Some in Hkv as [_ [_ Hr]].
  eapply only_touches_trans; [apply only_touches_add|]. by apply (only_touches_push _ x); [|apply HP].
Qed.
Lemma stage_debits_touches debits t : only_touches id P t (stage_debits debits t).
Proof. apply only_touches_fold. intros t' l _. apply only_touches_add. Qed.
Lemma stage_txn_touches edits : forall locs t,
  (forall x, x ∈ edits.*1 -> P x) -> only_touches id P t (stage_txn id edits locs t).
Proof.
  induction edits as [|[x [d|]] edits IH]; intros locs t HP; cbn [stage_txn]; [apply only_touches_refl| |].
  - destruct locs as [|loc locs]; [apply only_touches_refl|].
    eapply only_touches_trans; [|apply IH; intros y Hy; apply HP; by right].
    eapply only_touches_trans; [|apply only_touches_add]. apply (only_touches_push _ x); [done|]. apply HP. left.
  - eapply only_touches_trans; [|apply IH; intros y Hy; apply HP; by right].
    apply (only_touches_push _ x); [done|]. apply HP. left.
Qed.
End touches.

(** What every step on the extents [P] of the file [id] guarantees. *)
Record accounted (db : Db) (id : Z) (P : Z -> Prop) (t t' : Transaction) : Prop := {
  ac_balanced : balanced db t t';
  ac_touches : only_touches id P t t' }.

Lemma accounted_refl db id P t : accounted db id P t t.
Proof. split; [apply balanced_refl|apply only_touches_refl]. Qed.
Lemma accounted_trans db id P t1 t2 t3 :
  accounted db id P t1 t2 -> accounted db id P t2 t3 -> accounted db id P t1 t3.
Proof. intros [] []. split; [by eapply balanced_trans|by eapply only_touches_trans]. Qed.
Lemma delete_range_accounted db id (P : Z -> Prop) start stop t :
  extents (tx_db db t) = extents db -> (forall x, start <= x < stop -> P x) ->
  accounted db id P t (delete_range db id start stop t).
Proof. intros Hun HP. split; [by apply delete_range_balanced|by apply delete_range_touches]. Qed.

(** ** The operations *)

Lemma stage_accounted db id (P : Z -> Prop) edits locs old_end t :
  NoDup edits.*1 -> length (payloads edits) = length locs ->
  (forall x loc, extents db !! (id, x) = Some loc -> x < old_end) -> old_end <= U64_MAX ->
  (forall x, x ∈ edits.*1 -> extents (tx_db db t) !! (id, x) = extents db !! (id, x)) ->
  (forall x, x ∈ edits.*1 -> P x) ->
  accounted db id P t (stage_debits (old_debits db id edits old_end) (stage_txn id edits locs t)).
Proof.
  intros Hnd Hl Hend Hu Hun HP. split.
  2:{ eapply only_touches_trans; [by apply stage_txn_touches|apply stage_debits_touches]. }
  intros s. rewrite live_delta_debits, live_delta_stage by done.
  rewrite stage_debits_db, stage_txn_db. cbn [extents with_extents]. rewrite apply_edits_live by done.
  rewrite old_debits_bytes by done. rewrite (old_bytes_ext s id (extents db) (extents (tx_db db t))) by done. lia.
Qed.

(** The extents that a range covers. *)
Definition in_span (offset len x : Z) : Prop := offset / EXTENT_SIZE <= x <= (offset + len - 1) / EXTENT_SIZE.
(** The extents that an operation may write. *)
Definition op_span (op : DataOp) (x : Z) : Prop :=
  match op with
  | OpWrite offset data => in_span offset (zlen data) x
  | OpTruncate new_size => new_size / EXTENT_SIZE <= x
  | OpZero offset len => in_span offset len x
  end.

Lemma in_span_seqZ offset len x :
  x ∈ seqZ (offset / EXTENT_SIZE) ((offset + len - 1) / EXTENT_SIZE - offset / EXTENT_SIZE + 1) <-> in_span offset len x.
Proof. rewrite elem_of_seqZ. unfold in_span. lia. Qed.

Lemma floor_le_ceil n : n / EXTENT_SIZE <= div_ceil n EXTENT_SIZE.
Proof. unfold div_ceil, EXTENT_SIZE. apply Z.div_le_mono; lia. Qed.
Lemma floor_ceil_pred n : 0 < n mod EXTENT_SIZE -> n / EXTENT_SIZE <= div_ceil n EXTENT_SIZE - 1.
Proof.
  unfold div_ceil, EXTENT_SIZE. intros Hm. pose proof (Z.div_mod n 32768 ltac:(done)) as Hd.
  enough (n / 32768 + 1 <= (n + 32768 - 1) / 32768) by lia. apply Z.div_le_lower_bound; lia.
Qed.

Section ops.
Context {S Hint : Type} `{FrameStoreLaws S Hint}.
Implicit Types (e : ExtentStore S) (f : VFile).

Lemma FileRep_end (s : S) m id f x loc :
  FileRep s m id f -> m !! (id, x) = Some loc -> x < div_ceil (vf_size f) EXTENT_SIZE.
Proof. intros Hr Hx. by apply (fr_extent _ _ _ _ Hr) in Hx as [_ [_ ?]]. Qed.
Lemma end_u64 f : 0 <= vf_size f <= U64_MAX -> div_ceil (vf_size f) EXTENT_SIZE <= U64_MAX.
Proof.
  intros Hs. unfold div_ceil, EXTENT_SIZE. apply Z.div_le_upper_bound; [done|]. unfold U64_MAX in *. lia.
Qed.

Lemma extent_write_accounted h db id offset data f t e u t' e' :
  es_ok e -> fs_ready h id (es_frames e) -> Stored e (extents db) id f -> untouched db t id ->
  0 <= offset -> offset + zlen data <= U64_MAX + 1 - EXTENT_SIZE -> vf_size f <= U64_MAX ->
  extent_write h db id offset data (vf_size f) t e = (Ok (u, t'), e') -> accounted db id (op_span (OpWrite offset data)) t t'.
Proof.
  intros Hok Hr [Hrep Htail] Hun Hoff Hmax Hsz. destruct (decide (data = [])) as [->|Hne].
  { unfold extent_write. rewrite bool_decide_true by done. intros [= _ <- _]. apply accounted_refl. }
  destruct (extent_write_spec id offset data f Hne Hoff Hmax h db t e Hok Hr Hrep Htail) as (r & e1 & -> & _ & _ & Hres).
  intros [= -> ->]. destruct Hres as (locs & Hw & _ & -> & _). apply stage_accounted; [|by eapply Forall2_length| | | |].
  - rewrite all_edits_fst. apply NoDup_seqZ.
  - intros x loc. by apply (FileRep_end _ _ _ _ _ _ Hrep).
  - apply end_u64. split; [apply Hrep|done].
  - intros x _. apply Hun.
  - intros x. rewrite all_edits_fst. by apply in_span_seqZ.
Qed.

Lemma truncate_accounted h db id new_size f t e t' e' :
  es_ok e -> fs_ready h id (es_frames e) -> Stored e (extents db) id f ->
  extents (tx_db db t) = extents db -> 0 <= new_size <= U64_MAX -> vf_size f <= U64_MAX ->
  truncate h db id (vf_size f) new_size t e = (Ok t', e') -> accounted db id (op_span (OpTruncate new_size)) t t'.
Proof.
  intros Hok Hr [Hrep _] Hun Hnew Hsz. destruct (Z.le_gt_cases (vf_size f) new_size) as [Hle|Hlt].
  { unfold truncate. rewrite (proj2 (Z.leb_le _ _)) by done. intros [= <- _]. apply accounted_refl. }
  assert (Hn : 0 <= new_size < vf_size f) by lia.
  destruct (truncate_spec id new_size f Hn (proj2 Hnew) h db t e Hok Hr Hrep) as (r & e1 & -> & _ & Hres).
  intros [= -> ->]. destruct Hres as (locs & Hw & _ & ->).
  apply (accounted_trans _ _ _ _ (delete_range db id (div_ceil new_size EXTENT_SIZE) (div_ceil (vf_size f) EXTENT_SIZE) t)).
  { apply delete_range_accounted; [done|]. intros x Hx. change (new_size / EXTENT_SIZE <= x). pose proof (floor_le_ceil new_size). lia. }
  apply stage_accounted; [|by eapply Forall2_length| | | |].
  - unfold truncate_edits. destruct (0 <? _); [apply NoDup_singleton|constructor].
  - intros x loc. by apply (FileRep_end _ _ _ _ _ _ Hrep).
  - apply end_u64. split; [apply Hrep|done].
  - intros x Hx. rewrite tx_db_delete_range by done. cbn [extents with_extents]. rewrite Hun, lookup_clear_range.
    rewrite decide_False; [done|]. unfold truncate_edits in Hx. destruct (0 <? _); [|by apply not_elem_of_nil in Hx].
    apply list_elem_of_singleton in Hx. cbn in Hx |- *. lia.
  - intros x Hx. unfold truncate_edits in Hx. destruct (0 <? _) eqn:Em; [|by apply not_elem_of_nil in Hx].
    apply list_elem_of_singleton in Hx. cbn in Hx. subst x. apply floor_ceil_pred. lia.
Qed.

Lemma zero_range_accounted h db id offset len f t e t' e' :
  es_ok e -> fs_ready h id (es_frames e) -> Stored e (extents db) id f -> untouched db t id ->
  0 <= offset -> 0 <= len -> offset + len <= U64_MAX + 1 - EXTENT_SIZE -> vf_size f <= U64_MAX ->
  zero_range h db id offset len (vf_size f) t e = (Ok t', e') -> accounted db id (op_span (OpZero offset len)) t t'.
Proof.
  intros Hok Hr [Hrep _] Hun Hoff Hlen Hmax Hsz. destruct (decide (len = 0)) as [->|Hne].
  { unfold zero_range. intros [= <- _]. apply accounted_refl. }
  assert (Hpos : 0 < len) by lia.
  destruct (zero_range_spec id offset len f Hoff Hpos Hmax h db t e Hok Hr Hrep) as (r & e1 & -> & _ & edits & Hed & Hres).
  intros [= -> ->]. destruct Hres as (locs & Hw & _ & ->). apply stage_accounted; [|by eapply Forall2_length| | | |].
  - eapply sublist_NoDup; [apply NoDup_seqZ|apply Hed].
  - intros x loc. by apply (FileRep_end _ _ _ _ _ _ Hrep).
  - apply end_u64. split; [apply Hrep|done].
  - intros x _. apply Hun.
  - intros x Hx. apply in_span_seqZ. eapply elem_of_sublist; [exact Hx|]. apply Hed.
Qed.

(** C15: every data operation accounts for the frames it supersedes: for each segment, the
    adjustments its transaction stages sum to the change that the transaction makes to the
    bytes that extents refer to in that segment - whether the superseded frames were found
    by point lookups or by a range scan, and for whole and partial extents, holes, and
    operations that cross the end of the file - and it writes the extents of its own range
    of its own file only.  The same holds for the deletion of a range of extents. *)
Theorem data_ops_accounted h db id op f t e :
  es_ok e -> fs_ready h id (es_frames e) -> Stored e (extents db) id f -> vf_size f <= U64_MAX ->
  extents (tx_db db t) = extents db -> op_fits op ->
  (forall u t' e', run_op h db id (vf_size f) op t e = (Ok (u, t'), e') -> accounted db id (op_span op) t t') /\
  (forall start stop, accounted db id (fun x => start <= x < stop) t (delete_range db id start stop t)).
Proof.
  intros Hok Hr Hst Hsz Hun Hfit. assert (Hunt : untouched db t id) by (intros x; by rewrite Hun).
  split; [|intros; by apply delete_range_accounted].
  intros u t' e'. destruct op as [offset data|new_size|offset len]; cbn [run_op op_fits] in *.
  - destruct Hfit. by eapply extent_write_accounted.
  - unfold mbind, stM_bind. destruct (truncate _ _ _ _ _ _ _) as [[t1|] e1] eqn:E; [|done].
    intros [= <- <- <-]. exact (truncate_accounted h db id new_size f t e t1 e1 Hok Hr Hst Hun Hfit Hsz E).
  - destruct Hfit as (? & ? & ?). unfold mbind, stM_bind. destruct (zero_range _ _ _ _ _ _ _ _) as [[t1|] e1] eqn:E; [|done].
    intros [= <- <- <-]. by apply (zero_range_accounted h db id offset len f t e t1 e1).
Qed.
End ops.

(** ** Batches *)

(** The change an operation makes depends on the extents of the touched inodes only. *)
Definition agree_on (ks : list (Z * Z)) (m m' : gmap (Z * Z) FrameLoc) : Prop :=
  forall k, k ∈ ks -> m' !! k = m !! k.

Lemma live_change ops s : forall d d',
  agree_on (omap op_extent ops) (extents d) (extents d') ->
  live_of (extents (apply_ops d' ops)) s - live_of (extents d') s
  = live_of (extents (apply_ops d ops)) s - live_of (extents d) s.
Proof.
  induction ops as [|op ops IH]; intros d d' Hag; cbn [apply_ops foldl]; [lia|].
  pose proof (IH (apply_op d op) (apply_op d' op)) as Hi. unfold apply_ops in Hi. cbn [omap list_omap] in Hag.
  destruct op; try (cbn in Hi |- *; apply Hi; exact Hag).
  - cbn [op_extent] in Hag. assert (Hx : extents d' !! (id, x) = extents d !! (id, x)) by (apply Hag; left).
    assert (live_of (extents (apply_op d' (PutExtent id x l))) s - live_of (extents d') s
            = live_of (extents (apply_op d (PutExtent id x l))) s - live_of (extents d) s)
      by (cbn; rewrite !live_of_insert, Hx; lia).
    enough (agree_on (omap op_extent ops) (extents (apply_op d (PutExtent id x l)))
              (extents (apply_op d' (PutExtent id x l)))) as Ha by (specialize (Hi Ha); lia).
    intros k Hk. cbn. destruct (decide ((id, x) = k)) as [<-|Hne]; [by rewrite !lookup_insert_eq|].
    rewrite !lookup_insert_ne by done. apply Hag. by right.
  - cbn [op_extent] in Hag. assert (Hx : extents d' !! (id, x) = extents d !! (id, x)) by (apply Hag; left).
    assert (live_of (extents (apply_op d' (DelExtent id x))) s - live_of (extents d') s
            = live_of (extents (apply_op d (DelExtent id x))) s - live_of (extents d) s)
      by (cbn; rewrite !live_of_delete, Hx; lia).
    enough (agree_on (omap op_extent ops) (extents (apply_op d (DelExtent id x)))
              (extents (apply_op d' (DelExtent id x)))) as Ha by (specialize (Hi Ha); lia).
    intros k Hk. cbn. destruct (decide ((id, x) = k)) as [<-|Hne]; [by rewrite !lookup_delete_eq|].
    rewrite !lookup_delete_ne by done. apply Hag. by right.
Qed.

(** Transactions of one batch are staged side by side: each from the database before the
    batch, under the lock of its inode, and no two write the same extent
    (see [wait_for_overlap] of [fs/store/extent/inflight.rs]). *)
Definition batch_segs (batch : list Request) : list (Segid * (Z * Z)) :=
  concat (map (fun r => tx_segs (rq_txn r)) batch).
Fixpoint apart (batch : list Request) : Prop :=
  match batch with
  | [] => True
  | r :: rest =>
      (forall r' k, r' ∈ rest -> k ∈ touches (rq_txn r) -> k ∉ touches (rq_txn r')) /\ apart rest
  end.

Lemma extents_untouched ops : forall d k,
  k ∉ omap op_extent ops -> extents (apply_ops d ops) !! k = extents d !! k.
Proof.
  induction ops as [|op ops IH]; intros d k Hn; [done|]. cbn [apply_ops foldl]. fold (apply_ops (apply_op d op) ops).
  cbn [omap list_omap] in Hn. rewrite IH by (intros Hc; apply Hn; destruct (op_extent op); [by right|done]).
  destruct op; try done; cbn [op_extent] in Hn; cbn.
  - rewrite lookup_insert_ne; [done|]. intros <-. apply Hn. left.
  - rewrite lookup_delete_ne; [done|]. intros <-. apply Hn. left.
Qed.

Lemma batch_live d s : forall batch d',
  apart batch -> Forall (fun r => balanced d txn_new (rq_txn r)) batch ->
  (forall r, r ∈ batch -> agree_on (touches (rq_txn r)) (extents d) (extents d')) ->
  live_of (extents (apply_ops d' (batch_ops batch))) s - live_of (extents d') s = ksum fst s (batch_segs batch).
Proof.
  induction batch as [|r batch IH]; intros d' Hap Hb Hag; [cbn; lia|]. destruct Hap as [Hap Hr].
  apply Forall_cons in Hb as [Hbr Hb].
  change (batch_ops (r :: batch)) with (tx_ops (rq_txn r) ++ batch_ops batch).
  change (batch_segs (r :: batch)) with (tx_segs (rq_txn r) ++ batch_segs batch).
  rewrite ksum_app. unfold apply_ops. rewrite foldl_app. fold (apply_ops d' (tx_ops (rq_txn r))).
  set (d1 := apply_ops d' (tx_ops (rq_txn r))). fold (apply_ops d1 (batch_ops batch)).
  rewrite <- (IH d1 Hr Hb).
  - pose proof (live_change (tx_ops (rq_txn r)) s d d' (Hag r (list_elem_of_here _ _))) as Hc. fold d1 in Hc.
    specialize (Hbr s). unfold live_delta at 2, tx_db in Hbr. cbn in Hbr. unfold live_delta in Hbr. lia.
  - intros r' Hr' k Hk. unfold d1. rewrite extents_untouched by (intros Hc; by apply (Hap r' k Hr' Hc)).
    apply (Hag r'); [by right|done].
Qed.

Lemma seg_deltas_bumps batch : seg_deltas batch = bumps ∅ (batch_segs batch).
Proof.
  unfold seg_deltas, batch_segs, bumps. generalize (∅ : gmap Segid (Z * Z)).
  induction batch as [|r batch IH]; intros m; [done|]. cbn. by rewrite IH, foldl_app.
Qed.

(** The rows that the operations drop. *)
Definition drop_of (op : TxOp) : option Segid := match op with DelSegcount s => Some s | _ => None end.
Definition drop_rows (l : list TxOp) (m : gmap Segid (Z * Z)) : gmap Segid (Z * Z) :=
  foldl (fun m s => delete s m) m (omap drop_of l).

Lemma segcounts_ops l d : (forall s v, PutSegcount s v ∉ l) -> segcounts (apply_ops d l) = drop_rows l (segcounts d).
Proof.
  revert d. induction l as [|op l IH]; intros d Hl; [done|]. cbn [apply_ops foldl]. fold (apply_ops (apply_op d op) l).
  rewrite IH by (intros s v Hc; apply (Hl s v); by right).
  destruct op; try done. destruct (Hl s v). by left.
Qed.
Lemma drop_rows_lookup (l : list TxOp) (s : Segid) (m : gmap Segid (Z * Z)) :
  drop_rows l m !! s = None /\ DelSegcount s ∈ l \/ drop_rows l m !! s = m !! s.
Proof.
  unfold drop_rows. revert m. induction l as [|op l IH]; intros m; [by right|].
  destruct (drop_of op) as [s'|] eqn:E.
  - destruct op; cbn in E; simplify_eq. cbn [omap list_omap drop_of foldl].
    destruct (IH (delete s' m)) as [[-> ?]| ->]; [left; split; [done|by right]|].
    destruct (decide (s' = s)) as [->|Hne]; [left; split; [apply lookup_delete_eq|left]|right; by apply lookup_delete_ne].
  - cbn [omap list_omap]. rewrite E. destruct (IH m) as [[-> ?]| ->]; [left; split; [done|by right]|by right].
Qed.

Lemma merged_segcounts f batch d :
  (forall s v, PutSegcount s v ∉ batch_ops batch) ->
  segcounts (apply_ops d (merged_ops f batch)) =
  foldl (fun m e => <[e.1 := e.2]> m) (drop_rows (batch_ops batch) (segcounts d)) (staged_segs (fs_db f) batch).
Proof.
  intros Hn. unfold merged_ops, apply_ops. rewrite !foldl_app. fold (apply_ops d (batch_ops batch)).
  assert (Hp : forall (l : list (Segid * (Z * Z))) d,
    segcounts (foldl apply_op d (map (fun e => PutSegcount e.1 e.2) l)) =
    foldl (fun m e => <[e.1 := e.2]> m) (segcounts d) l).
  { induction l as [|e l IH]; intros d'; [done|]. cbn. by rewrite IH. }
  rewrite Hp. f_equal.
  assert (Hs : forall l d, segcounts (foldl apply_op d (map (fun e => PutShard e.1 e.2) l)) = segcounts d).
  { induction l as [|e l IH]; intros d'; [done|]. cbn. by rewrite IH. }
  rewrite Hs. destruct (counter_staged f); cbn; by rewrite segcounts_ops.
Qed.

(** ** Exactness *)

Record SegInv (f : FS) : Prop := {
  si_live : forall s, (gget (segcounts (fs_db f)) s).1 = live_of (extents (fs_db f)) s;
  si_pos : forall k loc, extents (fs_db f) !! k = Some loc -> 0 < fl_byte_len loc }.

(** What the data plane guarantees about the transactions of a batch: each accounts for
    itself, no two write one extent, nobody writes a counter directly, a counter is dropped
    only when nothing refers to its segment, frames are not empty and the sums stay below 2^63. *)
Record batch_balanced (f : FS) (batch : list Request) : Prop := {
  bb_balanced : Forall (fun r => balanced (fs_db f) txn_new (rq_txn r)) batch;
  bb_apart : apart batch;
  bb_nocount : forall s v, PutSegcount s v ∉ batch_ops batch;
  bb_drops : forall s, DelSegcount s ∈ batch_ops batch -> live_of (extents (apply_ops (fs_db f) (batch_ops batch))) s = 0;
  bb_pos : forall id x loc, PutExtent id x loc ∈ batch_ops batch -> 0 < fl_byte_len loc;
  bb_small : forall s, ksum (fun v => Z.abs v.1) s (batch_segs batch) <= I64_MAX;
  bb_bound : forall s, live_of (extents (apply_ops (fs_db f) (batch_ops batch))) s <= U64_MAX }.

Lemma extents_origin ops : forall d k loc, extents (apply_ops d ops) !! k = Some loc ->
  extents d !! k = Some loc \/ PutExtent k.1 k.2 loc ∈ ops.
Proof.
  induction ops as [|op ops IH]; intros d k loc Hk; [by left|]. cbn in Hk.
  destruct (IH _ _ _ Hk) as [Hd|Hin]; [|right; by right].
  destruct op; try (by left); cbn in Hd.
  - apply lookup_insert_Some in Hd as [[<- <-]|[_ Hd]]; [right; left|by left].
  - apply lookup_delete_Some in Hd as [_ Hd]. by left.
Qed.

Lemma live_of_nonneg m s : (forall k loc, m !! k = Some loc -> 0 < fl_byte_len loc) -> 0 <= live_of m s.
Proof. intros Hp. apply msum_nonneg. intros k loc Hk. unfold seg_bytes. specialize (Hp k loc Hk). case_decide; lia. Qed.
Lemma live_of_zero m s k loc :
  (forall k loc, m !! k = Some loc -> 0 < fl_byte_len loc) -> live_of m s = 0 -> m !! k = Some loc -> fl_segid loc <> s.
Proof.
  intros Hp Hz Hk Hs.
  assert (Hb : seg_bytes s loc = 0).
  { apply (msum_zero_inv (fun _ loc => seg_bytes s loc) m k loc); [|done|done].
    intros k' l' Hk'. unfold seg_bytes. specialize (Hp k' l' Hk'). case_decide; lia. }
  unfold seg_bytes in Hb. rewrite decide_True in Hb by done. specialize (Hp k loc Hk). lia.
Qed.

(** The counters that a written batch leaves. *)
Lemma staged_live f batch s :
  SegInv f -> batch_balanced f batch ->
  (gget (foldl (fun m e => <[e.1 := e.2]> m) (drop_rows (batch_ops batch) (segcounts (fs_db f))) (staged_segs (fs_db f) batch)) s).1
  = live_of (extents (apply_ops (fs_db f) (batch_ops batch))) s.
Proof.
  intros [Hl Hp] [Bb Ba Bn Bd Bp Bs Bu]. unfold gget at 1, staged_segs.
  rewrite (foldl_insert_staged (fun s d => (u64_wrap (Z.max ((gget (segcounts (fs_db f)) s).1 + d.1) 0),
    u64_wrap (Z.max ((gget (segcounts (fs_db f)) s).2 + d.2) (gget (segcounts (fs_db f)) s).2)))).
  pose proof (batch_live (fs_db f) s batch (fs_db f) Ba Bb ltac:(intros r Hr k Hk; done)) as Hch.
  assert (Hd : (gget (seg_deltas batch) s).1 = ksum fst s (batch_segs batch)).
  { rewrite seg_deltas_bumps, bumps_fst; unfold gget; rewrite lookup_empty; cbn; [lia|]. apply Bs. }
  assert (Hp' : 0 <= live_of (extents (apply_ops (fs_db f) (batch_ops batch))) s).
  { apply live_of_nonneg. intros k loc [Hk|Hk]%extents_origin; [by eapply Hp|by eapply Bp]. }
  specialize (Hl s). specialize (Bu s). unfold gget in Hd.
  destruct (seg_deltas batch !! s) as [d|]; cbn in Hd |- *.
  - rewrite Hl. unfold u64_wrap. rewrite Z.mod_small; ulia.
  - destruct (drop_rows_lookup (batch_ops batch) s (segcounts (fs_db f))) as [[-> Ed]| ->]; [by rewrite (Bd s Ed)|].
    fold (gget (segcounts (fs_db f)) s). lia.
Qed.

Lemma segcounts_keep ret inst o batch f :
  SegInv f -> batch_balanced f batch -> SegInv (process_batch ret inst o batch f).2.
Proof.
  intros Hi Hb. destruct (process_batch_spec ret inst o batch f) as [e f1 Hdb _ _ _ _|r f1 Hdb _ _ _ _].
  { destruct Hi. split; by rewrite Hdb. }
  assert (Hex : extents (fs_db f1) = extents (apply_ops (fs_db f) (batch_ops batch))).
  { rewrite Hdb. pose proof (core_merged f batch (fs_db f)) as Hc. unfold core in Hc. congruence. }
  split; rewrite Hex.
  - intros s. rewrite Hdb, merged_segcounts by apply Hb. by apply staged_live.
  - intros k loc [Hk|Hk]%extents_origin; [by eapply Hi|by eapply Hb].
Qed.


(** A batch of two transactions: file 7 overwrites its first extent while file 8 drops
    its only one; both were in segment 1. *)
Module TestCounts.
Definition old_seg : Segid := mkSegid 1 1.
Definition new_seg : Segid := mkSegid 1 2.
Definition db : Db :=
  with_extents (fun _ => {[(7, 0) := mkFrameLoc old_seg 0 0 50; (8, 0) := mkFrameLoc old_seg 1 50 60]})
    (apply_op empty_db (PutSegcount old_seg (110, 110))).
Definition edits : list (Z * option bytes) := [(0, Some [1])].
Definition write : Transaction :=
  stage_debits (old_debits db 7 edits 1) (stage_txn 7 edits [mkFrameLoc new_seg 0 0 70] txn_new).
Definition drop : Transaction := delete_range db 8 0 1 txn_new.
Definition batch : list Request := [mkRequest write None SettleNone; mkRequest drop None SettleNone].

Definition fs : FS := mkFS db 1 1 ∅ Inner_new (LogicalQuota_new 1000000 0) ∅ [].

Lemma db_extents k loc : extents db !! k = Some loc -> k.2 < 1 /\ 0 < fl_byte_len loc.
Proof.
  cbn. intros [[<- <-]|[_ Hk]]%lookup_insert_Some; [cbn; lia|].
  apply lookup_singleton_Some in Hk as [<- <-]. cbn. lia.
Qed.
Lemma fs_inv : SegInv fs.
Proof.
  split; [|intros k loc Hk; by apply (db_extents k)]. intros s. cbn [fs_db fs extents db with_extents].
  rewrite live_of_insert, <- (insert_empty (8, 0)), live_of_insert. unfold live_of, seg_bytes, opt_bytes, gget. cbn.
  rewrite msum_empty. change old_seg with (mkSegid 1 1). destruct (decide (mkSegid 1 1 = s)) as [<-|Hne]; [done|].
  by rewrite lookup_insert_ne.
Qed.
Lemma write_balanced : balanced db txn_new write.
Proof.
  apply (stage_accounted db 7 (fun _ => True)); [apply NoDup_singleton|done| |ulia|done|done]. intros x loc Hx. by apply db_extents in Hx as [? _].
Qed.
Lemma drop_balanced : balanced db txn_new drop.
Proof. by apply delete_range_balanced. Qed.
Lemma batch_ok : batch_balanced fs batch.
Proof.
  split.
  - repeat constructor; [apply write_balanced|apply drop_balanced].
  - split; [|split; [|done]].
    + intros r' k ->%list_elem_of_singleton. vm_compute. intros Hk Hk'.
      apply list_elem_of_singleton in Hk, Hk'. congruence.
    + intros r' k Hr'. by apply not_elem_of_nil in Hr'.
  - intros s v. assert (Hb : forallb (fun op => match op with PutSegcount _ _ => false | _ => true end) (batch_ops batch) = true)
      by (vm_compute; reflexivity).
    intros Hin. apply list_elem_of_In in Hin. apply (proj1 (forallb_forall _ _) Hb) in Hin. done.
  - intros s. assert (Hb : forallb (fun op => match op with DelSegcount _ => false | _ => true end) (batch_ops batch) = true)
      by (vm_compute; reflexivity).
    intros Hin. apply list_elem_of_In in Hin. apply (proj1 (forallb_forall _ _) Hb) in Hin. done.
  - intros id x loc Hin.
    assert (Hb : forallb (fun op => match op with PutExtent _ _ l => 0 <? fl_byte_len l | _ => true end) (batch_ops batch) = true)
      by (vm_compute; reflexivity).
    apply list_elem_of_In in Hin. apply (proj1 (forallb_forall _ _) Hb) in Hin. cbn in Hin. lia.
  - intros s. assert (Hs : batch_segs batch = [(new_seg, (70, 70)); (old_seg, (-50, 0)); (old_seg, (-60, 0))])
      by (vm_compute; reflexivity).
    rewrite Hs. unfold ksum. cbn. repeat case_decide; ulia.
  - intros s. assert (Hs : extents (apply_ops db (batch_ops batch)) = {[(7, 0) := mkFrameLoc new_seg 0 0 70]})
      by (vm_compute; reflexivity).
    cbn [fs_db fs]. rewrite Hs, <- (insert_empty (7, 0)), live_of_insert, lookup_empty. unfold live_of, seg_bytes, opt_bytes. cbn.
    rewrite msum_empty. case_decide; ulia.
Qed.
End TestCounts.

