(* ===== verification/DataPlane.v ===== *)
(** * Files over lanes and objects

    The data plane ([ExtentSpec]) over its implementation ([Frames]): what a flush makes
    durable, and concrete instances of the refinement theorems. *)

From S2P Require Import Prelude Errors FrameCodec Segment Inode Store Boot Lanes FrameStore SegmentStore Frames Extent ExtentSpec SegCounts.

Section durability.
Context `{CodecPrimsLaws, Crc32cLaws} (compression : CompressionConfig) (seal_threshold max_inflight_seals : Z).

#[local] Instance the_store : FrameStore Frames AppendHint := frames_store compression seal_threshold max_inflight_seals.
#[local] Instance the_laws : FrameStoreLaws Frames AppendHint := frames_laws compression seal_threshold max_inflight_seals.

Lemma FileRep_keeps f f' m id v : keeps f f' -> FileRep f m id v -> FileRep f' m id v.
Proof.
  intros [_ Hh Hd] [Hs He Ho Hz]. split; try done. intros x loc Hl. destruct (He x loc Hl) as [[Hf Hn] Hx].
  split; [|done]. split; [by apply Hh|]. cbn. by rewrite Hd.
Qed.

(** C8: the durability barrier of a flush always returns.  When it succeeds, every file
    survives a crash: a store opened over the objects alone, by a writer with a higher
    epoch, represents the same file with the same extents.  When it fails, every file is
    still served from memory or from the store.  It succeeds whenever the uploads are
    delivered and the open lanes can be sealed. *)
Theorem flush_durable env f m id v :
  FramesInv f -> env_ok env -> 0 < max_inflight_seals ->
  fr_counter f + Z.of_nat OPEN_SEGMENT_LANES <= U64_MAX -> FileRep f m id v ->
  let '(r, f') := seal_open compression max_inflight_seals env f in
  (forall e, r = Some (Ok tt) -> epoch_above e (fr_objects f') ->
     FramesInv (new_frames e (fr_objects f')) /\ FileRep (new_frames e (fr_objects f')) m id v) /\
  (r <> None /\ FramesInv f' /\ FileRep f' m id v) /\
  (env_delivers env -> sealable compression env f -> r = Some (Ok tt)).
Proof.
  intros Inv Henv Hmax Hroom Hrep.
  pose proof (seal_open_success compression max_inflight_seals env f Inv Henv) as Hsucc.
  destruct (seal_open_spec compression max_inflight_seals env f Inv Henv Hroom) as (r & f' & E & Hk & Hset).
  rewrite E in *. pose proof (FileRep_keeps f f' m id v Hk Hrep) as Hrep'. pose proof (kp_inv _ _ Hk) as Inv'.
  split; [|split; [split; [discriminate|split; [exact Inv'|exact Hrep']]|intros Hd Hse; by apply Hsucc]].
  intros e [= ->] Hab. split; [by apply new_frames_inv; [apply frames_objects_wf|]|]. destruct Hrep' as [Hs He Ho Hz]. split; try done.
  intros x loc Hl. destruct (He x loc Hl) as [[Hf Hn] Hx]. split; [|done].
  apply (reopened_object f' e id x loc); [done|done|]. by apply settled_on_store; [|apply Hset|..].
Qed.
End durability.

(** ** Concrete stores *)

Module TestPlane.
#[local] Existing Instance TestPrims.prims.
#[local] Existing Instance TestCrc.crc.
#[export] Instance store : FrameStore Frames AppendHint :=
  frames_store (H := TestPrims.prims) (H0 := TestCrc.crc) Lz4 100000 4.
#[export] Instance laws : FrameStoreLaws Frames AppendHint :=
  frames_laws (H := TestPrims.prims) (H0 := TestPrims.laws) (H1 := TestCrc.crc) (H2 := TestCrc.laws) Lz4 100000 4.

Definition hint : AppendHint :=
  mkAppendHint (fun i => (i =? 3)%nat) (fun _ => TestSegment.nonce) TestSegment.nonce [].
Definition fresh : Frames := new_frames 7 (mkObjects ∅ ∅).

Lemma fresh_inv : FramesInv fresh.
Proof.
  apply (new_frames_inv (H := TestPrims.prims) (H0 := TestPrims.laws) (H1 := TestCrc.crc) (H2 := TestCrc.laws)).
  { split; intros s; cbn; rewrite !lookup_empty; [done|by intros []]. }
  split; [ulia|]. intros s. cbn. rewrite !lookup_empty. by intros [[]|[]].
Qed.

(** A file of 100 bytes whose first byte is 7, appended to a fresh store. *)
Definition file : VFile := mkVFile 100 (fun o => if o =? 0 then 7 else 0).
Definition content : bytes := 7 :: replicate (ES - 1) 0.
Definition appended : result FsError (list FrameLoc) * Frames := fs_append hint 9 [(0, content)] fresh.
Definition loc : FrameLoc := mkFrameLoc (mkSegid 7 1) 0 0 32817.
Definition es : ExtentStore Frames := mkES appended.2 ∅ ∅.
Definition db : Db := with_extents (fun _ => {[(9, 0) := loc]}) empty_db.

Lemma appended_Ok : appended.1 = Ok [loc].
Proof. vm_compute. reflexivity. Qed.
Lemma appended_room : fr_counter appended.2 = 4.
Proof. vm_compute. reflexivity. Qed.

Lemma ready_fresh : fs_ready hint 9 fresh.
Proof. by split_and!. Qed.
Lemma content_data : content = extent_data file 0.
Proof.
  pose proof ES_val. unfold EXTENT_SIZE in *. apply extent_data_eq.
  - unfold content. cbn [length]. rewrite length_replicate. lia.
  - intros [|k] Hk; [done|]. unfold content. change (replicate (ES - 1) 0 !! k = Some (vf_byte file (0 * EXTENT_SIZE + Z.of_nat (S k)))).
    rewrite lookup_replicate_2 by (unfold EXTENT_SIZE in Hk; lia). cbn. destruct (Z.eqb_spec (Z.pos (Pos.of_succ_nat k)) 0); [lia|done].
Qed.
Lemma payload : Forall payload_ok [(0, content)].
Proof.
  apply Forall_singleton. split; [cbn; ulia|]. cbn [snd]. rewrite content_data, zlen_extent_data.
  unfold EXTENT_SIZE. ulia.
Qed.

Lemma appended_spec : FramesInv appended.2 /\ fs_holds appended.2 9 0 loc (extent_data file 0).
Proof.
  destruct (@fs_append_spec _ _ store laws hint 9 [(0, content)] fresh fresh_inv ready_fresh payload) as (Hi & _ & Hd & _ & _ & Hl).
  change (fs_append hint 9 [(0, content)] fresh) with appended in *. split; [exact Hi|].
  specialize (Hl [loc] appended_Ok). apply Forall2_cons in Hl as [(Hh & Hn & _) _]. cbn [fst snd] in Hh.
  rewrite content_data in Hh. split; [exact Hh|]. intros Hdead. exact (Hn (proj1 (Hd _) Hdead)).
Qed.

Lemma es_good : es_ok es.
Proof. split; [apply appended_spec|]. intros id x l d. cbn. by rewrite lookup_empty. Qed.
Lemma ready : fs_ready hint 9 (es_frames es).
Proof.
  change (frames_ready hint 9 appended.2). unfold frames_ready. rewrite appended_room. by split_and!.
Qed.
Lemma file_rep : FileRep appended.2 (extents db) 9 file.
Proof.
  split.
  - done.
  - intros x l Hl. change (({[(9, 0) := loc]} : gmap (Z * Z) FrameLoc) !! (9, x) = Some l) in Hl.
    apply lookup_singleton_Some in Hl as [[= <-] <-].
    split; [apply appended_spec|]. split; [lia|]. apply lt_div_ceil. cbn. lia.
  - intros x Hx Hl. change (({[(9, 0) := loc]} : gmap (Z * Z) FrameLoc) !! (9, x) = None) in Hl.
    apply lookup_singleton_None in Hl. apply extent_data_zero. intros o Ho. cbn.
    destruct (Z.eqb_spec o 0); [|done]. subst o. destruct Hl. f_equal. unfold EXTENT_SIZE in Ho. lia.
  - intros o Ho. cbn in *. destruct (Z.eqb_spec o 0); [lia|done].
Qed.
Lemma file_stored : Stored es (extents db) 9 file.
Proof. split; [exact file_rep|]. intros x d. cbn. by rewrite lookup_empty. Qed.

(** A flush in which every upload is delivered. *)
Definition env : FlushEnv :=
  mkFlushEnv (fun _ _ => mkPutFate (mkCreateFate true Delivered true) (UploadAccepted true))
    (fun _ => TestSegment.nonce) (fun _ => 0%nat).
Definition lane_seals (i : nat) : bool :=
  match fr_lanes appended.2 !! i with
  | Some o => is_ok (finalize_segment (H := TestPrims.prims) (H0 := TestCrc.crc) Lz4 TestSegment.nonce (os_segid o) (os_buf o)
                       (os_dir o) (counter (os_segid o)))
  | None => true
  end.
Lemma lanes_seal : forallb lane_seals (seq 0 OPEN_SEGMENT_LANES) = true.
Proof. vm_compute. reflexivity. Qed.
Lemma appended_sealable : sealable (H := TestPrims.prims) (H1 := TestCrc.crc) Lz4 env appended.2.
Proof.
  intros i o Ho _. destruct appended_spec as [Inv _].
  apply lookup_lt_Some in Ho as Hi. rewrite (fi_count _ Inv) in Hi.
  pose proof (proj1 (forallb_forall _ _) lanes_seal i ltac:(apply List.in_seq; lia)) as Hs.
  unfold lane_seals in Hs. by rewrite Ho in Hs.
Qed.
End TestPlane.

Import TestPlane.

Lemma read_range_refines_witness :
  exists e', read_range db db 9 0 200 es = (Ok (vf_read file 0 200), e') /\ quiet es e'.
Proof.
  apply (read_range_refines db db 9 file 0 200 es es_good).
  - apply FileRep_stale, file_rep.
  - exact file_rep.
  - lia.
  - lia.
  - ulia.
  - vm_compute. discriminate.
Defined.

Lemma data_ops_refine_witness :
  match run_op hint db 9 (vf_size file) (OpWrite 40 [1; 2; 3]) txn_new es with
  | (Ok (u, t'), e') =>
      becomes es (extents db) (apply_tail_update 9 u e') (extents (tx_db db t')) 9 (vf_write file 40 [1; 2; 3])
  | (Err (Fs err), e') => failed hint es e' 9 err
  | (Err Panic, _) => False
  end.
Proof.
  apply (data_ops_refine hint db 9 (OpWrite 40 [1; 2; 3]) file txn_new es es_good ready file_stored).
  - reflexivity.
  - split; [lia|]. vm_compute. discriminate.
Defined.

Lemma flush_durable_witness :
  let '(r, f') := seal_open (H := TestPrims.prims) (H0 := TestCrc.crc) Lz4 4 env appended.2 in
  r = Some (Ok tt) /\
  forall e, epoch_above e (fr_objects f') -> FileRep (new_frames e (fr_objects f')) (extents db) 9 file.
Proof.
  pose proof (flush_durable (H := TestPrims.prims) (H0 := TestPrims.laws) (H1 := TestCrc.crc) (H2 := TestCrc.laws)
    Lz4 100000 4 env appended.2 (extents db) 9 file) as Hf.
  destruct (seal_open (H := TestPrims.prims) (H0 := TestCrc.crc) Lz4 4 env appended.2) as [r f'].
  destruct Hf as (Hsurvive & _ & Hok).
  - apply appended_spec.
  - done.
  - lia.
  - rewrite appended_room. unfold OPEN_SEGMENT_LANES. ulia.
  - exact file_rep.
  - split; [|intros e He; apply Hsurvive; [|exact He]]; apply Hok; [done|exact appended_sealable|done|exact appended_sealable].
Defined.

Lemma data_ops_accounted_witness :
  (forall u t' e', run_op hint db 9 (vf_size file) (OpTruncate 50) txn_new es = (Ok (u, t'), e') ->
    accounted db 9 (op_span (OpTruncate 50)) txn_new t') /\
  accounted db 9 (fun x => 0 <= x < 1) txn_new (delete_range db 9 0 1 txn_new).
Proof.
  destruct (data_ops_accounted hint db 9 (OpTruncate 50) file txn_new es es_good ready file_stored) as [Hop Hdel].
  - cbn. ulia.
  - reflexivity.
  - cbn. ulia.
  - exact (conj Hop (Hdel 0 1)).
Defined.
