(* ===== verification/Volume.v ===== *)
(** * The volume: queued commits over the metadata and data planes

    What the write path shares beyond the process state [FS]: the extent store, the
    inode values of queued transactions ([PendingInodes] of [fs/store/inode.rs]), the
    extents that queued writes own ([fs/store/extent/inflight.rs]), and the queue of the
    commit worker ([submit_owned] of [fs/write_coordinator.rs]).

    A writer holds its inode lock until its transaction is queued, not until it is
    applied.  So an operation is a function that reads the applied state and queues a
    transaction, and the worker's turn ([worker_turn]) is a function of its own.

    Sequence numbers and tokens are [u64] counters in the source; 2^64 submissions of one
    process are not modelled. *)

From S2P Require Import Prelude Errors Segment Quota Inode Dedup Store Commit Usage Ops FrameStore Extent.

(** ** In-flight extents *)

(** [Entry]: the inclusive extent range of a queued write. *)
Record InflightEntry := mkInflight { ie_token : Z; ie_start : Z; ie_end : Z }.
Record InflightExtentWrites := mkInflightWrites {
  iw_inodes : gmap Z (list InflightEntry);
  iw_next_token : Z }.

(** [register] returns the token that its guard holds. *)
Definition register (id start stop : Z) (w : InflightExtentWrites) : Z * InflightExtentWrites :=
  let token := iw_next_token w in
  (token, mkInflightWrites
     (<[id := default [] (iw_inodes w !! id) ++ [mkInflight token start stop]]> (iw_inodes w)) (token + 1)).

(** The entries that [wait_matching] waits for; it returns when there are none. *)
Definition pending_overlaps (w : InflightExtentWrites) (id : Z) (range : option (Z * Z)) : list InflightEntry :=
  List.filter (fun e => match range with
                        | Some (start, stop) => (ie_start e <=? stop) && (start <=? ie_end e)
                        | None => true
                        end) (default [] (iw_inodes w !! id)).

(** [Drop for InflightWriteGuard]. *)
Definition retire_write (id token : Z) (w : InflightExtentWrites) : InflightExtentWrites :=
  match iw_inodes w !! id with
  | None => w
  | Some entries =>
      let entries := filter (fun e => ie_token e <> token) entries in
      mkInflightWrites (if bool_decide (entries = []) then delete id (iw_inodes w)
                        else <[id := entries]> (iw_inodes w)) (iw_next_token w)
  end.

(** ** Pending inodes *)

Record PendingInode := mkPendingInode { pi_seq : Z; pi_value : option Inode }.
Record PendingInodes := mkPendingInodes {
  pn_entries : gmap Z PendingInode;
  pn_next_seq : Z }.

(** [install]: the last value per inode, each with a fresh sequence number. *)
Definition install_one (acc : list (Z * Z) * PendingInodes) (u : Z * option Inode) : list (Z * Z) * PendingInodes :=
  let '(owned, p) := acc in
  (owned ++ [(u.1, pn_next_seq p)],
   mkPendingInodes (<[u.1 := mkPendingInode (pn_next_seq p) u.2]> (pn_entries p)) (pn_next_seq p + 1)).
Definition install (updates : list (Z * option Inode)) (p : PendingInodes) : list (Z * Z) * PendingInodes :=
  foldl install_one ([], p) (map_to_list (updates_of updates)).

Definition pending_get (p : PendingInodes) (id : Z) : option (option Inode) := pi_value <$> pn_entries p !! id.

(** [Drop for PendingInodeGuard]: a value that was overwritten since stays. *)
Definition retire_inode (p : PendingInodes) (o : Z * Z) : PendingInodes :=
  match pn_entries p !! o.1 with
  | Some e => if pi_seq e =? o.2 then mkPendingInodes (delete o.1 (pn_entries p)) (pn_next_seq p) else p
  | None => p
  end.

(** ** The volume *)

(** A queued commit: the request, the pending inode values its reply owns, and the rest
    of its settlement. *)
Record QueuedCommit := mkQueued {
  qc_request : Request;
  qc_owned : list (Z * Z);
  qc_tails : list (Z * TailUpdate);
  qc_guards : list (Z * Z) }.

Section volume.
Context {S Hint : Type} `{FrameStore S Hint}.

Record Volume := mkVolume {
  v_fs : FS;
  v_es : ExtentStore S;
  v_pending : PendingInodes;
  v_inflight : InflightExtentWrites;
  v_queue : list QueuedCommit }.

Definition set_v_fs (f : FS) (v : Volume) : Volume := mkVolume f (v_es v) (v_pending v) (v_inflight v) (v_queue v).
Definition set_v_es (e : ExtentStore S) (v : Volume) : Volume :=
  mkVolume (v_fs v) e (v_pending v) (v_inflight v) (v_queue v).
Definition v_db (v : Volume) : Db := fs_db (v_fs v).

Abbreviation VolM := (stM Volume Fault).

Definition fault_of {A} (r : result FsError A) : result Fault A :=
  match r with Ok a => Ok a | Err e => Err (Fs e) end.
(** Steps on the process state, on the extent store, and pure ones. *)
Definition onFS {A} (m : M A) : VolM A := fun v => let '(r, f) := m (v_fs v) in (fault_of r, set_v_fs f v).
Definition onES {A} (m : stM (ExtentStore S) Fault A) : VolM A := fun v => let '(r, e) := m (v_es v) in (r, set_v_es e v).
Definition pureV {A} (r : result FsError A) : VolM A := fun v => (fault_of r, v).
Definition getsV {A} (g : Volume -> A) : VolM A := fun v => (Ok (g v), v).

(** A value that is dropped when the rest of the operation fails. *)
Definition dropping {A} (undo : Volume -> Volume) (m : VolM A) : VolM A :=
  fun v => match m v with (Err e, v') => (Err e, undo v') | r => r end.

(** [InodeStore::get]. *)
Definition visible_inode (v : Volume) (id : Z) : result FsError Inode :=
  match pending_get (v_pending v) id with
  | Some value => ok_or NotFound value
  | None => inode_get (v_db v) id
  end.

(** [register_inflight_write] of every span, in order. *)
Fixpoint register_all (spans : list (Z * (Z * Z))) : VolM (list (Z * Z)) :=
  match spans with
  | [] => mret []
  | (id, (start, stop)) :: rest =>
      token ← (fun v => let '(token, w) := register id start stop (v_inflight v) in
                        (Ok token, mkVolume (v_fs v) (v_es v) (v_pending v) w (v_queue v)));
      guards ← register_all rest;
      mret ((id, token) :: guards)
  end.

(** [submit_owned]. *)
Definition submit_owned (t : Transaction) (own : option PendingWriteRequest) (s : Settlement)
    (tails : list (Z * TailUpdate)) (guards : list (Z * Z)) : VolM unit :=
  fun v =>
    let '(owned, p) := install (tx_inodes t) (v_pending v) in
    (Ok tt, mkVolume (v_fs v) (v_es v) p (v_inflight v)
              (v_queue v ++ [mkQueued (mkRequest t own s) owned tails guards])).

(** One turn of the worker over the first [n] queued commits: the batch, then the
    settlements ([PostCommitSettlement::finish]) and replies ([CommitReply::send]). *)
Definition settle_tails (written : bool) (e : ExtentStore S) (q : QueuedCommit) : ExtentStore S :=
  if written then foldl (fun e u => apply_tail_update u.1 u.2 e) e (qc_tails q) else e.
Definition settle_guards (w : InflightExtentWrites) (q : QueuedCommit) : InflightExtentWrites :=
  foldl (fun w g => retire_write g.1 g.2 w) w (qc_guards q).
Definition settle_owned (p : PendingInodes) (q : QueuedCommit) : PendingInodes :=
  foldl retire_inode p (qc_owned q).

Definition worker_turn (retention instant : Z) (o : Outcome) (n : nat) (v : Volume)
    : result FsError unit * Volume :=
  let batch := take n (v_queue v) in
  let requests := map qc_request batch in
  let '(r, f) := process_batch retention instant o requests (v_fs v) in
  (r, mkVolume f
        (foldl (settle_tails (batch_written o requests (v_fs v))) (v_es v) batch)
        (foldl settle_owned (v_pending v) batch)
        (foldl settle_guards (v_inflight v) batch)
        (drop n (v_queue v))).

(** [commit_with_settlement]: submitted, and awaited with what was queued before. *)
Definition commit_wait (retention instant : Z) (o : Outcome) (t : Transaction) (s : Settlement) : VolM unit :=
  fun v =>
    let v1 := (submit_owned t None s [] [] v).2 in
    let '(r, v2) := worker_turn retention instant o (length (v_queue v1)) v1 in
    (fault_of r, v2).

(** [replay_dedup_result] in front of an operation. *)
Definition replayingV {A} (env : Env) (op_id : OpId) (extract : DedupResult -> option A) (k : VolM A) : VolM A :=
  r ← onFS (replay_dedup_result env op_id extract);
  match r with Some a => mret a | None => k end.
End volume.
Arguments Volume S : clear implicits.
Abbreviation VM S := (stM (Volume S) Fault).
