(* ===== verification/Registry.v ===== *)
(** * The registries of queued writes

    The in-flight extents and the pending inodes ([Volume]) hold exactly the entries of the
    queued commits, in submission order: registering appends, retiring the oldest commit
    removes its own entries and no others, and a reader of a pending inode finds the
    value of the last queued commit that has one. *)

From S2P Require Import Prelude Errors Segment Quota Inode Store Commit Usage Volume.

Lemma filter_true {A} (P : A -> Prop) `{forall x, Decision (P x)} (l : list A) :
  (forall x, x ∈ l -> P x) -> filter P l = l.
Proof.
  induction l as [|x l IH]; intros Hl; [done|]. rewrite filter_cons_True by (apply Hl; left).
  f_equal. apply IH. intros y Hy. apply Hl. by right.
Qed.

(** ** In-flight extents *)

Definition guard_of (p : Z * InflightEntry) : Z * Z := (p.1, ie_token p.2).

Record InflightInv (w : InflightExtentWrites) (l : list (Z * InflightEntry)) : Prop := {
  iv_entries : forall id, default [] (iw_inodes w !! id) = (filter (fun p => p.1 = id) l).*2;
  iv_tokens : NoDup ((fun p => ie_token p.2) <$> l);
  iv_next : forall p, p ∈ l -> ie_token p.2 < iw_next_token w }.

Lemma register_inv w l id start stop :
  InflightInv w l ->
  (register id start stop w).1 = iw_next_token w /\
  InflightInv (register id start stop w).2 (l ++ [(id, mkInflight (iw_next_token w) start stop)]).
Proof.
  intros [He Ht Hn]. split; [done|]. unfold register. cbn [fst snd]. split.
  - intros id'. cbn [iw_inodes]. rewrite filter_app, fmap_app, <- He.
    destruct (decide (id' = id)) as [->|Hne].
    + rewrite lookup_insert_eq. cbn [default option_fmap from_option]. by rewrite filter_cons_True.
    + rewrite lookup_insert_ne by done. rewrite filter_cons_False by done. by rewrite filter_nil, app_nil_r.
  - rewrite fmap_app. apply NoDup_app. split_and!; [done| |apply NoDup_singleton].
    intros t Ht' ->%list_elem_of_singleton. apply list_elem_of_fmap in Ht' as (p & Hp & Hin).
    apply Hn in Hin. cbn in Hp. lia.
  - intros p [Hp|Hp]%elem_of_app; cbn; [apply Hn in Hp; lia|]. apply list_elem_of_singleton in Hp as ->. cbn. lia.
Qed.

Lemma retire_write_inv w p l :
  InflightInv w (p :: l) -> InflightInv (retire_write p.1 (ie_token p.2) w) l.
Proof.
  intros [He Ht Hn]. rewrite fmap_cons in Ht. apply NoDup_cons in Ht as [Hp Ht].
  assert (Hkeep : filter (fun e => ie_token e <> ie_token p.2) (filter (fun q : Z * InflightEntry => q.1 = p.1) l).*2
                  = (filter (fun q : Z * InflightEntry => q.1 = p.1) l).*2).
  { apply filter_true. intros e (q & -> & Hq)%list_elem_of_fmap. intros Heq.
    apply list_elem_of_filter in Hq as [_ Hq]. apply Hp, list_elem_of_fmap. by exists q. }
  assert (Hent : default [] (iw_inodes w !! p.1) = p.2 :: (filter (fun q : Z * InflightEntry => q.1 = p.1) l).*2).
  { rewrite He, filter_cons_True by done. done. }
  unfold retire_write. destruct (iw_inodes w !! p.1) as [es|] eqn:E; [|by cbn in Hent]. cbn in Hent. subst es.
  rewrite filter_cons_False by (intros Hc; by apply Hc). rewrite Hkeep. split; [|done|].
  - intros id. specialize (He id). cbn [iw_inodes]. destruct (decide (id = p.1)) as [->|Hne].
    + case_bool_decide as Hb; [rewrite lookup_delete_eq, Hb|rewrite lookup_insert_eq]; done.
    + rewrite filter_cons_False in He by done. rewrite <- He.
      case_bool_decide; [by rewrite lookup_delete_ne|by rewrite lookup_insert_ne].
  - intros q Hq. apply (Hn q). by right.
Qed.
Lemma retire_writes_inv l l' : forall w,
  InflightInv w (l ++ l') -> InflightInv (foldl (fun w g => retire_write g.1 g.2 w) w (guard_of <$> l)) l'.
Proof.
  induction l as [|p l IH]; intros w Hw; [done|]. cbn. apply IH. by apply (retire_write_inv w p).
Qed.

(** A range that waits for nothing overlaps no queued one. *)
Lemma no_overlap w l id start stop p :
  InflightInv w l -> pending_overlaps w id (Some (start, stop)) = [] -> p ∈ l -> p.1 = id ->
  forall x, start <= x <= stop -> ~ (ie_start p.2 <= x <= ie_end p.2).
Proof.
  intros Hw Ho Hp Hid x Hx Hc. unfold pending_overlaps in Ho. rewrite (iv_entries _ _ Hw) in Ho.
  assert (Hin : p.2 ∈ (filter (fun q : Z * InflightEntry => q.1 = id) l).*2).
  { apply list_elem_of_fmap. exists p. split; [done|]. by apply list_elem_of_filter. }
  apply list_elem_of_In in Hin.
  assert (Hf : In p.2 (List.filter (fun e => (ie_start e <=? stop) && (start <=? ie_end e))
                         (filter (fun q : Z * InflightEntry => q.1 = id) l).*2)).
  { apply filter_In. split; [done|]. lia. }
  by rewrite Ho in Hf.
Qed.

(** ** Pending inodes *)

Definition owner_of (p : Z * PendingInode) : Z * Z := (p.1, pi_seq p.2).

Record PendingInv (p : PendingInodes) (l : list (Z * PendingInode)) : Prop := {
  pv_entries : forall id, pn_entries p !! id = last (filter (fun q => q.1 = id) l).*2;
  pv_seqs : NoDup ((fun q => pi_seq q.2) <$> l);
  pv_next : forall q, q ∈ l -> pi_seq q.2 < pn_next_seq p }.

Definition numbered (us : list (Z * option Inode)) (n : Z) : list (Z * PendingInode) :=
  zip_with (fun u k => (u.1, mkPendingInode k u.2)) us (seqZ n (Z.of_nat (length us))).

Lemma numbered_cons u us n : numbered (u :: us) n = (u.1, mkPendingInode n u.2) :: numbered us (n + 1).
Proof.
  unfold numbered. replace (Z.of_nat (length (u :: us))) with (Z.of_nat (length us) + 1) by (cbn; lia).
  rewrite seqZ_cons by lia. cbn [zip_with]. do 3 f_equal; lia.
Qed.

Lemma install_one_inv p l u owned :
  PendingInv p l ->
  let '(owned', p') := install_one (owned, p) u in
  let q := (u.1, mkPendingInode (pn_next_seq p) u.2) in
  owned' = owned ++ [owner_of q] /\ pn_next_seq p' = pn_next_seq p + 1 /\ PendingInv p' (l ++ [q]).
Proof.
  intros [He Hs Hn]. cbn. split_and!; [done|done|]. split.
  - intros id. cbn [pn_entries]. rewrite filter_app, fmap_app, last_app. destruct (decide (id = u.1)) as [->|Hne].
    + rewrite lookup_insert_eq, filter_cons_True by done. done.
    + rewrite lookup_insert_ne, filter_cons_False by done. rewrite He. by destruct (last _).
  - rewrite fmap_app. apply NoDup_app. split_and!; [done| |apply NoDup_singleton].
    intros t Ht' ->%list_elem_of_singleton. apply list_elem_of_fmap in Ht' as (q & Hq & Hin).
    apply Hn in Hin. cbn in Hq. lia.
  - intros q [Hq|Hq]%elem_of_app; cbn; [apply Hn in Hq; lia|]. apply list_elem_of_singleton in Hq as ->. cbn. lia.
Qed.
Lemma install_fold_inv us : forall p l owned,
  PendingInv p l ->
  let '(owned', p') := foldl install_one (owned, p) us in
  owned' = owned ++ (owner_of <$> numbered us (pn_next_seq p)) /\ PendingInv p' (l ++ numbered us (pn_next_seq p)).
Proof.
  induction us as [|u us IH]; intros p l owned Hp; cbn [foldl].
  { unfold numbered. cbn. by rewrite !app_nil_r. }
  pose proof (install_one_inv p l u owned Hp) as H1. destruct (install_one (owned, p) u) as [owned1 p1].
  destruct H1 as (-> & Hn & H1). specialize (IH p1 _ (owned ++ [owner_of (u.1, mkPendingInode (pn_next_seq p) u.2)]) H1).
  destruct (foldl install_one _ us) as [owned' p']. destruct IH as [-> IH]. rewrite numbered_cons, <- Hn.
  rewrite fmap_cons, <- !app_assoc. rewrite <- app_assoc in IH. done.
Qed.
Lemma install_inv updates p l :
  PendingInv p l ->
  let new := numbered (map_to_list (updates_of updates)) (pn_next_seq p) in
  (install updates p).1 = owner_of <$> new /\ PendingInv (install updates p).2 (l ++ new).
Proof.
  intros Hp. unfold install. pose proof (install_fold_inv (map_to_list (updates_of updates)) p l [] Hp) as Hi.
  by destruct (foldl install_one _ _).
Qed.

Lemma retire_inode_inv p q l : PendingInv p (q :: l) -> PendingInv (retire_inode p (owner_of q)) l.
Proof.
  intros [He Hs Hn]. rewrite fmap_cons in Hs. apply NoDup_cons in Hs as [Hq Hs].
  assert (Hother : forall id, id <> q.1 -> pn_entries p !! id = last (filter (fun r => r.1 = id) l).*2).
  { intros id Hne. by rewrite He, filter_cons_False by done. }
  pose proof (He q.1) as Heq. rewrite filter_cons_True, fmap_cons, last_cons in Heq by done.
  assert (Hl : forall r, r ∈ l -> pi_seq r.2 < pn_next_seq p) by (intros r Hr; apply Hn; by right).
  unfold retire_inode, owner_of. cbn [fst snd]. rewrite Heq.
  destruct (last (filter (fun r : Z * PendingInode => r.1 = q.1) l).*2) as [x|] eqn:Ex.
  - assert (Hx : pi_seq x <> pi_seq q.2).
    { intros E. apply last_Some_elem_of in Ex. apply list_elem_of_fmap in Ex as (r & -> & Hr).
      apply list_elem_of_filter in Hr as [_ Hr]. apply Hq, list_elem_of_fmap. by exists r. }
    destruct (Z.eqb_spec (pi_seq x) (pi_seq q.2)); [done|]. split; [|done|done].
    intros id. destruct (decide (id = q.1)) as [->|]; [by rewrite Heq, Ex|by apply Hother].
  - rewrite Z.eqb_refl. split; [|done|done]. intros id. cbn [pn_entries].
    destruct (decide (id = q.1)) as [->|]; [by rewrite lookup_delete_eq, Ex|rewrite lookup_delete_ne by done; by apply Hother].
Qed.
Lemma retire_inodes_inv l l' : forall p,
  PendingInv p (l ++ l') -> PendingInv (foldl retire_inode p (owner_of <$> l)) l'.
Proof. induction l as [|q l IH]; intros p Hp; [done|]. cbn. apply IH. by apply retire_inode_inv. Qed.
