(* ===== verification/OpsWrite.v ===== *)
(** * Writes

    [fs/ops/write.rs]: preparation of a write request (validation, locks, quota, exact
    post-write attributes), staging of its extents and inodes in one transaction, and its
    submission to the commit worker.  A request has one member for a file write and one
    per backing inode for a striped block-device write.

    The volatile write-back overlay is not modelled: [overlay_visible_size] is the
    canonical size. *)

From S2P Require Import Prelude Errors Segment Quota Inode Dedup Permissions Store Commit Ops.
From S2P Require Import FrameStore Extent Volume.

Record PrepareWriteMember := mkMember { wm_id : Z; wm_offset : Z; wm_data : bytes }.
Record PrepareWriteRequest := mkWriteRequest {
  wr_members : list PrepareWriteMember;
  wr_auth : AuthContext;
  wr_op_id : OpId;
  wr_check_permissions : bool }.

Record PreparedWriteMember := mkPrepared {
  pm_id : Z; pm_offset : Z; pm_data : bytes;
  pm_old_size : Z; pm_new_size : Z;
  pm_inode : Inode; pm_post_attrs : FileAttributes;
  pm_republish : bool;
  pm_parent_name : option (Z * name);
  pm_span : option (Z * Z);
  pm_quota : option Reservation }.

(** The set-user-id and set-group-id bits, octal 6000. *)
Definition SETID_BITS : Z := 3072.

(** [clears_setid] and [republish_metadata]. *)
Definition clears_setid (creds : Credentials) (a : Attrs) : bool :=
  negb (c_uid creds =? uid a) && negb (c_uid creds =? 0) && negb (Z.land (mode a) SETID_BITS =? 0).
Definition republish_metadata (creds : Credentials) (now : Z * Z) (old_size new_size : Z) (a : Attrs) : bool :=
  negb (new_size =? old_size) || clears_setid creds a || negb (mtime a =? now.1) || negb (ctime a =? now.1).

(** The file after the write. *)
Definition clear_setid (b : bool) (a : Attrs) : Attrs :=
  if b then set_mode (Z.land (mode a) (Z.lnot SETID_BITS)) a else a.
Definition written_file (creds : Credentials) (now : Z * Z) (new_size : Z) (f : FileInode) : FileInode :=
  mkFile new_size (clear_setid (clears_setid creds (f_attrs f)) (touch_mctime now (f_attrs f)))
    (f_parent f) (f_name f) (f_nlink f).

(** [file.parent.zip(file.name.clone())]. *)
Definition parent_name (f : FileInode) : option (Z * name) :=
  match f_parent f, f_name f with Some p, Some n => Some (p, n) | _, _ => None end.

Definition reserveM (bytes : Z) : M Reservation :=
  fun f => let '(r, q) := reserve bytes (fs_quota f) in (r, set_fs_quota q f).

(** A batch that is dropped refunds the reservations of its members. *)
Definition refund (r : Reservation) (f : FS) : FS := set_fs_quota (drop_reservation r (fs_quota f)).2 f.

Section write.
Context {S Hint : Type} `{FrameStore S Hint}.

Definition drop_member (p : PreparedWriteMember) (v : Volume S) : Volume S :=
  match pm_quota p with Some r => set_v_fs (refund r (v_fs v)) v | None => v end.

(** One turn of the loop of [prepare_write]; [now] is the clock read for the member. *)
Definition prepare_member (creds : Credentials) (check : bool) (now : Z * Z) (m : PrepareWriteMember)
    : VM S PreparedWriteMember :=
  i ← getsV (fun v => visible_inode v (wm_id m));
  inode ← pureV i;
  match inode with
  | IFile file =>
      _ ← pureV (if check && negb (c_uid creds =? uid (f_attrs file)) then check_access inode creds Write else Ok tt);
      let span := extent_span (wm_offset m) (zlen (wm_data m)) in
      if bool_decide (wm_data m = []) then
        mret (mkPrepared (wm_id m) (wm_offset m) (wm_data m) (f_size file) (f_size file) inode
                (file_attributes inode (wm_id m)) false None span None)
      else
        let old_size := f_size file in
        end_offset ← pureV (ok_or InvalidArgument (checked_add_u64 (wm_offset m) (zlen (wm_data m))));
        let new_size := Z.max old_size end_offset in
        quota ← (if old_size <? new_size then r ← onFS (reserveM (new_size - old_size)); mret (Some r)
                 else mret None);
        let republish := republish_metadata creds now old_size new_size (f_attrs file) in
        let file' := if republish then written_file creds now new_size file else file in
        mret (mkPrepared (wm_id m) (wm_offset m) (wm_data m) old_size new_size (IFile file')
                (file_attributes (IFile file') (wm_id m)) republish
                (if republish then parent_name file' else None) span quota)
  | _ => pureV (Err IsDirectory)
  end.

Fixpoint prepare_members (creds : Credentials) (check : bool) (clock : nat -> Z * Z) (k : nat)
    (ms : list PrepareWriteMember) : VM S (list PreparedWriteMember) :=
  match ms with
  | [] => mret []
  | m :: rest =>
      p ← prepare_member creds check (clock k) m;
      ps ← dropping (drop_member p)
             (prepare_members creds check clock (if bool_decide (wm_data m = []) then k else Datatypes.S k) rest);
      mret (p :: ps)
  end.

(** ** Application *)

(** The extents of every member, staged in one transaction. *)
Fixpoint write_members (h : nat -> Hint) (db : Db) (k : nat) (ps : list PreparedWriteMember) (t : Transaction)
    : VM S (Transaction * list (Z * TailUpdate)) :=
  match ps with
  | [] => mret (t, [])
  | p :: rest =>
      if bool_decide (pm_data p = []) then write_members h db k rest t
      else
        r ← onES (extent_write (h k) db (pm_id p) (pm_offset p) (pm_data p) (pm_old_size p) t);
        r' ← write_members h db (Datatypes.S k) rest r.2;
        mret (r'.1, (pm_id p, r.1) :: r'.2)
  end.

(** The inodes that changed, with the copies in their directory entries. *)
Fixpoint save_members (db : Db) (ps : list PreparedWriteMember) (t : Transaction) : result FsError Transaction :=
  match ps with
  | [] => Ok t
  | p :: rest =>
      let t := if pm_republish p then inode_save (pm_id p) (pm_inode p) t else t in
      t ← match pm_parent_name p with
          | Some (d, n) => update_inode_in_entry db d n (pm_id p) (pm_inode p) t
          | None => Ok t
          end;
      save_members db rest t
  end.

Definition batch_result (ps : list PreparedWriteMember) : list (Z * FileAttributes) :=
  map (fun p => (pm_id p, pm_post_attrs p)) ps.
Definition dedup_write (op_id : OpId) (ps : list PreparedWriteMember) (t : Transaction) : Transaction :=
  match ps with
  | p :: _ => set_dedup_result op_id (DWrite (pm_post_attrs p)) t
  | [] => t
  end.

(** What a request is answered with at once, or after the worker's reply. *)
Inductive Submission :=
| Replied (members : list (Z * FileAttributes))
| Submitted (members : list (Z * FileAttributes)).

(** [empty_batch_result]. *)
Definition empty_batch_result (env : Env) (op_id : OpId) (own : option PendingWriteRequest)
    (ps : list PreparedWriteMember) : VM S Submission :=
  if has_op_id op_id then
    t ← pureV (new_transaction env);
    _ ← submit_owned (dedup_write op_id ps t) own SettleNone [] [];
    mret (Submitted (batch_result ps))
  else mret (Replied (batch_result ps)).

Definition apply_prepared_batch (env : Env) (h : nat -> Hint) (op_id : OpId) (own : option PendingWriteRequest)
    (ps : list PreparedWriteMember) : VM S Submission :=
  if forallb (fun p => bool_decide (pm_data p = [])) ps then empty_batch_result env op_id own ps
  else
    t ← pureV (new_transaction env);
    db ← getsV v_db;
    r ← write_members h db 0 ps t;
    t ← pureV (save_members db ps r.1);
    guards ← register_all (omap (fun p => s ← pm_span p; Some (pm_id p, s)) ps);
    _ ← submit_owned (dedup_write op_id ps t) own (SettleWrite (omap pm_quota ps)) r.2 guards;
    mret (Submitted (batch_result ps)).

(** [prepare_write] and [apply_prepared_batch] under the locks of the members. *)
Definition write_submit (env : Env) (h : nat -> Hint) (own : option PendingWriteRequest)
    (req : PrepareWriteRequest) : VM S Submission :=
  let ids := map wm_id (wr_members req) in
  let replayed a := Replied (map (fun id => (id, a)) ids) in
  r ← onFS (replay_dedup_result env (wr_op_id req) into_write);
  match r with
  | Some a => mret (replayed a)
  | None =>
      _ ← pureV (ensure (bool_decide (NoDup ids)) InvalidArgument);
      _ ← pureV (ensure (bool_decide (ids <> [])) InvalidArgument);
      r ← onFS (replay_dedup_result env (wr_op_id req) into_write);
      match r with
      | Some a => mret (replayed a)
      | None =>
          ps ← prepare_members (from_auth_context (wr_auth req)) (wr_check_permissions req) (e_clock env) 0
                 (wr_members req);
          dropping (fun v => fold_left (fun v p => drop_member p v) ps v)
            (apply_prepared_batch env h (wr_op_id req) own ps)
      end
  end.

(** The request waits ([wait_for_inflight_overlap]) until no queued write owns an extent
    of one of its members. *)
Definition unblocked (v : Volume S) (req : PrepareWriteRequest) : Prop :=
  forall m span, m ∈ wr_members req -> extent_span (wm_offset m) (zlen (wm_data m)) = Some span ->
    pending_overlaps (v_inflight v) (wm_id m) (Some span) = [].
End write.
