(* ===== verification/OpsIo.v ===== *)
(** * Reads, holes and space allocation

    [fs/ops/io.rs].  A read takes no lock and waits for no queued write: it cuts the range at
    the pending size and reads the applied extents.  [trim] and [fallocate] stage zeroes and
    a new size, and wait for their commit. *)

From S2P Require Import Prelude Errors Segment Quota Inode Dedup Permissions Store Commit Ops.
From S2P Require Import FrameStore Extent Volume OpsWrite.

Inductive FallocateMode := Allocate | PunchHole | ZeroRange (keep_size : bool).

(** An inode with its copy in the directory entry. *)
Definition save_inode (db : Db) (id : Z) (i : Inode) (t : Transaction) : result FsError Transaction :=
  let t := inode_save id i t in
  match parent i, iname i with
  | Some p, Some n => update_inode_in_entry db p n id i t
  | _, _ => Ok t
  end.

(** The file after [fallocate]. *)
Definition fallocate_size (mode : FallocateMode) (old_size stop : Z) : Z :=
  match mode with
  | Allocate | ZeroRange false => Z.max old_size stop
  | PunchHole | ZeroRange true => old_size
  end.
Definition fallocated_file (creds : Credentials) (now : Z * Z) (new_size : Z) (f : FileInode) : FileInode :=
  let a := touch_mctime now (f_attrs f) in
  let a := if negb (c_uid creds =? uid a) && negb (c_uid creds =? 0) then set_mode (clear_bits (mode a) SETID_BITS) a else a in
  mkFile new_size a (f_parent f) (f_name f) (f_nlink f).

Section io.
Context {S Hint : Type} `{FrameStore S Hint}.

Definition read_file (auth : option AuthContext) (id offset count : Z) : VM S (bytes * bool) :=
  i ← getsV (fun v => visible_inode v id);
  inode ← pureV i;
  _ ← pureV (match auth with Some a => check_access inode (from_auth_context a) Read | None => Ok tt end);
  match inode with
  | IFile file =>
      if f_size file <=? offset then mret ([], true)
      else
        let read_len := Z.min count (f_size file - offset) in
        db ← getsV v_db;
        data ← onES (read_range db db id offset read_len);
        mret (data, f_size file <=? offset + read_len)
  | _ => pureV (Err IsDirectory)
  end.

(** Growth is reserved; the reservation is dropped unless it reaches the commit. *)
Definition reserve_growth (old_size new_size : Z) : VM S (option Reservation) :=
  if old_size <? new_size then r ← onFS (reserveM (new_size - old_size)); mret (Some r) else mret None.
Definition drop_growth (r : option Reservation) (v : Volume S) : Volume S :=
  match r with Some r => set_v_fs (refund r (v_fs v)) v | None => v end.
Definition commit_env (env : Env) (t : Transaction) (s : Settlement) : VM S unit :=
  commit_wait OP_ID_RETENTION (e_instant env) (e_outcome env) t s.

Definition trim (env : Env) (h : Hint) (auth : AuthContext) (id offset length : Z) : VM S unit :=
  if length =? 0 then mret tt
  else
    _ ← pureV (e_fence env);
    i ← getsV (fun v => visible_inode v id);
    inode ← pureV i;
    let creds := from_auth_context auth in
    match inode with
    | IFile file =>
        _ ← pureV (if negb (c_uid creds =? uid (f_attrs file)) then check_access inode creds Write else Ok tt);
        _ ← pureV (ok_or InvalidArgument (checked_add_u64 offset length));
        t ← pureV (new_transaction env);
        db ← getsV v_db;
        t ← onES (zero_range h db id offset length (f_size file) t);
        commit_env env t SettleNone
    | _ => pureV (Err IsDirectory)
    end.

(** The transaction of [fallocate], up to its commit. *)
Definition stage_fallocate (env : Env) (h : Hint) (op_id : OpId) (id offset stop : Z) (zeroes : bool)
    (file file' : FileInode) : VM S Transaction :=
  t ← pureV (new_transaction env);
  db ← getsV v_db;
  t ← (if zeroes && (offset <? f_size file)
       then onES (zero_range h db id offset (Z.min stop (f_size file) - offset) (f_size file) t) else mret t);
  t ← pureV (save_inode db id (IFile file') t);
  mret (set_dedup_result op_id (DFallocate (file_attributes (IFile file') id)) t).

Definition fallocate_idempotent_inner (env : Env) (h : Hint) (auth : AuthContext) (id offset length : Z)
    (mode : FallocateMode) (op_id : OpId) : VM S FileAttributes :=
  replayingV env op_id into_fallocate (
  _ ← pureV (ensure (negb (length =? 0)) InvalidArgument);
  stop ← pureV (ok_or InvalidArgument (checked_add_u64 offset length));
  _ ← pureV (e_fence env);
  replayingV env op_id into_fallocate (
  i ← getsV (fun v => visible_inode v id);
  inode ← pureV i;
  match inode with
  | IFile file =>
      let new_size := fallocate_size mode (f_size file) stop in
      let zeroes := match mode with Allocate => false | _ => true end in
      growth ← reserve_growth (f_size file) new_size;
      let file' := fallocated_file (from_auth_context auth) (e_clock env 0) new_size file in
      t ← dropping (drop_growth growth) (stage_fallocate env h op_id id offset stop zeroes file file');
      _ ← commit_env env t (match growth with Some r => SettleQuota (Growth r) | None => SettleNone end);
      mret (file_attributes (IFile file') id)
  | _ => pureV (Err IsDirectory)
  end)).
End io.
