(* ===== verification/OpsSetattr.v ===== *)
(** * Attribute changes

    [fs/ops/setattr.rs]: mode, owner, group, size and times in one guarded update, and the
    access time of a read. *)

From S2P Require Import Prelude Errors Segment Quota Inode Dedup Permissions Store Commit Ops.
From S2P Require Import FrameStore Extent Volume OpsWrite OpsIo.

Inductive SizeAuthorization := CurrentMode | OpenedWritableFid.

(** ** Who may change what *)

Definition authorise_owner (creds : Credentials) (sa : SetAttributes) (i : Inode) : result FsError unit :=
  if (is_set (sa_uid sa) || is_set (sa_gid sa)) && negb (c_uid creds =? 0) then
    _ ← check_ownership i creds;
    _ ← match sa_uid sa with Set_ u => ensure (u =? c_uid creds) OperationNotPermitted | NoChange => Ok tt end;
    match sa_gid sa with Set_ g => ensure (is_member_of_group creds g) OperationNotPermitted | NoChange => Ok tt end
  else Ok tt.
Definition authorise_time (creds : Credentials) (i : Inode) (t : SetTime) : result FsError unit :=
  match t with
  | SetToClientTime _ => can_set_times i creds false
  | SetToServerTime => can_set_times i creds true
  | TimeNoChange => Ok tt
  end.
Definition authorise (creds : Credentials) (sa : SetAttributes) (size : SizeAuthorization) (i : Inode) : result FsError unit :=
  _ ← (if is_set (sa_mode sa) then check_ownership i creds else Ok tt);
  _ ← authorise_owner creds sa i;
  _ ← authorise_time creds i (sa_atime sa);
  _ ← authorise_time creds i (sa_mtime sa);
  match size with
  | CurrentMode => if is_set (sa_size sa) then check_access i creds Write else Ok tt
  | OpenedWritableFid => Ok tt
  end.

(** ** The changed inode *)

(** Mode, owner and group; [strict] for files and directories, which lose a set-group-id bit
    of a group the caller is not in. *)
Definition set_perms (strict : bool) (creds : Credentials) (sa : SetAttributes) (a : Attrs) : Attrs :=
  let root := c_uid creds =? 0 in
  let a := match sa_mode sa with
           | Set_ m =>
               let m := validate_mode m in
               set_mode (if strict && negb root && has_bits m S_ISGID && negb (is_member_of_group creds (gid a))
                         then clear_bits m S_ISGID else m) a
           | NoChange => a
           end in
  let a := match sa_uid sa with
           | Set_ u => let a := set_uid u a in if root then a else set_mode (clear_bits (mode a) S_ISUID) a
           | NoChange => a
           end in
  match sa_gid sa with
  | Set_ g => let a := set_gid g a in if root then a else set_mode (clear_bits (mode a) SETID_BITS) a
  | NoChange => a
  end.

(** The times; [clock] is read for each that is set to the server's, from the [k]-th reading. *)
Definition set_time (set : Z * Z -> Attrs -> Attrs) (t : SetTime) (clock : nat -> Z * Z) (ak : Attrs * nat) : Attrs * nat :=
  match t with
  | SetToClientTime t => (set (seconds t, nanoseconds t) ak.1, ak.2)
  | SetToServerTime => (set (clock ak.2) ak.1, Datatypes.S ak.2)
  | TimeNoChange => ak
  end.
Definition set_times (clock : nat -> Z * Z) (k : nat) (sa : SetAttributes) (changed : bool) (a : Attrs) : Attrs :=
  let '(a, k) := set_time set_mtime (sa_mtime sa) clock (set_time set_atime (sa_atime sa) clock (a, k)) in
  if changed then set_ctime (clock k) a else a.
Definition attribute_changed (sa : SetAttributes) : bool :=
  is_set (sa_mode sa) || is_set (sa_uid sa) || is_set (sa_gid sa) || is_set_time (sa_atime sa) || is_set_time (sa_mtime sa).

(** Old and new size, if the size changes. *)
Definition size_change (sa : SetAttributes) (i : Inode) : option (Z * Z) :=
  match i, sa_size sa with
  | IFile f, Set_ n => if n =? f_size f then None else Some (f_size f, n)
  | _, _ => None
  end.
Definition changed_inode (clock : nat -> Z * Z) (creds : Credentials) (sa : SetAttributes) (i : Inode) : Inode :=
  match i with
  | IFile f =>
      let '(size, a, k) := match size_change sa i with
                           | Some (_, n) => (n, touch_mctime (clock 0%nat) (f_attrs f), 1%nat)
                           | None => (f_size f, f_attrs f, 0%nat)
                           end in
      IFile (mkFile size (set_times clock k sa (attribute_changed sa || is_set (sa_size sa)) (set_perms true creds sa a))
               (f_parent f) (f_name f) (f_nlink f))
  | IDirectory _ => with_attrs (set_times clock 0 sa (attribute_changed sa) (set_perms true creds sa (attrs i))) i
  | _ => with_attrs (set_times clock 0 sa (attribute_changed sa) (set_perms false creds sa (attrs i))) i
  end.

Section setattr.
Context {S Hint : Type} `{FrameStore S Hint}.

Definition stage_setattr (env : Env) (h : Hint) (op_id : OpId) (id : Z) (change : option (Z * Z)) (i' : Inode) : VM S Transaction :=
  t ← pureV (new_transaction env);
  db ← getsV v_db;
  t ← match change with Some (o, n) => onES (truncate h db id o n t) | None => mret t end;
  t ← pureV (save_inode db id i' t);
  mret (set_dedup_result op_id (DSetattr (file_attributes i' id)) t).

Definition setattr_idempotent_inner (env : Env) (h : Hint) (creds : Credentials) (id : Z) (sa : SetAttributes)
    (op_id : OpId) (size : SizeAuthorization) : VM S FileAttributes :=
  replayingV env op_id into_setattr (
  _ ← pureV (e_fence env);
  replayingV env op_id into_setattr (
  i ← getsV (fun v => visible_inode v id);
  inode ← pureV i;
  _ ← pureV (authorise creds sa size inode);
  let change := size_change sa inode in
  growth ← match change with Some (o, n) => reserve_growth o n | None => mret None end;
  let inode' := changed_inode (e_clock env) creds sa inode in
  t ← dropping (drop_growth growth) (stage_setattr env h op_id id change inode');
  _ ← commit_env env t (match growth, change with
                        | Some r, _ => SettleQuota (Growth r)
                        | None, Some (o, n) => SettleQuota (Shrink (o - n))
                        | None, None => SettleNone
                        end);
  mret (file_attributes inode' id))).

(** The access time only moves forward. *)
Definition record_access_time_idempotent (env : Env) (id : Z) (atime_ : Timestamp) (op_id : OpId) : VM S FileAttributes :=
  replayingV env op_id into_setattr (
  replayingV env op_id into_setattr (
  i ← getsV (fun v => visible_inode v id);
  inode ← pureV i;
  match inode with
  | IFile file =>
      let a := f_attrs file in
      let changed := (atime a <? seconds atime_) || ((atime a =? seconds atime_) && (atime_nsec a <? nanoseconds atime_)) in
      let inode' := if changed then with_attrs (set_atime (seconds atime_, nanoseconds atime_) a) inode else inode in
      t ← pureV (new_transaction env);
      db ← getsV v_db;
      t ← (if changed then pureV (save_inode db id inode' t) else mret t);
      _ ← commit_env env (set_dedup_result op_id (DSetattr (file_attributes inode' id)) t) SettleNone;
      mret (file_attributes inode' id)
  | _ => pureV (Err InvalidArgument)
  end)).
End setattr.
