(* ===== verification/Staged.v ===== *)
(** * Staged writes

    What a queued write will do when its transaction is applied: new extent pointers for
    the extents of its range, a new inode when its attributes changed, a tail-cache entry.
    Writes of disjoint extents can be staged side by side: each stays valid while the
    others are applied, in queue order, whatever batches the worker forms. *)

From S2P Require Import Prelude Errors Segment Quota Inode Store Namespace Commit Usage Ops.
From S2P Require Import FrameStore Extent ExtentSpec SegCounts.

(** ** Files by inode *)

Abbreviation Files := (Z -> VFile).
Definition upd (F : Files) (id : Z) (g : VFile) : Files := fun i => if decide (i = id) then g else F i.
Definition write_at (F : Files) (id offset : Z) (data : bytes) : Files := upd F id (vf_write (F id) offset data).

Lemma upd_eq F id g : upd F id g id = g.
Proof. unfold upd. by rewrite decide_True. Qed.
Lemma upd_ne F id g i : i <> id -> upd F id g i = F i.
Proof. intros. unfold upd. by rewrite decide_False. Qed.

(** Refreshing an inode that keeps its place and links. *)
Lemma ns_refresh nid db id i i' :
  NsInv nid db -> inodes db !! id = Some i -> shape i' = shape i -> nlink i' = nlink i -> ecount i' = ecount i ->
  NsInv nid (refreshed id i' db).
Proof.
  intros Inv Hi Hs Hn He.
  assert (Hf : inodes (refreshed id i' db) = <[id := i']> (inodes db) /\ orphans (refreshed id i' db) = orphans db /\
               cookies (refreshed id i' db) = cookies db).
  { unfold refreshed. repeat case_match; done. }
  destruct Hf as (Hin & Ho & Hc). apply ns_intro.
  - eapply pre_ext; [by apply (pre_refresh _ _ _ _ id i i' (ns_pre _ _ Inv))|]. intros x _. cbn. rewrite Hn, He. lia.
  - intros x j. rewrite Hin, Ho, Hc. intros [[<- <-]|[_ Hx]]%lookup_insert_Some; [|by eapply ns_sound].
    destruct (ns_sound _ _ _ _ Inv Hi) as (S1 & S2 & S3). unfold Sound. rewrite Hn, He. split; [done|]. split; [done|].
    intros Hd. apply S3. injection Hs as Hd' _ _. by rewrite <- Hd'.
  - intros x. rewrite Hin, Ho. intros [j Hj]%(ns_orphan_some _ _ _ Inv). destruct (decide (x = id)) as [->|].
    + rewrite lookup_insert_eq. eauto.
    + rewrite lookup_insert_ne by done. eauto.
Qed.

Lemma refreshed_extents id i g d : refreshed id i (with_extents g d) = with_extents g (refreshed id i d).
Proof. unfold refreshed. cbn. repeat case_match; done. Qed.
Lemma refreshed_data id i d :
  inodes (refreshed id i d) = <[id := i]> (inodes d) /\ entries (refreshed id i d) = entries d /\
  extents (refreshed id i d) = extents d.
Proof. unfold refreshed. repeat case_match; done. Qed.

(** ** One staged write *)

Record Staged := mkStaged {
  sg_id : Z; sg_offset : Z; sg_data : bytes;
  sg_edits : list (Z * option bytes); sg_locs : list FrameLoc;
  sg_inode : option Inode;
  sg_quota : option Reservation;
  sg_tail : TailUpdate }.

Definition sg_end (w : Staged) : Z := sg_offset w + zlen (sg_data w).
Definition sg_span (w : Staged) : Z -> Prop := in_span (sg_offset w) (zlen (sg_data w)).
Definition sg_write (F : Files) (w : Staged) : Files := write_at F (sg_id w) (sg_offset w) (sg_data w).

Definition staged_extents (w : Staged) (d : Db) : Db := with_extents (apply_edits (sg_id w) (sg_edits w) (sg_locs w)) d.
Definition staged_inode (w : Staged) (d : Db) : Db :=
  match sg_inode w with Some i => refreshed (sg_id w) i d | None => d end.
Definition staged_db (d : Db) (w : Staged) : Db := staged_inode w (staged_extents w d).
Definition next_inodes (m : gmap Z Inode) (w : Staged) : gmap Z Inode :=
  match sg_inode w with Some i => <[sg_id w := i]> m | None => m end.

Lemma staged_fields d w :
  inodes (staged_db d w) = next_inodes (inodes d) w /\ entries (staged_db d w) = entries d /\
  extents (staged_db d w) = apply_edits (sg_id w) (sg_edits w) (sg_locs w) (extents d).
Proof.
  unfold staged_db, staged_inode, next_inodes. destruct (sg_inode w); [|done].
  destruct (refreshed_data (sg_id w) i (staged_extents w d)) as (-> & -> & ->). done.
Qed.

(** What the write does to the size of the inode it finds. *)
Record grown (w : Staged) (f : FileInode) : Prop := {
  gr_inode : match sg_inode w with
             | Some i => exists f', i = IFile f' /\ f_size f' = Z.max (f_size f) (sg_end w) /\
                 f_parent f' = f_parent f /\ f_name f' = f_name f /\ f_nlink f' = f_nlink f
             | None => sg_end w <= f_size f
             end;
  gr_quota : match sg_quota w with
             | Some r => r = mkReservation (sg_end w - f_size f) Provisional /\ f_size f < sg_end w
             | None => sg_end w <= f_size f
             end }.

Fixpoint chain (m : gmap Z Inode) (ws : list Staged) : Prop :=
  match ws with
  | [] => True
  | w :: rest => (exists f, m !! sg_id w = Some (IFile f) /\ grown w f) /\ chain (next_inodes m w) rest
  end.

Lemma chain_app m ws ws' : chain m (ws ++ ws') <-> chain m ws /\ chain (foldl next_inodes m ws) ws'.
Proof.
  revert m. induction ws as [|w ws IH]; intros m; cbn [app foldl chain]; [tauto|]. rewrite IH. tauto.
Qed.

Lemma next_inodes_ne m w id : id <> sg_id w -> next_inodes m w !! id = m !! id.
Proof. intros. unfold next_inodes. destruct (sg_inode w); [|done]. by rewrite lookup_insert_ne. Qed.
Lemma next_inodes_agree m m' w id : m' !! id = m !! id -> next_inodes m' w !! id = next_inodes m w !! id.
Proof.
  intros Hm. unfold next_inodes. destruct (sg_inode w); [|done].
  destruct (decide (id = sg_id w)) as [->|]; [by rewrite !lookup_insert_eq|by rewrite !lookup_insert_ne].
Qed.
Lemma next_inodes_other ws : forall m id, id ∉ (sg_id <$> ws) -> foldl next_inodes m ws !! id = m !! id.
Proof.
  induction ws as [|w ws IH]; intros m id Hn; [done|]. cbn in *. rewrite IH by set_solver.
  apply next_inodes_ne. set_solver.
Qed.
Lemma chain_agree ws : forall m m',
  (forall w, w ∈ ws -> m' !! sg_id w = m !! sg_id w) -> chain m ws -> chain m' ws.
Proof.
  induction ws as [|w ws IH]; intros m m' Hm; [done|]. intros [(f & Hf & Hg) Hc]. split.
  - exists f. by rewrite Hm by left.
  - eapply IH; [|exact Hc]. intros w' Hw'. apply next_inodes_agree, Hm. by right.
Qed.

(** The inode that a file finally gets is a file in the same place. *)
Lemma chain_file ws id f : forall m,
  (forall i g, m !! i = Some (IFile g) -> f_size g <= U64_MAX) -> Forall (fun w => sg_end w <= U64_MAX) ws ->
  chain m ws -> foldl next_inodes m ws !! id = Some (IFile f) ->
  f_size f <= U64_MAX /\ exists f0, m !! id = Some (IFile f0) /\ f_size f0 <= f_size f /\
    f_parent f = f_parent f0 /\ f_name f = f_name f0 /\ f_nlink f = f_nlink f0.
Proof.
  induction ws as [|w ws IH]; intros m Hm Hu Hc Hf; cbn in Hf.
  { split; [by eapply Hm|]. exists f. split_and!; done. }
  apply Forall_cons in Hu as [Hw Hu]. destruct Hc as [(g & Hg & [Hi _]) Hc].
  destruct (IH (next_inodes m w)) as (Hs & f1 & Hf1 & Hle & Hrest); [|done..|].
  { intros i g' Hi'. unfold next_inodes in Hi'. destruct (sg_inode w); [|by eapply Hm].
    apply lookup_insert_Some in Hi' as [[<- ->]|[_ Hi']]; [|by eapply Hm].
    destruct Hi as (f' & [= ->] & -> & _). specialize (Hm _ _ Hg). lia. }
  split; [done|]. unfold next_inodes in Hf1. destruct (sg_inode w) as [j|]; [|eauto].
  apply lookup_insert_Some in Hf1 as [[<- ->]|[_ Hf1]]; [|eauto].
  destruct Hi as (f' & [= <-] & Hs' & Hp & Hn & Hl). exists g. split; [done|]. split; [lia|].
  destruct Hrest as (-> & -> & ->). done.
Qed.
Lemma chain_nodup ws : forall m,
  NoDup (sg_id <$> ws) -> Forall (fun w => exists f, m !! sg_id w = Some (IFile f) /\ grown w f) ws -> chain m ws.
Proof.
  induction ws as [|w ws IH]; intros m Hnd Hw; [done|]. rewrite fmap_cons in Hnd. apply NoDup_cons in Hnd as [Hn Hnd].
  apply Forall_cons in Hw as [Hw0 Hw]. split; [done|]. apply IH; [done|]. rewrite Forall_forall in Hw |- *.
  intros w' Hw'. destruct (Hw w' Hw') as (f & Hf & Hg). exists f. split; [|done]. rewrite next_inodes_ne; [done|].
  intros E. apply Hn. rewrite <- E. by apply list_elem_of_fmap_2.
Qed.
(** The last value queued for an inode, or the applied one. *)
Lemma next_inodes_last ws id : forall m,
  foldl next_inodes m ws !! id =
  match last (omap (fun w => if decide (sg_id w = id) then Some <$> sg_inode w else None) ws) with
  | Some i => i
  | None => m !! id
  end.
Proof.
  induction ws as [|w ws IH]; intros m; [done|]. cbn [foldl omap list_omap]. rewrite IH. unfold next_inodes.
  destruct (decide (sg_id w = id)) as [->|Hne].
  - destruct (sg_inode w) as [i|]; cbn; [|done]. rewrite last_cons, lookup_insert_eq. by destruct (last _).
  - destruct (sg_inode w) as [i|]; [|done]. by rewrite lookup_insert_ne.
Qed.

(** Extents first, inodes after, as a transaction stages them. *)
Lemma staged_inode_extents w w' d : staged_inode w (staged_extents w' d) = staged_extents w' (staged_inode w d).
Proof. unfold staged_inode, staged_extents. destruct (sg_inode w); [|done]. apply refreshed_extents. Qed.
Lemma staged_extents_first ws : forall d,
  foldl (fun d w => staged_inode w d) (foldl (fun d w => staged_extents w d) d ws) ws = foldl staged_db d ws.
Proof.
  assert (Hc : forall ws w d, foldl (fun d w => staged_extents w d) (staged_inode w d) ws =
                              staged_inode w (foldl (fun d w => staged_extents w d) d ws)).
  { induction ws0 as [|w' ws0 IH]; intros w d; [done|]. cbn. by rewrite <- staged_inode_extents, IH. }
  induction ws as [|w ws IH]; intros d; [done|]. cbn. unfold staged_db at 2. by rewrite <- IH, Hc.
Qed.

(** ** Applying staged writes *)

Definition disjoint (w w' : Staged) : Prop := sg_id w = sg_id w' -> forall x, sg_span w x -> ~ sg_span w' x.
Fixpoint all_disjoint (ws : list Staged) : Prop :=
  match ws with
  | [] => True
  | w :: rest => (forall w', w' ∈ rest -> disjoint w w') /\ all_disjoint rest
  end.

Lemma all_disjoint_app ws ws' :
  all_disjoint (ws ++ ws') <->
  all_disjoint ws /\ all_disjoint ws' /\ (forall w w', w ∈ ws -> w' ∈ ws' -> disjoint w w').
Proof.
  induction ws as [|w ws IH]; cbn [app all_disjoint].
  { split; [intros ?; split_and!; try done; intros w w' ?%not_elem_of_nil; done|tauto]. }
  rewrite IH. split.
  - intros (Hw & Ha & Hb & Hc). split_and!; try done.
    + intros w' Hw'. apply Hw. set_solver.
    + intros w1 w' [->|H1]%elem_of_cons Hw'; [apply Hw; set_solver|by apply Hc].
  - intros ((Hw & Ha) & Hb & Hc). split_and!; try done.
    + intros w' [?|?]%elem_of_app; [by apply Hw|apply Hc; [left|done]].
    + intros w1 w' H1 Hw'. apply Hc; [by right|done].
Qed.
Lemma disjoint_sym w w' : disjoint w w' -> disjoint w' w.
Proof. intros Hd He x Hx Hx'. by apply (Hd (eq_sym He) x). Qed.

Lemma span_edits w F : sg_edits w = all_edits (sg_offset w) (sg_data w) (F (sg_id w)) ->
  forall x, x ∈ (sg_edits w).*1 <-> sg_span w x.
Proof. intros -> x. rewrite all_edits_fst. apply in_span_seqZ. Qed.

(** Outside its extents a write changes nothing. *)
Lemma write_outside f offset data x :
  data <> [] -> ~ in_span offset (zlen data) x -> extent_data (vf_write f offset data) x = extent_data f x.
Proof.
  intros Hne Hx. apply vf_write_outside; [done|]. unfold in_span, EXTENT_SIZE in *.
  pose proof (Z.div_mod offset 32768 ltac:(done)). pose proof (Z.mod_pos_bound offset 32768 ltac:(done)).
  pose proof (Z.div_mod (offset + zlen data - 1) 32768 ltac:(done)).
  pose proof (Z.mod_pos_bound (offset + zlen data - 1) 32768 ltac:(done)). lia.
Qed.

(** The edits depend on the content of the extents they rewrite only. *)
Lemma write_extent_agree f g offset data x :
  data <> [] -> extent_data f x = extent_data g x ->
  extent_data (vf_write f offset data) x = extent_data (vf_write g offset data) x.
Proof.
  intros Hne Hx. apply extent_data_ext. intros o Ho. rewrite !vf_write_byte by done. case_decide; [done|].
  pose proof (lookup_extent_data f x (Z.to_nat (o - x * EXTENT_SIZE)) ltac:(unfold EXTENT_SIZE in *; lia)) as Hf.
  pose proof (lookup_extent_data g x (Z.to_nat (o - x * EXTENT_SIZE)) ltac:(unfold EXTENT_SIZE in *; lia)) as Hg.
  rewrite Z2Nat.id in Hf, Hg by lia. rewrite Hx, Hg in Hf. injection Hf as Hf.
  by replace (x * EXTENT_SIZE + (o - x * EXTENT_SIZE)) with o in Hf by lia.
Qed.
Lemma all_edits_agree f g offset data :
  data <> [] -> (forall x, in_span offset (zlen data) x -> extent_data f x = extent_data g x) ->
  all_edits offset data f = all_edits offset data g.
Proof.
  intros Hne Hx. unfold all_edits. apply list_fmap_ext. intros k x Hk. unfold write_edit. do 2 f_equal.
  apply write_extent_agree; [done|]. apply Hx, in_span_seqZ. by eapply list_elem_of_lookup_2.
Qed.

Section staged.
Context {S Hint : Type} `{FrameStoreLaws S Hint}.
Implicit Types (e : ExtentStore S) (F : Files).

Record staged_ok (s : S) F (w : Staged) : Prop := {
  so_data : sg_data w <> [];
  so_offset : 0 <= sg_offset w;
  so_fits : sg_end w <= U64_MAX + 1 - EXTENT_SIZE;
  so_edits : sg_edits w = all_edits (sg_offset w) (sg_data w) (F (sg_id w));
  so_locs : Forall2 (written s (sg_id w)) (payloads (sg_edits w)) (sg_locs w);
  so_tail : tail_of (sg_tail w) (sg_edits w).*1 (vf_write (F (sg_id w)) (sg_offset w) (sg_data w)) }.

(** A staged write stays valid when the file changes outside its extents only, *)
Lemma staged_ok_agree s F F' w :
  (forall x, sg_span w x -> extent_data (F' (sg_id w)) x = extent_data (F (sg_id w)) x) ->
  staged_ok s F w -> staged_ok s F' w.
Proof.
  intros Hx [Hd Ho Hf He Hl Ht].
  assert (Hed : sg_edits w = all_edits (sg_offset w) (sg_data w) (F' (sg_id w))).
  { rewrite He. apply all_edits_agree; [done|]. intros x Hs. symmetry. by apply Hx. }
  split; try done. destruct (sg_tail w) as [|x d|] eqn:Et; cbn in *; [done| |done]. destruct Ht as [Hin ->].
  split; [done|]. apply write_extent_agree; [done|]. symmetry. apply Hx. by apply (span_edits w F He).
Qed.
(** in particular when a write that it does not overlap is applied. *)
Lemma staged_ok_write s F w0 w :
  staged_ok s F w0 -> disjoint w0 w -> staged_ok s F w -> staged_ok s (sg_write F w0) w.
Proof.
  intros H0' Hd Hw. apply (staged_ok_agree s F); [|done]. intros x Hx. unfold sg_write, write_at.
  destruct (decide (sg_id w = sg_id w0)) as [E|Hne]; [|by rewrite upd_ne]. rewrite E, upd_eq.
  apply write_outside; [apply H0'|]. intros Hx0. by apply (Hd (eq_sym E) x).
Qed.
Lemma staged_ok_evolved e e' F w :
  evolved e e' -> staged_ok (es_frames e) F w -> staged_ok (es_frames e') F w.
Proof.
  intros Hev [Hd Ho Hf He Hl Ht]. split; try done. eapply Forall2_impl; [exact Hl|].
  intros p loc Hp. by eapply evolved_holds.
Qed.

(** Every regular file is stored, with the size its inode says. *)
Definition files_ok e (d : Db) F : Prop :=
  forall id f, inodes d !! id = Some (IFile f) ->
    Stored e (extents d) id (F id) /\ vf_size (F id) = f_size f /\ f_size f <= U64_MAX.

Lemma files_ok_evolved e e' d F : evolved e e' -> files_ok e d F -> files_ok e' d F.
Proof.
  intros Hev Hok id f Hi. destruct (Hok id f Hi) as [[Hr Ht] Hs]. split; [split|done].
  - by eapply FileRep_evolved.
  - by eapply tail_evolved.
Qed.

Lemma shape_file f f' : f_parent f' = f_parent f -> f_name f' = f_name f -> shape (IFile f') = shape (IFile f).
Proof. unfold shape. cbn. by intros -> ->. Qed.

Lemma staged_ns nid d w f :
  NsInv nid d -> inodes d !! sg_id w = Some (IFile f) -> grown w f -> NsInv nid (staged_db d w).
Proof.
  intros Inv Hf [Hg _]. assert (Inv' : NsInv nid (staged_extents w d)).
  { destruct Inv as [[] ? ? ?]. by split. }
  unfold staged_db, staged_inode. destruct (sg_inode w) as [i|]; [|done].
  destruct Hg as (f' & -> & _ & Hp & Hn & Hl). eapply ns_refresh; [exact Inv'|exact Hf|by apply shape_file|done|done].
Qed.

Lemma staged_files e d F w f :
  inodes d !! sg_id w = Some (IFile f) -> grown w f -> staged_ok (es_frames e) F w -> files_ok e d F ->
  files_ok (apply_tail_update (sg_id w) (sg_tail w) e) (staged_db d w) (sg_write F w).
Proof.
  intros Hf [Hg _] [Hd Ho Hfit He Hl Ht] Hok id fi Hi.
  destruct (staged_fields d w) as (Hin & _ & Hex). rewrite Hin in Hi. rewrite Hex. clear Hin Hex.
  assert (Hfr : es_frames (apply_tail_update (sg_id w) (sg_tail w) e) = es_frames e) by by destruct (sg_tail w).
  unfold sg_write, write_at. destruct (decide (id = sg_id w)) as [->|Hne].
  - destruct (Hok _ _ Hf) as [[Hrep _] [Hsz Hu]]. rewrite upd_eq. split; [split|split].
    + rewrite Hfr, He. apply all_edits_rep with (s := es_frames e); try done. by rewrite <- He.
    + by eapply tail_of_rep.
    + unfold vf_write. rewrite bool_decide_false by done. cbn [vf_size]. rewrite Hsz. unfold next_inodes in Hi.
      unfold sg_end in Hg. destruct (sg_inode w) as [i|].
      * rewrite lookup_insert_eq in Hi. destruct Hg as (f' & -> & Hs & _). by injection Hi as <-.
      * rewrite Hf in Hi. injection Hi as ->. lia.
    + unfold next_inodes in Hi. destruct (sg_inode w) as [i|].
      * rewrite lookup_insert_eq in Hi. destruct Hg as (f' & -> & Hs & _). injection Hi as <-. unfold EXTENT_SIZE in *. lia.
      * rewrite Hf in Hi. by injection Hi as <-.
  - rewrite next_inodes_ne in Hi by done. rewrite upd_ne by done. destruct (Hok _ _ Hi) as [[Hrep Htl] Hsz].
    split; [split|done].
    + rewrite Hfr. eapply FileRep_agree; [|exact Hrep]. intros x. by apply apply_edits_ids.
    + intros x b. replace (es_tail (apply_tail_update (sg_id w) (sg_tail w) e) !! id) with (es_tail e !! id); [apply Htl|].
      destruct (sg_tail w); cbn; by simplify_map_eq.
Qed.

Definition staged_tail e (w : Staged) : ExtentStore S := apply_tail_update (sg_id w) (sg_tail w) e.
Lemma staged_tail_frames e w : es_frames (staged_tail e w) = es_frames e.
Proof. unfold staged_tail. by destruct (sg_tail w). Qed.

(** A whole prefix of the queue. *)
Lemma apply_staged nid ws : forall e d F,
  NsInv nid d -> files_ok e d F -> Forall (staged_ok (es_frames e) F) ws -> all_disjoint ws -> chain (inodes d) ws ->
  NsInv nid (foldl staged_db d ws) /\ files_ok (foldl staged_tail e ws) (foldl staged_db d ws) (foldl sg_write F ws).
Proof.
  induction ws as [|w ws IH]; intros e d F Inv Hok Hst Hd Hc; [done|]. cbn [foldl].
  apply Forall_cons in Hst as [Hw Hst]. destruct Hd as [Hd Hds]. destruct Hc as [(f & Hf & Hg) Hc].
  apply IH.
  - by eapply staged_ns.
  - by eapply staged_files.
  - rewrite staged_tail_frames. rewrite Forall_forall in Hst |- *. intros w' Hw'. apply staged_ok_write; auto.
  - done.
  - by rewrite (proj1 (staged_fields d w)).
Qed.
Lemma staged_ok_writes s ws ws' : forall F,
  Forall (staged_ok s F) ws -> all_disjoint ws -> (forall w w', w ∈ ws -> w' ∈ ws' -> disjoint w w') ->
  Forall (staged_ok s F) ws' -> Forall (staged_ok s (foldl sg_write F ws)) ws'.
Proof.
  induction ws as [|w ws IH]; intros F Hw Hd Hdd Hw'; [done|]. cbn [foldl].
  apply Forall_cons in Hw as [Hw0 Hw]. destruct Hd as [Hd Hds]. rewrite Forall_forall in Hw, Hw'.
  apply IH; [|done| |]; [apply Forall_forall| |apply Forall_forall].
  - intros w1 H1. apply staged_ok_write; auto.
  - intros w1 w2 H1 H2. apply Hdd; [by right|done].
  - intros w2 H2. apply staged_ok_write; auto. apply Hdd; [left|done].
Qed.
End staged.

(** ** Relocated extents

    Compaction repoints an extent to a copy of its frame in another segment. *)

Record Move := mkMove { mv_id : Z; mv_extent : Z; mv_old : FrameLoc; mv_new : FrameLoc }.
Definition mv_key (m : Move) : Z * Z := (mv_id m, mv_extent m).
Definition move_db (d : Db) (m : Move) : Db := with_extents (<[mv_key m := mv_new m]>) d.

Lemma moved_fields ms : forall d, inodes (foldl move_db d ms) = inodes d /\ entries (foldl move_db d ms) = entries d.
Proof. induction ms as [|m ms IH]; intros d; [done|]. cbn. by rewrite (proj1 (IH _)), (proj2 (IH _)). Qed.
Lemma moved_other ms k : forall d, k ∉ mv_key <$> ms -> extents (foldl move_db d ms) !! k = extents d !! k.
Proof.
  induction ms as [|m ms IH]; intros d Hk; [done|]. cbn in *. rewrite IH by set_solver. cbn.
  rewrite lookup_insert_ne; [done|]. set_solver.
Qed.
Lemma apply_edits_insert id edits k l : k.1 <> id -> forall locs m,
  apply_edits id edits locs (<[k := l]> m) = <[k := l]> (apply_edits id edits locs m).
Proof.
  intros Hk. assert (Hne : forall x, k <> (id, x)) by (intros x ->; done).
  induction edits as [|[x [d|]] edits IH]; intros locs m; [done| |]; cbn.
  - destruct locs as [|loc locs]; [done|]. by rewrite (insert_insert_ne _ (id, x)), IH by done.
  - by rewrite (delete_insert_ne _ (id, x)), IH by done.
Qed.
Lemma move_staged d m w : mv_id m <> sg_id w -> staged_db (move_db d m) w = move_db (staged_db d w) m.
Proof.
  intros Hne. assert (Hx : staged_extents w (move_db d m) = move_db (staged_extents w d) m).
  { unfold staged_extents, move_db, with_extents. cbn. f_equal. by apply apply_edits_insert. }
  unfold staged_db. rewrite Hx. unfold staged_inode. destruct (sg_inode w); [|done]. apply refreshed_extents.
Qed.
Lemma moves_staged ms ws : (forall m w, m ∈ ms -> w ∈ ws -> mv_id m <> sg_id w) -> forall d,
  foldl staged_db (foldl move_db d ms) ws = foldl move_db (foldl staged_db d ws) ms.
Proof.
  intros Hne. assert (H1 : forall m ws d, (forall w, w ∈ ws -> mv_id m <> sg_id w) ->
    foldl staged_db (move_db d m) ws = move_db (foldl staged_db d ws) m).
  { clear. intros m ws. induction ws as [|w ws IH]; intros d Hne; [done|]. cbn. rewrite move_staged by (apply Hne; left).
    apply IH. intros w' Hw'. apply Hne. by right. }
  revert Hne. induction ms as [|m ms IH]; intros Hne d; [done|]. cbn.
  rewrite IH by (intros; apply Hne; [by right|done]). f_equal. apply H1. intros w Hw. apply Hne; [left|done].
Qed.

Section moves.
Context {S Hint : Type} `{FrameStoreLaws S Hint}.
Implicit Types (e : ExtentStore S) (F : Files).

(** The extent still points at the frame that was copied, and the copy is readable. *)
Definition move_ok (s : S) (d : Db) (m : Move) : Prop :=
  extents d !! mv_key m = Some (mv_old m) /\
  exists b, fs_held s (mv_id m) (mv_extent m) (mv_old m) b /\ fs_holds s (mv_id m) (mv_extent m) (mv_new m) b.

Lemma move_ok_evolved e e' d m : evolved e e' -> move_ok (es_frames e) d m -> move_ok (es_frames e') d m.
Proof.
  intros Hev (Hx & b & Ho & Hn). split; [done|]. exists b. split; [by apply (ev_held _ _ Hev)|by eapply evolved_holds].
Qed.
Lemma move_ok_agree s d d' m : extents d' !! mv_key m = extents d !! mv_key m -> move_ok s d m -> move_ok s d' m.
Proof. intros He [Hx Hb]. split; [congruence|done]. Qed.

Lemma moved_ns nid d m : NsInv nid d -> NsInv nid (move_db d m).
Proof. intros [[] ? ? ?]. by split. Qed.
Lemma moved_files e d F m : move_ok (es_frames e) d m -> files_ok e d F -> files_ok e (move_db d m) F.
Proof.
  intros (Hx & b & Ho & Hn) Hok id f Hi. destruct (Hok id f Hi) as [[[Hs He Hh Hz] Ht] Hsz]. split; [|done]. split; [|done].
  split; [done| | |done]; cbn.
  - intros x loc. rewrite lookup_insert_Some. intros [[Hk <-]|[_ Hl]]; [|by apply He]. injection Hk as <- <-.
    destruct (He (mv_extent m) (mv_old m) Hx) as [[Hheld _] Hr]. split; [|done].
    by rewrite (fs_held_fun _ _ _ _ _ _ Hheld Ho).
  - intros x Hge. rewrite lookup_insert_None. intros [Hl _]. by apply Hh.
Qed.

Lemma apply_moves nid e F ms : forall d,
  NoDup (mv_key <$> ms) -> Forall (move_ok (es_frames e) d) ms -> NsInv nid d -> files_ok e d F ->
  NsInv nid (foldl move_db d ms) /\ files_ok e (foldl move_db d ms) F.
Proof.
  induction ms as [|m ms IH]; intros d Hnd Hms Hns Hok; [done|]. cbn in Hnd. apply NoDup_cons in Hnd as [Hm Hnd].
  apply Forall_cons in Hms as [Hm0 Hms]. cbn. apply IH; [done| |by apply moved_ns|by apply moved_files].
  rewrite Forall_forall in Hms |- *. intros m' Hm'. apply (move_ok_agree _ d); [|by apply Hms]. cbn.
  rewrite lookup_insert_ne; [done|]. intros E. apply Hm. rewrite E. by apply list_elem_of_fmap_2.
Qed.
End moves.
