(* ===== verification/Pipeline.v ===== *)
(** * Pipelined writes

    A writer releases its inode lock when its transaction is queued; the next writer of
    the file stages its own transaction against the applied extents and the pending
    inode.  This file shows that the pipeline is nevertheless sequential: for every
    interleaving of submissions and worker turns, batches of any size, the files are what
    applying the committed requests one after the other, in submission order, gives. *)

From S2P Require Import Prelude Errors Segment Quota Inode Dedup Permissions Store Namespace Commit Usage Ops.
From S2P Require Import FrameStore Extent ExtentSpec SegCounts Volume Registry OpsWrite Staged.

(** ** Quota *)

Definition growth (ws : list Staged) : Z := foldr (fun r acc => r_bytes r + acc) 0 (omap sg_quota ws).

Lemma growth_cons w ws : growth (w :: ws) = from_option r_bytes 0 (sg_quota w) + growth ws.
Proof. unfold growth. cbn. by destruct (sg_quota w). Qed.
Lemma growth_app ws ws' : growth (ws ++ ws') = growth ws + growth ws'.
Proof.
  induction ws as [|w ws IH]; [done|]. change ((w :: ws) ++ ws') with (w :: (ws ++ ws')).
  rewrite !growth_cons, IH. lia.
Qed.

(** The counters are exact unless an overflowing request has poisoned them. *)
Definition quota_ok (q : LogicalQuota) (total pend : Z) : Prop :=
  max_bytes q <= U64_MAX /\
  (poisoned (inner q) = true \/
   inner q = mkCounters total pend false /\ 0 <= total /\ 0 <= pend /\ total + pend <= max_bytes q).

Lemma quota_ok_reserve q total pend bytes :
  quota_ok q total pend -> 0 < bytes ->
  match reserve bytes q with
  | (Ok r, q') => r = mkReservation bytes Provisional /\ quota_ok q' total (pend + bytes)
  | (Err _, q') => quota_ok q' total pend
  end.
Proof.
  intros [Hm [Hp|(Hi & Ht & Hpe & Hb)]] Hpos.
  { unfold reserve. rewrite Hp. split; [done|]. by left. }
  destruct (reserve_elim bytes q) as [_ Hle|e He|_ Hov]; rewrite ?Hi; cbn; try lia.
  - rewrite Hi in Hle. cbn in Hle. split; [done|]. split; [done|]. right. cbn. split_and!; [done|lia..].
  - split; [done|]. by right.
  - split; [done|]. by left.
Qed.
Lemma quota_ok_drop q total pend bytes :
  quota_ok q total (pend + bytes) -> 0 <= pend -> 0 <= bytes ->
  quota_ok (drop_reservation (mkReservation bytes Provisional) q).2 total pend.
Proof.
  intros [Hm [Hp|(Hi & Ht & Hpe & Hb)]] Hge Hby; cbn.
  { destruct (poisoned_frozen q bytes Hp) as (_ & -> & _). split; [done|]. by left. }
  rewrite release_pending_ok by (rewrite Hi; cbn; lia || done). split; [done|]. right. rewrite Hi. cbn.
  split_and!; [|lia..]. f_equal. lia.
Qed.
Lemma quota_ok_transfer q total pend bytes :
  quota_ok q total (pend + bytes) -> 0 <= pend -> 0 <= bytes ->
  quota_ok (settle_finish (Growth (mkReservation bytes Provisional)) true q) (total + bytes) pend.
Proof.
  intros [Hm [Hp|(Hi & Ht & Hpe & Hb)]] Hge Hby; cbn.
  { destruct (poisoned_frozen q bytes Hp) as (_ & _ & ->). split; [done|]. by left. }
  rewrite transfer_ok by (rewrite Hi; cbn; lia || done). split; [done|]. right. rewrite Hi. cbn.
  split_and!; [|lia..]. f_equal. lia.
Qed.
Lemma growth_nonneg m ws : chain m ws -> 0 <= growth ws.
Proof.
  revert m. induction ws as [|w ws IH]; intros m; [cbn; lia|]. intros [(f & _ & [_ Hq]) Hc]. rewrite growth_cons.
  specialize (IH _ Hc). destruct (sg_quota w); cbn; [destruct Hq as [-> ?]; cbn|]; lia.
Qed.

Lemma total_bytes_step m w f : m !! sg_id w = Some (IFile f) -> grown w f ->
  total_bytes (next_inodes m w) = total_bytes m + from_option r_bytes 0 (sg_quota w).
Proof.
  intros Hf [Hi Hq]. unfold next_inodes, total_bytes. destruct (sg_inode w) as [i|].
  - destruct Hi as (f' & -> & Hs & _). rewrite (msum_insert_upd _ _ _ _ _ Hf). cbn. rewrite Hs.
    destruct (sg_quota w); cbn; [destruct Hq as [-> ?]; cbn|]; lia.
  - destruct (sg_quota w); cbn; [destruct Hq|]; lia.
Qed.

Lemma quota_ok_commit ws ws' : forall q m m',
  chain m ws -> chain m' ws' -> quota_ok q (total_bytes m) (growth (ws ++ ws')) ->
  quota_ok (foldl (fun q r => settle_finish (Growth r) true q) q (omap sg_quota ws))
    (total_bytes (foldl next_inodes m ws)) (growth ws').
Proof.
  induction ws as [|w ws IH]; intros q m m' Hc Hc' Hq; [done|]. destruct Hc as [(f & Hf & Hg) Hc].
  pose proof (total_bytes_step m w f Hf Hg) as Ht. destruct Hg as [_ Hg]. change ((w :: ws) ++ ws') with (w :: (ws ++ ws')) in Hq.
  rewrite growth_cons in Hq. cbn [omap list_omap foldl]. destruct (sg_quota w) as [r|]; cbn in Ht, Hq |- *.
  - destruct Hg as [-> Hlt]. cbn in Ht, Hq. eapply IH; [done|done|]. rewrite Ht. apply quota_ok_transfer; [by rewrite Z.add_comm| |lia].
    rewrite growth_app. pose proof (growth_nonneg _ _ Hc). pose proof (growth_nonneg _ _ Hc'). lia.
  - eapply IH; [done|done|]. by rewrite Ht, Z.add_0_r.
Qed.
Lemma quota_ok_refund ws ws' total : forall q m m',
  chain m ws -> chain m' ws' -> quota_ok q total (growth (ws ++ ws')) ->
  quota_ok (foldl (fun q r => settle_finish (Growth r) false q) q (omap sg_quota ws)) total (growth ws').
Proof.
  induction ws as [|w ws IH]; intros q m m' Hc Hc' Hq; [done|]. destruct Hc as [(f & Hf & [_ Hg]) Hc].
  change ((w :: ws) ++ ws') with (w :: (ws ++ ws')) in Hq.
  rewrite growth_cons in Hq. cbn [omap list_omap foldl]. destruct (sg_quota w) as [r|]; cbn in Hq |- *; [|by eapply IH].
  destruct Hg as [-> Hlt]. eapply IH; [done|done|]. apply quota_ok_drop; [by rewrite Z.add_comm| |lia].
  rewrite growth_app. pose proof (growth_nonneg _ _ Hc). pose proof (growth_nonneg _ _ Hc'). lia.
Qed.

(** ** Queued commits and what they stand for *)

Record Item := mkItem {
  it_ws : list Staged;
  it_moves : list Move;
  it_drops : list Segid;
  it_guards : list (Z * InflightEntry);
  it_owned : list (Z * PendingInode) }.

Definition staged_of (its : list Item) : list Staged := concat (map it_ws its).
Definition moves_of (its : list Item) : list Move := concat (map it_moves its).
Definition drops_of (its : list Item) : list Segid := concat (map it_drops its).
Definition guards_of (its : list Item) : list (Z * InflightEntry) := concat (map it_guards its).
Definition owned_of (its : list Item) : list (Z * PendingInode) := concat (map it_owned its).

Definition guards_span (g : Z * InflightEntry) (w : Staged) : Prop :=
  g.1 = sg_id w /\ ie_start g.2 = sg_offset w / EXTENT_SIZE /\ ie_end g.2 = (sg_end w - 1) / EXTENT_SIZE.
Abbreviation value_for id := (fun w => if decide (sg_id w = id) then Some <$> sg_inode w else None).
Definition plain_op (op : TxOp) : Prop :=
  match op with
  | PutSegcount _ _ | DelSegcount _ => False
  | PutExtent _ _ loc => 0 < fl_byte_len loc
  | _ => True
  end.

Record item_ok (db : Db) (q : QueuedCommit) (it : Item) : Prop := {
  io_txn : forall d, entries d = entries db ->
    core (tx_db d (rq_txn (qc_request q))) = core (foldl move_db (foldl staged_db d (it_ws it)) (it_moves it));
  io_balanced : balanced db txn_new (rq_txn (qc_request q));
  io_touches : forall k, k ∈ touches (rq_txn (qc_request q)) ->
    (exists w, w ∈ it_ws it /\ k.1 = sg_id w /\ sg_span w k.2) \/ k ∈ mv_key <$> it_moves it;
  io_plain : Forall (fun op => plain_op op \/ exists s, s ∈ it_drops it /\ op = DelSegcount s) (tx_ops (rq_txn (qc_request q)));
  io_settle : rq_settlement (qc_request q) = SettleWrite (omap sg_quota (it_ws it)) \/
              rq_settlement (qc_request q) = SettleNone /\ it_ws it = [];
  io_tails : qc_tails q = (fun w => (sg_id w, sg_tail w)) <$> it_ws it;
  io_guards : qc_guards q = guard_of <$> it_guards it;
  io_spans : Forall2 guards_span (it_guards it) (it_ws it);
  io_owned : qc_owned q = owner_of <$> it_owned it;
  io_values : forall id, pi_value <$> (filter (fun p => p.1 = id) (it_owned it)).*2 = omap (value_for id) (it_ws it) }.

Lemma split_its {A} (g : Item -> list A) n its :
  concat (map g its) = concat (map g (take n its)) ++ concat (map g (drop n its)).
Proof. rewrite <- concat_app, <- map_app. by rewrite take_drop. Qed.

Lemma entries_staged ws : forall d, entries (foldl staged_db d ws) = entries d.
Proof.
  induction ws as [|w ws IH]; intros d; [done|]. cbn. rewrite IH. apply staged_fields.
Qed.
Lemma inodes_staged ws : forall d, inodes (foldl staged_db d ws) = foldl next_inodes (inodes d) ws.
Proof.
  induction ws as [|w ws IH]; intros d; [done|]. cbn. rewrite IH. by rewrite (proj1 (staged_fields d w)).
Qed.

(** No queued write changes an inode whose extents are being moved. *)
Definition settled_moves (its : list Item) : Prop :=
  forall m w, m ∈ moves_of its -> w ∈ staged_of its -> mv_id m <> sg_id w.
Lemma settled_tail it its : settled_moves (it :: its) -> settled_moves its.
Proof. intros Hs m w Hm Hw. apply Hs; apply elem_of_app; by right. Qed.
Lemma settled_sub its its' :
  (forall m, m ∈ moves_of its' -> m ∈ moves_of its) -> (forall w, w ∈ staged_of its' -> w ∈ staged_of its) ->
  settled_moves its -> settled_moves its'.
Proof. intros Hm Hw Hs m w ? ?. apply Hs; auto. Qed.
Lemma settled_split n its : settled_moves its -> settled_moves (take n its) /\ settled_moves (drop n its).
Proof.
  intros Hs. split; (eapply settled_sub; [| |exact Hs]); unfold moves_of, staged_of;
    intros x Hx; rewrite (split_its _ n); apply elem_of_app; auto.
Qed.

Section items.
Context (db : Db).

Lemma items_db qs its : Forall2 (item_ok db) qs its -> settled_moves its -> forall d, entries d = entries db ->
  core (apply_ops d (batch_ops (map qc_request qs))) = core (foldl move_db (foldl staged_db d (staged_of its)) (moves_of its)).
Proof.
  induction 1 as [|q it qs its Hq _ IH]; intros Hset d Hd; [done|].
  change (batch_ops (map qc_request (q :: qs))) with (tx_ops (rq_txn (qc_request q)) ++ batch_ops (map qc_request qs)).
  change (staged_of (it :: its)) with (it_ws it ++ staged_of its).
  change (moves_of (it :: its)) with (it_moves it ++ moves_of its). unfold apply_ops. rewrite !foldl_app.
  fold (apply_ops d (tx_ops (rq_txn (qc_request q)))). fold (tx_db d (rq_txn (qc_request q))).
  fold (apply_ops (tx_db d (rq_txn (qc_request q))) (batch_ops (map qc_request qs))).
  rewrite (core_ops _ _ _ (io_txn _ _ _ Hq d Hd)).
  rewrite IH; [do 2 f_equal; apply moves_staged|by eapply settled_tail|by rewrite (proj2 (moved_fields _ _)), entries_staged].
  intros m w Hm Hw. apply Hset; apply elem_of_app; [by left|by right].
Qed.
Lemma items_tails {S} qs its : Forall2 (item_ok db) qs its -> forall e : ExtentStore S,
  foldl (settle_tails true) e qs = foldl staged_tail e (staged_of its).
Proof.
  induction 1 as [|q it qs its Hq _ IH]; intros e; [done|]. cbn [foldl].
  change (staged_of (it :: its)) with (it_ws it ++ staged_of its). rewrite foldl_app, IH. f_equal.
  unfold settle_tails. rewrite (io_tails _ _ _ Hq). clear. revert e.
  induction (it_ws it) as [|w ws IH]; intros e; [done|]. cbn. by rewrite IH.
Qed.
Lemma items_untailed {S} (qs : list QueuedCommit) (e : ExtentStore S) : foldl (settle_tails false) e qs = e.
Proof. induction qs as [|q qs IH]; [done|]. cbn. by rewrite IH. Qed.
Lemma items_guards qs its : Forall2 (item_ok db) qs its -> forall w,
  foldl settle_guards w qs = foldl (fun w g => retire_write g.1 g.2 w) w (guard_of <$> guards_of its).
Proof.
  induction 1 as [|q it qs its Hq _ IH]; intros w; [done|]. cbn [foldl].
  change (guards_of (it :: its)) with (it_guards it ++ guards_of its). rewrite fmap_app, foldl_app, IH. f_equal.
  unfold settle_guards. by rewrite (io_guards _ _ _ Hq).
Qed.
Lemma items_owned qs its : Forall2 (item_ok db) qs its -> forall p,
  foldl settle_owned p qs = foldl retire_inode p (owner_of <$> owned_of its).
Proof.
  induction 1 as [|q it qs its Hq _ IH]; intros p; [done|]. cbn [foldl].
  change (owned_of (it :: its)) with (it_owned it ++ owned_of its). rewrite fmap_app, foldl_app, IH. f_equal.
  unfold settle_owned. by rewrite (io_owned _ _ _ Hq).
Qed.
Lemma items_quota ok qs its : Forall2 (item_ok db) qs its -> forall f,
  fs_quota (settle_all (map qc_request qs) ok f) =
  foldl (fun q r => settle_finish (Growth r) ok q) (fs_quota f) (omap sg_quota (staged_of its)).
Proof.
  intros Hq f. rewrite settle_all_quota. generalize (fs_quota f). clear f.
  induction Hq as [|q it qs its Hq _ IH]; intros fq; [done|]. cbn [foldl map].
  change (staged_of (it :: its)) with (it_ws it ++ staged_of its). rewrite omap_app, foldl_app, IH. f_equal.
  by destruct (io_settle _ _ _ Hq) as [->|[-> ->]].
Qed.
Lemma items_owned_values qs its id : Forall2 (item_ok db) qs its ->
  pi_value <$> (filter (fun p => p.1 = id) (owned_of its)).*2 = omap (value_for id) (staged_of its).
Proof.
  induction 1 as [|q it qs its Hq _ IH]; [done|].
  change (owned_of (it :: its)) with (it_owned it ++ owned_of its).
  change (staged_of (it :: its)) with (it_ws it ++ staged_of its).
  by rewrite filter_app, !fmap_app, omap_app, IH, (io_values _ _ _ Hq).
Qed.
End items.

(** Staged writes change the extents of their spans only. *)
Definition spans_of (ws : list Staged) (k : Z * Z) : Prop := exists w, w ∈ ws /\ k.1 = sg_id w /\ sg_span w k.2.

Lemma extents_staged ws k : forall d,
  (forall w, w ∈ ws -> forall x, x ∈ (sg_edits w).*1 -> sg_span w x) -> ~ spans_of ws k ->
  extents (foldl staged_db d ws) !! k = extents d !! k.
Proof.
  induction ws as [|w ws IH]; intros d He Hk; [done|]. cbn [foldl]. rewrite IH.
  - destruct (staged_fields d w) as (_ & _ & ->). apply apply_edits_other. intros x Hx ->. apply Hk.
    exists w. split; [left|]. split; [done|]. apply He; [left|done].
  - intros w' Hw'. apply He. by right.
  - intros (w' & Hw' & Hs). apply Hk. exists w'. split; [by right|done].
Qed.

(** Where the extents of an applied queue come from. *)
Lemma edits_origin id edits : forall locs m k loc,
  apply_edits id edits locs m !! k = Some loc -> m !! k = Some loc \/ loc ∈ locs.
Proof.
  induction edits as [|[x [data|]] edits IH]; intros locs m k loc; cbn; [by left| |].
  - destruct locs as [|l locs]; [by left|]. intros [Hk|Hk]%IH; [|right; by right].
    apply lookup_insert_Some in Hk as [[_ <-]|[_ ?]]; [right; left|by left].
  - intros [[_ ?]%lookup_delete_Some|?]%IH; [by left|by right].
Qed.
Lemma staged_origin ws k loc : forall d,
  extents (foldl staged_db d ws) !! k = Some loc -> extents d !! k = Some loc \/ exists w, w ∈ ws /\ loc ∈ sg_locs w.
Proof.
  induction ws as [|w ws IH]; intros d; cbn; [by left|]. intros [Hk|(w' & ? & ?)]%IH; [|right; exists w'; split; [by right|done]].
  rewrite (proj2 (proj2 (staged_fields d w))) in Hk. apply edits_origin in Hk as [?|?]; [by left|]. right. exists w. split; [left|done].
Qed.
Lemma moved_origin ms k loc : forall d,
  extents (foldl move_db d ms) !! k = Some loc -> extents d !! k = Some loc \/ exists m, m ∈ ms /\ mv_key m = k /\ loc = mv_new m.
Proof.
  induction ms as [|m ms IH]; intros d; cbn; [by left|]. intros [Hk|(m' & ? & ?)]%IH; [|right; exists m'; split; [by right|done]].
  cbn in Hk. apply lookup_insert_Some in Hk as [[<- <-]|[_ ?]]; [|by left]. right. exists m. split; [left|done].
Qed.

Lemma item_ok_db db db' q it :
  entries db' = entries db -> agree_on (touches (rq_txn (qc_request q))) (extents db) (extents db') ->
  item_ok db q it -> item_ok db' q it.
Proof.
  intros He Ha []. split; try done.
  - intros d Hd. apply io_txn0. congruence.
  - intros s. specialize (io_balanced0 s). pose proof (live_change (tx_ops (rq_txn (qc_request q))) s db db' Ha) as Hc.
    unfold tx_db in *. cbn [tx_ops txn_new apply_ops foldl] in *. lia.
Qed.

(** ** The invariant *)

Section pipeline.
Context {S Hint : Type} `{FrameStoreLaws S Hint}.
Implicit Types (v : Volume S) (F : Files).

(** No queued commit refers to the segment, and none will. *)
Record retired (s : S) (its : list Item) (g : Segid) : Prop := {
  rt_closed : fs_closed s g;
  rt_staged : forall w loc, w ∈ staged_of its -> loc ∈ sg_locs w -> fl_segid loc <> g;
  rt_moves : forall m, m ∈ moves_of its -> fl_segid (mv_new m) <> g }.
Definition unreferenced (m : gmap (Z * Z) FrameLoc) (g : Segid) : Prop :=
  forall k loc, m !! k = Some loc -> fl_segid loc <> g.

Lemma retired_closed (s s' : S) its g : (fs_closed s g -> fs_closed s' g) -> retired s its g -> retired s' its g.
Proof. intros Hc []. split; auto. Qed.
Lemma retired_drop s its n g : retired s its g -> retired s (drop n its) g.
Proof.
  intros [Hc Hw Hm]. split; [done| |].
  - intros w loc Hin. apply Hw. unfold staged_of. rewrite (split_its _ n). apply elem_of_app. by right.
  - intros m Hin. apply Hm. unfold moves_of. rewrite (split_its _ n). apply elem_of_app. by right.
Qed.
Lemma retired_push s its it g :
  retired s its g -> (forall w loc, w ∈ it_ws it -> loc ∈ sg_locs w -> fl_segid loc <> g) ->
  (forall m, m ∈ it_moves it -> fl_segid (mv_new m) <> g) -> retired s (its ++ [it]) g.
Proof.
  intros [Hc Hw Hm] Hw' Hm'. unfold staged_of, moves_of in *. split; [done| |]; unfold staged_of, moves_of; rewrite map_app, concat_app; cbn; rewrite app_nil_r.
  - intros w loc [Hin|Hin]%elem_of_app; [by apply Hw|by apply Hw'].
  - intros m [Hin|Hin]%elem_of_app; [by apply Hm|by apply Hm'].
Qed.

(** [F] are the files of the applied state; [its] explains the queue. *)
Record PipeInv v F (its : list Item) : Prop := {
  pp_ns : NsState (v_fs v);
  pp_es : es_ok (v_es v);
  pp_files : files_ok (v_es v) (v_db v) F;
  pp_items : Forall2 (item_ok (v_db v)) (v_queue v) its;
  pp_staged : Forall (staged_ok (es_frames (v_es v)) F) (staged_of its);
  pp_chain : chain (inodes (v_db v)) (staged_of its);
  pp_disjoint : all_disjoint (staged_of its);
  pp_moves : Forall (move_ok (es_frames (v_es v)) (v_db v)) (moves_of its);
  pp_moving : NoDup (mv_key <$> moves_of its);
  pp_settled : settled_moves its;
  pp_drops : Forall (fun g => retired (es_frames (v_es v)) its g /\ unreferenced (extents (v_db v)) g) (drops_of its);
  pp_inflight : InflightInv (v_inflight v) (guards_of its);
  pp_pending : PendingInv (v_pending v) (owned_of its);
  pp_quota : quota_ok (fs_quota (v_fs v)) (total_bytes (inodes (v_db v))) (growth (staged_of its));
  pp_segs : SegInv (v_fs v) }.

(** Every queued write has its range registered. *)
Lemma queue_guard v F its w : PipeInv v F its -> w ∈ staged_of its -> exists g, g ∈ guards_of its /\ guards_span g w.
Proof.
  intros Hp Hw. assert (Hf : Forall2 guards_span (guards_of its) (staged_of its)).
  { pose proof (pp_items _ _ _ Hp) as Hi. clear - Hi. induction Hi as [|q it qs its' Hq _ IH]; [constructor|].
    apply Forall2_app; [apply Hq|done]. }
  apply Forall2_flip in Hf. destruct (Forall2_elem_l _ _ _ _ Hf Hw) as (g & Hg & Hs). by exists g.
Qed.
Lemma inode_settled_queue v F its id w :
  PipeInv v F its -> pending_overlaps (v_inflight v) id None = [] -> w ∈ staged_of its -> sg_id w <> id.
Proof.
  intros Hp Hn Hw <-. destruct (queue_guard v F its w Hp Hw) as (g & Hg & Hid & _). unfold pending_overlaps in Hn.
  rewrite (iv_entries _ _ (pp_inflight _ _ _ Hp)) in Hn.
  assert (Hin : g.2 ∈ (filter (fun q : Z * InflightEntry => q.1 = sg_id w) (guards_of its)).*2).
  { apply list_elem_of_fmap. exists g. split; [done|]. by apply list_elem_of_filter. }
  apply list_elem_of_In in Hin. assert (Hf : In g.2 (List.filter (fun _ => true) (filter (fun q : Z * InflightEntry => q.1 = sg_id w) (guards_of its)).*2)).
  { by apply filter_In. }
  by rewrite Hn in Hf.
Qed.

(** The counters of a batch stay below the machine widths. *)
Definition counters_fit (v : Volume S) (n : nat) : Prop :=
  let batch := map qc_request (take n (v_queue v)) in
  (forall s, ksum (fun d => Z.abs d.1) s (batch_segs batch) <= I64_MAX) /\
  (forall s, live_of (extents (apply_ops (v_db v) (batch_ops batch))) s <= U64_MAX).

Lemma settle_tails_ok (e : ExtentStore S) ws : es_ok e -> es_ok (foldl staged_tail e ws).
Proof.
  revert e. induction ws as [|w ws IH]; intros e He; [done|]. cbn. apply IH.
  unfold staged_tail. by destruct (sg_tail w).
Qed.
Lemma staged_tails_frames ws : forall e : ExtentStore S, es_frames (foldl staged_tail e ws) = es_frames e.
Proof. induction ws as [|w ws IH]; intros e; [done|]. cbn. by rewrite IH, staged_tail_frames. Qed.

Lemma next_id_mono ret inst o batch f :
  id_room f -> next_id f <= next_id (process_batch ret inst o batch f).2.
Proof.
  unfold id_room. intros Hr. assert (Hw : 0 <= next_id f -> u64_wrap (next_id f + 1) = next_id f + 1).
  { intros. apply u64_wrap_id. ulia. }
  assert (Hpos : 0 <= next_id f \/ next_id f < 0) by lia.
  pose proof (u64_wrap_range (next_id f + 1)) as Hrange.
  destruct (process_batch_spec ret inst o batch f) as [e f' _ _ _ _ Hn|r f' _ _ _ _ Hn]; cbn;
    destruct Hn as [?|?]; destruct_and?; destruct Hpos as [Hp|Hp]; try (specialize (Hw Hp)); ulia.
Qed.

Lemma plain_batch db qs its : Forall2 (item_ok db) qs its ->
  Forall (fun op => plain_op op \/ exists s, s ∈ drops_of its /\ op = DelSegcount s) (batch_ops (map qc_request qs)).
Proof.
  induction 1 as [|q it qs its Hq _ IH]; [constructor|].
  change (batch_ops (map qc_request (q :: qs))) with (tx_ops (rq_txn (qc_request q)) ++ batch_ops (map qc_request qs)).
  change (drops_of (it :: its)) with (it_drops it ++ drops_of its).
  apply Forall_app. split; [eapply Forall_impl; [apply Hq|]|eapply Forall_impl; [exact IH|]];
    (intros op [?|(s & ? & ->)]; [by left|right; exists s; split; [apply elem_of_app; tauto|done]]).
Qed.

(** The extents that queued commits touch are their own. *)
Lemma elem_of_items {A} (g : Item -> list A) it its x : it ∈ its -> x ∈ g it -> x ∈ concat (map g its).
Proof.
  intros Hit Hx. apply list_elem_of_In, in_concat. exists (g it).
  split; [by apply in_map, list_elem_of_In|by apply list_elem_of_In].
Qed.
Lemma owned_apart ws ms ws' ms' k :
  (forall w w', w ∈ ws -> w' ∈ ws' -> disjoint w w') -> NoDup (mv_key <$> (ms ++ ms')) ->
  (forall m w, m ∈ ms ++ ms' -> w ∈ ws ++ ws' -> mv_id m <> sg_id w) ->
  spans_of ws k \/ k ∈ mv_key <$> ms -> spans_of ws' k \/ k ∈ mv_key <$> ms' -> False.
Proof.
  intros Hd Hnd Hs [(w & Hw & Hid & Hx)|Hk] [(w' & Hw' & Hid' & Hx')|Hk'].
  - by apply (Hd w w' Hw Hw') with (x := k.2); [congruence|..].
  - apply list_elem_of_fmap in Hk' as (m & -> & Hm). apply (Hs m w); [apply elem_of_app; by right|apply elem_of_app; by left|done].
  - apply list_elem_of_fmap in Hk as (m & -> & Hm). apply (Hs m w'); [apply elem_of_app; by left|apply elem_of_app; by right|done].
  - rewrite fmap_app in Hnd. apply NoDup_app in Hnd as (_ & Hn & _). by apply (Hn k).
Qed.

Lemma items_apart db qs its :
  Forall2 (item_ok db) qs its -> all_disjoint (staged_of its) -> NoDup (mv_key <$> moves_of its) -> settled_moves its ->
  apart (map qc_request qs).
Proof.
  induction 1 as [|q it qs its Hq Hqs IH]; [done|].
  change (staged_of (it :: its)) with (it_ws it ++ staged_of its). intros (_ & Hd & Hdd)%all_disjoint_app Hnd Hset.
  change (moves_of (it :: its)) with (it_moves it ++ moves_of its) in Hnd.
  split; [|apply IH; [done| |by eapply settled_tail]; rewrite fmap_app in Hnd; by apply NoDup_app in Hnd as (_ & _ & ?)].
  intros r k Hr Hk Hk'. apply list_elem_of_fmap in Hr as (q' & -> & Hq').
  destruct (Forall2_elem_l _ _ _ _ Hqs Hq') as (it' & Hit' & Hok').
  eapply (owned_apart (it_ws it) (it_moves it) (staged_of its) (moves_of its) k); [done|done|exact Hset|by apply Hq|].
  destruct (io_touches _ _ _ Hok' k Hk') as [(w' & Hw' & Hx')|Hm].
  - left. exists w'. split; [by eapply (elem_of_items it_ws)|done].
  - right. apply list_elem_of_fmap in Hm as (m & -> & Hm). apply list_elem_of_fmap_2. by eapply (elem_of_items it_moves).
Qed.

(** Applying queued commits adds no reference to a retired segment. *)
Lemma retired_unreferenced s its d g n :
  retired s its g -> unreferenced (extents d) g ->
  unreferenced (extents (foldl move_db (foldl staged_db d (staged_of (take n its))) (moves_of (take n its)))) g.
Proof.
  intros [_ Hw Hm] Hu k loc [[Hk|(w & Hin & Hl)]%staged_origin|(m & Hin & _ & ->)]%moved_origin.
  - by eapply Hu.
  - apply (Hw w); [|done]. unfold staged_of. rewrite (split_its _ n). apply elem_of_app. by left.
  - apply Hm. unfold moves_of. rewrite (split_its _ n). apply elem_of_app. by left.
Qed.
Lemma unreferenced_live m g : unreferenced m g -> live_of m g = 0.
Proof.
  unfold live_of. intros Hu. apply msum_zero. intros k loc Hk. unfold seg_bytes. rewrite decide_False; [done|]. by eapply Hu.
Qed.
Lemma drops_sub (P : Segid -> Prop) n its : Forall P (drops_of its) -> Forall P (drops_of (take n its)) /\ Forall P (drops_of (drop n its)).
Proof. unfold drops_of. rewrite (split_its it_drops n). by intros ?%Forall_app. Qed.

Lemma pipe_balanced v F its n :
  PipeInv v F its -> counters_fit v n -> batch_balanced (v_fs v) (map qc_request (take n (v_queue v))).
Proof.
  intros Hp [Hc1 Hc2]. pose proof (Forall2_take _ _ _ n (pp_items _ _ _ Hp)) as Hi.
  pose proof (plain_batch _ _ _ Hi) as Hpl. rewrite Forall_forall in Hpl. split; [| | | | |done|done].
  - apply Forall_map. eapply Forall2_Forall_l; [exact Hi|]. apply Forall_true. intros it q Hq. apply Hq.
  - eapply items_apart; [exact Hi| | |apply settled_split, Hp].
    + pose proof (pp_disjoint _ _ _ Hp) as Hd. unfold staged_of in Hd. rewrite (split_its it_ws n) in Hd.
      by apply all_disjoint_app in Hd as [? _].
    + pose proof (pp_moving _ _ _ Hp) as Hd. unfold moves_of in Hd. rewrite (split_its it_moves n), fmap_app in Hd.
      by apply NoDup_app in Hd as [? _].
  - intros s d [?|(? & _ & ?)]%Hpl; done.
  - intros s [?|(s' & Hs & [= ->])]%Hpl; [done|]. apply unreferenced_live.
    destruct (drops_sub _ n _ (pp_drops _ _ _ Hp)) as [Hd _]. rewrite Forall_forall in Hd. destruct (Hd s' Hs) as [Hr Hu].
    destruct (settled_split n its (pp_settled _ _ _ Hp)) as [Hset _].
    pose proof (items_db (v_db v) _ _ Hi Hset (v_db v) eq_refl) as Hcore. unfold core in Hcore.
    injection Hcore as _ _ _ _ _ _ Hx. change (fs_db (v_fs v)) with (v_db v). rewrite Hx. by eapply retired_unreferenced.
  - intros id x loc [?|(? & _ & ?)]%Hpl; done.
Qed.

(** The queue in two parts. *)
Record split_at (n : nat) v F (its : list Item) (ws rest : list Staged) (ms mrest : list Move) : Prop := {
  sp_all : staged_of its = ws ++ rest /\ moves_of its = ms ++ mrest;
  sp_ok : Forall (staged_ok (es_frames (v_es v)) F) ws /\ Forall (staged_ok (es_frames (v_es v)) F) rest;
  sp_disjoint : all_disjoint ws /\ all_disjoint rest /\ (forall w w', w ∈ ws -> w' ∈ rest -> disjoint w w');
  sp_chain : chain (inodes (v_db v)) ws /\ chain (foldl next_inodes (inodes (v_db v)) ws) rest;
  sp_moves : Forall (move_ok (es_frames (v_es v)) (v_db v)) ms /\ Forall (move_ok (es_frames (v_es v)) (v_db v)) mrest;
  sp_nodup : NoDup (mv_key <$> (ms ++ mrest));
  sp_moving : NoDup (mv_key <$> ms) /\ NoDup (mv_key <$> mrest);
  sp_settled : forall m w, m ∈ ms ++ mrest -> w ∈ ws ++ rest -> mv_id m <> sg_id w;
  sp_inflight : InflightInv (foldl settle_guards (v_inflight v) (take n (v_queue v))) (guards_of (drop n its));
  sp_pending : PendingInv (foldl settle_owned (v_pending v) (take n (v_queue v))) (owned_of (drop n its)) }.

Lemma pipe_split v F its n :
  PipeInv v F its ->
  split_at n v F its (staged_of (take n its)) (staged_of (drop n its)) (moves_of (take n its)) (moves_of (drop n its)).
Proof.
  intros Hp. set (ws := staged_of (take n its)). set (rest := staged_of (drop n its)).
  set (ms := moves_of (take n its)). set (mrest := moves_of (drop n its)).
  assert (Hs : staged_of its = ws ++ rest) by apply split_its.
  assert (Hm : moves_of its = ms ++ mrest) by apply split_its.
  pose proof (pp_staged _ _ _ Hp) as Hst. pose proof (pp_disjoint _ _ _ Hp) as Hd. pose proof (pp_chain _ _ _ Hp) as Hc.
  pose proof (pp_moves _ _ _ Hp) as Hmv. pose proof (pp_moving _ _ _ Hp) as Hnd. pose proof (pp_settled _ _ _ Hp) as Hset.
  unfold settled_moves in Hset. rewrite Hs in Hst, Hd, Hc, Hset. rewrite Hm in Hmv, Hnd, Hset.
  pose proof (Forall2_take _ _ _ n (pp_items _ _ _ Hp)) as Hi.
  split; [done|by apply Forall_app|by apply all_disjoint_app|by apply chain_app|by apply Forall_app|done| |done| |].
  - rewrite fmap_app in Hnd. apply NoDup_app in Hnd as (? & _ & ?). done.
  - rewrite (items_guards _ _ _ Hi). apply retire_writes_inv. unfold guards_of. rewrite <- split_its. apply Hp.
  - rewrite (items_owned _ _ _ Hi). apply retire_inodes_inv. unfold owned_of. rewrite <- split_its. apply Hp.
Qed.

(** What a turn leaves alone: the extents of the rest of the queue. *)
Lemma rest_extents n v F its ws rest ms mrest k :
  split_at n v F its ws rest ms mrest -> spans_of rest k \/ k ∈ mv_key <$> mrest ->
  extents (foldl move_db (foldl staged_db (v_db v) ws) ms) !! k = extents (v_db v) !! k.
Proof.
  intros Hsp Hk. destruct (sp_disjoint _ _ _ _ _ _ _ _ Hsp) as (_ & _ & Hdd). pose proof (sp_ok _ _ _ _ _ _ _ _ Hsp) as [Hok _].
  assert (Hno : ~ (spans_of ws k \/ k ∈ mv_key <$> ms)).
  { intros Hk'. eapply owned_apart; [exact Hdd|apply Hsp|apply Hsp|exact Hk'|exact Hk]. }
  rewrite moved_other by tauto. apply extents_staged; [|tauto]. intros w Hw x. rewrite Forall_forall in Hok.
  apply (span_edits w F). by apply so_edits with (s := es_frames (v_es v)), Hok.
Qed.

Lemma rest_items v F its n :
  PipeInv v F its -> forall db', entries db' = entries (v_db v) ->
  extents db' = extents (foldl move_db (foldl staged_db (v_db v) (staged_of (take n its))) (moves_of (take n its))) ->
  Forall2 (item_ok db') (drop n (v_queue v)) (drop n its).
Proof.
  intros Hp db' He Hx. pose proof (Forall2_drop _ _ _ n (pp_items _ _ _ Hp)) as Hd. pose proof (pipe_split v F its n Hp) as Hsp.
  assert (Hrest : forall k, spans_of (staged_of (drop n its)) k \/ k ∈ mv_key <$> moves_of (drop n its) ->
    extents db' !! k = extents (v_db v) !! k).
  { intros k Hk. rewrite Hx. by apply (rest_extents _ _ _ _ _ _ _ _ _ Hsp). }
  apply Forall2_same_length_lookup. split; [by eapply Forall2_length|]. intros i q it Hq Hit.
  pose proof (Forall2_lookup_lr _ _ _ _ _ _ Hd Hq Hit) as Hok. apply (item_ok_db (v_db v)); [done| |done].
  intros k Hk. apply Hrest. apply list_elem_of_lookup_2 in Hit. destruct (io_touches _ _ _ Hok k Hk) as [(w & Hw & Hs)|Hm].
  - left. exists w. split; [by eapply (elem_of_items it_ws)|done].
  - right. apply list_elem_of_fmap in Hm as (m & -> & Hm). apply list_elem_of_fmap_2. by eapply (elem_of_items it_moves).
Qed.

(** A written batch applies its requests, in order. *)
Lemma turn_written ret inst o n v F its :
  PipeInv v F its -> id_room (v_fs v) -> counters_fit v n ->
  batch_written o (map qc_request (take n (v_queue v))) (v_fs v) = true ->
  PipeInv (worker_turn ret inst o n v).2 (foldl sg_write F (staged_of (take n its))) (drop n its).
Proof.
  intros Hp Hroom Hfit Hw. pose proof (pipe_balanced v F its n Hp Hfit) as Hbal.
  pose proof (segcounts_keep ret inst o _ _ (pp_segs _ _ _ Hp) Hbal) as Hseg.
  pose proof (next_id_mono ret inst o (map qc_request (take n (v_queue v))) (v_fs v) Hroom) as Hnext.
  pose proof (pipe_split v F its n Hp) as Hsp.
  pose proof (Forall2_take _ _ _ n (pp_items _ _ _ Hp)) as Hi.
  destruct (settled_split n its (pp_settled _ _ _ Hp)) as [Hset Hset'].
  destruct (process_batch_written ret inst o _ _ Hw) as [fl Hpub].
  unfold worker_turn. rewrite Hw. destruct (process_batch _ _ _ _ _) as [r f'] eqn:Epb. cbn [snd] in *.
  pose proof (publish_batch_state ret inst fl (map qc_request (take n (v_queue v))) (v_fs v)) as Hst1.
  rewrite <- Hpub in Hst1. cbn in Hst1. destruct Hst1 as (Hdb & Hq & _).
  assert (Hrest : forall k, spans_of (staged_of (drop n its)) k \/ k ∈ mv_key <$> moves_of (drop n its) ->
    extents (foldl move_db (foldl staged_db (v_db v) (staged_of (take n its))) (moves_of (take n its))) !! k = extents (v_db v) !! k)
    by (intros k; by eapply rest_extents).
  set (ws := staged_of (take n its)) in *. set (ms := moves_of (take n its)) in *.
  assert (Hcore : core (fs_db f') = core (foldl move_db (foldl staged_db (v_db v) ws) ms)).
  { rewrite Hdb, core_merged. by apply (items_db (v_db v)). }
  pose proof Hcore as Hcore'. unfold core in Hcore'. injection Hcore' as Hcin Hcen _ _ _ _ Hcex.
  rewrite (proj1 (moved_fields _ _)), inodes_staged in Hcin. rewrite (proj2 (moved_fields _ _)), entries_staged in Hcen.
  destruct Hsp as [[Hs _] [Hst Hst'] (Hd & Hd' & Hdd) [Hc Hc'] [Hm Hm'] _ [Hnm Hnm'] Hse Hin Hpn].
  destruct (apply_staged (next_id (v_fs v)) ws (v_es v) (v_db v) F) as [Hns Hfiles]; [apply Hp|apply Hp|done..|].
  destruct (apply_moves (next_id (v_fs v)) (foldl staged_tail (v_es v) ws) (foldl sg_write F ws) ms (foldl staged_db (v_db v) ws))
    as [Hns' Hfiles']; [done| |done|done|].
  { rewrite staged_tails_frames. rewrite Forall_forall in Hm |- *. intros m Hin'. apply (move_ok_agree _ (v_db v)); [|by apply Hm].
    apply extents_staged.
    - intros w Hw' x. rewrite Forall_forall in Hst. apply (span_edits w F). by apply so_edits with (s := es_frames (v_es v)), Hst.
    - intros (w & Hw' & Hid & _). apply (Hse m w); [apply elem_of_app; by left|apply elem_of_app; by left|done]. }
  split; cbn [v_fs v_es v_pending v_inflight v_queue v_db snd].
  - apply (ns_mono (next_id (v_fs v))); [|done]. by apply (ns_core _ (foldl move_db (foldl staged_db (v_db v) ws) ms)).
  - rewrite (items_tails _ _ _ Hi). apply settle_tails_ok, Hp.
  - rewrite (items_tails _ _ _ Hi). intros id f. unfold v_db. cbn. rewrite Hcin, Hcex.
    specialize (Hfiles' id f). rewrite (proj1 (moved_fields _ _)), inodes_staged in Hfiles'. exact Hfiles'.
  - apply (rest_items v F its n Hp); unfold v_db; cbn; [by rewrite Hcen|done].
  - rewrite (items_tails _ _ _ Hi), staged_tails_frames. by apply staged_ok_writes.
  - unfold v_db. cbn. by rewrite Hcin.
  - done.
  - rewrite (items_tails _ _ _ Hi), staged_tails_frames. rewrite Forall_forall in Hm' |- *. intros m Hin'.
    apply (move_ok_agree _ (v_db v)); [|by apply Hm']. unfold v_db at 1. cbn. rewrite Hcex. apply Hrest. right.
    by apply list_elem_of_fmap_2.
  - done.
  - done.
  - rewrite (items_tails _ _ _ Hi), staged_tails_frames. destruct (drops_sub _ n _ (pp_drops _ _ _ Hp)) as [_ Hdr].
    eapply Forall_impl; [exact Hdr|]. intros g [Hre Hun]. split; [by apply retired_drop|]. unfold v_db. cbn.
    rewrite Hcex. by eapply retired_unreferenced.
  - done.
  - done.
  - rewrite Hq, (items_quota (v_db v) true _ _ Hi). unfold v_db. cbn. rewrite Hcin. eapply quota_ok_commit; [done|exact Hc'|].
    fold ws. rewrite <- Hs. apply Hp.
  - done.
Qed.

(** A turn writes the extents of its batch or none, and no frame. *)
Definition queue_extents (d : Db) (its : list Item) : gmap (Z * Z) FrameLoc :=
  extents (foldl move_db (foldl staged_db d (staged_of its)) (moves_of its)).

Lemma turn_data ret inst o n v F its :
  PipeInv v F its ->
  let v' := (worker_turn ret inst o n v).2 in
  es_frames (v_es v') = es_frames (v_es v) /\
  (extents (v_db v') = extents (v_db v) \/ extents (v_db v') = queue_extents (v_db v) (take n its)).
Proof.
  intros Hp. pose proof (Forall2_take _ _ _ n (pp_items _ _ _ Hp)) as Hi. unfold worker_turn.
  destruct (batch_written o (map qc_request (take n (v_queue v))) (v_fs v)) eqn:Hw.
  - destruct (process_batch_written ret inst o _ _ Hw) as [fl Hpub]. rewrite Hpub.
    pose proof (publish_batch_state ret inst fl (map qc_request (take n (v_queue v))) (v_fs v)) as Hst1.
    destruct (publish_batch _ _ _ _ _) as [r f']. cbn in Hst1 |- *. destruct Hst1 as (Hdb & _).
    split; [by rewrite (items_tails _ _ _ Hi), staged_tails_frames|]. right.
    assert (Hcore : core (fs_db f') = core (foldl move_db (foldl staged_db (v_db v) (staged_of (take n its))) (moves_of (take n its)))).
    { rewrite Hdb, core_merged. apply (items_db (v_db v)); [done|by apply settled_split, Hp|done]. }
    unfold core in Hcore. by injection Hcore.
  - pose proof (process_batch_unwritten ret inst o _ _ Hw) as Hun. destruct (process_batch _ _ _ _ _) as [r f'].
    cbn in Hun |- *. destruct Hun as (Hdb & _). split; [by rewrite items_untailed|]. left. unfold v_db. cbn. by rewrite Hdb.
Qed.

(** A batch that is not written leaves the files as they are; the rest of the queue
    stays valid when it does not build on the failed inodes. *)
Definition isolated (its : list Item) (n : nat) : Prop :=
  forall w w', w ∈ staged_of (take n its) -> w' ∈ staged_of (drop n its) -> sg_id w <> sg_id w'.

Lemma turn_failed ret inst o n v F its :
  PipeInv v F its -> id_room (v_fs v) -> counters_fit v n -> isolated its n ->
  batch_written o (map qc_request (take n (v_queue v))) (v_fs v) = false ->
  PipeInv (worker_turn ret inst o n v).2 F (drop n its).
Proof.
  intros Hp Hroom Hfit Hiso Hw. pose proof (pipe_balanced v F its n Hp Hfit) as Hbal.
  pose proof (segcounts_keep ret inst o _ _ (pp_segs _ _ _ Hp) Hbal) as Hseg.
  pose proof (next_id_mono ret inst o (map qc_request (take n (v_queue v))) (v_fs v) Hroom) as Hnext.
  destruct (pipe_split v F its n Hp) as [[Hs _] [Hst Hst'] (Hd & Hd' & Hdd) [Hc Hc'] [Hm Hm'] _ [Hnm Hnm'] Hse Hin Hpn].
  pose proof (Forall2_take _ _ _ n (pp_items _ _ _ Hp)) as Hi.
  pose proof (process_batch_unwritten ret inst o _ _ Hw) as Hun.
  unfold worker_turn. rewrite Hw. destruct (process_batch _ _ _ _ _) as [r f'] eqn:Epb. cbn [snd fst] in *.
  destruct Hun as (Hdb & Hq & _ & _). set (ws := staged_of (take n its)) in *.
  assert (Hch : chain (inodes (v_db v)) (staged_of (drop n its))).
  { eapply chain_agree; [|exact Hc']. intros w' Hw'. symmetry. apply next_inodes_other.
    intros (w & Hid & Hin')%list_elem_of_fmap. by apply (Hiso w w'). }
  split; cbn [v_fs v_es v_pending v_inflight v_queue v_db snd].
  - unfold NsState. rewrite Hdb. eapply ns_mono; [apply Hp|done].
  - rewrite items_untailed. apply Hp.
  - rewrite items_untailed. unfold v_db. cbn. rewrite Hdb. apply Hp.
  - unfold v_db. cbn. rewrite Hdb. apply Forall2_drop. apply Hp.
  - by rewrite items_untailed.
  - unfold v_db. cbn. by rewrite Hdb.
  - done.
  - rewrite items_untailed. unfold v_db. cbn. by rewrite Hdb.
  - done.
  - by apply settled_split, Hp.
  - rewrite items_untailed. unfold v_db. cbn. rewrite Hdb. destruct (drops_sub _ n _ (pp_drops _ _ _ Hp)) as [_ Hdr].
    eapply Forall_impl; [exact Hdr|]. intros g [Hre Hun]. split; [by apply retired_drop|done].
  - done.
  - done.
  - rewrite Hq, (items_quota (v_db v) false _ _ Hi). unfold v_db. cbn. rewrite Hdb. eapply quota_ok_refund; [exact Hc|exact Hc'|].
    fold ws. rewrite <- Hs. apply Hp.
  - done.
Qed.
End pipeline.
