(* ===== verification/Submit.v ===== *)
(** * Submission of a write

    [write_submit] ([OpsWrite]) from a pipeline state: preparation reads the pending inode
    and reserves quota, application stages the extents against the applied state, and the
    queue grows by one commit that the invariant of [Pipeline] explains.  Every error path
    gives back what was reserved. *)

From S2P Require Import Prelude Errors Segment Quota Inode Dedup Permissions Store Namespace Commit Usage Ops.
From S2P Require Import FrameStore Extent ExtentSpec SegCounts Volume Registry OpsWrite Staged Pipeline.

(** ** Preparation *)

(** What preparation knows about a member; [i] is the visible inode. *)
Record prepared (m : PrepareWriteMember) (file : FileInode) (p : PreparedWriteMember) : Prop := {
  pd_id : pm_id p = wm_id m;
  pd_offset : pm_offset p = wm_offset m;
  pd_data : pm_data p = wm_data m;
  pd_old : pm_old_size p = f_size file;
  pd_span : pm_span p = extent_span (wm_offset m) (zlen (wm_data m));
  pd_empty : wm_data m = [] -> pm_quota p = None /\ pm_republish p = false /\ pm_parent_name p = None;
  pd_end : wm_data m <> [] -> wm_offset m + zlen (wm_data m) <= U64_MAX;
  pd_inode : wm_data m <> [] ->
    if pm_republish p then
      exists f', pm_inode p = IFile f' /\ f_size f' = Z.max (f_size file) (wm_offset m + zlen (wm_data m)) /\
        f_parent f' = f_parent file /\ f_name f' = f_name file /\ f_nlink f' = f_nlink file /\
        pm_parent_name p = parent_name f'
    else pm_parent_name p = None /\ wm_offset m + zlen (wm_data m) <= f_size file;
  pd_quota : wm_data m <> [] ->
    match pm_quota p with
    | Some r => r = mkReservation (wm_offset m + zlen (wm_data m) - f_size file) Provisional /\
                f_size file < wm_offset m + zlen (wm_data m)
    | None => wm_offset m + zlen (wm_data m) <= f_size file
    end;
  pd_attrs : fa_size (pm_post_attrs p) =
    if bool_decide (wm_data m = []) then f_size file else Z.max (f_size file) (wm_offset m + zlen (wm_data m)) }.

(** The file a member leaves behind: the larger size; the second of the write as its
    modification and change time; without the set-user-id and set-group-id bits if the caller
    is neither its owner nor root; otherwise as it was.  Without data it stays the same. *)
Definition member_written (creds : Credentials) (now : Z * Z) (m : PrepareWriteMember) (file : FileInode) (i' : Inode) : Prop :=
  if bool_decide (wm_data m = []) then i' = IFile file
  else exists a', let a := f_attrs file in
    i' = IFile (mkFile (Z.max (f_size file) (wm_offset m + zlen (wm_data m))) a' (f_parent file) (f_name file) (f_nlink file)) /\
    uid a' = uid a /\ gid a' = gid a /\ (atime a', atime_nsec a') = (atime a, atime_nsec a) /\
    mtime a' = now.1 /\ ctime a' = now.1 /\
    forall n, 0 <= n -> Z.testbit (mode a') n =
      Z.testbit (mode a) n && negb (negb (c_uid creds =? uid a) && negb (c_uid creds =? 0) && ((n =? 10) || (n =? 11))).

(** What the reply for a member says. *)
Record answer (creds : Credentials) (check : bool) (now : Z * Z) (m : PrepareWriteMember) (file : FileInode)
    (p : PreparedWriteMember) : Prop := {
  an_id : pm_id p = wm_id m;
  an_permitted : check = true -> c_uid creds = uid (f_attrs file) \/ check_access (IFile file) creds Write = Ok tt;
  an_attrs : pm_post_attrs p = file_attributes (pm_inode p) (wm_id m);
  an_kept : pm_republish p = false -> pm_inode p = IFile file;
  an_written : member_written creds now m file (pm_inode p) }.

Lemma setid_bits n : 0 <= n -> Z.testbit SETID_BITS n = (n =? 10) || (n =? 11).
Proof.
  intros Hn. change SETID_BITS with (Z.lor (2 ^ 10) (2 ^ 11)). rewrite Z.lor_spec, !Z.pow2_bits_eqb by lia. by rewrite !(Z.eqb_sym n).
Qed.
Lemma clears_setid_bits creds a n : 0 <= n ->
  Z.testbit (mode (clear_setid (clears_setid creds a) a)) n =
  Z.testbit (mode a) n && negb (negb (c_uid creds =? uid a) && negb (c_uid creds =? 0) && ((n =? 10) || (n =? 11))).
Proof.
  intros Hn. rewrite <- setid_bits by done. unfold clear_setid, clears_setid.
  destruct (negb (c_uid creds =? uid a) && negb (c_uid creds =? 0)); cbn [andb]; [|by rewrite andb_true_r].
  destruct (Z.eqb_spec (Z.land (mode a) SETID_BITS) 0) as [E|E]; cbn [negb mode set_mode]; [|by rewrite Z.land_spec, Z.lnot_spec].
  apply (f_equal (fun z => Z.testbit z n)) in E. rewrite Z.land_spec, Z.bits_0 in E. by destruct (Z.testbit (mode a) n), (Z.testbit SETID_BITS n).
Qed.
Lemma clear_setid_rest b a : uid (clear_setid b a) = uid a /\ gid (clear_setid b a) = gid a /\
  (atime (clear_setid b a), atime_nsec (clear_setid b a)) = (atime a, atime_nsec a) /\ mtime (clear_setid b a) = mtime a /\ ctime (clear_setid b a) = ctime a.
Proof. by destruct b. Qed.
Lemma written_member creds now m file size (rep := republish_metadata creds now (f_size file) size (f_attrs file)) :
  wm_data m <> [] -> size = Z.max (f_size file) (wm_offset m + zlen (wm_data m)) ->
  member_written creds now m file (IFile (if rep then written_file creds now size file else file)).
Proof.
  intros Hne ->. unfold member_written. rewrite bool_decide_false by done. unfold rep. destruct (republish_metadata _ _ _ _ _) eqn:Hr.
  - eexists. split; [reflexivity|]. destruct (clear_setid_rest (clears_setid creds (f_attrs file)) (touch_mctime now (f_attrs file)))
      as (Hu & Hg & Ha & Hm & Hc). split; [exact Hu|]. split; [exact Hg|]. split; [exact Ha|]. split; [exact Hm|]. split; [exact Hc|].
    intros n Hn. change (clears_setid creds (f_attrs file)) with (clears_setid creds (touch_mctime now (f_attrs file))). by rewrite clears_setid_bits.
  - unfold republish_metadata in Hr. apply orb_false_iff in Hr as [Hr Hc%negb_false_iff%Z.eqb_eq].
    apply orb_false_iff in Hr as [Hr Hm%negb_false_iff%Z.eqb_eq]. apply orb_false_iff in Hr as [Hs%negb_false_iff%Z.eqb_eq Hcl].
    exists (f_attrs file). rewrite Hs. split; [by destruct file|]. split_and!; try done.
    intros n Hn. rewrite <- clears_setid_bits by done. by rewrite Hcl.
Qed.

Definition member_bytes (p : PreparedWriteMember) : Z := from_option r_bytes 0 (pm_quota p).
Definition members_bytes (ps : list PreparedWriteMember) : Z := foldr (fun p acc => member_bytes p + acc) 0 ps.

Lemma prepared_bytes m file p : prepared m file p -> 0 <= member_bytes p.
Proof.
  intros Hp. unfold member_bytes. destruct (decide (wm_data m = [])) as [E|E].
  - destruct (pd_empty _ _ _ Hp E) as [-> _]. cbn. lia.
  - pose proof (pd_quota _ _ _ Hp E). destruct (pm_quota p); cbn; [destruct_and!; subst; cbn|]; lia.
Qed.

Section prepare.
Context {S Hint : Type} `{FrameStoreLaws S Hint}.
Implicit Types (v : Volume S).

Definition with_quota v (q : LogicalQuota) : Volume S := set_v_fs (set_fs_quota q (v_fs v)) v.

Lemma with_quota_id v : with_quota v (fs_quota (v_fs v)) = v.
Proof. by destruct v as [[] ? ? ? ?]. Qed.

Lemma bindV {A B} (m : VM S A) (k : A -> VM S B) v :
  (m ≫= k) v = match m v with (Ok a, v') => k a v' | (Err e, v') => (Err e, v') end.
Proof. unfold mbind, stM_bind. destruct (m v) as [[a|e] v']; done. Qed.
Lemma pureV_bind {A B} (r : result FsError A) (k : A -> VM S B) v :
  (pureV r ≫= k) v = match r with Ok a => k a v | Err e => (Err (Fs e), v) end.
Proof. rewrite bindV. unfold pureV. by destruct r. Qed.
Lemma getsV_bind {A B} (g : Volume S -> A) (k : A -> VM S B) v : (getsV g ≫= k) v = k (g v) v.
Proof. by rewrite bindV. Qed.

Lemma written_size creds now size f : f_size (written_file creds now size f) = size.
Proof. done. Qed.

Lemma prepare_member_spec creds check now m v q total pend :
  quota_ok q total pend ->
  exists r q', prepare_member creds check now m (with_quota v q) = (r, with_quota v q') /\
    match r with
    | Ok p => (exists file, visible_inode v (wm_id m) = Ok (IFile file) /\ prepared m file p /\ answer creds check now m file p) /\
              quota_ok q' total (pend + member_bytes p)
    | Err x => (exists err, x = Fs err) /\ quota_ok q' total pend
    end.
Proof.
  intros Hq. unfold prepare_member. rewrite getsV_bind.
  change (visible_inode (with_quota v q) (wm_id m)) with (visible_inode v (wm_id m)).
  assert (Herr : forall e, exists (r : result Fault PreparedWriteMember) q', (Err (Fs e), with_quota v q) = (r, with_quota v q') /\
    match r with
    | Ok p => (exists file, visible_inode v (wm_id m) = Ok (IFile file) /\ prepared m file p /\ answer creds check now m file p) /\
              quota_ok q' total (pend + member_bytes p)
    | Err x => (exists err, x = Fs err) /\ quota_ok q' total pend
    end) by (intros e; exists (Err (Fs e)), q; eauto).
  rewrite pureV_bind. destruct (visible_inode v (wm_id m)) as [inode|e] eqn:Ei; [|apply Herr].
  destruct inode as [file| | | | | |]; try apply Herr.
  rewrite pureV_bind. destruct (if check && _ then _ else _) as [[]|e] eqn:Hacc; [|apply Herr].
  assert (Hperm : check = true -> c_uid creds = uid (f_attrs file) \/ check_access (IFile file) creds Write = Ok tt).
  { intros ->. destruct (Z.eqb_spec (c_uid creds) (uid (f_attrs file))); [by left|by right]. }
  destruct (decide (wm_data m = [])) as [E|E].
  { rewrite bool_decide_true by done. eexists (Ok _), q. split; [done|]. split.
    - exists file. split; [done|]. split; split; cbn; try done; [by rewrite bool_decide_true|]. unfold member_written. by rewrite bool_decide_true.
    - cbn. by rewrite Z.add_0_r. }
  rewrite bool_decide_false by done. rewrite pureV_bind.
  destruct (checked_add_u64 (wm_offset m) (zlen (wm_data m))) as [end_offset|] eqn:Ee; [|apply Herr].
  apply checked_add_u64_Some in Ee as [-> Hend]. cbn [ok_or]. rewrite bindV.
  set (stop := wm_offset m + zlen (wm_data m)) in *. set (size := Z.max (f_size file) stop).
  assert (Hstep : exists ro q', (if f_size file <? size
             then r ← onFS (reserveM (size - f_size file)); mret (Some r) else mret None) (with_quota v q)
            = (ro, with_quota v q') /\
     match ro with
     | Ok r => quota_ok q' total (pend + from_option r_bytes 0 r) /\
               match r with Some r => r = mkReservation (stop - f_size file) Provisional /\ f_size file < stop
                          | None => stop <= f_size file end
     | Err x => (exists err, x = Fs err) /\ quota_ok q' total pend
     end).
  { destruct (Z.ltb_spec (f_size file) size) as [Hlt|Hge].
    - assert (size = stop) by (unfold size in *; lia). rewrite bindV. unfold onFS, reserveM. cbn.
      pose proof (quota_ok_reserve q total pend (size - f_size file) Hq ltac:(lia)) as Hr.
      destruct (reserve (size - f_size file) q) as [[r|e] q'].
      + destruct Hr as [-> Hr]. eexists (Ok (Some _)), q'. split; [done|]. cbn. split; [done|].
        split; [by rewrite H1|lia].
      + eexists (Err (Fs e)), q'. split; [done|]. eauto.
    - exists (Ok None), q. split; [done|]. cbn. rewrite Z.add_0_r. split; [done|]. unfold size in Hge. lia. }
  destruct Hstep as (ro & q' & Hrun & Hres). rewrite Hrun. destruct ro as [r|x]; [|by exists (Err x), q'].
  destruct Hres as [Hq' Hr]. eexists (Ok _), q'. split; [done|]. split; [|exact Hq'].
  exists file. split; [done|].
  set (rep := republish_metadata creds now (f_size file) size (f_attrs file)).
  assert (Hrep : rep = false -> size = f_size file).
  { unfold rep, republish_metadata. intros Hf. apply orb_false_iff in Hf as [Hf _]. apply orb_false_iff in Hf as [Hf _].
    apply orb_false_iff in Hf as [Hf _]. apply negb_false_iff, Z.eqb_eq in Hf. done. }
  split; [|split; cbn [pm_id pm_inode pm_post_attrs pm_republish]; [done|done|done|by intros ->|by apply written_member]].
  split; cbn [pm_id pm_offset pm_data pm_old_size pm_new_size pm_inode pm_post_attrs pm_republish pm_parent_name pm_span pm_quota];
    try done.
  - intros _. destruct rep eqn:Er.
    + eexists. split; [done|]. split_and!; done.
    + specialize (Hrep eq_refl). split; [done|]. unfold size in Hrep. lia.
  - rewrite bool_decide_false by done. destruct rep eqn:Er; cbn; [done|]. symmetry. by apply Hrep.
Qed.

Definition prepared_in v (m : PrepareWriteMember) (p : PreparedWriteMember) : Prop :=
  exists file, visible_inode v (wm_id m) = Ok (IFile file) /\ prepared m file p.

Definition answer_in (creds : Credentials) (check : bool) (clock : nat -> Z * Z) v (m : PrepareWriteMember) (p : PreparedWriteMember) : Prop :=
  exists file k, visible_inode v (wm_id m) = Ok (IFile file) /\ answer creds check (clock k) m file p.

Lemma drop_member_ok v q total pend p :
  (exists m file, prepared m file p) -> 0 <= pend -> quota_ok q total (pend + member_bytes p) ->
  exists q', drop_member p (with_quota v q) = with_quota v q' /\ quota_ok q' total pend.
Proof.
  intros (m & file & Hp) Hge Hq. unfold drop_member, member_bytes in *.
  pose proof (prepared_bytes _ _ _ Hp) as Hb. unfold member_bytes in Hb.
  destruct (pm_quota p) as [r|] eqn:Er; cbn in Hq; [|exists q; by rewrite Z.add_0_r in Hq].
  destruct (decide (wm_data m = [])) as [E|E]; [by destruct (pd_empty _ _ _ Hp E) as [? _]; simplify_eq|].
  pose proof (pd_quota _ _ _ Hp E) as Hr. rewrite Er in Hr. destruct Hr as [-> Hlt]. cbn in Hq.
  eexists. split; [reflexivity|]. apply quota_ok_drop; [done|done|lia].
Qed.

Lemma prepare_members_spec creds check clock v total ms : forall k q pend,
  quota_ok q total pend -> 0 <= pend ->
  exists r q', prepare_members creds check clock k ms (with_quota v q) = (r, with_quota v q') /\
    match r with
    | Ok ps => Forall2 (prepared_in v) ms ps /\ Forall2 (answer_in creds check clock v) ms ps /\ quota_ok q' total (pend + members_bytes ps)
    | Err x => (exists err, x = Fs err) /\ quota_ok q' total pend
    end.
Proof.
  induction ms as [|m ms IH]; intros k q pend Hq Hge; cbn [prepare_members].
  { exists (Ok []), q. split; [done|]. split; [constructor|]. split; [constructor|]. cbn. by rewrite Z.add_0_r. }
  rewrite bindV. destruct (prepare_member_spec creds check (clock k) m v q total pend Hq) as (r & q1 & -> & Hr).
  destruct r as [p|x]; [|by exists (Err x), q1]. destruct Hr as [(file & Hf & Hp & Han) Hq1].
  pose proof (prepared_bytes _ _ _ Hp) as Hpos.
  set (k' := if bool_decide (wm_data m = []) then k else Datatypes.S k).
  destruct (IH k' q1 (pend + member_bytes p) Hq1 ltac:(lia)) as (r & q2 & Hrun & Hr). rewrite bindV. unfold dropping. rewrite Hrun.
  destruct r as [ps|x].
  - destruct Hr as (Hps & Hans & Hq2). exists (Ok (p :: ps)), q2. split; [done|]. split; [constructor; [by exists file|done]|].
    split; [constructor; [by exists file, k|done]|].
    change (members_bytes (p :: ps)) with (member_bytes p + members_bytes ps). by rewrite Z.add_assoc.
  - destruct Hr as [Hx Hq2]. destruct (drop_member_ok v q2 total pend p) as (q3 & Hd & Hq3); [by exists m, file|done|done|].
    exists (Err x), q3. rewrite Hd. done.
Qed.

Lemma members_bytes_nonneg v ms ps : Forall2 (prepared_in v) ms ps -> 0 <= members_bytes ps.
Proof.
  induction 1 as [|m p ms ps (file & _ & Hp) _ IH]; [done|]. change (0 <= member_bytes p + members_bytes ps). pose proof (prepared_bytes _ _ _ Hp). lia.
Qed.
Lemma drop_members_ok v' v ms ps total pend : forall q,
  Forall2 (prepared_in v') ms ps -> 0 <= pend -> quota_ok q total (pend + members_bytes ps) ->
  exists q', fold_left (fun v p => drop_member p v) ps (with_quota v q) = with_quota v q' /\ quota_ok q' total pend.
Proof.
  intros q Hps Hge. revert q. induction Hps as [|m p ms ps (file & Hf & Hp) Hps IH]; intros q Hq.
  { exists q. cbn in Hq. rewrite Z.add_0_r in Hq. done. }
  cbn [fold_left]. change (members_bytes (p :: ps)) with (member_bytes p + members_bytes ps) in Hq. destruct (drop_member_ok v q total (pend + members_bytes ps) p) as (q1 & -> & Hq1).
  - by exists m, file.
  - pose proof (members_bytes_nonneg _ _ _ Hps). lia.
  - by replace (pend + members_bytes ps + member_bytes p) with (pend + (member_bytes p + members_bytes ps)) by lia.
  - by apply IH.
Qed.
End prepare.

(** ** Staging *)

Lemma resize_data f n x :
  (forall o, vf_size f <= o -> vf_byte f o = 0) -> vf_size f <= n -> extent_data (vf_truncate f n) x = extent_data f x.
Proof.
  intros Hz Hn. apply extent_data_ext. intros o _. cbn. destruct (Z.ltb_spec o n); [done|]. symmetry. apply Hz. lia.
Qed.

Lemma stage_debits_rest debits t :
  tx_ops (stage_debits debits t) = tx_ops t /\ tx_inodes (stage_debits debits t) = tx_inodes t.
Proof.
  unfold stage_debits. revert t. induction debits as [|l debits IH]; intros t; [done|]. cbn [foldl].
  destruct (IH (add_seg_delta (fl_segid l) (- fl_byte_len l) 0 t)) as [-> ->]. unfold add_seg_delta. by case_match.
Qed.

Section stage.
Context {S Hint : Type} `{FrameStoreLaws S Hint}.
Implicit Types (e : ExtentStore S) (F : Files) (v : Volume S).

Lemma stage_txn_rest s id edits : forall locs t,
  Forall2 (written s id) (payloads edits) locs ->
  (Forall plain_op (tx_ops t) -> Forall plain_op (tx_ops (stage_txn id edits locs t))) /\
  tx_inodes (stage_txn id edits locs t) = tx_inodes t.
Proof.
  induction edits as [|[x [data|]] edits IH]; intros locs t Hw; cbn [stage_txn]; [done| |].
  - unfold payloads in Hw. cbn in Hw. apply Forall2_cons_inv_l in Hw as (loc & locs' & [Hl _] & Hw & ->).
    destruct (IH locs' (add_seg_delta (fl_segid loc) (fl_byte_len loc) (fl_byte_len loc) (push (PutExtent id x loc) t)) Hw) as [Hp Hi].
    pose proof (fs_held_len _ _ _ _ _ Hl) as Hlen. split.
    + intros Ht. apply Hp. unfold add_seg_delta. assert (Forall plain_op (tx_ops (push (PutExtent id x loc) t))).
      { cbn. apply Forall_app. split; [done|]. apply Forall_singleton. cbn. lia. }
      by case_match.
    + rewrite Hi. unfold add_seg_delta. by case_match.
  - destruct (IH locs (extent_delete id x t) Hw) as [Hp Hi]. split; [|done]. intros Ht. apply Hp. cbn.
    apply Forall_app. split; [done|]. by apply Forall_singleton.
Qed.

(** One member, staged against the applied state though the pending size is larger. *)
Lemma stage_member h db F id f0 offset data old_size t e :
  es_ok e -> fs_ready h id (es_frames e) -> files_ok e db F -> inodes db !! id = Some (IFile f0) ->
  f_size f0 <= old_size <= U64_MAX -> data <> [] -> 0 <= offset -> offset + zlen data <= U64_MAX + 1 - EXTENT_SIZE ->
  untouched db t id ->
  exists r e', extent_write h db id offset data old_size t e = (r, e') /\ evolved e e' /\
    one_append h (es_frames e) (es_frames e') /\
    match r with
    | Err x => exists err, x = Fs err
    | Ok (u, t') => exists locs, let edits := all_edits offset data (F id) in
        Forall2 (written (es_frames e') id) (payloads edits) locs /\ fresh_locs e locs /\
        tail_of u edits.*1 (vf_write (F id) offset data) /\
        (forall d, tx_db d t' = with_extents (apply_edits id edits locs) (tx_db d t)) /\
        accounted db id (in_span offset (zlen data)) t t' /\
        (Forall plain_op (tx_ops t) -> Forall plain_op (tx_ops t')) /\ tx_inodes t' = tx_inodes t
    end.
Proof.
  intros Hok Hr Hfiles Hf Hsize Hne Hoff Hfit Hun. destruct (Hfiles id f0 Hf) as [[Hrep Htail] [Hsz Hu]].
  assert (Hz : forall o, vf_size (F id) <= o -> vf_byte (F id) o = 0) by apply Hrep.
  assert (Hn : vf_size (F id) <= old_size) by lia. set (f := vf_truncate (F id) old_size).
  assert (Hx : forall x, extent_data f x = extent_data (F id) x) by (intros; by apply resize_data).
  assert (Hst : Stored e (extents db) id f) by (split; [by apply FileRep_resize|by apply TailRep_resize]).
  assert (He : all_edits offset data f = all_edits offset data (F id)) by (apply all_edits_agree; [done|]; intros x _; apply Hx).
  change old_size with (vf_size f).
  destruct (extent_write_spec id offset data f Hne Hoff Hfit h db t e Hok Hr (proj1 Hst) (proj2 Hst))
    as (r & e' & Hrun & Hev & Hone & Hres).
  exists r, e'. split; [done|]. split; [done|]. split; [done|]. destruct r as [[u t']|x].
  - assert (Hac : accounted db id (in_span offset (zlen data)) t t').
    { apply (extent_write_accounted h db id offset data f t e u t' e'); try done. cbn. lia. }
    destruct Hres as (locs & Hw & Hfr & -> & Ht). rewrite He in *. exists locs. split; [done|]. split; [done|]. split; [|split; [|split; [done|]]].
    + destruct u as [|x d|]; cbn in Ht |- *; [done| |done]. destruct Ht as [Hin ->]. split; [done|].
      by apply write_extent_agree.
    + intros d. by rewrite stage_debits_db, stage_txn_db.
    + destruct (stage_debits_rest (old_debits db id (all_edits offset data (F id)) (div_ceil (vf_size f) EXTENT_SIZE))
        (stage_txn id (all_edits offset data (F id)) locs t)) as [-> ->]. by eapply stage_txn_rest.
  - destruct Hres as (err & -> & _). eauto.
Qed.

(** The environment's choices for the appends of one request: hint [k] is possible in
    every state that [k] appends can lead to. *)
Inductive appends (h : nat -> Hint) (s : S) : nat -> S -> Prop :=
| appends_none : appends h s 0 s
| appends_step k s1 s2 : appends h s k s1 -> one_append (h k) s1 s2 -> appends h s (Datatypes.S k) s2.
Definition hints_ready (h : nat -> Hint) (ids : list Z) (s : S) : Prop :=
  forall k s' id, (k < length ids)%nat -> id ∈ ids -> appends h s k s' -> fs_ready (h k) id s'.

Definition nonempty (ps : list PreparedWriteMember) : list PreparedWriteMember := filter (fun p => pm_data p <> []) ps.

Record stages F (s : S) (p : PreparedWriteMember) (w : Staged) : Prop := {
  st_id : sg_id w = pm_id p;
  st_offset : sg_offset w = pm_offset p;
  st_data : sg_data w = pm_data p;
  st_inode : sg_inode w = if pm_republish p then Some (pm_inode p) else None;
  st_quota : sg_quota w = pm_quota p;
  st_ok : staged_ok s F w }.

Definition stageable (db : Db) (ids : list Z) (t : Transaction) (p : PreparedWriteMember) : Prop :=
  pm_id p ∈ ids /\ untouched db t (pm_id p) /\
  (pm_data p <> [] -> 0 <= pm_offset p /\ pm_offset p + zlen (pm_data p) <= U64_MAX + 1 - EXTENT_SIZE /\
     exists f0, inodes db !! pm_id p = Some (IFile f0) /\ f_size f0 <= pm_old_size p <= U64_MAX).

Lemma stageable_next db ids t t' id edits locs p :
  (forall d, tx_db d t' = with_extents (apply_edits id edits locs) (tx_db d t)) -> pm_id p <> id ->
  stageable db ids t p -> stageable db ids t' p.
Proof.
  intros Ht Hne (Hi & Hu & Hp). split_and!; try done. intros x. rewrite Ht. cbn [extents with_extents].
  rewrite apply_edits_ids by done. apply Hu.
Qed.

Lemma write_members_spec h db F ids s0 ps : forall k t v,
  es_ok (v_es v) -> files_ok (v_es v) db F -> appends h s0 k (es_frames (v_es v)) -> (k + length ps <= length ids)%nat ->
  hints_ready h ids s0 -> NoDup (pm_id <$> ps) -> Forall (stageable db ids t) ps ->
  exists r e', write_members h db k ps t v = (r, set_v_es e' v) /\ evolved (v_es v) e' /\
    match r with
    | Err x => exists err, x = Fs err
    | Ok (t', tails) => exists ws,
        Forall2 (stages F (es_frames e')) (nonempty ps) ws /\ Forall (fun w => fresh_locs (v_es v) (sg_locs w)) ws /\
        tails = (fun w => (sg_id w, sg_tail w)) <$> ws /\
        (forall d, tx_db d t' = foldl (fun d w => staged_extents w d) (tx_db d t) ws) /\ balanced db t t' /\
        (forall k, k ∈ touches t' -> k ∈ touches t \/ spans_of ws k) /\
        (Forall plain_op (tx_ops t) -> Forall plain_op (tx_ops t')) /\ tx_inodes t' = tx_inodes t
    end.
Proof.
  induction ps as [|p ps IH]; intros k t v Hok Hfiles Happ Hlen Hready Hnd Hps; cbn [write_members].
  { exists (Ok (t, [])), (v_es v). split; [by destruct v|]. split; [by apply evolved_refl|]. exists [].
    split; [constructor|]. split; [constructor|]. split; [done|]. split; [done|]. split; [apply balanced_refl|]. split; [by left|done]. }
  rewrite fmap_cons in Hnd. apply NoDup_cons in Hnd as [Hp Hnd]. apply Forall_cons in Hps as [(Hid & Hun & Hfile) Hps].
  cbn in Hlen. unfold nonempty. destruct (decide (pm_data p = [])) as [E|E].
  { rewrite bool_decide_true, filter_cons_False by (done || tauto). apply IH; try done. lia. }
  rewrite bool_decide_false, filter_cons_True by done. destruct (Hfile E) as (Hoff & Hfit & f0 & Hf0 & Hsize).
  destruct (stage_member (h k) db F (pm_id p) f0 (pm_offset p) (pm_data p) (pm_old_size p) t (v_es v))
    as (r & e1 & Hrun & Hev & Hone & Hres); try done.
  { apply (Hready k); [lia|done|done]. }
  rewrite bindV. unfold onES. rewrite Hrun. destruct r as [[u t1]|x]; [|by exists (Err x), e1].
  destruct Hres as (locs & Hw & Hfr & Htl & Hdb & [Hbal Htouch] & Hplain & Hino). cbn [fst snd].
  set (w := mkStaged (pm_id p) (pm_offset p) (pm_data p) (all_edits (pm_offset p) (pm_data p) (F (pm_id p))) locs
    (if pm_republish p then Some (pm_inode p) else None) (pm_quota p) u).
  destruct (IH (Datatypes.S k) t1 (set_v_es e1 v)) as (r & e2 & Hrun2 & Hev2 & Hres2).
  { apply Hev. } { by eapply files_ok_evolved. } { by eapply appends_step. } { lia. } { done. } { done. }
  { rewrite Forall_forall in Hps |- *. intros q Hin. eapply stageable_next; [exact Hdb| |by apply Hps]. intros Heq. apply Hp. rewrite <- Heq. by apply list_elem_of_fmap_2. }
  rewrite bindV, Hrun2. destruct r as [[t2 tails]|x].
  2:{ exists (Err x), e2. split; [done|]. split; [by eapply evolved_trans|done]. }
  destruct Hres2 as (ws & Hws & Hfr2 & -> & Hdb2 & Hbal2 & Htouch2 & Hplain2 & Hino2).
  eexists (Ok _), e2. split; [done|]. split; [by eapply evolved_trans|]. exists (w :: ws).
  assert (Hst : staged_ok (es_frames e2) F w).
  { apply (staged_ok_evolved e1); [done|]. split; try done. }
  split; [constructor; [by split|exact Hws]|].
  split; [constructor; [done|]; eapply Forall_impl; [exact Hfr2|]; intros w'; by apply fresh_before|]. split; [done|]. split.
  { intros d. cbn [foldl]. rewrite Hdb2, Hdb. done. }
  split; [by eapply balanced_trans|]. split.
  { intros j Hj. destruct (Htouch2 j Hj) as [Hj1|(w' & Hw' & Hs)]; [|right; exists w'; split; [by right|done]].
    destruct (Htouch j Hj1) as [?|Hs]; [by left|]. right. exists w. split; [left|done]. }
  split; [auto|]. cbn. by rewrite Hino2.
Qed.
End stage.

(** ** Inodes *)

Definition saveable (p : PreparedWriteMember) : Prop :=
  (pm_data p = [] -> pm_republish p = false) /\
  if pm_republish p then exists f, pm_inode p = IFile f /\ pm_parent_name p = parent_name f
  else pm_parent_name p = None.

Definition inode_values (ws : list Staged) : list (Z * option Inode) :=
  omap (fun w => (fun i => (sg_id w, Some i)) <$> sg_inode w) ws.

(** What saving adds to a transaction. *)
Record saved (db : Db) (ws : list Staged) (t t' : Transaction) : Prop := {
  sv_db : forall d, entries (tx_db d t) = entries db ->
    tx_db d t' = foldl (fun d w => staged_inode w d) (tx_db d t) ws;
  sv_segs : tx_segs t' = tx_segs t;
  sv_touches : touches t' = touches t;
  sv_plain : Forall plain_op (tx_ops t) -> Forall plain_op (tx_ops t');
  sv_inodes : tx_inodes t' = tx_inodes t ++ inode_values ws }.

Lemma entries_inode w d : entries (staged_inode w d) = entries d.
Proof. unfold staged_inode. destruct (sg_inode w); [|done]. apply refreshed_data. Qed.

Lemma saved_nil db t : saved db [] t t.
Proof. split; try done. by rewrite app_nil_r. Qed.
Lemma saved_cons db w ws t t1 t' : saved db [w] t t1 -> saved db ws t1 t' -> saved db (w :: ws) t t'.
Proof.
  intros [D1 S1 T1 P1 I1] [D2 S2 T2 P2 I2]. split.
  - intros d Hd. rewrite D2; rewrite D1 by done; [done|]. cbn. by rewrite entries_inode.
  - congruence.
  - congruence.
  - auto.
  - rewrite I2, I1, <- app_assoc. f_equal. unfold inode_values. cbn. by destruct (sg_inode w).
Qed.

Lemma save_one db id i t :
  match (match parent_name i with
         | Some (d, n) => update_inode_in_entry db d n id (IFile i) (inode_save id (IFile i) t)
         | None => Ok (inode_save id (IFile i) t)
         end) with
  | Err _ => True
  | Ok t' => forall w, sg_id w = id -> sg_inode w = Some (IFile i) -> saved db [w] t t'
  end.
Proof.
  assert (Hsave : forall w, sg_id w = id -> sg_inode w = Some (IFile i) -> inode_values [w] = [(id, Some (IFile i))]).
  { intros w <- Hi. unfold inode_values. cbn. by rewrite Hi. }
  assert (Hr : forall w d, sg_id w = id -> sg_inode w = Some (IFile i) -> staged_inode w d = refreshed id (IFile i) d).
  { intros w d <- Hi. unfold staged_inode. by rewrite Hi. }
  unfold parent_name. destruct (f_parent i) as [p|] eqn:Ep; [destruct (f_name i) as [n|] eqn:En|].
  - unfold update_inode_in_entry, get_entry_with_cookie. destruct (entries db !! (p, n)) as [ec|] eqn:Ee; [|done].
    cbn -[push inode_save]. intros w Hw Hi. split.
    + intros d Hd. cbn [foldl]. rewrite (Hr w _ Hw Hi). rewrite tx_db_push, tx_db_save. unfold refreshed. cbn [parent iname].
      by rewrite Ep, En, Hd, Ee.
    + done.
    + unfold touches. cbn. rewrite !omap_app. cbn. by rewrite !app_nil_r.
    + intros Ht. cbn. rewrite !Forall_app. split; [split; [done|]|]; by apply Forall_singleton.
    + rewrite (Hsave w Hw Hi). done.
  - intros w Hw Hi. split.
    + intros d Hd. cbn [foldl]. rewrite (Hr w _ Hw Hi), tx_db_save. unfold refreshed. cbn [parent iname]. by rewrite Ep, En.
    + done.
    + unfold touches. cbn. rewrite !omap_app. cbn. by rewrite !app_nil_r.
    + intros Ht. cbn. rewrite !Forall_app. split; [done|]. by apply Forall_singleton.
    + by rewrite (Hsave w Hw Hi).
  - intros w Hw Hi. split.
    + intros d Hd. cbn [foldl]. rewrite (Hr w _ Hw Hi), tx_db_save. unfold refreshed. cbn [parent iname]. by rewrite Ep.
    + done.
    + unfold touches. cbn. rewrite !omap_app. cbn. by rewrite !app_nil_r.
    + intros Ht. cbn. rewrite !Forall_app. split; [done|]. by apply Forall_singleton.
    + by rewrite (Hsave w Hw Hi).
Qed.

Section save.
Context {S Hint : Type} `{FrameStoreLaws S Hint}.

Lemma save_members_spec db F (s : S) ps : forall ws t,
  Forall2 (stages F s) (nonempty ps) ws -> Forall saveable ps ->
  match save_members db ps t with Err _ => True | Ok t' => saved db ws t t' end.
Proof.
  induction ps as [|p ps IH]; intros ws t Hst Hps.
  { apply Forall2_nil_inv_l in Hst as ->. apply saved_nil. }
  apply Forall_cons in Hps as [[He Hp] Hps]. cbn [save_members]. unfold nonempty in Hst.
  destruct (pm_republish p) eqn:Er.
  - destruct Hp as (f & Hi & Hn). assert (Hd : pm_data p <> []) by (intros Hd; by specialize (He Hd)).
    rewrite filter_cons_True in Hst by done. apply Forall2_cons_inv_l in Hst as (w & ws' & Hw & Hst & ->).
    rewrite Hi, Hn. pose proof (save_one db (pm_id p) f t) as H1.
    destruct (match parent_name f with Some _ => _ | None => _ end) as [t1|err]; [|done]. cbn [mbind result_bind].
    specialize (IH ws' t1 Hst Hps). change (save_members db ps t1) with (save_members db ps t1).
    destruct (save_members db ps t1) as [t'|]; [|done]. eapply saved_cons; [|exact IH].
    apply H1; [apply Hw|]. rewrite (st_inode _ _ _ _ Hw), Er. by rewrite Hi.
  - rewrite Hp. cbn [mbind result_bind]. destruct (decide (pm_data p = [])) as [E|E].
    + rewrite filter_cons_False in Hst by tauto. by apply IH.
    + rewrite filter_cons_True in Hst by done. apply Forall2_cons_inv_l in Hst as (w & ws' & Hw & Hst & ->).
      specialize (IH ws' t Hst Hps). destruct (save_members db ps t) as [t'|]; [|done].
      eapply saved_cons; [|exact IH]. assert (Hn : sg_inode w = None) by (rewrite (st_inode _ _ _ _ Hw), Er; done).
      split; try done.
      * intros d Hd. cbn. unfold staged_inode. by rewrite Hn.
      * unfold inode_values. cbn. rewrite Hn. by rewrite app_nil_r.
Qed.
End save.

(** ** Queueing *)

Lemma numbered_values us id : forall n,
  pi_value <$> (filter (fun p => p.1 = id) (numbered us n)).*2 = (filter (fun u => u.1 = id) us).*2.
Proof.
  induction us as [|u us IH]; intros n; [done|]. rewrite numbered_cons. destruct (decide (u.1 = id)).
  - rewrite !filter_cons_True by done. rewrite !fmap_cons, IH. done.
  - rewrite !filter_cons_False by done. apply IH.
Qed.
Lemma updates_perm us : NoDup us.*1 -> map_to_list (updates_of us) ≡ₚ us.
Proof.
  intros Hnd. replace (updates_of us) with (list_to_map us : gmap Z (option Inode)); [by apply map_to_list_to_map|].
  apply map_eq. intros k. unfold updates_of. rewrite foldl_insert_lookup by done. rewrite lookup_empty. by case_match.
Qed.
Lemma filter_key_short (us : list (Z * option Inode)) id : NoDup us.*1 -> (length (filter (fun u => u.1 = id) us) <= 1)%nat.
Proof.
  intros Hnd. induction us as [|u us IH]; [cbn; lia|]. rewrite fmap_cons in Hnd. apply NoDup_cons in Hnd as [Hu Hnd].
  destruct (decide (u.1 = id)) as [E|E].
  - rewrite filter_cons_True by done. cbn. enough (filter (fun u => u.1 = id) us = []) as -> by (cbn; lia).
    apply elem_of_nil_inv. intros w [Ew Hw]%list_elem_of_filter. apply Hu. rewrite E, <- Ew. by apply list_elem_of_fmap_2.
  - rewrite filter_cons_False by done. by apply IH.
Qed.
Lemma perm_short {A} (l l' : list A) : l ≡ₚ l' -> (length l <= 1)%nat -> l = l'.
Proof.
  intros Hp Hl. destruct l as [|x [|y l]]; cbn in Hl; [|by apply Permutation_singleton_l in Hp|lia].
  by apply Permutation_nil_l in Hp.
Qed.

Lemma inode_values_for ws id : (filter (fun u => u.1 = id) (inode_values ws)).*2 = omap (value_for id) ws.
Proof.
  unfold inode_values. induction ws as [|w ws IH]; [done|]. cbn [omap list_omap].
  destruct (sg_inode w) as [i|]; cbn [fmap option_fmap option_map].
  - case_decide as E; [rewrite filter_cons_True by done; rewrite fmap_cons, IH; done|].
    rewrite filter_cons_False by done. apply IH.
  - case_decide; apply IH.
Qed.
Lemma inode_values_nodup ws : NoDup (sg_id <$> ws) -> NoDup (inode_values ws).*1.
Proof.
  unfold inode_values. induction ws as [|w ws IH]; intros Hnd; [constructor|]. rewrite fmap_cons in Hnd.
  apply NoDup_cons in Hnd as [Hw Hnd]. cbn [omap list_omap]. destruct (sg_inode w); cbn [fmap option_fmap option_map]; [|by apply IH].
  rewrite fmap_cons. constructor; [|by apply IH]. intros (u & Hu & Hin)%list_elem_of_fmap.
  apply list_elem_of_omap in Hin as (w' & Hw' & Hin). apply Hw. cbn in Hu.
  destruct (sg_inode w'); [|done]. injection Hin as <-. cbn in Hu. rewrite Hu. by apply list_elem_of_fmap_2.
Qed.
Lemma queued_values ws n id : NoDup (sg_id <$> ws) ->
  pi_value <$> (filter (fun p => p.1 = id) (numbered (map_to_list (updates_of (inode_values ws))) n)).*2
  = omap (value_for id) ws.
Proof.
  intros Hnd. rewrite numbered_values, <- inode_values_for. f_equal. apply inode_values_nodup in Hnd.
  symmetry. apply perm_short; [|by apply filter_key_short]. symmetry. by rewrite updates_perm.
Qed.

Section queue.
Context {S Hint : Type} `{FrameStoreLaws S Hint}.
Implicit Types (e : ExtentStore S) (F : Files) (v : Volume S).

Definition set_inflight (w : InflightExtentWrites) v : Volume S := mkVolume (v_fs v) (v_es v) (v_pending v) w (v_queue v).

Lemma register_all_spec spans : forall v l, InflightInv (v_inflight v) l ->
  exists w gs, register_all spans v = (Ok (guard_of <$> gs), set_inflight w v) /\ InflightInv w (l ++ gs) /\
    Forall2 (fun g sp => g.1 = sp.1 /\ ie_start g.2 = sp.2.1 /\ ie_end g.2 = sp.2.2) gs spans.
Proof.
  induction spans as [|[id [start stop]] spans IH]; intros v l Hi.
  { exists (v_inflight v), []. split; [by destruct v|]. rewrite app_nil_r. split; [done|constructor]. }
  cbn [register_all]. rewrite bindV. destruct (register_inv (v_inflight v) l id start stop Hi) as [Ht Hi'].
  destruct (register id start stop (v_inflight v)) as [token w1] eqn:Er. cbn [fst snd] in *. subst token.
  destruct (IH (set_inflight w1 v) _ Hi') as (w & gs & Hrun & Hw & Hgs). rewrite bindV.
  unfold set_inflight in Hrun at 1. rewrite Hrun.
  exists w, ((id, mkInflight (iw_next_token (v_inflight v)) start stop) :: gs). split; [done|].
  split; [by rewrite <- app_assoc in Hw|]. by constructor.
Qed.

Lemma pipe_fs v F its f :
  PipeInv v F its -> fs_db f = fs_db (v_fs v) -> next_id f = next_id (v_fs v) -> fs_quota f = fs_quota (v_fs v) ->
  PipeInv (set_v_fs f v) F its.
Proof.
  intros [Hns Hes Hfi Hit Hst Hch Hd Hmv Hmn Hms Hdr Hif Hpe Hqt Hsg] Hdb Hn Hq. unfold v_db in *. split; unfold v_db; cbn; rewrite ?Hdb, ?Hq; try done.
  - unfold NsState in *. by rewrite Hdb, Hn.
  - destruct Hsg. split; by rewrite Hdb.
Qed.
Lemma pipe_evolved v F its e q :
  PipeInv v F its -> evolved (v_es v) e -> quota_ok q (total_bytes (inodes (v_db v))) (growth (staged_of its)) ->
  PipeInv (set_v_es e (with_quota v q)) F its.
Proof.
  intros [Hns Hes Hfi Hit Hst Hch Hd Hmv Hmn Hms Hdr Hif Hpe Hqt Hsg] Hev Hq.
  split; [exact Hns|apply Hev|by eapply files_ok_evolved|exact Hit| |exact Hch|exact Hd| |exact Hmn|exact Hms| |exact Hif|exact Hpe|exact Hq|].
  - eapply Forall_impl; [exact Hst|]. intros w. by apply staged_ok_evolved.
  - eapply Forall_impl; [exact Hmv|]. intros m. by apply move_ok_evolved.
  - eapply Forall_impl; [exact Hdr|]. intros g [Hre Hun]. split; [|done]. eapply retired_closed; [|exact Hre]. apply Hev.
  - by destruct Hsg.
Qed.

Lemma pipe_push v F its e q p w qc it :
  PipeInv v F its -> evolved (v_es v) e ->
  quota_ok q (total_bytes (inodes (v_db v))) (growth (staged_of its ++ it_ws it)) ->
  item_ok (v_db v) qc it -> Forall (staged_ok (es_frames e) F) (it_ws it) ->
  chain (foldl next_inodes (inodes (v_db v)) (staged_of its)) (it_ws it) -> all_disjoint (it_ws it) ->
  (forall x x', x ∈ staged_of its -> x' ∈ it_ws it -> disjoint x x') ->
  Forall (move_ok (es_frames e) (v_db v)) (it_moves it) -> NoDup (mv_key <$> (moves_of its ++ it_moves it)) ->
  settled_moves (its ++ [it]) ->
  Forall (fun w => fresh_locs (v_es v) (sg_locs w)) (it_ws it) ->
  (forall m g, m ∈ it_moves it -> g ∈ drops_of its -> fl_segid (mv_new m) <> g) ->
  Forall (fun g => retired (es_frames e) (its ++ [it]) g /\ unreferenced (extents (v_db v)) g) (it_drops it) ->
  InflightInv w (guards_of its ++ it_guards it) -> PendingInv p (owned_of its ++ it_owned it) ->
  PipeInv (mkVolume (set_fs_quota q (v_fs v)) e p w (v_queue v ++ [qc])) F (its ++ [it]).
Proof.
  intros [Hns0 Hes0 Hfi0 Hit0 Hst0 Hch0 Hd0 Hmv0 _ _ Hdr0 Hif0 Hpe0 Hqt0 Hsg0] Hev Hq Hit Hst Hch Hd Hdd Hmv Hmn Hms Hfr Hmd Hdr Hw Hp.
  assert (Hs : staged_of (its ++ [it]) = staged_of its ++ it_ws it).
  { unfold staged_of. rewrite map_app, concat_app. cbn. by rewrite app_nil_r. }
  assert (Hm : moves_of (its ++ [it]) = moves_of its ++ it_moves it).
  { unfold moves_of. rewrite map_app, concat_app. cbn. by rewrite app_nil_r. }
  assert (Hg : drops_of (its ++ [it]) = drops_of its ++ it_drops it).
  { unfold drops_of. rewrite map_app, concat_app. cbn. by rewrite app_nil_r. }
  split; rewrite ?Hs, ?Hm, ?Hg;
    [exact Hns0|apply Hev|by eapply files_ok_evolved| | |by apply chain_app|by apply all_disjoint_app| |exact Hmn|exact Hms| | | |exact Hq|].
  - apply Forall2_app; [done|]. by constructor.
  - apply Forall_app. split; [|done]. eapply Forall_impl; [exact Hst0|]. intros x. by apply staged_ok_evolved.
  - apply Forall_app. split; [|done]. eapply Forall_impl; [exact Hmv0|]. intros x. by apply move_ok_evolved.
  - apply Forall_app. split; [|exact Hdr]. rewrite Forall_forall in Hdr0 |- *. intros g Hin. destruct (Hdr0 g Hin) as [Hre Hun].
    split; [|exact Hun]. apply retired_push; [eapply retired_closed; [|exact Hre]; apply Hev| |intros m Hmi; by apply Hmd].
    intros x loc Hx Hl E. rewrite Forall_forall in Hfr. specialize (Hfr x Hx). unfold fresh_locs in Hfr. rewrite Forall_forall in Hfr.
    apply (Hfr loc Hl). rewrite E. apply Hre.
  - unfold guards_of. rewrite map_app, concat_app. cbn. by rewrite app_nil_r.
  - unfold owned_of. rewrite map_app, concat_app. cbn. by rewrite app_nil_r.
  - by destruct Hsg0.
Qed.
End queue.

Section submit.
Context {S Hint : Type} `{FrameStoreLaws S Hint}.
Implicit Types (e : ExtentStore S) (F : Files) (v : Volume S).

(** The visible inode is the one the file has when the whole queue is applied. *)
Lemma visible_virtual v F its id :
  PipeInv v F its ->
  visible_inode v id = ok_or NotFound (foldl next_inodes (inodes (v_db v)) (staged_of its) !! id).
Proof.
  intros Hp. unfold visible_inode, pending_get, inode_get. rewrite next_inodes_last.
  rewrite <- (items_owned_values _ _ _ id (pp_items _ _ _ Hp)), fmap_last, <- (pv_entries _ _ (pp_pending _ _ _ Hp)).
  by destruct (pn_entries (v_pending v) !! id).
Qed.
Lemma visible_file v F its id file :
  PipeInv v F its -> visible_inode v id = Ok (IFile file) ->
  foldl next_inodes (inodes (v_db v)) (staged_of its) !! id = Some (IFile file) /\ f_size file <= U64_MAX /\
  exists f0, inodes (v_db v) !! id = Some (IFile f0) /\ f_size f0 <= f_size file.
Proof.
  intros Hp Hv. rewrite (visible_virtual _ _ _ _ Hp) in Hv.
  destruct (foldl next_inodes _ _ !! id) as [i|] eqn:E; [|done]. injection Hv as ->. split; [done|].
  destruct (chain_file (staged_of its) id file (inodes (v_db v))) as (Hs & f0 & Hf0 & Hle & _).
  - intros i g Hi. apply (pp_files _ _ _ Hp i g Hi).
  - eapply Forall_impl; [apply Hp|]. intros w [_ _ Hf _ _ _]. unfold EXTENT_SIZE in Hf. lia.
  - apply Hp.
  - done.
  - split; [done|]. by exists f0.
Qed.

Section batch.
Context (v : Volume S) (F : Files) (its : list Item) (ms : list PrepareWriteMember) (ps : list PreparedWriteMember).
Context (Hp : PipeInv v F its) (Hps : Forall2 (prepared_in v) ms ps) (Hids : NoDup (wm_id <$> ms)).
Context (Hfree : forall m span, m ∈ ms -> extent_span (wm_offset m) (zlen (wm_data m)) = Some span ->
  pending_overlaps (v_inflight v) (wm_id m) (Some span) = []).
Context (Hfits : Forall (fun m => 0 <= wm_offset m /\ wm_offset m + zlen (wm_data m) <= U64_MAX + 1 - EXTENT_SIZE) ms).

Lemma batch_ids : pm_id <$> ps = wm_id <$> ms.
Proof. clear - Hps. revert Hps. induction 1 as [|m p ms' ps' (file & _ & Hpm) _ IH]; [done|]. cbn. by rewrite IH, (pd_id _ _ _ Hpm). Qed.

(** Every prepared member comes from a member of the request. *)
Lemma batch_member p : p ∈ ps -> exists m file, m ∈ ms /\ visible_inode v (wm_id m) = Ok (IFile file) /\ prepared m file p.
Proof.
  intros Hin. apply Forall2_flip in Hps. destruct (Forall2_elem_l _ _ _ _ Hps Hin) as (m & Hm & file & Hv & Hpm).
  by exists m, file.
Qed.

Lemma batch_stageable : Forall (stageable (v_db v) (wm_id <$> ms) txn_new) ps.
Proof.
  apply Forall_forall. intros p Hin. destruct (batch_member p Hin) as (m & file & Hm & Hv & Hpm).
  rewrite Forall_forall in Hfits. destruct (Hfits m Hm) as [Ho He]. split; [|split; [done|]].
  - rewrite (pd_id _ _ _ Hpm). by apply list_elem_of_fmap_2.
  - intros _. rewrite (pd_id _ _ _ Hpm), (pd_offset _ _ _ Hpm), (pd_data _ _ _ Hpm), (pd_old _ _ _ Hpm).
    split; [done|]. split; [done|]. destruct (visible_file _ _ _ _ _ Hp Hv) as (_ & Hu & f0 & Hf0 & Hle). by exists f0.
Qed.
Lemma batch_saveable : Forall saveable ps.
Proof.
  apply Forall_forall. intros p Hin. destruct (batch_member p Hin) as (m & file & Hm & Hv & Hpm). split.
  - rewrite (pd_data _ _ _ Hpm). intros E. by apply (pd_empty _ _ _ Hpm E).
  - destruct (decide (wm_data m = [])) as [E|E].
    + destruct (pd_empty _ _ _ Hpm E) as (_ & -> & ->). done.
    + pose proof (pd_inode _ _ _ Hpm E) as Hi. destruct (pm_republish p); [|tauto].
      destruct Hi as (f' & -> & _ & _ & _ & _ & Hn). by exists f'.
Qed.

Context (s : S) (ws : list Staged) (Hws : Forall2 (stages F s) (nonempty ps) ws).

Lemma nonempty_elem p : p ∈ nonempty ps <-> pm_data p <> [] /\ p ∈ ps.
Proof. unfold nonempty. by rewrite list_elem_of_filter. Qed.

Lemma batch_staged w : w ∈ ws -> exists m file p, m ∈ ms /\ visible_inode v (wm_id m) = Ok (IFile file) /\
  prepared m file p /\ stages F s p w /\ wm_data m <> [].
Proof.
  intros Hin. apply Forall2_flip in Hws. destruct (Forall2_elem_l _ _ _ _ Hws Hin) as (p & Hpi & Hst).
  apply nonempty_elem in Hpi as [Hne Hpi]. destruct (batch_member p Hpi) as (m & file & Hm & Hv & Hpm).
  exists m, file, p. split_and!; try done. by rewrite <- (pd_data _ _ _ Hpm).
Qed.
Lemma batch_staged_ids : NoDup (sg_id <$> ws).
Proof.
  assert (E : sg_id <$> ws = pm_id <$> nonempty ps).
  { clear - Hws. revert Hws. generalize (nonempty ps). induction 1 as [|p w ps' ws' Hst _ IH]; [done|]. cbn. by rewrite IH, (st_id _ _ _ _ Hst). }
  rewrite E. eapply sublist_NoDup; [rewrite <- batch_ids in Hids; exact Hids|]. unfold nonempty.
  apply fmap_sublist, sublist_filter.
Qed.
Lemma batch_chain : chain (foldl next_inodes (inodes (v_db v)) (staged_of its)) ws.
Proof.
  apply chain_nodup; [apply batch_staged_ids|]. apply Forall_forall. intros w Hin.
  destruct (batch_staged w Hin) as (m & file & p & Hm & Hv & Hpm & Hst & Hne). exists file.
  rewrite (st_id _ _ _ _ Hst), (pd_id _ _ _ Hpm). split; [by apply (visible_file _ _ _ _ _ Hp Hv)|].
  pose proof (pd_inode _ _ _ Hpm Hne) as Hi. pose proof (pd_quota _ _ _ Hpm Hne) as Hq.
  split; unfold sg_end; rewrite (st_offset _ _ _ _ Hst), (st_data _ _ _ _ Hst), (pd_offset _ _ _ Hpm), (pd_data _ _ _ Hpm).
  - rewrite (st_inode _ _ _ _ Hst). destruct (pm_republish p); [|tauto].
    destruct Hi as (f' & -> & ? & ? & ? & ? & _). by exists f'.
  - by rewrite (st_quota _ _ _ _ Hst).
Qed.
Lemma batch_disjoint : all_disjoint ws.
Proof.
  pose proof batch_staged_ids as Hnd. clear Hws. clear - Hnd. induction ws as [|w ws' IH]; [done|].
  rewrite fmap_cons in Hnd. apply NoDup_cons in Hnd as [Hw Hnd]. split; [|by apply IH].
  intros w' Hw' E. destruct Hw. rewrite E. by apply list_elem_of_fmap_2.
Qed.
Lemma member_span m : wm_data m <> [] -> wm_offset m + zlen (wm_data m) <= U64_MAX ->
  extent_span (wm_offset m) (zlen (wm_data m)) =
  Some (wm_offset m / EXTENT_SIZE, (wm_offset m + zlen (wm_data m) - 1) / EXTENT_SIZE).
Proof.
  intros Hne Hu. unfold extent_span. rewrite (proj2 (checked_add_u64_Some _ _ _) (conj eq_refl Hu)).
  destruct (Z.eqb_spec (zlen (wm_data m)) 0) as [E|]; [|done]. destruct (wm_data m); [done|]. unfold zlen in E. cbn in E. lia.
Qed.
(** A request that waited for its ranges overlaps nothing that is queued. *)
Lemma batch_apart x w : x ∈ staged_of its -> w ∈ ws -> disjoint x w.
Proof.
  intros Hx Hw. destruct (batch_staged w Hw) as (m & file & p & Hm & Hv & Hpm & Hst & Hne).
  destruct (queue_guard _ _ _ x Hp Hx) as (g & Hg & Hgid & Hgs & Hge). intros E y Hy Hy'.
  pose proof (Hfree m _ Hm (member_span m Hne (pd_end _ _ _ Hpm Hne))) as Hno.
  unfold sg_span, in_span, sg_end in *. rewrite (st_offset _ _ _ _ Hst), (st_data _ _ _ _ Hst), (pd_offset _ _ _ Hpm), (pd_data _ _ _ Hpm) in Hy'.
  apply (no_overlap _ _ _ _ _ g (pp_inflight _ _ _ Hp) Hno Hg) with (x := y).
  - rewrite Hgid, E, (st_id _ _ _ _ Hst). apply Hpm.
  - exact Hy'.
  - rewrite Hgs, Hge. exact Hy.
Qed.
Lemma batch_spans : omap (fun p => s ← pm_span p; Some (pm_id p, s)) ps =
  (fun w => (sg_id w, (sg_offset w / EXTENT_SIZE, (sg_end w - 1) / EXTENT_SIZE))) <$> ws.
Proof.
  clear Hp Hids Hfree Hfits. revert ws Hws. revert Hps. induction 1 as [|m p ms' ps' (file & _ & Hpm) _ IH]; intros ws' Hws'.
  { by apply Forall2_nil_inv_l in Hws' as ->. }
  unfold nonempty in Hws'. cbn [omap list_omap]. rewrite (pd_span _ _ _ Hpm). destruct (decide (wm_data m = [])) as [E|E].
  - rewrite filter_cons_False in Hws' by (rewrite (pd_data _ _ _ Hpm); tauto). rewrite E. unfold extent_span. cbn.
    destruct (checked_add_u64 _ _); cbn; by apply IH.
  - rewrite filter_cons_True in Hws' by (by rewrite (pd_data _ _ _ Hpm)).
    apply Forall2_cons_inv_l in Hws' as (w & ws1 & Hst & Hws' & ->).
    rewrite member_span by (done || by apply (pd_end _ _ _ Hpm)). cbn [mbind option_bind]. rewrite fmap_cons, (IH ws1) by done.
    unfold sg_end. by rewrite (st_id _ _ _ _ Hst), (st_offset _ _ _ _ Hst), (st_data _ _ _ _ Hst), (pd_offset _ _ _ Hpm), (pd_data _ _ _ Hpm).
Qed.
Lemma batch_quota : omap pm_quota ps = omap sg_quota ws /\ members_bytes ps = growth ws.
Proof.
  clear Hp Hids Hfree Hfits. revert ws Hws. revert Hps. induction 1 as [|m p ms' ps' (file & _ & Hpm) _ IH]; intros ws' Hws'.
  { by apply Forall2_nil_inv_l in Hws' as ->. }
  unfold nonempty in Hws'. cbn [omap list_omap]. change (members_bytes (p :: ps')) with (member_bytes p + members_bytes ps').
  unfold member_bytes. destruct (decide (wm_data m = [])) as [E|E].
  - rewrite filter_cons_False in Hws' by (rewrite (pd_data _ _ _ Hpm); tauto).
    destruct (pd_empty _ _ _ Hpm E) as (-> & _ & _). by apply IH.
  - rewrite filter_cons_True in Hws' by (by rewrite (pd_data _ _ _ Hpm)).
    apply Forall2_cons_inv_l in Hws' as (w & ws1 & Hst & Hws' & ->). destruct (IH ws1 Hws') as [-> ->].
    rewrite growth_cons, <- (st_quota _ _ _ _ Hst). split; [|done]. cbn. by destruct (sg_quota w).
Qed.
End batch.

(** ** The submission *)

Definition members_of (ws : list Staged) : list PrepareWriteMember :=
  (fun w => mkMember (sg_id w) (sg_offset w) (sg_data w)) <$> ws.
Definition with_data (ms : list PrepareWriteMember) : list PrepareWriteMember := filter (fun m => wm_data m <> []) ms.

Lemma batch_members v F s ms ps ws :
  Forall2 (prepared_in v) ms ps -> Forall2 (stages F s) (nonempty ps) ws -> members_of ws = with_data ms.
Proof.
  intros Hps. revert ws. induction Hps as [|m p ms ps (file & _ & Hpm) _ IH]; intros ws Hws.
  { by apply Forall2_nil_inv_l in Hws as ->. }
  unfold nonempty in Hws. unfold with_data. destruct (decide (wm_data m = [])) as [E|E].
  - rewrite filter_cons_False in Hws by (rewrite (pd_data _ _ _ Hpm); tauto). rewrite filter_cons_False by tauto. by apply IH.
  - rewrite filter_cons_True in Hws by (by rewrite (pd_data _ _ _ Hpm)). rewrite filter_cons_True by done.
    apply Forall2_cons_inv_l in Hws as (w & ws1 & Hst & Hws & ->). unfold members_of. rewrite fmap_cons. f_equal; [|by apply IH].
    rewrite (st_id _ _ _ _ Hst), (st_offset _ _ _ _ Hst), (st_data _ _ _ _ Hst), (pd_id _ _ _ Hpm), (pd_offset _ _ _ Hpm), (pd_data _ _ _ Hpm).
    by destruct m.
Qed.

Lemma dedup_write_rest op ps t : tx_ops (dedup_write op ps t) = tx_ops t /\ tx_segs (dedup_write op ps t) = tx_segs t /\
  tx_inodes (dedup_write op ps t) = tx_inodes t.
Proof. by destruct ps. Qed.

(** The queued commit and the staged writes it stands for. *)
Lemma queued_item db F s op own ps ws t t' gs n :
  (forall d, tx_db d t = foldl (fun d w => staged_extents w d) d ws) -> balanced db txn_new t ->
  (forall k, k ∈ touches t -> spans_of ws k) -> Forall plain_op (tx_ops t) -> tx_inodes t = [] -> saved db ws t t' ->
  omap pm_quota ps = omap sg_quota ws -> Forall2 guards_span gs ws -> NoDup (sg_id <$> ws) ->
  Forall2 (stages F s) (nonempty ps) ws ->
  let new := numbered (map_to_list (updates_of (tx_inodes (dedup_write op ps t')))) n in
  item_ok db (mkQueued (mkRequest (dedup_write op ps t') own (SettleWrite (omap pm_quota ps))) (owner_of <$> new)
                ((fun w => (sg_id w, sg_tail w)) <$> ws) (guard_of <$> gs))
    (mkItem ws [] [] gs new).
Proof.
  intros Hdb Hbal Hto Hpl Hin [Sd Ss St Sp Si] Hq Hg Hnd Hst new. destruct (dedup_write_rest op ps t') as (Ho & Hs & Hi).
  assert (Hx : forall d, entries d = entries db -> tx_db d (dedup_write op ps t') = foldl staged_db d ws).
  { intros d Hd. assert (Hd' : entries (foldl (fun d w => staged_extents w d) d ws) = entries d).
    { clear. revert d. induction ws as [|w ws' IH]; intros d; [done|]. cbn. by rewrite IH. }
    unfold tx_db. rewrite Ho. fold (tx_db d t'). rewrite Sd; rewrite Hdb; [|by rewrite Hd'].
    apply staged_extents_first. }
  split; cbn [qc_request qc_owned qc_tails qc_guards rq_txn rq_settlement it_ws it_moves it_drops it_guards it_owned]; try done.
  - intros d Hd. cbn [foldl]. by rewrite Hx.
  - intros seg. specialize (Hbal seg). unfold live_delta in *. rewrite Hs, Ss.
    assert (He : extents (tx_db db (dedup_write op ps t')) = extents (tx_db db t)).
    { unfold tx_db at 1. rewrite Ho. fold (tx_db db t'). rewrite Sd.
      - generalize (tx_db db t). clear. induction ws as [|w ws' IH]; intros d; [done|]. cbn. rewrite IH.
        unfold staged_inode. destruct (sg_inode w); [apply refreshed_data|done].
      - rewrite Hdb. clear. generalize db. induction ws as [|w ws' IH]; intros d; [done|]. cbn. by rewrite IH. }
    by rewrite He.
  - intros k Hk. left. apply Hto. unfold touches in Hk. rewrite Ho in Hk. fold (touches t') in Hk. by rewrite St in Hk.
  - rewrite Ho. eapply Forall_impl; [by apply Sp|]. by left.
  - left. by rewrite Hq.
  - intros id. unfold new. rewrite Hi, Si, Hin. by apply queued_values.
Qed.

(** A submission changes neither the applied state nor any frame. *)
Definition same_data v v' : Prop := v_db v' = v_db v /\ evolved (v_es v) (v_es v').

Lemma apply_prepared_spec v F its q env h op own ms ps :
  PipeInv v F its -> Forall2 (prepared_in v) ms ps -> NoDup (wm_id <$> ms) ->
  quota_ok q (total_bytes (inodes (v_db v))) (growth (staged_of its) + members_bytes ps) ->
  (forall m span, m ∈ ms -> extent_span (wm_offset m) (zlen (wm_data m)) = Some span ->
     pending_overlaps (v_inflight v) (wm_id m) (Some span) = []) ->
  Forall (fun m => 0 <= wm_offset m /\ wm_offset m + zlen (wm_data m) <= U64_MAX + 1 - EXTENT_SIZE) ms ->
  hints_ready h (wm_id <$> ms) (es_frames (v_es v)) -> Forall (fun m => mv_id m ∉ wm_id <$> ms) (moves_of its) ->
  exists r v', apply_prepared_batch env h op own ps (with_quota v q) = (r, v') /\ same_data v v' /\
    match r with
    | Ok (Submitted res) => res = batch_result ps /\
        exists it, PipeInv v' F (its ++ [it]) /\ members_of (it_ws it) = with_data ms /\
          it_moves it = [] /\ it_drops it = [] /\ Forall (fun w => fresh_locs (v_es v) (sg_locs w)) (it_ws it) /\
          exists s, Forall2 (stages F s) (nonempty ps) (it_ws it)
    | Ok (Replied res) => res = batch_result ps /\ PipeInv v' F its /\ with_data ms = [] /\ v' = with_quota v q
    | Err (Fs _) => exists e, v' = set_v_es e (with_quota v q) /\ evolved (v_es v) e
    | Err Panic => False
    end.
Proof.
  intros Hp Hps Hnd Hq Hfree Hfit Hready Hlock. unfold apply_prepared_batch.
  assert (Hrefl : evolved (v_es v) (v_es v)) by apply evolved_refl, Hp.
  destruct (forallb _ ps) eqn:Eall.
  { assert (Hne : nonempty ps = []).
    { apply elem_of_nil_inv. intros p [Hd Hin]%list_elem_of_filter. apply Hd. apply list_elem_of_In in Hin.
      by apply (proj1 (forallb_forall _ _) Eall), bool_decide_eq_true in Hin. }
    assert (Hm : with_data ms = []).
    { rewrite <- (batch_members v F (es_frames (v_es v)) ms ps [] Hps); [done|]. rewrite Hne. constructor. }
    assert (Hb : members_bytes ps = 0).
    { apply (batch_quota v F ms ps Hps (es_frames (v_es v)) []). rewrite Hne. constructor. }
    rewrite Hb, Z.add_0_r in Hq. unfold empty_batch_result. destruct (has_op_id op).
    - rewrite pureV_bind. unfold new_transaction. destruct (e_read_only env).
      { eexists (Err (Fs _)), _. split; [done|]. split; [done|]. exists (v_es v). split; [by destruct v as [[] ? ? ? ?]|done]. }
      rewrite bindV. unfold submit_owned. pose proof (install_inv (tx_inodes (dedup_write op ps txn_new)) (v_pending v) (owned_of its)
        (pp_pending _ _ _ Hp)) as [Ho Hi]. destruct (dedup_write_rest op ps txn_new) as (Hto & Hts & Hti).
      change (v_pending (with_quota v q)) with (v_pending v). rewrite Hti in Ho, Hi |- *. destruct (install [] (v_pending v)) as [owned p2].
      cbn [fst snd] in *. eexists (Ok (Submitted _)), _. split; [done|]. split; [done|]. split; [done|].
      exists (mkItem [] [] [] [] (numbered (map_to_list (updates_of [])) (pn_next_seq (v_pending v)))).
      split; [|split; [by rewrite Hm|split; [done|split; [done|split; [constructor|exists (es_frames (v_es v)); rewrite Hne; constructor]]]]]. apply (pipe_push v F its); try done.
      + by rewrite app_nil_r.
      + split; cbn; try done.
        * intros d _. unfold tx_db. by rewrite Hto.
        * intros seg. unfold live_delta, tx_db. rewrite Hto, Hts. cbn [tx_ops tx_segs txn_new]. lia.
        * intros k. unfold touches. rewrite Hto. cbn. by intros ?%not_elem_of_nil.
        * by rewrite Hto.
        * by right.
      + intros x x' _ Hx. by apply not_elem_of_nil in Hx.
      + cbn. rewrite app_nil_r. apply Hp.
      + intros m w. unfold moves_of, staged_of. rewrite !map_app, !concat_app. cbn. rewrite !app_nil_r. apply Hp.
      + intros m g Hm' _. by apply not_elem_of_nil in Hm'.
      + rewrite app_nil_r. apply Hp.
    - eexists (Ok (Replied _)), _. split; [done|]. split; [done|]. split; [done|]. split; [|by split].
      replace (with_quota v q) with (set_v_es (v_es v) (with_quota v q)) by by destruct v.
      by apply pipe_evolved. }
  rewrite pureV_bind. unfold new_transaction. destruct (e_read_only env).
  { eexists (Err (Fs _)), _. split; [done|]. split; [done|]. exists (v_es v). split; [by destruct v as [[] ? ? ? ?]|done]. }
  rewrite getsV_bind, bindV. change (v_db (with_quota v q)) with (v_db v).
  destruct (write_members_spec h (v_db v) F (wm_id <$> ms) (es_frames (v_es v)) ps 0 txn_new (with_quota v q))
    as (r & e' & -> & Hev & Hres).
  { apply Hp. } { apply Hp. } { apply appends_none. } { rewrite length_fmap, (Forall2_length _ _ _ Hps). lia. }
  { exact Hready. } { by rewrite (batch_ids v ms ps Hps). } { by apply batch_stageable with (F := F) (its := its). }
  destruct r as [[t tails]|x]; [|destruct Hres as [err ->]; eexists (Err (Fs err)), _; split; [done|]; split; [done|]; by exists e'].
  destruct Hres as (ws & Hws & Hfr & -> & Hdb & Hbal & Hto & Hpl & Hin).
  rewrite pureV_bind. cbn [fst snd]. pose proof (save_members_spec (v_db v) F (es_frames e') ps ws t Hws (batch_saveable v ms ps Hps)) as Hsv.
  destruct (save_members (v_db v) ps t) as [t'|err]; [|eexists (Err (Fs err)), _; split; [done|]; split; [done|]; by exists e'].
  rewrite bindV. destruct (register_all_spec (omap (fun p => s ← pm_span p; Some (pm_id p, s)) ps) (set_v_es e' (with_quota v q))
    (guards_of its) (pp_inflight _ _ _ Hp)) as (w2 & gs & -> & Hgi & Hgs).
  rewrite (batch_spans v F ms ps Hps _ ws Hws) in Hgs.
  rewrite bindV. unfold submit_owned. pose proof (install_inv (tx_inodes (dedup_write op ps t')) (v_pending v) (owned_of its)
        (pp_pending _ _ _ Hp)) as [Ho Hi]. change (v_pending (set_inflight _ _)) with (v_pending v).
  destruct (install _ (v_pending v)) as [owned p2]. cbn [fst snd] in *. subst owned.
  eexists (Ok (Submitted _)), _. split; [done|]. split; [done|]. split; [done|]. eexists (mkItem ws [] [] gs _). split; [|split; [by eapply batch_members|split; [done|split; [done|split; [exact Hfr|by exists (es_frames e')]]]]].
  destruct (batch_quota v F ms ps Hps _ ws Hws) as [Hqs Hqb].
  apply (pipe_push v F its); try done.
  - cbn. by rewrite growth_app, <- Hqb.
  - eapply queued_item; try done.
    + intros k Hk. by destruct (Hto k Hk) as [?%not_elem_of_nil|].
    + by apply Hpl.
    + apply Forall2_fmap_r in Hgs. eapply Forall2_impl; [exact Hgs|]. done.
    + by eapply batch_staged_ids.
  - cbn. clear - Hws. induction Hws as [|p w ? ? Hst _ IH]; constructor; [apply Hst|done].
  - by eapply batch_chain.
  - by eapply batch_disjoint.
  - intros x w Hx Hw. by eapply batch_apart.
  - cbn. rewrite app_nil_r. apply Hp.
  - intros m w. unfold moves_of, staged_of. rewrite !map_app, !concat_app. cbn. rewrite !app_nil_r. intros Hm [Hw|Hw]%elem_of_app; [by apply (pp_settled _ _ _ Hp)|].
    rewrite Forall_forall in Hlock. intros E. apply (Hlock m Hm). rewrite E.
    destruct (batch_staged v F ms ps Hps _ ws Hws w Hw) as (m' & file & p & Hm' & _ & Hpm & Hst & _).
    rewrite (st_id _ _ _ _ Hst), (pd_id _ _ _ Hpm). by apply list_elem_of_fmap_2.
  - intros m g Hm _. by apply not_elem_of_nil in Hm.
Qed.

(** The inodes after a request: those it republishes. *)
Lemma staged_next F s ps : forall ws m p,
  Forall2 (stages F s) (nonempty ps) ws -> NoDup (pm_id <$> ps) -> p ∈ ps -> (pm_data p = [] -> pm_republish p = false) ->
  foldl next_inodes m ws !! pm_id p = if pm_republish p then Some (pm_inode p) else m !! pm_id p.
Proof.
  induction ps as [|p0 ps IH]; intros ws m p Hws Hnd Hin Hempty; [by apply not_elem_of_nil in Hin|].
  rewrite fmap_cons in Hnd. apply NoDup_cons in Hnd as [Hp0 Hnd].
  assert (Hids : forall ws, Forall2 (stages F s) (nonempty ps) ws -> pm_id p0 ∉ sg_id <$> ws).
  { intros ws' Hw (w & E & Hwi)%list_elem_of_fmap. apply Forall2_flip in Hw. destruct (Forall2_elem_l _ _ _ _ Hw Hwi) as (p' & Hp' & Hst).
    apply Hp0. rewrite E, (st_id _ _ _ _ Hst). apply list_elem_of_fmap_2. by apply list_elem_of_filter in Hp' as [_ ?]. }
  unfold nonempty in Hws. destruct (decide (pm_data p0 = [])) as [E|E].
  - rewrite filter_cons_False in Hws by tauto. apply elem_of_cons in Hin as [->|Hin]; [|by apply IH].
    rewrite (Hempty E). apply next_inodes_other. by apply Hids.
  - rewrite filter_cons_True in Hws by done. apply Forall2_cons_inv_l in Hws as (w & ws' & Hst & Hws & ->). cbn [foldl].
    assert (Hw : forall m, next_inodes m w !! pm_id p0 = if pm_republish p0 then Some (pm_inode p0) else m !! pm_id p0).
    { intros m0. unfold next_inodes. rewrite (st_inode _ _ _ _ Hst), (st_id _ _ _ _ Hst). destruct (pm_republish p0); [apply lookup_insert_eq|done]. }
    apply elem_of_cons in Hin as [->|Hin]; [rewrite next_inodes_other by (by apply Hids); apply Hw|]. rewrite IH by done.
    rewrite next_inodes_ne; [done|]. rewrite (st_id _ _ _ _ Hst). intros Heq. apply Hp0. rewrite <- Heq. by apply list_elem_of_fmap_2.
Qed.
End submit.
