(* ===== verification/PipelineSpec.v ===== *)
(** * The write pipeline refines sequential files

    Runs of the pipeline are sequences of submissions ([write_submit]) and worker turns
    ([worker_turn]) in any order; the specification beside them is a set of byte-level files
    and the list of requests that are queued. *)

From S2P Require Import Prelude Errors Segment Quota Inode Dedup Permissions Store Namespace Commit Usage Ops.
From S2P Require Import FrameStore Extent ExtentSpec SegCounts Volume Registry OpsWrite OpsIo Staged Pipeline Submit.

(** ** The specification *)

Abbreviation WriteRequests := (list (list PrepareWriteMember)).
Definition apply_member (F : Files) (m : PrepareWriteMember) : Files := write_at F (wm_id m) (wm_offset m) (wm_data m).
Definition apply_requests (F : Files) (q : WriteRequests) : Files := foldl (foldl apply_member) F q.

Record Spec := mkSpec { sp_files : Files; sp_queue : WriteRequests }.
(** The files when everything submitted so far is applied. *)
Definition sp_submitted (sp : Spec) : Files := apply_requests (sp_files sp) (sp_queue sp).
Definition sp_submit (ms : list PrepareWriteMember) (sp : Spec) : Spec := mkSpec (sp_files sp) (sp_queue sp ++ [ms]).
Definition sp_commit (n : nat) (sp : Spec) : Spec :=
  mkSpec (apply_requests (sp_files sp) (take n (sp_queue sp))) (drop n (sp_queue sp)).
Definition sp_fail (n : nat) (sp : Spec) : Spec := mkSpec (sp_files sp) (drop n (sp_queue sp)).

(** No request that stays queued writes a file of the first [n]. *)
Definition unrelated (n : nat) (q : WriteRequests) : Prop :=
  forall ms ms' m m', ms ∈ take n q -> ms' ∈ drop n q -> m ∈ ms -> m' ∈ ms' -> wm_id m <> wm_id m'.

Lemma apply_member_ext F G m : (forall i, F i = G i) -> forall i, apply_member F m i = apply_member G m i.
Proof. intros He i. unfold apply_member, write_at, upd. rewrite !He. done. Qed.
Lemma apply_members_ext ms : forall F G, (forall i, F i = G i) -> forall i, foldl apply_member F ms i = foldl apply_member G ms i.
Proof. induction ms as [|m ms IH]; intros F G He; [done|]. cbn. apply IH. by apply apply_member_ext. Qed.
Lemma apply_empty F m : wm_data m = [] -> forall i, apply_member F m i = F i.
Proof.
  intros E i. unfold apply_member, write_at, upd, vf_write. rewrite E, bool_decide_true by done. case_decide as Hi; [by rewrite Hi|done].
Qed.
Lemma apply_with_data ms : forall F i, foldl apply_member F ms i = foldl apply_member F (with_data ms) i.
Proof.
  unfold with_data. induction ms as [|m ms IH]; intros F i; [done|]. destruct (decide (wm_data m = [])) as [E|E].
  - rewrite filter_cons_False by tauto. cbn. rewrite <- IH. apply apply_members_ext. by apply apply_empty.
  - rewrite filter_cons_True by done. cbn. apply IH.
Qed.
Lemma apply_staged_members ws : forall F, foldl sg_write F ws = foldl apply_member F (members_of ws).
Proof. induction ws as [|w ws IH]; intros F; [done|]. cbn. apply IH. Qed.

(** The staged writes of a queue item are the members of the request that have data. *)
Definition explains (it : Item) (ms : list PrepareWriteMember) : Prop := members_of (it_ws it) = with_data ms.

Lemma apply_explained its q : Forall2 explains its q ->
  forall F G, (forall i, F i = G i) -> forall i, foldl sg_write F (staged_of its) i = apply_requests G q i.
Proof.
  induction 1 as [|it ms its q He _ IH]; intros F G HFG; [done|]. cbn [apply_requests foldl].
  change (staged_of (it :: its)) with (it_ws it ++ staged_of its). rewrite foldl_app. apply IH.
  intros i. rewrite apply_staged_members, He, <- apply_with_data. by apply apply_members_ext.
Qed.

Section refinement.
Context {S Hint : Type} `{FrameStoreLaws S Hint}.
Implicit Types (v : Volume S) (F : Files) (sp : Spec).

Lemma staged_ok_ext (s : S) F G w : (forall i, F i = G i) -> staged_ok s F w -> staged_ok s G w.
Proof. intros He. apply staged_ok_agree. intros x _. by rewrite He. Qed.
Lemma pipe_ext v F G its : (forall i, F i = G i) -> PipeInv v F its -> PipeInv v G its.
Proof.
  intros He []. split; try done.
  - intros id f. rewrite <- He. by apply pp_files.
  - eapply Forall_impl; [done|]. intros w. by apply staged_ok_ext.
Qed.

(** The files of [locked] are held by the background task; only their extents may be
    on the move. *)
Definition Explained (locked : Z -> Prop) v sp : Prop :=
  exists its, PipeInv v (sp_files sp) its /\ Forall2 explains its (sp_queue sp) /\
    Forall (fun m => locked (mv_id m)) (moves_of its).

(** ** Runs *)

(** Offsets are not negative and the request does not end in the last extent of the
    64-bit range. *)
Definition request_fits (req : PrepareWriteRequest) : Prop :=
  Forall (fun m => 0 <= wm_offset m /\ wm_offset m + zlen (wm_data m) <= U64_MAX + 1 - EXTENT_SIZE) (wr_members req).

Inductive PipeEvent := EvSubmit | EvTurn (n : nat) (r : result FsError unit).

Inductive pipe_event (locked : Z -> Prop) : PipeEvent -> Volume S * Spec -> Volume S * Spec -> Prop :=
| step_submit env h own req v sp r v' :
    unblocked v req -> Forall (fun m => ~ locked (wm_id m)) (wr_members req) -> request_fits req -> hints_ready h (map wm_id (wr_members req)) (es_frames (v_es v)) ->
    write_submit env h own req v = (r, v') ->
    pipe_event locked EvSubmit (v, sp) (v', match r with Ok (Submitted _) => sp_submit (wr_members req) sp | _ => sp end)
| step_commit ret inst o n v sp :
    id_room (v_fs v) -> counters_fit v n ->
    batch_written o (map qc_request (take n (v_queue v))) (v_fs v) = true ->
    pipe_event locked (EvTurn n (worker_turn ret inst o n v).1) (v, sp) ((worker_turn ret inst o n v).2, sp_commit n sp)
| step_fail ret inst o n v sp :
    id_room (v_fs v) -> counters_fit v n -> unrelated n (sp_queue sp) ->
    batch_written o (map qc_request (take n (v_queue v))) (v_fs v) = false ->
    pipe_event locked (EvTurn n (worker_turn ret inst o n v).1) (v, sp) ((worker_turn ret inst o n v).2, sp_fail n sp).
Definition pipe_step (locked : Z -> Prop) (a b : Volume S * Spec) : Prop := exists ev, pipe_event locked ev a b.

(** ** Submissions *)

Lemma no_data_empty ms m : with_data ms = [] -> m ∈ ms -> wm_data m = [].
Proof.
  intros E Hm. destruct (decide (wm_data m = [])) as [?|Hd]; [done|].
  assert (Hin : m ∈ with_data ms) by (by apply list_elem_of_filter). rewrite E in Hin. by apply not_elem_of_nil in Hin.
Qed.

Lemma onFS_bind {A B} (m : M A) (k : A -> VM S B) v :
  (onFS m ≫= k) v = match m (v_fs v) with
                    | (Ok a, f) => k a (set_v_fs f v)
                    | (Err e, f) => (Err (Fs e), set_v_fs f v)
                    end.
Proof. rewrite bindV. unfold onFS. by destruct (m (v_fs v)) as [[a|e] f]. Qed.

Lemma replay_state {A} env op (extract : DedupResult -> option A) f :
  exists d, (replay_dedup_result env op extract f).2 = set_fs_dedup d f /\ inert f (set_fs_dedup d f) /\
    forall a, (replay_dedup_result env op extract f).1 = Ok (Some a) -> recorded extract op f a.
Proof.
  pose proof (wp_replay env op extract (fun r f' => inert f f' /\ forall a, r = Ok (Some a) -> recorded extract op f a) f) as Hw.
  unfold wp in Hw. destruct Hw as [Hi Ha].
  { intros r f' Hi Hr. split; [done|]. intros a ->. by destruct Hr as [?|[[? _]|(b & [= <-] & ? & _)]]. }
  assert (E : exists d, (replay_dedup_result env op extract f).2 = set_fs_dedup d f).
  { unfold replay_dedup_result. destruct (dedup_get _ _ _) as [r d]. by exists d. }
  destruct E as [d E]. exists d. rewrite E in Hi. done.
Qed.

Lemma pipe_dedup v F its d : PipeInv v F its -> PipeInv (set_v_fs (set_fs_dedup d (v_fs v)) v) F its.
Proof. intros Hp. by apply pipe_fs. Qed.

(** The size a file gets is the one its attributes report. *)
Definition reports v (m : PrepareWriteMember) (res : Z * FileAttributes) : Prop :=
  res.1 = wm_id m /\ exists file, visible_inode v (wm_id m) = Ok (IFile file) /\
    fa_size res.2 = if bool_decide (wm_data m = []) then f_size file
                    else Z.max (f_size file) (wm_offset m + zlen (wm_data m)).

Lemma prepared_reports v ms ps : Forall2 (prepared_in v) ms ps -> Forall2 (reports v) ms (batch_result ps).
Proof.
  intros Hps. unfold batch_result. apply Forall2_fmap_r. eapply Forall2_impl; [exact Hps|].
  intros m p (file & Hv & Hp). split; [apply Hp|]. exists file. split; [done|]. apply Hp.
Qed.

(** The reply for a member: the attributes of the inode that is visible from now on, which
    is the visible one with the member written. *)
Definition answered (creds : Credentials) (check : bool) (clock : nat -> Z * Z) v v' (m : PrepareWriteMember) (res : Z * FileAttributes) : Prop :=
  res.1 = wm_id m /\ exists file k i', visible_inode v (wm_id m) = Ok (IFile file) /\ visible_inode v' (wm_id m) = Ok i' /\
    res.2 = file_attributes i' (wm_id m) /\ member_written creds (clock k) m file i' /\
    (check = true -> c_uid creds = uid (f_attrs file) \/ check_access (IFile file) creds Write = Ok tt).
Definition answered_request env req v v' : list (Z * FileAttributes) -> Prop :=
  Forall2 (answered (from_auth_context (wr_auth req)) (wr_check_permissions req) (e_clock env) v v') (wr_members req).

Lemma answers_visible creds check clock v v' ms ps :
  Forall2 (answer_in creds check clock v) ms ps ->
  (forall p, p ∈ ps -> visible_inode v' (pm_id p) = if pm_republish p then Ok (pm_inode p) else visible_inode v (pm_id p)) ->
  Forall2 (answered creds check clock v v') ms (batch_result ps).
Proof.
  intros Hans Hvis. unfold batch_result. apply Forall2_fmap_r. apply Forall2_same_length_lookup in Hans as [Hlen Hans].
  apply Forall2_same_length_lookup. split; [done|]. intros i m p Hm Hpi. destruct (Hans i m p Hm Hpi) as (file & k & Hv & []).
  split; [done|]. exists file, k, (pm_inode p). cbn. split_and!; try done. apply list_elem_of_lookup_2 in Hpi. apply Hvis in Hpi.
  rewrite an_id in Hpi. rewrite Hpi. destruct (pm_republish p); [done|]. by rewrite an_kept.
Qed.
Lemma answers_submitted creds check clock v v' F its it (s : S) ms ps :
  PipeInv v F its -> PipeInv v' F (its ++ [it]) -> v_db v' = v_db v -> Forall2 (stages F s) (nonempty ps) (it_ws it) ->
  NoDup (map wm_id ms) -> Forall2 (prepared_in v) ms ps -> Forall2 (answer_in creds check clock v) ms ps ->
  Forall2 (answered creds check clock v v') ms (batch_result ps).
Proof.
  intros Hp Hp' Hdb Hws Hnd Hps Hans. apply answers_visible; [done|]. intros p Hin.
  rewrite (visible_virtual _ _ _ _ Hp'), (visible_virtual _ _ _ _ Hp), Hdb. unfold staged_of. rewrite map_app, concat_app, foldl_app.
  cbn [map concat]. rewrite app_nil_r, (staged_next F s ps); [by destruct (pm_republish p)|done|by rewrite (batch_ids v ms ps Hps)|done|].
  intros E. destruct (batch_member v ms ps Hps p Hin) as (m & file & _ & _ & Hpm). rewrite (pd_data _ _ _ Hpm) in E. by apply (pd_empty _ _ _ Hpm E).
Qed.

(** Nothing is queued, published or registered. *)
Definition kept v v' : Prop := v_queue v' = v_queue v /\ v_pending v' = v_pending v /\ v_inflight v' = v_inflight v.

Lemma submit_spec env h own req v F its :
  PipeInv v F its -> unblocked v req -> request_fits req ->
  hints_ready h (map wm_id (wr_members req)) (es_frames (v_es v)) ->
  Forall (fun m => mv_id m ∉ map wm_id (wr_members req)) (moves_of its) ->
  same_data v (write_submit env h own req v).2 /\
  match write_submit env h own req v with
  | (Ok (Submitted res), v') =>
      exists it, PipeInv v' F (its ++ [it]) /\ explains it (wr_members req) /\
        NoDup (map wm_id (wr_members req)) /\ Forall2 (reports v) (wr_members req) res /\ answered_request env req v v' res /\
        it_moves it = [] /\ it_drops it = [] /\ Forall (fun w => fresh_locs (v_es v) (sg_locs w)) (it_ws it)
  | (Ok (Replied res), v') => PipeInv v' F its /\ kept v v' /\
      ((exists a, recorded into_write (wr_op_id req) (v_fs v) a /\ res = map (fun id => (id, a)) (map wm_id (wr_members req))) \/
       with_data (wr_members req) = [] /\ answered_request env req v v' res)
  | (Err (Fs _), v') => PipeInv v' F its /\ kept v v'
  | (Err Panic, _) => False
  end.
Proof.
  intros Hp Hun Hfit Hready Hlock. unfold write_submit. rewrite onFS_bind.
  assert (Hrefl : evolved (v_es v) (v_es v)) by apply evolved_refl, Hp.
  destruct (replay_state env (wr_op_id req) into_write (v_fs v)) as (d1 & Hd1 & Hi1 & Ha1).
  destruct (replay_dedup_result env (wr_op_id req) into_write (v_fs v)) as [[[a|]|err] f1]; cbn in Hd1; subst f1;
    [split; [done|split; [by apply pipe_dedup|split; [done|left; exists a; auto]]]| |split; [done|split; [by apply pipe_dedup|done]]].
  pose proof (pipe_dedup v F its d1 Hp) as Hp1. set (v1 := set_v_fs (set_fs_dedup d1 (v_fs v)) v) in *.
  rewrite pureV_bind. destruct (decide (NoDup (map wm_id (wr_members req)))) as [Hnd|Hnd].
  2:{ rewrite bool_decide_false by done. by split. }
  rewrite bool_decide_true by done. cbn [ensure]. rewrite pureV_bind.
  case_bool_decide as Hne; cbn [ensure]; [|by split]. rewrite onFS_bind.
  destruct (replay_state env (wr_op_id req) into_write (v_fs v1)) as (d2 & Hd2 & Hi2 & Ha2).
  destruct (replay_dedup_result env (wr_op_id req) into_write (v_fs v1)) as [[[a|]|err] f2]; cbn in Hd2; subst f2;
    [split; [done|split; [by apply (pipe_dedup v1)|split; [done|left; exists a; split; [by eapply recorded_inert, Ha2|done]]]]| |
     split; [done|split; [by apply (pipe_dedup v1)|done]]].
  pose proof (pipe_dedup v1 F its d2 Hp1) as Hp2. set (v2 := set_v_fs (set_fs_dedup d2 (v_fs v1)) v1) in *.
  pose proof (growth_nonneg _ _ (pp_chain _ _ _ Hp2)) as Hge.
  rewrite bindV. match goal with |- context [prepare_members _ _ _ _ _ ?x] => change x with v2 end.
  rewrite <- (with_quota_id v2).
  destruct (prepare_members_spec (from_auth_context (wr_auth req)) (wr_check_permissions req) (e_clock env) v2
    _ (wr_members req) 0 _ _ (pp_quota _ _ _ Hp2) Hge) as (r & q & -> & Hr).
  assert (Hkeep : forall q e, quota_ok q (total_bytes (inodes (v_db v2))) (growth (staged_of its)) -> evolved (v_es v2) e ->
    PipeInv (set_v_es e (with_quota v2 q)) F its) by (intros; by apply pipe_evolved).
  destruct r as [ps|x].
  2:{ destruct Hr as [[err ->] Hq]. specialize (Hkeep q (v_es v2) Hq (evolved_refl _ (pp_es _ _ _ Hp2))). split; [done|split; [exact Hkeep|done]]. }
  destruct Hr as (Hr & Hans & Hq).
  unfold dropping. destruct (apply_prepared_spec v2 F its q env h (wr_op_id req) own (wr_members req) ps) as (r & v' & -> & [Hdb Hev] & Hres); try done.
  destruct r as [[res|res]|[err|]]; [| | |done].
  - destruct Hres as (-> & Hpi & Hwd & ->). split; [done|]. split; [done|]. split; [done|]. right. split; [done|].
    apply (answers_visible _ _ _ v (with_quota v2 q)); [done|]. intros p Hin.
    change (visible_inode (with_quota v2 q) (pm_id p)) with (visible_inode v (pm_id p)).
    destruct (batch_member v2 _ ps Hr p Hin) as (m & file & Hm & _ & Hpm). rewrite (proj1 (proj2 (pd_empty _ _ _ Hpm (no_data_empty _ _ Hwd Hm)))). done.
  - destruct Hres as (-> & it & Hpi & Hm & Hmv & Hdr & Hfr & s & Hws). split; [done|]. exists it. split; [done|]. split; [done|]. split; [done|].
    split; [by apply prepared_reports|]. split; [by apply (answers_submitted _ _ _ v2 v' F its it s)|]. by split.
  - destruct Hres as (e & -> & _).
    destruct (drop_members_ok v2 (set_v_es e v2) (wr_members req) ps _ _ q Hr Hge Hq) as (q' & Hd & Hq').
    change (set_v_es e (with_quota v2 q)) with (with_quota (set_v_es e v2) q). rewrite Hd. split; [done|]. split; [by apply Hkeep|done].
Qed.

(** Files whose extents are on the move are locked. *)
Lemma unlocked_moves locked its ms :
  Forall (fun m => locked (mv_id m)) (moves_of its) -> Forall (fun m => ~ locked (wm_id m)) ms ->
  Forall (fun m => mv_id m ∉ map wm_id ms) (moves_of its).
Proof.
  rewrite !Forall_forall. intros Hl Hn m Hm (m' & E & Hm')%list_elem_of_fmap. apply (Hn m' Hm'). rewrite <- E. by apply Hl.
Qed.
Lemma unlocked_all (ms : list PrepareWriteMember) : Forall (fun _ => ~ False) ms.
Proof. apply Forall_true. tauto. Qed.

(** ** Every run *)

(** A volume at rest: nothing queued, exact counters, every file stored. *)
Record quiescent v F : Prop := {
  qs_ns : NsState (v_fs v);
  qs_es : es_ok (v_es v);
  qs_files : files_ok (v_es v) (v_db v) F;
  qs_queue : v_queue v = [];
  qs_inflight : forall id, default [] (iw_inodes (v_inflight v) !! id) = [];
  qs_pending : pn_entries (v_pending v) = ∅;
  qs_quota : quota_ok (fs_quota (v_fs v)) (total_bytes (inodes (v_db v))) 0;
  qs_segs : SegInv (v_fs v) }.

Lemma quiescent_explained locked v F : quiescent v F -> Explained locked v (mkSpec F []).
Proof.
  intros [Hns Hes Hfi Hq Hif Hpe Hqt Hsg]. exists []. split; [|split; constructor]. split; cbn; try done.
  - rewrite Hq. constructor.
  - constructor.
  - intros m w Hm. by apply not_elem_of_nil in Hm.
  - split; [done|constructor|]. intros p Hin. by apply not_elem_of_nil in Hin.
  - split; [intros id; by rewrite Hpe, lookup_empty|constructor|]. intros p Hin. by apply not_elem_of_nil in Hin.
Qed.

Lemma unrelated_isolated n its q : Forall2 explains its q -> unrelated n q -> isolated its n.
Proof.
  intros He Hu w w' Hw Hw' E.
  assert (Hin : forall k its q, Forall2 explains its q -> k ∈ staged_of its ->
    exists ms m, ms ∈ q /\ m ∈ ms /\ wm_id m = sg_id k).
  { clear. intros k its q He. induction He as [|it ms its q He _ IH]; [by intros ?%not_elem_of_nil|].
    change (staged_of (it :: its)) with (it_ws it ++ staged_of its). intros [Hk|Hk]%elem_of_app.
    - exists ms, (mkMember (sg_id k) (sg_offset k) (sg_data k)). split; [left|]. split; [|done].
      assert (Hm : mkMember (sg_id k) (sg_offset k) (sg_data k) ∈ members_of (it_ws it)).
      { by apply (list_elem_of_fmap_2 (fun w => mkMember (sg_id w) (sg_offset w) (sg_data w))). }
      rewrite He in Hm. by apply list_elem_of_filter in Hm as [_ ?].
    - destruct (IH Hk) as (ms' & m & Hms & Hm & Hid). exists ms', m. split; [by right|done]. }
  destruct (Hin w _ _ (Forall2_take _ _ _ n He) Hw) as (ms & m & Hms & Hm & Hid).
  destruct (Hin w' _ _ (Forall2_drop _ _ _ n He) Hw') as (ms' & m' & Hms' & Hm' & Hid').
  apply (Hu ms ms' m m'); congruence.
Qed.

Lemma moves_sub (P : Move -> Prop) n its : Forall P (moves_of its) -> Forall P (moves_of (drop n its)).
Proof. unfold moves_of. rewrite (split_its it_moves n). by intros [_ ?]%Forall_app. Qed.

(** What an event does to the explanation of the queue. *)
Definition plain_item v (it : Item) : Prop :=
  it_moves it = [] /\ it_drops it = [] /\ Forall (fun w => fresh_locs (v_es v) (sg_locs w)) (it_ws it).
Lemma plain_items v new : Forall (plain_item v) new -> moves_of new = [] /\ drops_of new = [].
Proof.
  induction 1 as [|it new (Hm & Hd & _) _ [IH1 IH2]]; [done|].
  change (it_moves it ++ moves_of new = [] /\ it_drops it ++ drops_of new = []). by rewrite Hm, Hd.
Qed.
Definition event_items (ev : PipeEvent) v v' (its its' : list Item) : Prop :=
  match ev with
  | EvSubmit => same_data v v' /\ exists new, its' = its ++ new /\ Forall (plain_item v) new
  | EvTurn n _ => its' = drop n its /\ es_frames (v_es v') = es_frames (v_es v) /\
      (extents (v_db v') = extents (v_db v) \/ extents (v_db v') = queue_extents (v_db v) (take n its))
  end.

Lemma event_explained locked ev v sp v' sp' its :
  pipe_event locked ev (v, sp) (v', sp') -> PipeInv v (sp_files sp) its -> Forall2 explains its (sp_queue sp) ->
  Forall (fun m => locked (mv_id m)) (moves_of its) ->
  exists its', event_items ev v v' its its' /\ PipeInv v' (sp_files sp') its' /\ Forall2 explains its' (sp_queue sp').
Proof.
  intros Hs Hp Hx Hl. inversion Hs as [env h own req v1 sp1 r v2 Hun Hnl Hfit Hr Hrun|ret inst o n v1 sp1 Hroom Hc Hw|
    ret inst o n v1 sp1 Hroom Hc Hu Hw]; subst.
  - destruct (submit_spec env h own req v (sp_files sp) its Hp Hun Hfit Hr (unlocked_moves _ _ _ Hl Hnl)) as [Hsd Hsub]. rewrite Hrun in Hsd, Hsub.
    assert (Hnone : PipeInv v' (sp_files sp) its -> exists its', event_items EvSubmit v v' its its' /\ PipeInv v' (sp_files sp) its' /\ Forall2 explains its' (sp_queue sp)).
    { intros Hp'. exists its. split; [|done]. split; [done|]. exists []. by rewrite app_nil_r. }
    destruct r as [[res|res]|[err|]]; [apply Hnone, Hsub| |apply Hnone, Hsub|done].
    destruct Hsub as (it & Hpi & He & _ & _ & _ & Hmv & Hdr & Hfr). exists (its ++ [it]). split; [|split; [done|]].
    + split; [done|]. exists [it]. split; [done|]. by apply Forall_singleton.
    + apply Forall2_app; [done|]. by constructor.
  - exists (drop n its). destruct (turn_data ret inst o n v _ its Hp) as [Hfr Hex]. split; [done|]. split; [|by apply Forall2_drop].
    eapply pipe_ext; [|by apply turn_written]. intros i. apply apply_explained; [by apply Forall2_take|done].
  - exists (drop n its). destruct (turn_data ret inst o n v _ its Hp) as [Hfr Hex]. split; [done|]. split; [|by apply Forall2_drop].
    apply turn_failed; try done. by eapply unrelated_isolated.
Qed.

Lemma step_explained locked v sp v' sp' :
  pipe_step locked (v, sp) (v', sp') -> Explained locked v sp -> Explained locked v' sp'.
Proof.
  intros [ev Hs] (its & Hp & Hx & Hl). destruct (event_explained _ _ _ _ _ _ its Hs Hp Hx Hl) as (its' & Hev & Hp' & Hx').
  exists its'. split; [done|]. split; [done|]. destruct ev as [|n r].
  - destruct Hev as (_ & new & -> & Hnew). unfold moves_of in *. rewrite map_app, concat_app. apply Forall_app. split; [done|].
    fold (moves_of new). by rewrite (proj1 (plain_items _ _ Hnew)).
  - destruct Hev as (-> & _). by apply moves_sub.
Qed.
Lemma run_explained locked v0 F v sp :
  quiescent v0 F -> rtc (pipe_step locked) (v0, mkSpec F []) (v, sp) -> Explained locked v sp.
Proof.
  intros Hq Hr. apply (quiescent_explained locked) in Hq. remember (v0, mkSpec F []) as a eqn:Ea. remember (v, sp) as b eqn:Eb.
  revert v0 F v sp Hq Ea Eb.
  assert (Hgen : forall a b, rtc (pipe_step locked) a b -> Explained locked a.1 a.2 -> Explained locked b.1 b.2).
  { induction 1 as [|[v1 s1] [v2 s2] b' Hs _ IH]; [done|]. intros He. apply IH. by eapply step_explained. }
  intros v0 F v sp Hq -> ->. by apply (Hgen _ _ Hr).
Qed.

(** The size of a submitted file is the size of its visible inode. *)
Lemma explained_size locked v sp id file :
  Explained locked v sp -> visible_inode v id = Ok (IFile file) -> f_size file = vf_size (sp_submitted sp id).
Proof.
  intros (its & Hp & Hx & _) Hv. destruct (visible_file _ _ _ _ _ Hp Hv) as (Hf & _).
  destruct (apply_staged (next_id (v_fs v)) (staged_of its) (v_es v) (v_db v) (sp_files sp)) as [_ Hok]; try apply Hp.
  destruct (Hok id file) as (_ & Hs & _); [by rewrite inodes_staged|]. rewrite <- Hs. f_equal. by apply apply_explained.
Qed.

Lemma apply_members_at ms F m : NoDup (map wm_id ms) -> m ∈ ms ->
  foldl apply_member F ms (wm_id m) = vf_write (F (wm_id m)) (wm_offset m) (wm_data m).
Proof.
  assert (Hother : forall ms F i, i ∉ map wm_id ms -> foldl apply_member F ms i = F i).
  { clear. induction ms as [|m ms IH]; intros F i Hi; [done|]. cbn in *. rewrite IH by set_solver.
    unfold apply_member, write_at. apply upd_ne. set_solver. }
  revert F. induction ms as [|m' ms IH]; intros F Hnd Hin; [by apply not_elem_of_nil in Hin|].
  cbn in Hnd. apply NoDup_cons in Hnd as [Hn Hnd]. apply elem_of_cons in Hin as [->|Hin]; cbn.
  - rewrite Hother by done. unfold apply_member, write_at. by rewrite upd_eq.
  - rewrite IH by done. unfold apply_member, write_at. rewrite upd_ne; [done|].
    intros E. apply Hn. rewrite <- E. by apply (list_elem_of_fmap_2 wm_id).
Qed.

Lemma read_file_spec locked v sp auth id file offset count :
  Explained locked v sp -> visible_inode v id = Ok (IFile file) ->
  match auth with Some a => check_access (IFile file) (from_auth_context a) Read | None => Ok tt end = Ok tt ->
  0 <= offset -> 0 <= count ->
  let len := Z.min count (f_size file - offset) in
  stored_len (v_db v) id offset len <= U32_MAX ->
  exists e, quiet (v_es v) e /\
    read_file auth id offset count v =
    (Ok (if f_size file <=? offset then ([], true) else (vf_read (sp_files sp id) offset len, f_size file <=? offset + len)),
     set_v_es e v).
Proof.
  intros (its & Hp & _) Hv Ha Hoff Hcount len Hlen. destruct (visible_file _ _ _ _ _ Hp Hv) as (_ & Hu & f0 & Hf0 & _).
  unfold read_file. rewrite getsV_bind, Hv, pureV_bind, pureV_bind, Ha.
  destruct (Z.leb_spec (f_size file) offset) as [Hle|Hlt].
  { exists (v_es v). split; [apply quiet_refl, Hp|]. by destruct v. }
  rewrite getsV_bind, bindV. fold len. destruct (pp_files _ _ _ Hp id f0 Hf0) as ((Hrep & _) & _).
  destruct (read_range_spec (v_db v) (v_db v) id (sp_files sp id) offset len (v_es v)) as (e & He & Hq); try done.
  { apply Hp. } { by apply FileRep_stale. } { unfold len. lia. } { unfold len. lia. }
  exists e. split; [done|]. unfold onES. by rewrite He.
Qed.

(** A turn whose batch is not written, whatever is queued behind it. *)
Lemma turn_unwritten ret inst o n v sp its :
  PipeInv v (sp_files sp) its -> batch_written o (map qc_request (take n (v_queue v))) (v_fs v) = false ->
  let '(r, v') := worker_turn ret inst o n v in
  (exists err, r = Err err) /\ v_db v' = v_db v /\ v_queue v' = drop n (v_queue v) /\
  forall id file, inodes (v_db v') !! id = Some (IFile file) -> Stored (v_es v') (extents (v_db v')) id (sp_files sp id).
Proof.
  intros Hp Hw. pose proof (process_batch_unwritten ret inst o _ _ Hw) as Hun. unfold worker_turn. rewrite Hw.
  destruct (process_batch _ _ _ _ _) as [r f']. cbn in Hun. destruct Hun as (Hdb & _ & _ & err & ->).
  split; [by exists err|]. unfold v_db. cbn. rewrite Hdb, items_untailed. split; [done|]. split; [done|].
  intros id file Hi. by destruct (pp_files _ _ _ Hp id file Hi) as (? & _).
Qed.

(** C3: the write pipeline is sequential.  Whatever the interleaving of submissions and
    worker turns - batches of any number of queued commits, several writers of one file
    staged on top of each other, partial extents, holes, growth, refused and failed requests,
    failed batches that no request queued behind them builds on - the applied state holds
    exactly the files that the committed requests give when they are applied one after the
    other in submission order, the queue has one commit for every request that waits, and the
    size every client sees is the size after everything submitted.  On the way the
    namespace invariant, the per-segment counters and the quota stay exact, and a volume
    whose queue is empty has no reservation left.  The turn of a batch that fails, also one
    that queued requests build on, reports the error and changes neither the tree nor any
    file. *)
Theorem pipeline_refines v0 F v sp :
  quiescent v0 F -> rtc (pipe_step (fun _ => False)) (v0, mkSpec F []) (v, sp) ->
  (forall id file, inodes (v_db v) !! id = Some (IFile file) ->
     Stored (v_es v) (extents (v_db v)) id (sp_files sp id) /\ vf_size (sp_files sp id) = f_size file) /\
  (forall id file, visible_inode v id = Ok (IFile file) -> f_size file = vf_size (sp_submitted sp id)) /\
  length (v_queue v) = length (sp_queue sp) /\
  NsState (v_fs v) /\ SegInv (v_fs v) /\
  (exists pend, quota_ok (fs_quota (v_fs v)) (total_bytes (inodes (v_db v))) pend /\ (v_queue v = [] -> pend = 0)) /\
  forall ret inst o n, batch_written o (map qc_request (take n (v_queue v))) (v_fs v) = false ->
    let '(r, v') := worker_turn ret inst o n v in
    (exists err, r = Err err) /\ v_db v' = v_db v /\ v_queue v' = drop n (v_queue v) /\
    forall id file, inodes (v_db v') !! id = Some (IFile file) -> Stored (v_es v') (extents (v_db v')) id (sp_files sp id).
Proof.
  intros Hq Hr. pose proof (run_explained _ _ _ _ _ Hq Hr) as He. split; [|split; [intros id file; by eapply explained_size|]].
  - destruct He as (its & Hp & _). intros id file Hi. by destruct (pp_files _ _ _ Hp id file Hi) as (? & ? & _).
  - destruct He as (its & Hp & Hx & _). split_and!; try apply Hp.
    + by rewrite (Forall2_length _ _ _ (pp_items _ _ _ Hp)), (Forall2_length _ _ _ Hx).
    + eexists. split; [apply Hp|]. intros E. pose proof (pp_items _ _ _ Hp) as Hi. rewrite E in Hi.
      by apply Forall2_nil_inv_l in Hi as ->.
    + intros ret inst o n. by apply (turn_unwritten ret inst o n v sp its).
Qed.

(** The reported sizes are those of the files after everything submitted. *)
Lemma submitted_sizes locked v sp ms res :
  Explained locked v sp -> NoDup (map wm_id ms) -> Forall2 (reports v) ms res ->
  Forall2 (fun m r => fa_size r.2 = vf_size (sp_submitted (sp_submit ms sp) (wm_id m))) ms res.
Proof.
  intros He Hnd Hres. apply Forall2_same_length_lookup in Hres as [Hlen Hres].
  apply Forall2_same_length_lookup. split; [done|]. intros i m r Hm Hri. destruct (Hres i m r Hm Hri) as (Hid & file & Hv & Hsz).
  rewrite Hsz. rewrite (explained_size _ v sp (wm_id m) file He Hv).
  unfold sp_submitted, sp_submit, apply_requests. cbn [sp_queue sp_files]. rewrite foldl_app. cbn [foldl].
  rewrite apply_members_at by (done || by eapply list_elem_of_lookup_2). unfold vf_write. by case_bool_decide.
Qed.

(** A request that is not queued leaves the volume as it was: the tree, the queue, the
    published inodes, the registered ranges and the files; and the quota counters, unless
    they are poisoned. *)
Definition left_alone v sp v' : Prop :=
  v_db v' = v_db v /\ kept v v' /\
  (forall id file, inodes (v_db v') !! id = Some (IFile file) -> Stored (v_es v') (extents (v_db v')) id (sp_files sp id)) /\
  (inner (fs_quota (v_fs v')) = inner (fs_quota (v_fs v)) \/
   poisoned (inner (fs_quota (v_fs v))) = true \/ poisoned (inner (fs_quota (v_fs v'))) = true).
Lemma inv_left_alone v v' sp its :
  PipeInv v (sp_files sp) its -> PipeInv v' (sp_files sp) its -> v_db v' = v_db v -> kept v v' -> left_alone v sp v'.
Proof.
  intros Hp Hp' Hdb Hk. split; [done|]. split; [done|]. split.
  - intros id file Hi. by destruct (pp_files _ _ _ Hp' id file Hi) as (? & _).
  - destruct (pp_quota _ _ _ Hp) as [_ [?|(-> & _)]], (pp_quota _ _ _ Hp') as [_ [?|(-> & _)]]; auto. left. by rewrite Hdb.
Qed.

(** C4: what the clients of the pipeline are told.  In every state of every run, a read
    that is allowed returns the applied bytes of the file, cut at the submitted size, with
    the end-of-file flag for that size, and changes caches only.  A write never panics.  A
    queued write was permitted to its caller, is one more entry of the queue, and is
    answered, for each member, with the attributes of the inode that is visible from then
    on: the visible inode with this member written ([member_written]), whose size is that of
    the file once everything submitted up to this request is applied.  A write that is
    answered at once has no data, or is a retry and gets the recorded reply; that and a
    refused write leave the tree, the queue, the published inodes and the files as they were,
    and the quota counters unless they are poisoned. *)
Theorem pipeline_replies v0 F v sp :
  quiescent v0 F -> rtc (pipe_step (fun _ => False)) (v0, mkSpec F []) (v, sp) ->
  (forall auth id file offset count,
     visible_inode v id = Ok (IFile file) ->
     match auth with Some a => check_access (IFile file) (from_auth_context a) Read | None => Ok tt end = Ok tt ->
     0 <= offset -> 0 <= count ->
     let size := vf_size (sp_submitted sp id) in let len := Z.min count (size - offset) in
     stored_len (v_db v) id offset len <= U32_MAX ->
     exists e, quiet (v_es v) e /\
       read_file auth id offset count v =
       (Ok (if size <=? offset then ([], true) else (vf_read (sp_files sp id) offset len, size <=? offset + len)),
        set_v_es e v)) /\
  (forall env h own req,
     unblocked v req -> request_fits req -> hints_ready h (map wm_id (wr_members req)) (es_frames (v_es v)) ->
     match write_submit env h own req v with
     | (Err Panic, _) => False
     | (Err (Fs _), v') => left_alone v sp v'
     | (Ok (Replied res), v') => left_alone v sp v' /\
         ((exists a, recorded into_write (wr_op_id req) (v_fs v) a /\ res = map (fun id => (id, a)) (map wm_id (wr_members req))) \/
          with_data (wr_members req) = [] /\ answered_request env req v v' res)
     | (Ok (Submitted res), v') =>
         v_db v' = v_db v /\ length (v_queue v') = Datatypes.S (length (v_queue v)) /\ answered_request env req v v' res /\
         Forall2 (fun m r => fa_size r.2 = vf_size (sp_submitted (sp_submit (wr_members req) sp) (wm_id m))) (wr_members req) res
     end).
Proof.
  intros Hq Hr. pose proof (run_explained _ _ _ _ _ Hq Hr) as He. split.
  - intros auth id file offset count Hv Ha Ho Hc. cbn zeta. rewrite <- (explained_size _ v sp id file He Hv).
    by eapply read_file_spec.
  - intros env h own req Hun Hfit Hh. pose proof He as (its & Hp & Hx & Hl).
    destruct (submit_spec env h own req v (sp_files sp) its Hp Hun Hfit Hh (unlocked_moves (fun _ => False) _ _ Hl (unlocked_all _))) as [[Hdb _] Hs].
    destruct (write_submit env h own req v) as [[[res|res]|[err|]] v']; cbn [snd] in Hdb; [| | |done].
    + destruct Hs as (Hp' & Hk & Hres). split; [by eapply inv_left_alone|done].
    + destruct Hs as (it & Hp' & _ & Hnd & Hres & Hans & _). split; [done|]. split; [|split; [done|by eapply submitted_sizes]].
      rewrite (Forall2_length _ _ _ (pp_items _ _ _ Hp')), (Forall2_length _ _ _ (pp_items _ _ _ Hp)), length_app. cbn. lia.
    + destruct Hs as [Hp' Hk]. by eapply inv_left_alone.
Qed.
End refinement.
