(* ===== verification/PipelineRuns.v ===== *)
(** * Runs of the write pipeline

    Concrete runs over the frame store: two pipelined writes that commit together, and a
    write that commits although the queued write whose inode it was staged on fails. *)

From S2P Require Import Prelude Errors FrameCodec Segment Quota Inode Dedup Permissions Store Namespace Commit Usage Ops Boot OpsCreate.
From S2P Require Import Lanes FrameStore Frames Extent ExtentSpec SegCounts DataPlane Volume Registry OpsWrite OpsIo Staged Pipeline Submit PipelineSpec.

Module TestPipeline.
Import TestPlane.

Definition empty_file : VFile := mkVFile 0 (fun _ => 0).
Definition volume : Volume Frames :=
  mkVolume example_tree (mkES fresh ∅ ∅) (mkPendingInodes ∅ 0) (mkInflightWrites ∅ 0) [].
Definition root_auth : AuthContext := mkAuth 0 0 true [] true.

(** Both write the file [/f] (inode 2), which is empty: three bytes far beyond the end,
    then three at the start. *)
Definition write (offset : Z) (data : bytes) : PrepareWriteRequest :=
  mkWriteRequest [mkMember 2 offset data] root_auth no_op_id false.
Definition first_write : PrepareWriteRequest := write 327680 [1; 2; 3].
Definition second_write : PrepareWriteRequest := write 0 [4; 5; 6].
Definition submitted (req : PrepareWriteRequest) (v : Volume Frames) : result Fault Submission * Volume Frames :=
  write_submit example_env (fun _ => hint) None req v.

Definition one_queued : Volume Frames := (submitted first_write volume).2.
Definition two_queued : Volume Frames := (submitted second_write one_queued).2.
Definition committed : Volume Frames := (worker_turn 150 100 (Applied (Ok tt)) 2 two_queued).2.

(** The first batch fails, then the second write commits. *)
Definition first_failed := worker_turn 150 100 (UnreadablePreimage IoError) 1 two_queued.
Definition second_committed := worker_turn 150 100 (Applied (Ok tt)) 1 first_failed.2.

Definition queues (r : result Fault Submission) : bool := match r with Ok (Submitted _) => true | _ => false end.
Lemma both_queued : queues (submitted first_write volume).1 && queues (submitted second_write one_queued).1 = true.
Proof. vm_compute. reflexivity. Qed.
Lemma batch_is_written : batch_written (Applied (Ok tt)) (map qc_request (take 2 (v_queue two_queued))) (v_fs two_queued) = true.
Proof. vm_compute. reflexivity. Qed.
Definition seg : Segid := mkSegid 7 2.
Lemma staged_counters : batch_segs (map qc_request (take 2 (v_queue two_queued))) = [(seg, (32817, 32817)); (seg, (32817, 32817))].
Proof. vm_compute. reflexivity. Qed.
Lemma staged_locations :
  extents (apply_ops (v_db two_queued) (batch_ops (map qc_request (take 2 (v_queue two_queued)))))
  = <[(2, 10) := mkFrameLoc seg 0 0 32817]> (<[(2, 0) := mkFrameLoc seg 1 32817 32817]> ∅).
Proof. vm_compute. reflexivity. Qed.
Lemma frame_counter : fr_counter (es_frames (v_es one_queued)) < U64_MAX.
Proof. vm_compute. reflexivity. Qed.
Lemma no_queued_overlap : pending_overlaps (v_inflight one_queued) 2 (Some (0, 0)) = [].
Proof. vm_compute. reflexivity. Qed.
Lemma ids_left : id_room (v_fs two_queued).
Proof. vm_compute. reflexivity. Qed.

Lemma tree_files : inodes (fs_db example_tree) !! 2 = Some (IFile (mkFile 0 (fresh_attrs (9, 5) 438 0 0) (Some 0) (Some [102]) 1)) /\
  forall id f, inodes (fs_db example_tree) !! id = Some (IFile f) -> f_size f = 0.
Proof.
  split; [vm_compute; reflexivity|]. intros id f Hf.
  assert (Hall : forallb (fun p => match p.2 with IFile f => f_size f =? 0 | _ => true end) (map_to_list (inodes (fs_db example_tree))) = true)
    by (vm_compute; reflexivity).
  assert (Hin : (id, IFile f) ∈ map_to_list (inodes (fs_db example_tree))) by by apply elem_of_map_to_list.
  apply list_elem_of_In in Hin. apply (proj1 (forallb_forall _ _) Hall) in Hin. cbn in Hin. lia.
Qed.
Lemma tree_empty : extents (fs_db example_tree) = ∅ /\ segcounts (fs_db example_tree) = ∅ /\
  fs_quota example_tree = LogicalQuota_new 1000000 0.
Proof. by split_and!. Qed.
Lemma tree_bytes : total_bytes (inodes (fs_db example_tree)) = 0.
Proof.
  apply msum_zero. intros id i Hi. destruct i as [f| | | | | |]; [exact (proj2 tree_files id f Hi)|reflexivity..].
Qed.

Lemma at_rest : quiescent volume (fun _ => empty_file).
Proof.
  destruct tree_empty as (Hx & Hs & Hq).
  assert (Hfiles : files_ok (v_es volume) (v_db volume) (fun _ => empty_file)).
  { intros id f. change (v_db volume) with (fs_db example_tree). intros Hf. pose proof (proj2 tree_files id f Hf) as Hz.
    rewrite Hx, Hz. split; [|split; [reflexivity|ulia]]. split; [|intros x d Hd; discriminate Hd]. split.
    - cbn. lia.
    - intros x loc. by rewrite lookup_empty.
    - intros x _ _. by apply extent_data_zero.
    - reflexivity. }
  assert (Hquota : quota_ok (fs_quota example_tree) (total_bytes (inodes (fs_db example_tree))) 0).
  { rewrite tree_bytes, Hq. split; [cbn; ulia|]. right. cbn. split_and!; done || lia. }
  assert (Hseg : SegInv example_tree).
  { split; rewrite Hx; [|intros k l; by rewrite lookup_empty]. intros s. rewrite Hs. unfold gget. rewrite lookup_empty.
    unfold live_of. by rewrite msum_empty. }
  split; [exact example_tree_ns| |exact Hfiles|reflexivity|reflexivity|reflexivity|exact Hquota|exact Hseg].
  split; [exact fresh_inv|]. intros id x l d Hd. discriminate Hd.
Qed.

Lemma hints_any i v : 0 <= i < 100 -> fr_counter (es_frames (v_es v)) < U64_MAX -> hints_ready (fun _ => hint) [i] (es_frames (v_es v)).
Proof.
  intros Hi Hc k s id Hk ->%list_elem_of_singleton Happ. destruct k as [|k]; [|cbn in Hk; lia].
  inversion Happ; subst. split_and!; done || ulia.
Qed.
Lemma hints_ok v : fr_counter (es_frames (v_es v)) < U64_MAX -> hints_ready (fun _ => hint) [2] (es_frames (v_es v)).
Proof. apply hints_any. lia. Qed.
Lemma fits_first : request_fits first_write.
Proof. apply Forall_singleton. cbn. unfold zlen, EXTENT_SIZE. cbn. ulia. Qed.
Lemma fits_second : request_fits second_write.
Proof. apply Forall_singleton. cbn. unfold zlen, EXTENT_SIZE. cbn. ulia. Qed.

Definition spec : Spec :=
  sp_commit 2 (sp_submit (wr_members second_write) (sp_submit (wr_members first_write) (mkSpec (fun _ => empty_file) []))).

Lemma submit_run req v sp :
  unblocked v req -> request_fits req -> hints_ready (fun _ => hint) (map wm_id (wr_members req)) (es_frames (v_es v)) ->
  queues (submitted req v).1 = true ->
  pipe_step (fun _ => False) (v, sp) ((submitted req v).2, sp_submit (wr_members req) sp).
Proof.
  intros Hu Hf Hh Hq. pose proof (step_submit (fun _ => False) example_env (fun _ => hint) None req v sp (submitted req v).1 (submitted req v).2 Hu (unlocked_all _) Hf Hh) as Hs.
  destruct (submitted req v) as [[[]|] v'] eqn:E; cbn in Hq; try done. eexists. by apply Hs.
Qed.

Lemma run : rtc (pipe_step (fun _ => False)) (volume, mkSpec (fun _ => empty_file) []) (committed, spec).
Proof.
  pose proof both_queued as [Hq1 Hq2]%andb_true_iff.
  eapply rtc_l; [apply (submit_run first_write); [|exact fits_first|by apply hints_ok|exact Hq1]|].
  { intros m span Hm Hs. cbn. unfold pending_overlaps. cbn. by rewrite lookup_empty. }
  eapply rtc_l; [apply (submit_run second_write); [|exact fits_second|apply hints_ok, frame_counter|exact Hq2]|].
  { intros m span ->%list_elem_of_singleton Hs. cbn in Hs. injection Hs as <-. exact no_queued_overlap. }
  apply rtc_once. eexists. apply (step_commit (fun _ => False) 150 100 (Applied (Ok tt)) 2 two_queued).
  - exact ids_left.
  - split; intros s.
    + rewrite staged_counters. unfold ksum. cbn. repeat case_decide; ulia.
    + rewrite staged_locations, !live_of_insert. rewrite lookup_insert_ne, !lookup_empty by done.
      unfold live_of, seg_bytes, opt_bytes. rewrite msum_empty. cbn. repeat case_decide; ulia.
  - exact batch_is_written.
Qed.

Lemma committed_file : exists f, inodes (v_db committed) !! 2 = Some (IFile f).
Proof. eexists. vm_compute. reflexivity. Qed.
Lemma committed_visible : exists f, visible_inode committed 2 = Ok (IFile f).
Proof. eexists. vm_compute. reflexivity. Qed.

(** After the commit: one byte at the start of the file, and a write to no file. *)
Definition third_write : PrepareWriteRequest := write 0 [7].
Definition refused_write : PrepareWriteRequest := mkWriteRequest [mkMember 99 0 [7]] root_auth no_op_id false.
Lemma committed_idle : forall id span, pending_overlaps (v_inflight committed) id span = [].
Proof.
  assert (E : iw_inodes (v_inflight committed) = ∅) by (vm_compute; reflexivity).
  intros id span. unfold pending_overlaps. by rewrite E, lookup_empty.
Qed.
Lemma committed_counter : fr_counter (es_frames (v_es committed)) < U64_MAX.
Proof. vm_compute. reflexivity. Qed.
Lemma third_unblocked : unblocked committed third_write.
Proof. intros m span _ _. apply committed_idle. Qed.
Lemma refused_unblocked : unblocked committed refused_write.
Proof. intros m span _ _. apply committed_idle. Qed.
Lemma third_fits : request_fits third_write.
Proof. apply Forall_singleton. cbn. unfold zlen, EXTENT_SIZE. cbn. ulia. Qed.
Lemma refused_fits : request_fits refused_write.
Proof. apply Forall_singleton. cbn. unfold zlen, EXTENT_SIZE. cbn. ulia. Qed.
Lemma refused_hints : hints_ready (fun _ => hint) [99] (es_frames (v_es committed)).
Proof. apply hints_any; [lia|exact committed_counter]. Qed.
Lemma third_queues : queues (submitted third_write committed).1 = true.
Proof. vm_compute. reflexivity. Qed.
Lemma refused_fails : match (submitted refused_write committed).1 with Err (Fs _) => true | _ => false end = true.
Proof. vm_compute. reflexivity. Qed.
End TestPipeline.

Import TestPlane.

(** Both writes are applied: the file has both, with the size of the first. *)
Lemma pipeline_refines_witness :
  Stored (v_es TestPipeline.committed) (extents (v_db TestPipeline.committed)) 2 (sp_files TestPipeline.spec 2) /\
  vf_size (sp_files TestPipeline.spec 2) = 327683 /\ vf_byte (sp_files TestPipeline.spec 2) 1 = 5.
Proof.
  destruct (pipeline_refines TestPipeline.volume _ TestPipeline.committed TestPipeline.spec TestPipeline.at_rest TestPipeline.run)
    as (Hf & _).
  split; [|split; vm_compute; reflexivity].
  destruct TestPipeline.committed_file as [f E]. exact (proj1 (Hf 2 f E)).
Defined.

(** A read after the commit; a third write, which is queued; and one that is refused. *)
Lemma pipeline_replies_witness :
  (exists e, quiet (v_es TestPipeline.committed) e /\
    read_file None 2 327679 100 TestPipeline.committed = (Ok ([0; 1; 2; 3], true), set_v_es e TestPipeline.committed)) /\
  (let '(r, v') := TestPipeline.submitted TestPipeline.third_write TestPipeline.committed in
   exists res, r = Ok (Submitted res) /\ answered_request example_env TestPipeline.third_write TestPipeline.committed v' res) /\
  left_alone TestPipeline.committed TestPipeline.spec (TestPipeline.submitted TestPipeline.refused_write TestPipeline.committed).2.
Proof.
  destruct (pipeline_replies TestPipeline.volume _ TestPipeline.committed TestPipeline.spec TestPipeline.at_rest TestPipeline.run)
    as (Hr & Hw).
  split; [|split].
  - destruct TestPipeline.committed_visible as [f E].
    destruct (Hr None 2 f 327679 100 E eq_refl) as (e & Hq & He); [lia|lia|vm_compute; discriminate|].
    exists e. split; [exact Hq|]. rewrite He. apply (f_equal (fun r => (Ok r, set_v_es e TestPipeline.committed))).
    vm_compute. reflexivity.
  - specialize (Hw example_env (fun _ => hint) None TestPipeline.third_write TestPipeline.third_unblocked TestPipeline.third_fits
      (TestPipeline.hints_ok _ TestPipeline.committed_counter)).
    pose proof TestPipeline.third_queues as Hq. unfold TestPipeline.submitted in *. destruct (write_submit _ _ _ _ _) as [r v'].
    destruct r as [[res|res]|]; [discriminate Hq| |discriminate Hq]. exists res. split; [reflexivity|apply Hw].
  - specialize (Hw example_env (fun _ => hint) None TestPipeline.refused_write TestPipeline.refused_unblocked TestPipeline.refused_fits
      TestPipeline.refused_hints).
    pose proof TestPipeline.refused_fails as Hq. unfold TestPipeline.submitted in *. destruct (write_submit _ _ _ _ _) as [r v'].
    destruct r as [[res|res]|[err|]]; [discriminate Hq|discriminate Hq|exact Hw|discriminate Hq].
Defined.

(** C40: a queued write can commit although the write whose pending inode it was staged on
    fails, and is then lost: the first write grows an empty file and its batch fails before
    it is applied (an unreadable pre-image); the second, staged on the pending size, writes
    the start of the file in the same second and so does not republish the inode.  Its
    commit is acknowledged and its extent is stored, but the file keeps size zero and reads
    as empty. *)
Theorem failed_predecessor_drops_write :
  let v := TestPipeline.second_committed.2 in
  TestPipeline.first_failed.1 = Err IoError /\ TestPipeline.second_committed.1 = Ok tt /\
  is_Some (extents (v_db v) !! (2, 0)) /\ (inode_size (inodes (v_db v) !! 2) = 0) /\
  (read_file None 2 0 3 v).1 = Ok ([], true).
Proof. vm_compute. split_and!; [reflexivity..|eexists; reflexivity|reflexivity|reflexivity]. Qed.
