(* ===== verification/AttrSpec.v ===== *)
(** * Attribute changes and space allocation refine files

    [setattr], [record_access_time], [trim] and [fallocate] on a volume at rest: the file's
    bytes, its inode and the copy of it, the counters and the quota change together, in
    exactly the way the request says, or not at all. *)

From S2P Require Import Prelude Errors Segment Quota Inode Dedup Permissions Store Namespace Commit Usage Ops.
From S2P Require Import FrameStore Extent ExtentSpec SegCounts Volume Registry OpsWrite OpsIo OpsSetattr Staged Pipeline Submit PipelineSpec.

(** ** Counter widths

    A transaction's adjustments of a segment, credits and debits added up, stay below the
    bytes that are live in it before and after. *)

Definition debit_delta (t : Transaction) (s : Segid) : Z := ksum (fun d => Z.max (- d.1) 0) s (tx_segs t).

Lemma debit_delta_add s' l n t s :
  debit_delta (add_seg_delta s' l n t) s = debit_delta t s + if decide (s' = s) then Z.max (- l) 0 else 0.
Proof.
  unfold debit_delta, add_seg_delta. destruct (_ && _) eqn:E.
  - apply andb_true_iff in E as [->%Z.eqb_eq _]. case_decide; lia.
  - cbn [tx_segs]. rewrite ksum_app. unfold ksum at 2. cbn. case_decide; cbn; lia.
Qed.
Lemma abs_delta t s : ksum (fun d => Z.abs d.1) s (tx_segs t) = live_delta t s + 2 * debit_delta t s.
Proof.
  unfold live_delta, debit_delta, ksum. induction (tx_segs t) as [|[s' d] l IH]; [done|]. cbn. rewrite IH. case_decide; lia.
Qed.

Definition positive (m : gmap (Z * Z) FrameLoc) : Prop := forall k loc, m !! k = Some loc -> 0 < fl_byte_len loc.

Lemma debit_debits debits s : Forall (fun l => 0 < fl_byte_len l) debits -> forall t,
  debit_delta (stage_debits debits t) s = debit_delta t s + locs_bytes s debits.
Proof.
  unfold stage_debits. induction 1 as [|l debits Hl _ IH]; intros t; cbn [foldl]; [cbn; lia|].
  rewrite IH, debit_delta_add, locs_bytes_cons. unfold seg_bytes. case_decide; lia.
Qed.
Lemma debit_stage id edits s : forall locs t, Forall (fun l => 0 < fl_byte_len l) locs ->
  debit_delta (stage_txn id edits locs t) s = debit_delta t s.
Proof.
  induction edits as [|[x [d|]] edits IH]; intros locs t Hl; cbn [stage_txn]; [done| |by rewrite IH].
  destruct locs as [|loc locs]; [done|]. apply Forall_cons in Hl as [Hp Hl]. rewrite IH, debit_delta_add by done.
  change (debit_delta (push _ t) s) with (debit_delta t s). case_decide; lia.
Qed.
Lemma old_debits_positive db id edits stop : positive (extents db) -> Forall (fun l => 0 < fl_byte_len l) (old_debits db id edits stop).
Proof.
  intros Hp. unfold old_debits, point_debits, scan_debits. repeat case_match; try constructor; apply Forall_forall; intros l.
  - intros (x & _ & Hx)%list_elem_of_omap. by eapply Hp.
  - intros ([k loc] & Hin & E)%list_elem_of_omap. case_match; [|done]. injection E as <-. unfold scan_extents in Hin.
    apply elem_of_map_to_list, map_lookup_filter_Some in Hin as [Hk _]. by eapply Hp.
Qed.
Lemma old_bytes_live s id xs : forall m, NoDup xs -> positive m -> old_bytes s id m xs <= live_of m s.
Proof.
  induction xs as [|x xs IH]; intros m Hnd Hp; [by apply live_of_nonneg|]. apply NoDup_cons in Hnd as [Hx Hnd].
  rewrite old_bytes_cons. pose proof (IH (delete (id, x) m) Hnd) as Hle. rewrite live_of_delete in Hle.
  rewrite (old_bytes_ext s id (delete (id, x) m) m); [|intros y Hy; symmetry; apply lookup_delete_ne; congruence].
  apply Z.le_add_le_sub_l. apply Hle. intros k loc [_ Hk]%lookup_delete_Some. by eapply Hp.
Qed.
Lemma debit_delete_steps s id l : Forall (fun kv : Z * Z * FrameLoc => 0 < fl_byte_len kv.2) l -> forall t,
  debit_delta (foldl (delete_range_step id) t l) s + live_delta (foldl (delete_range_step id) t l) s = debit_delta t s + live_delta t s.
Proof.
  induction 1 as [|kv l Hk _ IH]; intros t; [done|]. cbn [foldl]. rewrite IH. unfold delete_range_step, extent_delete.
  change (debit_delta (push _ ?t) s) with (debit_delta t s). rewrite live_delta_push, debit_delta_add, live_delta_add. case_decide; lia.
Qed.

(** ** Staged changes of one file *)

(** A transaction that changes extents only, and accounts for them. *)
Record staged_txn (db : Db) (t : Transaction) : Prop := {
  sx_db : exists m, tx_db db t = with_extents (fun _ => m) db;
  sx_balanced : balanced db txn_new t;
  sx_plain : Forall plain_op (tx_ops t);
  sx_inodes : tx_inodes t = [];
  sx_debits : positive (extents db) -> forall s, debit_delta t s <= live_of (extents db) s }.

(** One that only deletes. *)
Definition only_deletes (db : Db) (t : Transaction) : Prop :=
  staged_txn db t /\ (forall k loc, extents (tx_db db t) !! k = Some loc -> extents db !! k = Some loc) /\
  (positive (extents db) -> forall s, debit_delta t s = - live_delta t s).

Lemma new_deletes db : only_deletes db txn_new.
Proof.
  split; [|split; [done|by intros _ s]]. split; [| |constructor|done|].
  - exists (extents db). by destruct db.
  - apply balanced_refl.
  - intros Hp s. by apply live_of_nonneg.
Qed.
Lemma delete_range_deletes db id start stop : only_deletes db (delete_range db id start stop txn_new).
Proof.
  assert (Hsub : forall k loc, extents (tx_db db (delete_range db id start stop txn_new)) !! k = Some loc -> extents db !! k = Some loc).
  { intros k loc. rewrite tx_db_delete_range by done. cbn [extents with_extents]. rewrite lookup_clear_range. by case_decide. }
  assert (Hd : positive (extents db) -> forall s, debit_delta (delete_range db id start stop txn_new) s = - live_delta (delete_range db id start stop txn_new) s).
  { intros Hp s. unfold delete_range. case_match; [done|]. apply Z.add_move_0_r. rewrite debit_delete_steps; [done|].
    apply Forall_forall. intros [k loc] Hin. unfold scan_extents in Hin. apply elem_of_map_to_list, map_lookup_filter_Some in Hin as [Hk _]. by eapply Hp. }
  assert (Hb : balanced db txn_new (delete_range db id start stop txn_new)) by (by apply delete_range_balanced).
  split; [|done]. split; [|done|..].
  - eexists. by rewrite tx_db_delete_range.
  - unfold delete_range. case_match; [constructor|]. revert Hsub Hd Hb. intros _ _ _.
    assert (Hg : forall l t, Forall plain_op (tx_ops t) -> Forall plain_op (tx_ops (foldl (delete_range_step id) t l))); [|by apply Hg; constructor].
    induction l as [|kv l IH]; intros t Ht; [done|]. apply IH. unfold delete_range_step, extent_delete, add_seg_delta. cbn.
    apply Forall_app. split; [by case_match|by apply Forall_singleton].
  - unfold delete_range. case_match; [done|].
    assert (Hg : forall l t, tx_inodes (foldl (delete_range_step id) t l) = tx_inodes t); [|by rewrite Hg].
    induction l as [|kv l IH]; intros t; [done|]. cbn [foldl]. rewrite IH. unfold delete_range_step, extent_delete, add_seg_delta. cbn. by case_match.
  - intros Hp s. rewrite (Hd Hp). specialize (Hb s). assert (0 <= live_of (extents (tx_db db (delete_range db id start stop txn_new))) s).
    { apply live_of_nonneg. intros k loc Hk%Hsub. by eapply Hp. }
    change (live_delta txn_new s) with 0 in Hb. rewrite tx_db_new in Hb. lia.
Qed.

(** ** Who may change what *)

Definition permitted (creds : Credentials) (sa : SetAttributes) (size : SizeAuthorization) (i : Inode) : Prop :=
  let owner := c_uid creds = 0 \/ c_uid creds = uid (attrs i) in
  (is_set (sa_mode sa) = true -> owner) /\
  (forall u, sa_uid sa = Set_ u -> c_uid creds = 0 \/ (c_uid creds = uid (attrs i) /\ u = c_uid creds)) /\
  (forall g, sa_gid sa = Set_ g -> c_uid creds = 0 \/ (c_uid creds = uid (attrs i) /\ is_member_of_group creds g = true)) /\
  (forall t, sa_atime sa = t \/ sa_mtime sa = t ->
     match t with
     | SetToClientTime _ => owner
     | SetToServerTime => owner \/ check_access i creds Write = Ok tt
     | TimeNoChange => True
     end) /\
  (size = CurrentMode -> is_set (sa_size sa) = true -> check_access i creds Write = Ok tt).

Lemma both_Ok (r r' : result FsError unit) : (_ ← r; r') = Ok tt <-> r = Ok tt /\ r' = Ok tt.
Proof. destruct r as [[]|]; cbn; [tauto|]. split; [done|by intros [? _]]. Qed.
Lemma check_ownership_Ok i c : check_ownership i c = Ok tt <-> c_uid c = 0 \/ c_uid c = uid (attrs i).
Proof. unfold check_ownership. destruct (Z.eqb_spec (c_uid c) 0), (Z.eqb_spec (c_uid c) (uid (attrs i))); cbn; naive_solver. Qed.
Lemma authorise_time_Ok creds i t :
  authorise_time creds i t = Ok tt <->
  match t with
  | SetToClientTime _ => c_uid creds = 0 \/ c_uid creds = uid (attrs i)
  | SetToServerTime => (c_uid creds = 0 \/ c_uid creds = uid (attrs i)) \/ check_access i creds Write = Ok tt
  | TimeNoChange => True
  end.
Proof.
  unfold authorise_time, can_set_times. destruct t; [..|done];
    destruct (Z.eqb_spec (c_uid creds) 0), (Z.eqb_spec (c_uid creds) (uid (attrs i))); cbn; naive_solver.
Qed.
Lemma authorise_owner_Ok creds sa i :
  authorise_owner creds sa i = Ok tt <->
  (forall u, sa_uid sa = Set_ u -> c_uid creds = 0 \/ (c_uid creds = uid (attrs i) /\ u = c_uid creds)) /\
  (forall g, sa_gid sa = Set_ g -> c_uid creds = 0 \/ (c_uid creds = uid (attrs i) /\ is_member_of_group creds g = true)).
Proof.
  unfold authorise_owner. destruct (Z.eqb_spec (c_uid creds) 0) as [E0|E0]; [rewrite andb_false_r; naive_solver|]. rewrite andb_true_r.
  destruct (sa_uid sa) as [u|], (sa_gid sa) as [g|]; cbn [is_set orb]; rewrite ?both_Ok, ?check_ownership_Ok, ?ensure_Ok, ?Z.eqb_eq; naive_solver.
Qed.
Lemma authorise_permits creds sa size i : authorise creds sa size i = Ok tt <-> permitted creds sa size i.
Proof.
  unfold authorise, permitted. rewrite !both_Ok, authorise_owner_Ok, !authorise_time_Ok.
  assert (Hm : (if is_set (sa_mode sa) then check_ownership i creds else Ok tt) = Ok tt <->
    (is_set (sa_mode sa) = true -> c_uid creds = 0 \/ c_uid creds = uid (attrs i))).
  { destruct (is_set (sa_mode sa)); rewrite ?check_ownership_Ok; naive_solver. }
  assert (Hs : (match size with CurrentMode => if is_set (sa_size sa) then check_access i creds Write else Ok tt | OpenedWritableFid => Ok tt end) = Ok tt <->
    (size = CurrentMode -> is_set (sa_size sa) = true -> check_access i creds Write = Ok tt)).
  { destruct size, (is_set (sa_size sa)); naive_solver. }
  rewrite Hm, Hs. split.
  - intros (? & [? ?] & Ha & Hmt & ?). split_and!; try done. intros t [<- | <-]; done.
  - intros (? & ? & ? & Ht & ?). split_and!; try done; apply Ht; auto.
Qed.

(** A caller who is not root leaves no set-user-id bit behind a change of owner or group. *)
Lemma cleared_bit m bits b : Z.land (Z.lxor U32_MAX bits) b = 0 -> has_bits (clear_bits m bits) b = false.
Proof. intros E. unfold has_bits, clear_bits. by rewrite <- Z.land_assoc, E, Z.land_0_r. Qed.
Lemma set_times_mode clock k sa b a : mode (set_times clock k sa b a) = mode a.
Proof. unfold set_times, set_time. by destruct (sa_atime sa), (sa_mtime sa), b. Qed.
Lemma set_perms_setuid strict creds sa a : c_uid creds <> 0 -> is_set (sa_uid sa) || is_set (sa_gid sa) = true ->
  has_bits (mode (set_perms strict creds sa a)) S_ISUID = false.
Proof.
  intros Hu. unfold set_perms. rewrite (proj2 (Z.eqb_neq _ _) Hu). cbn [negb].
  destruct (sa_gid sa) as [g|]; [intros _; by apply cleared_bit|]. destruct (sa_uid sa) as [u|]; [|done]. intros _. by apply cleared_bit.
Qed.
Lemma changed_setuid clock creds sa i : c_uid creds <> 0 -> is_set (sa_uid sa) || is_set (sa_gid sa) = true ->
  has_bits (mode (attrs (changed_inode clock creds sa i))) S_ISUID = false.
Proof.
  intros Hu Hs. unfold changed_inode. destruct i as [f| | | | | |]; [|rewrite attrs_with_attrs, set_times_mode; by apply set_perms_setuid..].
  destruct (size_change sa (IFile f)) as [[o n]|]; cbn [attrs f_attrs]; rewrite set_times_mode; by apply set_perms_setuid.
Qed.

(** ** What a change of attributes means, field by field *)

(** Bits of the mode: the low twelve of the requested mode, or the old ones; a caller who is
    not root loses the set-user-id bit (11) by changing owner or group, and the set-group-id
    bit (10) by changing the group, or by setting the mode of a file or directory whose group
    the caller is not in. *)
Definition lost_bit (strict : bool) (creds : Credentials) (sa : SetAttributes) (g n : Z) : bool :=
  negb (c_uid creds =? 0) &&
  ((n =? 11) && (is_set (sa_uid sa) || is_set (sa_gid sa)) ||
   (n =? 10) && (is_set (sa_gid sa) || strict && is_set (sa_mode sa) && negb (is_member_of_group creds g))).
Definition mode_bit (strict : bool) (creds : Credentials) (sa : SetAttributes) (a : Attrs) (n : Z) : bool :=
  match sa_mode sa with Set_ m => (n <? 12) && Z.testbit m n | NoChange => Z.testbit (mode a) n end &&
  negb (lost_bit strict creds sa (gid a) n).
(** A time set by the client, read from the clock, or [otherwise]. *)
Definition time_is (clock : nat -> Z * Z) (t : SetTime) (otherwise : Z * Z -> Prop) (t' : Z * Z) : Prop :=
  match t with
  | SetToClientTime t => t' = (seconds t, nanoseconds t)
  | SetToServerTime => exists k, t' = clock k
  | TimeNoChange => otherwise t'
  end.
Record attrs_changed (clock : nat -> Z * Z) (strict : bool) (creds : Credentials) (sa : SetAttributes)
    (resized touched : bool) (a a' : Attrs) : Prop := {
  ac_uid : uid a' = set_or (sa_uid sa) (uid a);
  ac_gid : gid a' = set_or (sa_gid sa) (gid a);
  ac_mode : forall n, 0 <= n < 32 -> Z.testbit (mode a') n = mode_bit strict creds sa a n;
  ac_atime : time_is clock (sa_atime sa) (fun t => t = (atime a, atime_nsec a)) (atime a', atime_nsec a');
  ac_mtime : time_is clock (sa_mtime sa)
    (fun t => if resized then exists k, t = clock k else t = (mtime a, mtime_nsec a)) (mtime a', mtime_nsec a');
  ac_ctime : if touched then exists k, (ctime a', ctime_nsec a') = clock k
             else (ctime a', ctime_nsec a') = (ctime a, ctime_nsec a) }.

(** The whole inode: files and directories are strict; only files have a size to set. *)
Definition inode_changed (clock : nat -> Z * Z) (creds : Credentials) (sa : SetAttributes) (i i' : Inode) : Prop :=
  let touched := is_set (sa_mode sa) || is_set (sa_uid sa) || is_set (sa_gid sa) || is_set_time (sa_atime sa) || is_set_time (sa_mtime sa) in
  match i with
  | IFile f => exists a', i' = IFile (mkFile (set_or (sa_size sa) (f_size f)) a' (f_parent f) (f_name f) (f_nlink f)) /\
      attrs_changed clock true creds sa (negb (set_or (sa_size sa) (f_size f) =? f_size f)) (touched || is_set (sa_size sa)) (f_attrs f) a'
  | IDirectory _ => exists a', i' = with_attrs a' i /\ attrs_changed clock true creds sa false touched (attrs i) a'
  | _ => exists a', i' = with_attrs a' i /\ attrs_changed clock false creds sa false touched (attrs i) a'
  end.

Lemma clear_bits_spec m bits n : 0 <= n < 32 -> Z.testbit (clear_bits m bits) n = Z.testbit m n && negb (Z.testbit bits n).
Proof.
  intros Hn. unfold clear_bits. change U32_MAX with (Z.ones 32). rewrite Z.land_spec, Z.lxor_spec, Z.ones_spec_low by lia. done.
Qed.
Lemma setid_testbit n : 0 <= n < 32 ->
  Z.testbit S_ISUID n = (n =? 11) /\ Z.testbit S_ISGID n = (n =? 10) /\ Z.testbit SETID_BITS n = (n =? 10) || (n =? 11).
Proof.
  intros Hn. change S_ISUID with (2 ^ 11). change S_ISGID with (2 ^ 10). change SETID_BITS with (Z.lor (2 ^ 10) (2 ^ 11)).
  rewrite Z.lor_spec, !Z.pow2_bits_eqb by lia. by rewrite !(Z.eqb_sym n).
Qed.
Lemma validate_mode_bit m n : 0 <= n -> Z.testbit (validate_mode m) n = (n <? 12) && Z.testbit m n.
Proof.
  intros Hn. unfold validate_mode. change 4095 with (Z.ones 12). rewrite Z.land_spec, andb_comm. f_equal.
  destruct (Z.ltb_spec n 12); [apply Z.ones_spec_low|apply Z.ones_spec_high]; lia.
Qed.
Lemma guarded_clear m n b : 0 <= n < 32 -> Z.testbit (if has_bits m S_ISGID && b then clear_bits m S_ISGID else m) n = Z.testbit m n && negb ((n =? 10) && b).
Proof.
  intros Hn. destruct (setid_testbit n Hn) as (_ & Hg & _). change S_ISGID with (2 ^ 10) in *. rewrite has_bits_pow by lia.
  destruct (Z.testbit m 10) eqn:E, b; cbn; rewrite ?clear_bits_spec, ?Hg, ?andb_false_r, ?andb_true_r by done; try done.
  destruct (Z.eqb_spec n 10) as [->|]; [by rewrite E|by rewrite andb_true_r].
Qed.
Lemma set_perms_meaning strict creds sa a :
  uid (set_perms strict creds sa a) = set_or (sa_uid sa) (uid a) /\ gid (set_perms strict creds sa a) = set_or (sa_gid sa) (gid a) /\
  forall n, 0 <= n < 32 -> Z.testbit (mode (set_perms strict creds sa a)) n = mode_bit strict creds sa a n.
Proof.
  unfold set_perms. set (a1 := match sa_mode sa with Set_ _ => _ | NoChange => a end).
  assert (H1 : uid a1 = uid a /\ gid a1 = gid a) by (unfold a1; by destruct (sa_mode sa)).
  assert (Hm : forall n, 0 <= n < 32 -> Z.testbit (mode a1) n =
    match sa_mode sa with Set_ m => (n <? 12) && Z.testbit m n | NoChange => Z.testbit (mode a) n end &&
    negb ((n =? 10) && (negb (c_uid creds =? 0) && strict && is_set (sa_mode sa) && negb (is_member_of_group creds (gid a))))).
  { intros n Hn. unfold a1. destruct (sa_mode sa) as [m|]; cbn [is_set mode set_mode]; [|by rewrite !andb_false_r, andb_true_r].
    rewrite <- validate_mode_bit by lia. rewrite <- guarded_clear by done. rewrite !andb_true_r.
    destruct strict, (c_uid creds =? 0), (has_bits (validate_mode m) S_ISGID), (is_member_of_group creds (gid a)); done. }
  clearbody a1. split; [|split].
  1,2: destruct H1; destruct (sa_uid sa), (sa_gid sa), (c_uid creds =? 0); done.
  intros n Hn. destruct (setid_testbit n Hn) as (Hu & _ & Hs). unfold mode_bit, lost_bit. specialize (Hm n Hn).
  generalize dependent (match sa_mode sa with Set_ m => (n <? 12) && Z.testbit m n | NoChange => Z.testbit (mode a) n end). intros base Hm.
  destruct (sa_uid sa), (sa_gid sa), (c_uid creds =? 0); cbn [negb andb orb is_set mode set_mode set_uid set_gid] in *;
    rewrite ?clear_bits_spec, ?Hm, ?Hu, ?Hs by done;
    destruct base, (n =? 10), (n =? 11), strict, (is_set (sa_mode sa)), (is_member_of_group creds (gid a)); done.
Qed.
Lemma set_times_meaning clock k sa touched a (a' := set_times clock k sa touched a) :
  uid a' = uid a /\ gid a' = gid a /\ mode a' = mode a /\
  time_is clock (sa_atime sa) (fun t => t = (atime a, atime_nsec a)) (atime a', atime_nsec a') /\
  time_is clock (sa_mtime sa) (fun t => t = (mtime a, mtime_nsec a)) (mtime a', mtime_nsec a') /\
  (if touched then exists k, (ctime a', ctime_nsec a') = clock k else (ctime a', ctime_nsec a') = (ctime a, ctime_nsec a)).
Proof.
  assert (Hk : forall n, exists k, ((clock n).1, (clock n).2) = clock k) by (intros n; exists n; by destruct (clock n)).
  unfold a', set_times, set_time. destruct (sa_atime sa), (sa_mtime sa), touched; cbn; split_and!; try done; apply Hk.
Qed.
Lemma set_perms_times strict creds sa a :
  (atime (set_perms strict creds sa a), atime_nsec (set_perms strict creds sa a)) = (atime a, atime_nsec a) /\
  (mtime (set_perms strict creds sa a), mtime_nsec (set_perms strict creds sa a)) = (mtime a, mtime_nsec a) /\
  (ctime (set_perms strict creds sa a), ctime_nsec (set_perms strict creds sa a)) = (ctime a, ctime_nsec a).
Proof. unfold set_perms. by destruct (sa_mode sa), (sa_uid sa), (sa_gid sa), (c_uid creds =? 0). Qed.
Lemma attrs_meaning clock k strict creds sa touched a :
  attrs_changed clock strict creds sa false touched a (set_times clock k sa touched (set_perms strict creds sa a)).
Proof.
  destruct (set_perms_meaning strict creds sa a) as (Hu & Hg & Hm). destruct (set_perms_times strict creds sa a) as (Ha & Hmt & Hct).
  destruct (set_times_meaning clock k sa touched (set_perms strict creds sa a)) as (Tu & Tg & Tm & Ta & Tmt & Tct).
  rewrite Ha in Ta. rewrite Hmt in Tmt. rewrite Hct in Tct. split; [by rewrite Tu|by rewrite Tg|by rewrite Tm|done..].
Qed.
Lemma changed_meaning clock creds sa i : inode_changed clock creds sa i (changed_inode clock creds sa i).
Proof.
  unfold inode_changed. destruct i as [f| | | | | |]; [|eexists; (split; [reflexivity|apply attrs_meaning])..].
  unfold changed_inode, size_change. fold (attribute_changed sa). destruct (sa_size sa) as [n|]; cbn [set_or is_set].
  2:{ eexists. split; [reflexivity|]. rewrite Z.eqb_refl. apply attrs_meaning. }
  destruct (Z.eqb_spec n (f_size f)) as [->|Hne]; [eexists; split; [reflexivity|apply attrs_meaning]|].
  eexists. split; [reflexivity|]. destruct (attrs_meaning clock 1 true creds sa (attribute_changed sa || true) (touch_mctime (clock 0%nat) (f_attrs f)))
    as [Hu Hg Hm Ha Hmt Hct]. cbn [negb]. split; [done|done|done|done| |by rewrite orb_true_r in *].
  unfold time_is in *. destruct (sa_mtime sa); [done|done|]. exists 0%nat. rewrite Hmt. cbn. by destruct (clock 0%nat).
Qed.

(** ** The operations and what they mean *)

Inductive AttrOp :=
| Setattr (creds : Credentials) (sa : SetAttributes) (size : SizeAuthorization)
| AccessTime (t : Timestamp)
| Trim (auth : AuthContext) (offset length : Z)
| Fallocate (auth : AuthContext) (offset length : Z) (mode : FallocateMode).

Definition attr_fits (op : AttrOp) : Prop :=
  match op with
  | Setattr _ sa _ => forall n, sa_size sa = Set_ n -> 0 <= n <= U64_MAX
  | AccessTime _ => True
  | Trim _ offset length | Fallocate _ offset length _ => 0 <= offset /\ 0 < length /\ offset + length <= U64_MAX + 1 - EXTENT_SIZE
  end.

Definition later (t t' : Z * Z) : Z * Z := if (t.1 <? t'.1) || ((t.1 =? t'.1) && (t.2 <? t'.2)) then t' else t.

(** From the inode [i] and the files [F] to [i'] and [F'], with the reply [a]. *)
Definition attr_spec (env : Env) (id : Z) (op : AttrOp) (F : Files) (i i' : Inode) (F' : Files) (a : option FileAttributes) : Prop :=
  match op with
  | Setattr creds sa size =>
      permitted creds sa size i /\ i' = changed_inode (e_clock env) creds sa i /\ inode_changed (e_clock env) creds sa i i' /\
      (c_uid creds <> 0 -> is_set (sa_uid sa) || is_set (sa_gid sa) = true -> has_bits (mode (attrs i')) S_ISUID = false) /\
      F' = (match size_change sa i with Some (_, n) => upd F id (vf_truncate (F id) n) | None => F end) /\
      a = Some (file_attributes i' id)
  | AccessTime t =>
      (exists f, i = IFile f) /\ F' = F /\ a = Some (file_attributes i' id) /\
      i' = with_attrs (set_atime (later (atime (attrs i), atime_nsec (attrs i)) (seconds t, nanoseconds t)) (attrs i)) i
  | Trim auth offset length =>
      (exists f, i = IFile f) /\ i' = i /\ a = None /\
      (auth_uid auth = uid (attrs i) \/ check_access i (from_auth_context auth) Write = Ok tt) /\
      F' = upd F id (vf_zero (F id) offset length)
  | Fallocate auth offset length mode =>
      exists f, i = IFile f /\
      let n := fallocate_size mode (f_size f) (offset + length) in
      i' = IFile (fallocated_file (from_auth_context auth) (e_clock env 0) n f) /\ a = Some (file_attributes i' id) /\
      F' = upd F id (vf_truncate (match mode with Allocate => F id | _ => vf_zero (F id) offset length end) n)
  end.

Section attr.
Context {S Hint : Type} `{FrameStoreLaws S Hint}.
Implicit Types (e : ExtentStore S) (v : Volume S) (F : Files).

Lemma written_positive s id ps locs : Forall2 (written s id) ps locs -> Forall (fun l => 0 < fl_byte_len l) locs.
Proof. intros Hw. eapply Forall2_Forall_r; [exact Hw|]. apply Forall_true. intros p l [Hl _]. by apply (fs_held_len _ _ _ _ _ Hl). Qed.

Lemma edits_staged s db id edits locs stop t :
  only_deletes db t -> NoDup edits.*1 -> Forall2 (written s id) (payloads edits) locs ->
  (forall x loc, extents db !! (id, x) = Some loc -> x < stop) -> stop <= U64_MAX ->
  (forall x, x ∈ edits.*1 -> extents (tx_db db t) !! (id, x) = extents db !! (id, x)) ->
  staged_txn db (stage_debits (old_debits db id edits stop) (stage_txn id edits locs t)).
Proof.
  intros ([[m Hm] Hb Hp Hi Hdb] & Hsub & Hdel) Hnd Hw Hend Hstop Hag. pose proof (Forall2_length _ _ _ Hw) as Hl.
  destruct (stage_txn_rest s id edits locs t Hw) as [Hpl Hin].
  destruct (stage_debits_rest (old_debits db id edits stop) (stage_txn id edits locs t)) as [Ho Hin'].
  split.
  - rewrite stage_debits_db, stage_txn_db, Hm. eexists. by destruct db.
  - eapply balanced_trans; [exact Hb|]. apply (stage_accounted db id (fun _ => True)); done.
  - rewrite Ho. by apply Hpl.
  - by rewrite Hin', Hin.
  - intros Hpos s'. rewrite debit_debits, debit_stage by (by apply old_debits_positive || by eapply written_positive).
    rewrite old_debits_bytes by done. rewrite (Hdel Hpos), (old_bytes_ext s' id (extents (tx_db db t))) by (intros; symmetry; by apply Hag).
    pose proof (old_bytes_live s' id edits.*1 (extents (tx_db db t)) Hnd ltac:(intros k loc Hk%Hsub; by eapply Hpos)) as Hle.
    specialize (Hb s'). change (live_delta txn_new s') with 0 in Hb. rewrite tx_db_new in Hb. lia.
Qed.

(** The extent store after a staged change: nothing is lost if the commit fails. *)
Lemma stored_evolved e e' (id : Z) : evolved (tail_invalidate id e) e' -> forall id' m f, Stored e m id' f -> Stored e' m id' f.
Proof.
  intros Hev id' m f [Hr Htl]. split; [eapply FileRep_evolved; [exact Hev|exact Hr]|].
  intros x d. rewrite (ev_tail _ _ Hev). destruct (invalidate_or e id id') as [->| ->]; [apply Htl|done].
Qed.

(** What staging a new size or a hole gives. *)
Definition staging (db : Db) e (id : Z) (f' : VFile) (out : result Fault Transaction * ExtentStore S) : Prop :=
  es_ok out.2 /\ (forall id' m f, Stored e m id' f -> Stored out.2 m id' f) /\
  match out.1 with
  | Ok t => staged_txn db t /\ becomes e (extents db) out.2 (extents (tx_db db t)) id f'
  | Err x => exists err, x = Fs err
  end.

Lemma truncate_staging h db id f n e :
  es_ok e -> fs_ready h id (es_frames e) -> Stored e (extents db) id f -> vf_size f <= U64_MAX -> 0 <= n <= U64_MAX ->
  staging db e id (vf_truncate f n) (truncate h db id (vf_size f) n txn_new e).
Proof.
  intros Hok Hr Hst Hsz Hn. pose proof (truncate_becomes h db id f n txn_new e Hok Hr Hst eq_refl Hn) as Hbec. rewrite tx_db_new in Hbec.
  destruct (Z.le_gt_cases (vf_size f) n) as [Hle|Hlt].
  { revert Hbec. unfold truncate. rewrite (proj2 (Z.leb_le _ _)) by done. cbn. intros Hbec. split; [done|]. split; [done|]. cbn.
    split; [apply new_deletes|done]. }
  assert (Hn' : 0 <= n < vf_size f) by lia.
  destruct (truncate_spec id n f Hn' (proj2 Hn) h db txn_new e Hok Hr (proj1 Hst)) as (r & e' & Hrun & Hev & Hres).
  rewrite Hrun in *. split; [apply Hev|]. split; [by eapply stored_evolved|]. cbn. destruct r as [t|x]; [|by destruct Hres as (err & -> & _); exists err].
  split; [|done]. destruct Hres as (locs & Hw & _ & ->). eapply edits_staged; [apply delete_range_deletes| |exact Hw|..].
  - unfold truncate_edits. destruct (0 <? _); [apply NoDup_singleton|constructor].
  - intros x loc. by apply (FileRep_end _ _ _ _ _ _ (proj1 Hst)).
  - apply end_u64. split; [apply (proj1 Hst)|done].
  - intros x Hx. rewrite tx_db_delete_range by done. cbn [extents with_extents]. rewrite tx_db_new, lookup_clear_range.
    rewrite decide_False; [done|]. unfold truncate_edits in Hx. destruct (0 <? _); [|by apply not_elem_of_nil in Hx].
    apply list_elem_of_singleton in Hx. cbn in Hx |- *. lia.
Qed.
Lemma zero_staging h db id f offset len e :
  es_ok e -> fs_ready h id (es_frames e) -> Stored e (extents db) id f -> vf_size f <= U64_MAX ->
  0 <= offset -> 0 <= len -> offset + len <= U64_MAX + 1 - EXTENT_SIZE ->
  staging db e id (vf_zero f offset len) (zero_range h db id offset len (vf_size f) txn_new e).
Proof.
  intros Hok Hr Hst Hsz Hoff Hlen Hmax.
  assert (Hun : untouched db txn_new id) by (intros x; by rewrite tx_db_new).
  pose proof (zero_range_becomes h db id offset len f txn_new e Hok Hr Hst Hun Hoff Hlen Hmax) as Hbec. rewrite tx_db_new in Hbec.
  destruct (decide (len = 0)) as [->|Hne].
  { revert Hbec. unfold zero_range. cbn. intros Hbec. split; [done|]. split; [done|]. cbn. split; [apply new_deletes|done]. }
  assert (Hpos : 0 < len) by lia.
  destruct (zero_range_spec id offset len f Hoff Hpos Hmax h db txn_new e Hok Hr (proj1 Hst)) as (r & e' & Hrun & Hev & edits & Hed & Hres).
  rewrite Hrun in *. split; [apply Hev|]. split; [by eapply stored_evolved|]. cbn. destruct r as [t|x]; [|by destruct Hres as (err & -> & _); exists err].
  split; [|done]. destruct Hres as (locs & Hw & _ & ->). eapply edits_staged; [apply new_deletes| |exact Hw|..].
  - eapply sublist_NoDup; [apply NoDup_seqZ|apply Hed].
  - intros x loc. by apply (FileRep_end _ _ _ _ _ _ (proj1 Hst)).
  - apply end_u64. split; [apply (proj1 Hst)|done].
  - done.
Qed.

(** ** A commit on a volume at rest *)

(** A volume at rest, apart from the quota. *)
Record resting v F : Prop := {
  ar_ns : NsState (v_fs v);
  ar_es : es_ok (v_es v);
  ar_files : files_ok (v_es v) (v_db v) F;
  ar_queue : v_queue v = [];
  ar_inflight : forall id, default [] (iw_inodes (v_inflight v) !! id) = [];
  ar_pending : pn_entries (v_pending v) = ∅;
  ar_segs : SegInv (v_fs v) }.
Lemma rest_quiescent v F : quiescent v F <-> resting v F /\ quota_ok (fs_quota (v_fs v)) (total_bytes (inodes (v_db v))) 0.
Proof. split; [intros []; split; [by split|done]|intros [[] ?]; by split]. Qed.

Lemma settled_pending us p : pn_entries p = ∅ -> pn_entries (foldl retire_inode (install us p).2 (install us p).1) = ∅.
Proof.
  intros Hp. assert (Hi : PendingInv p []).
  { split; [intros id; by rewrite Hp, lookup_empty|constructor|]. intros q Hq. by apply not_elem_of_nil in Hq. }
  destruct (install_inv us p [] Hi) as [-> Hi']. cbn [app] in Hi'. rewrite <- (app_nil_r (numbered _ _)) in Hi'.
  apply retire_inodes_inv in Hi'. apply map_eq. intros id. by rewrite (pv_entries _ _ Hi'), lookup_empty.
Qed.

Lemma written_flush ret inst o batch f : batch_written o batch f = true ->
  exists fl, process_batch ret inst o batch f = publish_batch ret inst fl batch f /\ (fl = Ok tt \/ o = Applied fl).
Proof.
  unfold batch_written, process_batch. destruct (existsb _ _); [done|]. cbn [negb andb].
  destruct o; try done; [eauto|..]; intros ->%negb_true_iff; eauto.
Qed.

Definition settle_quota (s : Settlement) (ok : bool) (q : LogicalQuota) : LogicalQuota :=
  match s with SettleQuota x => settle_finish x ok q | _ => q end.

Lemma rest_commit ret inst o t s v F F' (out := commit_wait ret inst o t s v) :
  resting v F -> id_room (v_fs v) -> (forall rs, s <> SettleWrite rs) ->
  NsInv (next_id (v_fs v)) (tx_db (v_db v) t) -> files_ok (v_es v) (tx_db (v_db v) t) F' ->
  ((exists err, out.1 = Err (Fs err)) /\ (forall fl, o <> Applied fl) /\ v_db out.2 = v_db v /\ resting out.2 F /\
   fs_quota (v_fs out.2) = settle_quota s false (fs_quota (v_fs v))) \/
  ((out.1 = Ok tt \/ exists err, o = Applied (Err err) /\ out.1 = Err (Fs err)) /\ core (v_db out.2) = core (tx_db (v_db v) t) /\
   (batch_balanced (v_fs v) [mkRequest t None s] -> resting out.2 F') /\
   fs_quota (v_fs out.2) = settle_quota s true (fs_quota (v_fs v))).
Proof.
  intros [Hns Hes Hfi Hq Hif Hpe Hsg] Hroom Hsw Hns' Hfi'. unfold out, commit_wait, submit_owned, worker_turn. clear out.
  destruct (install (tx_inodes t) (v_pending v)) as [owned p] eqn:Ei. cbn [snd v_queue v_fs v_es v_pending v_inflight]. rewrite Hq. cbn [app length take drop map foldl qc_request].
  set (batch := [mkRequest t None s]).
  assert (Hpend : pn_entries (settle_owned p (mkQueued (mkRequest t None s) owned [] [])) = ∅).
  { pose proof (settled_pending (tx_inodes t) _ Hpe) as Hsp. by rewrite Ei in Hsp. }
  pose proof (next_id_mono ret inst o batch (v_fs v) Hroom) as Hnext.
  assert (Hes' : settle_tails (batch_written o batch (v_fs v)) (v_es v) (mkQueued (mkRequest t None s) owned [] []) = v_es v)
    by (unfold settle_tails; by destruct (batch_written _ _ _)).
  rewrite Hes'. assert (Hquota : forall ok, fs_quota (settle_all batch ok (v_fs v)) = settle_quota s ok (fs_quota (v_fs v))).
  { intros ok. rewrite settle_all_quota. cbn. destruct s; try done. by destruct (Hsw quota). }
  destruct (batch_written o batch (v_fs v)) eqn:Hw.
  - right. destruct (written_flush ret inst o batch (v_fs v) Hw) as (fl & Hpub & Hfl).
    pose proof (publish_batch_state ret inst fl batch (v_fs v)) as (Hdb & Hqt & _). rewrite <- Hpub in Hdb, Hqt.
    assert (Hcore : core (fs_db (process_batch ret inst o batch (v_fs v)).2) = core (tx_db (v_db v) t)).
    { rewrite Hdb, core_merged. unfold batch_ops, batch, tx_db. cbn. by rewrite app_nil_r. }
    assert (Hreply : forall err, (process_batch ret inst o batch (v_fs v)).1 = Err err -> o = Applied (Err err)).
    { intros err He. rewrite Hpub in He. apply publish_reply in He as ->. by destruct Hfl. }
    assert (Hseg : batch_balanced (v_fs v) batch -> SegInv (process_batch ret inst o batch (v_fs v)).2) by (by apply segcounts_keep).
    destruct (process_batch ret inst o batch (v_fs v)) as [r f'] eqn:Epb. cbn [snd fst] in *. cbn [fault_of fst snd v_fs].
    split; [|split; [done|split; [|by rewrite Hqt, Hquota]]].
    + destruct r as [[]|e]; [by left|]. right. exists e. split; [by apply Hreply|done].
    + intros Hb. split; cbn [v_fs v_es v_pending v_inflight v_queue]; [|done| |done|done|done|by apply Hseg].
      * apply (ns_mono (next_id (v_fs v))); [|done]. by apply (ns_core _ (tx_db (v_db v) t)).
      * unfold core in Hcore. injection Hcore as Hin _ _ _ _ _ Hex. intros id f. unfold v_db. cbn. rewrite Hin, Hex. apply Hfi'.
  - left. pose proof (process_batch_unwritten ret inst o batch (v_fs v) Hw) as (Hdb & Hqt & _ & e & He).
    destruct (process_batch ret inst o batch (v_fs v)) as [r f'] eqn:Epb. cbn [snd fst] in *. subst r. cbn [fault_of fst snd v_fs].
    split; [by exists e|]. split; [intros fl ->; unfold batch_written, batch, invalid_request in Hw; cbn in Hw; by destruct (tx_dedup t) as [[]|]|].
    split; [unfold v_db; cbn; done|]. split; [|by rewrite Hqt, Hquota]. destruct Hsg as [Hl Hp].
    split; cbn [v_fs v_es v_pending v_inflight v_queue]; [|done| |done|done|done|split; by rewrite Hdb].
    + unfold NsState. rewrite Hdb. by eapply ns_mono.
    + unfold v_db. cbn. by rewrite Hdb.
Qed.

(** ** Saving the inode *)

(** No segment has so many live bytes that adjusting its counter could overflow. *)
Definition small v : Prop := forall s, live_of (extents (v_db v)) s <= I64_MAX / 2.

(** An inode that keeps its place, its links and its entries. *)
Definition same_place (i i' : Inode) : Prop := shape i' = shape i /\ nlink i' = nlink i /\ ecount i' = ecount i.

Lemma ns_extents nid db m : NsInv nid db -> NsInv nid (with_extents (fun _ => m) db).
Proof. intros [[] ? ? ?]. by split. Qed.

Lemma save_staged nid db id i i' t :
  NsInv nid db -> inodes db !! id = Some i -> same_place i i' -> staged_txn db t ->
  exists t', save_inode db id i' t = Ok t' /\ tx_db db t' = refreshed id i' (tx_db db t) /\ tx_segs t' = tx_segs t /\ Forall plain_op (tx_ops t').
Proof.
  intros Inv Hi (Hs & _) [[m Hm] _ Hp _ _]. unfold save_inode, refreshed.
  assert (Hplain : Forall plain_op (tx_ops (inode_save id i' t))) by (cbn; apply Forall_app; split; [done|by apply Forall_singleton]).
  destruct (parent i') as [p|] eqn:Ep; [|exists (inode_save id i' t); rewrite tx_db_save; done].
  destruct (iname i') as [n|] eqn:En; [|exists (inode_save id i' t); rewrite tx_db_save; done].
  destruct (tr_named _ _ _ (pr_tree _ _ _ _ (ns_pre _ _ Inv)) id (shape i) n) as (p' & c & Hp' & He);
    [by rewrite lookup_shapes, Hi|rewrite <- Hs; exact En|].
  assert (p' = p) as -> by (rewrite <- Hs in Hp'; cbn in Hp'; congruence).
  assert (Hent : entries (tx_db db t) !! (p, n) = Some (id, c)) by (by rewrite Hm).
  unfold update_inode_in_entry, get_entry_with_cookie. rewrite He, Hent. cbn -[push inode_save]. eexists. split; [done|].
  rewrite tx_db_push, tx_db_save. split; [done|]. split; [done|]. change (Forall plain_op (tx_ops (inode_save id i' t) ++ [PutScan p c (n, WithInode id i')])).
  apply Forall_app. split; [done|by apply Forall_singleton].
Qed.

(** The counters of the transaction fit. *)
Lemma staged_balanced v t0 t s :
  SegInv (v_fs v) -> staged_txn (v_db v) t0 -> tx_segs t = tx_segs t0 -> Forall plain_op (tx_ops t) ->
  extents (tx_db (v_db v) t) = extents (tx_db (v_db v) t0) ->
  small v -> (forall g, live_of (extents (tx_db (v_db v) t)) g <= I64_MAX / 2) ->
  batch_balanced (v_fs v) [mkRequest t None s].
Proof.
  intros Hsg [_ Hb _ _ Hd] Hseg Hpl Hex Hsm Hsm'. rewrite Forall_forall in Hpl.
  assert (Hops : batch_ops [mkRequest t None s] = tx_ops t) by (unfold batch_ops; cbn; by rewrite app_nil_r).
  assert (Hld : forall g, live_delta t g = live_delta t0 g) by (intros g; unfold live_delta; by rewrite Hseg).
  split; rewrite ?Hops.
  - apply Forall_singleton. cbn [rq_txn]. intros g. change (fs_db (v_fs v)) with (v_db v). rewrite Hld, Hex. apply Hb.
  - split; [|done]. intros r k Hr. by apply not_elem_of_nil in Hr.
  - intros g x Hin. apply (Hpl _ Hin).
  - intros g Hin. destruct (Hpl _ Hin).
  - intros id x loc Hin. apply (Hpl _ Hin).
  - intros g. assert (Hbs : batch_segs [mkRequest t None s] = tx_segs t0) by (unfold batch_segs; cbn; by rewrite app_nil_r).
    rewrite Hbs, abs_delta. specialize (Hd (si_pos _ Hsg) g). specialize (Hb g). change (live_delta txn_new g) with 0 in Hb. rewrite tx_db_new in Hb.
    specialize (Hsm g). specialize (Hsm' g). rewrite Hex in Hsm'.
    unfold v_db in *. assert (2 * (I64_MAX / 2) <= I64_MAX) by (vm_compute; done). lia.
  - intros g. specialize (Hsm' g). unfold tx_db in Hsm'. etransitivity; [exact Hsm'|]. by vm_compute.
Qed.

(** ** The commit of an attribute change *)

(** What the settlement of a commit is worth. *)
Definition charged (q : LogicalQuota) (total : Z) (s : Settlement) (delta : Z) : Prop :=
  match s with
  | SettleNone => quota_ok q total 0 /\ delta = 0
  | SettleQuota (Growth r) => r = mkReservation delta Provisional /\ 0 < delta /\ quota_ok q total delta
  | SettleQuota (Shrink b) => b = - delta /\ 0 <= b /\ quota_ok q total 0
  | _ => False
  end.
Lemma charged_settles q total s delta : charged q total s delta -> 0 <= total + delta ->
  quota_ok (settle_quota s true q) (total + delta) 0 /\ quota_ok (settle_quota s false q) total 0.
Proof.
  destruct s as [|rs|[r|b]|]; cbn [charged settle_quota]; try done.
  - intros [Hq ->] _. by rewrite Z.add_0_r.
  - intros (-> & Hd & Hq) _. split; [apply quota_ok_transfer|apply quota_ok_drop]; done || lia.
  - intros (-> & Hb & Hq) Ht. split; [|done]. destruct Hq as [Hm [Hp|(Hi & H1 & H2 & H3)]]; cbn.
    + destruct (poisoned_frozen q (- delta) Hp) as (-> & _). split; [done|]. by left.
    + unfold release_committed. rewrite Hi. cbn. destruct (Z.eqb_spec (- delta) 0) as [E|Hne].
      * split; [done|]. right. rewrite Hi. split_and!; [f_equal; lia|lia..].
      * unfold checked_sub. rewrite (proj2 (Z.leb_le _ _)) by lia. split; [done|]. right. cbn. split_and!; [f_equal; lia|lia..].
Qed.

Lemma total_insert m id i i' : m !! id = Some i ->
  total_bytes (<[id := i']> m) = total_bytes m + (inode_size (Some i') - inode_size (Some i)).
Proof. intros Hi. unfold total_bytes. rewrite (msum_insert_upd _ _ _ _ _ Hi). lia. Qed.
Lemma files_total e db F : files_ok e db F -> 0 <= total_bytes (inodes db).
Proof.
  intros Hf. apply msum_nonneg. intros id i Hi. destruct i as [f| | | | | |]; cbn; try lia.
  destruct (Hf id f Hi) as ([Hr _] & <- & _). apply Hr.
Qed.

(** The inode [id] changed from [i] to [i'], and its file with it; nothing else did. *)
Record changed (id : Z) (i i' : Inode) F' v v' : Prop := {
  ch_before : inodes (v_db v) !! id = Some i;
  ch_inodes : inodes (v_db v') = <[id := i']> (inodes (v_db v));
  ch_entries : entries (v_db v') = entries (v_db v);
  ch_cookies : cookies (v_db v') = cookies (v_db v);
  ch_orphans : orphans (v_db v') = orphans (v_db v) /\ tombstones (v_db v') = tombstones (v_db v);
  ch_rest : small v -> small v' -> quiescent v' F' }.
Definition unchanged F v v' : Prop := quiescent v' F /\ core (v_db v') = core (v_db v).

(** A transaction that changes one inode and stages its file. *)
Record attr_txn (db : Db) (nid id : Z) (i i' : Inode) (t0 t : Transaction) : Prop := {
  at_before : inodes db !! id = Some i;
  at_staged : staged_txn db t0;
  at_ns : NsInv nid (tx_db db t);
  at_fields : inodes (tx_db db t) = <[id := i']> (inodes db) /\ entries (tx_db db t) = entries db /\ cookies (tx_db db t) = cookies db /\
              orphans (tx_db db t) = orphans db /\ tombstones (tx_db db t) = tombstones db;
  at_extents : extents (tx_db db t) = extents (tx_db db t0);
  at_segs : tx_segs t = tx_segs t0;
  at_plain : Forall plain_op (tx_ops t) }.

Lemma saved_txn db nid id i i' t0 t : NsInv nid db -> inodes db !! id = Some i -> same_place i i' -> staged_txn db t0 ->
  save_inode db id i' t0 = Ok t -> attr_txn db nid id i i' t0 t.
Proof.
  intros Inv Hi Hp Ht Hs. destruct (save_staged nid db id i i' t0 Inv Hi Hp Ht) as (t' & Hs' & Hdb & Hseg & Hpl).
  rewrite Hs in Hs'. injection Hs' as <-. destruct Hp as (Hsh & Hn & He). destruct (sx_db _ _ Ht) as [m Hm].
  split; try done; rewrite Hdb, Hm.
  - apply (ns_refresh nid _ id i i'); try done. by apply ns_extents.
  - unfold refreshed. repeat case_match; done.
  - unfold refreshed. repeat case_match; done.
Qed.
Lemma unsaved_txn db nid id i t : NsInv nid db -> inodes db !! id = Some i -> staged_txn db t -> attr_txn db nid id i i t t.
Proof.
  intros Inv Hi Ht. destruct (sx_db _ _ Ht) as [m Hm]. split; try done; [| |apply Ht]; rewrite Hm.
  - by apply ns_extents.
  - cbn. by rewrite insert_id.
Qed.
Lemma attr_txn_dedup db nid id i i' t0 t op r : attr_txn db nid id i i' t0 t -> attr_txn db nid id i i' t0 (set_dedup_result op r t).
Proof. intros []. by split. Qed.

Lemma attr_commit env id i i' t0 t s v F F' (out := commit_env env t s v) :
  resting v F -> id_room (v_fs v) -> attr_txn (v_db v) (next_id (v_fs v)) id i i' t0 t -> files_ok (v_es v) (tx_db (v_db v) t) F' ->
  charged (fs_quota (v_fs v)) (total_bytes (inodes (v_db v))) s (inode_size (Some i') - inode_size (Some i)) ->
  ((exists err, out.1 = Err (Fs err)) /\ unchanged F v out.2) \/
  ((out.1 = Ok tt \/ exists err, e_outcome env = Applied (Err err) /\ out.1 = Err (Fs err)) /\ changed id i i' F' v out.2).
Proof.
  intros Hrest Hroom [Hi Ht Hns (Hin & Hen & Hco & Hor & Hto) Hex Hseg Hpl] Hfi Hch.
  assert (Htot : total_bytes (inodes (tx_db (v_db v) t)) = total_bytes (inodes (v_db v)) + (inode_size (Some i') - inode_size (Some i)))
    by (rewrite Hin; by apply total_insert).
  destruct (charged_settles _ _ _ _ Hch) as [Hok Hfail]; [rewrite <- Htot; by eapply files_total|].
  assert (Hsw : forall rs, s <> SettleWrite rs) by (intros rs ->; done).
  destruct (rest_commit OP_ID_RETENTION (e_instant env) (e_outcome env) t s v F F' Hrest Hroom Hsw Hns Hfi)
    as [(He & _ & Hdb & Hr & Hq)|(Hre & Hcore & Hr & Hq)]; unfold out, commit_env; clear out.
  - left. split; [done|]. split; [|by rewrite Hdb]. apply rest_quiescent. split; [done|]. by rewrite Hq, Hdb.
  - right. split; [done|]. unfold core in Hcore. injection Hcore as C1 C2 C3 C4 C5 C6 C7.
    split; [done|by rewrite C1|by rewrite C2|by rewrite C4|split; [by rewrite C5|by rewrite C6]|].
    intros Hsm Hsm'. apply rest_quiescent. split; [|rewrite Hq, C1, Htot; exact Hok]. apply Hr.
    eapply staged_balanced; [apply Hrest|exact Ht|done|done|done|done|]. intros g. rewrite <- C7. apply Hsm'.
Qed.

(** ** Running an operation *)

Definition runs {A} (m : VM S A) (Q : result Fault A -> Volume S -> Prop) v : Prop := Q (m v).1 (m v).2.

Lemma runs_bind {A B} (m : VM S A) (k : A -> VM S B) Q v :
  runs m (fun r v' => match r with Ok a => runs (k a) Q v' | Err x => Q (Err x) v' end) v -> runs (m ≫= k) Q v.
Proof. unfold runs, mbind, stM_bind. by destruct (m v) as [[a|x] v']. Qed.
Lemma runs_pure {A B} (r : result FsError A) (k : A -> VM S B) Q v :
  (forall err, r = Err err -> Q (Err (Fs err)) v) -> (forall a, r = Ok a -> runs (k a) Q v) -> runs (pureV r ≫= k) Q v.
Proof. intros He Ho. apply runs_bind. destruct r as [a|err]; [exact (Ho a eq_refl)|exact (He err eq_refl)]. Qed.
Lemma runs_gets {A B} (g : Volume S -> A) (k : A -> VM S B) Q v : runs (k (g v)) Q v -> runs (getsV g ≫= k) Q v.
Proof. done. Qed.
Lemma runs_conseq {A} (m : VM S A) Q Q' v : runs m Q v -> (forall r v', Q r v' -> Q' r v') -> runs m Q' v.
Proof. unfold runs. auto. Qed.

Lemma runs_replaying {A} env op (extract : DedupResult -> option A) (k : VM S A) Q v :
  (forall f', inert (v_fs v) f' -> Q (Err (Fs InvalidArgument)) (set_v_fs f' v)) ->
  (forall a f', inert (v_fs v) f' -> recorded extract op (v_fs v) a -> Q (Ok a) (set_v_fs f' v)) ->
  (forall f', inert (v_fs v) f' -> runs k Q (set_v_fs f' v)) ->
  runs (replayingV env op extract k) Q v.
Proof.
  intros He Hr Hk. unfold replayingV. apply runs_bind. unfold runs, onFS.
  pose proof (wp_replay env op extract (fun r f' => match fault_of r with
    | Ok (Some a) => Q (Ok a) (set_v_fs f' v) | Ok None => runs k Q (set_v_fs f' v) | Err x => Q (Err x) (set_v_fs f' v) end) (v_fs v)) as Hw.
  unfold wp in Hw. destruct (replay_dedup_result env op extract (v_fs v)) as [r f']. cbn in Hw |- *.
  destruct r as [[a|]|err]; cbn in Hw |- *; apply Hw; intros r f1 Hi [->|[[-> _]|(b & -> & Hb & _)]]; cbn; eauto.
Qed.

(** The outcome of an attribute change: an error, or the replay of a result the ledger had,
    that changed nothing; or a change that [P] describes. *)
Definition attr_post {A} env ext op (F : Files) (id : Z) (P : Inode -> Inode -> Files -> A -> Prop) v (r : result Fault A) v' : Prop :=
  (unchanged F v v' /\ r <> Err Panic /\ (forall a : A, r = Ok a -> recorded ext op (v_fs v) a)) \/
  exists i i' F' a, P i i' F' a /\ changed id i i' F' v v' /\ (r = Ok a \/ exists err, e_outcome env = Applied (Err err) /\ r = Err (Fs err)).

Lemma quiescent_inert v F f' : inert (v_fs v) f' -> quiescent v F -> quiescent (set_v_fs f' v) F.
Proof.
  intros Hi [Hns Hes Hfi Hq Hif Hpe Hqt [Hl Hp]]. pose proof (inert_ns _ _ Hi Hns) as Hns'. destruct Hi as (Hdb & _ & _ & _ & Hqu & _).
  split; try assumption; unfold v_db; cbn; rewrite ?Hdb, ?Hqu; try assumption. split; by rewrite Hdb.
Qed.
Lemma post_err {A} env ext op F id (P : Inode -> Inode -> Files -> A -> Prop) v err v' :
  unchanged F v v' -> attr_post env ext op F id P v (Err (Fs err)) v'.
Proof. intros Hu. by left. Qed.
Lemma post_inert {A} env ext op F id (P : Inode -> Inode -> Files -> A -> Prop) v f' r v' :
  inert (v_fs v) f' -> attr_post env ext op F id P (set_v_fs f' v) r v' -> attr_post env ext op F id P v r v'.
Proof.
  intros Hin. pose proof Hin as (Hdb & _). assert (Hv : v_db (set_v_fs f' v) = v_db v) by (unfold v_db; cbn; done).
  intros [([Hq Hc] & Hpa & Hr)|(i & i' & F' & a & Hp & [] & Hr)]; [left|right].
  - split; [split; [done|by rewrite <- Hv]|]. split; [done|]. intros a Ha. eapply recorded_inert; [exact Hin|]. exact (Hr a Ha).
  - exists i, i', F', a. split; [done|]. split; [|done]. rewrite Hv in *. split; try assumption. intros Hs. apply ch_rest0. unfold small. by rewrite Hv.
Qed.
Lemma post_replaying {A} env op ext F id P v (k : VM S A) :
  quiescent v F -> id_room (v_fs v) ->
  (forall v1, quiescent v1 F -> id_room (v_fs v1) -> v_db v1 = v_db v -> v_es v1 = v_es v -> runs k (attr_post env ext op F id P v1) v1) ->
  runs (replayingV env op ext k) (attr_post env ext op F id P v) v.
Proof.
  intros Hq Hroom Hk. apply runs_replaying.
  - intros f' Hi. apply post_err. split; [by apply quiescent_inert|]. unfold v_db. cbn. by rewrite (proj1 Hi).
  - intros a f' Hi Ho. left. split; [|split; [done|by intros ? [= <-]]]. split; [by apply quiescent_inert|]. unfold v_db. cbn. by rewrite (proj1 Hi).
  - intros f' Hi. eapply runs_conseq; [apply Hk|intros r v'; by apply post_inert].
    + by apply quiescent_inert.
    + by eapply inert_room.
    + unfold v_db. cbn. by rewrite (proj1 Hi).
    + done.
Qed.

(** ** Stage and commit *)

(** What staging the data of a change to [i'] must give, for the files [F'] after it. *)
Definition data_ok (db : Db) e (id : Z) (i' : Inode) (F' : Files) (out : result Fault Transaction * ExtentStore S) : Prop :=
  es_ok out.2 /\ (forall id' m f, Stored e m id' f -> Stored out.2 m id' f) /\
  match out.1 with
  | Ok t => staged_txn db t /\ forall id' f0, <[id := i']> (inodes db) !! id' = Some (IFile f0) ->
      Stored out.2 (extents (tx_db db t)) id' (F' id') /\ vf_size (F' id') = f_size f0 /\ f_size f0 <= U64_MAX
  | Err x => exists err, x = Fs err
  end.

Lemma staging_data db e F id f f' g out :
  files_ok e db F -> inodes db !! id = Some (IFile f) -> vf_size g = f_size f' -> f_size f' <= U64_MAX ->
  staging db e id g out -> data_ok db e id (IFile f') (upd F id g) out.
Proof.
  intros Hf Hi Hs Hu (He & Hk & Hr). split; [done|]. split; [done|]. destruct out.1 as [t|x]; [|done]. destruct Hr as [Ht [_ Hfile Hother]].
  split; [done|]. intros id' f0 [[<- [= <-]]|[Hne Hi']]%lookup_insert_Some; [by rewrite upd_eq|].
  rewrite upd_ne by done. destruct (Hf id' f0 Hi') as (Hst & ? & ?). split; [|done]. by apply Hother.
Qed.
Lemma no_data db e F id i i' :
  es_ok e -> files_ok e db F -> inodes db !! id = Some i ->
  match i' with IFile f' => exists f, i = IFile f /\ f_size f' = f_size f | _ => True end -> data_ok db e id i' F (Ok txn_new, e).
Proof.
  intros He Hf Hi Hi'. split; [done|]. split; [done|]. cbn. split; [apply new_deletes|].
  intros id' f0 [[<- ->]|[_ Hx]]%lookup_insert_Some; [|by apply Hf]. destruct Hi' as (f & -> & ->). by apply Hf.
Qed.

Definition stage_with env (data : Db -> Transaction -> VM S Transaction) (finish : Db -> Transaction -> result FsError Transaction)
    (post : Transaction -> Transaction) : VM S Transaction :=
  t ← pureV (new_transaction env);
  db ← getsV v_db;
  t ← data db t;
  t ← pureV (finish db t);
  mret (post t).

Lemma resting_es v F e' : resting v F -> es_ok e' -> (forall id' m f, Stored (v_es v) m id' f -> Stored e' m id' f) -> resting (set_v_es e' v) F.
Proof.
  intros [] He Hk. split; try assumption. intros id f Hi. destruct (ar_files0 id f Hi) as (? & ? & ?). split; [by apply Hk|done].
Qed.
Lemma resting_quota v F q : resting v F -> resting (set_v_fs (set_fs_quota q (v_fs v)) v) F.
Proof. intros [? ? ? ? ? ? []]. by split. Qed.
Lemma unchanged_quota v v1 F : v_db v1 = v_db v -> resting v1 F -> quota_ok (fs_quota (v_fs v1)) (total_bytes (inodes (v_db v))) 0 -> unchanged F v v1.
Proof. intros Hdb Hr Hq. split; [|by rewrite Hdb]. apply rest_quiescent. by rewrite Hdb. Qed.

Lemma changed_db id i i' F' v v0 v' : v_db v = v_db v0 -> changed id i i' F' v v' -> changed id i i' F' v0 v'.
Proof. intros Hdb []. rewrite Hdb in *. split; try assumption. intros Hs. apply ch_rest0. unfold small. by rewrite Hdb. Qed.

(** [v] is the volume with the growth reserved. *)
Lemma change_ok {A} env ext op id i i' data finish post growth s F F' (a : A) (P : Inode -> Inode -> Files -> A -> Prop) v0 v :
  v_db v = v_db v0 -> v_es v = v_es v0 -> resting v F -> id_room (v_fs v) -> inodes (v_db v) !! id = Some i ->
  (exists out, data (v_db v) txn_new v = (out.1, set_v_es out.2 v) /\ data_ok (v_db v) (v_es v) id i' F' out) ->
  (forall t0, staged_txn (v_db v) t0 -> exists t, finish (v_db v) t0 = Ok t /\ attr_txn (v_db v) (next_id (v_fs v)) id i i' t0 t) ->
  (forall t0 t, attr_txn (v_db v) (next_id (v_fs v)) id i i' t0 t -> attr_txn (v_db v) (next_id (v_fs v)) id i i' t0 (post t)) ->
  charged (fs_quota (v_fs v)) (total_bytes (inodes (v_db v))) s (inode_size (Some i') - inode_size (Some i)) ->
  quota_ok (fs_quota (v_fs (drop_growth growth v))) (total_bytes (inodes (v_db v))) 0 -> P i i' F' a ->
  runs (t ← dropping (drop_growth growth) (stage_with env data finish post); _ ← commit_env env t s; mret a) (attr_post env ext op F id P v0) v.
Proof.
  intros Hdb Hes Hrest Hroom Hi (out & Hdata & He & Hk & Hout) Hfin Hpost Hch Hdrop HP. apply runs_bind. unfold runs, dropping, stage_with.
  rewrite pureV_bind. unfold new_transaction.
  assert (Hbail : forall e' err, es_ok e' -> (forall id' m f, Stored (v_es v) m id' f -> Stored e' m id' f) ->
    attr_post env ext op F id P v0 (Err (Fs err)) (drop_growth growth (set_v_es e' v))).
  { intros e' err He' Hk'. apply post_err, unchanged_quota; [by destruct growth| |rewrite <- Hdb; by destruct growth].
    pose proof (resting_es v F e' Hrest He' Hk') as Hr. destruct growth; [|done]. by apply resting_quota. }
  destruct (e_read_only env).
  { cbn [fst snd]. replace v with (set_v_es (v_es v) v) by (by destruct v). by apply Hbail; [apply Hrest|]. }
  rewrite getsV_bind, bindV, Hdata. destruct out as [[t0|x] e']; cbn [fst snd] in *; [|destruct Hout as [err ->]; by apply Hbail].
  destruct Hout as [Ht0 Hfiles]. destruct (Hfin t0 Ht0) as (t & Hft & Hat%Hpost). rewrite pureV_bind, Hft. cbn [mret stM_ret fst snd].
  assert (Hrest' : resting (set_v_es e' v) F) by (by apply resting_es).
  assert (Hfi : files_ok (v_es (set_v_es e' v)) (tx_db (v_db (set_v_es e' v)) (post t)) F').
  { intros id' f0. change (tx_db (v_db (set_v_es e' v)) (post t)) with (tx_db (v_db v) (post t)).
    rewrite (proj1 (at_fields _ _ _ _ _ _ _ Hat)), (at_extents _ _ _ _ _ _ _ Hat). apply Hfiles. }
  pose proof (attr_commit env id i i' t0 (post t) s (set_v_es e' v) F F' Hrest' Hroom Hat Hfi Hch) as Hc.
  cbv zeta in Hc. apply runs_bind. unfold runs. destruct (commit_env env (post t) s (set_v_es e' v)) as [rc v'].
  cbn [fst snd] in *. destruct Hc as [([err ->] & [Hq Hco])|(Hre & Hchg)].
  - apply post_err. split; [done|]. rewrite Hco. unfold v_db in *. cbn. by rewrite Hdb.
  - destruct Hre as [->|(err & Ho & ->)]; cbn; right; exists i, i', F', a; (split; [done|]).
    + split; [by apply (changed_db _ _ _ _ (set_v_es e' v))|by left].
    + split; [by apply (changed_db _ _ _ _ (set_v_es e' v))|right; eauto].
Qed.

(** ** Reserving growth *)

Definition reserved (g : option Reservation) (q : LogicalQuota) (total o n : Z) : Prop :=
  match g with
  | Some r => o < n /\ r = mkReservation (n - o) Provisional /\ quota_ok q total (n - o)
  | None => n <= o /\ quota_ok q total 0
  end.
Lemma runs_reserve {A} o n (k : option Reservation -> VM S A) Q v F :
  quiescent v F ->
  (forall err v1, unchanged F v v1 -> Q (Err (Fs err)) v1) ->
  (forall g v1, v_db v1 = v_db v -> v_es v1 = v_es v -> next_id (v_fs v1) = next_id (v_fs v) -> resting v1 F ->
     reserved g (fs_quota (v_fs v1)) (total_bytes (inodes (v_db v))) o n -> runs (k g) Q v1) ->
  runs (reserve_growth o n ≫= k) Q v.
Proof.
  intros [Hrest Hq]%rest_quiescent He Hk. unfold reserve_growth. destruct (Z.ltb_spec o n) as [Hlt|Hge]; [|by apply Hk].
  apply runs_bind. unfold runs. rewrite onFS_bind. unfold reserveM.
  pose proof (quota_ok_reserve _ _ _ (n - o) Hq ltac:(lia)) as Hres. destruct (reserve (n - o) (fs_quota (v_fs v))) as [[r|err] q].
  - destruct Hres as [-> Hq']. cbn. apply Hk; [reflexivity..|by apply resting_quota|by split_and!].
  - cbn. apply He, unchanged_quota; [done| |done]. by apply resting_quota.
Qed.
Lemma reserved_drop g v total o n : reserved g (fs_quota (v_fs v)) total o n -> quota_ok (fs_quota (v_fs (drop_growth g v))) total 0.
Proof. destruct g as [r|]; cbn; [|tauto]. intros (Hlt & -> & Hq). apply quota_ok_drop; [done|lia..]. Qed.

(** The visible inode of a volume at rest is the stored one. *)
Lemma rest_visible v F id : quiescent v F -> visible_inode v id = inode_get (v_db v) id.
Proof. intros Hq. unfold visible_inode, pending_get. by rewrite (qs_pending _ _ Hq), lookup_empty. Qed.
Lemma rest_inode {A} v F id (k : Inode -> VM S A) Q :
  quiescent v F -> (forall err, Q (Err (Fs err)) v) -> (forall i, inodes (v_db v) !! id = Some i -> runs (k i) Q v) ->
  runs (i ← getsV (fun v => visible_inode v id); inode ← pureV i; k inode) Q v.
Proof.
  intros Hq He Hk. apply runs_gets. rewrite (rest_visible _ _ _ Hq). unfold inode_get. apply runs_pure; [auto|].
  destruct (inodes (v_db v) !! id) as [i|]; cbn; intros a; [|done]. intros [= ->]. by apply Hk.
Qed.

(** ** The operations *)

Definition attr_run env h (id : Z) (op_id : OpId) (op : AttrOp) : VM S (option FileAttributes) :=
  match op with
  | Setattr creds sa size => a ← setattr_idempotent_inner env h creds id sa op_id size; mret (Some a)
  | AccessTime t => a ← record_access_time_idempotent env id t op_id; mret (Some a)
  | Trim auth offset length => _ ← trim env h auth id offset length; mret None
  | Fallocate auth offset length mode => a ← fallocate_idempotent_inner env h auth id offset length mode op_id; mret (Some a)
  end.

(** The reply of a recorded result. *)
Definition attr_reply (op : AttrOp) (r : DedupResult) : option (option FileAttributes) :=
  match op with
  | Setattr _ _ _ | AccessTime _ => Some <$> into_setattr r
  | Trim _ _ _ => None
  | Fallocate _ _ _ _ => Some <$> into_fallocate r
  end.

Lemma post_some {A B} env ext op F id (P : Inode -> Inode -> Files -> A -> Prop) (Q : Inode -> Inode -> Files -> B -> Prop) (g : A -> B) (m : VM S A) v :
  runs m (attr_post env ext op F id P v) v -> (forall i i' F' a, P i i' F' a -> Q i i' F' (g a)) -> runs (a ← m; mret (g a)) (attr_post env (fun r => g <$> ext r) op F id Q v) v.
Proof.
  intros Hm HPQ. apply runs_bind. eapply runs_conseq; [exact Hm|]. intros r v' [(Hu & Hp & Hr)|(i & i' & F' & a & HP & Hc & Hr)].
  - destruct r as [a|x]; left; (split; [done|]).
    + split; [done|]. intros b [= <-]. destruct (Hr a eq_refl) as (Ho & e & He & Hx). split; [done|]. exists e. by rewrite Hx.
    + split; [intros [= ->]; by apply Hp|done].
  - destruct Hr as [->|(err & Ho & ->)]; right; exists i, i', F', (g a); (split; [by apply HPQ|split; [done|]]); [by left|right; by exists err].
Qed.

(** [setattr]. *)
Lemma changed_place clock creds sa i : same_place i (changed_inode clock creds sa i).
Proof.
  destruct i as [f| | | | | |]; try done. unfold changed_inode. by destruct (size_change sa (IFile f)) as [[o n]|].
Qed.
Lemma changed_size clock creds sa i :
  inode_size (Some (changed_inode clock creds sa i)) - inode_size (Some i) = match size_change sa i with Some (o, n) => n - o | None => 0 end.
Proof.
  destruct i as [f| | | | | |]; try (cbn; lia). unfold changed_inode. unfold size_change. destruct (sa_size sa) as [n|]; cbn; [|lia].
  destruct (Z.eqb_spec n (f_size f)); cbn; lia.
Qed.

Lemma saving v F id i i' v3 :
  quiescent v F -> inodes (v_db v) !! id = Some i -> same_place i i' -> v_db v3 = v_db v -> next_id (v_fs v3) = next_id (v_fs v) ->
  forall t0, staged_txn (v_db v3) t0 -> exists t, save_inode (v_db v3) id i' t0 = Ok t /\ attr_txn (v_db v3) (next_id (v_fs v3)) id i i' t0 t.
Proof.
  intros Hq Hi Hp Hdb Hnx t0 Ht0. rewrite Hdb in Ht0 |- *. rewrite Hnx. pose proof (qs_ns _ _ Hq) as Inv.
  destruct (save_staged (next_id (v_fs v)) (v_db v) id i i' t0 Inv Hi Hp Ht0) as (t & Hs & _). exists t. split; [done|]. by eapply saved_txn.
Qed.

Lemma setattr_ok env h creds id sa op_id size v F :
  quiescent v F -> id_room (v_fs v) -> fs_ready h id (es_frames (v_es v)) -> attr_fits (Setattr creds sa size) ->
  runs (setattr_idempotent_inner env h creds id sa op_id size)
    (attr_post env into_setattr op_id F id (fun i i' F' a => attr_spec env id (Setattr creds sa size) F i i' F' (Some a)) v) v.
Proof.
  intros Hq Hroom Hr Hfit. apply post_replaying; [done|done|]. intros v1 Hq1 Hroom1 _ He1.
  apply runs_pure; [intros; by apply post_err|intros [] _]. apply post_replaying; [done|done|]. intros v2 Hq2 Hroom2 _ He2.
  apply (rest_inode v2 F); [done|intros; by apply post_err|]. intros i Hi.
  apply runs_pure; [intros; by apply post_err|]. intros [] Hauth%authorise_permits. cbv beta zeta.
  set (i' := changed_inode (e_clock env) creds sa i).
  assert (Hstage : forall change, stage_setattr env h op_id id change i' =
    stage_with env (fun db t => match change with Some (o, n) => onES (truncate h db id o n t) | None => mret t end)
      (fun db t => save_inode db id i' t) (set_dedup_result op_id (DSetattr (file_attributes i' id)))) by done.
  pose proof (changed_size (e_clock env) creds sa i) as Hsize. fold i' in Hsize. pose proof (qs_files _ _ Hq2) as Hfiles.
  assert (Hspec : forall F', F' = match size_change sa i with Some (_, n) => upd F id (vf_truncate (F id) n) | None => F end ->
    attr_spec env id (Setattr creds sa size) F i i' F' (Some (file_attributes i' id))).
  { intros F' ->. split_and!; try done; [apply changed_meaning|apply changed_setuid]. }
  destruct (size_change sa i) as [[o n]|] eqn:Hsc.
  - apply runs_reserve with F; [done|intros; by apply post_err|]. intros g v3 Hdb3 Hes3 Hnx Hrest3 Hres. rewrite Hstage.
    assert (Hf : exists f, i = IFile f /\ o = f_size f /\ n <> o /\ sa_size sa = Set_ n).
    { unfold size_change in Hsc. destruct i as [f| | | | | |]; try done. destruct (sa_size sa) as [m|]; [|done].
      destruct (Z.eqb_spec m (f_size f)); [done|]. injection Hsc as <- <-. by exists f. }
    destruct Hf as (f & -> & -> & Hne & Hsz). destruct (Hfiles id f Hi) as (Hst & Hvs & Hu).
    eapply (change_ok env into_setattr op_id id (IFile f) i' _ _ _ g _ F (upd F id (vf_truncate (F id) n))); try done.
    + unfold id_room. by rewrite Hnx.
    + by rewrite Hdb3.
    + exists (truncate h (v_db v3) id (f_size f) n txn_new (v_es v3)). split; [unfold onES; by destruct (truncate _ _ _ _ _ _ _)|].
      assert (Hi' : exists f', i' = IFile f' /\ f_size f' = n) by (unfold i', changed_inode; rewrite Hsc; eauto).
      destruct Hi' as (f' & -> & Hn). rewrite Hdb3, Hes3. apply (staging_data _ _ _ _ f); [done|done|by rewrite Hn|rewrite Hn; by apply Hfit|].
      rewrite <- Hvs. apply truncate_staging; [apply Hq2|by rewrite He2, He1|done|lia|by apply Hfit].
    + intros t0 Ht0. eapply (saving v2 F); try done. apply changed_place.
    + intros t0 t. apply attr_txn_dedup.
    + rewrite Hdb3, Hsize. destruct g as [r|]; cbn in Hres |- *; [|split_and!; [lia|lia|tauto]]. destruct Hres as (? & -> & ?). split_and!; [done|lia|done].
    + rewrite Hdb3. by eapply reserved_drop.
    + by apply Hspec.
  - apply runs_bind. unfold runs at 1. cbn [mret stM_ret fst snd]. rewrite Hstage. destruct (proj1 (rest_quiescent _ _) Hq2) as [Hrest Hqt].
    eapply (change_ok env into_setattr op_id id i i' _ _ _ None _ F F); try done.
    + exists (Ok txn_new, v_es v2). split; [by destruct v2|]. apply (no_data _ _ _ _ i); [apply Hq2|done|done|].
      unfold i', changed_inode. destruct i as [f| | | | | |]; try done. rewrite Hsc. cbn. by exists f.
    + intros t0 Ht0. eapply (saving v2 F); try done. apply changed_place.
    + intros t0 t. apply attr_txn_dedup.
    + by apply Hspec.
Qed.

(** [record_access_time]. *)
Lemma access_time_ok env id t op_id v F :
  quiescent v F -> id_room (v_fs v) ->
  runs (record_access_time_idempotent env id t op_id)
    (attr_post env into_setattr op_id F id (fun i i' F' a => attr_spec env id (AccessTime t) F i i' F' (Some a)) v) v.
Proof.
  intros Hq Hroom. apply post_replaying; [done|done|]. intros v1 Hq1 Hroom1 _ _.
  apply post_replaying; [done|done|]. intros v2 Hq2 Hroom2 _ _. apply (rest_inode v2 F); [done|intros; by apply post_err|]. intros i Hi.
  destruct i as [f| | | | | |]; try (by apply post_err). cbv beta zeta. set (b := _ || _).
  set (i' := if b then with_attrs (set_atime (seconds t, nanoseconds t) (f_attrs f)) (IFile f) else IFile f).
  destruct (proj1 (rest_quiescent _ _) Hq2) as [Hrest Hqt].
  assert (Hp : same_place (IFile f) i') by (unfold i'; by destruct b).
  assert (Hs : attr_spec env id (AccessTime t) F (IFile f) i' F (Some (file_attributes i' id))).
  { split; [by exists f|]. split; [done|]. split; [done|]. unfold i', later. cbn [fst snd attrs]. fold b. destruct b; [done|].
    destruct f as [sz a p n l]. cbn. by destruct a. }
  pose proof (change_ok env into_setattr op_id id (IFile f) i' (fun _ t => mret t : VM S Transaction)
    (fun db t => if b then save_inode db id i' t else Ok t) (set_dedup_result op_id (DSetattr (file_attributes i' id))) None SettleNone F F (file_attributes i' id)
    (fun i i' F' a => attr_spec env id (AccessTime t) F i i' F' (Some a)) v2 v2) as Hc.
  match goal with |- runs ?m _ _ => assert (Heq : m v2 = (t ← dropping (drop_growth None) (stage_with env (fun _ t => mret t : VM S Transaction)
    (fun db t => if b then save_inode db id i' t else Ok t) (set_dedup_result op_id (DSetattr (file_attributes i' id)))); _ ← commit_env env t SettleNone; mret (file_attributes i' id)) v2) end.
  { unfold stage_with, dropping, mbind, stM_bind, pureV, getsV, mret, stM_ret, new_transaction. destruct (e_read_only env); [done|]. cbn [fault_of].
    destruct b; [|done]. by destruct (save_inode _ _ _ _). }
  unfold runs. rewrite Heq. apply Hc; try done.
  - exists (Ok txn_new, v_es v2). split; [by destruct v2|]. apply (no_data _ _ _ _ (IFile f)); [apply Hq2|apply Hq2|done|].
    unfold i'. destruct b; by exists f.
  - intros t0 Ht0. destruct b eqn:Eb; [by eapply (saving v2 F)|]. exists t0. split; [done|]. apply unsaved_txn; [apply Hq2|done|done].
  - intros t1 t2. apply attr_txn_dedup.
  - split; [done|]. unfold i'. destruct b; cbn; lia.
Qed.

(** [trim]. *)
Lemma trim_ok env h auth id offset length op_id v F :
  quiescent v F -> id_room (v_fs v) -> fs_ready h id (es_frames (v_es v)) -> attr_fits (Trim auth offset length) ->
  runs (trim env h auth id offset length) (attr_post env (fun _ => None) op_id F id (fun i i' F' _ => attr_spec env id (Trim auth offset length) F i i' F' None) v) v.
Proof.
  intros Hq Hroom Hr (Hoff & Hlen & Hmax). unfold trim. rewrite (proj2 (Z.eqb_neq _ _)) by lia. apply runs_pure; [intros; by apply post_err|intros [] _].
  apply (rest_inode v F); [done|intros; by apply post_err|]. intros i Hi. destruct i as [f| | | | | |]; try (by apply post_err). cbv beta zeta.
  apply runs_pure; [intros; by apply post_err|]. intros [] Hauth. apply runs_pure; [intros; by apply post_err|]. intros _ _.
  destruct (proj1 (rest_quiescent _ _) Hq) as [Hrest Hqt]. destruct (qs_files _ _ Hq id f Hi) as (Hst & Hvs & Hu).
  match goal with |- runs ?m _ _ => assert (Heq : m v = (t ← dropping (drop_growth None) (stage_with env (fun db t => onES (zero_range h db id offset length (f_size f) t))
    (fun _ t => Ok t) (fun t => t)); _ ← commit_env env t SettleNone; mret tt) v) end.
  { unfold stage_with, dropping, mbind, stM_bind, pureV, getsV, mret, stM_ret, new_transaction. destruct (e_read_only env); [done|]. cbn [fault_of].
    destruct (onES _ v) as [[t|x] v1]; [|done]. by destruct (commit_env env t SettleNone v1) as [[[]|] v2]. }
  unfold runs. rewrite Heq. apply (change_ok env (fun _ => None) op_id id (IFile f) (IFile f) _ _ _ None SettleNone F (upd F id (vf_zero (F id) offset length)) tt); try done.
  - exists (zero_range h (v_db v) id offset length (f_size f) txn_new (v_es v)). split; [unfold onES; by destruct (zero_range _ _ _ _ _ _ _ _)|].
    apply (staging_data _ _ _ _ f); [apply Hq|done|done|done|]. rewrite <- Hvs. apply zero_staging; try done; [apply Hq|lia..].
  - intros t0 Ht0. exists t0. split; [done|]. apply unsaved_txn; [apply Hq|done|done].
  - split; [done|lia].
  - split; [by exists f|]. split; [done|]. split; [done|]. split; [|done]. cbn [from_auth_context c_uid attrs] in *.
    destruct (Z.eqb_spec (auth_uid auth) (uid (f_attrs f))); [by left|by right].
Qed.

(** [fallocate]. *)
Lemma staging_ext db e id g g' out : vf_size g' = vf_size g -> (forall o, vf_byte g' o = vf_byte g o) -> staging db e id g out -> staging db e id g' out.
Proof.
  intros Hs Hb (He & Hk & Hr). split; [done|]. split; [done|]. destruct out.1 as [t|x]; [|done]. destruct Hr as [Ht [? Hf ?]]. split; [done|].
  split; try assumption. by apply (Stored_ext _ _ _ g).
Qed.
Lemma staging_resize db e id g n out : vf_size g <= n -> staging db e id g out -> staging db e id (vf_truncate g n) out.
Proof.
  intros Hn (He & Hk & Hr). split; [done|]. split; [done|]. destruct out.1 as [t|x]; [|done]. destruct Hr as [Ht [? [Hf Htl] ?]]. split; [done|].
  split; try assumption. split; [by apply FileRep_resize|]. apply TailRep_resize; [apply Hf|done|done].
Qed.
Lemma no_staging db e id f : es_ok e -> Stored e (extents db) id f -> staging db e id f (Ok txn_new, e).
Proof. intros He Hs. split; [done|]. split; [done|]. cbn. split; [apply new_deletes|]. by split. Qed.
Lemma zero_beyond db e id f offset length out : Stored e (extents db) id f -> 0 < length -> offset < vf_size f ->
  staging db e id (vf_zero f offset (Z.min (offset + length) (vf_size f) - offset)) out -> staging db e id (vf_zero f offset length) out.
Proof.
  intros [Hr _] Hlen Hoff. apply staging_ext; [done|]. intros o. cbn. destruct (Z.leb_spec offset o); cbn; [|done].
  destruct (Z.ltb_spec o (offset + length)), (Z.ltb_spec o (offset + (Z.min (offset + length) (vf_size f) - offset))); try done; [|lia].
  symmetry. apply (fr_zero _ _ _ _ Hr). lia.
Qed.
Lemma zero_outside db e id f offset length : es_ok e -> Stored e (extents db) id f -> vf_size f <= offset ->
  staging db e id (vf_zero f offset length) (Ok txn_new, e).
Proof.
  intros He Hs Hoff. apply (staging_ext _ _ _ f); [done| |by apply no_staging]. intros o. cbn. destruct (Z.leb_spec offset o); cbn; [|done].
  destruct (o <? offset + length); [|done]. symmetry. apply (fr_zero _ _ _ _ (proj1 Hs)). lia.
Qed.
Lemma fallocate_data h db e id f offset length (mode : FallocateMode) (zeroes := match mode with Allocate => false | _ => true end) :
  es_ok e -> fs_ready h id (es_frames e) -> Stored e (extents db) id f -> vf_size f <= U64_MAX ->
  0 <= offset -> 0 < length -> offset + length <= U64_MAX + 1 - EXTENT_SIZE ->
  staging db e id (match mode with Allocate => f | _ => vf_zero f offset length end)
    (if zeroes && (offset <? vf_size f) then zero_range h db id offset (Z.min (offset + length) (vf_size f) - offset) (vf_size f) txn_new e else (Ok txn_new, e)).
Proof.
  intros He Hr Hs Hu Hoff Hlen Hmax.
  assert (Hz : staging db e id (vf_zero f offset length)
    (if offset <? vf_size f then zero_range h db id offset (Z.min (offset + length) (vf_size f) - offset) (vf_size f) txn_new e else (Ok txn_new, e))).
  { destruct (Z.ltb_spec offset (vf_size f)); [|by apply zero_outside]. apply zero_beyond; [done|done|done|]. apply zero_staging; try done; lia. }
  destruct mode; cbn; [by apply no_staging|exact Hz..].
Qed.
Lemma fallocate_ok env h auth id offset length mode op_id v F :
  quiescent v F -> id_room (v_fs v) -> fs_ready h id (es_frames (v_es v)) -> attr_fits (Fallocate auth offset length mode) ->
  runs (fallocate_idempotent_inner env h auth id offset length mode op_id)
    (attr_post env into_fallocate op_id F id (fun i i' F' a => attr_spec env id (Fallocate auth offset length mode) F i i' F' (Some a)) v) v.
Proof.
  intros Hq Hroom Hr (Hoff & Hlen & Hmax). apply post_replaying; [done|done|]. intros v1 Hq1 Hroom1 _ He1.
  apply runs_pure; [intros; by apply post_err|intros [] _]. apply runs_pure; [intros; by apply post_err|]. intros stop Hstop.
  assert (stop = offset + length) as -> by (unfold checked_add_u64 in Hstop; case_match; [by injection Hstop|done]).
  apply runs_pure; [intros; by apply post_err|intros [] _]. apply post_replaying; [done|done|]. intros v2 Hq2 Hroom2 _ He2.
  apply (rest_inode v2 F); [done|intros; by apply post_err|]. intros i Hi. destruct i as [f| | | | | |]; try (by apply post_err). cbv beta zeta.
  destruct (qs_files _ _ Hq2 id f Hi) as (Hst & Hvs & Hu). set (n := fallocate_size mode (f_size f) (offset + length)).
  assert (Hn : f_size f <= n <= U64_MAX) by (unfold n, fallocate_size, EXTENT_SIZE in *; destruct mode as [| |[]]; lia).
  set (zeroes := match mode with Allocate => false | _ => true end). set (f' := fallocated_file _ _ _ _).
  apply runs_reserve with F; [done|intros; by apply post_err|]. intros g v3 Hdb3 Hes3 Hnx Hrest3 Hres.
  change (stage_fallocate env h op_id id offset (offset + length) zeroes f f') with
    (stage_with env (fun db t => if zeroes && (offset <? f_size f) then onES (zero_range h db id offset (Z.min (offset + length) (f_size f) - offset) (f_size f) t) else mret t)
      (fun db t => save_inode db id (IFile f') t) (set_dedup_result op_id (DFallocate (file_attributes (IFile f') id)))).
  eapply (change_ok env into_fallocate op_id id (IFile f) (IFile f') _ _ _ g _ F (upd F id (vf_truncate (match mode with Allocate => F id | _ => vf_zero (F id) offset length end) n))); try done.
  - unfold id_room. by rewrite Hnx.
  - by rewrite Hdb3.
  - exists (if zeroes && (offset <? f_size f)
            then zero_range h (v_db v3) id offset (Z.min (offset + length) (f_size f) - offset) (f_size f) txn_new (v_es v3) else (Ok txn_new, v_es v3)).
    split; [unfold onES; destruct (zeroes && _); [by destruct (zero_range _ _ _ _ _ _ _ _)|by destruct v3]|]. rewrite Hdb3, Hes3.
    apply (staging_data _ _ _ _ f); [apply Hq2|done|done|apply Hn|]. apply staging_resize; [etransitivity; [|apply Hn]; rewrite <- Hvs; by destruct mode|].
    rewrite <- Hvs. apply fallocate_data; try done; [apply Hq2|by rewrite He2, He1|lia].
  - intros t0 Ht0. by eapply (saving v2 F).
  - intros t0 t. apply attr_txn_dedup.
  - rewrite Hdb3. change (inode_size (Some (IFile f')) - inode_size (Some (IFile f))) with (n - f_size f).
    destruct g as [r|]; cbn in Hres |- *; [|split; [tauto|lia]]. destruct Hres as (? & -> & ?). split_and!; [done|lia|done].
  - rewrite Hdb3. by eapply reserved_drop.
  - by exists f.
Qed.

Lemma attr_run_ok env h id op_id op v F :
  quiescent v F -> id_room (v_fs v) -> fs_ready h id (es_frames (v_es v)) -> attr_fits op ->
  runs (attr_run env h id op_id op) (attr_post env (attr_reply op) op_id F id (attr_spec env id op F) v) v.
Proof.
  intros Hq Hroom Hr Hfit. destruct op as [creds sa size|t|auth offset length|auth offset length mode]; cbn [attr_run].
  - eapply (post_some _ _ _ _ _ _ _ Some); [by apply setattr_ok|done].
  - eapply (post_some _ _ _ _ _ _ _ Some); [by apply access_time_ok|done].
  - eapply (post_some _ (fun _ => None) _ _ _ _ _ (fun _ => None)); [by apply trim_ok|done].
  - eapply (post_some _ _ _ _ _ _ _ Some); [by apply fallocate_ok|done].
Qed.

(** A pipeline whose queue is drained is at rest, with the files of everything committed. *)
Lemma drained locked v sp : Explained locked v sp -> v_queue v = [] -> quiescent v (sp_files sp).
Proof.
  intros (its & Hp & _) Hq. pose proof (pp_items _ _ _ Hp) as Hi. rewrite Hq in Hi. apply Forall2_nil_inv_l in Hi as ->.
  destruct Hp. split; try assumption.
  - intros id. by rewrite (iv_entries _ _ pp_inflight).
  - apply map_eq. intros id. by rewrite (pv_entries _ _ pp_pending), lookup_empty.
Qed.

End attr.
