(* ===== verification/AttrRuns.v ===== *)
(** * A truncation after a run of the write pipeline *)

From S2P Require Import Prelude Errors FrameCodec Segment Quota Inode Dedup Permissions Store Namespace Commit Usage Ops Boot OpsCreate.
From S2P Require Import Lanes FrameStore Frames Extent ExtentSpec SegCounts DataPlane Volume Registry OpsWrite OpsIo OpsSetattr.
From S2P Require Import Staged Pipeline Submit PipelineSpec PipelineRuns AttrSpec.

(** The file [/f] of the example, after both of its writes, is cut to two bytes. *)
Module TestAttr.
Import TestPlane TestPipeline.
Definition cut : SetAttributes := mkSetAttributes (Set_ 420) NoChange NoChange (Set_ 2) TimeNoChange TimeNoChange.
Definition op : AttrOp := Setattr root_creds cut CurrentMode.
Definition result_ : result Fault (option FileAttributes) * Volume Frames := attr_run example_env hint 2 no_op_id op committed.
Lemma rests : quiescent committed (sp_files spec).
Proof. apply (drained (fun _ => False)); [exact (run_explained _ _ _ _ _ at_rest run)|]. vm_compute. reflexivity. Qed.
Lemma room : id_room (v_fs committed) /\ fr_counter (es_frames (v_es committed)) < U64_MAX.
Proof. split; vm_compute; reflexivity. Qed.
Lemma cut_locations : extents (v_db result_.2) = {[(2, 0) := mkFrameLoc seg 2 65634 32817]} /\
  extents (v_db committed) = <[(2, 10) := mkFrameLoc seg 0 0 32817]> (<[(2, 0) := mkFrameLoc seg 1 32817 32817]> ∅).
Proof. split; vm_compute; reflexivity. Qed.
Lemma cut_reply : match result_.1 with Ok (Some a) => (fa_size a =? 2) && (fa_mode a =? 420) | _ => false end = true.
Proof. vm_compute. reflexivity. Qed.
Lemma old_size : (fun i => match i with IFile f => f_size f | _ => 2 end) <$> inodes (v_db committed) !! 2 = Some 327683.
Proof. vm_compute. reflexivity. Qed.
Lemma segments_small : small committed /\ small result_.2.
Proof.
  destruct cut_locations as [E1 E2]. split; intros s; [rewrite E2|rewrite E1, <- (insert_empty (2, 0))]; rewrite !live_of_insert;
    rewrite ?(lookup_insert_ne _ (2, 0) (2, 10)), !lookup_empty by done;
    unfold live_of, seg_bytes, opt_bytes; rewrite msum_empty; cbn; repeat case_decide; by vm_compute.
Qed.
Lemma cut_ready : fs_ready hint 2 (es_frames (v_es committed)).
Proof. apply (hints_ok committed (proj2 room) 0%nat _ 2); [cbn; lia|by left|apply appends_none]. Qed.
Lemma fits : attr_fits op.
Proof. intros n [= <-]. split; by vm_compute. Qed.
Lemma resize : forall i, inodes (v_db committed) !! 2 = Some i -> exists o, size_change cut i = Some (o, 2).
Proof.
  intros i Hi. pose proof old_size as Hs. rewrite Hi in Hs. clear Hi. cbn in Hs. destruct i as [f| | | | | |]; try discriminate Hs. injection Hs as Hs.
  exists (f_size f). unfold size_change. cbn [sa_size cut]. rewrite Hs. reflexivity.
Qed.
End TestAttr.

Import TestPlane.

