(* ===== verification/Verify.v ===== *)
(** * The last check before a segment is deleted

    The directory verify of [fs/store/extent/reclaim.rs]: the extents that a segment's
    directory names are looked up in the memory and durable views of the tree, in at most
    sixteen key ranges each, and the segment is kept when one of them still points into it.

    The scans run over the encoded rows of the tree; the theorem says that, however the
    ranges are coalesced and the pages cut, the answer is exact. *)

From stdpp Require Import sorting.
From S2P Require Import Prelude KeyCodec Segment.

Definition MAX_VERIFY_SCAN_RANGES : nat := 16.

(** Page limits: rows and encoded bytes. *)
Record VerifyPageLimits := mkLimits { vl_rows : Z; vl_bytes : Z }.
Definition VERIFY_PAGE_LIMITS : VerifyPageLimits := mkLimits 65536 (4 * 1024 * 1024).

Record VerifyPageBudget := mkBudget { vb_rows : Z; vb_bytes : Z }.
Definition VerifyPageBudget_charge (key value : bytes) (limits : VerifyPageLimits) (b : VerifyPageBudget) : option VerifyPageBudget :=
  encoded ← checked_add_u64 (zlen key) (zlen value);
  if vl_bytes limits <? encoded then None
  else
    rows ← checked_add_u64 (vb_rows b) 1;
    total ← checked_add_u64 (vb_bytes b) encoded;
    if (vl_rows limits <? rows) || (vl_bytes limits <? total) then None else Some (mkBudget rows total).
Definition VerifyPageBudget_full (limits : VerifyPageLimits) (b : VerifyPageBudget) : bool :=
  (vl_rows limits <=? vb_rows b) || (vl_bytes limits <=? vb_bytes b).

(** [dir_entry_key] of reclaim.rs, and the order of tuples. *)
Definition entry_key (e : DirEntry) : Z * Z := (de_inode e, de_extent e).
Definition key_ltb (a b : Z * Z) : bool := (a.1 <? b.1) || ((a.1 =? b.1) && (a.2 <? b.2)).
Definition entry_le (a b : DirEntry) : Prop := key_ltb (entry_key b) (entry_key a) = false.
#[export] Instance entry_le_dec a b : Decision (entry_le a b).
Proof. unfold entry_le. apply _. Defined.

(** [dedup_by_key]: of neighbours with equal keys the first stays. *)
Fixpoint dedup_from (prev : DirEntry) (dir : list DirEntry) : list DirEntry :=
  match dir with
  | [] => []
  | e :: rest => if bool_decide (entry_key e = entry_key prev) then dedup_from prev rest else e :: dedup_from e rest
  end.
Definition sorted_directory (dir : list DirEntry) : list DirEntry :=
  match merge_sort entry_le dir with
  | [] => []
  | e :: rest => e :: dedup_from e rest
  end.

(** Consecutive runs: inode, first extent, last extent. *)
Fixpoint runs_from (inode start last : Z) (want : list DirEntry) : list (Z * Z * Z) :=
  match want with
  | [] => [(inode, start, last)]
  | e :: rest =>
      if (de_inode e =? inode) && (de_extent e =? sat_add_u64 last 1) && (last <? U64_MAX)
      then runs_from inode start (de_extent e) rest
      else (inode, start, last) :: runs_from (de_inode e) (de_extent e) (de_extent e) rest
  end.
Definition inode_extent_runs (want : list DirEntry) : list (Z * Z * Z) :=
  match want with
  | [] => []
  | e :: rest => runs_from (de_inode e) (de_extent e) (de_extent e) rest
  end.

(** [slice::chunks]; a chunk holds at least one element, so the length is enough fuel. *)
Fixpoint chunks_fuel {A} (fuel n : nat) (l : list A) : list (list A) :=
  match fuel, l with
  | S fuel, _ :: _ => take n l :: chunks_fuel fuel n (drop n l)
  | _, _ => []
  end.
Definition chunks {A} (n : nat) (l : list A) : list (list A) := chunks_fuel (length l) n l.

Definition chunk_range (chunk : list (Z * Z * Z)) : option (bytes * bytes) :=
  '(start_inode, start_extent, _) ← head chunk;
  '(last_inode, _, last_extent) ← last chunk;
  stop ← (if last_extent <? U64_MAX then Some (extent_key last_inode (last_extent + 1))
          else if last_inode <? U64_MAX then Some (extent_key (last_inode + 1) 0)
          else None);
  Some (extent_key start_inode start_extent, stop).
Definition extent_scan_ranges (want : list DirEntry) : option (list (bytes * bytes)) :=
  match inode_extent_runs want with
  | [] => Some []
  | runs => mapM chunk_range (chunks ((length runs + (MAX_VERIFY_SCAN_RANGES - 1)) / MAX_VERIFY_SCAN_RANGES) runs)
  end.

(** How many of the entries are below a key; [want] is sorted. *)
Fixpoint below (logical : Z * Z) (want : list DirEntry) : nat :=
  match want with
  | e :: rest => if key_ltb (entry_key e) logical then S (below logical rest) else O
  | [] => O
  end.

(** The rows of one scan; [index] is the position in [want]. *)
Fixpoint inspect_rows (segid : Segid) (want : list DirEntry) (limits : VerifyPageLimits)
    (budget : VerifyPageBudget) (index : option nat) (rows : list (bytes * bytes)) : option bool :=
  match rows with
  | [] => Some false
  | (key, val) :: rest =>
      let budget := if VerifyPageBudget_full limits budget then mkBudget 0 0 else budget in
      budget ← match VerifyPageBudget_charge key val limits budget with
               | Some b => Some b
               | None => VerifyPageBudget_charge key val limits (mkBudget 0 0)
               end;
      match parse_extent_key_full key with
      | None => inspect_rows segid want limits budget index rest
      | Some logical =>
          let i := match index with Some i => i | None => below logical want end in
          let i := (i + below logical (drop i want))%nat in
          if bool_decide (entry_key <$> want !! i = Some logical) then
            match FrameLoc_decode val with
            | Some loc => if bool_decide (fl_segid loc = segid) then Some true
                          else inspect_rows segid want limits budget (Some i) rest
            | None => None
            end
          else inspect_rows segid want limits budget (Some i) rest
      end
  end.
Definition inspect_extent_stream (segid : Segid) (want : list DirEntry) (limits : VerifyPageLimits)
    (rows : list (bytes * bytes)) : option bool :=
  inspect_rows segid want limits (mkBudget 0 0) None rows.

(** The rows that a bounded scan of the tree yields, in the order of the keys. *)
Definition row_le (a b : bytes * bytes) : Prop := bytes_leb a.1 b.1 = true.
#[export] Instance row_le_dec a b : Decision (row_le a b).
Proof. unfold row_le. apply _. Defined.
Definition scan_bounded (m : gmap (Z * Z) FrameLoc) (range : bytes * bytes) : list (bytes * bytes) :=
  merge_sort row_le
    (filter (fun row => in_range range.1 range.2 row.1 = true)
       (map (fun kl => (extent_key kl.1.1 kl.1.2, FrameLoc_encode kl.2)) (map_to_list m))).

(** An error, of the store or of a row, is [None]. *)
Definition scan_extent_range_points_here (segid : Segid) (want : list DirEntry) (range : bytes * bytes)
    (m : gmap (Z * Z) FrameLoc) : option bool :=
  if bytes_leb range.2 range.1 then Some false
  else inspect_extent_stream segid want VERIFY_PAGE_LIMITS (scan_bounded m range).

(** The scans of one verify: every range of the memory view, then of the durable one. *)
Fixpoint run_scans (segid : Segid) (want : list DirEntry) (memory durable : gmap (Z * Z) FrameLoc)
    (scans : list (bool * (bytes * bytes))) : option bool :=
  match scans with
  | [] => Some false
  | (d, range) :: rest =>
      match scan_extent_range_points_here segid want range (if d then durable else memory) with
      | Some false => run_scans segid want memory durable rest
      | here => here
      end
  end.
Definition scans_of (ranges : list (bytes * bytes)) : list (bool * (bytes * bytes)) :=
  map (fun r => (false, r)) ranges ++ map (fun r => (true, r)) ranges.
Definition directory_still_referenced (segid : Segid) (want : list DirEntry)
    (memory durable : gmap (Z * Z) FrameLoc) : option bool :=
  ranges ← extent_scan_ranges want;
  run_scans segid want memory durable (scans_of ranges).

(** ** The order of keys *)

Definition klt (a b : Z * Z) : Prop := a.1 < b.1 \/ a.1 = b.1 /\ a.2 < b.2.
Definition kle (a b : Z * Z) : Prop := a.1 < b.1 \/ a.1 = b.1 /\ a.2 <= b.2.
Ltac klia := unfold klt, kle, entry_key in *; cbn [fst snd] in *; lia.

Lemma key_ltb_spec a b : key_ltb a b = true <-> klt a b.
Proof. unfold key_ltb. rewrite orb_true_iff, andb_true_iff, !Z.ltb_lt, Z.eqb_eq. done. Qed.
Lemma key_ltb_false a b : key_ltb a b = false <-> kle b a.
Proof. rewrite <- not_true_iff_false, key_ltb_spec. klia. Qed.

Lemma kle_lt a b : kle a b -> a <> b -> klt a b.
Proof.
  destruct a as [a1 a2], b as [b1 b2]. unfold kle, klt. cbn. intros [?|[-> ?]] Hne; [by left|]. right. split; [done|].
  assert (a2 <> b2) by congruence. lia.
Qed.

Definition key_u64 (k : Z * Z) : Prop := is_u64 k.1 /\ is_u64 k.2.
Lemma extent_key_ltb a b : key_u64 a -> key_u64 b -> bytes_ltb (extent_key a.1 a.2) (extent_key b.1 b.2) = key_ltb a b.
Proof.
  intros [A1 A2] [B1 B2]. unfold extent_key. rewrite bytes_ltb_common, bytes_ltb_app_same_length by by rewrite !length_be_bytes.
  rewrite !be_bytes_ltb by (by apply u64_pow256). unfold key_ltb. f_equal. f_equal.
  destruct (Z.eqb_spec a.1 b.1) as [->|Hne]; [by apply bool_decide_true|]. apply bool_decide_false. intros E. by apply Hne, be_u64_inj.
Qed.
Lemma extent_key_leb a b : key_u64 a -> key_u64 b -> bytes_leb (extent_key a.1 a.2) (extent_key b.1 b.2) = true <-> kle a b.
Proof. intros Ha Hb. unfold bytes_leb. by rewrite negb_true_iff, extent_key_ltb, key_ltb_false. Qed.

(** ** Sorted directories *)

Abbreviation keys_of := (fmap entry_key).
Definition wanted (want : list DirEntry) : Prop := StronglySorted klt (keys_of want) /\ Forall key_u64 (keys_of want).

Lemma dedup_spec dir : forall prev,
  StronglySorted entry_le (prev :: dir) ->
  StronglySorted klt (keys_of (prev :: dedup_from prev dir)) /\
  forall k, k ∈ keys_of (prev :: dedup_from prev dir) <-> k ∈ keys_of (prev :: dir).
Proof.
  induction dir as [|e dir IH]; intros prev Hs.
  { split; [|done]. constructor; [constructor|constructor]. }
  apply StronglySorted_inv in Hs as [Hs Hp]. pose proof Hp as Hpe. apply Forall_cons in Hpe as [Hpe Hpd].
  cbn [dedup_from]. case_bool_decide as Heq.
  - destruct (IH prev) as [Hk Hin].
    { constructor; [by apply StronglySorted_inv in Hs as [? _]|done]. }
    split; [done|]. intros k. rewrite Hin. cbn. rewrite !elem_of_cons. rewrite Heq. tauto.
  - destruct (IH e Hs) as [Hk Hin]. assert (Hlt : klt (entry_key prev) (entry_key e)).
    { apply kle_lt; [by apply key_ltb_false|congruence]. }
    split.
    + cbn in Hk |- *. constructor; [done|]. constructor; [done|]. apply StronglySorted_inv in Hk as [_ Hk].
      eapply Forall_impl; [exact Hk|]. intros k. destruct (entry_key prev), (entry_key e), k. klia.
    + intros k. cbn in Hin |- *. rewrite (elem_of_cons (entry_key e :: _)), Hin. by rewrite <- elem_of_cons.
Qed.

#[local] Instance entry_le_trans : Transitive entry_le.
Proof. intros a b c. unfold entry_le. rewrite !key_ltb_false. destruct (entry_key a), (entry_key b), (entry_key c). klia. Qed.
#[local] Instance entry_le_total : Total entry_le.
Proof. intros a b. unfold entry_le. rewrite !key_ltb_false. destruct (entry_key a), (entry_key b). klia. Qed.

Lemma sorted_directory_spec dir :
  StronglySorted klt (keys_of (sorted_directory dir)) /\ forall k, k ∈ keys_of (sorted_directory dir) <-> k ∈ keys_of dir.
Proof.
  unfold sorted_directory. pose proof (merge_sort_Permutation entry_le dir) as Hp.
  assert (Hs : StronglySorted entry_le (merge_sort entry_le dir)).
  { apply Sorted_StronglySorted; [apply entry_le_trans|]. apply Sorted_merge_sort; apply _. }
  destruct (merge_sort entry_le dir) as [|e rest].
  { apply Permutation_nil in Hp as ->. split; [constructor|done]. }
  destruct (dedup_spec rest e Hs) as [Hk Hin]. split; [done|]. intros k. by rewrite Hin, Hp.
Qed.

(** ** Positions in a sorted directory *)

Lemma below_le k want : (below k want <= length want)%nat.
Proof. induction want as [|e want IH]; cbn; [lia|]. destruct (key_ltb _ _); cbn; lia. Qed.
Lemma below_split k want i :
  (i <= length want)%nat -> Forall (fun e => klt (entry_key e) k) (take i want) -> (i + below k (drop i want))%nat = below k want.
Proof.
  revert i. induction want as [|e want IH]; intros [|i] Hi Ht; try done; cbn in *; [lia|].
  apply Forall_cons in Ht as [He Ht]. apply key_ltb_spec in He. rewrite He. f_equal. apply IH; [lia|done].
Qed.
Lemma below_take k want : Forall (fun e => klt (entry_key e) k) (take (below k want) want).
Proof.
  induction want as [|e want IH]; cbn; [constructor|]. destruct (key_ltb _ _) eqn:E; [|constructor].
  constructor; [by apply key_ltb_spec|done].
Qed.
Lemma below_hits k want : StronglySorted klt (keys_of want) ->
  (entry_key <$> want !! below k want = Some k <-> k ∈ keys_of want).
Proof.
  intros Hs. split.
  - destruct (want !! _) as [e|] eqn:E; [|done]. intros [= <-]. apply list_elem_of_fmap_2. by eapply list_elem_of_lookup_2.
  - induction want as [|e want IH]; cbn; [by intros ?%not_elem_of_nil|]. cbn in Hs. apply StronglySorted_inv in Hs as [Hs Hall].
    destruct (key_ltb (entry_key e) k) eqn:E.
    + apply key_ltb_spec in E. intros [->|Hk]%elem_of_cons; [destruct (entry_key e); klia|]. by apply IH.
    + intros [->|Hk]%elem_of_cons; [done|]. exfalso. rewrite Forall_forall in Hall. specialize (Hall k Hk).
      apply key_ltb_spec in Hall. congruence.
Qed.

(** ** One scan *)

Definition row_of (kl : Z * Z * FrameLoc) : bytes * bytes := (extent_key kl.1.1 kl.1.2, FrameLoc_encode kl.2).
Definition points (segid : Segid) (want : list DirEntry) (kl : Z * Z * FrameLoc) : Prop :=
  kl.1 ∈ keys_of want /\ fl_segid kl.2 = segid.
#[local] Instance points_dec segid want kl : Decision (points segid want kl).
Proof. unfold points. apply _. Defined.
Definition row_wf (kl : Z * Z * FrameLoc) : Prop := key_u64 kl.1 /\ FrameLoc_wf kl.2.

Lemma row_len kl : zlen (row_of kl).1 = 23 /\ zlen (row_of kl).2 = 32.
Proof.
  unfold row_of, extent_key, FrameLoc_encode, zlen. cbn [fst snd]. rewrite !length_app, !length_be_bytes, !length_le_bytes. by split.
Qed.
Lemma charge_row kl : exists b, VerifyPageBudget_charge (row_of kl).1 (row_of kl).2 VERIFY_PAGE_LIMITS (mkBudget 0 0) = Some b.
Proof. unfold VerifyPageBudget_charge. destruct (row_len kl) as [-> ->]. eexists. vm_compute. reflexivity. Qed.
Lemma parse_row kl : key_u64 kl.1 -> parse_extent_key_full (row_of kl).1 = Some kl.1.
Proof.
  intros [? ?]. destruct kl as [[i x] l]. apply parse_extent_key_full_exact; [|done].
  change (bytes_ok (push_prefix PExtent ++ (be_bytes U64_SIZE i ++ be_bytes U64_SIZE x))).
  apply Forall_app. split; [by repeat constructor|]. apply Forall_app. split; apply be_bytes_ok.
Qed.

Lemma inspect_exact segid want rows : forall budget index,
  StronglySorted klt (keys_of want) -> StronglySorted klt rows.*1 -> Forall row_wf rows ->
  (forall i, index = Some i -> (i <= length want)%nat /\ forall kl, kl ∈ rows -> Forall (fun e => klt (entry_key e) kl.1) (take i want)) ->
  inspect_rows segid want VERIFY_PAGE_LIMITS budget index (row_of <$> rows) = Some (bool_decide (Exists (points segid want) rows)).
Proof.
  induction rows as [|kl rows IH]; intros budget index Hw Hs Hwf Hi.
  { done. }
  apply Forall_cons in Hwf as [[Hu Hl] Hwf]. cbn in Hs. apply StronglySorted_inv in Hs as [Hs Hlt].
  rewrite fmap_cons. cbn [inspect_rows]. change (row_of kl) with ((row_of kl).1, (row_of kl).2).
  set (bud := if VerifyPageBudget_full _ _ then _ else _). destruct (charge_row kl) as [b0 Hb0].
  destruct (match VerifyPageBudget_charge _ _ _ bud with Some b => Some b | None => _ end) as [bud'|] eqn:Eb.
  2:{ rewrite Hb0 in Eb. by destruct (VerifyPageBudget_charge _ _ _ bud). }
  cbn [mbind option_bind]. rewrite parse_row by done. set (j := match index with Some i => i | None => _ end).
  assert (Hj : (j + below kl.1 (drop j want))%nat = below kl.1 want).
  { destruct index as [i|]; cbn in j; subst j; [|apply below_split; [apply below_le|apply below_take]].
    destruct (Hi i eq_refl) as [Hle Ht]. apply below_split; [done|]. apply Ht. left. }
  rewrite Hj. assert (Hnext : forall budget', inspect_rows segid want VERIFY_PAGE_LIMITS budget' (Some (below kl.1 want)) (row_of <$> rows)
    = Some (bool_decide (Exists (points segid want) rows))).
  { intros budget'. apply IH; try done. intros i [= <-]. split; [apply below_le|]. intros kl' Hin.
    eapply Forall_impl; [apply below_take|]. intros e He. cbn in He. rewrite Forall_forall in Hlt.
    specialize (Hlt kl'.1 (list_elem_of_fmap_2 fst _ _ Hin)). destruct (entry_key e), kl.1, kl'.1. klia. }
  destruct (decide (entry_key <$> want !! below kl.1 want = Some kl.1)) as [Hk|Hk].
  - rewrite bool_decide_true by done. apply below_hits in Hk; [|done].
    change (row_of kl).2 with (FrameLoc_encode kl.2). rewrite FrameLoc_decode_encode by done.
    destruct (decide (fl_segid kl.2 = segid)) as [Hseg|Hseg]; [rewrite bool_decide_true by done|rewrite bool_decide_false by done].
    + f_equal. symmetry. apply bool_decide_true. left. by split.
    + rewrite Hnext. f_equal. apply bool_decide_ext. rewrite Exists_cons. unfold points at 2. tauto.
  - rewrite bool_decide_false by done. rewrite Hnext. f_equal. apply bool_decide_ext. rewrite Exists_cons. unfold points at 2.
    assert (kl.1 ∉ keys_of want) by (by intros ?%below_hits). tauto.
Qed.

(** ** Scans of the tree *)

Definition rows_wf (m : gmap (Z * Z) FrameLoc) : Prop := forall k loc, m !! k = Some loc -> row_wf (k, loc).

#[local] Instance row_le_trans : Transitive row_le.
Proof. intros a b c. apply bytes_leb_trans. Qed.
#[local] Instance row_le_total : Total row_le.
Proof. intros a b. apply bytes_leb_total. Qed.

Lemma rows_sorted rows :
  Forall row_wf rows -> NoDup rows.*1 -> StronglySorted row_le (row_of <$> rows) -> StronglySorted klt rows.*1.
Proof.
  induction rows as [|kl rows IH]; intros Hwf Hn Hs; [constructor|]. apply Forall_cons in Hwf as [[Hu _] Hwf].
  cbn in Hn, Hs. apply NoDup_cons in Hn as [Hk Hn]. apply StronglySorted_inv in Hs as [Hs Hall]. cbn. constructor; [by apply IH|].
  rewrite Forall_forall in Hwf. rewrite Forall_forall in Hall. rewrite Forall_forall. intros k (kl' & -> & Hin)%list_elem_of_fmap. destruct (Hwf kl' Hin) as [Hu' _].
  specialize (Hall (row_of kl') (list_elem_of_fmap_2 row_of _ _ Hin)). apply kle_lt; [by apply extent_key_leb|].
  intros E. apply Hk. rewrite E. by apply list_elem_of_fmap_2.
Qed.

Lemma filter_map {A B} (f : A -> B) (P : B -> Prop) `{forall b, Decision (P b)} (l : list A) :
  filter P (f <$> l) = f <$> filter (fun a => P (f a)) l.
Proof.
  induction l as [|a l IH]; [done|]. cbn [fmap list_fmap]. destruct (decide (P (f a))).
  - rewrite !filter_cons_True by done. cbn. by f_equal.
  - by rewrite !filter_cons_False by done.
Qed.

Lemma scan_bounded_rows m range : rows_wf m ->
  exists rows, scan_bounded m range = row_of <$> rows /\ StronglySorted klt rows.*1 /\ Forall row_wf rows /\
    forall k loc, (k, loc) ∈ rows <-> m !! k = Some loc /\ in_range range.1 range.2 (extent_key k.1 k.2) = true.
Proof.
  intros Hwf. set (P := fun row : bytes * bytes => in_range range.1 range.2 row.1 = true).
  set (l0 := filter (fun kl => P (row_of kl)) (map_to_list m)).
  assert (Hf : filter P (row_of <$> map_to_list m) = row_of <$> l0) by (apply filter_map).
  assert (Hs : StronglySorted row_le (scan_bounded m range)).
  { apply Sorted_StronglySorted; [apply _|]. apply Sorted_merge_sort; apply _. }
  assert (Hp : scan_bounded m range ≡ₚ row_of <$> l0) by (rewrite <- Hf; apply merge_sort_Permutation).
  destruct (Permutation_map_inv row_of l0 Hp) as (rows & E & Hr). exists rows.
  assert (Hin : forall k loc, (k, loc) ∈ rows <-> m !! k = Some loc /\ in_range range.1 range.2 (extent_key k.1 k.2) = true).
  { intros k loc. rewrite <- Hr. unfold l0. rewrite list_elem_of_filter, elem_of_map_to_list. unfold P. cbn. tauto. }
  assert (Hw : Forall row_wf rows) by (apply Forall_forall; intros [k loc] [? _]%Hin; by apply Hwf).
  split; [exact E|]. split; [|done]. apply rows_sorted; [done| |by rewrite E in Hs].
  rewrite <- Hr. eapply sublist_NoDup; [apply (NoDup_fst_map_to_list m)|]. apply fmap_sublist, sublist_filter.
Qed.

Definition found (segid : Segid) (want : list DirEntry) (range : bytes * bytes) (m : gmap (Z * Z) FrameLoc) : Prop :=
  exists k loc, m !! k = Some loc /\ fl_segid loc = segid /\ k ∈ keys_of want /\
    in_range range.1 range.2 (extent_key k.1 k.2) = true.

Lemma scan_exact segid want range m :
  StronglySorted klt (keys_of want) -> rows_wf m ->
  exists b, scan_extent_range_points_here segid want range m = Some b /\ (b = true <-> found segid want range m).
Proof.
  intros Hw Hm. unfold scan_extent_range_points_here. destruct (bytes_leb range.2 range.1) eqn:E.
  { exists false. split; [done|]. split; [done|]. intros (k & loc & _ & _ & _ & Hr).
    unfold in_range in Hr. apply andb_true_iff in Hr as [H1 H2].
    assert (Hc : bytes_leb range.2 (extent_key k.1 k.2) = true) by (by eapply bytes_leb_trans). unfold bytes_leb in Hc. by rewrite H2 in Hc. }
  destruct (scan_bounded_rows m range Hm) as (rows & -> & Hs & Hwf & Hin).
  eexists. split; [by apply inspect_exact|]. rewrite bool_decide_eq_true, Exists_exists. split.
  - intros ([k loc] & [Hl Hr]%Hin & Hk & Hseg). by exists k, loc.
  - intros (k & loc & Hl & Hseg & Hk & Hr). exists (k, loc). by rewrite Hin.
Qed.

Lemma run_scans_exact segid want memory durable scans :
  StronglySorted klt (keys_of want) -> rows_wf memory -> rows_wf durable ->
  exists b, run_scans segid want memory durable scans = Some b /\
    (b = true <-> exists d range, (d, range) ∈ scans /\ found segid want range (if d : bool then durable else memory)).
Proof.
  intros Hw Hm Hd. induction scans as [|[d range] scans IH].
  { exists false. split; [done|]. split; [done|]. by intros (d & range & ?%not_elem_of_nil & _). }
  destruct IH as (b & Hb & Hiff). destruct (scan_exact segid want range (if d then durable else memory)) as (b0 & Hb0 & Hiff0); [done|by destruct d|].
  cbn [run_scans]. rewrite Hb0. destruct b0.
  - exists true. split; [done|]. split; [|done]. intros _. exists d, range. split; [left|by apply Hiff0].
  - exists b. split; [done|]. rewrite Hiff. split.
    + intros (d' & r' & Hin & Hf). exists d', r'. split; [by right|done].
    + intros (d' & r' & [[= -> ->]|Hin]%elem_of_cons & Hf); [apply Hiff0 in Hf; done|]. by exists d', r'.
Qed.

(** ** Ranges *)

Abbreviation run_lo := (fun r : Z * Z * Z => (r.1.1, r.1.2)).
Abbreviation run_hi := (fun r : Z * Z * Z => (r.1.1, r.2)).
Definition ordered (rs : list (Z * Z * Z)) : Prop :=
  StronglySorted (fun r r' => klt (run_hi r) (run_lo r')) rs /\
  Forall (fun r => kle (run_lo r) (run_hi r) /\ key_u64 (run_lo r) /\ key_u64 (run_hi r)) rs.

Lemma runs_from_spec want : forall inode start last,
  StronglySorted klt ((inode, last) :: keys_of want) -> Forall key_u64 ((inode, last) :: keys_of want) -> 0 <= start <= last ->
  ordered (runs_from inode start last want) /\
  (forall k, kle (inode, start) k /\ kle k (inode, last) \/ k ∈ keys_of want ->
     exists r, r ∈ runs_from inode start last want /\ kle (run_lo r) k /\ kle k (run_hi r)) /\
  Forall (fun r => kle (inode, start) (run_lo r) /\ run_hi r ∈ (inode, last) :: keys_of want) (runs_from inode start last want).
Proof.
  induction want as [|e want IH]; intros inode start last Hs Hu Hle; cbn [runs_from].
  { apply Forall_singleton in Hu as [? ?]. cbn in *. split; [|split].
    - split; [constructor; constructor|]. apply Forall_singleton. unfold key_u64. cbn. split; [klia|ulia].
    - intros k [Hk|?%not_elem_of_nil]; [|done]. exists (inode, start, last). split; [left|exact Hk].
    - apply Forall_singleton. split; [klia|left]. }
  cbn in Hs, Hu. apply StronglySorted_inv in Hs as [Hs Hall]. apply Forall_cons in Hu as [[Hi Hl0] Hu]. cbn in Hi, Hl0.
  pose proof Hall as Hlt. apply Forall_cons in Hlt as [Hlt _]. pose proof Hu as Hue. apply Forall_cons in Hue as [[Hei Hex] _]. cbn in Hei, Hex.
  destruct ((de_inode e =? inode) && _ && _) eqn:Ec.
  - apply andb_true_iff in Ec as [[<-%Z.eqb_eq Hx%Z.eqb_eq]%andb_true_iff Hl%Z.ltb_lt].
    assert (Hx' : de_extent e = last + 1) by (unfold sat_add_u64 in Hx; lia).
    destruct (IH (de_inode e) start (de_extent e) Hs Hu ltac:(lia)) as (Ho & Hc & Hf). split; [done|].
    split; [|eapply Forall_impl; [exact Hf|]; cbn; intros r [? ?]; split; [done|by right]].
    intros [ki kx] [Hk|[E|Hk]%elem_of_cons]; apply Hc; [left|left|by right]; [klia|]. unfold entry_key in E. injection E as -> ->. klia.
  - destruct (IH (de_inode e) (de_extent e) (de_extent e) Hs Hu ltac:(ulia)) as (Ho & Hc & Hf).
    assert (Hf' : Forall (fun r => klt (inode, last) (run_lo r)) (runs_from (de_inode e) (de_extent e) (de_extent e) want)).
    { eapply Forall_impl; [exact Hf|]. intros [[? ?] ?] [? _]. klia. }
    split; [|split].
    + destruct Ho as [Ho Hw]. split; constructor; [done|exact Hf'| |done]. unfold key_u64. cbn. split; [klia|ulia].
    + intros [ki kx] [Hk|Hk].
      * exists (inode, start, last). split; [left|exact Hk].
      * destruct (Hc (ki, kx)) as (r & Hr & Hb); [|exists r; split; [by right|done]].
        apply elem_of_cons in Hk as [E|Hk]; [left|by right]. unfold entry_key in E. injection E as -> ->. klia.
    + constructor; [split; [klia|left]|]. rewrite Forall_forall in Hf. rewrite Forall_forall in Hf'. apply Forall_forall. intros r Hr.
      destruct (Hf r Hr) as [_ ?]. specialize (Hf' r Hr). split; [|by right]. destruct r as [[? ?] ?]. klia.
Qed.

Lemma runs_spec want : wanted want ->
  ordered (inode_extent_runs want) /\ Forall (fun r => run_hi r ∈ keys_of want) (inode_extent_runs want) /\
  forall k, k ∈ keys_of want -> exists r, r ∈ inode_extent_runs want /\ kle (run_lo r) k /\ kle k (run_hi r).
Proof.
  intros [Hs Hu]. unfold inode_extent_runs. destruct want as [|e want].
  { split; [split; constructor|]. split; [constructor|]. by intros k ?%not_elem_of_nil. }
  destruct (runs_from_spec want (de_inode e) (de_extent e) (de_extent e) Hs Hu) as (Ho & Hc & Hf).
  { apply Forall_cons in Hu as [[_ ?] _]. cbn in *. ulia. }
  split; [done|]. split; [eapply Forall_impl; [exact Hf|]; by intros r [_ ?]|].
  intros k [->|Hk]%elem_of_cons; apply Hc; [left|by right]. klia.
Qed.

Lemma chunks_concat {A} fuel n : forall l : list A, (length l <= fuel)%nat -> (0 < n)%nat ->
  concat (chunks_fuel fuel n l) = l /\ Forall (fun c => c <> []) (chunks_fuel fuel n l) /\
  (length (chunks_fuel fuel n l) * n < length l + n)%nat.
Proof.
  induction fuel as [|fuel IH]; intros [|a l] Hl Hn; cbn [chunks_fuel]; try (cbn; split_and!; [done|constructor|lia]); [cbn in Hl; lia|].
  destruct (IH (drop n (a :: l))) as (Hc & Hne & Hlen); [rewrite length_drop; cbn in *; lia|done|].
  cbn [concat length]. rewrite Hc, take_drop. split; [done|]. split; [constructor; [destruct n; [lia|done]|done]|].
  rewrite length_drop in Hlen. cbn [length] in *. set (c := length (chunks_fuel fuel n (drop n (a :: l)))) in *.
  destruct (decide (n <= S (length l))%nat); [nia|]. assert (c = 0%nat) as -> by (destruct c; [done|nia]). lia.
Qed.

(** The range of a chunk covers its runs. *)
Lemma ordered_sub rs a b c : ordered (a ++ b ++ c) -> rs = b -> ordered rs.
Proof.
  intros [Hs Hf] ->. apply Forall_app in Hf as [_ [Hf _]%Forall_app]. split; [|done].
  induction a as [|r a IH]; [|by apply IH; apply StronglySorted_inv in Hs as [? _]]. cbn in Hs. clear Hf.
  induction b as [|r b IHb]; [constructor|]. cbn in Hs. apply StronglySorted_inv in Hs as [Hs Hall]. apply Forall_app in Hall as [Hall _].
  constructor; [by apply IHb|done].
Qed.
Lemma ordered_head r rs : ordered (r :: rs) -> Forall (fun r' => kle (run_lo r) (run_lo r')) (r :: rs).
Proof.
  intros [Hs Hf]. apply StronglySorted_inv in Hs as [_ Hall]. apply Forall_cons in Hf as [[Hle _] _]. constructor; [klia|].
  eapply Forall_impl; [exact Hall|]. destruct r as [[? ?] ?]. intros [[? ?] ?]. klia.
Qed.
Lemma ordered_last rs r : ordered (rs ++ [r]) -> Forall (fun r' => kle (run_hi r') (run_hi r)) (rs ++ [r]).
Proof.
  intros [Hs Hf]. apply Forall_app. split; [|apply Forall_singleton; klia]. apply Forall_app in Hf as [_ Hr]. apply Forall_singleton in Hr as [Hle _].
  induction rs as [|r' rs IH]; [constructor|]. cbn in Hs. apply StronglySorted_inv in Hs as [Hs Hall].
  constructor; [|by apply IH]. apply Forall_app in Hall as [_ Hall]. apply Forall_cons in Hall as [Hall _]. destruct r as [[? ?] ?], r' as [[? ?] ?]. klia.
Qed.

Lemma chunk_range_spec rs range : ordered rs -> chunk_range rs = Some range ->
  forall r k, r ∈ rs -> key_u64 k -> kle (run_lo r) k -> kle k (run_hi r) -> in_range range.1 range.2 (extent_key k.1 k.2) = true.
Proof.
  intros Ho Hc r k Hr Hk Hlo Hhi. unfold chunk_range in Hc. destruct rs as [|r0 rs0]; [done|].
  pose proof (ordered_head r0 rs0 Ho) as Hh. cbn [head] in Hc. destruct r0 as [[i0 x0] y0]. cbn [mbind option_bind] in Hc.
  pose proof Ho as [_ Hf]. pose proof Hf as Hf0. apply Forall_cons in Hf0 as [(_ & Hu0 & _) _]. cbn in Hu0.
  destruct (List.exists_last (l := (i0, x0, y0) :: rs0)) as (init & [[li lx] ly] & E); [done|]. rewrite E in Ho, Hr, Hh, Hf, Hc.
  rewrite last_snoc in Hc. pose proof (ordered_last init _ Ho) as Hl.
  rewrite Forall_forall in Hh. rewrite Forall_forall in Hl. specialize (Hh r Hr). specialize (Hl r Hr).
  apply Forall_app in Hf as [_ Hf]. apply Forall_singleton in Hf as (_ & _ & [Hu1 Hu2]). cbn in Hu1, Hu2.
  unfold in_range. apply andb_true_iff. destruct r as [[ri rx] ry], k as [ki kx].
  assert (Hstart : bytes_leb (extent_key i0 x0) (extent_key ki kx) = true).
  { apply (extent_key_leb (i0, x0) (ki, kx)); [done|done|]. klia. }
  revert Hc. cbn [mbind option_bind]. destruct (Z.ltb_spec ly U64_MAX); [|destruct (Z.ltb_spec li U64_MAX); [|done]]; intros [= <-]; (split; [exact Hstart|]); cbn [fst snd].
  - etrans; [apply (extent_key_ltb (ki, kx) (li, ly + 1) Hk); split; cbn; ulia|]. apply key_ltb_spec. klia.
  - etrans; [apply (extent_key_ltb (ki, kx) (li + 1, 0) Hk); split; cbn; ulia|]. apply key_ltb_spec. klia.
Qed.

Lemma ranges_spec want : wanted want ->
  ((U64_MAX, U64_MAX) ∉ keys_of want -> is_Some (extent_scan_ranges want)) /\
  forall ranges, extent_scan_ranges want = Some ranges ->
    (length ranges <= MAX_VERIFY_SCAN_RANGES)%nat /\
    forall k, k ∈ keys_of want -> exists range, range ∈ ranges /\ in_range range.1 range.2 (extent_key k.1 k.2) = true.
Proof.
  intros Hw. destruct (runs_spec want Hw) as (Ho & Hhi & Hc). unfold extent_scan_ranges. destruct (inode_extent_runs want) as [|r0 rs0] eqn:Er.
  { split; [by eexists|]. intros ranges [= <-]. split; [cbn; lia|]. intros k (r & ?%not_elem_of_nil & _)%Hc. done. }
  set (rs := r0 :: rs0) in *. set (n := ((length rs + (MAX_VERIFY_SCAN_RANGES - 1)) / MAX_VERIFY_SCAN_RANGES)%nat).
  assert (Hn : (length rs <= n * MAX_VERIFY_SCAN_RANGES)%nat /\ (0 < n)%nat).
  { unfold MAX_VERIFY_SCAN_RANGES in *. pose proof (Nat.div_mod (length rs + 15) 16 ltac:(lia)) as Hd.
    pose proof (Nat.mod_upper_bound (length rs + 15) 16 ltac:(lia)) as Hm. change (16 - 1)%nat with 15%nat in n. fold n in Hd.
    assert (0 < length rs)%nat by (cbn; lia). lia. }
  destruct (chunks_concat (length rs) n rs ltac:(lia) ltac:(lia)) as (Hcc & Hne & Hlen). fold (chunks n rs) in Hcc, Hne, Hlen.
  assert (Hsub : forall c, c ∈ chunks n rs -> ordered c).
  { intros c (l1 & l2 & E)%list_elem_of_split. rewrite E, concat_app in Hcc. cbn in Hcc.
    eapply (ordered_sub _ (concat l1) c (concat l2)); [|done]. by rewrite Hcc. }
  split.
  - intros Hmax. apply mapM_is_Some. apply Forall_forall. intros c Hci. specialize (Hsub c Hci).
    rewrite Forall_forall in Hne. specialize (Hne c Hci). destruct c as [|[[i0 x0] y0] c0]; [done|].
    destruct (List.exists_last (l := (i0, x0, y0) :: c0)) as (init & [[li lx] ly] & E); [done|].
    change (is_Some (chunk_range ((i0, x0, y0) :: c0))). unfold chunk_range. cbn [head mbind option_bind]. rewrite E in Hsub, Hci |- *. rewrite last_snoc. cbn [mbind option_bind].
    destruct Hsub as [_ Hf]. apply Forall_app in Hf as [_ Hf]. apply Forall_singleton in Hf as (_ & _ & [Hu1 Hu2]). cbn in Hu1, Hu2.
    assert (Hin : (li, ly) ∈ keys_of want).
    { rewrite Forall_forall in Hhi. apply (Hhi (li, lx, ly)). rewrite <- Hcc. apply list_elem_of_In, in_concat.
      exists (init ++ [(li, lx, ly)]). split; [by apply list_elem_of_In|]. apply list_elem_of_In, elem_of_app. right. left. }
    destruct (Z.ltb_spec ly U64_MAX); [by eexists|]. destruct (Z.ltb_spec li U64_MAX); [by eexists|].
    exfalso. apply Hmax. assert (li = U64_MAX) as <- by ulia. by assert (ly = li) as <- by ulia.
  - intros ranges Hm%mapM_Some. split.
    + rewrite <- (Forall2_length _ _ _ Hm). unfold MAX_VERIFY_SCAN_RANGES in *. nia.
    + intros k Hk. destruct (Hc k Hk) as (r & Hr & Hlo & Hup). rewrite <- Hcc in Hr.
      apply list_elem_of_In, in_concat in Hr as (c & Hci%list_elem_of_In & Hr%list_elem_of_In).
      destruct (Forall2_elem_l _ _ _ _ Hm Hci) as (range & Hrange & Hok). exists range. split; [done|].
      eapply chunk_range_spec; [by apply Hsub|done|done| |done|done]. destruct Hw as [_ Hu]. rewrite Forall_forall in Hu. by apply Hu.
Qed.

(** ** The verify *)

Definition referenced (segid : Segid) (m : gmap (Z * Z) FrameLoc) : Prop :=
  exists k loc, m !! k = Some loc /\ fl_segid loc = segid.
(** A segment's directory names every extent that refers to it. *)
Definition lists_refs (segid : Segid) (dir : list DirEntry) (m : gmap (Z * Z) FrameLoc) : Prop :=
  forall k loc, m !! k = Some loc -> fl_segid loc = segid -> k ∈ keys_of dir.

Lemma sorted_wanted dir : Forall key_u64 (keys_of dir) -> wanted (sorted_directory dir).
Proof.
  intros Hu. destruct (sorted_directory_spec dir) as [Hs Hin]. split; [done|]. rewrite Forall_forall in Hu |- *. intros k ?%Hin. by apply Hu.
Qed.

(** C5: the verify before a delete is exact.  For a directory that names every extent
    referring to the segment in the memory and durable views of the tree, the scans - at
    most sixteen coalesced key ranges per view, read in pages over encoded rows that may
    belong to other extents - answer that the segment is still referenced exactly when an
    extent of one of the views points into it; only a directory that names the very last
    extent of the key space cannot be decided. *)
Theorem verify_exact segid dir memory durable :
  rows_wf memory -> rows_wf durable -> Forall key_u64 (keys_of dir) ->
  lists_refs segid dir memory -> lists_refs segid dir durable -> (U64_MAX, U64_MAX) ∉ keys_of dir ->
  (exists ranges, extent_scan_ranges (sorted_directory dir) = Some ranges /\ (length ranges <= MAX_VERIFY_SCAN_RANGES)%nat) /\
  (directory_still_referenced segid (sorted_directory dir) memory durable = Some true <->
   referenced segid memory \/ referenced segid durable) /\
  (directory_still_referenced segid (sorted_directory dir) memory durable = Some false <->
   ~ referenced segid memory /\ ~ referenced segid durable).
Proof.
  intros Hm Hd Hu Hlm Hld Hmax. pose proof (sorted_wanted dir Hu) as Hw. destruct (sorted_directory_spec dir) as [Hs Hin].
  destruct (ranges_spec _ Hw) as [Hex Hr]. destruct Hex as [ranges E]; [by rewrite Hin|]. destruct (Hr ranges E) as [Hlen Hcov].
  split; [by exists ranges|]. unfold directory_still_referenced. rewrite E. cbn [mbind option_bind].
  destruct (run_scans_exact segid (sorted_directory dir) memory durable (scans_of ranges)) as (b & -> & Hb); [done..|].
  assert (Hiff : b = true <-> referenced segid memory \/ referenced segid durable).
  { rewrite Hb. split.
    - intros ([] & range & _ & k & loc & Hl & Hseg & _); [right|left]; by exists k, loc.
    - assert (Hgo : forall d : bool, lists_refs segid dir (if d then durable else memory) -> referenced segid (if d then durable else memory) ->
        exists d range, (d, range) ∈ scans_of ranges /\ found segid (sorted_directory dir) range (if d : bool then durable else memory)).
      { intros d Hl (k & loc & Hk & Hseg). destruct (Hcov k) as (range & Hra & Hra'); [apply Hin; by eapply Hl|].
        exists d, range. split; [|exists k, loc; split_and!; try done; apply Hin; by eapply Hl].
        unfold scans_of. apply elem_of_app. destruct d; [right|left]; by apply (list_elem_of_fmap_2 (fun r => (_, r))). }
      intros [Hr'|Hr']; [by apply (Hgo false)|by apply (Hgo true)]. }
  destruct b; naive_solver.
Qed.

(** A directory of three extents, one of which the durable view still refers to. *)
Lemma verify_exact_witness :
  let dir := [mkDirEntry 0 10 9 0; mkDirEntry 10 10 7 4; mkDirEntry 20 10 7 3; mkDirEntry 30 10 9 0] in
  let durable := {[(9, 0) := mkFrameLoc (mkSegid 1 2) 0 0 10]} in
  directory_still_referenced (mkSegid 1 2) (sorted_directory dir) ∅ durable = Some true.
Proof.
  intros dir durable. apply (verify_exact (mkSegid 1 2) dir ∅ durable).
  - intros k loc. by rewrite lookup_empty.
  - intros k loc [<- <-]%lookup_singleton_Some. unfold row_wf, key_u64, FrameLoc_wf, Segid_wf. cbn. unfold is_u32. ulia.
  - cbn. repeat (apply Forall_cons; split; [split; cbn; ulia|]). apply Forall_nil. done.
  - intros k loc. by rewrite lookup_empty.
  - intros k loc [<- <-]%lookup_singleton_Some _. left.
  - intros Hin. repeat (apply elem_of_cons in Hin as [Hin|Hin]; [discriminate Hin|]). by apply not_elem_of_nil in Hin.
  - right. eexists _, _. split; [apply lookup_singleton_eq|reflexivity].
Defined.
