(* ===== verification/CompactPlan.v ===== *)
(** * Compaction: cutting packed batches

    The planning part of [fs/store/extent/compact.rs]: gathered extents, sorted by inode
    and extent, are cut into batches of the size of one segment object so that extents
    that are adjacent in a file stay in one batch where a batch can hold them. *)

From S2P Require Import Prelude.

Definition SMALL_SEGMENT_BYTES : Z := 2 ^ 20.
Definition PACK_CUT_SLACK_BYTES : Z := 32 * 2 ^ 20.
Definition PACK_CUT_SLACK_DIVISOR : Z := 8.

(** Inode, extent index, source store bytes. *)
Abbreviation Meta := (Z * Z * Z)%type.
Definition store_sum (ms : list Meta) : Z := foldr (fun m acc => m.2 + acc) 0 ms.

(** Whether [metas[k - 1]] and [metas[k]] are file-adjacent. *)
Definition adj (metas : list Meta) (k : nat) : bool :=
  match metas !! (k - 1)%nat, metas !! k with
  | Some (ia, ea, _), Some (ib, eb, _) => (ia =? ib) && bool_decide (checked_add_u64 ea 1 = Some eb)
  | _, _ => false
  end.

(** The greedy loop over the metas from [start] on: how many fit; the first always does. *)
Fixpoint fill_batch (target sum : Z) (first : bool) (rest : list Meta) : nat :=
  match rest with
  | [] => O
  | m :: rest =>
      if first || (sat_add_u64 sum m.2 <=? target)
      then S (fill_batch target (sat_add_u64 sum m.2) false rest)
      else O
  end.

(** The latest break in the slack window below [j]. *)
Fixpoint find_break (metas : list Meta) (slack : Z) (start : nat) (deferred : Z) (j : nat) : option nat :=
  match j with
  | O => None
  | S j' =>
      if (start <? j)%nat then
        if negb (adj metas j) then Some j
        else
          let deferred := sat_add_u64 deferred (from_option snd 0 (metas !! j')) in
          if slack <? deferred then None else find_break metas slack start deferred j'
      else None
  end.

(** The run of file-adjacent metas around a position: [[r, e)]. *)
Fixpoint run_start (metas : list Meta) (r : nat) : nat :=
  match r with
  | O => O
  | S r' => if adj metas r then run_start metas r' else r
  end.
Fixpoint run_end (metas : list Meta) (k e : nat) : nat :=
  match k with
  | O => e
  | S k => if adj metas e then run_end metas k (S e) else e
  end.

Definition cut_at (metas : list Meta) (target slack : Z) (start i : nat) : nat :=
  match find_break metas slack start 0 i with
  | Some j => j
  | None =>
      let r := run_start metas i in
      let e := run_end metas (length metas - S i) (S i) in
      let run := u64_wrap (store_sum (take (e - r) (drop r metas))) in
      if (start <? r)%nat && (run <=? target) then r else i
  end.

(** The outer loop; every turn advances [start], so the number of metas is enough fuel. *)
Fixpoint plan_from (fuel : nat) (metas : list Meta) (target slack : Z) (start : nat) : list nat :=
  match fuel with
  | O => []
  | S fuel =>
      if (start <? length metas)%nat then
        let i := (start + fill_batch target 0 true (drop start metas))%nat in
        if (i =? length metas)%nat then [length metas]
        else
          let cut := cut_at metas target slack start i in
          cut :: plan_from fuel metas target slack cut
      else []
  end.
Definition plan_batches (metas : list Meta) (target slack : Z) : list nat :=
  plan_from (length metas) metas target slack 0.

Definition pack_geometry (seal_threshold : Z) : Z * Z :=
  let target := Z.max seal_threshold SMALL_SEGMENT_BYTES in
  (target, Z.min (target / PACK_CUT_SLACK_DIVISOR) PACK_CUT_SLACK_BYTES).

(** A last sliver is folded into its predecessor when both fit one object. *)
Definition plan_compaction_batches (metas : list Meta) (target slack : Z) : list nat :=
  let bounds := plan_batches metas target slack in
  let n := length bounds in
  if (1 <? n)%nat then
    let predecessor_start := if (2 <? n)%nat then bounds !!! (n - 3)%nat else O in
    let last_start := bounds !!! (n - 2)%nat in
    let predecessor_store := u64_wrap (store_sum (take (last_start - predecessor_start) (drop predecessor_start metas))) in
    let last_store := u64_wrap (store_sum (drop last_start metas)) in
    if (last_store <? SMALL_SEGMENT_BYTES) && (sat_add_u64 predecessor_store last_store <=? target)
    then delete (n - 2)%nat bounds
    else bounds
  else bounds.

(** ** What the plan promises *)

(** The metas between two boundaries. *)
Definition part {A} (l : list A) (a b : nat) : list A := take (b - a) (drop a l).

(** Boundaries that increase from [start] to [n]. *)
Fixpoint cuts (start : nat) (bounds : list nat) (n : nat) : Prop :=
  match bounds with
  | [] => start = n
  | b :: rest => (start < b)%nat /\ cuts b rest n
  end.

(** The batches that boundaries cut. *)
Fixpoint batches {A} (l : list A) (start : nat) (bounds : list nat) : list (list A) :=
  match bounds with
  | [] => []
  | b :: rest => part l start b :: batches l b rest
  end.

Definition fits_object (target : Z) (b : list Meta) : Prop := store_sum b <= target \/ length b = 1%nat.

(** A boundary between file-adjacent extents splits a run that no object can hold. *)
Definition seam_ok (metas : list Meta) (target : Z) (b : nat) : Prop :=
  adj metas b = true ->
  exists r e, (r <= b - 1)%nat /\ (b < e)%nat /\ (forall k, (r < k < e)%nat -> adj metas k = true) /\
    target < store_sum (part metas r e).

(** ** Proofs *)

Lemma store_sum_app a b : store_sum (a ++ b) = store_sum a + store_sum b.
Proof. induction a as [|m a IH]; cbn; [done|]. unfold store_sum in *. lia. Qed.
Lemma store_sum_cons m a : store_sum (m :: a) = m.2 + store_sum a.
Proof. done. Qed.
Lemma part_app {A} (l : list A) a b c : (a <= b <= c)%nat -> part l a c = part l a b ++ part l b c.
Proof.
  intros Hab. unfold part. replace (c - a)%nat with ((b - a) + (c - b))%nat by lia.
  rewrite <- take_take_drop. f_equal. rewrite drop_drop. do 2 f_equal; lia.
Qed.
Lemma length_part {A} (l : list A) a b : (b <= length l)%nat -> length (part l a b) = (b - a)%nat.
Proof. intros. unfold part. rewrite length_take, length_drop. lia. Qed.
Lemma part_all {A} (l : list A) a : part l a (length l) = drop a l.
Proof. unfold part. rewrite take_ge; [done|]. rewrite length_drop. lia. Qed.
Lemma part_one {A} (l : list A) a x : l !! a = Some x -> part l a (S a) = [x].
Proof.
  intros Hx. unfold part. replace (S a - a)%nat with 1%nat by lia. by rewrite (drop_S _ _ _ Hx).
Qed.

Lemma batches_concat {A} (l : list A) bounds : forall start,
  (start <= length l)%nat -> cuts start bounds (length l) -> concat (batches l start bounds) = drop start l.
Proof.
  assert (Hle : forall bounds a n, cuts a bounds n -> (a <= n)%nat).
  { induction bounds0 as [|b r IH]; intros a n; cbn; [lia|]. intros [? ?%IH]. lia. }
  induction bounds as [|b rest IH]; intros start Hs; cbn.
  - intros ->. by rewrite drop_all.
  - intros [Hb Hc]. pose proof (Hle _ _ _ Hc). rewrite IH by done.
    rewrite <- !part_all. symmetry. apply part_app. lia.
Qed.

Section plan.
Context (metas : list Meta) (target slack : Z).
Hypothesis sizes : Forall (fun m : Meta => 0 <= m.2) metas.
Hypothesis total : store_sum metas <= U64_MAX.

Lemma store_nonneg (ms : list Meta) : ms ⊆+ metas -> 0 <= store_sum ms.
Proof.
  intros Hs. assert (Hf : Forall (fun m : Meta => 0 <= m.2) ms).
  { apply Forall_forall. intros m Hm. rewrite Forall_forall in sizes. apply sizes. by eapply elem_of_submseteq. }
  clear Hs. induction Hf as [|m ms Hm _ IH]; [done|]. rewrite store_sum_cons. lia.
Qed.
Lemma part_sub a b : part metas a b ⊆+ metas.
Proof. apply sublist_submseteq. unfold part. etrans; [apply sublist_take|apply sublist_drop]. Qed.
Lemma part_nonneg a b : 0 <= store_sum (part metas a b).
Proof. apply store_nonneg, part_sub. Qed.
Lemma part_mono a a' b b' : (a' <= a <= b)%nat -> (b <= b')%nat -> store_sum (part metas a b) <= store_sum (part metas a' b').
Proof.
  intros Ha Hb. rewrite (part_app metas a' a b') by lia. rewrite (part_app metas a b b') by lia.
  rewrite !store_sum_app. pose proof (part_nonneg a' a). pose proof (part_nonneg b b'). lia.
Qed.
Lemma part_u64 a b : is_u64 (store_sum (part metas a b)).
Proof.
  split; [apply part_nonneg|].
  assert (Hp : store_sum (part metas a b) <= store_sum (drop a metas)).
  { unfold part. rewrite <- (take_drop (b - a) (drop a metas)) at 2. rewrite store_sum_app.
    assert (0 <= store_sum (drop (b - a) (drop a metas))); [|lia]. apply store_nonneg, sublist_submseteq.
    etrans; apply sublist_drop. }
  assert (Hd : store_sum (drop a metas) <= store_sum metas).
  { rewrite <- (take_drop a metas) at 2. rewrite store_sum_app.
    assert (0 <= store_sum (take a metas)); [|lia]. apply store_nonneg, sublist_submseteq, sublist_take. }
  lia.
Qed.

Lemma part_S start i m : (start <= i)%nat -> metas !! i = Some m ->
  store_sum (part metas start (S i)) = store_sum (part metas start i) + m.2.
Proof.
  intros Hs Hm. rewrite (part_app metas start i (S i)) by lia. rewrite (part_one _ _ _ Hm), store_sum_app. cbn. lia.
Qed.
Lemma sat_sum start i m : (start <= i)%nat -> metas !! i = Some m ->
  sat_add_u64 (store_sum (part metas start i)) m.2 = store_sum (part metas start (S i)).
Proof. intros Hs Hm. rewrite (part_S start i m) by done. pose proof (part_u64 start (S i)) as Hu. rewrite (part_S start i m) in Hu by done. ulia. Qed.

Lemma fill_more n : forall start i, (length metas - i = n)%nat -> (start <= i)%nat ->
  let k := fill_batch target (store_sum (part metas start i)) false (drop i metas) in
  (k = O \/ (i + k <= length metas)%nat /\ store_sum (part metas start (i + k)) <= target) /\
  ((i + k < length metas)%nat -> target < store_sum (part metas start (S (i + k)))).
Proof.
  induction n as [|n IH]; intros start i Hn Hs k.
  { unfold k. rewrite drop_ge by lia. cbn. split; [by left|lia]. }
  destruct (lookup_lt_is_Some_2 metas i ltac:(lia)) as [m Hm]. unfold k. rewrite (drop_S _ _ _ Hm). cbn [fill_batch orb].
  rewrite (sat_sum start i m) by done. destruct (Z.leb_spec (store_sum (part metas start (S i))) target) as [Hle|Hgt].
  - destruct (IH start (S i)) as [Hk Hf]; [lia..|]. rewrite <- Nat.add_succ_comm. split; [|done].
    right. destruct Hk as [->|[? ?]]; rewrite ?Nat.add_0_r; (split; [|done]); lia.
  - split; [by left|]. rewrite Nat.add_0_r. done.
Qed.

(** The greedy loop: at least one meta, within the target unless it is only one, and
    the next one would not have fitted. *)
Lemma fill_spec start : (start < length metas)%nat ->
  let i := (start + fill_batch target 0 true (drop start metas))%nat in
  (start < i <= length metas)%nat /\ fits_object target (part metas start i) /\
  ((i < length metas)%nat -> target < store_sum (part metas start (S i))).
Proof.
  intros Hs i. destruct (lookup_lt_is_Some_2 metas start Hs) as [m Hm]. unfold i. rewrite (drop_S _ _ _ Hm). cbn [fill_batch orb].
  assert (H0 : store_sum (part metas start start) = 0) by (unfold part; by rewrite Nat.sub_diag).
  rewrite <- H0, (sat_sum start start m) by done.
  destruct (fill_more (length metas - S start) start (S start)) as [Hk Hf]; [lia..|].
  rewrite <- Nat.add_succ_comm. destruct Hk as [Hk|[Hk Hle]].
  - rewrite Hk, Nat.add_0_r in *. split; [lia|]. split; [|done]. right. rewrite length_part; lia.
  - split; [lia|]. split; [by left|done].
Qed.

Lemma find_break_spec start d j c : find_break metas slack start d j = Some c ->
  (start < c <= j)%nat /\ adj metas c = false.
Proof.
  revert d. induction j as [|j IH]; intros d; [done|]. cbn [find_break]. destruct (Nat.ltb_spec start (S j)); [|done].
  destruct (adj metas (S j)) eqn:Ea; cbn [negb]; [|intros [= <-]; split; [lia|done]].
  destruct (_ <? _); [done|]. intros [Hc ?]%IH. split; [lia|done].
Qed.
Lemma run_start_spec r : (run_start metas r <= r)%nat /\
  (run_start metas r = O \/ adj metas (run_start metas r) = false) /\
  forall k, (run_start metas r < k <= r)%nat -> adj metas k = true.
Proof.
  induction r as [|r (Hle & Hb & Ha)]; cbn [run_start]; [split_and!; [lia|by left|lia]|].
  destruct (adj metas (S r)) eqn:E; [|split_and!; [lia|by right|lia]].
  split_and!; [lia|done|]. intros k Hk. destruct (decide (k = S r)) as [->|]; [done|]. apply Ha. lia.
Qed.
Lemma run_end_spec k : forall e, (e + k = length metas)%nat ->
  (e <= run_end metas k e <= length metas)%nat /\ forall j, (e <= j < run_end metas k e)%nat -> adj metas j = true.
Proof.
  induction k as [|k IH]; intros e He; cbn [run_end]; [split; lia|].
  destruct (adj metas e) eqn:E; [|split; lia]. destruct (IH (S e)) as [Hr Ha]; [lia|]. split; [lia|].
  intros j Hj. destruct (decide (j = e)) as [->|]; [done|]. apply Ha. lia.
Qed.

Lemma cut_spec start i :
  (start < i < length metas)%nat -> target < store_sum (part metas start (S i)) ->
  (start < cut_at metas target slack start i <= i)%nat /\ seam_ok metas target (cut_at metas target slack start i).
Proof.
  intros Hi Hover. unfold cut_at. destruct (find_break metas slack start 0 i) as [c|] eqn:Eb.
  { apply find_break_spec in Eb as [Hc Ha]. split; [done|]. unfold seam_ok. by rewrite Ha. }
  destruct (run_start_spec i) as (Hr & Hb & Hra). set (r := run_start metas i) in *.
  destruct (run_end_spec (length metas - S i) (S i)) as [He Hea]; [lia|]. set (e := run_end metas _ (S i)) in *.
  fold (part metas r e). rewrite (u64_wrap_id _ (part_u64 r e)).
  destruct (Nat.ltb_spec start r) as [Hsr|Hsr]; cbn [andb].
  - destruct (Z.leb_spec (store_sum (part metas r e)) target) as [Hle|Hgt].
    + split; [lia|]. destruct Hb as [Hb|Hb]; [lia|]. unfold seam_ok. by rewrite Hb.
    + split; [lia|]. intros Ha. exists r, e. split_and!; [|lia| |done].
      * destruct (decide (r = i)) as [E|]; [|lia]. destruct Hb as [Hb|Hb]; [lia|]. congruence.
      * intros k Hk. destruct (decide (k <= i)%nat); [apply Hra|apply Hea]; lia.
  - split; [lia|]. intros Ha. exists r, e. split_and!; [lia|lia| |].
    + intros k Hk. destruct (decide (k <= i)%nat); [apply Hra|apply Hea]; lia.
    + pose proof (part_mono start r (S i) e ltac:(lia) ltac:(lia)). lia.
Qed.

Lemma adj_end : adj metas (length metas) = false.
Proof. unfold adj. rewrite (lookup_ge_None_2 metas (length metas)) by lia. by destruct (metas !! _) as [[[? ?] ?]|]. Qed.

Lemma fits_less start c i : (start < c <= i)%nat -> (i <= length metas)%nat ->
  fits_object target (part metas start i) -> fits_object target (part metas start c).
Proof.
  intros Hc Hi [Hle|H1].
  - left. pose proof (part_mono start start c i ltac:(lia) ltac:(lia)). lia.
  - right. rewrite length_part in H1 |- * by lia. lia.
Qed.

Lemma plan_from_spec fuel : forall start,
  (length metas - start <= fuel)%nat -> (start <= length metas)%nat ->
  let bounds := plan_from fuel metas target slack start in
  cuts start bounds (length metas) /\ Forall (fits_object target) (batches metas start bounds) /\
  Forall (seam_ok metas target) bounds.
Proof.
  induction fuel as [|fuel IH]; intros start Hf Hs; cbn [plan_from].
  { split; [cbn; lia|]. split; constructor. }
  destruct (Nat.ltb_spec start (length metas)) as [Hlt|Hge]; [|split; [cbn; lia|split; constructor]].
  destruct (fill_spec start Hlt) as (Hi & Hfit & Hover). set (i := (start + _)%nat) in *.
  destruct (Nat.eqb_spec i (length metas)) as [E|Hne].
  - rewrite E in *. cbn. split_and!; [lia|done|by apply Forall_singleton|]. apply Forall_singleton.
    unfold seam_ok. by rewrite adj_end.
  - destruct (cut_spec start i) as [Hc Hseam]; [lia|apply Hover; lia|].
    destruct (IH (cut_at metas target slack start i)) as (Hcu & Hb & Hse); [lia..|].
    cbn [cuts batches]. split_and!; [lia|done| |by constructor]. constructor; [|done].
    eapply fits_less; [done|lia|done].
Qed.
End plan.

(** *** The last sliver *)

Definition end_of (start : nat) (pre : list nat) : nat := default start (last pre).

Lemma cuts_app pre rest n : forall start, cuts start (pre ++ rest) n <-> cuts start pre (end_of start pre) /\ cuts (end_of start pre) rest n.
Proof.
  unfold end_of. induction pre as [|b pre IH]; intros start; [cbn; tauto|]. cbn [app cuts]. rewrite IH.
  rewrite last_cons. destruct (last pre); cbn; tauto.
Qed.
Lemma batches_app {A} (l : list A) pre rest : forall start,
  batches l start (pre ++ rest) = batches l start pre ++ batches l (end_of start pre) rest.
Proof.
  unfold end_of. induction pre as [|b pre IH]; intros start; [done|]. cbn [app batches]. rewrite IH, last_cons.
  by destruct (last pre).
Qed.

Lemma bounds_split (bounds : list nat) : (1 < length bounds)%nat ->
  exists pre a b, bounds = pre ++ [a; b] /\ bounds !!! (length bounds - 2)%nat = a /\
    delete (length bounds - 2)%nat bounds = pre ++ [b] /\
    (if (2 <? length bounds)%nat then bounds !!! (length bounds - 3)%nat else O) = end_of O pre.
Proof.
  intros Hn. destruct bounds as [|b l _] using rev_ind; [cbn in Hn; lia|].
  destruct l as [|a pre _] using rev_ind; [cbn in Hn; lia|]. exists pre, a, b.
  rewrite <- app_assoc. cbn [app]. rewrite !length_app. cbn [length]. split; [done|].
  replace (length pre + 2 - 2)%nat with (length pre) by lia. split_and!.
  - rewrite list_lookup_total_alt, lookup_app_r, Nat.sub_diag by lia. done.
  - apply delete_middle.
  - unfold end_of. destruct pre as [|c l _] using rev_ind; [done|]. rewrite length_app, last_snoc. cbn [length].
    destruct (Nat.ltb_spec 2 (length l + 1 + 2)); [|lia]. rewrite list_lookup_total_alt, lookup_app_l by (rewrite length_app; cbn; lia).
    replace (length l + 1 + 2 - 3)%nat with (length l) by lia. by rewrite lookup_app_r, Nat.sub_diag by lia.
Qed.

Lemma plan_compaction_spec metas target slack :
  Forall (fun m : Meta => 0 <= m.2) metas -> store_sum metas <= U64_MAX ->
  let bounds := plan_compaction_batches metas target slack in
  cuts 0 bounds (length metas) /\ Forall (fits_object target) (batches metas 0 bounds) /\
  Forall (seam_ok metas target) bounds.
Proof.
  intros Hs Ht. destruct (plan_from_spec metas target slack Hs Ht (length metas) 0) as (Hc & Hf & Hse); [lia..|].
  unfold plan_compaction_batches. fold (plan_batches metas target slack) in *. cbn zeta.
  destruct (Nat.ltb_spec 1 (length (plan_batches metas target slack))) as [Hn|]; [|done].
  destruct (bounds_split _ Hn) as (pre & a & b & Hb & -> & -> & ->). rewrite Hb in *. clear Hb Hn.
  destruct ((_ <? SMALL_SEGMENT_BYTES) && _) eqn:Efold; [|done]. apply andb_prop in Efold as [_ Hle].
  rewrite cuts_app in Hc. destruct Hc as [Hc1 Hc]. cbn [cuts] in Hc. destruct Hc as (Ha & Hab & Hb). subst b. rewrite batches_app in Hf. apply Forall_app in Hf as [Hf _].
  apply Forall_app in Hse as [Hse Hse']. split_and!.
  - rewrite cuts_app. split; [done|]. cbn. lia.
  - rewrite batches_app. apply Forall_app. split; [done|]. cbn. constructor; [|constructor]. left.
    rewrite (part_app metas _ a) by lia. rewrite store_sum_app.
    fold (part metas (end_of 0 pre) a) in Hle. rewrite <- (part_all metas a) in Hle.
    rewrite !u64_wrap_id in Hle by (by apply part_u64). pose proof (part_u64 metas Hs Ht (end_of 0 pre) (length metas)) as Hu.
    rewrite (part_app metas _ a), store_sum_app in Hu by lia. apply Z.leb_le in Hle. ulia.
  - apply Forall_app. split; [done|]. by apply Forall_cons in Hse' as [_ ?].
Qed.

