(* ===== verification/Compact.v ===== *)
(** * Compaction

    [fs/store/extent/compact.rs]: the live frames of some source segments are gathered,
    still compressed, packed into fresh segments, and the extents that still point at
    their source frame are repointed.

    Compaction runs beside everything else, so [compact_segments] is a machine: each of
    its steps ([compact_step]) is one stretch between suspensions of the task, and the
    steps of readers, writers, flushes and the commit worker come in between.  Requests that
    the code has in flight together are answered one by one, in any order.  The commit of a
    repoint goes through the worker's queue; until its reply the task holds the lock of the
    inode. *)

From stdpp Require Import sorting.
From S2P Require Import Prelude Errors FrameCodec Segment Lanes FrameStore SegmentStore Frames Inode Dedup Store Commit Ops.
From S2P Require Import Extent Volume CompactPlan.

Definition GATHER_FRAME_OVERHEAD_BYTES : Z := 200.

(** ** Gathering *)

(** [seen], [frames] and [gathered]. *)
Record Gathered := mkGathered {
  ga_seen : gset (Z * Z);
  ga_frames : list (Z * Z * FrameLoc * Compressed);
  ga_bytes : Z }.

(** The unique extents of a directory that were not gathered before. *)
Fixpoint want_of (seen local : gset (Z * Z)) (dir : list DirEntry) : list (Z * Z) :=
  match dir with
  | [] => []
  | e :: rest =>
      let k := (de_inode e, de_extent e) in
      if bool_decide (k ∈ seen) || bool_decide (k ∈ local) then want_of seen local rest
      else k :: want_of seen ({[k]} ∪ local) rest
  end.

(** The extent if it still points into the segment. *)
Definition live_in (db : Db) (s : Segid) (k : Z * Z) : list (Z * Z * FrameLoc) :=
  match extents db !! k with
  | Some loc => if bool_decide (fl_segid loc = s) then [(k, loc)] else []
  | None => []
  end.

Definition frame_le (a b : Z * Z * FrameLoc) : Prop := fl_frame_index a.2 <= fl_frame_index b.2.
#[export] Instance frame_le_dec a b : Decision (frame_le a b).
Proof. unfold frame_le. apply _. Defined.

(** [CompactRun]: byte offset, byte length, first frame, slots. *)
Record CompactRun := mkCompactRun {
  cr_offset : Z; cr_len : Z; cr_first : Z; cr_slots : list (Z * Z) }.

Definition extends_run (r : CompactRun) (loc : FrameLoc) : bool :=
  (u32_wrap (cr_first r + zlen (cr_slots r)) =? fl_frame_index loc) &&
  (u64_wrap (cr_offset r + cr_len r) =? fl_byte_offset loc).

Fixpoint compact_runs (cur : option CompactRun) (live : list (Z * Z * FrameLoc)) : list CompactRun :=
  match live with
  | [] => match cur with Some r => [r] | None => [] end
  | (k, loc) :: rest =>
      let fresh := mkCompactRun (fl_byte_offset loc) (fl_byte_len loc) (fl_frame_index loc) [k] in
      match cur with
      | Some r =>
          if extends_run r loc
          then compact_runs (Some (mkCompactRun (cr_offset r) (u32_wrap (cr_len r + fl_byte_len loc)) (cr_first r)
                                     (cr_slots r ++ [k]))) rest
          else r :: compact_runs (Some fresh) rest
      | None => compact_runs (Some fresh) rest
      end
  end.

(** The loop over the payloads; [loc_of] has the location of every slot of a run. *)
Definition gather_one (loc_of : gmap (Z * Z) FrameLoc) (g : Gathered) (f : Z * Z * Compressed) : Gathered :=
  mkGathered ({[f.1]} ∪ ga_seen g)
    (ga_frames g ++ match loc_of !! f.1 with Some loc => [(f.1, loc, f.2)] | None => [] end)
    (ga_bytes g + zlen (payload f.2) + GATHER_FRAME_OVERHEAD_BYTES).

(** ** Packing *)

Definition slot_le (a b : Z * Z * FrameLoc * Compressed) : Prop :=
  a.1.1.1 < b.1.1.1 \/ a.1.1.1 = b.1.1.1 /\ a.1.1.2 <= b.1.1.2.
#[export] Instance slot_le_dec a b : Decision (slot_le a b).
Proof. unfold slot_le. apply _. Defined.

(** A batch with the source location of each frame. *)
Abbreviation PackBatch := (list (Z * Z * FrameLoc * Compressed)).

(** ** Repointing *)

(** Extent, source location, packed location. *)
Abbreviation Repoint := (Z * FrameLoc * FrameLoc)%type.

(** The groups of [by_inode], in the order of the inodes. *)
Fixpoint add_group (id : Z) (r : Repoint) (gs : list (Z * list Repoint)) : list (Z * list Repoint) :=
  match gs with
  | [] => [(id, [r])]
  | (id', rs) :: gs' =>
      if id =? id' then (id', rs ++ [r]) :: gs'
      else if id <? id' then (id, [r]) :: gs
      else (id', rs) :: add_group id r gs'
  end.
Definition by_inode (src : list FrameLoc) (locs : list (Z * Z * FrameLoc)) : list (Z * list Repoint) :=
  foldl (fun gs (p : Z * Z * FrameLoc * FrameLoc) => add_group p.1.1.1 (p.1.1.2, p.2, p.1.2) gs) [] (zip locs src).

(** The extents of one inode that still point at their source frame. *)
Fixpoint repoint_items (db : Db) (id : Z) (items : list Repoint) (t : Transaction) : nat * Transaction :=
  match items with
  | [] => (O, t)
  | (x, old, new) :: rest =>
      if bool_decide (extents db !! (id, x) = Some old) then
        let t := push (PutExtent id x new) t in
        let t := add_seg_delta (fl_segid old) (- fl_byte_len old) 0 t in
        let t := add_seg_delta (fl_segid new) (fl_byte_len new) (fl_byte_len new) t in
        let '(n, t) := repoint_items db id rest t in (S n, t)
      else repoint_items db id rest t
  end.

(** ** The machine *)

(** Frames relocated and segments packed so far, sources consumed. *)
Record Progress := mkProgress { pr_relocated : nat; pr_packed : nat; pr_consumed : nat }.

(** One batch after its seal: the inodes left to repoint, the extents swapped so far and
    the packed segment. *)
Record Packed := mkPacked {
  pk_groups : list (Z * list Repoint);
  pk_swapped : nat;
  pk_segid : option Segid;
  pk_batches : list PackBatch;
  pk_done : Progress }.

(** The part of [gather_source] that comes next: the directory, the liveness reads, the
    ranged GETs. *)
Inductive GatherPhase :=
| Listing
| Resolving (want : list (Z * Z)) (live : list (Z * Z * FrameLoc))
| Reading (loc_of : gmap (Z * Z) FrameLoc) (runs : list CompactRun) (read : list (Z * Z * Compressed)).

(** The sources left, the current one first, and how many of them are in the current
    group; the sizes of the groups to come. *)
Record Gather := mkGather {
  gt_rest : list Segid;
  gt_left : nat;
  gt_sizes : list nat;
  gt_consumed : nat;
  gt_acc : Gathered }.

Inductive Compaction :=
| Gathering (ph : GatherPhase) (g : Gather)
| Packing (bs : list PackBatch) (done : Progress)
| Repointing (p : Packed)
| Committing (ahead : nat) (id : Z) (p : Packed)
| Compacted (r : result FsError Progress).

Definition compaction_start (segids : list Segid) (atomic_prefix : list nat) : Compaction :=
  Gathering Listing (mkGather segids 0 (filter (fun g => (0 < g)%nat) atomic_prefix) 0 (mkGathered ∅ [] 0)).

(** What the environment decides about a step: which of several requests is answered,
    whether the answer arrives, nonces, the fate of an upload or a delete. *)
Record CompactChoice := mkChoice {
  ch_pick : nat; ch_arrives : bool;
  ch_fate : PutFate; ch_dir_nonce : bytes; ch_nonces : nat -> bytes;
  ch_landed : bool }.

Section compact.
Context `{CodecPrims, Crc32c} (compression : CompressionConfig) (seal_threshold : Z).

Definition pack_batches (frames : list (Z * Z * FrameLoc * Compressed)) : list PackBatch :=
  let frames := merge_sort slot_le frames in
  let metas := map (fun f => (f.1.1, fl_byte_len f.1.2)) frames in
  let '(target, slack) := pack_geometry seal_threshold in
  batches frames 0 (plan_compaction_batches metas target slack).

(** [SegmentStore::seal_compressed]: the checks come before the identity is drawn. *)
Definition store_seal_compressed (fate : PutFate) (dir_nonce : bytes) (nonces : nat -> bytes)
    (batch : list (Z * Z * Compressed)) (f : Frames)
    : result SegmentStoreError (list (Z * Z * FrameLoc)) * Frames :=
  let frames := imap (fun i b => (b, nonces i)) batch in
  match (_ ← checked_frame_count 0 (zlen batch) WIRE;
         _ ← checked_directory_plaintext_len (zlen batch) WIRE;
         check_body_lens WIRE frames) with
  | Err e => (Err (SegmentFailed e), f)
  | Ok _ =>
      let '(s, f) := next_segid f in
      match seal_compressed_with_limits compression s dir_nonce WIRE frames with
      | Err e => (Err (SegmentFailed e), f)
      | Ok (object, locs) =>
          let '(r, objects) := put_segment fate s object (fr_objects f) in
          (match r with Ok _ => Ok locs | Err e => Err e end, set_objects objects f)
      end
  end.

Definition gather_step (c : CompactChoice) (round_bytes : Z) (db : Db) (st : ObjectStore) (ph : GatherPhase) (g : Gather)
    : Compaction :=
  match ph, g with
  | Listing, mkGather [] _ _ consumed acc => Packing (pack_batches (ga_frames acc)) (mkProgress 0 0 consumed)
  | Listing, mkGather (s :: rest) O sizes consumed acc =>
      if round_bytes <=? ga_bytes acc then Packing (pack_batches (ga_frames acc)) (mkProgress 0 0 consumed)
      else Gathering Listing (mkGather (s :: rest) (Nat.min (default 1%nat (head sizes)) (length (s :: rest))) (tail sizes) consumed acc)
  | Listing, mkGather (s :: _) (S _) _ _ acc =>
      match store_read_directory st s with
      | Ok dir => if ch_arrives c then Gathering (Resolving (want_of (ga_seen acc) ∅ dir) []) g else Compacted (Err IoError)
      | Err _ => Compacted (Err IoError)
      end
  | Resolving [] live, _ =>
      let live := merge_sort frame_le live in
      Gathering (Reading (list_to_map live) (compact_runs None live) []) g
  | Resolving want live, _ =>
      match want !! ch_pick c, head (gt_rest g) with
      | Some k, Some s =>
          if ch_arrives c then Gathering (Resolving (delete (ch_pick c) want) (live ++ live_in db s k)) g
          else Compacted (Err IoError)
      | _, _ => Gathering ph g
      end
  | Reading loc_of [] read, mkGather rest members sizes consumed acc =>
      Gathering Listing (mkGather (tail rest) (pred members) sizes (S consumed) (foldl (gather_one loc_of) acc read))
  | Reading loc_of runs read, _ =>
      match runs !! ch_pick c, head (gt_rest g) with
      | Some r, Some s =>
          match store_read_compressed_run st s (cr_offset r) (cr_len r) (cr_first r) (cr_slots r) with
          | Ok payloads =>
              if ch_arrives c then Gathering (Reading loc_of (delete (ch_pick c) runs) (read ++ zip (cr_slots r) payloads)) g
              else Compacted (Err IoError)
          | Err _ => Compacted (Err IoError)
          end
      | _, _ => Gathering ph g
      end
  end.

Definition on_frames {A} (m : Frames -> A * Frames) (v : Volume Frames) : A * Volume Frames :=
  let '(a, f) := m (es_frames (v_es v)) in (a, set_v_es (set_frames f (v_es v)) v).

(** [lock_inode_settled] waits until no write of the inode is queued. *)
Definition inode_settled (v : Volume Frames) (id : Z) : bool :=
  bool_decide (pending_overlaps (v_inflight v) id None = []).

Definition compact_step (env : Env) (c : CompactChoice) (round_bytes : Z) (v : Volume Frames) (t : Compaction)
    : Volume Frames * Compaction :=
  match t with
  | Gathering ph g => (v, gather_step c round_bytes (v_db v) (fr_objects (es_frames (v_es v))) ph g)
  | Packing [] done => (v, Compacted (Ok done))
  | Packing (b :: bs) done =>
      let '(r, v) := on_frames (store_seal_compressed (ch_fate c) (ch_dir_nonce c) (ch_nonces c)
                                  (map (fun f => (f.1.1, f.2)) b)) v in
      match r with
      | Err _ => (v, Compacted (Err IoError))
      | Ok locs =>
          (v, Repointing (mkPacked (by_inode (map (fun f => f.1.2) b) locs) 0
                            ((fun l => fl_segid l.2) <$> head locs) bs done))
      end
  | Repointing (mkPacked [] swapped segid bs done) =>
      let v := match swapped, segid with
               | O, Some s =>
                   (on_frames (fun f => let '(r, ob) := delete_segment (ch_arrives c) (ch_landed c) s (fr_objects f) in
                                        (r, set_objects ob f)) v).2
               | _, _ => v
               end in
      (v, Packing bs (mkProgress (pr_relocated done + swapped) (pr_packed done + Nat.min swapped 1) (pr_consumed done)))
  | Repointing (mkPacked ((id, items) :: gs) swapped segid bs done) =>
      if inode_settled v id then
        match new_transaction env with
        | Err e => (v, Compacted (Err e))
        | Ok t =>
            let '(n, t) := repoint_items (v_db v) id items t in
            let p := mkPacked gs (swapped + n) segid bs done in
            if negb (ch_arrives c) then (v, Compacted (Err IoError))
            else if (0 <? n)%nat
            then ((submit_owned t None SettleNone [] [] v).2, Committing (length (v_queue v)) id p)
            else (v, Repointing p)
        end
      else (v, t)
  | Committing _ _ _ | Compacted _ => (v, t)
  end.

(** A turn of the worker over [n] queued commits answers a commit that is among them. *)
Definition deliver (n : nat) (r : result FsError unit) (t : Compaction) : Compaction :=
  match t with
  | Committing ahead id p =>
      if (ahead <? n)%nat then match r with Ok _ => Repointing p | Err e => Compacted (Err e) end
      else Committing (ahead - n) id p
  | _ => t
  end.

(** The inode that the task holds locked. *)
Definition holds_lock (t : Compaction) (id : Z) : Prop :=
  match t with Committing _ id' _ => id = id' | _ => False end.
End compact.
