(* ===== verification/Gc.v ===== *)
(** * Reclaiming segments

    The deleting half of [fs/store/extent/reclaim.rs]: a pass over the durable segment
    counters ([reclaim_segments_gated]) and the sweep of objects without a counter
    ([sweep_orphans]).  Both start with a barrier (no transaction with extents is queued,
    everything is sealed and flushed) that fixes which segments are eligible, verify each
    candidate with [Verify] and then delete its object; the pass also drops the counters.

    Like compaction, the task is a machine: a step is one stretch between its suspensions,
    and readers, writers, flushes and the commit worker run in between.  Which segments the
    pass hands to compaction afterwards is [select.rs]; [World] lets compaction start with
    any. *)

From stdpp Require Import sorting.
From S2P Require Import Prelude Errors FrameCodec Segment Lanes FrameStore SegmentStore Frames Inode Dedup Store Commit Ops.
From S2P Require Import Extent Volume Compact Verify.

Definition MAX_SEGMENT_DELETES_PER_PASS : nat := 1024.

(** ** Eligible segments *)

(** The epoch, the counter above the open lanes, and the open lanes. *)
Record Boundary := mkBoundary { bd_epoch : Z; bd_cutoff : Z; bd_open : list Segid }.
Definition current_open_boundary (f : Frames) : Boundary :=
  let current := map os_segid (fr_lanes f) in
  mkBoundary (fr_epoch f) (sat_add_u64 (foldr (fun s m => Z.max (counter s) m) 0 current) 1) current.

Definition eligible (b : Boundary) (s : Segid) : bool :=
  (epoch s <? bd_epoch b) ||
  ((epoch s =? bd_epoch b) && (counter s <? bd_cutoff b) && negb (bool_decide (s ∈ bd_open b))).

(** The segments that the counters call dead, in the order of the scan. *)
Definition segid_le (a b : Segid * (Z * Z)) : Prop :=
  epoch a.1 < epoch b.1 \/ epoch a.1 = epoch b.1 /\ counter a.1 <= counter b.1.
#[export] Instance segid_le_dec a b : Decision (segid_le a b).
Proof. unfold segid_le. apply _. Defined.
Definition dead_segments (b : Boundary) (pinned : bool) (counts : gmap Segid (Z * Z)) : list Segid :=
  map fst (List.filter (fun row => eligible b row.1 && negb pinned && (row.2.1 =? 0)) (merge_sort segid_le (map_to_list counts))).

(** A dead segment is deleted once the horizon of the pass that saw it first has passed. *)
Fixpoint classify (now horizon : Z) (dead to_delete waiting : list Segid) (delete_at : gmap Segid Z)
    : list Segid * gmap Segid Z :=
  match dead with
  | [] => (to_delete, filter (fun d => d.1 ∈ waiting) delete_at)
  | s :: rest =>
      let due := default horizon (delete_at !! s) in
      if (due <=? now) && (length to_delete <? MAX_SEGMENT_DELETES_PER_PASS)%nat
      then classify now horizon rest (to_delete ++ [s]) waiting (delete s delete_at)
      else classify now horizon rest to_delete (s :: waiting) (<[s := due]> delete_at)
  end.

(** ** The machine *)

Inductive SegmentDeadVerdict := Reclaim | ObjectAbsent | Keep.

(** A pass, or a sweep of objects older than a time. *)
Inductive GcKind := ReclaimPass | OrphanSweep (modified_before : Z).

(** Segments left, the ones whose counters go, and how many were deleted. *)
Record Collect := mkCollect {
  gc_kind : GcKind;
  gc_boundary : Boundary;
  gc_todo : list Segid;
  gc_freed : list Segid;
  gc_deleted : nat }.

Inductive Collection :=
| Barrier (k : GcKind)
| Gating (b : Boundary)
| Scanning (b : Boundary) (horizon : Z) (pinned : bool)
| Listed (b : Boundary) (modified_before : Z) (orphans : list Segid)
| Choosing (c : Collect)
| Verifying (s : Segid) (want : list DirEntry) (scans : list (bool * (bytes * bytes))) (c : Collect)
| Verified (s : Segid) (verdict : SegmentDeadVerdict) (c : Collect)
| Deleting (s : Segid) (c : Collect)
| Dropping (rest drops : list Segid) (deleted : nat)
| Dropped (ahead deleted : nat)
| Collected (r : result FsError nat).

(** What the environment decides about a step; a flush or a delete whose answer is lost may
    have landed. *)
Record GcChoice := mkGcChoice {
  gh_flush : FlushEnv; gh_flushed : bool;
  gh_gate : result FsError (option (Z * option Z));
  gh_now : Z; gh_arrives : bool; gh_landed : bool;
  gh_object : option (Segid * Z) }.

(** The volume, the durable view of the tree, and the deadlines of dead segments. *)
Record GcState := mkGcState { gs_vol : Volume Frames; gs_durable : Db; gs_delete_at : gmap Segid Z }.
Definition set_gs_frames (f : Frames) (g : GcState) : GcState :=
  mkGcState (set_v_es (set_frames f (v_es (gs_vol g))) (gs_vol g)) (gs_durable g) (gs_delete_at g).

Definition next_choice (c : Collect) : Collect :=
  mkCollect (gc_kind c) (gc_boundary c) (tail (gc_todo c)) (gc_freed c) (gc_deleted c).
Definition free (s : Segid) (n : nat) (c : Collect) : Collect :=
  mkCollect (gc_kind c) (gc_boundary c) (tail (gc_todo c)) (gc_freed c ++ [s]) (gc_deleted c + n).

(** The transaction that drops counters. *)
Definition drop_txn (drops : list Segid) (t : Transaction) : Transaction := foldl (fun t s => push (DelSegcount s) t) t drops.

Section gc.
Context `{CodecPrims, Crc32c} (compression : CompressionConfig) (max_inflight_seals : Z).

(** The barrier: no guard of an extent reference is held, which every queued transaction
    with extents and a running compaction do; then the flush of [flush_coordinator.rs]. *)
Definition flush_barrier_step (c : GcChoice) (g : GcState) : result FsError unit * GcState :=
  let '(r, f) := seal_open compression max_inflight_seals (gh_flush c) (es_frames (v_es (gs_vol g))) in
  let g := set_gs_frames f g in
  match r with
  | Some (Ok _) =>
      if gh_flushed c
      then (if gh_arrives c then Ok tt else Err IoError, mkGcState (gs_vol g) (v_db (gs_vol g)) (gs_delete_at g))
      else (Err IoError, g)
  | Some (Err e) => (Err e, g)
  | None => (Err IoError, g)
  end.

(** [verify_segment_reclaimable] up to its scans. *)
Definition start_verify (c : GcChoice) (st : ObjectStore) (s : Segid) (k : Collect) : Collection :=
  match store_read_directory st s with
  | Err SegmentNotFound => if gh_arrives c then Verified s ObjectAbsent k else Verified s Keep k
  | Err _ => Verified s Keep k
  | Ok dir =>
      if negb (gh_arrives c) then Verified s Keep k
      else
        match sorted_directory dir with
        | [] => Verified s Reclaim k
        | want =>
            match extent_scan_ranges want with
            | Some ranges => Verifying s want (scans_of ranges) k
            | None => Verified s Keep k
            end
        end
  end.

(** The gate of the caller, after the barrier. *)
Definition gate_step (c : GcChoice) (b : Boundary) : Collection :=
  match gh_gate c with
  | Err e => Collected (Err e)
  | Ok None => Collected (Ok O)
  | Ok (Some (horizon, protect_before)) => Scanning b horizon (bool_decide (is_Some protect_before))
  end.

(** The scan of the durable counters, and which dead segments are due. *)
Definition scan_step (c : GcChoice) (b : Boundary) (horizon : Z) (pinned : bool) (g : GcState) : GcState * Collection :=
  if negb (gh_arrives c) then (g, Collected (Err IoError))
  else
    let dead := dead_segments b pinned (segcounts (gs_durable g)) in
    let '(to_delete, delete_at) := classify (gh_now c) horizon dead [] [] (gs_delete_at g) in
    (mkGcState (gs_vol g) (gs_durable g) delete_at, Choosing (mkCollect ReclaimPass b to_delete [] 0)).

(** One object of the listing of the sweep, or its end. *)
Definition list_step (c : GcChoice) (b : Boundary) (modified_before : Z) (orphans : list Segid) (v : Volume Frames) : Collection :=
  if negb (gh_arrives c) then Collected (Err IoError)
  else
    match gh_object c with
    | None => Choosing (mkCollect (OrphanSweep modified_before) b orphans [] 0)
    | Some (s, mtime) =>
        if eligible b s && (mtime <? modified_before) && bool_decide (is_Some (ob_live (fr_objects (es_frames (v_es v))) !! s))
           && bool_decide (segcounts (v_db v) !! s = None)
        then
          let orphans := orphans ++ [s] in
          if (MAX_SEGMENT_DELETES_PER_PASS <=? length orphans)%nat
          then Choosing (mkCollect (OrphanSweep modified_before) b orphans [] 0)
          else Listed b modified_before orphans
        else Listed b modified_before orphans
    end.

(** The next candidate; after the last one a pass drops the counters. *)
Definition choose_step (env : Env) (c : GcChoice) (st : ObjectStore) (k : Collect) : Collection :=
  match gc_todo k with
  | s :: _ => start_verify c st s k
  | [] =>
      match gc_kind k, gc_freed k with
      | ReclaimPass, _ :: _ =>
          match new_transaction env with
          | Err e => Collected (Err e)
          | Ok _ => Dropping (gc_freed k) [] (gc_deleted k)
          end
      | _, _ => Collected (Ok (gc_deleted k))
      end
  end.

(** A scan of the verify. *)
Definition verify_step (c : GcChoice) (s : Segid) (want : list DirEntry) (scans : list (bool * (bytes * bytes))) (k : Collect)
    (g : GcState) : Collection :=
  match scans with
  | [] => Verified s Reclaim k
  | (durable, range) :: scans =>
      let m := extents (if durable then gs_durable g else v_db (gs_vol g)) in
      match (if gh_arrives c then scan_extent_range_points_here s want range m else None) with
      | Some false => Verifying s want scans k
      | _ => Verified s Keep k
      end
  end.

(** What follows from the verdict; a pass looks at the counter once more. *)
Definition verdict_step (c : GcChoice) (s : Segid) (verdict : SegmentDeadVerdict) (k : Collect) (db : Db) : Collection :=
  match gc_kind k, verdict with
  | _, Keep => Choosing (next_choice k)
  | OrphanSweep _, ObjectAbsent => Choosing (next_choice k)
  | OrphanSweep _, Reclaim => Deleting s k
  | ReclaimPass, _ =>
      match segcounts db !! s with
      | Some (0, _) =>
          if negb (gh_arrives c) then Choosing (next_choice k)
          else match verdict with
               | ObjectAbsent => Choosing (free s 0 k)
               | _ => Deleting s k
               end
      | _ => Choosing (next_choice k)
      end
  end.

Definition delete_step (c : GcChoice) (s : Segid) (k : Collect) (g : GcState) : GcState * Collection :=
  let f := es_frames (v_es (gs_vol g)) in
  let '(r, ob) := delete_segment (gh_arrives c) (gh_landed c) s (fr_objects f) in
  (set_gs_frames (set_objects ob f) g, Choosing (match r with Ok _ => free s 1 k | Err _ => next_choice k end)).

(** The counters that are still there, then the commit that drops them. *)
Definition drop_step (c : GcChoice) (rest drops : list Segid) (deleted : nat) (g : GcState) : GcState * Collection :=
  let v := gs_vol g in
  match rest with
  | [] =>
      if bool_decide (drops = []) then (g, Collected (Ok deleted))
      else
        (mkGcState (submit_owned (drop_txn drops txn_new) None SettleNone [] [] v).2 (gs_durable g) (gs_delete_at g),
         Dropped (length (v_queue v)) deleted)
  | s :: rest =>
      (g, if negb (gh_arrives c) then Collected (Err IoError)
          else match segcounts (v_db v) !! s with
               | Some _ => Dropping rest (drops ++ [s]) deleted
               | None => Dropping rest drops deleted
               end)
  end.

Definition gc_step (env : Env) (c : GcChoice) (g : GcState) (t : Collection) : GcState * Collection :=
  match t with
  | Barrier k =>
      if bool_decide (v_queue (gs_vol g) = []) then
        let '(r, g) := flush_barrier_step c g in
        match r with
        | Err e => (g, Collected (Err e))
        | Ok _ =>
            let b := current_open_boundary (es_frames (v_es (gs_vol g))) in
            (g, match k with
                | ReclaimPass => Gating b
                | OrphanSweep modified_before => Listed b modified_before []
                end)
        end
      else (g, t)
  | Gating b => (g, gate_step c b)
  | Scanning b horizon pinned => scan_step c b horizon pinned g
  | Listed b modified_before orphans => (g, list_step c b modified_before orphans (gs_vol g))
  | Choosing k => (g, choose_step env c (fr_objects (es_frames (v_es (gs_vol g)))) k)
  | Verifying s want scans k => (g, verify_step c s want scans k g)
  | Verified s verdict k => (g, verdict_step c s verdict k (v_db (gs_vol g)))
  | Deleting s k => delete_step c s k g
  | Dropping rest drops deleted => drop_step c rest drops deleted g
  | Dropped _ _ | Collected _ => (g, t)
  end.
End gc.

(** A turn of the worker over [n] queued commits answers a commit that is among them. *)
Definition gc_deliver (n : nat) (r : result FsError unit) (t : Collection) : Collection :=
  match t with
  | Dropped ahead deleted =>
      if (ahead <? n)%nat then Collected (match r with Ok _ => Ok deleted | Err e => Err e end)
      else Dropped (ahead - n) deleted
  | _ => t
  end.
