(* ===== verification/Tasks.v ===== *)
(** * Background tasks beside the write pipeline

    No code; what compaction and reclaim rely on while readers, writers, flushes and the
    commit worker run between their steps, and the two things they do to the pipeline:
    they delete segments, and they queue commits of their own. *)

From S2P Require Import Prelude Errors FrameCodec Segment Quota Inode Dedup Permissions Store Namespace Commit Usage Ops.
From S2P Require Import Lanes FrameStore SegmentStore Frames Extent ExtentSpec SegCounts Volume Registry OpsWrite Staged.
From S2P Require Import Pipeline Submit PipelineSpec Compact Gc.

Abbreviation frames_of v := (es_frames (v_es v)).

Section tasks.
Context `{CodecPrimsLaws, Crc32cLaws} (compression : CompressionConfig) (seal_threshold max_inflight_seals : Z).
#[local] Instance the_store : FrameStore Frames AppendHint := frames_store compression seal_threshold max_inflight_seals.
#[local] Instance the_laws : FrameStoreLaws Frames AppendHint := frames_laws compression seal_threshold max_inflight_seals.
Implicit Types (f : Frames) (v : Volume Frames) (m : gmap (Z * Z) FrameLoc).

(** The extents refer to frames of segments that are there; the objects hold the frames. *)
Definition refs_ok f m : Prop :=
  forall k loc, m !! k = Some loc -> exists d, frame_held f k.1 k.2 loc d /\ ~ seg_dead f (fl_segid loc).
Definition on_store f m : Prop := forall k loc, m !! k = Some loc -> exists d, object_held f k.1 k.2 loc d.

(** ** More frames, the same segments *)

Record advances f f' : Prop := {
  ad_inv : FramesInv f';
  ad_held : forall id x loc d, frame_held f id x loc d -> frame_held f' id x loc d;
  ad_dead : forall s, seg_dead f' s <-> seg_dead f s;
  ad_closed : forall s, seg_closed f s -> seg_closed f' s;
  ad_stable : forall id x loc d, object_held f id x loc d -> object_held f' id x loc d }.

Lemma advances_refl f : FramesInv f -> advances f f.
Proof. by split. Qed.
Lemma keeps_advances f f' : keeps f f' -> advances f f'.
Proof.
  intros [Hi Hh Hd Hc _ Hl]. split; try done. intros id x loc d (b & Hb & Hs). exists b. split; [by apply Hl|done].
Qed.
Lemma evolved_advances (e e' : ExtentStore Frames) : evolved e e' -> advances (es_frames e) (es_frames e').
Proof. intros [[Hi _] _ Hh Hd Hc Hs]. by split. Qed.
Lemma keeps_evolved (e : ExtentStore Frames) f' : es_ok e -> keeps (es_frames e) f' -> evolved e (set_frames f' e).
Proof.
  intros [_ Hca] Hk. destruct (keeps_advances _ _ Hk) as [Hi Hh Hd Hc Hs].
  split; [split; [exact Hi|]|done|exact Hh|exact Hd|exact Hc|exact Hs]. intros id x loc d Hin. cbn in Hin |- *. apply Hh. by eapply Hca.
Qed.

Lemma refs_advance f f' m : advances f f' -> refs_ok f m -> refs_ok f' m.
Proof. intros [_ Hh Hd _ _] Hr k loc Hk. destruct (Hr k loc Hk) as (d & ? & ?). exists d. rewrite Hd. split; [by apply Hh|done]. Qed.
Lemma on_store_advance f f' m : advances f f' -> on_store f m -> on_store f' m.
Proof. intros [_ _ _ _ Hs] Hr k loc Hk. destruct (Hr k loc Hk) as (d & ?). exists d. by apply Hs. Qed.

(** The identity that the store draws next is not referred to. *)
Lemma held_not_next f id x loc d : FramesInv f -> frame_held f id x loc d -> fl_segid loc <> Frames.next_id f.
Proof.
  intros Inv (buf & dir & Hd & _) E. rewrite E in Hd. destruct (next_id_unused f Inv) as (Ns & Nl & Nd).
  unfold seg_data, object_data in Hd. rewrite Ns, Nl, Nd in Hd. destruct (find_lane _ _) as [o|] eqn:Ef; [|done].
  apply find_lane_Some in Ef as [Ho Es]; [|apply Inv]. apply (next_id_fresh f (os_segid o)); [|done].
  by apply (proj1 (Forall_forall _ _) (fi_lanes _ Inv)).
Qed.

(** ** The queue *)

Lemma edits_written f id edits : forall locs m k loc,
  Forall2 (written f id) (payloads edits) locs ->
  apply_edits id edits locs m !! k = Some loc -> m !! k = Some loc \/ exists d, fs_holds f k.1 k.2 loc d.
Proof.
  induction edits as [|[x [data|]] edits IH]; intros locs m k loc Hw; cbn; [by left| |].
  - cbn in Hw. apply Forall2_cons_inv_l in Hw as (l & locs' & Hl & Hw & ->). intros [Hk|?]%IH; [|by right|done].
    apply lookup_insert_Some in Hk as [[<- <-]|[_ ?]]; [right|by left]. by exists data.
  - intros [[_ ?]%lookup_delete_Some|?]%IH; [by left|by right|done].
Qed.
Lemma staged_refs f F ws : forall d,
  Forall (staged_ok f F) ws -> refs_ok f (extents d) -> refs_ok f (extents (foldl staged_db d ws)).
Proof.
  induction ws as [|w ws IH]; intros d Hw Hr; [done|]. apply Forall_cons in Hw as [Hw0 Hw]. cbn. apply IH; [done|].
  intros k loc. rewrite (proj2 (proj2 (staged_fields d w))). intros [Hk|(dd & Hh & Hd)]%(edits_written f); [by apply Hr|by exists dd|apply Hw0].
Qed.
Lemma queue_refs v F its n :
  PipeInv v F its -> refs_ok (frames_of v) (extents (v_db v)) -> refs_ok (frames_of v) (queue_extents (v_db v) (take n its)).
Proof.
  intros Hp Hr k loc Hk. destruct (pipe_split v F its n Hp) as [_ [Hok _] _ _ [Hm _] _ _ _ _ _].
  apply moved_origin in Hk as [Hk|(m & Hin & <- & ->)]; [by apply (staged_refs _ F _ _ Hok Hr)|].
  rewrite Forall_forall in Hm. destruct (Hm m Hin) as (_ & b & _ & Hh & Hd). by exists b.
Qed.

(** ** What everybody else does *)

(** A step of somebody else: the first [n] queued commits are done, [new] ones are queued. *)
Record moved_on (n : nat) (new : list Item) v (D : Db) (its : list Item) v' (D' : Db) : Prop := {
  mo_frames : advances (frames_of v) (frames_of v');
  mo_refs : forall k loc, extents (v_db v') !! k = Some loc ->
    extents (v_db v) !! k = Some loc \/ (exists w, w ∈ staged_of its /\ loc ∈ sg_locs w) \/
    (exists mv, mv ∈ moves_of its /\ loc = mv_new mv);
  mo_durable : D' = D \/ D' = v_db v;
  mo_new : Forall (plain_item v) new }.

Lemma moves_app its its' : moves_of (its ++ its') = moves_of its ++ moves_of its'.
Proof. unfold moves_of. by rewrite map_app, concat_app. Qed.
Lemma staged_app its its' : staged_of (its ++ its') = staged_of its ++ staged_of its'.
Proof. unfold staged_of. by rewrite map_app, concat_app. Qed.
Lemma drops_app its its' : drops_of (its ++ its') = drops_of its ++ drops_of its'.
Proof. unfold drops_of. by rewrite map_app, concat_app. Qed.
Lemma drop_sub {A} (g : Item -> list A) n its x : x ∈ concat (map g (drop n its)) -> x ∈ concat (map g its).
Proof. intros Hx. rewrite (split_its g n). apply elem_of_app. by right. Qed.
Lemma empty_sub {A} (l l' : list A) : (forall x, x ∈ l' -> x ∈ l) -> l = [] -> l' = [].
Proof. intros Hs ->. destruct l' as [|x l']; [done|]. destruct (not_elem_of_nil x). apply Hs. left. Qed.

Lemma moved_moves n new v D its v' D' : moved_on n new v D its v' D' -> moves_of (drop n its ++ new) = moves_of (drop n its).
Proof. intros Hmo. rewrite moves_app, (proj1 (plain_items v new (mo_new _ _ _ _ _ _ _ Hmo))). apply app_nil_r. Qed.
Lemma moved_drops n new v D its v' D' : moved_on n new v D its v' D' -> drops_of (drop n its ++ new) = drops_of (drop n its).
Proof. intros Hmo. rewrite drops_app, (proj2 (plain_items v new (mo_new _ _ _ _ _ _ _ Hmo))). apply app_nil_r. Qed.
(** The lists of moves and drops stay empty, and so do their parts behind a position. *)
Lemma nil_behind {A} (g : Item -> list A) a n its : concat (map g (drop a its)) = [] -> (a <= n)%nat -> concat (map g (drop n its)) = [].
Proof.
  intros Hn Hle. replace n with (a + (n - a))%nat by lia. rewrite <- drop_drop. eapply empty_sub; [|exact Hn]. intros x. apply drop_sub.
Qed.

Lemma retired_moved n new v D its v' D' s :
  moved_on n new v D its v' D' -> retired (frames_of v) its s -> retired (frames_of v') (drop n its ++ new) s.
Proof.
  intros Hmo [Hc Hw Hm]. split; [by apply (mo_frames _ _ _ _ _ _ _ Hmo)| |].
  - intros w loc. rewrite staged_app. intros [Hin|Hin]%elem_of_app Hl; [eapply Hw; [by eapply drop_sub|done]|].
    apply list_elem_of_In, in_concat in Hin as (ws & Hws & Hin%list_elem_of_In).
    apply in_map_iff in Hws as (it & <- & Hit%list_elem_of_In). pose proof (mo_new _ _ _ _ _ _ _ Hmo) as Hpl.
    rewrite Forall_forall in Hpl. destruct (Hpl it Hit) as (_ & _ & Hfr). rewrite Forall_forall in Hfr.
    specialize (Hfr w Hin). unfold fresh_locs in Hfr. rewrite Forall_forall in Hfr. intros <-. by apply (Hfr loc Hl).
  - intros mv. rewrite (moved_moves _ _ _ _ _ _ _ Hmo). intros Hin. apply Hm. by eapply drop_sub.
Qed.
Lemma ref_back n new v D its v' D' s k loc :
  moved_on n new v D its v' D' -> retired (frames_of v) its s -> extents (v_db v') !! k = Some loc -> fl_segid loc = s ->
  extents (v_db v) !! k = Some loc.
Proof.
  intros Hmo [_ Hw Hm] Hk Hs. destruct (mo_refs _ _ _ _ _ _ _ Hmo k loc Hk) as [?|[(w & Hin & Hl)|(m & Hin & ->)]]; [done| |].
  - by destruct (Hw w loc Hin Hl).
  - by destruct (Hm m Hin).
Qed.

(** Nothing refers to the segment, in memory or on disk. *)
Definition unused v (D : Db) (its : list Item) (s : Segid) : Prop :=
  retired (frames_of v) its s /\ unreferenced (extents (v_db v)) s /\ unreferenced (extents D) s.
Lemma unused_moved n new v D its v' D' s :
  moved_on n new v D its v' D' -> unused v D its s -> unused v' D' (drop n its ++ new) s.
Proof.
  intros Hmo (Hr & Hu & Hd). split; [by eapply retired_moved|]. split.
  - intros k loc Hk Hs. apply (Hu k loc); [|done]. by eapply ref_back.
  - destruct (mo_durable _ _ _ _ _ _ _ Hmo) as [->| ->]; done.
Qed.

(** ** Deleting a segment *)

Definition delete_object (reply landed : bool) (s : Segid) f : Frames := set_objects (delete_segment reply landed s (fr_objects f)).2 f.

Record deleted f f' (s : Segid) : Prop := {
  dl_inv : FramesInv f';
  dl_held : forall id x loc d, frame_held f id x loc d -> frame_held f' id x loc d;
  dl_dead : forall g, seg_dead f' g -> seg_dead f g \/ g = s;
  dl_closed : forall g, seg_closed f g -> seg_closed f' g;
  dl_stable : forall id x loc d, fl_segid loc <> s -> object_held f id x loc d -> object_held f' id x loc d }.

Lemma delete_object_spec reply landed s f : FramesInv f -> seg_closed f s -> deleted f (delete_object reply landed s f) s.
Proof.
  intros Inv (Hb & Hl & Hs). unfold delete_object, delete_segment. cbn [snd].
  assert (Hsame : deleted f (set_objects (fr_objects f) f) s).
  { assert (set_objects (fr_objects f) f = f) as -> by (by destruct f). split; try done. intros g ?. by left. }
  destruct landed; [|done]. destruct (ob_live (fr_objects f) !! s) as [b|] eqn:El; [|done]. clear Hsame.
  set (ob := mkObjects _ _). set (f' := set_objects ob f).
  assert (Hlive : forall g, g <> s -> ob_live ob !! g = ob_live (fr_objects f) !! g) by (intros g Hne; cbn; by rewrite lookup_delete_ne).
  assert (Hdel : forall g, g <> s -> ob_deleted ob !! g = ob_deleted (fr_objects f) !! g) by (intros g Hne; cbn; by rewrite lookup_insert_ne).
  assert (Hlane : forall o, o ∈ fr_lanes f -> os_segid o <> s) by (by apply find_lane_None).
  split.
  - pose proof (fi_live _ Inv s b El) as (Hiss & _). destruct Inv as [L C D S V X R P]. split; try done; cbn.
    + apply Forall_forall. intros o Ho. destruct (proj1 (Forall_forall _ _) L o Ho) as [? ? ? ? ?].
      split; try done; cbn [set_objects fr_objects f']; [by rewrite Hlive by auto|by rewrite Hdel by auto].
    + intros g b' Hg. assert (g <> s) by congruence. destruct (S g b' Hg) as (? & ? & ? & ?).
      rewrite lookup_delete_ne, lookup_insert_ne by done. done.
    + intros g b' [Hne Hg]%lookup_delete_Some. rewrite lookup_insert_ne by done. by apply V.
    + intros g. rewrite lookup_insert_is_Some. intros [<-|[_ Hg]]; [done|by apply X].
  - intros id x loc d (buf & dir & Hd & Hst). exists buf, dir. split; [|done]. unfold seg_data, object_data in *. cbn [f' set_objects fr_lanes fr_sealing fr_objects].
    destruct (find_lane (fr_lanes f) (fl_segid loc)); [done|]. destruct (fr_sealing f !! fl_segid loc); [done|].
    destruct (decide (fl_segid loc = s)) as [E|Hne]; [|by rewrite Hlive, Hdel].
    rewrite E in Hd |- *. cbn. rewrite lookup_delete_eq, lookup_insert_eq. by rewrite El in Hd.
  - intros g. unfold seg_dead. cbn [f' set_objects fr_objects]. destruct (decide (g = s)) as [->|Hne]; [by right|]. left. by rewrite Hdel in *.
  - intros g. done.
  - intros id x loc d Hne (b' & Hb' & Hst). exists b'. cbn [f' set_objects fr_objects]. by rewrite Hlive.
Qed.

Lemma pipe_delete v F its s f' :
  PipeInv v F its -> deleted (frames_of v) f' s -> retired (frames_of v) its s -> unreferenced (extents (v_db v)) s ->
  PipeInv (set_v_es (set_frames f' (v_es v)) v) F its.
Proof.
  intros [Hns [Hin Hca] Hfi Hit Hst Hch Hd Hmv Hmn Hms Hdr Hif Hpe Hqt Hsg] [Di Dh Dd Dc Ds] Hre Hun.
  assert (Hholds : forall id x loc d, fl_segid loc <> s -> fs_holds (frames_of v) id x loc d -> fs_holds f' id x loc d).
  { intros id x loc d Hne [Hh Hn]. split; [by apply Dh|]. intros Hx. by destruct (Dd _ Hx). }
  split; try done.
  - split; [exact Di|]. intros id x loc d Hc. cbn in Hc |- *. apply Dh. by eapply Hca.
  - intros id file Hi. destruct (Hfi id file Hi) as [[[Hs He Hh Hz] Ht] Hsz]. split; [|done]. split; [|exact Ht]. split; [done| |done|done].
    intros x loc Hl. destruct (He x loc Hl) as [Hho Hx]. split; [|done]. apply Hholds; [|exact Hho]. by eapply Hun.
  - rewrite Forall_forall in Hst |- *. intros w Hw. destruct (Hst w Hw) as [? ? ? ? Hl ?]. split; try done.
    apply Forall2_same_length_lookup in Hl as [Hlen Hl]. apply Forall2_same_length_lookup. split; [done|]. intros i p loc Hpi Hlo.
    apply Hholds; [|by eapply Hl]. eapply (rt_staged _ _ _ Hre); [exact Hw|by eapply list_elem_of_lookup_2].
  - rewrite Forall_forall in Hmv |- *. intros mv Hm. destruct (Hmv mv Hm) as (Hx & b & Ho & Hn). split; [done|]. exists b.
    split; [by apply Dh|]. apply Hholds; [|exact Hn]. by apply (rt_moves _ _ _ Hre).
  - eapply Forall_impl; [exact Hdr|]. intros g [Hr Hu]. split; [|done]. by eapply retired_closed; [apply Dc|].
Qed.

(** ** Nothing dangles

    The applied extents refer to frames that can be read; the durable ones to frames that
    the objects hold, and they represent the files of the last flush. *)
Record safe f (db D : Db) (Fs : Files) : Prop := {
  sf_refs : refs_ok f (extents db);
  sf_store : on_store f (extents D);
  sf_files : forall id file, inodes D !! id = Some (IFile file) ->
    FileRep f (extents D) id (Fs id) /\ vf_size (Fs id) = f_size file }.

Lemma safe_advance f f' db D Fs : advances f f' -> safe f db D Fs -> safe f' db D Fs.
Proof.
  intros Had [Hr Hs Hf]. split; [by eapply refs_advance|by eapply on_store_advance|]. intros id file Hi. destruct (Hf id file Hi) as [[Hsz He Hh Hz] Hv].
  split; [|done]. split; [done| |done|done]. intros x loc Hl. destruct (He x loc Hl) as [[Hhe Hd] Hx]. split; [|done].
  split; [by apply Had|]. cbn. by rewrite (ad_dead _ _ Had).
Qed.
Lemma safe_delete v D its Fs s f' :
  deleted (frames_of v) f' s -> unused v D its s -> safe (frames_of v) (v_db v) D Fs -> safe f' (v_db v) D Fs.
Proof.
  intros [Di Dh Dd Dc Ds] (_ & Hu & HuD) [Hr Hs Hf]. split.
  - intros k loc Hk. destruct (Hr k loc Hk) as (d & Hh & Hn). exists d. split; [by apply Dh|].
    intros Hx. destruct (Dd _ Hx) as [?|E]; [done|]. by apply (Hu k loc).
  - intros k loc Hk. destruct (Hs k loc Hk) as (d & Hh). exists d. apply Ds; [|done]. by eapply HuD.
  - intros id file Hi. destruct (Hf id file Hi) as [[Hsz He Hh Hz] Hv]. split; [|done]. split; [done| |done|done].
    intros x loc Hl. destruct (He x loc Hl) as [[Hhe Hd] Hx]. split; [|done]. split; [by apply Dh|]. cbn in *.
    intros Hx'. destruct (Dd _ Hx') as [?|E]; [done|]. by apply (HuD (id, x) loc).
Qed.

(** What a step of a task does to the frames. *)
Definition task_frames v (D : Db) (its : list Item) f' : Prop :=
  advances (frames_of v) f' /\ evolved (v_es v) (set_frames f' (v_es v)) \/
  exists s, deleted (frames_of v) f' s /\ unused v D its s.
Lemma task_frames_refl v F its D : PipeInv v F its -> task_frames v D its (frames_of v).
Proof.
  intros Hp. left. destruct (pp_es _ _ _ Hp) as [Hi Hc]. split; [by apply advances_refl|].
  assert (set_frames (frames_of v) (v_es v) = v_es v) as -> by (by destruct (v_es v)). by apply evolved_refl.
Qed.
Lemma task_frames_keeps v F its D f' : PipeInv v F its -> keeps (frames_of v) f' -> task_frames v D its f'.
Proof. intros Hp Hk. left. split; [by apply keeps_advances|]. apply keeps_evolved; [apply Hp|done]. Qed.
Lemma pipe_frames v F its D f' : PipeInv v F its -> task_frames v D its f' -> PipeInv (set_v_es (set_frames f' (v_es v)) v) F its.
Proof.
  intros Hp [[_ Hev]|(s & Hd & Hr & Hu & _)]; [|by eapply pipe_delete].
  rewrite <- (with_quota_id v) at 2. apply pipe_evolved; [done|done|apply Hp].
Qed.
Lemma safe_frames v F its D Fs f' :
  PipeInv v F its -> task_frames v D its f' -> safe (frames_of v) (v_db v) D Fs -> safe f' (v_db v) D Fs.
Proof. intros Hp [[Ha _]|(s & Hd & Hu)] Hs; [by eapply safe_advance|by eapply safe_delete]. Qed.
Lemma task_frames_held v D its f' id x loc d : task_frames v D its f' -> frame_held (frames_of v) id x loc d -> frame_held f' id x loc d.
Proof. intros [[Ha _]|(s & Hd & _)]; [apply Ha|apply Hd]. Qed.

(** ** Commits of the task *)

(** The item of a commit without writes, and when it may be queued. *)
Definition task_item (ms : list Move) (drops : list Segid) : Item := mkItem [] ms drops [] [].
Definition task_commit (t : Transaction) : QueuedCommit := mkQueued (mkRequest t None SettleNone) [] [] [].

Lemma pipe_queue v F its t ms drops :
  PipeInv v F its -> tx_inodes t = [] -> item_ok (v_db v) (task_commit t) (task_item ms drops) ->
  Forall (move_ok (frames_of v) (v_db v)) ms -> NoDup (mv_key <$> (moves_of its ++ ms)) ->
  (forall mv w, mv ∈ ms -> w ∈ staged_of its -> mv_id mv <> sg_id w) ->
  (forall mv g, mv ∈ ms -> g ∈ drops_of its ++ drops -> fl_segid (mv_new mv) <> g) ->
  Forall (fun g => retired (frames_of v) its g /\ unreferenced (extents (v_db v)) g) drops ->
  PipeInv (submit_owned t None SettleNone [] [] v).2 F (its ++ [task_item ms drops]) /\
  v_queue (submit_owned t None SettleNone [] [] v).2 = v_queue v ++ [task_commit t].
Proof.
  intros Hp Ht Hit Hmv Hnd Hset Hmd Hdr.
  assert (Hst : staged_of (its ++ [task_item ms drops]) = staged_of its).
  { unfold staged_of. rewrite map_app, concat_app. cbn. by rewrite app_nil_r. }
  assert (Hmo : moves_of (its ++ [task_item ms drops]) = moves_of its ++ ms).
  { unfold moves_of. rewrite map_app, concat_app. cbn. by rewrite app_nil_r. }
  pose proof (pipe_push v F its (v_es v) (fs_quota (v_fs v)) (v_pending v) (v_inflight v) (task_commit t) (task_item ms drops)) as Hpush.
  assert (Hq : set_fs_quota (fs_quota (v_fs v)) (v_fs v) = v_fs v) by (by destruct (v_fs v)). rewrite Hq in Hpush.
  unfold submit_owned. rewrite Ht. unfold install. change (map_to_list (updates_of [])) with (@nil (Z * option Inode)). cbn [foldl snd v_queue].
  split; [|done]. cbn [task_item it_ws it_moves it_drops it_guards it_owned] in Hpush. rewrite !app_nil_r in Hpush.
  apply Hpush; [done|apply evolved_refl, Hp|apply Hp|done|constructor|done|done| |done|done| |constructor| | |apply Hp|apply Hp].
  - by intros ? ? _ ?%not_elem_of_nil.
  - intros mv w. rewrite Hst, Hmo. intros [?|?]%elem_of_app; [by apply (pp_settled _ _ _ Hp)|by apply Hset].
  - intros mv g Hm Hg. apply Hmd; [done|]. apply elem_of_app. by left.
  - rewrite Forall_forall in Hdr |- *. intros g Hg. destruct (Hdr g Hg) as [Hre Hun]. split; [|done].
    apply retired_push; [done|by intros ? ? ?%not_elem_of_nil|]. intros mv Hm. apply Hmd; [done|]. apply elem_of_app. by right.
Qed.

Lemma queue_same v t : tx_inodes t = [] ->
  v_es (submit_owned t None SettleNone [] [] v).2 = v_es v /\ v_db (submit_owned t None SettleNone [] [] v).2 = v_db v.
Proof.
  intros Ht. unfold submit_owned. rewrite Ht. unfold install. change (map_to_list (updates_of [])) with (@nil (Z * option Inode)). done.
Qed.

(** What a step of a task gives: the pipeline is explained by the same files, with one
    more commit without writes or none, and nothing dangles. *)
Definition queued v v' (new : list Item) : Prop :=
  new = [] /\ v_queue v' = v_queue v \/ exists ms drops q, new = [task_item ms drops] /\ v_queue v' = v_queue v ++ [q].
Definition task_step v (F : Files) (its : list Item) v' (D' : Db) (Fs' : Files) (new : list Item) : Prop :=
  PipeInv v' F (its ++ new) /\ queued v v' new /\ v_db v' = v_db v /\ safe (frames_of v') (v_db v') D' Fs'.

Lemma task_step_frames v F its D Fs f' :
  PipeInv v F its -> safe (frames_of v) (v_db v) D Fs -> task_frames v D its f' ->
  task_step v F its (set_v_es (set_frames f' (v_es v)) v) D Fs [].
Proof.
  intros Hp Hs Hf. split; [rewrite app_nil_r; by eapply pipe_frames|]. split; [by left|]. split; [done|].
  exact (safe_frames v F its D Fs f' Hp Hf Hs).
Qed.
Lemma task_step_refl v F its D Fs : PipeInv v F its -> safe (frames_of v) (v_db v) D Fs -> task_step v F its v D Fs [].
Proof. intros Hp Hs. split; [by rewrite app_nil_r|]. split; [by left|]. done. Qed.

(** The commit that drops counters. *)
Lemma drop_txn_fields drops : forall t,
  tx_ops (Gc.drop_txn drops t) = tx_ops t ++ (DelSegcount <$> drops) /\ tx_segs (Gc.drop_txn drops t) = tx_segs t /\
  tx_inodes (Gc.drop_txn drops t) = tx_inodes t.
Proof.
  induction drops as [|s drops IH]; intros t; [cbn; by rewrite app_nil_r|]. destruct (IH (push (DelSegcount s) t)) as (Ho & Hs & Hi).
  change (Gc.drop_txn (s :: drops) t) with (Gc.drop_txn drops (push (DelSegcount s) t)).
  rewrite Ho, Hs, Hi. cbn. by rewrite <- app_assoc.
Qed.
Lemma drop_item db drops : item_ok db (task_commit (Gc.drop_txn drops txn_new)) (task_item [] drops).
Proof.
  destruct (drop_txn_fields drops txn_new) as (Ho & Hs & Hi). cbn [app tx_ops txn_new] in Ho.
  assert (Hcore : forall d, core (tx_db d (Gc.drop_txn drops txn_new)) = core d).
  { intros d. unfold tx_db. rewrite Ho. apply core_bookkeeping. apply Forall_fmap, Forall_true. done. }
  split; cbn [task_commit task_item qc_request rq_txn rq_settlement qc_tails qc_guards qc_owned it_ws it_moves it_drops it_guards it_owned].
  - intros d _. apply Hcore.
  - intros s. unfold live_delta. rewrite Hs. specialize (Hcore db). unfold core in Hcore. injection Hcore as _ _ _ _ _ _ ->. cbn. lia.
  - intros k. unfold touches. rewrite Ho. intros (op & (s & -> & _)%list_elem_of_fmap & Hk)%list_elem_of_omap. done.
  - rewrite Ho. apply Forall_fmap, Forall_forall. intros s Hs'. right. by exists s.
  - by right.
  - done.
  - done.
  - constructor.
  - done.
  - done.
Qed.
Lemma drop_queue v F its drops :
  PipeInv v F its -> Forall (fun g => retired (frames_of v) its g /\ unreferenced (extents (v_db v)) g) drops -> moves_of its = [] ->
  let v' := (submit_owned (Gc.drop_txn drops txn_new) None SettleNone [] [] v).2 in
  PipeInv v' F (its ++ [task_item [] drops]) /\ v_queue v' = v_queue v ++ [task_commit (Gc.drop_txn drops txn_new)].
Proof.
  intros Hp Hd Hm. apply pipe_queue; try done.
  - apply (drop_txn_fields drops txn_new).
  - apply drop_item.
  - rewrite app_nil_r. apply Hp.
  - by intros ? ? ?%not_elem_of_nil.
  - by intros ? ? ?%not_elem_of_nil.
Qed.
End tasks.
