(* ===== verification/CompactSpec.v ===== *)
(** * What compaction gathers, packs and repoints

    The frames that compaction holds in memory are the payloads of the frames that the
    extents referred to; a packed segment holds the same data; a repoint is a balanced
    transaction of relocations. *)

From stdpp Require Import sorting.
From S2P Require Import Prelude Errors FrameCodec Segment Lanes FrameStore SegmentStore Frames Inode Dedup Store Commit Ops.
From S2P Require Import Extent ExtentSpec SegCounts Volume CompactPlan Compact Registry Staged Pipeline Tasks.

Section gather.
Context `{CodecPrimsLaws, Crc32cLaws} (compression : CompressionConfig) (seal_threshold : Z).
Implicit Types f : Frames.

(** ** Reading compressed frames *)

Definition unpacks (c : Compressed) (d : bytes) : Prop := codec_decompress (payload c) = Ok d.

Lemma opens_payloads s (spans : list (bytes * Z * Z * bytes)) : forall i,
  opens (open_plain s) i spans ->
  exists spans' : list (bytes * Z * Z * Compressed), opens (open_payload s) i spans' /\
    map item_body spans' = map item_body spans /\ map item_slot spans' = map item_slot spans /\
    Forall2 unpacks (map item_out spans') (map item_out spans).
Proof.
  induction spans as [|[[[body id] x] d] spans IH]; intros i; [by exists []|]. intros [Ho Hos].
  destruct (IH _ Hos) as (spans' & Hp & Hb & Hs & Hu).
  unfold open_plain, codec_open, lift_codec in Ho. destruct (open_compressed body _) as [c|] eqn:Ec; [|done].
  exists ((body, id, x, c) :: spans'). cbn [map opens item_body item_slot item_out fst snd]. rewrite Hb, Hs. split_and!; try done.
  - unfold open_payload, lift_codec. by rewrite Ec.
  - constructor; [|done]. unfold unpacks. cbn in Ho. destruct (codec_decompress (payload c)); [by simplify_eq|done].
Qed.

Lemma read_compressed_in_buffer buf l0 it0 items :
  ri_loc it0 = l0 -> is_run l0 (map ri_loc items) -> Forall (item_in buf) (it0 :: items) -> zlen buf <= U64_MAX ->
  exists cs,
    read_compressed_frames_from_region
      (slice (Z.to_nat (fl_byte_offset l0)) (Z.to_nat (fl_byte_offset l0 + locs_len (map ri_loc (it0 :: items)))) buf)
      (fl_segid l0) (fl_frame_index l0) (map ri_slot (it0 :: items)) = Ok cs /\
    Forall2 unpacks cs (map ri_data (it0 :: items)).
Proof.
  intros Hl0 Hrun Hin Hz.
  destruct (run_in_buffer buf items l0 it0 Hl0 Hrun Hin)
    as (pre & post & spans & -> & <- & <- & <- & <- & Hfit & Hop & Hcnt & Hge).
  destruct (opens_payloads _ _ _ Hop) as (spans' & Hop' & Hb & Hs & Hu).
  assert (Hreg : concat (map (fun s => frame_bytes (item_body s)) spans) = concat (map (fun s => frame_bytes (item_body s)) spans')).
  { rewrite <- !(map_map item_body frame_bytes). by rewrite Hb. }
  assert (Hfit' : Forall (fun s => zlen (item_body s) <= U32_MAX) spans').
  { rewrite Forall_forall in Hfit. apply Forall_forall. intros sp Hsp.
    assert (Hi : item_body sp ∈ map item_body spans) by (rewrite <- Hb; by apply list_elem_of_fmap_2).
    apply list_elem_of_fmap in Hi as (sp' & -> & Hsp'). by apply Hfit. }
  exists (map item_out spans'). split; [|done]. rewrite Hreg in *. set (region := concat _) in *. rewrite !zlen_app in *.
  pose proof (zlen_nonneg pre). pose proof (zlen_nonneg post). pose proof (zlen_nonneg region).
  rewrite slice_app_mid by (unfold zlen; lia). rewrite <- Hs.
  pose proof (read_spans_run (open_payload (fl_segid l0)) (fl_frame_index l0) spans' [] [] 0) as HR.
  cbv zeta in HR. rewrite app_nil_r in HR. cbn [app length] in HR. fold region in HR. rewrite Z.add_0_r in HR.
  apply HR; try done; [lia|]. apply (f_equal length) in Hs. rewrite !length_map in Hs. unfold zlen in *. lia.
Qed.

(** The object of a segment is what its frames are read from. *)
Lemma live_seg_data f s b : FramesInv f -> ob_live (fr_objects f) !! s = Some b -> seg_data f s = Some (b, object_dir s b).
Proof.
  intros Inv Hb. unfold seg_data, object_data.
  assert (find_lane (fr_lanes f) s = None) as ->.
  { apply find_lane_None. intros o Ho <-. pose proof (lv_live _ _ (proj1 (Forall_forall _ _) (fi_lanes _ Inv) o Ho)). congruence. }
  rewrite Hb. destruct (fr_sealing f !! s) as [b'|] eqn:Es; [|done].
  destruct (fi_sealing _ Inv s b' Es) as (_ & _ & _ & Heq). by rewrite (Heq b Hb).
Qed.

(** ** Runs *)

(** Segments are smaller than 4 GiB. *)
Definition small_segments f : Prop := forall s buf dir, seg_data f s = Some (buf, dir) -> zlen buf <= U32_MAX.

(** [r] covers the consecutive extents [items] of segment [s]. *)
Record run_of f (s : Segid) (r : CompactRun) (items : list (Z * Z * FrameLoc)) : Prop := {
  ro_slots : cr_slots r = items.*1;
  ro_first : exists k0 l0 rest, items = (k0, l0) :: rest /\ cr_offset r = fl_byte_offset l0 /\
    cr_first r = fl_frame_index l0 /\ is_run l0 rest.*2;
  ro_len : cr_len r = u32_wrap (locs_len items.*2);
  ro_held : Forall (fun i => fl_segid i.2 = s /\ exists d, frame_held f i.1.1 i.1.2 i.2 d) items }.

Lemma last_cons_default {A} (a : A) l d : List.last (a :: l) d = List.last l a.
Proof. revert a d. induction l as [|b l IH]; intros a d; [done|]. change (List.last (b :: l) d = List.last (b :: l) a). by rewrite !IH. Qed.
Lemma run_last l0 rest l : is_run l0 (rest ++ [l]) <-> is_run l0 rest /\ follows (List.last rest l0) l.
Proof.
  revert l0. induction rest as [|l1 rest IH]; intros l0; [cbn; tauto|]. rewrite last_cons_default. cbn [app is_run]. rewrite IH. tauto.
Qed.
Lemma run_end l0 rest :
  is_run l0 rest -> fl_frame_index (List.last rest l0) = fl_frame_index l0 + zlen rest /\
  fl_byte_offset (List.last rest l0) + fl_byte_len (List.last rest l0) = fl_byte_offset l0 + locs_len (l0 :: rest) /\
  fl_segid (List.last rest l0) = fl_segid l0.
Proof.
  revert l0. induction rest as [|l1 rest IH]; intros l0 Hr; [unfold zlen; cbn; split_and!; lia || done|].
  destruct Hr as [(Hs & Hi & Ho) Hr]. destruct (IH l1 Hr) as (Hi' & Ho' & Hs'). rewrite last_cons_default, zlen_cons.
  unfold locs_len in *. cbn [fold_right] in *. rewrite Hs', Hs. split_and!; [lia..|done].
Qed.

(** Frames of one run are inside one buffer. *)
Lemma run_items f s items :
  Forall (fun i => fl_segid i.2 = s /\ exists d, frame_held f i.1.1 i.1.2 i.2 d) items -> items <> [] ->
  exists buf dir its, seg_data f s = Some (buf, dir) /\ Forall (item_in buf) its /\ map ri_slot its = items.*1 /\
    map ri_loc its = items.*2 /\ Forall (fun it => frame_held f (ri_slot it).1 (ri_slot it).2 (ri_loc it) (ri_data it)) its.
Proof.
  induction 1 as [|[k loc] items [Hs (d & Hd)] Hall IH]; [done|]. intros _. cbn in Hs, Hd. pose proof Hd as (buf & dir & Hb & Hin & _).
  rewrite Hs in Hb. destruct items as [|i items].
  { exists buf, dir, [Lanes.mkItem k loc d]. split_and!; try done; by apply Forall_singleton. }
  destruct IH as (buf' & dir' & its & Hb' & Hits & Hsl & Hlo & Hh); [done|]. rewrite Hb in Hb'. simplify_eq.
  exists buf', dir', (Lanes.mkItem k loc d :: its). rewrite Hb. cbn [map fmap list_fmap]. split_and!; try done.
  - by constructor.
  - by rewrite Hsl.
  - by rewrite Hlo.
  - by constructor.
Qed.

Lemma run_of_bounds f s r items :
  small_segments f -> run_of f s r items ->
  exists buf dir, seg_data f s = Some (buf, dir) /\ 0 <= cr_offset r /\ 0 < locs_len items.*2 /\
    cr_offset r + locs_len items.*2 <= zlen buf <= U32_MAX /\
    0 <= cr_first r /\ cr_first r + zlen items <= U32_MAX + 1.
Proof.
  intros Hsm [Hsl (k0 & l0 & rest & -> & -> & -> & Hrun) Hlen Hh].
  destruct (run_items f s _ Hh) as (buf & dir & its & Hb & Hin & Hs & Hl & _); [done|].
  destruct its as [|it0 its]; [done|]. cbn [map fmap list_fmap] in Hl. injection Hl as Hl0 Hl.
  exists buf, dir. split; [done|].
  destruct (run_in_buffer buf its l0 it0 Hl0) as (pre & post & spans & -> & Hpre & Htl & Hsl' & _ & Hfit & _ & Hcnt & Hge).
  { rewrite Hl. exact Hrun. } { done. }
  specialize (Hsm _ _ _ Hb). rewrite !zlen_app in Hsm |- *. cbn [map] in Htl. rewrite Hl0, Hl in Htl.
  assert (Hn : zlen spans = zlen ((k0, l0) :: rest)).
  { unfold zlen. apply (f_equal length) in Hsl', Hl. rewrite !length_map in Hsl'. rewrite length_map in Hl. cbn in *.
    rewrite length_fmap in Hl. lia. }
  pose proof (zlen_nonneg pre). pose proof (zlen_nonneg post). cbn [fmap list_fmap snd] in *. rewrite <- Hpre, <- Htl, <- Hn.
  split; [lia|]. split; [|lia]. destruct spans as [|sp spans]; [done|]. cbn [map concat]. rewrite zlen_app, zlen_frame_bytes.
  pose proof (zlen_nonneg (item_body sp)). pose proof (zlen_nonneg (concat (map (fun s => frame_bytes (item_body s)) spans))). lia.
Qed.

Definition held_at f (s : Segid) (i : Z * Z * FrameLoc) : Prop := fl_segid i.2 = s /\ exists d, frame_held f i.1.1 i.1.2 i.2 d.

Lemma locs_len_snoc ls l : locs_len (ls ++ [l]) = locs_len ls + fl_byte_len l.
Proof. unfold locs_len. induction ls as [|l' ls IH]; cbn; [lia|]. rewrite IH. lia. Qed.

Lemma run_of_single f s k loc : held_at f s (k, loc) ->
  run_of f s (mkCompactRun (fl_byte_offset loc) (fl_byte_len loc) (fl_frame_index loc) [k]) [(k, loc)].
Proof.
  intros Hh. split; cbn; [done|by exists k, loc, []| |by constructor].
  destruct Hh as [_ (d & buf & dir & _ & (pre & body & post & _ & _ & Hl & Hu & _) & _)]. cbn in *.
  rewrite Z.add_0_r, u32_wrap_id; [done|]. pose proof (zlen_nonneg body). ulia.
Qed.

Lemma run_of_extend f s r items k loc :
  small_segments f -> run_of f s r items -> held_at f s (k, loc) -> Forall (fun i => frame_le i (k, loc)) items ->
  extends_run r loc = true ->
  run_of f s (mkCompactRun (cr_offset r) (u32_wrap (cr_len r + fl_byte_len loc)) (cr_first r) (cr_slots r ++ [k])) (items ++ [(k, loc)]).
Proof.
  intros Hsm Hr Hh Hle Hext. destruct (run_of_bounds f s r items Hsm Hr) as (buf & dir & Hb & Ho & Hpos & Hend & Hf0 & Hcnt).
  destruct Hr as [Hsl (k0 & l0 & rest & -> & Eo & Ef & Hrun) Hlen Hheld]. unfold extends_run in Hext.
  apply andb_true_iff in Hext as [Hidx%Z.eqb_eq Hoff%Z.eqb_eq]. rewrite Hsl in Hidx. rewrite Hlen in Hoff.
  assert (Hz : zlen (((k0, l0) :: rest).*1) = 1 + zlen rest) by (unfold zlen; rewrite length_fmap; cbn; lia).
  rewrite Hz in Hidx. rewrite zlen_cons in Hcnt. destruct (run_end l0 rest.*2 Hrun) as (Li & Lo & Ls).
  assert (Hlz : zlen rest.*2 = zlen rest) by (unfold zlen; by rewrite length_fmap). rewrite Hlz in Li.
  assert (Hlast : exists kl, (kl, List.last rest.*2 l0) ∈ (k0, l0) :: rest).
  { clear. revert k0 l0. induction rest as [|[k1 l1] rest IH]; intros k0 l0; [exists k0; left|].
    change (((k1, l1) :: rest).*2) with (l1 :: rest.*2). rewrite last_cons_default. destruct (IH k1 l1) as [kl Hk]. exists kl. by right. }
  destruct Hlast as [kl Hlast]. rewrite Forall_forall in Hle. pose proof (Hle _ Hlast) as Hge. unfold frame_le in Hge. cbn [snd] in Hge.
  assert (Hidx' : fl_frame_index loc = fl_frame_index l0 + (1 + zlen rest)).
  { pose proof (zlen_nonneg rest). destruct (decide (cr_first r + (1 + zlen rest) <= U32_MAX)) as [Hs|Hs].
    - rewrite u32_wrap_id in Hidx by ulia. lia.
    - assert (E : cr_first r + (1 + zlen rest) = U32_MAX + 1) by lia. rewrite E in Hidx. change (u32_wrap (U32_MAX + 1)) with 0 in Hidx. ulia. }
  assert (Hw : u32_wrap (locs_len ((k0, l0) :: rest).*2) = locs_len ((k0, l0) :: rest).*2) by (apply u32_wrap_id; ulia).
  rewrite Hw in Hlen, Hoff. rewrite u64_wrap_id in Hoff by ulia.
  split; cbn [cr_slots cr_offset cr_first cr_len].
  - by rewrite Hsl, fmap_app.
  - exists k0, l0, (rest ++ [(k, loc)]). split_and!; try done. rewrite fmap_app. apply run_last. split; [done|].
    cbn [snd]. unfold follows. split_and!; [rewrite Ls|lia|by rewrite Lo, <- Hoff, Eo].
    apply Forall_cons in Hheld as [[E _] _]. destruct Hh as [E' _]. cbn in *. congruence.
  - rewrite Hlen, fmap_app. cbn [fmap list_fmap snd]. by rewrite locs_len_snoc.
  - apply Forall_app. split; [done|]. by apply Forall_singleton.
Qed.

Lemma compact_runs_ok f s : forall live cur items,
  small_segments f -> Forall (held_at f s) live -> StronglySorted frame_le (items ++ live) ->
  match cur with Some r => run_of f s r items | None => items = [] end ->
  concat (map cr_slots (compact_runs cur live)) = items.*1 ++ live.*1 /\
  forall r, r ∈ compact_runs cur live -> exists its, run_of f s r its /\ forall i, i ∈ its -> i ∈ items ++ live.
Proof.
  induction live as [|[k loc] live IH]; intros cur items Hsm Hh Hso Hc.
  { destruct cur as [r|]; cbn; [|subst; split; [done|by intros r ?%not_elem_of_nil]]. rewrite (ro_slots _ _ _ _ Hc). split; [done|].
    intros r' ->%list_elem_of_singleton. exists items. split; [done|]. intros i Hi. by rewrite app_nil_r. }
  apply Forall_cons in Hh as [Hk Hh]. pose proof (run_of_single f s k loc Hk) as Hsingle.
  assert (Hso' : StronglySorted frame_le ([(k, loc)] ++ live)).
  { clear - Hso. induction items as [|i items IHi]; [done|]. apply IHi. by apply StronglySorted_inv in Hso as [? _]. }
  destruct cur as [r|].
  2:{ subst items. cbn [compact_runs]. destruct (IH (Some _) [(k, loc)] Hsm Hh Hso' Hsingle) as [Hs Hr]. split; [exact Hs|exact Hr]. }
  cbn [compact_runs]. destruct (extends_run r loc) eqn:He.
  - replace (items ++ (k, loc) :: live) with ((items ++ [(k, loc)]) ++ live) in Hso |- * by by rewrite <- app_assoc.
    destruct (IH (Some (mkCompactRun (cr_offset r) (u32_wrap (cr_len r + fl_byte_len loc)) (cr_first r) (cr_slots r ++ [k]))) (items ++ [(k, loc)]))
      as [Hs Hr]; try done.
    + apply run_of_extend; try done. clear - Hso. rewrite <- app_assoc in Hso. induction items as [|i items IHi]; [constructor|].
      cbn in Hso. apply StronglySorted_inv in Hso as [Hso Hall]. constructor; [|by apply IHi].
      apply Forall_app in Hall as [_ Hall]. by apply Forall_cons in Hall as [? _].
    + split; [|exact Hr]. rewrite Hs, fmap_app, <- app_assoc. done.
  - destruct (IH (Some (mkCompactRun (fl_byte_offset loc) (fl_byte_len loc) (fl_frame_index loc) [k])) [(k, loc)] Hsm Hh Hso' Hsingle) as [Hs Hr].
    cbn [map concat]. rewrite (ro_slots _ _ _ _ Hc), Hs. split; [done|].
    intros r' [->|Hr']%elem_of_cons; [exists items; split; [done|]; intros i Hi; apply elem_of_app; by left|].
    destruct (Hr r' Hr') as (its & Ho & Hin). exists its. split; [done|]. intros i Hi. apply elem_of_app. right. by apply Hin.
Qed.

Lemma read_run_ok f s r items st' payloads :
  FramesInv f -> small_segments f -> run_of f s r items -> st' = fr_objects f ->
  store_read_compressed_run st' s (cr_offset r) (cr_len r) (cr_first r) (cr_slots r) = Ok payloads ->
  Forall2 (fun i c => exists d, frame_held f i.1.1 i.1.2 i.2 d /\ unpacks c d) items payloads.
Proof.
  intros Inv Hsm Hr -> Hread. destruct (run_of_bounds f s r items Hsm Hr) as (buf & dir & Hb & Ho & Hpos & Hend & _).
  destruct Hr as [Hsl (k0 & l0 & rest & -> & Eo & Ef & Hrun) Hlen Hheld].
  unfold store_read_compressed_run, get_object_range in Hread.
  destruct (ob_live (fr_objects f) !! s) as [b|] eqn:El; [|done]. pose proof (live_seg_data f s b Inv El) as Hb'.
  rewrite Hb in Hb'. injection Hb' as -> ->. rewrite Hlen, u32_wrap_id in Hread by ulia.
  rewrite (proj2 (Z.leb_gt _ _)) in Hread by lia. cbn [mbind result_bind] in Hread.
  destruct (run_items f s _ Hheld) as (buf & dir & its & Hbb & Hin & Hs & Hl & Hh); [done|].
  rewrite Hb in Hbb. injection Hbb as <- <-. destruct its as [|it0 its]; [done|].
  cbn [map fmap list_fmap fst snd] in Hl, Hs. injection Hl as Hl0 Hl. injection Hs as Hs0 Hs.
  assert (Hsg : fl_segid l0 = s) by (by apply Forall_cons in Hheld as [[? _] _]).
  destruct (read_compressed_in_buffer b l0 it0 its Hl0) as (cs & Hcs & Hu); [by rewrite Hl|done|ulia|].
  cbn [map] in Hcs. rewrite Hl0, Hl, Hs0, Hs, Hsg in Hcs. rewrite Eo, Ef, Hsl in Hread. cbn [fmap list_fmap fst snd] in Hread.
  rewrite Hcs in Hread. injection Hread as <-.
  assert (Hits : Forall2 (fun i it => i.1 = ri_slot it /\ i.2 = ri_loc it) ((k0, l0) :: rest) (it0 :: its)).
  { constructor; [done|]. clear - Hl Hs. revert rest Hl Hs. induction its as [|it its IH]; intros [|[k l] rest] Hl Hs; try done.
    cbn in Hl, Hs. injection Hl as <- Hl. injection Hs as <- Hs. constructor; [done|by apply IH]. }
  clear - Hits Hu Hh. revert cs Hu Hits Hh. generalize ((k0, l0) :: rest) (it0 :: its). intros l its'. revert l.
  induction its' as [|it its' IH]; intros l cs Hu Hits Hh.
  { apply Forall2_nil_inv_r in Hits as ->. apply Forall2_nil_inv_r in Hu as ->. constructor. }
  apply Forall2_cons_inv_r in Hits as (i & l' & [E1 E2] & Hits & ->). cbn [map] in Hu.
  apply Forall2_cons_inv_r in Hu as (c & cs' & Hc & Hu & ->). apply Forall_cons in Hh as [Hi Hh].
  constructor; [|by apply IH]. exists (ri_data it). by rewrite E1, E2.
Qed.

(** ** Gathered frames *)

Definition fr_key (fr : Z * Z * FrameLoc * Compressed) : Z * Z := fr.1.1.
Definition frame_ok f (fr : Z * Z * FrameLoc * Compressed) : Prop :=
  exists d, frame_held f (fr_key fr).1 (fr_key fr).2 fr.1.2 d /\ unpacks fr.2 d.
Definition frames_ok f (frs : list (Z * Z * FrameLoc * Compressed)) : Prop :=
  Forall (frame_ok f) frs /\ NoDup (fr_key <$> frs).
Definition acc_ok f (acc : Gathered) : Prop :=
  frames_ok f (ga_frames acc) /\ forall fr, fr ∈ ga_frames acc -> fr_key fr ∈ ga_seen acc.

(** The extents still to be looked at are new. *)
Definition new_keys (acc : Gathered) (ks : list (Z * Z)) : Prop := NoDup ks /\ forall k, k ∈ ks -> k ∉ ga_seen acc.
Definition read_ok f (loc_of : gmap (Z * Z) FrameLoc) (fr : Z * Z * Compressed) : Prop :=
  exists loc, loc_of !! fr.1 = Some loc /\ frame_ok f (fr.1, loc, fr.2).
Definition phase_ok f (ph : GatherPhase) (g : Gather) : Prop :=
  match ph with
  | Listing => True
  | Resolving want live =>
      exists s, head (gt_rest g) = Some s /\ Forall (held_at f s) live /\ new_keys (gt_acc g) (want ++ live.*1)
  | Reading loc_of runs read =>
      exists s, head (gt_rest g) = Some s /\ Forall (read_ok f loc_of) read /\
        new_keys (gt_acc g) (concat (map cr_slots runs) ++ read.*1) /\
        forall r, r ∈ runs -> exists its, run_of f s r its /\ forall i, i ∈ its -> loc_of !! i.1 = Some i.2
  end.

Lemma want_of_new seen dir : forall local,
  NoDup (want_of seen local dir) /\ forall k, k ∈ want_of seen local dir -> (k ∉ seen) /\ (k ∉ local).
Proof.
  induction dir as [|e dir IH]; intros local; cbn; [split; [constructor|by intros k ?%not_elem_of_nil]|].
  case_bool_decide as Hs; [apply IH|]. case_bool_decide as Hl; [apply IH|]. cbn.
  destruct (IH ({[(de_inode e, de_extent e)]} ∪ local)) as [Hn Hw]. split.
  - constructor; [|done]. intros Hin%Hw. set_solver.
  - intros k [->|Hk]%elem_of_cons; [done|]. apply Hw in Hk. set_solver.
Qed.

Lemma gather_one_ok f loc_of acc fr :
  acc_ok f acc -> read_ok f loc_of fr -> (fr.1 ∉ ga_seen acc) -> acc_ok f (gather_one loc_of acc fr).
Proof.
  intros [[Hf Hn] Hs] (loc & Hl & Hok) Hnew. unfold gather_one. rewrite Hl. split; cbn.
  - split; [apply Forall_app; split; [done|by apply Forall_singleton]|]. rewrite fmap_app. apply NoDup_app. split; [done|].
    split; [|apply NoDup_singleton]. cbn. intros k (fr' & -> & Hin)%list_elem_of_fmap E%list_elem_of_singleton. apply Hnew. rewrite <- E. by apply Hs.
  - intros fr' [Hin| ->%list_elem_of_singleton]%elem_of_app; [|unfold fr_key; cbn; set_solver]. specialize (Hs _ Hin). set_solver.
Qed.

Lemma gather_all_ok f loc_of read : forall acc,
  acc_ok f acc -> Forall (read_ok f loc_of) read -> new_keys acc read.*1 -> acc_ok f (foldl (gather_one loc_of) acc read).
Proof.
  induction read as [|fr read IH]; intros acc Hacc Hr [Hnd Hnew]; [done|]. apply Forall_cons in Hr as [Hfr Hr].
  cbn in Hnd. apply NoDup_cons in Hnd as [Hni Hnd]. cbn [foldl]. apply IH; [|done|].
  - apply gather_one_ok; [done|done|]. apply Hnew. left.
  - split; [done|]. intros k Hk. cbn. apply not_elem_of_union. split; [intros ->%elem_of_singleton; done|]. apply Hnew. by right.
Qed.

Lemma batches_ok_pack f frs : frames_ok f frs -> Forall (frames_ok f) (pack_batches seal_threshold frs).
Proof.
  intros [Hf Hn]. unfold pack_batches. destruct (pack_geometry seal_threshold) as [target slack].
  set (l := merge_sort slot_le frs). assert (Hl : frames_ok f l).
  { unfold l, frames_ok. by rewrite merge_sort_Permutation. }
  generalize (plan_compaction_batches (map (fun fr => (fr.1.1, fl_byte_len fr.1.2)) l) target slack). intros bounds. generalize O.
  induction bounds as [|b bounds IH]; intros start; cbn; constructor; [|apply IH].
  assert (Hsub : part l start b `sublist_of` l) by (unfold part; etrans; [apply sublist_take|apply sublist_drop]).
  destruct Hl as [Hlf Hln]. split.
  { rewrite Forall_forall in Hlf |- *. intros x Hx. apply Hlf. eapply elem_of_submseteq; [exact Hx|by apply sublist_submseteq]. }
  eapply sublist_NoDup; [exact Hln|]. by apply fmap_sublist.
Qed.

Definition gather_ok f (t : Compaction) : Prop :=
  match t with
  | Gathering ph g => acc_ok f (gt_acc g) /\ phase_ok f ph g
  | Packing bs _ => Forall (frames_ok f) bs
  | Repointing p | Committing _ _ p => Forall (frames_ok f) (pk_batches p)
  | Compacted _ => True
  end.

Lemma elem_of_delete_list {A} (l : list A) i x : x ∈ delete i l -> x ∈ l.
Proof. intros Hx. eapply elem_of_submseteq; [exact Hx|]. apply sublist_submseteq, sublist_delete. Qed.

Lemma listing_ok c rb f db g :
  FramesInv f -> small_segments f -> refs_ok f (extents db) ->
  gather_ok f (Gathering Listing g) -> gather_ok f (gather_step seal_threshold c rb db (fr_objects f) Listing g).
Proof.
  intros Inv Hsm Hrefs [Hacc Hph].
  destruct g as [[|s rest] [|n] sizes consumed acc]; cbn [gather_step]; try (by apply batches_ok_pack, Hacc).
  - destruct (rb <=? ga_bytes acc); [by apply batches_ok_pack, Hacc|by split].
  - destruct (store_read_directory _ s) as [dir|]; [|done]. destruct (ch_arrives c); [|done]. split; [done|].
    exists s. split; [done|]. split; [done|]. destruct (want_of_new (ga_seen acc) dir ∅) as [Hn Hw]. rewrite app_nil_r.
    split; [done|]. intros k Hk. by apply Hw.
Qed.
Lemma resolving_ok c rb f db want live g :
  FramesInv f -> small_segments f -> refs_ok f (extents db) ->
  gather_ok f (Gathering (Resolving want live) g) -> gather_ok f (gather_step seal_threshold c rb db (fr_objects f) (Resolving want live) g).
Proof.
  intros Inv Hsm Hrefs [Hacc Hph].
  destruct Hph as (s & Hs & Hlive & Hnd & Hnew). destruct want as [|k0 want]; cbn [gather_step].
  - split; [done|]. exists s. split; [done|]. split; [done|].
    set (sl := merge_sort frame_le live). assert (Hp : sl ≡ₚ live) by apply merge_sort_Permutation.
    destruct (compact_runs_ok f s sl None [] Hsm) as [Hc Hr].
    { by rewrite Hp. } { apply Sorted_StronglySorted; [intros ? ? ?; unfold frame_le; lia|]. apply Sorted_merge_sort. intros ? ?. unfold frame_le. lia. } { done. }
    cbn [app] in *. rewrite Hc. cbn. rewrite app_nil_r. assert (Hp' : sl.*1 ≡ₚ live.*1) by by apply fmap_Permutation.
    split; [split; [by rewrite Hp'|intros k; rewrite Hp'; apply Hnew]|].
    intros r Hin. destruct (Hr r Hin) as (its & Ho & Hits). exists its. split; [done|]. intros [k loc] Hi%Hits. cbn.
    apply elem_of_list_to_map_1; [by rewrite Hp'|done].
  - set (w := k0 :: want) in *. clearbody w. destruct (w !! ch_pick c) as [k|] eqn:Ek; [|split; [done|]; by exists s]. rewrite Hs.
    destruct (ch_arrives c); [|done]. split; [done|]. exists s. split; [done|].
    assert (Hli : Forall (held_at f s) (live_in db s k) /\ forall i, i ∈ (live_in db s k).*1 -> i = k).
    { unfold live_in. destruct (extents db !! k) as [loc|] eqn:El; [|split; [constructor|by intros i ?%not_elem_of_nil]].
      case_bool_decide as Hseg; [|split; [constructor|by intros i ?%not_elem_of_nil]].
      destruct (Hrefs k loc El) as (d & Hd & _). split; [apply Forall_singleton; by split; [|exists d]|]. by intros i ->%list_elem_of_singleton. }
    destruct Hli as [Hli Hkey]. split; [by apply Forall_app|].
    assert (Hperm : w ≡ₚ k :: delete (ch_pick c) w) by (by apply delete_Permutation).
    rewrite Hperm in Hnd. cbn in Hnd. apply NoDup_cons in Hnd as [Hk Hnd]. split.
    + rewrite fmap_app, app_assoc. apply NoDup_app. split; [done|]. split; [intros i Hi ->%Hkey; done|].
      unfold live_in. destruct (extents db !! k); [case_bool_decide|]; cbn; [apply NoDup_singleton|constructor..].
    + intros i. rewrite fmap_app, app_assoc. intros [Hi| ->%Hkey]%elem_of_app; apply Hnew.
      * apply elem_of_app. apply elem_of_app in Hi as [?%elem_of_delete_list|?]; auto.
      * apply elem_of_app. left. by eapply list_elem_of_lookup_2.
Qed.
Lemma reading_ok c rb f db loc_of runs read g :
  FramesInv f -> small_segments f -> refs_ok f (extents db) ->
  gather_ok f (Gathering (Reading loc_of runs read) g) -> gather_ok f (gather_step seal_threshold c rb db (fr_objects f) (Reading loc_of runs read) g).
Proof.
  intros Inv Hsm Hrefs [Hacc Hph].
  destruct Hph as (s & Hs & Hread & [Hnd Hnew] & Hruns). destruct runs as [|r0 runs]; cbn [gather_step].
  - destruct g as [rest left' sizes consumed acc]. split; [|done]. cbn. by apply gather_all_ok.
  - set (w := r0 :: runs) in *. clearbody w. destruct (w !! ch_pick c) as [r|] eqn:Er; [|split; [done|]; by exists s]. rewrite Hs.
    destruct (Hruns r) as (its & Ho & Hits); [by eapply list_elem_of_lookup_2|].
    destruct (store_read_compressed_run _ _ _ _ _ _) as [ps|] eqn:Ers; [|done]. destruct (ch_arrives c); [|done].
    pose proof (read_run_ok f s r its _ ps Inv Hsm Ho eq_refl Ers) as Hok. split; [done|]. exists s. split; [done|].
    rewrite (ro_slots _ _ _ _ Ho). assert (Hzip : (zip its.*1 ps).*1 = its.*1) by (apply fst_zip; rewrite length_fmap; by rewrite (Forall2_length _ _ _ Hok)).
    split; [|split].
    + apply Forall_app. split; [done|]. clear - Hok Hits. induction Hok as [|i c its ps (d & Hd & Hu) _ IH]; cbn; constructor.
      * exists i.2. split; [apply Hits; left|]. by exists d.
      * apply IH. intros i' Hi'. apply Hits. by right.
    + assert (Hperm : concat (map cr_slots w) ++ read.*1 ≡ₚ concat (map cr_slots (delete (ch_pick c) w)) ++ (read ++ zip its.*1 ps).*1).
      { rewrite fmap_app, Hzip. assert (Hw : w ≡ₚ r :: delete (ch_pick c) w) by (by apply delete_Permutation).
        assert (Hcw : concat (map cr_slots w) ≡ₚ its.*1 ++ concat (map cr_slots (delete (ch_pick c) w))).
        { rewrite <- (ro_slots _ _ _ _ Ho). change (cr_slots r ++ concat (map cr_slots (delete (ch_pick c) w))) with (concat (map cr_slots (r :: delete (ch_pick c) w))).
          generalize (r :: delete (ch_pick c) w) Hw. clear. induction 1; cbn; [done|by f_equiv|rewrite !app_assoc; f_equiv; apply Permutation_app_comm|by etrans]. }
        rewrite Hcw. rewrite (app_assoc _ read.*1), (Permutation_app_comm its.*1), <- !app_assoc. f_equiv. apply Permutation_app_comm. }
      split; [by rewrite <- Hperm|]. intros k. rewrite <- Hperm. apply Hnew.
    + intros r' Hr'. apply Hruns. by eapply elem_of_delete_list.
Qed.
Lemma gather_step_ok c rb f db ph g :
  FramesInv f -> small_segments f -> refs_ok f (extents db) ->
  gather_ok f (Gathering ph g) -> gather_ok f (gather_step seal_threshold c rb db (fr_objects f) ph g).
Proof. destruct ph; [apply listing_ok|apply resolving_ok|apply reading_ok]. Qed.

(** ** Packed segments *)

Abbreviation frame_slots_ok := (Forall (fun fr => is_u64 (frame_slot fr).1 /\ is_u64 (frame_slot fr).2)).

Lemma sealed_stored s i frames sealed :
  sealed_from s i frames sealed -> forall pre post, 0 <= i -> i + zlen frames <= U32_MAX + 1 ->
  Forall (fun fr => zlen fr.2 + 4 <= U32_MAX) sealed ->
  Forall2 (fun fr l => l.1 = frame_slot fr /\ fl_segid l.2 = s /\
    forall d, decompresses fr d -> frame_in (pre ++ bodies sealed ++ post) l.1.1 l.1.2 l.2 d) frames (locs_of s i (zlen pre) sealed).
Proof.
  induction 1 as [i|i id x c nonce body frames sealed Ho _ IH]; intros pre post Hi Hc Hf; [constructor|].
  apply Forall_cons in Hf as [Hb Hf]. rewrite zlen_cons in Hc. cbn [locs_of]. constructor.
  - split_and!; [done..|]. intros d Hd. exists pre, body, (bodies sealed ++ post). cbn in *.
    unfold bodies. cbn [map concat snd]. rewrite <- !app_assoc. pose proof (zlen_nonneg frames).
    split_and!; try done; [ulia|]. unfold open_plain, open_payload, codec_open, lift_codec in *.
    destruct (open_compressed _ _) as [c'|] eqn:E; [|done]. simplify_eq. cbn. unfold decompresses in Hd. cbn in Hd. by rewrite Hd.
  - specialize (IH (pre ++ frame_bytes body) post ltac:(lia) ltac:(lia) Hf).
    rewrite zlen_app, zlen_frame_bytes in IH. eapply Forall2_impl; [exact IH|]. intros fr l (? & ? & Hin). split_and!; [done..|].
    intros d Hd. specialize (Hin d Hd). unfold bodies in *. cbn [map concat snd]. by rewrite <- !app_assoc in *.
Qed.

Lemma packed_stored segid dn frames object locs :
  nonces_ok frames -> length dn = NONCE_SIZE -> Segid_wf segid -> frame_slots_ok frames ->
  seal_compressed_with_limits compression segid dn WIRE frames = Ok (object, locs) ->
  object_wf segid object /\
  Forall2 (fun fr l => l.1 = frame_slot fr /\ fl_segid l.2 = segid /\
    forall d, decompresses fr d -> stored_in object (object_dir segid object) l.1.1 l.1.2 l.2 d) frames locs.
Proof.
  intros Hn Hdn Hwf Hslots Hseal.
  destruct (seal_object_Ok _ _ _ _ _ _ _ Hn Hseal) as (sealed & sd & p & Hs & -> & Hcnt & Hfit & Hsd & Hp & Hk & Hdl & Htot & ->).
  assert (Hbz : zlen (bodies sealed) <= U64_MAX) by (pose proof (zlen_nonneg sd); subst p; cbn in Htot; lia).
  assert (Hdir : object_dir segid (assemble_prepared_segment segid (bodies sealed) sd (counter segid) p) = map entry_of_loc (locs_of segid 0 0 sealed)).
  { unfold object_dir. rewrite (read_directory_assembled compression dn segid (bodies sealed) (dir_of 0 sealed) sd (counter segid) p); try done.
    - apply dir_of_locs.
    - apply Hwf.
    - eapply dir_of_wf; done. }
  assert (Hobj : exists post, assemble_prepared_segment segid (bodies sealed) sd (counter segid) p = [] ++ bodies sealed ++ post).
  { unfold assemble_prepared_segment. cbv zeta. rewrite <- !app_assoc. cbn [app]. eauto. }
  assert (Hdw : Forall DirEntry_wf (map entry_of_loc (locs_of segid 0 0 sealed))) by (rewrite <- dir_of_locs; by eapply dir_of_wf).
  split.
  { split; [|by rewrite Hdir]. unfold assemble_prepared_segment. cbv zeta. rewrite !zlen_app. subst p. cbn in Htot.
    unfold zlen in *. rewrite length_footer_head, !length_le_bytes. lia. }
  rewrite Hdir. destruct Hobj as [post ->].
  pose proof (sealed_stored segid 0 frames sealed Hs [] post ltac:(lia) ltac:(lia) Hfit) as Hst. change (zlen []) with 0 in Hst.
  apply Forall2_same_length_lookup in Hst as [Hlen Hst]. apply Forall2_same_length_lookup. split; [done|].
  intros i fr [k l] Hfr Hl. destruct (Hst i fr (k, l) Hfr Hl) as (E & Hsg & Hin). split_and!; [done..|]. intros d Hd. split; [by apply Hin|].
  cbn in E. split; [|by rewrite E; apply (proj1 (Forall_lookup _ _) Hslots i)].
  apply (list_elem_of_fmap_2 entry_of_loc). destruct k as [id x]. by eapply list_elem_of_lookup_2.
Qed.

(** Adding an object under the next identity. *)
Lemma pack_keeps f object ob :
  FramesInv f -> fr_counter f < U64_MAX -> object_wf (Frames.next_id f) object -> created (Frames.next_id f) object (fr_objects f) ob ->
  keeps f (set_objects ob (next_segid f).2) /\ seg_closed (set_objects ob (next_segid f).2) (Frames.next_id f).
Proof.
  intros Inv Hroom Hz Hc. destruct (next_id_unused f Inv) as (Ns & Nl & Nd). pose proof (fi_range _ Inv) as [He Hcn].
  unfold next_segid. rewrite u64_wrap_id by ulia. cbn [snd].
  set (f' := set_objects ob (mkFrames (fr_lanes f) (fr_sealing f) (fr_objects f) (fr_epoch f) (fr_counter f + 1))).
  assert (Hiss : forall s, issued f s -> issued f' s) by (intros s [Hw Hlt]; split; [done|]; intros E; specialize (Hlt E); cbn; lia).
  assert (Hid : issued f' (Frames.next_id f)) by (split; [split; cbn; ulia|intros _; cbn; lia]).
  assert (Hdel : ob_deleted ob = ob_deleted (fr_objects f)) by (destruct Hc as [->|[_ ->]]; done).
  assert (Hlive : forall s, s <> Frames.next_id f -> ob_live ob !! s = ob_live (fr_objects f) !! s).
  { intros s Hne. destruct Hc as [->|[_ ->]]; [done|]. cbn. by rewrite lookup_insert_ne. }
  assert (Hnew : forall b, ob_live ob !! Frames.next_id f = Some b -> b = object).
  { intros b. destruct Hc as [->|[_ ->]]; [by rewrite Nl|]. cbn. rewrite lookup_insert_eq. congruence. }
  assert (Hlane : forall o, o ∈ fr_lanes f -> os_segid o <> Frames.next_id f).
  { intros o Ho. apply next_id_fresh. by apply (proj1 (Forall_forall _ _) (fi_lanes _ Inv)). }
  assert (Inv' : FramesInv f').
  { destruct Inv as [L C D S V X R P]. split; try done; cbn.
    - apply Forall_forall. intros o Ho. destruct (proj1 (Forall_forall _ _) L o Ho) as [? ? ? ? ?].
      split; try done; cbn; [by apply Hiss|by rewrite Hlive by auto|by rewrite Hdel].
    - intros s b Hs. destruct (S s b Hs) as (Hi & ? & ? & Hb). rewrite Hdel. split_and!; [by apply Hiss|done..|].
      by rewrite Hlive by (by apply next_id_fresh).
    - intros s b Hl. rewrite Hdel. destruct (decide (s = Frames.next_id f)) as [->|Hne]; [by rewrite (Hnew b Hl)|].
      rewrite Hlive in Hl by done. destruct (V s b Hl) as (Hi & ? & ?). split_and!; [by apply Hiss|done..].
    - intros s. rewrite Hdel. intros Hs. by apply Hiss, X.
    - ulia. }
  split; [|split; [by apply Hid|split; [by apply find_lane_None|done]]].
  apply keeps_data; try done; [|cbn; lia|intros o Ho _; by apply list_elem_of_fmap_2|by left|].
  - intros s buf dir Hd. exists [], []. rewrite !app_nil_r. unfold seg_data, object_data in *. cbn [f' set_objects fr_lanes fr_sealing fr_objects].
    destruct (decide (s = Frames.next_id f)) as [->|Hne]; [|by rewrite Hlive, Hdel by done].
    assert (find_lane (fr_lanes f) (Frames.next_id f) = None) as E by (by apply find_lane_None). by rewrite E, Ns, Nl, Nd in Hd.
  - intros s b Hb. cbn. rewrite Hlive; [done|]. intros ->. congruence.
Qed.

Lemma object_frame f id x loc d : FramesInv f -> object_held f id x loc d -> frame_held f id x loc d /\ ~ seg_dead f (fl_segid loc).
Proof.
  intros Inv (b & Hb & Hs). split; [exists b, (object_dir (fl_segid loc) b); split; [by apply live_seg_data|done]|].
  unfold seg_dead. destruct (fi_live _ Inv _ _ Hb) as (_ & _ & ->). by intros [].
Qed.
Lemma frame_held_fun f id x loc d d' : frame_held f id x loc d -> frame_held f id x loc d' -> d = d'.
Proof.
  intros (b & dr & Hb & Hf & _) (b' & dr' & Hb' & Hf' & _). rewrite Hb in Hb'. simplify_eq. by eapply frame_in_fun.
Qed.

Definition packed_as f (s : Segid) (fr : Z * Z * FrameLoc * Compressed) (l : Z * Z * FrameLoc) : Prop :=
  l.1 = fr_key fr /\ fl_segid l.2 = s /\ exists d, frame_held f l.1.1 l.1.2 fr.1.2 d /\ object_held f l.1.1 l.1.2 l.2 d.

Definition nonced (nonces : nat -> bytes) (b : list (Z * Z * FrameLoc * Compressed)) : list (Z * Z * Compressed * bytes) :=
  imap (fun i fr => (fr, nonces i)) (map (fun fr => (fr.1.1, fr.2)) b).
Lemma nonced_at nonces b i fr : nonced nonces b !! i = Some fr ->
  exists fr0, b !! i = Some fr0 /\ fr = (fr_key fr0, fr0.2, nonces i).
Proof.
  unfold nonced. rewrite list_lookup_imap, list_lookup_fmap. intros (x & Hx & ->)%fmap_Some. apply fmap_Some in Hx as (fr0 & -> & ->). by exists fr0.
Qed.

Lemma seal_pack_spec fate dn nonces batch f :
  FramesInv f -> fr_counter f < U64_MAX -> length dn = NONCE_SIZE -> (forall i, length (nonces i) = NONCE_SIZE) -> frames_ok f batch ->
  let r := store_seal_compressed compression fate dn nonces (map (fun fr => (fr.1.1, fr.2)) batch) f in
  keeps f r.2 /\
  (forall locs, r.1 = Ok locs -> seg_closed r.2 (Frames.next_id f) /\ Forall2 (packed_as r.2 (Frames.next_id f)) batch locs).
Proof.
  intros Inv Hroom Hdn Hn [Hok _] r. subst r. unfold store_seal_compressed. fold (nonced nonces batch).
  pose proof (fi_range _ Inv) as [Hep Hcn].
  assert (Hno : nonces_ok (nonced nonces batch)).
  { apply Forall_lookup. intros i fr (fr0 & _ & ->)%nonced_at. apply Hn. }
  assert (Hsl : frame_slots_ok (nonced nonces batch)).
  { apply Forall_lookup. intros i fr (fr0 & Hfr & ->)%nonced_at. destruct (proj1 (Forall_lookup _ _) Hok i fr0 Hfr) as (d & Hd & _).
    destruct Hd as (? & ? & _ & _ & _ & Hu). destruct fr0 as [[[? ?] ?] ?]. exact Hu. }
  destruct (checked_frame_count _ _ _ ≫= _) as [u|e]; [|split; [by apply keeps_refl|done]].
  destruct (pack_keeps f [] (fr_objects f) Inv Hroom ltac:(by split) ltac:(by left)) as [Hk0 _].
  change (next_segid f) with (Frames.next_id f, (next_segid f).2). cbv beta iota.
  destruct (seal_compressed_with_limits compression (Frames.next_id f) dn WIRE (nonced nonces batch)) as [[object locs]|e] eqn:Es; [|split; [exact Hk0|done]].
  destruct (packed_stored (Frames.next_id f) dn _ object locs Hno Hdn ltac:(split; cbn; ulia) Hsl Es) as [Hz Hst].
  change (fr_objects (next_segid f).2) with (fr_objects f).
  destruct (put_segment_spec fate (Frames.next_id f) object (fr_objects f)) as [Hc Hput].
  destruct (put_segment fate (Frames.next_id f) object (fr_objects f)) as [r ob]. cbn [fst snd] in *.
  destruct (pack_keeps f object ob Inv Hroom Hz Hc) as [Hk Hcl]. split; [exact Hk|]. destruct r as [[]|e]; [|done]. intros ? [= <-].
  split; [exact Hcl|]. specialize (Hput eq_refl). apply Forall2_same_length_lookup in Hst as [Hlen Hst]. apply Forall2_same_length_lookup.
  split; [unfold nonced in Hlen; by rewrite length_imap, length_map in Hlen|]. intros i fr l Hfr Hl.
  assert (Hni : nonced nonces batch !! i = Some (fr_key fr, fr.2, nonces i)).
  { unfold nonced. by rewrite list_lookup_imap, list_lookup_fmap, Hfr. }
  destruct (Hst i _ l Hni Hl) as (E & Hseg & Hd). unfold frame_slot in E. cbn in E.
  assert (Ek : l.1 = fr_key fr) by (rewrite E; by destruct (fr_key fr)). split_and!; [done..|].
  destruct (proj1 (Forall_lookup _ _) Hok i fr Hfr) as (d & Hh & Hu). exists d. rewrite Ek. split; [by apply (kp_held _ _ Hk)|].
  exists object. split; [cbn; by rewrite Hseg|]. rewrite Hseg, <- Ek. by apply Hd.
Qed.
End gather.

(** ** Repoints *)

Definition repoint_key (p : Z * Repoint) : Z * Z := (p.1, p.2.1.1).
Definition flatten (gs : list (Z * list Repoint)) : list (Z * Repoint) := concat (map (fun g => (fun r => (g.1, r)) <$> g.2) gs).

Lemma add_group_flatten id r gs : flatten (add_group id r gs) ≡ₚ (id, r) :: flatten gs.
Proof.
  induction gs as [|[id' rs] gs IH]; [done|]. cbn [add_group]. destruct (Z.eqb_spec id id') as [->|Hne].
  - unfold flatten. cbn. rewrite fmap_app, <- app_assoc. cbn. by rewrite Permutation_middle.
  - destruct (id <? id'); [done|]. unfold flatten in *. cbn. rewrite IH. by rewrite Permutation_middle.
Qed.
Lemma by_inode_flatten src locs :
  flatten (by_inode src locs) ≡ₚ (fun p : Z * Z * FrameLoc * FrameLoc => (p.1.1.1, (p.1.1.2, p.2, p.1.2))) <$> zip locs src.
Proof.
  unfold by_inode. assert (Hg : forall (l : list (Z * Z * FrameLoc * FrameLoc)) gs,
    flatten (foldl (fun gs p => add_group p.1.1.1 (p.1.1.2, p.2, p.1.2) gs) gs l)
    ≡ₚ flatten gs ++ ((fun p => (p.1.1.1, (p.1.1.2, p.2, p.1.2))) <$> l)).
  { induction l as [|p l IH]; intros gs; [by rewrite app_nil_r|]. cbn [foldl fmap list_fmap].
    rewrite IH, add_group_flatten. apply Permutation_middle. }
  apply Hg.
Qed.

(** The extents that a repoint moves. *)
Definition repoint_moves (db : Db) (id : Z) (items : list Repoint) : list Move :=
  omap (fun r : Repoint => if bool_decide (extents db !! (id, r.1.1) = Some r.1.2) then Some (mkMove id r.1.1 r.1.2 r.2) else None) items.

Lemma repoint_moves_elem db id items m : m ∈ repoint_moves db id items <->
  mv_id m = id /\ (mv_extent m, mv_old m, mv_new m) ∈ items /\ extents db !! mv_key m = Some (mv_old m).
Proof.
  unfold repoint_moves. rewrite list_elem_of_omap. split.
  - intros ([[x old] new] & Hin & Hc). case_bool_decide; [|done]. by simplify_eq.
  - intros (<- & Hin & Hx). eexists. split; [exact Hin|]. cbn. rewrite bool_decide_true by done. by destruct m.
Qed.
Lemma repoint_moves_nodup db id items : NoDup ((fun r : Repoint => r.1.1) <$> items) -> NoDup (mv_key <$> repoint_moves db id items).
Proof.
  induction items as [|[[x old] new] items IH]; [constructor|]. cbn. intros [Hx Hn]%NoDup_cons.
  case_bool_decide; [|by apply IH]. cbn. constructor; [|by apply IH].
  intros (m & E & Hm)%list_elem_of_fmap. apply repoint_moves_elem in Hm as (_ & Hin & _). apply Hx. unfold mv_key in E. cbn in E.
  injection E as _ ->. by apply (list_elem_of_fmap_2 (fun r : Repoint => r.1.1) _ _ Hin).
Qed.

Record repoints (db : Db) (ms : list Move) (t t' : Transaction) : Prop := {
  rp_db : forall d, tx_db d t' = foldl move_db (tx_db d t) ms;
  rp_touches : touches t' = touches t ++ (mv_key <$> ms);
  rp_ops : tx_ops t' = tx_ops t ++ ((fun m => PutExtent (mv_id m) (mv_extent m) (mv_new m)) <$> ms);
  rp_inodes : tx_inodes t' = tx_inodes t;
  rp_balanced : NoDup (mv_key <$> ms) -> (forall m, m ∈ ms -> extents (tx_db db t) !! mv_key m = Some (mv_old m)) -> balanced db t t' }.

Lemma repoint_one db id x old new t :
  repoints db [mkMove id x old new] t
    (add_seg_delta (fl_segid new) (fl_byte_len new) (fl_byte_len new)
       (add_seg_delta (fl_segid old) (- fl_byte_len old) 0 (push (PutExtent id x new) t))).
Proof.
  assert (Hops : forall s l n t, tx_ops (add_seg_delta s l n t) = tx_ops t /\ tx_inodes (add_seg_delta s l n t) = tx_inodes t).
  { intros s l n t0. unfold add_seg_delta. by destruct (_ && _). }
  destruct (Hops (fl_segid new) (fl_byte_len new) (fl_byte_len new) (add_seg_delta (fl_segid old) (- fl_byte_len old) 0 (push (PutExtent id x new) t))) as [O1 I1].
  destruct (Hops (fl_segid old) (- fl_byte_len old) 0 (push (PutExtent id x new) t)) as [O2 I2].
  set (t' := add_seg_delta (fl_segid new) _ _ _) in *. rewrite O2 in O1. rewrite I2 in I1.
  assert (Hdb : forall d, tx_db d t' = with_extents <[(id, x) := new]> (tx_db d t)).
  { intros d. unfold tx_db. rewrite O1. cbn. unfold apply_ops. by rewrite foldl_app. }
  split; cbn [fmap list_fmap foldl mv_id mv_extent mv_new].
  - intros d. by rewrite Hdb.
  - unfold touches. rewrite O1. cbn. by rewrite omap_app.
  - by rewrite O1.
  - by rewrite I1.
  - intros _ Hold s. specialize (Hold _ (list_elem_of_here _ _)). unfold mv_key in Hold. cbn [mv_id mv_extent mv_old] in Hold.
    unfold t'. rewrite !live_delta_add, live_delta_push. fold t'. rewrite Hdb. cbn [with_extents extents].
    rewrite live_of_insert, Hold. unfold opt_bytes, seg_bytes. cbn. repeat case_decide; lia.
Qed.
Lemma repoints_trans db ms ms' t t1 t2 : repoints db ms t t1 -> repoints db ms' t1 t2 -> repoints db (ms ++ ms') t t2.
Proof.
  intros [D1 T1 O1 I1 B1] [D2 T2 O2 I2 B2]. split.
  - intros d. by rewrite D2, D1, foldl_app.
  - by rewrite T2, T1, fmap_app, app_assoc.
  - by rewrite O2, O1, fmap_app, app_assoc.
  - congruence.
  - rewrite fmap_app. intros (Hn1 & Hd & Hn2)%NoDup_app Hold. eapply balanced_trans; [apply B1|apply B2]; try done.
    + intros m Hm. apply Hold, elem_of_app. by left.
    + intros m Hm. rewrite D1, moved_other; [apply Hold, elem_of_app; by right|]. intros Hc. apply (Hd (mv_key m)); [done|].
      by apply list_elem_of_fmap_2.
Qed.
Lemma repoints_nil db t : repoints db [] t t.
Proof. split; try done; [by rewrite app_nil_r..|]. intros _ _. apply balanced_refl. Qed.

Lemma repoint_items_spec db id items : forall t,
  (repoint_items db id items t).1 = length (repoint_moves db id items) /\
  repoints db (repoint_moves db id items) t (repoint_items db id items t).2.
Proof.
  induction items as [|[[x old] new] items IH]; intros t; [split; [done|apply repoints_nil]|]. cbn [repoint_items repoint_moves omap list_omap fst snd].
  case_bool_decide as Hc; [|apply IH].
  set (t1 := add_seg_delta (fl_segid new) _ _ _). destruct (IH t1) as [Hn Hr]. destruct (repoint_items db id items t1) as [n t'].
  cbn [fst snd length] in *. split; [by rewrite Hn|].
  eapply (repoints_trans db [mkMove id x old new]); [apply repoint_one|exact Hr].
Qed.
