(* ===== verification/CompactTask.v ===== *)
(** * Compaction as a background task

    No code; the invariant of a running compaction ([compact_ok]): what everybody else does
    keeps it, and so does every step of [Compact.compact_step], which moves extents only to
    copies of what they refer to and deletes a packed segment only when nothing refers to
    it. *)

From stdpp Require Import sorting.
From S2P Require Import Prelude Errors FrameCodec Segment Quota Inode Dedup Permissions Store Namespace Commit Usage Ops.
From S2P Require Import Lanes FrameStore SegmentStore Frames Extent ExtentSpec SegCounts Volume Registry OpsWrite Staged.
From S2P Require Import Pipeline Submit PipelineSpec CompactPlan Compact Tasks CompactSpec.

Section compact_task.
Context `{CodecPrimsLaws, Crc32cLaws} (compression : CompressionConfig) (seal_threshold max_inflight_seals : Z).
#[local] Instance the_store : FrameStore Frames AppendHint := frames_store compression seal_threshold max_inflight_seals.
#[local] Instance the_laws : FrameStoreLaws Frames AppendHint := frames_laws compression seal_threshold max_inflight_seals.
Implicit Types (f : Frames) (v : Volume Frames).
#[local] Abbreviation unused := (unused compression seal_threshold max_inflight_seals).
#[local] Abbreviation moved_on := (moved_on compression seal_threshold max_inflight_seals).
#[local] Abbreviation task_frames := (task_frames compression seal_threshold max_inflight_seals).

(** ** The invariant *)

(** The packed location holds what the source location holds. *)
Definition repoint_ok f (s : Segid) (p : Z * Repoint) : Prop :=
  fl_segid p.2.2 = s /\ exists d, frame_held f p.1 p.2.1.1 p.2.1.2 d /\ object_held f p.1 p.2.1.1 p.2.2 d.

Definition packed_ok v (D : Db) (its : list Item) (p : Packed) : Prop :=
  NoDup (repoint_key <$> flatten (pk_groups p)) /\
  match pk_segid p with
  | Some s => Forall (repoint_ok (frames_of v) s) (flatten (pk_groups p)) /\ (pk_swapped p = O -> unused v D its s)
  | None => flatten (pk_groups p) = []
  end.

Definition compact_ok v (D : Db) (its : list Item) (t : Compaction) : Prop :=
  gather_ok (frames_of v) t /\
  match t with
  | Repointing p => packed_ok v D its p /\ moves_of its = []
  | Committing ahead id p =>
      packed_ok v D its p /\ Forall (fun mv => mv_id mv = id) (moves_of its) /\ moves_of (drop (S ahead) its) = []
  | _ => moves_of its = []
  end.

(** ** Everybody else *)

Section mono.
Context f f' (Hheld : forall id x loc d, frame_held f id x loc d -> frame_held f' id x loc d).

Lemma frame_ok_mono fr : frame_ok f fr -> frame_ok f' fr.
Proof. intros (d & Hd & Hu). exists d. split; [by apply Hheld|done]. Qed.
Lemma frames_ok_mono frs : frames_ok f frs -> frames_ok f' frs.
Proof. intros [Hf Hn]. split; [|done]. eapply Forall_impl; [exact Hf|]. apply frame_ok_mono. Qed.
Lemma held_at_mono s i : held_at f s i -> held_at f' s i.
Proof. intros [Hs (d & Hd)]. split; [done|]. exists d. by apply Hheld. Qed.
Lemma run_of_mono s r its : run_of f s r its -> run_of f' s r its.
Proof. intros [? ? ? Hh]. split; try done. eapply Forall_impl; [exact Hh|]. apply held_at_mono. Qed.
Lemma gather_ok_mono t : gather_ok f t -> gather_ok f' t.
Proof.
  destruct t as [ph g|bs pr|p|ahead id p|r]; cbn; try (intros Hb; eapply Forall_impl; [exact Hb|]; apply frames_ok_mono); [|done].
  intros [[Hf Hs] Hph]. split; [split; [by apply frames_ok_mono|done]|]. destruct ph as [|want live|loc_of runs read]; [done| |].
  - destruct Hph as (s & Hh & Hl & Hn). exists s. split; [done|]. split; [|done]. eapply Forall_impl; [exact Hl|]. apply held_at_mono.
  - destruct Hph as (s & Hh & Hr & Hn & Hruns). exists s. split; [done|]. split; [|split; [done|]].
    + eapply Forall_impl; [exact Hr|]. intros fr (loc & Hl & Ho). exists loc. split; [done|by apply frame_ok_mono].
    + intros r Hin. destruct (Hruns r Hin) as (its & Ho & Hl). exists its. split; [by apply run_of_mono|done].
Qed.
End mono.

Lemma packed_ok_moved n new v D its v' D' p :
  moved_on n new v D its v' D' -> packed_ok v D its p -> packed_ok v' D' (drop n its ++ new) p.
Proof.
  intros Hmo [Hn Hp]. pose proof (mo_frames _ _ _ _ _ _ _ _ _ _ Hmo) as [_ Hh _ _ Hs]. split; [done|].
  destruct (pk_segid p) as [s|]; [|done]. destruct Hp as [Hr Hu]. split; [|intros E; eapply unused_moved; [exact Hmo|by apply Hu]].
  eapply Forall_impl; [exact Hr|]. intros q [Hseg (d & Ho & Hnew)]. split; [done|]. exists d. split; [by apply Hh|by apply Hs].
Qed.

Lemma compact_moved n new r v D its v' D' t :
  moved_on n new v D its v' D' -> compact_ok v D its t ->
  compact_ok v' D' (drop n its ++ new) (deliver n r t).
Proof.
  intros Hmo [Hg Ht]. pose proof (gather_ok_mono _ _ (ad_held _ _ (mo_frames _ _ _ _ _ _ _ _ _ _ Hmo))) as Hmono.
  assert (Hnil : moves_of its = [] -> moves_of (drop n its ++ new) = []).
  { intros E. rewrite (moved_moves _ _ _ _ _ _ _ _ _ _ Hmo). eapply empty_sub; [|exact E]. intros x. apply drop_sub. }
  destruct t as [ph g|bs pr|p|ahead id p|r']; cbn [deliver]; try (split; [by apply Hmono|by apply Hnil]).
  - destruct Ht as [Hp Hm]. split; [by apply Hmono|]. split; [by eapply packed_ok_moved|by apply Hnil].
  - destruct Ht as (Hp & Hid & Hbehind). destruct (Nat.ltb_spec ahead n) as [Hlt|Hge].
    + assert (Hm : moves_of (drop n its ++ new) = []).
      { rewrite (moved_moves _ _ _ _ _ _ _ _ _ _ Hmo). eapply (nil_behind it_moves (S ahead)); [exact Hbehind|lia]. }
      destruct r; [split; [by apply Hmono|]; split; [by eapply packed_ok_moved|done]|by split].
    + split; [by apply Hmono|]. split; [by eapply packed_ok_moved|]. rewrite (moved_moves _ _ _ _ _ _ _ _ _ _ Hmo). split.
      * rewrite Forall_forall in Hid |- *. intros mv Hin. apply Hid. by eapply drop_sub.
      * rewrite drop_app, moves_app, drop_drop. replace (n + S (ahead - n))%nat with (S ahead) by lia. rewrite Hbehind.
        eapply empty_sub; [intros x; apply drop_sub|]. by apply (plain_items v), (mo_new _ _ _ _ _ _ _ _ _ _ Hmo).
Qed.

(** ** Its own steps *)

Section step.
Context (v : Volume Frames) (F : Files) (its : list Item) (D : Db) (Fs : Files).
Context (Hp : PipeInv v F its) (Hsafe : safe compression seal_threshold max_inflight_seals (frames_of v) (v_db v) D Fs).

Lemma fresh_unused f' :
  keeps (frames_of v) f' -> seg_closed f' (Frames.next_id (frames_of v)) -> moves_of its = [] ->
  unused (set_v_es (set_frames f' (v_es v)) v) D its (Frames.next_id (frames_of v)).
Proof.
  intros Hk Hc Hm. pose proof (proj1 (pp_es _ _ _ Hp)) as Inv. cbn in Inv. split; [|split].
  - split; [exact Hc| |intros mv; by rewrite Hm, elem_of_nil]. intros w loc Hw Hl. pose proof (pp_staged _ _ _ Hp) as Hst.
    rewrite Forall_forall in Hst. destruct (Hst w Hw) as [_ _ _ _ Hlo _].
    apply list_elem_of_lookup_1 in Hl as [i Hl]. destruct (Forall2_lookup_r _ _ _ _ _ Hlo Hl) as (p & _ & Hh & _).
    eapply held_not_next; [exact Inv|exact Hh].
  - intros k loc Hk'. destruct (sf_refs _ _ _ _ _ _ _ Hsafe k loc Hk') as (d & Hh & _). eapply held_not_next; [exact Inv|exact Hh].
  - intros k loc Hk'. destruct (sf_store _ _ _ _ _ _ _ Hsafe k loc Hk') as (d & Hh). apply object_frame in Hh as [Hh _]; [|done].
    eapply held_not_next; [exact Inv|exact Hh].
Qed.

(** The groups of a packed batch. *)
Lemma packed_groups f s b locs :
  frames_ok f b -> Forall2 (packed_as f s) b locs ->
  NoDup (repoint_key <$> flatten (by_inode (map (fun fr => fr.1.2) b) locs)) /\
  Forall (repoint_ok f s) (flatten (by_inode (map (fun fr => fr.1.2) b) locs)).
Proof.
  intros [_ Hn] Hb. set (g := fun p : Z * Z * FrameLoc * FrameLoc => (p.1.1.1, (p.1.1.2, p.2, p.1.2))).
  assert (Hz : Forall2 (fun fr p => repoint_key (g p) = fr_key fr /\ repoint_ok f s (g p)) b (zip locs (map (fun fr => fr.1.2) b))).
  { clear Hn. induction Hb as [|fr l b locs (Ek & Hs & d & Ho & Hnew) _ IH]; cbn; constructor; [|done].
    destruct l as [[id x] l], fr as [[[id' x'] lo] c]. cbn in *. split; [done|]. split; [done|]. exists d. by injection Ek as -> ->. }
  pose proof (by_inode_flatten (map (fun fr : Z * Z * FrameLoc * Compressed => fr.1.2) b) locs) as Hp'. fold g in Hp'.
  split; rewrite Hp'.
  - assert (repoint_key <$> (g <$> zip locs (map (fun fr => fr.1.2) b)) = fr_key <$> b) as ->; [|done].
    clear - Hz. induction Hz as [|fr p b l [E _] _ IH]; [done|]. cbn. by rewrite E, IH.
  - clear - Hz. induction Hz as [|fr p b l [_ E] _ IH]; [constructor|]. cbn. by constructor.
Qed.

#[local] Abbreviation task_step := (task_step compression seal_threshold max_inflight_seals).
Definition stepped v' (t' : Compaction) : Prop :=
  exists new, task_step v F its v' D Fs new /\ drops_of new = [] /\ compact_ok v' D (its ++ new) t'.

Lemma stepped_frames f' t' :
  task_frames v D its f' -> compact_ok (set_v_es (set_frames f' (v_es v)) v) D its t' ->
  stepped (set_v_es (set_frames f' (v_es v)) v) t'.
Proof. intros Hf Ht. exists []. split; [by apply task_step_frames|]. rewrite app_nil_r. done. Qed.
Lemma stepped_refl t' : compact_ok v D its t' -> stepped v t'.
Proof. intros Ht. exists []. split; [by apply task_step_refl|]. rewrite app_nil_r. done. Qed.

Lemma pack_step_ok c b bs pr :
  fr_counter (frames_of v) < U64_MAX -> length (ch_dir_nonce c) = NONCE_SIZE -> (forall i, length (ch_nonces c i) = NONCE_SIZE) ->
  compact_ok v D its (Packing (b :: bs) pr) ->
  let '(r, v') := on_frames (store_seal_compressed compression (ch_fate c) (ch_dir_nonce c) (ch_nonces c) (map (fun fr => (fr.1.1, fr.2)) b)) v in
  stepped v' match r with
             | Err _ => Compacted (Err IoError)
             | Ok locs => Repointing (mkPacked (by_inode (map (fun fr => fr.1.2) b) locs) 0 ((fun l => fl_segid l.2) <$> head locs) bs pr)
             end.
Proof.
  intros Hroom Hdn Hno [Hg Hm]. cbn in Hg. apply Forall_cons in Hg as [Hb Hbs]. unfold on_frames.
  pose proof (seal_pack_spec compression (ch_fate c) (ch_dir_nonce c) (ch_nonces c) b (frames_of v) (proj1 (pp_es _ _ _ Hp)) Hroom Hdn Hno Hb) as [Hk Hres].
  destruct (store_seal_compressed _ _ _ _ _ _) as [r f']. cbn [fst snd] in Hk, Hres.
  assert (Hh : forall id x loc d, frame_held (frames_of v) id x loc d -> frame_held f' id x loc d) by apply Hk.
  apply stepped_frames; [by eapply task_frames_keeps|]. destruct r as [locs|e]; [|by split].
  destruct (Hres locs eq_refl) as [Hc Hpk]. destruct (packed_groups f' _ b locs (frames_ok_mono _ _ Hh _ Hb) Hpk) as [Hn Hr].
  split; [eapply Forall_impl; [exact Hbs|]; by apply frames_ok_mono|]. split; [|done]. split; [done|]. cbn [pk_segid pk_swapped pk_groups].
  destruct locs as [|l locs]; cbn [head fmap option_fmap option_map].
  - apply Forall2_nil_inv_r in Hpk as ->. done.
  - apply Forall2_cons_inv_r in Hpk as (fr & b' & (_ & Es & _) & _ & _). rewrite Es. split; [exact Hr|]. intros _. by apply fresh_unused.
Qed.

Lemma discard_step_ok c swapped segid bs pr :
  compact_ok v D its (Repointing (mkPacked [] swapped segid bs pr)) ->
  stepped (match swapped, segid with
           | O, Some s => (on_frames (fun f => let '(r, ob) := delete_segment (ch_arrives c) (ch_landed c) s (fr_objects f) in (r, set_objects ob f)) v).2
           | _, _ => v
           end) (Packing bs (mkProgress (pr_relocated pr + swapped) (pr_packed pr + Nat.min swapped 1) (pr_consumed pr))).
Proof.
  intros [Hg [[_ Hpk] Hm]]. cbn in Hg, Hpk. destruct swapped as [|n]; [|by apply stepped_refl]. destruct segid as [s|]; [|by apply stepped_refl].
  destruct Hpk as [_ Hu]. specialize (Hu eq_refl). pose proof Hu as (Hr & _ & _). pose proof (rt_closed _ _ _ Hr) as Hc.
  pose proof (delete_object_spec (ch_arrives c) (ch_landed c) s (frames_of v) (proj1 (pp_es _ _ _ Hp)) Hc) as Hd.
  unfold on_frames. change (let '(a, f) := _ in (a, _)) with
    ((delete_segment (ch_arrives c) (ch_landed c) s (fr_objects (frames_of v))).1,
     set_v_es (set_frames (delete_object (ch_arrives c) (ch_landed c) s (frames_of v)) (v_es v)) v). cbn [snd].
  apply stepped_frames; [right; by exists s|]. split; [|done]. cbn. eapply Forall_impl; [exact Hg|]. apply frames_ok_mono. apply Hd.
Qed.

(** The repoint of one inode. *)
Lemma repoint_item items id t :
  (repoint_items (v_db v) id items txn_new).2 = t -> NoDup ((fun r : Repoint => r.1.1) <$> items) ->
  (forall mv, mv ∈ repoint_moves (v_db v) id items -> move_ok (frames_of v) (v_db v) mv) ->
  tx_inodes t = [] /\ item_ok (v_db v) (task_commit t) (task_item (repoint_moves (v_db v) id items) []).
Proof.
  intros <- Hn Hok. destruct (repoint_items_spec (v_db v) id items txn_new) as [_ [Hdb Ht Ho Hi Hb]].
  split; [by rewrite Hi|]. set (t := (repoint_items _ _ _ _).2) in *.
  split; cbn [task_commit task_item qc_request rq_txn rq_settlement qc_tails qc_guards qc_owned it_ws it_moves it_drops it_guards it_owned].
  - intros d _. by rewrite Hdb.
  - apply Hb; [by apply repoint_moves_nodup|]. intros mv Hm. by apply repoint_moves_elem in Hm as (_ & _ & ?).
  - intros k. rewrite Ht. by right.
  - rewrite Ho. apply Forall_fmap, Forall_forall. intros mv Hm. left. cbn. destruct (Hok mv Hm) as (_ & d & _ & Hh & _). by eapply fs_held_len.
  - by right.
  - done.
  - done.
  - constructor.
  - done.
  - done.
Qed.

Lemma repoint_step_ok id items gs swapped segid bs pr :
  drops_of its = [] -> inode_settled v id = true ->
  compact_ok v D its (Repointing (mkPacked ((id, items) :: gs) swapped segid bs pr)) ->
  let '(n, t) := repoint_items (v_db v) id items txn_new in
  let p := mkPacked gs (swapped + n) segid bs pr in
  if (0 <? n)%nat then stepped (submit_owned t None SettleNone [] [] v).2 (Committing (length (v_queue v)) id p)
  else stepped v (Repointing p).
Proof.
  intros Hdr Hset [Hg [[Hn Hpk] Hm]]. cbn in Hg. cbn [pk_groups pk_segid pk_swapped] in Hn, Hpk.
  change (flatten ((id, items) :: gs)) with (((fun r => (id, r)) <$> items) ++ flatten gs) in Hn, Hpk.
  rewrite fmap_app in Hn. apply NoDup_app in Hn as (Hn1 & _ & Hn2).
  assert (Hni : NoDup ((fun r : Repoint => r.1.1) <$> items)).
  { rewrite <- list_fmap_compose in Hn1. apply (NoDup_fmap_1 (fun x => (id, x))). by rewrite <- list_fmap_compose. }
  destruct (repoint_items_spec (v_db v) id items txn_new) as [Hlen _].
  destruct (repoint_items (v_db v) id items txn_new) as [n t] eqn:Er. cbn [fst] in Hlen.
  pose proof (proj1 (pp_es _ _ _ Hp)) as Inv. cbn in Inv.
  assert (Hmok : forall mv, mv ∈ repoint_moves (v_db v) id items -> move_ok (frames_of v) (v_db v) mv).
  { intros mv (<- & Hin & Hx)%repoint_moves_elem. split; [done|].
    assert (Hr : exists s, repoint_ok (frames_of v) s (mv_id mv, (mv_extent mv, mv_old mv, mv_new mv))).
    { apply (list_elem_of_fmap_2 (fun r : Repoint => (mv_id mv, r))) in Hin. destruct segid as [s|].
      - destruct Hpk as [Hpk _]. apply Forall_app in Hpk as [Hpk _]. rewrite Forall_forall in Hpk. exists s. by apply Hpk.
      - apply app_nil in Hpk as [Hpk _]. rewrite Hpk in Hin. by apply elem_of_nil in Hin. }
    destruct Hr as (s & _ & d & Ho & Hnew). cbn in Ho, Hnew. exists d. split; [done|]. by apply object_frame. }
  destruct (repoint_item items id t) as [Ht Hit]; [by rewrite Er|done|done|].
  assert (Hpk' : forall v', v_es v' = v_es v -> (n = O -> v_db v' = v_db v) ->
     forall its', (swapped + n = O -> its' = its)%nat -> packed_ok v' D its' (mkPacked gs (swapped + n) segid bs pr)).
  { intros v' He Hd its' Hi'. split; [done|]. cbn. destruct segid as [s|]; [|by apply app_nil in Hpk as [_ ?]].
    rewrite He. destruct Hpk as [Hpk Hu]. apply Forall_app in Hpk as [_ Hpk]. split; [done|].
    intros E. rewrite Hi' by done. destruct (Hu ltac:(lia)) as (Hr & Hu1 & Hu2). split; [by rewrite He|]. by rewrite (Hd ltac:(lia)). }
  destruct (Nat.ltb_spec 0 n) as [Hpos|Hz].
  - destruct (queue_same v t Ht) as [He Hdb].
    destruct (pipe_queue compression seal_threshold max_inflight_seals v F its t (repoint_moves (v_db v) id items) [] Hp Ht Hit) as [Hp' Hq].
    + by apply Forall_forall.
    + rewrite Hm. by apply repoint_moves_nodup.
    + intros mv w (<- & _ & _)%repoint_moves_elem Hw E. apply bool_decide_eq_true in Hset.
      by eapply (inode_settled_queue v F its); [..|symmetry].
    + intros mv g _. by rewrite app_nil_r, Hdr, elem_of_nil.
    + constructor.
    + exists [task_item (repoint_moves (v_db v) id items) []]. split; [|split; [done|]].
      * split; [done|]. split; [right; by eexists _, _, _|]. split; [done|]. by rewrite He, Hdb.
      * split; [by rewrite He|]. split; [apply Hpk'; [done|lia|lia]|].
        rewrite moves_app, Hm. cbn [app]. assert (moves_of [task_item (repoint_moves (v_db v) id items) []] = repoint_moves (v_db v) id items) as ->.
        { unfold moves_of. cbn. apply app_nil_r. }
        split; [apply Forall_forall; by intros mv (? & _ & _)%repoint_moves_elem|].
        pose proof (Forall2_length _ _ _ (pp_items _ _ _ Hp)) as Hl. rewrite Hl.
        by rewrite drop_ge by (rewrite length_app; cbn; lia).
  - apply stepped_refl. split; [done|]. split; [|done]. by apply Hpk'.
Qed.

Lemma gather_step_kind c rb db st ph g :
  (exists ph' g', gather_step seal_threshold c rb db st ph g = Gathering ph' g') \/
  (exists bs pr, gather_step seal_threshold c rb db st ph g = Packing bs pr) \/
  (exists r, gather_step seal_threshold c rb db st ph g = Compacted r).
Proof.
  destruct ph as [|[|k want] live|loc_of [|r runs] read], g as [[|s rest] [|n] sizes consumed acc]; cbn [gather_step];
    repeat first [by left; eexists _, _ | by right; left; eexists _, _ | by right; right; eexists _ | case_match].
Qed.

(** Every step of the task. *)
Lemma compact_step_ok env c rb t :
  small_segments (frames_of v) -> fr_counter (frames_of v) < U64_MAX ->
  length (ch_dir_nonce c) = NONCE_SIZE -> (forall i, length (ch_nonces c i) = NONCE_SIZE) ->
  drops_of its = [] -> compact_ok v D its t ->
  let '(v', t') := compact_step compression seal_threshold env c rb v t in stepped v' t'.
Proof.
  intros Hsm Hroom Hdn Hno Hdr Ht. destruct t as [ph g|[|b bs] pr|[[|[id items] gs] swapped segid bs pr]|ahead id p|r]; cbn [compact_step].
  - apply stepped_refl. destruct Ht as [Hg Hm]. pose proof (gather_step_ok seal_threshold c rb (frames_of v) (v_db v) ph g) as Hs.
    split; [apply Hs; [apply (pp_es _ _ _ Hp)|done|apply Hsafe|done]|].
    destruct (gather_step_kind c rb (v_db v) (fr_objects (frames_of v)) ph g) as [(? & ? & ->)|[(? & ? & ->)|(? & ->)]]; done.
  - apply stepped_refl. by destruct Ht.
  - pose proof (pack_step_ok c b bs pr Hroom Hdn Hno Ht) as Hs. destruct (on_frames _ v) as [[locs|e] v']; exact Hs.
  - apply (discard_step_ok c swapped segid bs pr Ht).
  - destruct (inode_settled v id) eqn:Hset; [|by apply stepped_refl]. unfold new_transaction.
    destruct (e_read_only env); [apply stepped_refl; by destruct Ht as [_ [_ ?]]|].
    pose proof (repoint_step_ok id items gs swapped segid bs pr Hdr Hset Ht) as Hs.
    destruct (repoint_items (v_db v) id items txn_new) as [n t]. destruct (ch_arrives c); cbn [negb]; [|apply stepped_refl; by destruct Ht as [_ [_ ?]]].
    by destruct (0 <? n)%nat.
  - by apply stepped_refl.
  - by apply stepped_refl.
Qed.
End step.
End compact_task.
