(* ===== verification/GcTask.v ===== *)
(** * Reclaim as a background task

    No code; the invariant of a running reclaim pass or orphan sweep ([gc_ok]): a boundary
    admits only segments that can get no new reference, a verify has not yet looked where a
    reference is left, and what is deleted or dropped is referred to by nothing, in memory
    or on disk.  What everybody else does keeps it, and so does every step of
    [Gc.gc_step]. *)

From stdpp Require Import sorting.
From S2P Require Import Prelude Errors KeyCodec FrameCodec Segment Quota Inode Dedup Permissions Store Namespace Commit Usage Ops.
From S2P Require Import Lanes FrameStore SegmentStore Frames Extent ExtentSpec SegCounts Volume Registry OpsWrite Staged.
From S2P Require Import Pipeline Submit PipelineSpec Verify Compact Gc Tasks CompactSpec.

Section gc_task.
Context `{CodecPrimsLaws, Crc32cLaws} (compression : CompressionConfig) (seal_threshold max_inflight_seals : Z).
#[local] Instance the_store : FrameStore Frames AppendHint := frames_store compression seal_threshold max_inflight_seals.
#[local] Instance the_laws : FrameStoreLaws Frames AppendHint := frames_laws compression seal_threshold max_inflight_seals.
Implicit Types (f : Frames) (v : Volume Frames).
#[local] Abbreviation unused := (unused compression seal_threshold max_inflight_seals).
#[local] Abbreviation moved_on := (moved_on compression seal_threshold max_inflight_seals).
#[local] Abbreviation task_frames := (task_frames compression seal_threshold max_inflight_seals).

(** ** The invariant *)

Definition eligible_ok v (its : list Item) (b : Boundary) : Prop :=
  forall s, eligible b s = true -> retired (frames_of v) its s.

(** Where a reference is left the verify still has to look: first in memory, then on disk. *)
Record verifying v (D : Db) (its : list Item) (s : Segid) (want : list DirEntry) (scans : list (bool * (bytes * bytes))) : Prop := {
  vf_retired : retired (frames_of v) its s;
  vf_want : StronglySorted klt (keys_of want);
  vf_scans : exists mem disk, scans = map (fun r => (false, r)) mem ++ map (fun r => (true, r)) disk /\ mem ⊆ disk /\
    (forall k loc, extents (v_db v) !! k = Some loc -> fl_segid loc = s ->
       k ∈ keys_of want /\ exists r, r ∈ mem /\ in_range r.1 r.2 (extent_key k.1 k.2) = true) /\
    (forall k loc, extents D !! k = Some loc -> fl_segid loc = s ->
       k ∈ keys_of want /\ exists r, r ∈ disk /\ in_range r.1 r.2 (extent_key k.1 k.2) = true) }.

Definition collect_ok v (D : Db) (its : list Item) (k : Collect) : Prop :=
  eligible_ok v its (gc_boundary k) /\ Forall (fun s => eligible (gc_boundary k) s = true) (gc_todo k) /\
  Forall (unused v D its) (gc_freed k).

Definition gc_ok v (D : Db) (its : list Item) (t : Collection) : Prop :=
  moves_of its = [] /\
  match t with
  | Dropped ahead _ => drops_of (drop (S ahead) its) = []
  | _ => drops_of its = []
  end /\
  match t with
  | Gating b | Scanning b _ _ => eligible_ok v its b
  | Listed b _ orphans => eligible_ok v its b /\ Forall (fun s => eligible b s = true) orphans
  | Choosing k => collect_ok v D its k
  | Verifying s want scans k => collect_ok v D its k /\ verifying v D its s want scans
  | Verified s verdict k => collect_ok v D its k /\ (verdict <> Keep -> unused v D its s)
  | Deleting s k => collect_ok v D its k /\ unused v D its s
  | Dropping rest drops _ => Forall (unused v D its) (rest ++ drops)
  | Barrier _ | Dropped _ _ | Collected _ => True
  end.

(** ** Everybody else *)

Section moved.
Context n new v D its v' D' (Hmo : moved_on n new v D its v' D').

Lemma eligible_moved b : eligible_ok v its b -> eligible_ok v' (drop n its ++ new) b.
Proof. intros He s Hs. eapply retired_moved; [exact Hmo|by apply He]. Qed.
Lemma unused_all l : Forall (unused v D its) l -> Forall (unused v' D' (drop n its ++ new)) l.
Proof. intros Hl. eapply Forall_impl; [exact Hl|]. intros s. by apply unused_moved. Qed.
Lemma collect_moved k : collect_ok v D its k -> collect_ok v' D' (drop n its ++ new) k.
Proof. intros (He & Ht & Hf). split; [by apply eligible_moved|]. split; [done|by apply unused_all]. Qed.
Lemma verifying_moved s want scans : verifying v D its s want scans -> verifying v' D' (drop n its ++ new) s want scans.
Proof.
  intros [Hr Hw (mem & disk & -> & Hsub & Hm & Hd)]. split; [by eapply retired_moved|done|]. exists mem, disk. split_and!; try done.
  - intros k loc Hk Hs. apply (Hm k loc); [|done]. by eapply ref_back.
  - intros k loc Hk Hs. destruct (mo_durable _ _ _ _ _ _ _ _ _ _ Hmo) as [->| ->]; [by eapply Hd|].
    destruct (Hm k loc Hk Hs) as (? & r & Hin & ?). split; [done|]. exists r. split; [by apply Hsub|done].
Qed.

Lemma gc_moved r t : gc_ok v D its t -> gc_ok v' D' (drop n its ++ new) (gc_deliver n r t).
Proof.
  intros (Hm & Hdr & Ht). assert (Hm' : moves_of (drop n its ++ new) = []).
  { rewrite (moved_moves _ _ _ _ _ _ _ _ _ _ Hmo). eapply empty_sub; [|exact Hm]. intros x. apply drop_sub. }
  assert (Hnil : drops_of its = [] -> drops_of (drop n its ++ new) = []).
  { intros E. rewrite (moved_drops _ _ _ _ _ _ _ _ _ _ Hmo). eapply empty_sub; [|exact E]. intros x. apply drop_sub. }
  split; [exact Hm'|]. destruct t as [k|b|b h pin|b mb os|k|s want scans k|s vd k|s k|rest drops del|ahead del|r']; cbn [gc_deliver].
  all: try (split; [by apply Hnil|]).
  all: try done.
  - by apply eligible_moved.
  - by apply eligible_moved.
  - destruct Ht. split; [by apply eligible_moved|done].
  - by apply collect_moved.
  - destruct Ht. split; [by apply collect_moved|by apply verifying_moved].
  - destruct Ht as [? Hu]. split; [by apply collect_moved|]. intros Hv. eapply unused_moved; [exact Hmo|by apply Hu].
  - destruct Ht. split; [by apply collect_moved|by eapply unused_moved].
  - by apply unused_all.
  - destruct (Nat.ltb_spec ahead n) as [Hlt|Hge].
    + split; [|done]. rewrite (moved_drops _ _ _ _ _ _ _ _ _ _ Hmo). eapply (nil_behind it_drops (S ahead)); [exact Hdr|lia].
    + split; [|done]. rewrite drop_app, drops_app, drop_drop. replace (n + S (ahead - n))%nat with (S ahead) by lia. rewrite Hdr.
      eapply empty_sub; [intros x; apply drop_sub|]. by apply (plain_items v), (mo_new _ _ _ _ _ _ _ _ _ _ Hmo).
Qed.
End moved.

(** ** What a segment says about its references *)

Lemma held_row_wf f k loc d : FramesInv f -> frame_held f k.1 k.2 loc d -> ~ seg_dead f (fl_segid loc) -> row_wf (k, loc).
Proof.
  intros Inv (buf & dir & Hd & (pre & body & post & Hb & Ho & Hl & Hlu & Hfi & _) & _ & Hu) Hnd. split; [exact Hu|]. cbn [snd].
  destruct (seg_data_cases f _ buf dir Inv Hnd Hd) as [Hz Hc]. split; [|split; [done|]].
  - destruct Hc as [(o & Hf & _)|[[_ Hs]|(_ & _ & Hv)]].
    + apply find_lane_Some in Hf as [Hin <-]; [|apply Inv]. by apply (proj1 (Forall_forall _ _) (fi_lanes _ Inv)).
    + by apply (fi_sealing _ Inv _ _ Hs).
    + by apply (fi_live _ Inv _ _ Hv).
  - rewrite Hb, !zlen_app in Hz. pose proof (zlen_nonneg pre). pose proof (zlen_nonneg body). pose proof (zlen_nonneg post).
    pose proof (zlen_nonneg (frame_bytes body)). split; [ulia|]. unfold is_u32. ulia.
Qed.
Lemma refs_rows f m : FramesInv f -> refs_ok f m -> rows_wf m.
Proof. intros Inv Hr k loc Hk. destruct (Hr k loc Hk) as (d & Hh & Hd). by eapply held_row_wf. Qed.
Lemma store_refs f m : FramesInv f -> on_store f m -> refs_ok f m.
Proof. intros Inv Hs k loc Hk. destruct (Hs k loc Hk) as (d & Hh). exists d. by apply object_frame. Qed.

Lemma directory_names f s dir :
  FramesInv f -> store_read_directory (fr_objects f) s = Ok dir ->
  Forall key_u64 (keys_of dir) /\ forall m, refs_ok f m -> lists_refs s dir m.
Proof.
  intros Inv Hr. unfold store_read_directory in Hr. destruct (ob_live (fr_objects f) !! s) as [b|] eqn:Eb; [|done].
  destruct (read_directory b s) as [dir'|] eqn:Ed; [|done]. injection Hr as ->.
  destruct (fi_live _ Inv s b Eb) as (_ & [_ Hw] & _). pose proof (live_seg_data f s b Inv Eb) as Hd.
  unfold object_dir in Hw, Hd. rewrite Ed in Hw, Hd. split.
  - apply Forall_fmap. eapply Forall_impl; [exact Hw|]. by intros e (_ & _ & ? & ?).
  - intros m Hm k loc Hk <-. destruct (Hm k loc Hk) as (d & (buf & dir' & Hd' & _ & Hin & _) & _). rewrite Hd in Hd'. injection Hd' as <- <-.
    apply (list_elem_of_fmap_2 entry_key) in Hin. cbn in Hin. unfold entry_key, entry_of_loc in Hin. cbn in Hin. by destruct k.
Qed.
Lemma absent_unreferenced f s m :
  store_read_directory (fr_objects f) s = Err SegmentNotFound -> seg_closed f s -> refs_ok f m -> unreferenced m s.
Proof.
  intros Hr (_ & Hl & Hs) Hm k loc Hk <-. destruct (Hm k loc Hk) as (d & (buf & dir & Hd & _) & Hn). unfold store_read_directory in Hr.
  destruct (ob_live (fr_objects f) !! fl_segid loc) as [b|] eqn:Eb; [by destruct (read_directory b _)|].
  unfold seg_data, object_data in Hd. rewrite Hl, Hs, Eb in Hd. apply Hn. unfold seg_dead. by destruct (ob_deleted _ !! _).
Qed.

(** ** Its own steps *)

Section step.
Context (v : Volume Frames) (F : Files) (its : list Item) (D : Db) (Fs : Files) (delete_at : gmap Segid Z).
Context (Hp : PipeInv v F its) (Hsafe : safe compression seal_threshold max_inflight_seals (frames_of v) (v_db v) D Fs).
#[local] Abbreviation task_step := (task_step compression seal_threshold max_inflight_seals).

Lemma frames_inv : FramesInv (frames_of v).
Proof. apply (pp_es _ _ _ Hp). Qed.
Lemma memory_refs : refs_ok (frames_of v) (extents (v_db v)).
Proof. apply Hsafe. Qed.
Lemma durable_refs : refs_ok (frames_of v) (extents D).
Proof. apply store_refs; [apply frames_inv|apply Hsafe]. Qed.

Lemma start_verify_ok c s k :
  moves_of its = [] -> drops_of its = [] -> collect_ok v D its k -> s ∈ gc_todo k ->
  gc_ok v D its (start_verify c (fr_objects (frames_of v)) s k).
Proof.
  intros Hm Hd Hk Hs. pose proof Hk as (He & Ht & _). pose proof (He s (proj1 (Forall_forall _ _) Ht s Hs)) as Hr.
  assert (Hno : gc_ok v D its (Verified s Keep k)) by (split; [done|]; split; [done|]; split; done).
  assert (Hyes : forall vd, unreferenced (extents (v_db v)) s -> unreferenced (extents D) s -> gc_ok v D its (Verified s vd k)).
  { intros vd H1' H2'. split; [done|]. split; [done|]. split; [done|]. intros _. split; [done|]. done. }
  unfold start_verify. destruct (store_read_directory _ s) as [dir|e] eqn:Er.
  - destruct (gh_arrives c); cbn [negb]; [|done]. destruct (directory_names _ s dir frames_inv Er) as [Hu Hn].
    pose proof (sorted_wanted dir Hu) as Hw. destruct (sorted_directory_spec dir) as [Hso Hin].
    assert (Hmem : forall k0 loc, extents (v_db v) !! k0 = Some loc -> fl_segid loc = s -> k0 ∈ keys_of (sorted_directory dir)).
    { intros k0 loc Hk0 Hs0. apply Hin. eapply Hn; [apply memory_refs|done|done]. }
    assert (Hdisk : forall k0 loc, extents D !! k0 = Some loc -> fl_segid loc = s -> k0 ∈ keys_of (sorted_directory dir)).
    { intros k0 loc Hk0 Hs0. apply Hin. eapply Hn; [apply durable_refs|done|done]. }
    destruct (ranges_spec _ Hw) as [_ Hcov].
    destruct (sorted_directory dir) as [|e want] eqn:Es.
    + apply Hyes; intros k0 loc Hk0 Hs0; eapply (not_elem_of_nil k0); eauto.
    + rewrite <- Es in *. destruct (extent_scan_ranges (sorted_directory dir)) as [ranges|]; [|done].
      destruct (Hcov ranges eq_refl) as [_ Hc]. split; [done|]. split; [done|]. split; [done|]. split; [done|done|].
      exists ranges, ranges. split; [done|]. split; [done|].
      split; intros k0 loc Hk0 Hs0; (split; [by eauto|apply Hc; by eauto]).
  - destruct e; try done. destruct (gh_arrives c); [|done]. pose proof (rt_closed _ _ _ Hr) as Hc.
    apply Hyes; eapply absent_unreferenced; [done..|apply memory_refs|done|done|apply durable_refs].
Qed.

Lemma scan_step_ok s want d range scans :
  verifying v D its s want ((d, range) :: scans) ->
  scan_extent_range_points_here s want range (extents (if d : bool then D else v_db v)) = Some false ->
  verifying v D its s want scans.
Proof.
  intros [Hr Hw (mem & disk & Hsc & Hsub & Hm & Hd)] Hf. split; [done|done|].
  assert (Hnone : ~ found s want range (extents (if d then D else v_db v))).
  { destruct (scan_exact s want range (extents (if d then D else v_db v)) Hw) as (b & Hb & Hiff).
    - destruct d; eapply refs_rows; [apply frames_inv|apply durable_refs|apply frames_inv|apply memory_refs].
    - rewrite Hf in Hb. injection Hb as <-. intros Hx. by apply Hiff in Hx. }
  destruct mem as [|r mem]; cbn in Hsc.
  - destruct disk as [|r disk]; cbn in Hsc; [done|]. injection Hsc as -> -> ->. exists [], disk. split_and!; try done; [set_solver|].
    intros k loc Hk Hs. destruct (Hd k loc Hk Hs) as (Hin & r' & [->|Hr']%elem_of_cons & Hin'); [|split; [done|by exists r']].
    destruct Hnone. by exists k, loc.
  - injection Hsc as -> -> ->. exists mem, disk. split_and!; try done; [set_solver|].
    intros k loc Hk Hs. destruct (Hm k loc Hk Hs) as (Hin & r' & [->|Hr']%elem_of_cons & Hin'); [|split; [done|by exists r']].
    destruct Hnone. by exists k, loc.
Qed.
Lemma scans_done s want : verifying v D its s want [] -> unused v D its s.
Proof.
  intros [Hr Hw (mem & disk & Hsc & _ & Hm & Hd)]. symmetry in Hsc. apply app_nil in Hsc as [->%map_eq_nil ->%map_eq_nil].
  split; [done|]. split; intros k loc Hk Hs.
  - by destruct (Hm k loc Hk Hs) as (_ & r & ?%not_elem_of_nil & _).
  - by destruct (Hd k loc Hk Hs) as (_ & r & ?%not_elem_of_nil & _).
Qed.

(** The flush: afterwards the durable tree is the applied one or the old one. *)
Definition flush_lands (c : GcChoice) v0 : bool :=
  match (seal_open compression max_inflight_seals (gh_flush c) (frames_of v0)).1 with
  | Some (Ok _) => gh_flushed c
  | _ => false
  end.
Lemma flush_ok c :
  env_ok (gh_flush c) -> fr_counter (frames_of v) + Z.of_nat OPEN_SEGMENT_LANES <= U64_MAX ->
  let '(r, g') := flush_barrier_step compression max_inflight_seals c (mkGcState v D delete_at) in
  exists f', g' = mkGcState (set_v_es (set_frames f' (v_es v)) v) (if flush_lands c v then v_db v else D) delete_at /\
    keeps (frames_of v) f' /\ safe compression seal_threshold max_inflight_seals f' (v_db v) (gs_durable g') (if flush_lands c v then F else Fs) /\
    (r = Ok tt -> settled f').
Proof.
  intros Henv Hroom. unfold flush_barrier_step, flush_lands, set_gs_frames. cbn [gs_vol gs_durable gs_delete_at].
  destruct (seal_open_spec compression max_inflight_seals (gh_flush c) (frames_of v) frames_inv Henv Hroom) as (r & f' & -> & Hk & Hset).
  pose proof (safe_advance _ _ _ _ _ _ _ _ (keeps_advances _ _ Hk) Hsafe) as Hs'. cbn [fst].
  destruct r as [[]|e]; [|exists f'; by split_and!]. specialize (Hset eq_refl). destruct (gh_flushed c); [|exists f'; by split_and!].
  exists f'. split; [by destruct (gh_arrives c)|]. split; [done|]. split; [|done]. cbn [gs_durable]. split.
  - apply Hs'.
  - intros k loc Hk'. destruct (sf_refs _ _ _ _ _ _ _ Hs' k loc Hk') as (d & Hh & Hd). exists d. apply settled_on_store; [apply Hk|done|done|done].
  - intros id file Hi. destruct (pp_files _ _ _ Hp id file Hi) as [[[Hsz He Hh Hz] _] [Hv _]]. split; [|done]. split; [done| |done|done].
    intros x loc Hl. destruct (He x loc Hl) as [[Hhe Hd] Hx]. split; [|done]. split; [by apply Hk|]. cbn. by rewrite (kp_dead _ _ Hk).
Qed.

(** What is eligible after a flush can get no new reference. *)
Lemma boundary_closed f s : FramesInv f -> settled f -> eligible (current_open_boundary f) s = true -> seg_closed f s.
Proof.
  intros Inv [Hs _] He. pose proof (fi_epoch _ Inv) as Hep. rewrite Forall_forall in Hep.
  split; [|split; [|by rewrite Hs]]; unfold eligible, current_open_boundary in He; cbn in He;
    rewrite orb_true_iff, !andb_true_iff, negb_true_iff, bool_decide_eq_false, !Z.ltb_lt, Z.eqb_eq in He.
  - intros E. destruct He as [?|[[_ Hc] _]]; [lia|]. assert (Hmax : foldr (fun s m => Z.max (counter s) m) 0 (map os_segid (fr_lanes f)) < fr_counter f).
    { pose proof (fi_count _ Inv) as Hn. pose proof (fi_lanes _ Inv) as Hl. rewrite Forall_forall in Hl.
      assert (Hall : forall o, o ∈ fr_lanes f -> 0 <= counter (os_segid o) < fr_counter f).
      { intros o Ho. destruct (Hl o Ho) as [_ [[_ ?] Hb] _ _ _]. specialize (Hb (Hep o Ho)). split; [ulia|done]. }
      assert (Hpos : 0 < fr_counter f).
      { destruct (fr_lanes f) as [|o l]; [done|]. specialize (Hall o (list_elem_of_here _ _)). lia. }
      clear - Hall Hpos. induction (fr_lanes f) as [|o l IH]; [done|]. cbn. pose proof (Hall o (list_elem_of_here _ _)).
      assert (forall o', o' ∈ l -> 0 <= counter (os_segid o') < fr_counter f) by (intros o' ?; apply Hall; by right). specialize (IH ltac:(done)). lia. }
    unfold sat_add_u64 in Hc. lia.
  - apply find_lane_None. intros o Ho <-. destruct He as [Hlt|[_ Hn]]; [rewrite (Hep o Ho) in Hlt; lia|].
    apply Hn. apply list_elem_of_In, in_map, list_elem_of_In, Ho.
Qed.

Definition gc_stepped (g' : GcState) (t' : Collection) (Fs' : Files) : Prop :=
  exists new, task_step v F its (gs_vol g') (gs_durable g') Fs' new /\ gc_ok (gs_vol g') (gs_durable g') (its ++ new) t'.
Lemma gc_same da t' : gc_ok v D its t' -> gc_stepped (mkGcState v D da) t' Fs.
Proof. intros Ht. exists []. split; [by apply task_step_refl|]. by rewrite app_nil_r. Qed.

Lemma barrier_step_ok c k :
  env_ok (gh_flush c) -> fr_counter (frames_of v) + Z.of_nat OPEN_SEGMENT_LANES <= U64_MAX ->
  moves_of its = [] -> drops_of its = [] -> v_queue v = [] ->
  let '(r, g') := flush_barrier_step compression max_inflight_seals c (mkGcState v D delete_at) in
  let b := current_open_boundary (frames_of (gs_vol g')) in
  gc_stepped g' match r with
                | Err e => Collected (Err e)
                | Ok _ => match k with ReclaimPass => Gating b | OrphanSweep modified_before => Listed b modified_before [] end
                end (if flush_lands c v then F else Fs).
Proof.
  intros Henv Hroom Hm Hd Hq. pose proof (flush_ok c Henv Hroom) as Hf. destruct (flush_barrier_step _ _ _ _) as [r g'].
  destruct Hf as (f' & -> & Hk & Hs & Hset). cbn [gs_vol gs_durable] in *.
  assert (its = []) as Hi by (pose proof (pp_items _ _ _ Hp) as Hi; rewrite Hq in Hi; by apply Forall2_nil_inv_l in Hi).
  exists []. rewrite app_nil_r. split.
  { split; [rewrite app_nil_r; apply (pipe_frames compression seal_threshold max_inflight_seals v F its D); [done|by eapply task_frames_keeps]|]. split; [by left|]. split; [done|exact Hs]. }
  assert (He : r = Ok tt -> eligible_ok (set_v_es (set_frames f' (v_es v)) v) its (current_open_boundary f')).
  { intros E s Hel. split; [by eapply boundary_closed; [apply Hk|by apply Hset|]|by rewrite Hi; intros ? ? ?%not_elem_of_nil|by rewrite Hi; intros ? ?%not_elem_of_nil]. }
  destruct r as [[]|e]; [|done]. specialize (He eq_refl). split; [done|]. destruct k; done.
Qed.

Lemma todo_tail (P : Segid -> Prop) l : Forall P l -> Forall P (tail l).
Proof. by intros []. Qed.
Lemma next_ok k : collect_ok v D its k -> collect_ok v D its (next_choice k).
Proof. intros (He & Ht & Hf). split; [done|]. split; [by apply todo_tail|done]. Qed.

Lemma delete_step_ok c s k :
  gc_ok v D its (Deleting s k) ->
  let '(r, ob) := delete_segment (gh_arrives c) (gh_landed c) s (fr_objects (frames_of v)) in
  gc_stepped (set_gs_frames (set_objects ob (frames_of v)) (mkGcState v D delete_at))
    (Choosing match r with Ok _ => free s 1 k | Err _ => next_choice k end) Fs.
Proof.
  intros (Hm & Hd & (He & Ht & Hf) & Hu). pose proof Hu as (Hr & _ & _). pose proof (rt_closed _ _ _ Hr) as Hc.
  pose proof (delete_object_spec (gh_arrives c) (gh_landed c) s (frames_of v) frames_inv Hc) as Hdel.
  unfold delete_object in Hdel. destruct (delete_segment _ _ s _) as [r ob]. cbn [snd] in Hdel.
  unfold set_gs_frames. cbn [gs_vol gs_durable gs_delete_at]. set (f' := set_objects ob (frames_of v)) in *.
  exists []. rewrite app_nil_r. split; [apply task_step_frames; [done|done|]; right; by exists s|]. cbn [gs_vol gs_durable].
  set (v' := set_v_es _ v). assert (Hre : forall g, retired (frames_of v) its g -> retired (frames_of v') its g).
  { intros g. apply retired_closed. apply Hdel. }
  assert (Hun : forall g, unused v D its g -> unused v' D its g) by (intros g (? & ? & ?); split; [by apply Hre|done]).
  assert (He' : eligible_ok v' its (gc_boundary k)) by (intros g Hg; by apply Hre, He).
  assert (Hf' : Forall (unused v' D its) (gc_freed k)) by (eapply Forall_impl; [exact Hf|exact Hun]).
  apply todo_tail in Ht. split; [done|]. split; [done|]. destruct r; (split; [done|]; split; [exact Ht|]); [|done].
  apply Forall_app. split; [done|]. apply Forall_singleton. by apply Hun.
Qed.

Lemma drop_step_ok drops deleted :
  gc_ok v D its (Dropping [] drops deleted) ->
  gc_stepped (mkGcState (submit_owned (drop_txn drops txn_new) None SettleNone [] [] v).2 D delete_at)
    (Dropped (length (v_queue v)) deleted) Fs.
Proof.
  intros (Hm & Hd & Hu). cbn in Hu. destruct (drop_queue compression seal_threshold max_inflight_seals v F its drops Hp) as [Hp' Hq]; [|done|].
  { eapply Forall_impl; [exact Hu|]. by intros s (? & ? & _). }
  destruct (queue_same v (drop_txn drops txn_new)) as [Hes Hdb]; [apply (drop_txn_fields drops txn_new)|].
  exists [task_item [] drops]. cbn [gs_vol gs_durable]. split.
  - split; [done|]. split; [right; by eexists _, _, _|]. split; [done|]. by rewrite Hes, Hdb.
  - split; [by rewrite moves_app, Hm|]. split; [|done]. pose proof (Forall2_length _ _ _ (pp_items _ _ _ Hp)) as Hl. rewrite Hl.
    by rewrite drop_ge by (rewrite length_app; cbn; lia).
Qed.

(** The candidates of a pass are eligible. *)
Lemma classify_sub now horizon dead : forall to_delete waiting da s,
  s ∈ (classify now horizon dead to_delete waiting da).1 -> s ∈ dead \/ s ∈ to_delete.
Proof.
  induction dead as [|g dead IH]; intros to_delete waiting da s; cbn [classify]; [by right|].
  destruct (_ && _); intros [Hin|Hin]%IH; [left; by right| |left; by right|by right].
  apply elem_of_app in Hin as [?|?%list_elem_of_singleton]; [by right|left; subst; left].
Qed.
Lemma dead_eligible b pinned counts s : s ∈ dead_segments b pinned counts -> eligible b s = true.
Proof.
  unfold dead_segments. rewrite list_elem_of_In, in_map_iff. intros ([s' r] & <- & [_ Hf]%filter_In). cbn in *.
  by apply andb_true_iff in Hf as [[? _]%andb_true_iff _].
Qed.

Definition gc_flushes (c : GcChoice) v0 (t : Collection) : bool :=
  match t with Barrier _ => bool_decide (v_queue v0 = []) && flush_lands c v0 | _ => false end.

(** The steps that only decide. *)
Lemma scanning_ok c b horizon pinned :
  gc_ok v D its (Scanning b horizon pinned) ->
  let '(to_delete, da) := classify (gh_now c) horizon (dead_segments b pinned (segcounts D)) [] [] delete_at in
  gc_stepped (mkGcState v D da) (Choosing (mkCollect ReclaimPass b to_delete [] 0)) Fs.
Proof.
  intros (Hm & Hd & He). pose proof (classify_sub (gh_now c) horizon (dead_segments b pinned (segcounts D)) [] [] delete_at) as Hs.
  destruct (classify _ _ _ _ _ _) as [to_delete da]. apply gc_same. split; [done|]. split; [done|]. split; [done|]. split; [|done].
  cbn in Hs |- *. apply Forall_forall. intros s Hin. destruct (Hs s Hin) as [?|?%not_elem_of_nil]; [|done]. by eapply dead_eligible.
Qed.
Lemma verified_ok env c s vd k :
  gc_ok v D its (Verified s vd k) ->
  gc_ok v D its (gc_step compression max_inflight_seals env c (mkGcState v D delete_at) (Verified s vd k)).2.
Proof.
  intros (Hm & Hd & Hk & Hu). pose proof (next_ok k Hk) as Hn.
  assert (Hnext : gc_ok v D its (Choosing (next_choice k))) by done.
  assert (Hdel : vd <> Keep -> gc_ok v D its (Deleting s k)) by (intros Hv; split; [done|]; split; [done|]; split; [done|by apply Hu]).
  assert (Hfree : vd <> Keep -> gc_ok v D its (Choosing (free s 0 k))).
  { intros Hv. split; [done|]. split; [done|]. destruct Hk as (He & Ht & Hf). split; [done|]. split; [by apply todo_tail|].
    apply Forall_app. split; [done|]. apply Forall_singleton. by apply Hu. }
  cbn [gc_step snd gs_vol]. unfold verdict_step. destruct (gc_kind k), vd; try done; try (by apply Hdel).
  - destruct (segcounts _ !! s) as [[[] ?]|]; try done. destruct (gh_arrives c); [by apply Hdel|done].
  - destruct (segcounts _ !! s) as [[[] ?]|]; try done. destruct (gh_arrives c); [by apply Hfree|done].
Qed.
Lemma listed_ok env c b mb os :
  gc_ok v D its (Listed b mb os) ->
  gc_ok v D its (gc_step compression max_inflight_seals env c (mkGcState v D delete_at) (Listed b mb os)).2.
Proof.
  intros (Hm & Hd & He & Ho). cbn [gc_step gs_vol snd]. unfold list_step. destruct (gh_arrives c); cbn [negb]; [|done].
  assert (Hch : forall l, Forall (fun s => eligible b s = true) l -> gc_ok v D its (Choosing (mkCollect (OrphanSweep mb) b l [] 0))) by done.
  destruct (gh_object c) as [[s mt]|]; [|by apply Hch]. destruct (eligible b s) eqn:Hel; cbn [andb]; [|done].
  assert (Hos : Forall (fun s => eligible b s = true) (os ++ [s])) by (apply Forall_app; split; [done|by constructor]).
  destruct (_ && _ && _); [|done]. destruct (_ <=? _)%nat; [by apply Hch|done].
Qed.
Lemma dropping_ok env c rest drops deleted s :
  gc_ok v D its (Dropping (s :: rest) drops deleted) ->
  gc_ok v D its (gc_step compression max_inflight_seals env c (mkGcState v D delete_at) (Dropping (s :: rest) drops deleted)).2.
Proof.
  intros (Hm & Hd & Hu). cbn [gc_step drop_step snd gs_vol]. destruct (gh_arrives c); cbn [negb]; [|done].
  apply Forall_cons in Hu as [Hs Hu]. destruct (segcounts _ !! s); [|done]. split; [done|]. split; [done|].
  apply Forall_app in Hu as [? ?]. apply Forall_app. split; [done|]. apply Forall_app. split; [done|by constructor].
Qed.

(** Every step of the task. *)
Lemma gc_step_ok env c t :
  env_ok (gh_flush c) -> fr_counter (frames_of v) + Z.of_nat OPEN_SEGMENT_LANES <= U64_MAX -> gc_ok v D its t ->
  let '(g', t') := gc_step compression max_inflight_seals env c (mkGcState v D delete_at) t in
  gc_stepped g' t' (if gc_flushes c v t then F else Fs).
Proof.
  intros Henv Hroom Ht. pose proof Ht as (Hm & Hd & Hi).
  destruct t as [k|b|b h pin|b mb os|k|s want [|[d range] scans] k|s vd k|s k|[|s rest] drops del|ahead del|r]; cbn [gc_flushes].
  - cbn [gc_step gs_vol]. case_bool_decide as Hq; [|by apply gc_same]. cbn [andb].
    pose proof (barrier_step_ok c k Henv Hroom Hm Hd Hq) as Hb. destruct (flush_barrier_step _ _ _ _) as [[[]|e] g']; exact Hb.
  - cbn [gc_step]. unfold gate_step. destruct (gh_gate c) as [[[h p]|]|e]; by apply gc_same.
  - cbn [gc_step]. unfold scan_step. cbn [gs_durable gs_delete_at gs_vol]. destruct (gh_arrives c); cbn [negb]; [|by apply gc_same].
    pose proof (scanning_ok c b h pin Ht) as Hs. by destruct (classify _ _ _ _ _ _).
  - pose proof (listed_ok env c b mb os Ht) as Hl. by apply gc_same.
  - cbn [gc_step]. apply gc_same. unfold choose_step. cbn [gs_vol]. destruct (gc_todo k) as [|s todo] eqn:Etodo.
    + destruct (gc_kind k); [|done]. destruct (gc_freed k) as [|s fr] eqn:Ef; [done|]. destruct (new_transaction env); [|done].
      split; [done|]. split; [done|]. destruct Hi as (_ & _ & Hf). rewrite Ef in Hf. by rewrite app_nil_r.
    + apply start_verify_ok; [done|done|done|]. rewrite Etodo. left.
  - cbn [gc_step verify_step]. apply gc_same. destruct Hi as [Hk Hv]. split; [done|]. split; [done|]. split; [done|]. intros _. by eapply scans_done.
  - cbn [gc_step verify_step gs_vol gs_durable]. apply gc_same. destruct Hi as [Hk Hv].
    destruct (gh_arrives c); [|done]. destruct (scan_extent_range_points_here _ _ _ _) as [[]|] eqn:Es; try done.
    split; [done|]. split; [done|]. split; [done|]. by eapply scan_step_ok.
  - pose proof (verified_ok env c s vd k Ht) as Hv. by apply gc_same.
  - pose proof (delete_step_ok c s k Ht) as Hs. cbn [gc_step]. unfold delete_step. cbn [gs_vol]. by destruct (delete_segment _ _ s _).
  - cbn [gc_step drop_step gs_vol gs_durable gs_delete_at]. case_bool_decide; [by apply gc_same|by apply drop_step_ok].
  - pose proof (dropping_ok env c rest drops del s Ht) as Hv. by apply gc_same.
  - by apply gc_same.
  - by apply gc_same.
Qed.
End step.
End gc_task.
