(* ===== verification/World.v ===== *)
(** * The volume and its background tasks

    No code; everything together.  A world is the volume with the durable tree and the one
    background task, which compacts segments or reclaims them ([fs/gc.rs] runs the two after
    each other).  Its steps, in any order: submissions, turns of the commit worker and reads,
    uploads of sealed segments, flushes, and the steps of the task.  Beside it runs the
    specification of [PipelineSpec] and, for a crash, the files of the last flush that
    landed. *)

From stdpp Require Import sorting.
From S2P Require Import Prelude Errors KeyCodec FrameCodec Segment Quota Inode Dedup Permissions Store Namespace Commit Usage Ops.
From S2P Require Import Lanes FrameStore SegmentStore Frames Extent ExtentSpec SegCounts Volume Registry OpsWrite OpsIo Staged.
From S2P Require Import Pipeline Submit PipelineSpec Verify CompactPlan Compact Gc Tasks CompactSpec CompactTask GcTask.

Inductive Task := Idle | Compacting (round_bytes : Z) (t : Compaction) | Collecting (t : Collection).

Record World := mkWorld {
  w_vol : Volume Frames; w_spec : Spec;
  w_durable : Db; w_safe : Files;
  w_delete_at : gmap Segid Z; w_task : Task }.

Definition task_locks (t : Task) : Z -> Prop := match t with Compacting _ t => holds_lock t | _ => fun _ => False end.
Definition task_deliver (ev : PipeEvent) (t : Task) : Task :=
  match ev, t with
  | EvTurn n r, Compacting rb t => Compacting rb (deliver n r t)
  | EvTurn n r, Collecting t => Collecting (gc_deliver n r t)
  | _, _ => t
  end.
Definition finished (t : Task) : bool :=
  match t with Idle | Compacting _ (Compacted _) | Collecting (Collected _) => true | _ => false end.

(** A commit of the task is a request without writes. *)
Definition sp_follow (v v' : Volume Frames) (sp : Spec) : Spec :=
  if (length (v_queue v) <? length (v_queue v'))%nat then sp_submit [] sp else sp.

Section world.
Context `{CodecPrimsLaws, Crc32cLaws} (compression : CompressionConfig) (seal_threshold max_inflight_seals : Z).
#[local] Instance the_store : FrameStore Frames AppendHint := frames_store compression seal_threshold max_inflight_seals.
#[local] Instance the_laws : FrameStoreLaws Frames AppendHint := frames_laws compression seal_threshold max_inflight_seals.
Implicit Types (f : Frames) (v : Volume Frames) (D : Db) (Fs : Files) (t : Task).

Definition lanes_fit v : Prop := fr_counter (frames_of v) + Z.of_nat OPEN_SEGMENT_LANES <= U64_MAX.

Inductive world_step : World -> World -> Prop :=
| ws_pipe ev v sp v' sp' D Fs da t :
    pipe_event (task_locks t) ev (v, sp) (v', sp') ->
    world_step (mkWorld v sp D Fs da t) (mkWorld v' sp' D Fs da (task_deliver ev t))
| ws_read auth id file offset count v sp D Fs da t :
    visible_inode v id = Ok (IFile file) ->
    match auth with Some a => check_access (IFile file) (from_auth_context a) Read | None => Ok tt end = Ok tt ->
    0 <= offset -> 0 <= count -> stored_len (v_db v) id offset (Z.min count (f_size file - offset)) <= U32_MAX ->
    world_step (mkWorld v sp D Fs da t) (mkWorld (read_file auth id offset count v).2 sp D Fs da t)
| ws_upload s fate v sp D Fs da t :
    world_step (mkWorld v sp D Fs da t)
      (mkWorld (set_v_es (set_frames (background_seal s fate (frames_of v)) (v_es v)) v) sp D Fs da t)
| ws_flush c v sp D Fs da t :
    env_ok (gh_flush c) -> lanes_fit v ->
    let g := (flush_barrier_step compression max_inflight_seals c (mkGcState v D da)).2 in
    world_step (mkWorld v sp D Fs da t)
      (mkWorld (gs_vol g) sp (gs_durable g) (if flush_lands compression max_inflight_seals c v then sp_files sp else Fs) da t)
| ws_start_compaction round_bytes segids atomic_prefix v sp D Fs da t :
    finished t = true ->
    world_step (mkWorld v sp D Fs da t) (mkWorld v sp D Fs da (Compacting round_bytes (compaction_start segids atomic_prefix)))
| ws_start_collection k v sp D Fs da t :
    finished t = true -> world_step (mkWorld v sp D Fs da t) (mkWorld v sp D Fs da (Collecting (Barrier k)))
| ws_compact env c rb (t : Compaction) v sp D Fs da :
    small_segments (frames_of v) -> fr_counter (frames_of v) < U64_MAX ->
    length (ch_dir_nonce c) = NONCE_SIZE -> (forall i, length (ch_nonces c i) = NONCE_SIZE) ->
    let r := compact_step compression seal_threshold env c rb v t in
    world_step (mkWorld v sp D Fs da (Compacting rb t)) (mkWorld r.1 (sp_follow v r.1 sp) D Fs da (Compacting rb r.2))
| ws_collect env c (t : Collection) v sp D Fs da :
    env_ok (gh_flush c) -> lanes_fit v ->
    let r := gc_step compression max_inflight_seals env c (mkGcState v D da) t in
    world_step (mkWorld v sp D Fs da (Collecting t))
      (mkWorld (gs_vol r.1) (sp_follow v (gs_vol r.1) sp) (gs_durable r.1)
         (if gc_flushes compression max_inflight_seals c v t then sp_files sp else Fs) (gs_delete_at r.1) (Collecting r.2)).

(** ** The invariant *)

#[local] Abbreviation moved_on := (moved_on compression seal_threshold max_inflight_seals).
#[local] Abbreviation safe := (safe compression seal_threshold max_inflight_seals).

Definition task_ok v D (its : list Item) t : Prop :=
  match t with
  | Idle => moves_of its = [] /\ drops_of its = []
  | Compacting _ t => compact_ok compression seal_threshold max_inflight_seals v D its t /\ drops_of its = []
  | Collecting t => gc_ok compression seal_threshold max_inflight_seals v D its t
  end.
Definition WorldInv (w : World) : Prop :=
  exists its, PipeInv (w_vol w) (sp_files (w_spec w)) its /\ Forall2 explains its (sp_queue (w_spec w)) /\
    safe (frames_of (w_vol w)) (v_db (w_vol w)) (w_durable w) (w_safe w) /\
    task_ok (w_vol w) (w_durable w) its (w_task w).

Lemma task_moves v D its t : task_ok v D its t -> Forall (fun mv => task_locks t (mv_id mv)) (moves_of its).
Proof.
  destruct t as [|rb t|t]; cbn.
  - by intros [-> _].
  - intros [[_ Hm] _]. destruct t as [| | |ahead id p|]; try (by rewrite Hm).
    + by destruct Hm as [_ ->].
    + by destruct Hm as (_ & Hm & _).
  - by intros [-> _].
Qed.
Lemma task_finished v D its t : finished t = true -> task_ok v D its t -> moves_of its = [] /\ drops_of its = [].
Proof.
  destruct t as [|rb t|t]; cbn; [done| |].
  - destruct t; try done. intros _ [[_ ?] ?]. done.
  - destruct t; try done. intros _ (? & ? & _). done.
Qed.
Lemma task_moved n new ev v D its v' D' t :
  moved_on n new v D its v' D' -> (ev = EvSubmit /\ n = O \/ exists r, ev = EvTurn n r) -> task_ok v D its t ->
  task_ok v' D' (drop n its ++ new) (task_deliver ev t).
Proof.
  intros Hmo Hev Ht.
  assert (Hd : drops_of its = [] -> drops_of (drop n its ++ new) = []).
  { intros E. rewrite (moved_drops _ _ _ _ _ _ _ _ _ _ Hmo). eapply empty_sub; [|exact E]. intros x. apply drop_sub. }
  destruct t as [|rb t|t]; cbn in Ht.
  - replace (task_deliver ev Idle) with Idle by (destruct ev; done). split; [|apply Hd; by destruct Ht].
    rewrite (moved_moves _ _ _ _ _ _ _ _ _ _ Hmo). eapply empty_sub; [intros x; apply drop_sub|exact (proj1 Ht)].
  - destruct Ht as [Ht Hdr]. specialize (Hd Hdr).
    destruct Hev as [[-> ->]|[r ->]]; cbn; (split; [|done]); [|by eapply compact_moved].
    pose proof (compact_moved _ _ _ 0 new (Ok tt) v D its v' D' t Hmo Ht) as Hc. 
    destruct t; cbn in Hc; try done. by rewrite Nat.sub_0_r in Hc.
  - destruct Hev as [[-> ->]|[r ->]]; cbn; [|by eapply gc_moved].
    pose proof (gc_moved _ _ _ 0 new v D its v' D' Hmo (Ok tt) t Ht) as Hc. destruct t; cbn in Hc; try done. by rewrite Nat.sub_0_r in Hc.
Qed.
(** ** What the steps do *)

Lemma take_sub {A} (g : Item -> list A) n its x : x ∈ concat (map g (take n its)) -> x ∈ concat (map g its).
Proof. intros Hx. rewrite (split_its g n). apply elem_of_app. by left. Qed.

Lemma event_moved ev v F its v' its' D Fs :
  event_items ev v v' its its' -> PipeInv v F its -> safe (frames_of v) (v_db v) D Fs ->
  safe (frames_of v') (v_db v') D Fs /\
  exists n new, its' = drop n its ++ new /\ moved_on n new v D its v' D /\ (ev = EvSubmit /\ n = O \/ exists r, ev = EvTurn n r).
Proof.
  intros Hev Hp Hs. destruct ev as [|n r].
  - destruct Hev as ([Hdb He] & new & -> & Hnew). pose proof (evolved_advances _ _ _ _ _ He) as Had.
    split; [rewrite Hdb; by eapply safe_advance|]. exists O, new. split; [done|]. split; [|by left].
    split; [done| |by left|done]. rewrite Hdb. by left.
  - destruct Hev as (-> & Hf & Hex). split.
    + destruct Hs as [Hr Hst Hfi]. rewrite Hf. split; [|done|done].
      destruct Hex as [->| ->]; [done|by eapply (queue_refs compression seal_threshold max_inflight_seals v)].
    + exists n, []. split; [by rewrite app_nil_r|]. split; [|right; by exists r]. split; [| |by left|constructor].
      * rewrite Hf. apply advances_refl, Hp.
      * intros k loc. destruct Hex as [->| ->]; [by left|]. intros [Hk|(mv & Hm & _ & ->)]%moved_origin.
        -- apply staged_origin in Hk as [?|(w & Hw & Hl)]; [by left|]. right. left. exists w. split; [by eapply take_sub|done].
        -- right. right. exists mv. split; [by eapply take_sub|done].
Qed.

(** Only the frames change. *)
Lemma frames_moved v F its D D' f' e :
  PipeInv v F its -> es_frames e = f' -> advances (frames_of v) f' -> D' = D \/ D' = v_db v ->
  moved_on 0 [] v D its (set_v_es e v) D'.
Proof. intros Hp He Had HD. split; [by rewrite <- He in Had|by left|done|constructor]. Qed.
(** The commit of a task, if any, is queued in the specification too. *)
Lemma follow_explains v v' (its new : list Item) sp :
  PipeInv v (sp_files sp) its -> queued v v' new -> Forall2 explains its (sp_queue sp) ->
  sp_files (sp_follow v v' sp) = sp_files sp /\ Forall2 explains (its ++ new) (sp_queue (sp_follow v v' sp)).
Proof.
  intros Hp [[-> Hq]|(ms & drops & q & -> & Hq)] Hx; unfold sp_follow; rewrite Hq.
  - rewrite Nat.ltb_irrefl, app_nil_r. done.
  - assert ((length (v_queue v) <? length (v_queue v ++ [q]))%nat = true) as -> by (rewrite length_app; cbn; apply Nat.ltb_lt; lia).
    split; [done|]. apply Forall2_app; [done|]. by constructor.
Qed.

Lemma frames_step v sp D Fs da t e D' Fs' :
  WorldInv (mkWorld v sp D Fs da t) -> evolved (v_es v) e -> D' = D \/ D' = v_db v ->
  safe (es_frames e) (v_db v) D' Fs' -> WorldInv (mkWorld (set_v_es e v) sp D' Fs' da t).
Proof.
  intros (its & Hp & Hx & Hs & Ht) He HD Hs'. cbn in *. pose proof (evolved_advances _ _ _ _ _ He) as Had.
  exists its. cbn. split; [|split; [done|split; [exact Hs'|]]].
  - rewrite <- (with_quota_id v). apply pipe_evolved; [done|done|apply Hp].
  - pose proof (task_moved 0 [] EvSubmit v D its (set_v_es e v) D' t) as Hm. rewrite app_nil_r in Hm. cbn in Hm.
    apply Hm; [by eapply frames_moved|by left|done].
Qed.

Lemma world_step_inv w w' : world_step w w' -> WorldInv w -> WorldInv w'.
Proof.
  intros Hw Hi. pose proof Hi as (its & Hp & Hx & Hs & Ht).
  destruct Hw as [ev v sp v' sp' D Fs da t Hev|auth id file offset count v sp D Fs da t Hv Ha Ho Hc Hl|s fate v sp D Fs da t
    |c v sp D Fs da t Henv Hroom|rb segids prefix v sp D Fs da t Hfin|k v sp D Fs da t Hfin
    |env c rb t v sp D Fs da Hsm Hroom Hdn Hno|env c t v sp D Fs da Henv Hroom]; cbn [w_vol w_spec w_durable w_safe w_delete_at w_task] in *.
  - destruct (event_explained _ _ _ _ _ _ its Hev Hp Hx (task_moves _ _ _ _ Ht)) as (its' & He & Hp' & Hx').
    destruct (event_moved ev v _ its v' its' D Fs He Hp Hs) as (Hs' & n & new & -> & Hmo & Hk).
    exists (drop n its ++ new). split; [done|]. split; [done|]. split; [done|]. by eapply task_moved.
  - destruct (read_file_spec (task_locks t) v sp auth id file offset count) as (e & Hq & ->); try done.
    { exists its. split; [done|]. split; [done|]. by eapply task_moves. }
    pose proof (quiet_evolved _ _ (pp_es _ _ _ Hp) Hq) as He. cbn [snd].
    eapply frames_step; [exact Hi|done|by left|]. eapply safe_advance; [by eapply evolved_advances|exact Hs].
  - pose proof (proj1 (background_keeps s fate (frames_of v) (proj1 (pp_es _ _ _ Hp)))) as Hk.
    eapply frames_step; [exact Hi|by apply keeps_evolved; [apply Hp|]|by left|]. eapply safe_advance; [by apply keeps_advances|exact Hs].
  - pose proof (flush_ok compression seal_threshold max_inflight_seals v (sp_files sp) its D Fs da Hp Hs c Henv Hroom) as Hf.
    subst g. destruct (flush_barrier_step _ _ _ _) as [r g]. destruct Hf as (f' & -> & Hk & Hs' & _). cbn [snd gs_vol gs_durable] in *.
    eapply frames_step; [exact Hi|by apply keeps_evolved; [apply Hp|]|by destruct (flush_lands _ _ _ _); [right|left]|exact Hs'].
  - destruct (task_finished _ _ _ _ Hfin Ht) as [Hm Hd]. exists its. split; [done|]. split; [done|]. split; [done|].
    split; [|done]. split; [|done]. cbn. split; [|done]. split; [by split; constructor|]. by intros fr ?%not_elem_of_nil.
  - destruct (task_finished _ _ _ _ Hfin Ht) as [Hm Hd]. exists its. split; [done|]. split; [done|]. split; [done|]. by split.
  - destruct Ht as [Ht Hd].
    pose proof (compact_step_ok compression seal_threshold max_inflight_seals v (sp_files sp) its D Fs Hp Hs env c rb t Hsm Hroom Hdn Hno Hd Ht) as Hst.
    subst r. destruct (compact_step _ _ _ _ _ _ _) as [v' t']. cbn [fst snd]. destruct Hst as (new & (Hp' & Hq & Hdb & Hs') & Hdn' & Ht').
    destruct (follow_explains v v' its new sp Hp Hq Hx) as [Ef Hx']. exists (its ++ new). cbn. rewrite Ef. split_and!; try done.
    by rewrite drops_app, Hd, Hdn'.
  - pose proof (gc_step_ok compression seal_threshold max_inflight_seals v (sp_files sp) its D Fs da Hp Hs env c t Henv Hroom Ht) as Hst.
    subst r. destruct (gc_step _ _ _ _ _ _) as [g' t']. cbn [fst snd]. destruct Hst as (new & (Hp' & Hq & Hdb & Hs') & Ht').
    destruct (follow_explains v (gs_vol g') its new sp Hp Hq Hx) as [Ef Hx']. exists (its ++ new). cbn. rewrite Ef. by split_and!.
Qed.

(** ** Every run *)

(** A volume at rest whose tree was flushed. *)
Definition booted v F : World := mkWorld v (mkSpec F []) (v_db v) F ∅ Idle.

Lemma booted_inv v F : quiescent v F -> on_store (frames_of v) (extents (v_db v)) -> WorldInv (booted v F).
Proof.
  intros Hq Hst. destruct (quiescent_explained (fun _ => False) v F Hq) as (its & Hp & Hx & _). cbn in Hp, Hx.
  apply Forall2_nil_inv_r in Hx as ->. exists []. split; [exact Hp|]. split; [constructor|]. split; [|done]. cbn. split.
  - apply store_refs; [apply Hp|done].
  - done.
  - intros id file Hi. destruct (pp_files _ _ _ Hp id file Hi) as ((? & _) & ? & _). done.
Qed.
Lemma world_inv v F w :
  quiescent v F -> on_store (frames_of v) (extents (v_db v)) -> rtc world_step (booted v F) w -> WorldInv w.
Proof.
  intros Hq Hst. generalize (booted_inv v F Hq Hst). generalize (booted v F). intros w0 Hi Hr.
  induction Hr as [|w1 w2 w3 Hs _ IH]; [done|]. apply IH. by eapply world_step_inv.
Qed.
Lemma world_explained w : WorldInv w -> Explained (task_locks (w_task w)) (w_vol w) (w_spec w).
Proof. intros (its & Hp & Hx & _ & Ht). exists its. split; [done|]. split; [done|]. by eapply task_moves. Qed.

(** C1: compaction and reclaim are invisible.  However the steps of the background task -
    gathering, packing and repointing frames, deciding what is dead, verifying, deleting
    objects and dropping counters - interleave with submissions, batches, reads, uploads and
    flushes, with any requests lost and any answers lost on the way, every file holds exactly
    what the committed requests wrote in order, a read that is allowed returns those bytes
    cut at the submitted size, no extent refers to a deleted segment, and the namespace and
    the segment counters stay exact. *)
Theorem tasks_invisible v0 F w :
  quiescent v0 F -> on_store (frames_of v0) (extents (v_db v0)) -> rtc world_step (booted v0 F) w ->
  let v := w_vol w in let sp := w_spec w in
  (forall id file, inodes (v_db v) !! id = Some (IFile file) ->
     Stored (v_es v) (extents (v_db v)) id (sp_files sp id) /\ vf_size (sp_files sp id) = f_size file) /\
  (forall auth id file offset count,
     visible_inode v id = Ok (IFile file) ->
     match auth with Some a => check_access (IFile file) (from_auth_context a) Read | None => Ok tt end = Ok tt ->
     0 <= offset -> 0 <= count ->
     let size := vf_size (sp_submitted sp id) in let len := Z.min count (size - offset) in
     stored_len (v_db v) id offset len <= U32_MAX ->
     (read_file auth id offset count v).1 =
       Ok (if size <=? offset then ([], true) else (vf_read (sp_files sp id) offset len, size <=? offset + len))) /\
  (forall k loc, extents (v_db v) !! k = Some loc -> ~ seg_dead (frames_of v) (fl_segid loc)) /\
  NsState (v_fs v) /\ SegInv (v_fs v).
Proof.
  intros Hq Hst Hr v sp. pose proof (world_inv v0 F w Hq Hst Hr) as Hi. pose proof (world_explained w Hi) as He.
  destruct Hi as (its & Hp & Hx & Hs & Ht). split; [|split; [|split; [|split; apply Hp]]].
  - intros id file Hf. by destruct (pp_files _ _ _ Hp id file Hf) as (? & ? & _).
  - intros auth id file offset count Hv Ha Ho Hc. cbn zeta. unfold sp. rewrite <- (explained_size _ _ _ id file He Hv). intros Hl.
    by destruct (read_file_spec _ v sp auth id file offset count He Hv Ha Ho Hc Hl) as (e & _ & ->).
  - intros k loc Hk. by destruct (sf_refs _ _ _ _ _ _ _ Hs k loc Hk) as (d & _ & ?).
Qed.

(** C2: a crash loses nothing that a flush made durable, whatever compaction and reclaim
    have deleted since.  At every moment of every run, a writer that opens the durable tree
    over the objects then in the store, under an epoch of its own, finds every frame that
    the tree refers to, and every file reads as it did at the last flush that landed. *)
Theorem tasks_crash_safe v0 F w :
  quiescent v0 F -> on_store (frames_of v0) (extents (v_db v0)) -> rtc world_step (booted v0 F) w ->
  let objects := fr_objects (frames_of (w_vol w)) in
  forall e, epoch_above e objects ->
  FramesInv (new_frames e objects) /\
  (forall k loc, extents (w_durable w) !! k = Some loc ->
     exists d, frame_held (new_frames e objects) k.1 k.2 loc d /\ ~ seg_dead (new_frames e objects) (fl_segid loc)) /\
  (forall id file, inodes (w_durable w) !! id = Some (IFile file) ->
     FileRep (new_frames e objects) (extents (w_durable w)) id (w_safe w id) /\ vf_size (w_safe w id) = f_size file).
Proof.
  intros Hq Hst Hr objects e Hab. destruct (world_inv v0 F w Hq Hst Hr) as (its & Hp & Hx & Hs & Ht).
  pose proof (proj1 (pp_es _ _ _ Hp)) as Inv. cbn in Inv. split; [by apply new_frames_inv; [apply frames_objects_wf|]|]. split.
  - intros k loc Hk. destruct (sf_store _ _ _ _ _ _ _ Hs k loc Hk) as (d & Hd). exists d. by apply reopened_object.
  - intros id file Hf. destruct (sf_files _ _ _ _ _ _ _ Hs id file Hf) as [[Hsz He Hh Hz] Hv]. split; [|done]. split; [done| |done|done].
    intros x loc Hl. destruct (He x loc Hl) as [[Hhe Hd] Hx']. split; [|done].
    destruct (sf_store _ _ _ _ _ _ _ Hs (id, x) loc Hl) as (d & Ho). pose proof (object_frame _ _ _ _ _ Inv Ho) as [Hfr _].
    rewrite (frame_held_fun _ _ _ _ _ _ Hhe Hfr). by apply reopened_object.
Qed.
End world.
