(* ===== verification/WorldRuns.v ===== *)
(** * A run of the volume with its background tasks

    Two writes are committed and flushed; compaction packs their segment and repoints both
    extents; a reclaim pass finds the old segment dead, verifies it, deletes its object and
    drops its counters. *)

From stdpp Require Import sorting.
From S2P Require Import Prelude Errors KeyCodec FrameCodec Segment Quota Inode Dedup Permissions Store Namespace Commit Usage Ops Boot OpsCreate.
From S2P Require Import Lanes FrameStore SegmentStore Frames Extent ExtentSpec SegCounts DataPlane Volume Registry OpsWrite OpsIo Staged.
From S2P Require Import Pipeline Submit PipelineSpec PipelineRuns Verify CompactPlan Compact Gc Tasks CompactSpec CompactTask GcTask World.

Module TestWorld.
Import TestPlane TestPipeline.
#[local] Existing Instance TestPrims.prims.
#[local] Existing Instance TestPrims.laws.
#[local] Existing Instance TestCrc.crc.
#[local] Existing Instance TestCrc.laws.
#[local] Abbreviation world_step := (world_step Lz4 100000 4).

(** ** Scripts *)

Definition fate : PutFate := mkPutFate (mkCreateFate true Delivered true) (UploadAccepted true).
Definition pick : CompactChoice := mkChoice 0 true fate TestSegment.nonce (fun _ => TestSegment.nonce) true.
Definition choice : GcChoice := mkGcChoice env true (Ok (Some (50, None))) 60 true true None.

Inductive Action := Flush | Compaction_of (segids : list Segid) | Reclaim_pass | Task_step | Turn (n : nat).

Definition in_memory (f : Frames) : list bytes :=
  map os_buf (fr_lanes f) ++ (map_to_list (fr_sealing f)).*2 ++
  (map_to_list (ob_live (fr_objects f))).*2 ++ (map_to_list (ob_deleted (fr_objects f))).*2.
Definition small (v : Volume Frames) : bool := forallb (fun b => zlen b <=? U32_MAX) (in_memory (frames_of v)).
Definition turn_fits (n : nat) (v : Volume Frames) : bool :=
  let batch := map qc_request (take n (v_queue v)) in
  let after := extents (apply_ops (v_db v) (batch_ops batch)) in
  (Commit.next_id (v_fs v) + 1 <? U64_MAX) && batch_written (Applied (Ok tt)) batch (v_fs v) &&
  (foldr (fun d acc => Z.abs d.2.1 + acc) 0 (batch_segs batch) <=? I64_MAX) &&
  forallb (fun kl => 0 <=? fl_byte_len kl.2) (map_to_list after) && (msum (fun _ loc => fl_byte_len loc) after <=? U64_MAX).

Definition exec (a : Action) (w : World) : option World :=
  let '(mkWorld v sp D safe da t) := w in
  if negb (fr_counter (frames_of v) <? 1000) then None
  else
    match a with
    | Flush =>
        let g := (flush_barrier_step Lz4 4 choice (mkGcState v D da)).2 in
        Some (mkWorld (gs_vol g) sp (gs_durable g) (if flush_lands Lz4 4 choice v then sp_files sp else safe) da t)
    | Compaction_of segids => if finished t then Some (mkWorld v sp D safe da (Compacting 1000000 (compaction_start segids []))) else None
    | Reclaim_pass => if finished t then Some (mkWorld v sp D safe da (Collecting (Barrier ReclaimPass))) else None
    | Task_step =>
        match t with
        | Idle => None
        | Compacting rb t =>
            let r := compact_step Lz4 100000 example_env pick rb v t in
            if small v then Some (mkWorld r.1 (sp_follow v r.1 sp) D safe da (Compacting rb r.2)) else None
        | Collecting t =>
            let r := gc_step Lz4 4 example_env choice (mkGcState v D da) t in
            Some (mkWorld (gs_vol r.1) (sp_follow v (gs_vol r.1) sp) (gs_durable r.1)
                    (if gc_flushes Lz4 4 choice v t then sp_files sp else safe) (gs_delete_at r.1) (Collecting r.2))
        end
    | Turn n =>
        let r := worker_turn 150 100 (Applied (Ok tt)) n v in
        if turn_fits n v then Some (mkWorld r.2 (sp_commit n sp) D safe da (task_deliver (EvTurn n r.1) t)) else None
    end.
Fixpoint exec_all (script : list Action) (w : World) : option World :=
  match script with
  | [] => Some w
  | a :: rest => match exec a w with Some w => exec_all rest w | None => None end
  end.

Definition old : World := mkWorld committed spec (v_db volume) (fun _ => empty_file) ∅ Idle.
Definition script : list Action :=
  [Flush; Compaction_of [seg]] ++ replicate 10 Task_step ++ [Turn 1; Task_step; Task_step; Reclaim_pass] ++
  replicate 14 Task_step ++ [Turn 1].
Definition final : World := default old (exec_all script old).

(** ** Scripts are runs *)

Lemma small_spec v : small v = true -> small_segments (frames_of v).
Proof.
  intros Hb s buf dir Hd.
  assert (Hin : buf ∈ in_memory (frames_of v)).
  { unfold in_memory. rewrite !elem_of_app. unfold seg_data, object_data in Hd. destruct (find_lane _ s) as [o|] eqn:Ef.
    - injection Hd as <- _. left. apply (list_elem_of_fmap_2 os_buf). unfold find_lane in Ef. apply find_some in Ef as [Ho _]. by apply list_elem_of_In.
    - destruct (fr_sealing (frames_of v) !! s) as [b|] eqn:Es.
      { injection Hd as <- _. right. left. apply (list_elem_of_fmap_2 snd _ (s, b)). by apply elem_of_map_to_list. }
      destruct (ob_live _ !! s) as [b|] eqn:El.
      { injection Hd as <- _. do 2 right. left. apply (list_elem_of_fmap_2 snd _ (s, b)). by apply elem_of_map_to_list. }
      destruct (ob_deleted _ !! s) as [b|] eqn:Ed; [|done].
      injection Hd as <- _. do 3 right. apply (list_elem_of_fmap_2 snd _ (s, b)). by apply elem_of_map_to_list. }
  apply list_elem_of_In in Hin. apply (proj1 (forallb_forall _ _) Hb) in Hin. lia.
Qed.

Lemma turn_fits_spec n v : turn_fits n v = true ->
  id_room (v_fs v) /\ counters_fit v n /\ batch_written (Applied (Ok tt)) (map qc_request (take n (v_queue v))) (v_fs v) = true.
Proof.
  unfold turn_fits. rewrite !andb_true_iff, Z.ltb_lt, !Z.leb_le. intros [[[[Hid Hw] Hs] Hp] Hl].
  split; [done|]. split; [|done]. split; intros s.
  - etrans; [|exact Hs]. unfold ksum. generalize (batch_segs (map qc_request (take n (v_queue v)))). clear.
    induction l as [|d l IH]; cbn; [lia|]. destruct (decide _); lia.
  - etrans; [|exact Hl]. apply msum_le. intros k loc Hk. assert (Hin : (k, loc) ∈ map_to_list (extents (apply_ops (v_db v) (batch_ops (map qc_request (take n (v_queue v)))))))
      by by apply elem_of_map_to_list. apply list_elem_of_In in Hin. apply (proj1 (forallb_forall _ _) Hp) in Hin. cbn in Hin.
    unfold seg_bytes. case_decide; lia.
Qed.

Lemma env_good : env_ok (gh_flush choice).
Proof. intros i. reflexivity. Qed.

Lemma exec_step a w w' : exec a w = Some w' -> world_step w w'.
Proof.
  destruct w as [v sp D S da t]. cbn [exec]. destruct (Z.ltb_spec (fr_counter (frames_of v)) 1000) as [Hc|]; [|done]. cbn [negb]. assert (Hlanes : lanes_fit v) by (unfold lanes_fit, OPEN_SEGMENT_LANES; ulia).
  destruct a as [|segids| | |n].
  - intros [= <-]. apply (ws_flush Lz4 100000 4 choice); [apply env_good|done].
  - destruct (finished t) eqn:Ht; [|done]. intros [= <-]. by constructor.
  - destruct (finished t) eqn:Ht; [|done]. intros [= <-]. by constructor.
  - destruct t as [|rb t|t]; [done| |].
    + destruct (small v) eqn:Hsm; [|done]. intros [= <-]. apply small_spec in Hsm. apply (ws_compact Lz4 100000 4 example_env pick); [done|ulia|reflexivity|reflexivity].
    + intros [= <-]. apply (ws_collect Lz4 100000 4 example_env choice); [apply env_good|done].
  - destruct (turn_fits n v) eqn:Ht; [|done]. intros [= <-]. destruct (turn_fits_spec n v Ht) as (? & ? & ?).
    apply (ws_pipe Lz4 100000 4 (EvTurn n (worker_turn 150 100 (Applied (Ok tt)) n v).1)). by apply step_commit.
Qed.
Lemma exec_all_run script0 : forall w w', exec_all script0 w = Some w' -> rtc world_step w w'.
Proof.
  induction script0 as [|a rest IH]; intros w w'; cbn [exec_all]; [by intros [= ->]|].
  destruct (exec a w) as [w1|] eqn:E; [|done]. intros Hr. eapply rtc_l; [by eapply exec_step|by apply IH].
Qed.

(** The steps of the idle world are those of the pipeline. *)
Lemma idle_run D S da a b : rtc (pipe_step (fun _ => False)) a b ->
  rtc world_step (mkWorld a.1 a.2 D S da Idle) (mkWorld b.1 b.2 D S da Idle).
Proof.
  induction 1 as [|[v sp] [v' sp'] b [ev Hs] _ IH]; [done|]. eapply rtc_l; [|exact IH]. cbn [fst snd].
  replace Idle with (task_deliver ev Idle) at 2 by (by destruct ev). by apply (ws_pipe Lz4 100000 4).
Qed.

(** What the final state looks like: the old segment is gone, with its counters; the file
    can be seen and read. *)
Definition reclaimed_world (w : World) : bool :=
  bool_decide (ob_live (fr_objects (frames_of (w_vol w))) !! seg = None) && bool_decide (segcounts (v_db (w_vol w)) !! seg = None) &&
  bool_decide (is_Some (ob_deleted (fr_objects (frames_of (w_vol w))) !! seg)).
Definition wanted_read (w : World) : bytes * bool :=
  let size := vf_size (sp_submitted (w_spec w) 2) in let len := Z.min 100 (size - 327679) in
  if size <=? 327679 then ([], true) else (vf_read (sp_files (w_spec w) 2) 327679 len, size <=? 327679 + len).
Definition readable (w : World) : bool :=
  match visible_inode (w_vol w) 2 with Ok (IFile _) => true | _ => false end &&
  (stored_len (v_db (w_vol w)) 2 327679 (Z.min 100 (vf_size (sp_submitted (w_spec w) 2) - 327679)) <=? U32_MAX) &&
  bool_decide (wanted_read w = ([0; 1; 2; 3], true)).
Definition reopens (w : World) : bool :=
  forallb (fun s => epoch s <? 8) ((map_to_list (ob_live (fr_objects (frames_of (w_vol w))))).*1 ++ (map_to_list (ob_deleted (fr_objects (frames_of (w_vol w))))).*1) &&
  match inodes (w_durable w) !! 2 with Some (IFile f) => (f_size f =? 327683) && (vf_byte (w_safe w 2) 1 =? 5) | _ => false end.
Lemma script_runs :
  match exec_all script old with Some w => reclaimed_world w && readable w && reopens w | None => false end = true.
Proof. vm_compute. reflexivity. Qed.
Lemma final_facts : exec_all script old = Some final /\ reclaimed_world final && readable final && reopens final = true.
Proof. pose proof script_runs as Hs. unfold final. by destruct (exec_all script old). Qed.

Lemma whole_run : rtc world_step (booted volume (fun _ => empty_file)) final.
Proof.
  etrans; [exact (idle_run (v_db volume) (fun _ => empty_file) ∅ _ _ run)|]. apply (exec_all_run script old), final_facts.
Qed.
Lemma volume_stored : on_store (frames_of volume) (extents (v_db volume)).
Proof. intros k loc. change (v_db volume) with (fs_db example_tree). rewrite (proj1 tree_empty). by rewrite lookup_empty. Qed.

Lemma final_epoch : epoch_above 8 (fr_objects (frames_of (w_vol final))).
Proof.
  pose proof (proj2 final_facts) as [_ [Hall _]%andb_true_iff]%andb_true_iff. split; [ulia|]. intros s Hs.
  assert (Hin : s ∈ (map_to_list (ob_live (fr_objects (frames_of (w_vol final))))).*1 ++ (map_to_list (ob_deleted (fr_objects (frames_of (w_vol final))))).*1).
  { apply elem_of_app. destruct Hs as [[b Hb]|[b Hb]]; [left|right]; apply (list_elem_of_fmap_2 fst _ (s, b)); by apply elem_of_map_to_list. }
  apply list_elem_of_In in Hin. apply (proj1 (forallb_forall _ _) Hall) in Hin. lia.
Qed.
End TestWorld.

Import TestPlane.

(** After both writes were moved and their segment was deleted the file reads as before. *)
Lemma tasks_invisible_witness :
  TestWorld.reclaimed_world TestWorld.final = true /\
  (read_file None 2 327679 100 (w_vol TestWorld.final)).1 = Ok ([0; 1; 2; 3], true).
Proof.
  pose proof (proj2 TestWorld.final_facts) as [[Hc [[Hv Hl]%andb_true_iff Hw]%andb_true_iff]%andb_true_iff _]%andb_true_iff. split; [exact Hc|].
  destruct (tasks_invisible (H := TestPrims.prims) (H0 := TestPrims.laws) (H1 := TestCrc.crc) (H2 := TestCrc.laws) Lz4 100000 4
    TestPipeline.volume (fun _ => TestPipeline.empty_file) TestWorld.final TestPipeline.at_rest TestWorld.volume_stored TestWorld.whole_run)
    as (_ & Hr & _).
  destruct (visible_inode (w_vol TestWorld.final) 2) as [[f| | | | | |]|e] eqn:E; try discriminate Hv.
  apply bool_decide_eq_true in Hw. rewrite <- Hw. apply (Hr None 2 f 327679 100 E eq_refl); [lia|lia|]. by apply Z.leb_le.
Defined.

(** A writer of epoch 8 that opens the durable tree finds the file. *)
Lemma tasks_crash_safe_witness :
  vf_byte (w_safe TestWorld.final 2) 1 = 5 /\
  FileRep (new_frames 8 (fr_objects (es_frames (v_es (w_vol TestWorld.final)))))
    (extents (w_durable TestWorld.final)) 2 (w_safe TestWorld.final 2).
Proof.
  pose proof (proj2 TestWorld.final_facts) as [_ [_ Hd]%andb_true_iff]%andb_true_iff.
  destruct (inodes (w_durable TestWorld.final) !! 2) as [[f| | | | | |]|] eqn:E; try discriminate Hd.
  apply andb_true_iff in Hd as [_ Hd]. split; [by apply Z.eqb_eq|].
  exact (proj1 (proj2 (proj2 (tasks_crash_safe (H := TestPrims.prims) (H0 := TestPrims.laws) (H1 := TestCrc.crc) (H2 := TestCrc.laws) Lz4 100000 4
    TestPipeline.volume (fun _ => TestPipeline.empty_file) TestWorld.final TestPipeline.at_rest TestWorld.volume_stored TestWorld.whole_run
    8 TestWorld.final_epoch)) 2 f E)).
Defined.
